(* ===== verification/_CoqProject ===== *)
-Q . S2P
Prelude.v
Job.v
Heap.v
Index.v
Framing.v
LogSpec.v
Wal.v
WalSpec.v
WalFaults.v
WalProps.v
Utf8.v
Json.v
JsonProps.v
JsonPrefix.v
Rfc3339.v
Fields.v
FieldsProps.v
Event.v
Memory.v
MemSpec.v
Committer.v
CommitterProps.v
Store.v
Metrics.v
Snapshot.v
StoreSpec.v
System.v
Accounts.v
Durability.v
SnapshotSpec.v
Life.v
Codec.v
CodecProps.v
Demo.v
StoreProps.v
Typed.v
EventSize.v
SnapshotProps.v
Marshal.v
MarshalProps.v
LateSnapshot.v
Dispatcher.v
DispatchSpec.v
DispatchProps.v
Server.v
ServerProps.v
LeaseStream.v
MetricsProps.v
Handler.v
Worker.v
WorkerProps.v
Pool.v
PoolProps.v
Cli.v
CliProps.v
Commands.v
CommandsProps.v
Bench.v
BenchProps.v
Broker.v
BrokerProps.v
Connect.v
ConnectProps.v
EndToEnd.v
Flags.v
FlagsProps.v
