(* ===== verification/Prelude.v ===== *)
(** * Conveyor: a verification library for the job queue

    Conveyor is a durable job queue. Clients submit jobs to a broker over RPC;
    the broker writes every transition to a write-ahead log before it answers,
    keeps the jobs in memory, and hands them out to workers under leases with
    fencing tokens; a worker acknowledges a job, reports a failure or lets its
    lease run out, and a failed job is retried with a backoff until its budget
    is spent and it is dead-lettered.

    ** Parts of the program and where they are modelled

    - [src/internal/job/job.go], [backoff.go]: file [Job]. The record, states,
      priorities, identifiers and the retry delay, at the widths of the code
      ([int], [time.Duration] and [uint64] are 64 bits; instants are integers of
      nanoseconds, unbounded). Random numbers and the clock are arguments.
    - [src/internal/broker/index.go]: [Heap] is [container/heap] over a list
      (sift up, sift down, Push, Pop) for any weak order; [Index] is
      [scheduleIndex], a ready and a delayed heap per queue with [push],
      [promote], [pop] and [nextDeadline].
    - [src/internal/wal/wal.go]: [Framing] is the record format and
      [scanRecords]; [LogSpec] is what a log promises, a sequence of records
      with a written and a durable prefix ([abs_log]), the class [LogOps] of
      its operations and [LogLaws] of their laws; [Wal] is the log as the code
      has it, segment files on a directory, a buffer and counters, where every
      system call may fail and a crash may cut any file behind what was synced
      ([crash]); [WalSpec] proves that [Wal] implements [LogSpec] (the
      instances [wal_ops] and [wal_laws]) as long as no call fails; [WalFaults]
      follows the calls of an append and a sync when any of them fails;
      [WalProps] has the theorems.
    - [src/internal/broker/event.go]: [Event], the events, and the classes
      [EventCodec] and [CodecLaws] of an encoding, which is all the store knows
      of it. The encoding the program has is the JSON of [encoding/json], and of
      that what the program relies on is modelled: [Utf8] texts, [Json] values,
      printing and parsing, with [JsonProps] (printing and parsing are inverse,
      what is read back of an object's members) and [JsonPrefix] (a printed
      object that is cut short does not parse), [Rfc3339] times, [Fields] the
      decoding of a struct by the names of its fields with [FieldsProps], and
      [Codec] the structs of the program: [event], [job.Job] and [snapshot],
      each field with its name, its kind and its [omitempty]. [CodecProps] and
      [Typed] have the theorems and the instances of the classes; [EventSize]
      bounds the length of what is written.
    - [src/internal/broker/store.go]: [Memory] is the state in memory, [apply],
      and what happens to it after a replay; [MemSpec] its invariant, the
      histories a store writes, and the equivalences of states; [Store] is the
      store and each of its methods over any log and encoding; [StoreSpec] the
      invariant of the store and the rules of its methods; [System] the
      operations as a type, with the effect each has on a job; [Durability]
      relates the memory to the events in the log and to what a crash leaves
      of them; [Life] is the step relation of a broker over several lives
      (operations, snapshots at any moment and without a flush, as the broker
      takes them, crashes and reopenings) with the invariant [in_service]; [Demo]
      instantiates everything with the log of [Wal] and the JSON encodings;
      [StoreProps] has the theorems.
    - The snapshots of [store.go]: [Snapshot] is the directory they live in,
      where names and contents survive a crash only once they are synced, with
      [Store.Snapshot], [loadLatestSnapshot], [pruneSnapshots] and [OpenStore];
      [SnapshotSpec] and [SnapshotProps] have the lemmas and the theorems.
      [Marshal] and [MarshalProps] are about a snapshot whose jobs change while
      it is marshalled, and [LateSnapshot] about one that is written out after
      the log has gone on.
    - [src/internal/broker/commit.go]: [Committer], the waiter list and
      [flushLoop] as a step relation with its invariant, which records what was
      appended when each flush began and how it ended; [CommitterProps].
    - [src/internal/broker/dispatcher.go]: [Dispatcher], the streams, the
      owners and each section of [dispatch] as functions; their composition
      when nothing interferes ([dispatch], [run_once]) and the relation
      [step] in which handlers, workers and other clients of the store come
      in between any two sections; [DispatchSpec], [DispatchProps].
    - [src/internal/broker/server.go]: [Server], the handlers over the state of
      the dispatcher, which holds the store; [ServerProps]. The loop of [Lease]
      that streams jobs to a worker is [LeaseStream], among all the other steps
      of the dispatcher.
    - [src/internal/metrics/metrics.go]: [Metrics], the instruments and what the
      updates of the store add up to; [Accounts] relates counters and jobs by
      books, sums over both that every call keeps in step; [MetricsProps].
    - [src/internal/handler]: [Handler], with the decoding of a webhook's payload
      and [http.Client.Do], redirects included, over a network that is an
      argument ([Net]); [src/internal/worker/pool.go]:
      [Worker], the life of one job in a worker as a step relation;
      [WorkerProps] for both; [Pool], the loop of [Run] with all its jobs side
      by side, and [PoolProps].
    - [src/internal/genproto/conveyor/v1/conveyorv1connect/queue.connect.go],
      with what [client.go], [broker.go], [server.go] and [http.go] set up around
      it: [Connect] and [ConnectProps], the client, the handler and the routes
      between them, over a class of the operations of the connect library
      ([ConnectLib]) and one of their laws ([ConnectLaws]): messages whose texts
      are UTF-8 are carried, others are refused. [EndToEnd] follows a
      job from the command that submits it through the broker and its crashes to
      the command that shows it.
    - [src/cmd/conveyor]: [Cli] and [CliProps], [submit] and what the commands
      share; [Commands] and [CommandsProps], [get], [status], [dlq] and the pool
      [worker] starts; [Bench] and [BenchProps], the load generator and its
      report, in binary64 arithmetic; [Broker] and [BrokerProps] for the
      goroutines of [broker.go], from the start of the process to its end;
      [Flags] and [FlagsProps], the tree of commands and their flags.

    The parts meet where the code does: the handlers and the dispatcher call
    the methods of [Store]; a worker's requests and messages are the records of
    [Server]; the store relies on the contract of a commit, that it returns the
    result of a flush begun after the call, which [commit_own_flush] proves (so
    [commitDurable] of [Store] is a [Sync] of the log).

    A method that takes the mutex of the store, releases it and then waits for
    a flush is the composition of its locked section and [commitDurable];
    [System.operation] has the locked sections and the flush as separate steps,
    so a run interleaves those of concurrent callers in any order.

    ** What is shown

    - Durability and recovery: what was acknowledged is there after any run of
      operations, snapshots, crashes and recoveries ([acked_submit_survives],
      [acked_job_stays_done]); a recovered store agrees with a prefix of the
      history that contains everything flushed ([crash_recovery]). The
      conditions of a run are those of [Life.step]: no call on the log fails, a
      recovery meets no I/O error, what is recorded can be encoded and 64-bit
      numbers have room, and no crash loses records that a snapshot which is
      left covers ([covered]). The last is about the broker's unflushed
      snapshots: [snapshot_hides_acknowledged_submit] is what happens without it.
    - The log: what is acknowledged is on stable storage, whichever call of an
      append fails ([AppendSync_durable], on a log where no earlier one did;
      [retried_write_loses_acknowledged_record] is what happens after one);
      a crash keeps what was synced ([crash_keeps_durable]); a torn or
      corrupt tail is cut exactly behind the last intact record
      ([scan_torn_tail], [scan_corrupt_stops], [truncate_valid_end]).
    - Snapshots lose nothing of what they capture ([snapshot_lossless]) and,
      taken after a flush, cost nothing whatever fails ([snapshot_crash_safe]);
      a snapshot file that was cut short is recognised ([snapshot_lossless]);
      marshalled while the store is running, they converge with the log
      ([late_marshal_converges]), and a crash around one that was written out
      late costs nothing either ([late_snapshot_crash_safe]).
    - Encoding: what is written is read back ([event_json_roundtrip]), and
      everything a store holds or records can be written as long as what the
      clients submit is text and the times have four-digit years
      ([stored_data_typed]); if it is not too long either, the log takes every
      event, so the condition that the theorems about durability put on the
      encoding holds of each operation in turn ([writes_are_accepted]).
    - Group commit: a caller gets the result of a flush that began after its
      call, with everything appended before it in the log by then
      ([commit_own_flush]; that a flush which succeeds makes all of that durable
      is the log's part), always gets one ([commit_always_returns]), and
      flushes are shared ([flushes_shared]).
    - Fencing: tokens never repeat along a run, crashes included, under the
      conditions above ([tokens_never_repeat]);
      a message with a stale token changes nothing ([fenced_worker_rejected],
      [zombie_never_accepted]).
    - Scheduling: a lease takes the best eligible job and one is found when one
      is there ([lease_fair_and_live], [promote_pop_order], [promote_exact],
      [nextDeadline_earliest]); hand-overs are exclusive and go where the lease
      says ([handover_exclusive]), slots are never overdrawn
      ([slots_accounted]), a dispatch ends and leaves nobody idle that could
      work, unless the store refuses the very lease that was asked for
      ([dispatch_work_conserving]), streams take turns
      ([pass_one_job_each]), and the loop wakes in time ([sleepFor_bounds]).
    - Life cycle: the transitions of a job ([job_life_cycle]), its retry budget
      ([nack_respects_budget], [timeout_costs_as_nack], [reclaim_exact]), and
      the invariant of the store ([store_wf_preserved]).
    - The RPC surface: outcome and error code of every call that changes state
      ([submit_rpc], [report_rpcs], [heartbeat_rpc], [replay_rpc]), bounds on
      what a worker may ask for ([lease_duration_granted],
      [lease_stream_admitted]), and queries ([list_jobs_exact], [stats_exact]).
      A worker gets its jobs in the order of their leases, each once
      ([stream_in_order]).
    - Metrics: counters and gauges account for the jobs in the store
      ([counters_account]).
    - Workers: one truthful report per job ([one_truthful_report]), for every
      job before [Run] returns ([run_reports_all]); a lost
      lease stops the work ([rejected_heartbeat_aborts]), when heartbeats are
      in time ([heartbeat_in_time]); what the handlers pass on: the request
      that any payload of a webhook asks for ([webhook_delivers]), and messages
      cut to a length ([truncate_bounded]).
    - The command line against the broker's handlers: [submit_reports_accepted],
      [status_command_exact], [dlq_list_replay]; the report of [bench]
      ([submitter_measures], [report_accounts], [percentile_observed]); and
      [display_matches], [round_close], [metric_line_roundtrip]. The flags of
      each command are declared once, with defaults that the program accepts
      ([declarations_sound], [defaults_meet], [defaults_work]).
    - The connection: every call of a client whose message can be sent reaches
      the method of the server it names, and other paths and methods none ([rpc_routed],
      [other_paths_refused], [all_methods_implemented], [protocols_meet]); a job
      that [submit] reports is shown by [get] after any run of the store in
      between ([submitted_job_is_shown]).
    - The broker process goes down in order ([shutdown_in_order]).
    - Errors: a store whose log failed to flush takes no more writes
      ([poisoned_store_refuses]), duplicate submissions, rejected appends.
    - Arithmetic and text: the backoff and its bounds, identifiers, names of
      segments, priorities.
    - Where the code falls short of its comments:
      [retried_write_loses_acknowledged_record],
      [snapshot_hides_acknowledged_submit], [unreadable_snapshot_loses_silently],
      [slow_worker_blocks_dispatch], [nack_race_leaks_slot],
      [renewal_does_not_extend], [crash_loop_outlives_budget],
      [idem_keys_collide], [Backoff_overflow_wraps],
      [serve_error_closes_too_early], [sweep_error_uncounted],
      [shell_reason_not_text], [generated_worker_ids_collide],
      [status_lsn_not_durable], [max_retries_wraps],
      [snapshot_interval_panics], [redirected_webhook_loses_body]; and
      [job_life_cycle] against the diagram of the states.

    ** Fuel and bounds

    [Heap.up] and [Heap.down] get the length of the heap, more than its
    height; [promote_loop] the number of delayed entries, each round removes
    one; [lease_loop] one more than the number of ready entries, each round
    removes one and none is added (an entry filed back goes to the delayed
    heap); [scan_loop] one more than the bytes left, each round consumes more
    than eight. Each bound is proved enough by the theorem about the function:
    its result is the one of the unbounded loop. [dispatch_loop] gets one more
    than the free slots of the streams, every pass but the last takes one. The
    parser of JSON gets one more than twice the length of its input
    ([parse_fuel_enough]). Sequence numbers and tokens wrap around at 64 bits;
    theorems that need room say so ([a_room], [epoch_room]).

    ** What is not modelled

    [Store.Snapshot] as a function runs without other operations in between.
    [LateSnapshot] lets them come in between once the jobs are captured, with
    fields that are read one at a time as [Marshal] has it, and writes the
    result out after a flush; a crash before such a flush is the finding of
    [snapshot_hides_acknowledged_submit]. Of [encoding/json], a number that
    names no state or priority, and a [null] among the jobs of a snapshot, are
    errors, where the code reads them; it never writes them. Of the command
    line, the parsing by the flag library and the padding of tables are left
    out. Running a process, the round trip of an HTTP request, what [net/url]
    makes of a URL, and the parser of floating-point numbers are arguments.
    A run of [Life] has no failing call on the log; what one does is the part of
    [AppendSync_durable] and [poisoned_store_refuses]. The protocol messages of [queue.pb.go] are generated
    code that the protobuf library drives; the model has their fields. The
    schemas and options of the connect library, the Prometheus registry, logging
    and the network are outside. Data races are outside: a locked section is
    atomic. *)
From Stdlib Require Export ZArith NArith Lia String Ascii List Permutation Sorted.
From stdpp Require Export base gmap strings list fin_maps sets sorting.

#[global] Open Scope Z_scope.

(** [lia] that knows division and remainder by constants. *)
Ltac lia_div := zify; Z.to_euclidean_division_equations; lia.

(** ** Machine integers *)

(** Two's complement wrap-around of an [int64]. *)
Definition i64 (z : Z) : Z := (z + 2 ^ 63) mod 2 ^ 64 - 2 ^ 63.

(** Wrap-around of an [int32]. *)
Definition i32 (z : Z) : Z := (z + 2 ^ 31) mod 2 ^ 32 - 2 ^ 31.

(** Wrap-around of the unsigned widths. *)
Definition u64 (n : N) : N := (n mod 2 ^ 64)%N.
Definition u32 (n : N) : N := (n mod 2 ^ 32)%N.

Definition is_i64 (z : Z) : Prop := - 2 ^ 63 <= z < 2 ^ 63.
Definition is_u64 (n : N) : Prop := (n < 2 ^ 64)%N.

Lemma i64_id z : is_i64 z -> i64 z = z.
Proof. unfold is_i64, i64. intros H. rewrite Z.mod_small; lia. Qed.

Lemma i64_range z : is_i64 (i64 z).
Proof.
  unfold is_i64, i64.
  pose proof (Z.mod_pos_bound (z + 2 ^ 63) (2 ^ 64) ltac:(lia)). lia.
Qed.

Lemma u64_id n : is_u64 n -> u64 n = n.
Proof. unfold is_u64, u64. intros H. by apply N.mod_small. Qed.

Lemma u64_range n : is_u64 (u64 n).
Proof. unfold is_u64, u64. apply N.mod_lt. lia. Qed.

(** ** Bytes

    A Go byte is an [ascii], a [[]byte] a list of them, a Go string a
    [string]: both are plain sequences of bytes. *)
Abbreviation byte := ascii (only parsing).
Abbreviation bytes := (list ascii) (only parsing).

Definition byte_of (n : N) : byte := ascii_of_N (n mod 256).

Lemma N_of_byte_of n : N_of_ascii (byte_of n) = (n mod 256)%N.
Proof. unfold byte_of. apply N_ascii_embedding. apply N.mod_lt. lia. Qed.

Lemma byte_of_N_of b : byte_of (N_of_ascii b) = b.
Proof.
  unfold byte_of. rewrite N.mod_small by apply N_ascii_bounded.
  apply ascii_N_embedding.
Qed.

(** [binary.LittleEndian.PutUint32] and [Uint32]. *)
Definition le32 (n : N) : bytes :=
  [byte_of n; byte_of (n / 256); byte_of (n / 65536); byte_of (n / 16777216)].

Definition un_le32 (b : bytes) : N :=
  match b with
  | [b0; b1; b2; b3] =>
      (N_of_ascii b0 + 256 * N_of_ascii b1 + 65536 * N_of_ascii b2
       + 16777216 * N_of_ascii b3)%N
  | _ => 0%N
  end.

Lemma length_le32 n : length (le32 n) = 4%nat.
Proof. reflexivity. Qed.

Lemma un_le32_le32 n : (n < 2 ^ 32)%N -> un_le32 (le32 n) = n.
Proof.
  intros Hn. unfold un_le32, le32. rewrite !N_of_byte_of.
  change (2 ^ 32)%N with 4294967296%N in Hn. lia_div.
Qed.

Lemma un_le32_bound b : (un_le32 b < 2 ^ 32)%N.
Proof.
  change (2 ^ 32)%N with 4294967296%N. unfold un_le32.
  destruct b as [|b0 [|b1 [|b2 [|b3 [|]]]]]; try lia.
  pose proof (N_ascii_bounded b0). pose proof (N_ascii_bounded b1).
  pose proof (N_ascii_bounded b2). pose proof (N_ascii_bounded b3). lia.
Qed.

Lemma le32_un_le32 b : length b = 4%nat -> le32 (un_le32 b) = b.
Proof.
  destruct b as [|b0 [|b1 [|b2 [|b3 [|]]]]]; cbn [length]; try lia. intros _.
  unfold le32, un_le32, byte_of.
  pose proof (N_ascii_bounded b0). pose proof (N_ascii_bounded b1).
  pose proof (N_ascii_bounded b2). pose proof (N_ascii_bounded b3).
  assert (Hb : forall e b, e = N_of_ascii b -> ascii_of_N e = b)
    by (intros e b ->; apply ascii_N_embedding).
  f_equal; [|f_equal; [|f_equal; [|f_equal]]]; apply Hb; lia_div.
Qed.

(** ** Go string order: bytewise lexicographic *)

Definition str_ltb (a b : string) : bool :=
  match String.compare a b with Lt => true | _ => false end.

Lemma ascii_compare_spec a b :
  Ascii.compare a b = N.compare (N_of_ascii a) (N_of_ascii b).
Proof. reflexivity. Qed.

Lemma str_ltb_irrefl a : str_ltb a a = false.
Proof.
  unfold str_ltb. induction a as [|x a IH]; [done|].
  cbn. by rewrite ascii_compare_spec, N.compare_refl.
Qed.

Lemma str_ltb_trans a b c :
  str_ltb a b = true -> str_ltb b c = true -> str_ltb a c = true.
Proof.
  unfold str_ltb. revert b c.
  induction a as [|x a IH]; intros [|y b] [|z c]; cbn; try done.
  rewrite !ascii_compare_spec.
  destruct (N.compare_spec (N_of_ascii x) (N_of_ascii y)),
    (N.compare_spec (N_of_ascii y) (N_of_ascii z)),
    (N.compare_spec (N_of_ascii x) (N_of_ascii z)); try done; try lia.
  apply IH.
Qed.

Lemma str_ltb_total a b : str_ltb a b = false -> str_ltb b a = false -> a = b.
Proof.
  unfold str_ltb. rewrite (String.compare_antisym b a).
  destruct (String.compare a b) eqn:E; try done.
  intros _ _. by apply String.compare_eq_iff.
Qed.

Lemma str_ltb_asym a b : str_ltb a b = true -> str_ltb b a = false.
Proof.
  intros H. destruct (str_ltb b a) eqn:E; [|done].
  by rewrite <- (str_ltb_irrefl a), (str_ltb_trans _ _ _ H E).
Qed.

(** ** Strict weak orders, as the comparison functions of Go's sorts and
    heaps have to be *)
Class WeakOrder {A} (less : A -> A -> bool) : Prop := {
  less_irrefl x : less x x = false;
  less_trans x y z : less x y = true -> less y z = true -> less x z = true;
  less_ntrans x y z : less x y = false -> less y z = false -> less x z = false
}.

Lemma less_asym `{WeakOrder A less} x y : less x y = true -> less y x = false.
Proof.
  intros Hxy. destruct (less y x) eqn:E; [|done].
  by rewrite <- (less_irrefl x), (less_trans x y x Hxy E).
Qed.

#[export] Instance str_ltb_weak : WeakOrder str_ltb.
Proof.
  split; [apply str_ltb_irrefl | apply str_ltb_trans |].
  intros x y z Hxy Hyz. destruct (str_ltb x z) eqn:E; [|done].
  destruct (str_ltb y x) eqn:Eyx.
  - by rewrite (str_ltb_trans _ _ _ Eyx E) in Hyz.
  - by rewrite (str_ltb_total _ _ Hxy Eyx), Hyz in E.
Qed.

(** Compare by [less1] first, then by [less2]. *)
Definition lex_less {A} (less1 less2 : A -> A -> bool) (x y : A) : bool :=
  if less1 x y then true else if less1 y x then false else less2 x y.

#[export] Instance lex_less_weak {A} (less1 less2 : A -> A -> bool)
  `{!WeakOrder less1, !WeakOrder less2} : WeakOrder (lex_less less1 less2).
Proof.
  assert (Heq : forall x y z, less1 x y = false -> less1 y x = false ->
            less1 x z = less1 y z /\ less1 z x = less1 z y).
  { intros x y z H1 H2. split.
    - destruct (less1 x z) eqn:E1, (less1 y z) eqn:E2; try done.
      + by rewrite (less_ntrans _ _ _ H1 E2) in E1.
      + by rewrite (less_ntrans _ _ _ H2 E1) in E2.
    - destruct (less1 z x) eqn:E1, (less1 z y) eqn:E2; try done.
      + by rewrite (less_ntrans _ _ _ E2 H2) in E1.
      + by rewrite (less_ntrans _ _ _ E1 H1) in E2. }
  split; unfold lex_less.
  - intros x. by rewrite !less_irrefl.
  - intros x y z. destruct (less1 x y) eqn:Exy.
    + intros _. destruct (less1 y z) eqn:Eyz.
      * by rewrite (less_trans _ _ _ Exy Eyz).
      * destruct (less1 z y) eqn:Ezy; [done|].
        destruct (Heq y z x Eyz Ezy) as [_ <-]. by rewrite Exy.
    + destruct (less1 y x) eqn:Eyx; [done|].
      destruct (Heq x y z Exy Eyx) as [-> ->].
      destruct (less1 y z); [done|]. destruct (less1 z y); [done|].
      apply less_trans.
  - intros x y z. destruct (less1 x y) eqn:Exy; [done|].
    destruct (less1 y x) eqn:Eyx.
    + intros _. destruct (less1 y z) eqn:Eyz; [done|].
      rewrite (less_ntrans _ _ _ Exy Eyz).
      destruct (less1 z y) eqn:Ezy.
      * by rewrite (less_trans _ _ _ Ezy Eyx).
      * intros _. destruct (Heq y z x Eyz Ezy) as [<- _]. by rewrite Eyx.
    + destruct (Heq x y z Exy Eyx) as [-> ->].
      destruct (less1 y z); [done|]. destruct (less1 z y); [done|].
      apply less_ntrans.
Qed.

(** An order on the values of a key. *)
Definition by_key {A K} (f : A -> K) (less : K -> K -> bool) (x y : A) : bool :=
  less (f x) (f y).

#[export] Instance by_key_weak {A K} (f : A -> K) (less : K -> K -> bool)
  `{!WeakOrder less} : WeakOrder (by_key f less).
Proof.
  split; unfold by_key.
  - intros. apply less_irrefl.
  - intros x y z. apply less_trans.
  - intros x y z. apply less_ntrans.
Qed.

(** Turn boolean comparisons of integers into propositions. *)
Ltac to_prop :=
  repeat match goal with
  | H : context [Z.gtb _ _] |- _ => rewrite Z.gtb_ltb in H
  | |- context [Z.gtb _ _] => rewrite Z.gtb_ltb
  | H : (_ <? _)%Z = true |- _ => apply Z.ltb_lt in H
  | H : (_ <? _)%Z = false |- _ => apply Z.ltb_ge in H
  | H : (_ <=? _)%Z = true |- _ => apply Z.leb_le in H
  | H : (_ <=? _)%Z = false |- _ => apply Z.leb_gt in H
  | H : (_ =? _)%Z = true |- _ => apply Z.eqb_eq in H
  | H : (_ =? _)%Z = false |- _ => apply Z.eqb_neq in H
  | |- (_ <? _)%Z = true => apply Z.ltb_lt
  | |- (_ <? _)%Z = false => apply Z.ltb_ge
  | |- (_ <=? _)%Z = true => apply Z.leb_le
  | |- (_ <=? _)%Z = false => apply Z.leb_gt
  | |- (_ =? _)%Z = true => apply Z.eqb_eq
  | |- (_ =? _)%Z = false => apply Z.eqb_neq
  | H : (_ <? _)%N = true |- _ => apply N.ltb_lt in H
  | H : (_ <? _)%N = false |- _ => apply N.ltb_ge in H
  | H : (_ <=? _)%N = true |- _ => apply N.leb_le in H
  | H : (_ <=? _)%N = false |- _ => apply N.leb_gt in H
  | H : (_ =? _)%N = true |- _ => apply N.eqb_eq in H
  | H : (_ =? _)%N = false |- _ => apply N.eqb_neq in H
  | |- (_ <? _)%N = true => apply N.ltb_lt
  | |- (_ <? _)%N = false => apply N.ltb_ge
  | |- (_ <=? _)%N = true => apply N.leb_le
  | |- (_ <=? _)%N = false => apply N.leb_gt
  | |- (_ =? _)%N = true => apply N.eqb_eq
  | |- (_ =? _)%N = false => apply N.eqb_neq
  end.

#[export] Instance Zltb_weak : WeakOrder Z.ltb.
Proof. split; intros; to_prop; lia. Qed.

#[export] Instance Zgtb_weak : WeakOrder Z.gtb.
Proof. split; intros; to_prop; lia. Qed.

#[export] Instance Nltb_weak : WeakOrder N.ltb.
Proof. split; intros; to_prop; lia. Qed.

(** ** Lists *)

Lemma filter_all {A} (P : A -> Prop) `{!forall x, Decision (P x)} (l : list A) :
  (forall x, x ∈ l -> P x) -> filter P l = l.
Proof.
  induction l as [|x l IH]; intros Hl; [done|].
  rewrite filter_cons_True by (apply Hl; left).
  by rewrite IH by (intros; apply Hl; by right).
Qed.

Lemma filter_none {A} (P : A -> Prop) `{!forall x, Decision (P x)} (l : list A) :
  (forall x, x ∈ l -> ~ P x) -> filter P l = [].
Proof.
  induction l as [|x l IH]; intros Hl; [done|].
  rewrite filter_cons_False by (apply Hl; left).
  apply IH. intros; apply Hl; by right.
Qed.

Lemma pair_of_fst {A B} (p : A * B) a : p.1 = a -> p = (a, p.2).
Proof. by intros <-; destruct p. Qed.

Lemma omap_ext_in {A B} (f g : A -> option B) (l : list A) :
  (forall x, x ∈ l -> f x = g x) -> omap f l = omap g l.
Proof.
  induction l as [|x l IH]; intros H; cbn; [done|].
  rewrite H, IH; [done| |left]. intros. apply H. by right.
Qed.

(** ** Fallible, stateful code

    A Go method that mutates its receiver and returns an error is a function
    from the state to an error or a result, together with the new state: what
    was mutated before an early return stays mutated. *)
Definition M (S E A : Type) : Type := S -> (E + A) * S.

Section Monad.
Context {S E A B : Type}.

Definition ret (a : A) : M S E A := fun s => (inr a, s).
Definition throw (e : E) : M S E A := fun s => (inl e, s).
Definition bind (m : M S E A) (k : A -> M S E B) : M S E B :=
  fun s => match m s with
           | (inl e, s') => (inl e, s')
           | (inr a, s') => k a s'
           end.
(** [if err := m; err != nil { h }]: run [h] when [m] fails. *)
Definition catch (m : M S E A) (h : E -> M S E A) : M S E A :=
  fun s => match m s with
           | (inl e, s') => h e s'
           | (inr a, s') => (inr a, s')
           end.
(** [a, err := m]: the error becomes part of the result. *)
Definition try (m : M S E A) : M S E (E + A) :=
  fun s => match m s with (r, s') => (inr r, s') end.
End Monad.

(** A computation on a part of the state, its error wrapped. *)
Definition zoom {S P E F A} (get : S -> P) (set : P -> S -> S) (wrap : F -> E)
    (m : M P F A) : M S E A :=
  fun s => match m (get s) with
           | (inl e, p) => (inl (wrap e), set p s)
           | (inr a, p) => (inr a, set p s)
           end.

Definition gets {S E A} (f : S -> A) : M S E A := fun s => (inr (f s), s).
Definition modify {S E} (f : S -> S) : M S E unit := fun s => (inr tt, f s).

Declare Scope go_scope.
Delimit Scope go_scope with go.
Notation "'let*' x := m 'in' k" := (bind m (fun x => k))
  (at level 10, x name, m at level 100, k at level 200)
  : go_scope.
Notation "m ';;;' k" := (bind m (fun _ => k))
  (at level 199, right associativity) : go_scope.
#[global] Open Scope go_scope.

(** Weakest precondition of a computation: [Q] holds of what it returns. *)
Definition wp {S E A} (m : M S E A) (Q : E + A -> S -> Prop) (s : S) : Prop :=
  Q (m s).1 (m s).2.

Section WP.
Context {S E A B : Type}.
Implicit Types (s : S) (Q : E + B -> S -> Prop).

Lemma bind_ok (m : M S E A) (k : A -> M S E B) s a s' :
  m s = (inr a, s') -> bind m k s = k a s'.
Proof. unfold bind. by intros ->. Qed.

Lemma bind_err (m : M S E A) (k : A -> M S E B) s e s' :
  m s = (inl e, s') -> bind m k s = (inl e, s').
Proof. unfold bind. by intros ->. Qed.

Lemma bind_inr (m : M S E A) (k : A -> M S E B) s b s' :
  bind m k s = (inr b, s') -> exists a s1, m s = (inr a, s1) /\ k a s1 = (inr b, s').
Proof. unfold bind. destruct (m s) as [[e|a] s1]; [done|]. by exists a, s1. Qed.

Lemma wp_ret (b : B) Q s : Q (inr b) s -> wp (ret b) Q s.
Proof. done. Qed.

Lemma wp_throw (e : E) Q s : Q (inl e) s -> wp (throw e) Q s.
Proof. done. Qed.

Lemma wp_bind (m : M S E A) (k : A -> M S E B) Q s :
  wp m (fun r s' => match r with
                    | inl e => Q (inl e) s'
                    | inr a => wp (k a) Q s'
                    end) s ->
  wp (bind m k) Q s.
Proof. unfold wp, bind. by destruct (m s) as [[e|a] s']. Qed.

Lemma wp_catch (m : M S E B) h Q s :
  wp m (fun r s' => match r with
                    | inl e => wp (h e) Q s'
                    | inr a => Q (inr a) s'
                    end) s ->
  wp (catch m h) Q s.
Proof. unfold wp, catch. by destruct (m s) as [[e|a] s']. Qed.

Lemma wp_try (m : M S E A) (Q : E + (E + A) -> S -> Prop) s :
  wp m (fun r s' => Q (inr r) s') s -> wp (try m) Q s.
Proof. unfold wp, try. by destruct (m s). Qed.

Lemma wp_gets (f : S -> B) Q s : Q (inr (f s)) s -> wp (gets f) Q s.
Proof. done. Qed.

Lemma wp_mono (m : M S E B) (Q Q' : E + B -> S -> Prop) s :
  wp m Q s -> (forall r s', Q r s' -> Q' r s') -> wp m Q' s.
Proof. unfold wp. eauto. Qed.

Lemma wp_and (m : M S E B) (Q Q' : E + B -> S -> Prop) s :
  wp m Q s -> wp m Q' s -> wp m (fun r s' => Q r s' /\ Q' r s') s.
Proof. done. Qed.

Lemma wp_elim (m : M S E B) Q s r s' :
  wp m Q s -> m s = (r, s') -> Q r s'.
Proof. unfold wp. intros H Hm. by rewrite Hm in H. Qed.
End WP.

Lemma wp_modify {S E} (f : S -> S) (Q : E + unit -> S -> Prop) s :
  Q (inr tt) (f s) -> wp (modify f) Q s.
Proof. done. Qed.

Lemma wp_zoom {S P E F A} (get : S -> P) (set : P -> S -> S) (wrap : F -> E) (m : M P F A)
  (Q : E + A -> S -> Prop) s :
  wp m (fun r p => Q (match r with inl e => inl (wrap e) | inr a => inr a end) (set p s)) (get s) ->
  wp (zoom get set wrap m) Q s.
Proof. unfold wp, zoom. by destruct (m (get s)) as [[] p]. Qed.

(** One step of symbolic execution. *)
Ltac wp_step :=
  lazymatch goal with
  | |- wp (ret _) _ _ => apply wp_ret
  | |- wp (throw _) _ _ => apply wp_throw
  | |- wp (bind _ _) _ _ => apply wp_bind
  | |- wp (catch _ _) _ _ => apply wp_catch
  | |- wp (gets _) _ _ => apply wp_gets
  | |- wp (modify _) _ _ => apply wp_modify
  | |- wp (try _) _ _ => apply wp_try
  end; cbn beta iota zeta.
Ltac wp_auto := repeat wp_step.

(** ** Hints

    The lemmas every component may use without naming them; the components add
    their own preservation lemmas. *)
Create HintDb conveyor.
#[export] Hint Resolve i64_range u64_range str_ltb_irrefl wp_ret wp_throw wp_modify : conveyor.
