(* ===== verification/Job.v ===== *)
(** * Job: the domain types of [internal/job]

    The job record, its lifecycle states, priorities and identifiers
    ([internal/job/job.go]) and the retry delay ([internal/job/backoff.go]).

    Times are nanoseconds since Go's zero [time.Time] (so [IsZero] is [= 0]);
    durations are [int64] nanoseconds. What the code draws from the clock or
    from a random source is an argument of the definitions. *)
From S2P Require Import Prelude.

Abbreviation Time := Z (only parsing).
Abbreviation Duration := Z (only parsing).

Definition zeroTime : Time := 0.
Definition IsZero (t : Time) : bool := t =? 0.

Definition Nanosecond : Duration := 1.
Definition Microsecond : Duration := 1000.
Definition Millisecond : Duration := 1000 * Microsecond.
Definition Second : Duration := 1000 * Millisecond.
Definition Minute : Duration := 60 * Second.
Definition Hour : Duration := 60 * Minute.

(** ** States *)

Inductive State :=
  | StateUnspecified
  | StatePending
  | StateLeased
  | StateRetryWait
  | StateDone
  | StateDeadLetter.

#[export] Instance State_eq_dec : EqDecision State.
Proof. solve_decision. Defined.

Definition Leasable (s : State) : bool :=
  bool_decide (s = StatePending) || bool_decide (s = StateRetryWait).

Definition Terminal (s : State) : bool :=
  bool_decide (s = StateDone) || bool_decide (s = StateDeadLetter).

Definition State_String (s : State) : string :=
  match s with
  | StatePending => "pending"
  | StateLeased => "leased"
  | StateRetryWait => "retry_wait"
  | StateDone => "done"
  | StateDeadLetter => "dead_letter"
  | StateUnspecified => "unspecified"
  end.

(** ** Priorities *)

Inductive Priority := PriorityLow | PriorityNormal | PriorityHigh.

#[export] Instance Priority_eq_dec : EqDecision Priority.
Proof. solve_decision. Defined.

(** The [uint8] behind a priority. *)
Definition Priority_num (p : Priority) : Z :=
  match p with PriorityLow => 0 | PriorityNormal => 1 | PriorityHigh => 2 end.

Definition Priority_String (p : Priority) : string :=
  match p with
  | PriorityLow => "low"
  | PriorityHigh => "high"
  | PriorityNormal => "normal"
  end.

(** [unicode.IsSpace] of the rune a byte sequence starts with, as the number
    of bytes it takes: the white space of Latin-1 and of the Unicode
    [White_Space] property, in UTF-8. *)
Definition space_len (s : list N) : nat :=
  match s with
  | b0 :: t =>
      if (b0 =? 32)%N || ((9 <=? b0)%N && (b0 <=? 13)%N) then 1%nat
      else match t with
      | b1 :: t' =>
          if (b0 =? 194)%N && ((b1 =? 133)%N || (b1 =? 160)%N) then 2%nat
          else match t' with
          | b2 :: _ =>
              if (b0 =? 225)%N && (b1 =? 154)%N && (b2 =? 128)%N then 3%nat
              else if (b0 =? 226)%N && (b1 =? 128)%N
                        && (((128 <=? b2)%N && (b2 <=? 138)%N) || (b2 =? 168)%N
                            || (b2 =? 169)%N || (b2 =? 175)%N) then 3%nat
              else if (b0 =? 226)%N && (b1 =? 129)%N && (b2 =? 159)%N then 3%nat
              else if (b0 =? 227)%N && (b1 =? 128)%N && (b2 =? 128)%N then 3%nat
              else 0%nat
          | [] => 0%nat
          end
      | [] => 0%nat
      end
  | [] => 0%nat
  end.

(** Drop the leading white space. *)
Fixpoint trim_left_fuel (fuel : nat) (s : list N) : list N :=
  match fuel with
  | O => s
  | S fuel =>
      match space_len s with
      | O => s
      | n => trim_left_fuel fuel (drop n s)
      end
  end.
Definition trim_left (s : list N) : list N := trim_left_fuel (length s) s.

(** The same from the right: the last rune is the one whose encoding ends the
    string. *)
Definition space_end (r : list N) : nat :=
  match r with
  | b0 :: b1 :: b2 :: _ =>
      if (space_len [b0] =? 1)%nat then 1%nat
      else if (space_len [b1; b0] =? 2)%nat then 2%nat
      else if (space_len [b2; b1; b0] =? 3)%nat then 3%nat else 0%nat
  | [b0; b1] =>
      if (space_len [b0] =? 1)%nat then 1%nat
      else if (space_len [b1; b0] =? 2)%nat then 2%nat else 0%nat
  | [b0] => if (space_len [b0] =? 1)%nat then 1%nat else 0%nat
  | [] => 0%nat
  end.

Fixpoint trim_end_fuel (fuel : nat) (r : list N) : list N :=
  match fuel with
  | O => r
  | S fuel =>
      match space_end r with
      | O => r
      | n => trim_end_fuel fuel (drop n r)
      end
  end.

Definition codes (s : string) : list N := map N_of_ascii (list_ascii_of_string s).
Definition of_codes (l : list N) : string :=
  string_of_list_ascii (map ascii_of_N l).

(** [strings.TrimSpace]. *)
Definition TrimSpace (s : string) : string :=
  let l := trim_left (codes s) in
  of_codes (rev (trim_end_fuel (length l) (rev l))).

(** [strings.ToLower], as far as a comparison with ASCII text can see: the
    ASCII letters, and the two other runes whose lower case is ASCII
    (U+0130 and U+212A). Every other non-ASCII rune has a non-ASCII lower
    case and is left as it is. *)
Fixpoint lower_codes (l : list N) : list N :=
  match l with
  | [] => []
  | b0 :: t =>
      if (65 <=? b0)%N && (b0 <=? 90)%N then (b0 + 32)%N :: lower_codes t
      else match t with
      | b1 :: t' =>
          if (b0 =? 196)%N && (b1 =? 176)%N then 105%N :: lower_codes t'
          else match t' with
          | b2 :: t'' =>
              if (b0 =? 226)%N && (b1 =? 132)%N && (b2 =? 170)%N
              then 107%N :: lower_codes t''
              else b0 :: lower_codes t
          | [] => b0 :: lower_codes t
          end
      | [] => [b0]
      end
  end.
Definition ToLower (s : string) : string := of_codes (lower_codes (codes s)).

Inductive ParseError := UnknownPriority (s : string).

Definition ParsePriority (s : string) : ParseError + Priority :=
  let name := ToLower (TrimSpace s) in
  if bool_decide (name = "" \/ name = "normal") then inr PriorityNormal
  else if bool_decide (name = "low") then inr PriorityLow
  else if bool_decide (name = "high") then inr PriorityHigh
  else inl (UnknownPriority s).

(** ** The job record *)

Record Job := mkJob {
  ID : string;
  Queue : string;
  Handler : string;
  Payload : bytes;
  IdempotencyKey : string;
  JPriority : Priority;
  MaxRetries : Z;
  Attempt : Z;
  JState : State;
  Epoch : N;
  EnqueuedAt : Time;
  EligibleAt : Time;
  LeaseExpiresAt : Time;
  LeasedBy : string;
  LastError : string
}.

#[export] Instance Job_eq_dec : EqDecision Job.
Proof. solve_decision. Defined.

(** A value copy is a deep copy here: nothing in a [Job] value is shared. *)
Definition Clone (j : Job) : Job := j.

(** ** Identifiers *)

Definition hex_digit (n : N) : ascii :=
  ascii_of_N (if (n <? 10)%N then 48 + n else 87 + n)%N.

(** [hex.EncodeToString]. *)
Fixpoint hex_encode (l : list N) : string :=
  match l with
  | [] => ""
  | b :: l => String (hex_digit (b / 16)) (String (hex_digit (b mod 16)) (hex_encode l))
  end%N.

(** [binary.BigEndian.PutUint64], byte by byte from the most significant. *)
Fixpoint be_bytes (k : nat) (n : N) : list N :=
  match k with
  | O => []
  | S k => ((n / 256 ^ N.of_nat k) mod 256)%N :: be_bytes k n
  end.

(** [NewID]: [nanos] is [time.Now().UnixNano()], [random] the eight bytes
    [rand.Read] fills in. *)
Definition NewID (nanos : Z) (random : list N) : string :=
  hex_encode (be_bytes 8 (Z.to_N (nanos mod 2 ^ 64)) ++ random).

(** ** Backoff *)

Definition DefaultBackoffBase : Duration := Second.
Definition DefaultBackoffCap : Duration := 5 * Minute.
Definition maxBackoffShift : Z := 32.

(** [rnd n] is what [rand.Int64N(n)] returns. *)
Definition Backoff (rnd : Z -> Z) (attempt : Z) (base capDelay : Duration) : Duration :=
  let attempt := if attempt <? 1 then 1 else attempt in
  let base := if base <=? 0 then DefaultBackoffBase else base in
  let capDelay := if capDelay <=? 0 then DefaultBackoffCap else capDelay in
  let shift := attempt - 1 in
  let shift := if maxBackoffShift <? shift then maxBackoffShift else shift in
  let d := i64 (Z.shiftl base shift) in
  let d := if (d <=? 0) || (capDelay <? d) then capDelay else d in
  let half := Z.quot d 2 in
  if half <=? 0 then d else i64 (half + rnd half).

(** ** Lemmas on identifiers *)

Lemma str_ltb_cons a b s t :
  str_ltb (String a s) (String b t) =
  if (N_of_ascii a <? N_of_ascii b)%N then true
  else if (N_of_ascii b <? N_of_ascii a)%N then false else str_ltb s t.
Proof.
  unfold str_ltb. cbn. rewrite ascii_compare_spec.
  destruct (N.compare_spec (N_of_ascii a) (N_of_ascii b)) as [->|H|H].
  - by rewrite N.ltb_irrefl.
  - by rewrite (proj2 (N.ltb_lt _ _) H).
  - rewrite (proj2 (N.ltb_lt _ _) H).
    by rewrite (proj2 (N.ltb_ge _ _)) by lia.
Qed.

Definition digits16 : list N := map N.of_nat (seq 0 16).

Lemma in_digits16 n : (n < 16)%N -> In n digits16.
Proof.
  intros H. unfold digits16. apply in_map_iff. exists (N.to_nat n).
  rewrite N2Nat.id. split; [done|]. apply in_seq. lia.
Qed.

Lemma hex_digit_lt a b :
  (a < 16)%N -> (b < 16)%N ->
  (N_of_ascii (hex_digit a) <? N_of_ascii (hex_digit b))%N = (a <? b)%N.
Proof.
  intros Ha%in_digits16 Hb%in_digits16.
  assert (H : forallb (fun a => forallb (fun b =>
    Bool.eqb (N_of_ascii (hex_digit a) <? N_of_ascii (hex_digit b))%N (a <? b)%N)
    digits16) digits16 = true) by (vm_compute; reflexivity).
  rewrite forallb_forall in H. specialize (H a Ha).
  rewrite forallb_forall in H. specialize (H b Hb).
  by apply Bool.eqb_prop in H.
Qed.

(** Hexadecimal keeps the order of bytes. *)
Lemma hex_encode_cons_ltb a b l1 l2 :
  (a < 256)%N -> (b < 256)%N ->
  str_ltb (hex_encode (a :: l1)) (hex_encode (b :: l2)) =
  if (a <? b)%N then true else if (b <? a)%N then false
  else str_ltb (hex_encode l1) (hex_encode l2).
Proof.
  intros Ha Hb. cbn [hex_encode]. rewrite !str_ltb_cons.
  assert (a / 16 < 16 /\ b / 16 < 16 /\ a mod 16 < 16 /\ b mod 16 < 16)%N
    as (?&?&?&?) by lia_div.
  rewrite !hex_digit_lt by done.
  destruct (N.ltb_spec (a / 16) (b / 16)).
  { rewrite (proj2 (N.ltb_lt a b)); [done|lia_div]. }
  destruct (N.ltb_spec (b / 16) (a / 16)).
  { rewrite (proj2 (N.ltb_ge a b)), (proj2 (N.ltb_lt b a)); [done|lia_div..]. }
  destruct (N.ltb_spec (a mod 16) (b mod 16)).
  { rewrite (proj2 (N.ltb_lt a b)); [done|lia_div]. }
  destruct (N.ltb_spec (b mod 16) (a mod 16)).
  { rewrite (proj2 (N.ltb_ge a b)), (proj2 (N.ltb_lt b a)); [done|lia_div..]. }
  replace b with a by lia_div. by rewrite N.ltb_irrefl.
Qed.

(** So do the big-endian bytes of two numbers, whatever follows them. *)
Lemma be_bytes_ltb k n1 n2 r1 r2 :
  (n1 mod 256 ^ N.of_nat k < n2 mod 256 ^ N.of_nat k)%N ->
  str_ltb (hex_encode (be_bytes k n1 ++ r1)) (hex_encode (be_bytes k n2 ++ r2)) = true.
Proof.
  induction k as [|k IH].
  { change (256 ^ N.of_nat 0)%N with 1%N. rewrite !N.mod_1_r. lia. }
  intros H. cbn [be_bytes app].
  rewrite hex_encode_cons_ltb by (apply N.mod_lt; lia).
  rewrite Nat2N.inj_succ, N.pow_succ_r', N.mul_comm in H.
  rewrite !N.Div0.mod_mul_r in H.
  set (p := (256 ^ N.of_nat k)%N) in *.
  assert (Hp : (p <> 0)%N) by (apply N.pow_nonzero; lia).
  pose proof (N.mod_lt n1 p Hp). pose proof (N.mod_lt n2 p Hp).
  set (q1 := (n1 / p mod 256)%N) in *. set (q2 := (n2 / p mod 256)%N) in *.
  destruct (N.ltb_spec q1 q2); [done|].
  destruct (N.ltb_spec q2 q1).
  { exfalso. assert (p * (q2 + 1) <= p * q1)%N as Hpq by (apply N.mul_le_mono_l; lia).
    rewrite N.mul_add_distr_l in Hpq. clear IH.
    generalize dependent (n1 mod p)%N. generalize dependent (n2 mod p)%N.
    clearbody p q1 q2. intros. lia. }
  assert (q1 = q2) as Hq by lia. rewrite Hq in H. apply IH. fold p. lia.
Qed.

Lemma hex_encode_length l : String.length (hex_encode l) = (2 * length l)%nat.
Proof. induction l as [|b l IH]; cbn; [done|]. rewrite IH. lia. Qed.

Lemma be_bytes_length k n : length (be_bytes k n) = k.
Proof. induction k; cbn; congruence. Qed.

(** ** Lemmas on backoff *)

(** What the source documents of [rand.Int64N]: a value of [[0, n)]. *)
Definition rand_ok (rnd : Z -> Z) : Prop := forall n, 0 < n -> 0 <= rnd n < n.

(** The delay before jitter: what the attempt's delay is drawn below. *)
Definition ceiling (attempt base capDelay : Z) : Z :=
  let attempt := if attempt <? 1 then 1 else attempt in
  let base := if base <=? 0 then DefaultBackoffBase else base in
  let capDelay := if capDelay <=? 0 then DefaultBackoffCap else capDelay in
  let shift := Z.min (attempt - 1) maxBackoffShift in
  let d := i64 (base * 2 ^ shift) in
  if (d <=? 0) || (capDelay <? d) then capDelay else d.

Definition cap_of (capDelay : Z) : Z :=
  if capDelay <=? 0 then DefaultBackoffCap else capDelay.

Lemma ceiling_range attempt base capDelay :
  0 < ceiling attempt base capDelay <= cap_of capDelay.
Proof.
  unfold ceiling, cap_of.
  assert (0 < (if capDelay <=? 0 then DefaultBackoffCap else capDelay)).
  { destruct (Z.leb_spec capDelay 0); [done|lia]. }
  destruct (_ || _) eqn:E; [lia|].
  apply orb_false_iff in E as [E1 E2]. to_prop. lia.
Qed.

Lemma Backoff_ceiling rnd attempt base capDelay :
  Backoff rnd attempt base capDelay =
  let d := ceiling attempt base capDelay in
  if d / 2 <=? 0 then d else i64 (d / 2 + rnd (d / 2)).
Proof.
  pose proof (ceiling_range attempt base capDelay) as Hr. revert Hr.
  unfold Backoff, ceiling. cbv zeta.
  set (a := if attempt <? 1 then 1 else attempt).
  assert (1 <= a) by (unfold a; destruct (Z.ltb_spec attempt 1); lia).
  replace (if maxBackoffShift <? a - 1 then maxBackoffShift else a - 1)
    with (Z.min (a - 1) maxBackoffShift)
    by (destruct (Z.ltb_spec maxBackoffShift (a - 1)); lia).
  rewrite Z.shiftl_mul_pow2 by (unfold maxBackoffShift; lia).
  intros Hr. by rewrite Z.quot_div_nonneg by lia.
Qed.

(** ** Properties *)

(** C40: whatever the attempt, the configuration and the random draw, the
    retry delay is positive, never above the (defaulted) cap, and at least
    half of the exponential delay it is drawn from: the jitter replaces at
    most half of the wait. *)
Theorem Backoff_bounds rnd attempt base capDelay :
  rand_ok rnd -> is_i64 capDelay ->
  0 < Backoff rnd attempt base capDelay <= cap_of capDelay /\
  ceiling attempt base capDelay / 2 <= Backoff rnd attempt base capDelay
    <= ceiling attempt base capDelay.
Proof.
  intros Hrnd Hcap. rewrite Backoff_ceiling. cbv zeta.
  pose proof (ceiling_range attempt base capDelay) as Hr.
  set (d := ceiling attempt base capDelay) in *.
  assert (cap_of capDelay < 2 ^ 63).
  { unfold cap_of, is_i64 in *. destruct (Z.leb_spec capDelay 0); [done|lia]. }
  destruct (Z.leb_spec (d / 2) 0); [lia_div|].
  pose proof (Hrnd (d / 2) ltac:(lia)).
  rewrite i64_id by (unfold is_i64; lia_div). lia_div.
Qed.

Lemma Backoff_bounds_witness :
  0 < Backoff (fun n => n - 1) 40 Second Minute <= cap_of Minute.
Proof.
  apply (Backoff_bounds (fun n => n - 1) 40 Second Minute).
  - intros n Hn. lia.
  - unfold is_i64, Minute, Second, Millisecond, Microsecond. lia.
Defined.

(** With a base delay below 2^31 ns the shift cannot overflow, and the
    delay before jitter is exactly [base * 2^(attempt-1)] (the exponent
    bounded by 32) cut off at the cap; so it never decreases from one attempt
    to the next. *)
Theorem ceiling_exponential attempt base capDelay :
  1 <= attempt -> 0 < base < 2 ^ 31 -> 0 < capDelay ->
  ceiling attempt base capDelay =
    Z.min capDelay (base * 2 ^ Z.min (attempt - 1) 32) /\
  ceiling attempt base capDelay <= ceiling (attempt + 1) base capDelay.
Proof.
  intros Ha Hb Hc.
  assert (Hmain : forall a, 1 <= a ->
    ceiling a base capDelay = Z.min capDelay (base * 2 ^ Z.min (a - 1) 32)).
  { clear attempt Ha. intros a Ha. unfold ceiling, maxBackoffShift.
    destruct (Z.ltb_spec a 1); [lia|].
    destruct (Z.leb_spec base 0); [lia|].
    destruct (Z.leb_spec capDelay 0); [lia|].
    set (s := Z.min (a - 1) 32).
    assert (0 < 2 ^ s) by (apply Z.pow_pos_nonneg; lia).
    assert (2 ^ s <= 2 ^ 32) by (apply Z.pow_le_mono_r; lia).
    rewrite i64_id by (unfold is_i64; nia).
    destruct (_ || _) eqn:E.
    - apply orb_true_iff in E as [E|E]; to_prop; nia.
    - apply orb_false_iff in E as [E1 E2]; to_prop; lia. }
  rewrite !Hmain by lia. split; [done|].
  assert (2 ^ Z.min (attempt - 1) 32 <= 2 ^ Z.min (attempt + 1 - 1) 32)
    by (apply Z.pow_le_mono_r; lia).
  nia.
Qed.

Lemma ceiling_exponential_witness :
  ceiling 4 Second Minute = Z.min Minute (Second * 2 ^ Z.min (4 - 1) 32).
Proof.
  apply (ceiling_exponential 4 Second Minute); unfold Minute, Second, Millisecond, Microsecond; lia.
Defined.

(** The bound on the shift does not rule overflow out for a larger base:
    with a base of 2^32 + 1 ns (about 4.3 s) and the default cap of five
    minutes, the 33rd attempt's shift wraps around to a small positive value,
    so the overflow test [d <= 0] misses it and the delay falls back below
    that of the second attempt. *)
Theorem Backoff_overflow_wraps :
  let base := 2 ^ 32 + 1 in
  let rnd := fun _ => 0 in
  is_i64 base /\
  ceiling 33 base DefaultBackoffCap = 2 ^ 32 /\
  Backoff rnd 33 base DefaultBackoffCap < Backoff rnd 2 base DefaultBackoffCap /\
  ceiling 32 base DefaultBackoffCap = DefaultBackoffCap.
Proof. vm_compute. repeat split; congruence. Qed.

(** Identifiers minted at different nanoseconds order, as strings, by the
    time they were minted, whatever random bytes they carry; and all are 32
    characters long. *)
Theorem NewID_time_ordered n1 n2 r1 r2 :
  0 <= n1 < n2 -> n2 < 2 ^ 63 -> length r1 = 8%nat -> length r2 = 8%nat ->
  str_ltb (NewID n1 r1) (NewID n2 r2) = true /\
  String.length (NewID n1 r1) = 32%nat.
Proof.
  intros Hn H2 Hr1 Hr2. split.
  - unfold NewID. apply be_bytes_ltb.
    change (256 ^ N.of_nat 8)%N with 18446744073709551616%N.
    rewrite !Z.mod_small by lia. rewrite !N.mod_small by lia. lia.
  - unfold NewID. rewrite hex_encode_length, length_app, be_bytes_length, Hr1. done.
Qed.

Lemma NewID_time_ordered_witness :
  str_ltb (NewID 255 (repeat 255%N 8)) (NewID 256 (repeat 0%N 8)) = true.
Proof.
  apply (NewID_time_ordered 255 256 (repeat 255%N 8) (repeat 0%N 8));
    [lia | lia | reflexivity | reflexivity].
Defined.

(** A priority's printed name parses back to it, with any casing and
    surrounding blanks of the command line. *)
Theorem ParsePriority_String p :
  ParsePriority (Priority_String p) = inr p /\
  ParsePriority ("  " ++ Priority_String p ++ " ") = inr p.
Proof. destruct p; vm_compute; done. Qed.
