(* ===== verification/Heap.v ===== *)
(** * Heap: Go's [container/heap] over a slice

    The sift-up and sift-down loops of the standard library's heap package, as
    the schedule index uses them through [heap.Push] and [heap.Pop]
    ([internal/broker/index.go]): a slice, its [Less] and the [Push], [Pop]
    and [Swap] methods of [readyHeap] and [delayedHeap], which are the same
    for both. The loops recurse on fuel; the heap property they establish
    shows that the fuel given is enough. *)
From S2P Require Import Prelude.
#[local] Open Scope nat_scope.

Section Heap.
Context {A : Type} (less : A -> A -> bool).

(** [Swap(i, j)]: both indices are in range wherever the loops call it. *)
Definition Swap (i j : nat) (h : list A) : list A :=
  match h !! i, h !! j with
  | Some x, Some y => <[i := y]> (<[j := x]> h)
  | _, _ => h
  end.

(** [h.Less(i, j)]. *)
Definition Less (h : list A) (i j : nat) : bool :=
  match h !! i, h !! j with
  | Some x, Some y => less x y
  | _, _ => false
  end.

Definition parent (j : nat) : nat := (j - 1) / 2.

Fixpoint up (fuel j : nat) (h : list A) : list A :=
  match fuel with
  | O => h
  | S fuel =>
      let i := parent j in
      if (i =? j) || negb (Less h j i) then h
      else up fuel i (Swap i j h)
  end.

Fixpoint down (fuel i n : nat) (h : list A) : list A :=
  match fuel with
  | O => h
  | S fuel =>
      let j1 := 2 * i + 1 in
      if n <=? j1 then h
      else
        let j2 := j1 + 1 in
        let j := if (j2 <? n) && Less h j2 j1 then j2 else j1 in
        if negb (Less h j i) then h
        else down fuel j n (Swap i j h)
  end.

(** [heap.Push(h, x)]. *)
Definition Push (x : A) (h : list A) : list A :=
  let h := h ++ [x] in
  up (length h) (length h - 1) h.

(** [heap.Pop(h)]: [None] where Go would index out of range. *)
Definition Pop (h : list A) : option (A * list A) :=
  let n := length h - 1 in
  let h := down (length h) 0 n (Swap 0 n h) in
  match h !! n with
  | Some x => Some (x, take n h)
  | None => None
  end.

(** Below its parent nothing sorts first. *)
Definition ordered_at (h : list A) (p j : nat) : Prop :=
  forall x y, h !! j = Some x -> h !! p = Some y -> less x y = false.

Definition is_heap (h : list A) : Prop :=
  forall j, 0 < j -> ordered_at h (parent j) j.

(** A heap except possibly between [k] and its parent. *)
Definition heap_but_up (k : nat) (h : list A) : Prop :=
  (forall j, 0 < j -> j <> k -> ordered_at h (parent j) j) /\
  (forall j, 0 < k -> 0 < j -> parent j = k -> ordered_at h (parent k) j).

(** Among the first [n], a heap except possibly between [k] and its
    children. *)
Definition heap_but_down (k n : nat) (h : list A) : Prop :=
  (forall j, 0 < j -> j < n -> parent j <> k -> ordered_at h (parent j) j) /\
  (forall j, 0 < k -> 0 < j -> j < n -> parent j = k -> ordered_at h (parent k) j).

(** ** Indices *)

Lemma parent_spec j : 0 < j -> j = 2 * parent j + 1 \/ j = 2 * parent j + 2.
Proof.
  unfold parent. intros. pose proof (Nat.div_mod_eq (j - 1) 2).
  pose proof (Nat.mod_upper_bound (j - 1) 2 ltac:(lia)). lia.
Qed.

Lemma parent_lt j : 0 < j -> parent j < j.
Proof. intros H. pose proof (parent_spec j H). lia. Qed.

Lemma parent_child j i : 0 < j -> parent j = i <-> j = 2 * i + 1 \/ j = 2 * i + 2.
Proof. intros H. pose proof (parent_spec j H). lia. Qed.

(** ** Swap *)

Lemma Swap_length i j h : length (Swap i j h) = length h.
Proof.
  unfold Swap. destruct (h !! i), (h !! j); try done.
  by rewrite !length_insert.
Qed.

Lemma Swap_lookup i j h k :
  i < length h -> j < length h ->
  Swap i j h !! k = if decide (k = i) then h !! j
                    else if decide (k = j) then h !! i else h !! k.
Proof.
  intros Hi Hj. unfold Swap.
  destruct (lookup_lt_is_Some_2 h i Hi) as [x Hx].
  destruct (lookup_lt_is_Some_2 h j Hj) as [y Hy]. rewrite Hx, Hy.
  destruct (decide (k = i)) as [->|].
  { rewrite list_lookup_insert_eq by (rewrite length_insert; lia). done. }
  rewrite list_lookup_insert_ne by done.
  destruct (decide (k = j)) as [->|].
  { by rewrite list_lookup_insert_eq. }
  by rewrite list_lookup_insert_ne.
Qed.

Lemma Swap_perm i j h : Swap i j h ≡ₚ h.
Proof.
  unfold Swap. destruct (h !! i) as [x|] eqn:Hi; [|done].
  destruct (h !! j) as [y|] eqn:Hj; [|done].
  destruct (decide (i = j)) as [->|Hne].
  { assert (x = y) as -> by congruence.
    rewrite (list_insert_id h j y Hj). by rewrite list_insert_id. }
  apply (Permutation_inj _ _). split; [by rewrite !length_insert|].
  pose proof (lookup_lt_Some _ _ _ Hi). pose proof (lookup_lt_Some _ _ _ Hj).
  exists (fun k => if decide (k = i) then j else if decide (k = j) then i else k).
  split.
  - intros k1 k2. repeat case_decide; subst; try congruence; try lia.
  - intros k. destruct (decide (k = i)) as [->|].
    { rewrite list_lookup_insert_eq by (rewrite length_insert; lia). congruence. }
    rewrite list_lookup_insert_ne by done.
    destruct (decide (k = j)) as [->|].
    { rewrite list_lookup_insert_eq by lia. congruence. }
    by rewrite list_lookup_insert_ne.
Qed.

Lemma up_perm fuel j h : up fuel j h ≡ₚ h.
Proof.
  revert j h. induction fuel as [|fuel IH]; intros j h; cbn [up]; [done|].
  destruct (_ || _); [done|]. by rewrite IH, Swap_perm.
Qed.

Lemma down_perm fuel i n h : down fuel i n h ≡ₚ h.
Proof.
  revert i h. induction fuel as [|fuel IH]; intros i h; cbn [down]; [done|].
  destruct (_ <=? _); [done|]. destruct (negb _); [done|].
  by rewrite IH, Swap_perm.
Qed.

Lemma Less_spec h i j x y :
  h !! i = Some x -> h !! j = Some y -> Less h i j = less x y.
Proof. unfold Less. by intros -> ->. Qed.

Section Order.
Context `{!WeakOrder less}.

(** Swapping a child that sorts before its parent moves the only place
    where the order may fail up to the parent. *)
Lemma heap_but_up_swap k h :
  0 < k -> k < length h -> Less h k (parent k) = true ->
  heap_but_up k h -> heap_but_up (parent k) (Swap (parent k) k h).
Proof.
  intros Hk Hlen Hless [H1 H2]. set (i := parent k) in *.
  assert (Hik : i < k) by (by apply parent_lt).
  destruct (lookup_lt_is_Some_2 h k Hlen) as [x Hx].
  destruct (lookup_lt_is_Some_2 h i ltac:(lia)) as [y Hy].
  rewrite (Less_spec h k i x y) in Hless by done.
  assert (Hsw : forall m, Swap i k h !! m =
    if decide (m = i) then Some x else if decide (m = k) then Some y else h !! m)
    by (intros m; rewrite Swap_lookup by lia; by rewrite Hx, Hy).
  split.
  - intros j Hj Hji u v. rewrite !Hsw.
    rewrite (decide_False (P := j = i)) by done.
    destruct (decide (j = k)) as [->|Hjk].
    { fold i. rewrite decide_True by done. intros [= <-] [= <-].
      by apply less_asym. }
    destruct (decide (parent j = i)) as [E|E].
    { rewrite <- E in Hy. intros Hu [= <-].
      specialize (H1 j Hj Hjk u y Hu Hy).
      destruct (less u x) eqn:Eux; [|done].
      by rewrite (less_trans u x y Eux Hless) in H1. }
    destruct (decide (parent j = k)) as [E'|E'].
    { intros Hu [= <-]. by apply (H2 j Hk Hj E' u y). }
    intros Hu Hv. by apply (H1 j Hj Hjk u v).
  - intros j Hi Hj Hpj u v. rewrite !Hsw.
    assert (parent i < i) by (by apply parent_lt).
    assert (parent j < j) by (by apply parent_lt).
    rewrite (decide_False (P := j = i)) by lia.
    rewrite (decide_False (P := parent i = i)) by lia.
    rewrite (decide_False (P := parent i = k)) by lia.
    destruct (decide (j = k)) as [->|Hjk].
    { intros [= <-] Hv. apply (H1 i Hi ltac:(lia) y v Hy Hv). }
    intros Hu Hv.
    pose proof (H1 j Hj Hjk u y Hu ltac:(by rewrite Hpj)).
    pose proof (H1 i Hi ltac:(lia) y v Hy Hv).
    by apply (less_ntrans u y v).
Qed.

Lemma up_heap fuel k h :
  k < fuel -> k < length h -> heap_but_up k h -> is_heap (up fuel k h).
Proof.
  revert k h. induction fuel as [|fuel IH]; intros k h Hf Hk Hh; [lia|].
  cbn [up]. destruct (decide (k = 0)) as [->|Hk0].
  { cbn. intros j Hj. apply Hh; lia. }
  assert (parent k < k) by (apply parent_lt; lia).
  rewrite (proj2 (Nat.eqb_neq _ _)) by lia. cbn [orb].
  destruct (Less h k (parent k)) eqn:E; cbn [negb].
  - apply IH; [lia| rewrite Swap_length; lia |].
    apply heap_but_up_swap; [lia|done..].
  - intros j Hj. destruct (decide (j = k)) as [->|]; [|by apply Hh].
    intros x y Hx Hy. by rewrite (Less_spec h k (parent k) x y) in E.
Qed.

Lemma Push_heap x h : is_heap h -> is_heap (Push x h).
Proof.
  intros Hh. unfold Push. rewrite length_app. cbn [length].
  apply up_heap; [lia| rewrite length_app; cbn; lia |].
  assert (Hold : forall j, 0 < j -> j < length h ->
            ordered_at (h ++ [x]) (parent j) j).
  { intros j Hj Hlt u v. pose proof (parent_lt j Hj).
    rewrite !lookup_app_l by lia. by apply Hh. }
  split.
  - intros j Hj Hne u v Hu. pose proof (lookup_lt_Some _ _ _ Hu) as Hlt.
    rewrite length_app in Hlt. cbn in Hlt. revert Hu. apply Hold; lia.
  - intros j Hk Hj Hpj u v Hu. pose proof (lookup_lt_Some _ _ _ Hu) as Hlt.
    rewrite length_app in Hlt. cbn in Hlt. pose proof (parent_lt j Hj). lia.
Qed.

Lemma Push_perm x h : Push x h ≡ₚ x :: h.
Proof. unfold Push. rewrite up_perm. symmetry. apply Permutation_cons_append. Qed.

(** The child [down] exchanges with: no child of [i] sorts before it. *)
Definition smaller_child (i n : nat) (h : list A) : nat :=
  if (2 * i + 2 <? n) && Less h (2 * i + 2) (2 * i + 1)
  then 2 * i + 2 else 2 * i + 1.

Lemma smaller_child_spec i n h :
  2 * i + 1 < n -> n <= length h ->
  let j := smaller_child i n h in
  (j = 2 * i + 1 \/ j = 2 * i + 2) /\ j < n /\
  forall c, 0 < c -> c < n -> parent c = i -> Less h c j = false.
Proof.
  intros Hn Hlen. cbv zeta. unfold smaller_child.
  assert (Hirr : forall c, Less h c c = false).
  { intros c. unfold Less. destruct (h !! c); [apply less_irrefl|done]. }
  destruct (Nat.ltb_spec (2 * i + 2) n); cbn [andb].
  - destruct (Less h (2 * i + 2) (2 * i + 1)) eqn:E.
    + split; [lia|]. split; [lia|]. intros c Hc Hcn Hp.
      apply parent_child in Hp as [->| ->]; [|apply Hirr|done].
      revert E. unfold Less. destruct (h !! _), (h !! _); try done.
      by apply less_asym.
    + split; [lia|]. split; [lia|]. intros c Hc Hcn Hp.
      apply parent_child in Hp as [->| ->]; [apply Hirr|done..].
  - split; [lia|]. split; [lia|]. intros c Hc Hcn Hp.
    apply parent_child in Hp as [->| ->]; [apply Hirr|lia|done].
Qed.

Lemma heap_but_down_swap i n h j :
  (j = 2 * i + 1 \/ j = 2 * i + 2) -> j < n -> n <= length h ->
  (forall c, 0 < c -> c < n -> parent c = i -> Less h c j = false) ->
  Less h j i = true ->
  heap_but_down i n h -> heap_but_down j n (Swap i j h).
Proof.
  intros Hj Hjn Hn Hmin Hless [H1 H2].
  assert (Hpj : parent j = i) by (apply parent_child; lia).
  destruct (lookup_lt_is_Some_2 h j ltac:(lia)) as [x Hx].
  destruct (lookup_lt_is_Some_2 h i ltac:(lia)) as [y Hy].
  rewrite (Less_spec h j i x y) in Hless by done.
  assert (Hsw : forall m, Swap i j h !! m =
    if decide (m = i) then Some x else if decide (m = j) then Some y else h !! m)
    by (intros m; rewrite Swap_lookup by lia; by rewrite Hx, Hy).
  split.
  - intros c Hc Hcn Hpc u v. rewrite !Hsw.
    rewrite (decide_False (P := parent c = j)) by done.
    destruct (decide (c = i)) as [->|Hci].
    { assert (parent i < i) by (by apply parent_lt).
      rewrite decide_False by lia. intros [= <-] Hv.
      apply (H2 j Hc ltac:(lia) Hjn Hpj x v Hx Hv). }
    destruct (decide (c = j)) as [->|Hcj].
    { rewrite Hpj, decide_True by done. intros [= <-] [= <-].
      by apply less_asym. }
    destruct (decide (parent c = i)) as [E|E].
    { intros Hu [= <-]. specialize (Hmin c Hc Hcn E).
      by rewrite (Less_spec h c j u x) in Hmin. }
    intros Hu Hv. by apply (H1 c Hc Hcn E u v).
  - intros c Hj0 Hc Hcn Hpc u v. rewrite Hpj, !Hsw.
    pose proof (parent_lt c Hc).
    rewrite (decide_False (P := c = i)) by lia.
    rewrite (decide_False (P := c = j)) by lia.
    rewrite (decide_True (P := i = i)) by done.
    intros Hu [= <-]. apply (H1 c Hc Hcn ltac:(lia) u x Hu).
    by rewrite Hpc.
Qed.

Lemma down_spec fuel i n h :
  n <= i + fuel -> n <= length h -> heap_but_down i n h ->
  let h' := down fuel i n h in
  (forall j, 0 < j -> j < n -> ordered_at h' (parent j) j) /\
  (forall j, n <= j -> h' !! j = h !! j).
Proof.
  revert i h. induction fuel as [|fuel IH]; intros i h Hf Hn Hh; cbv zeta.
  { cbn. split; [|done]. intros j Hj Hjn. apply Hh; [done..|].
    pose proof (parent_lt j Hj). lia. }
  cbn [down]. destruct (Nat.leb_spec n (2 * i + 1)).
  { split; [|done]. intros j Hj Hjn. apply Hh; [done..|].
    intros E%parent_child; lia. }
  replace (2 * i + 1 + 1) with (2 * i + 2) by lia.
  fold (smaller_child i n h).
  destruct (smaller_child_spec i n h) as (Hj & Hjn & Hmin); [done..|].
  set (j := smaller_child i n h) in *.
  destruct (Less h j i) eqn:E; cbn [negb].
  - destruct (IH j (Swap i j h)) as [IH1 IH2].
    + lia.
    + rewrite Swap_length. lia.
    + by apply heap_but_down_swap.
    + split; [done|]. intros m Hm. rewrite IH2 by done.
      rewrite Swap_lookup by lia. by rewrite !decide_False by lia.
  - split; [|done]. intros c Hc Hcn.
    destruct (decide (parent c = i)) as [Ec|Ec]; [|by apply Hh].
    intros u v Hu Hv. specialize (Hmin c Hc Hcn Ec).
    destruct (lookup_lt_is_Some_2 h j ltac:(lia)) as [w Hw]. rewrite Ec in Hv.
    rewrite (Less_spec h c j u w) in Hmin by done.
    rewrite (Less_spec h j i w v) in E by done.
    by apply (less_ntrans u w v).
Qed.

(** The root of a heap is one of the elements that sort first. *)
Lemma heap_root_min h x y : is_heap h -> h !! 0 = Some x -> y ∈ h -> less y x = false.
Proof.
  intros Hh Hx [j Hj]%list_elem_of_lookup. revert y Hj.
  induction j as [j IH] using lt_wf_ind. intros y Hj.
  destruct (decide (j = 0)) as [->|].
  { assert (x = y) as -> by congruence. apply less_irrefl. }
  pose proof (parent_lt j ltac:(lia)).
  pose proof (lookup_lt_Some _ _ _ Hj).
  destruct (lookup_lt_is_Some_2 h (parent j) ltac:(lia)) as [z Hz].
  apply (less_ntrans y z x); [|by apply (IH (parent j))].
  apply (Hh j); [lia|done..].
Qed.

Lemma Pop_spec h :
  is_heap h -> h <> [] ->
  exists x h', Pop h = Some (x, h') /\ h !! 0 = Some x /\
    h ≡ₚ x :: h' /\ is_heap h' /\ (forall y, y ∈ h -> less y x = false).
Proof.
  intros Hh Hne. destruct (length h) as [|n] eqn:Hlen.
  { by destruct h. }
  unfold Pop. rewrite Hlen. cbn [Nat.sub]. rewrite Nat.sub_0_r.
  destruct (lookup_lt_is_Some_2 h 0 ltac:(lia)) as [x Hx].
  destruct (lookup_lt_is_Some_2 h n ltac:(lia)) as [z Hz].
  set (hs := Swap 0 n h).
  assert (Hbd : heap_but_down 0 n hs).
  { split; [|intros; lia]. intros j Hj Hjn Hpj u v. unfold hs.
    rewrite !Swap_lookup by lia. pose proof (parent_lt j Hj).
    rewrite !decide_False by lia. by apply Hh. }
  destruct (down_spec (S n) 0 n hs) as [Hd1 Hd2];
    [lia| unfold hs; rewrite Swap_length; lia | done |].
  set (hd := down (S n) 0 n hs) in *.
  assert (Hn : hd !! n = Some x).
  { rewrite Hd2 by done. unfold hs. rewrite Swap_lookup by lia.
    destruct (decide (n = 0)) as [->|]; [congruence|].
    by rewrite decide_True. }
  rewrite Hn. exists x, (take n hd). split; [done|]. split; [done|].
  assert (Hperm : hd ≡ₚ h) by (unfold hd, hs; by rewrite down_perm, Swap_perm).
  assert (Hl : length hd = S n) by (by rewrite Hperm).
  split; [|split].
  - rewrite <- Hperm at 1. rewrite <- (take_drop n hd) at 1.
    rewrite (drop_S hd x n Hn), drop_ge by lia.
    symmetry. apply Permutation_cons_append.
  - intros j Hj u v Hu Hv. rewrite lookup_take_Some in Hu, Hv.
    destruct Hu as [Hu ?], Hv as [Hv ?]. by apply (Hd1 j).
  - intros y Hy. by apply (heap_root_min h).
Qed.
End Order.
End Heap.

#[global] Arguments Swap : simpl never.
#[global] Arguments Push : simpl never.
#[global] Arguments Pop : simpl never.
