(* ===== verification/Index.v ===== *)
(** * Index: the schedule index of [internal/broker/index.go]

    Two heaps per queue: [ready] for the jobs that can run, [delayed] for those
    whose time has not come. The index is derived data: an entry is a copy of a
    job's scheduling key and may go stale. *)
From S2P Require Import Prelude Job Heap.

Record indexEntry := mkEntry {
  id : string;
  priority : Priority;
  enqueuedAt : Time;
  eligibleAt : Time
}.

#[export] Instance indexEntry_eq_dec : EqDecision indexEntry.
Proof. solve_decision. Defined.

(** [readyHeap.Less] on two entries. *)
Definition readyLess (a b : indexEntry) : bool :=
  if negb (bool_decide (priority a = priority b)) then
    Priority_num (priority b) <? Priority_num (priority a)
  else if negb (enqueuedAt a =? enqueuedAt b) then enqueuedAt a <? enqueuedAt b
  else str_ltb (id a) (id b).

(** [delayedHeap.Less] on two entries. *)
Definition delayedLess (a b : indexEntry) : bool :=
  if negb (eligibleAt a =? eligibleAt b) then eligibleAt a <? eligibleAt b
  else str_ltb (id a) (id b).

Record queueIndex := mkQueueIndex {
  ready : list indexEntry;
  delayed : list indexEntry
}.

(** [scheduleIndex.queues]. *)
Abbreviation scheduleIndex := (gmap string queueIndex) (only parsing).

Definition newScheduleIndex : scheduleIndex := ∅.

Definition forQueue (name : string) (s : scheduleIndex) : queueIndex :=
  match s !! name with Some q => q | None => mkQueueIndex [] [] end.

Definition entry_of (j : Job) : indexEntry :=
  mkEntry (ID j) (JPriority j) (EnqueuedAt j) (EligibleAt j).

Definition push (j : Job) (now : Time) (s : scheduleIndex) : scheduleIndex :=
  let e := entry_of j in
  let q := forQueue (Queue j) s in
  if now <? eligibleAt e then
    <[Queue j := mkQueueIndex (ready q) (Push delayedLess e (delayed q))]> s
  else <[Queue j := mkQueueIndex (Push readyLess e (ready q)) (delayed q)]> s.

(** The loop of [promote]: one round per delayed entry at most. *)
Fixpoint promote_loop (fuel : nat) (now : Time) (q : queueIndex) : queueIndex :=
  match fuel with
  | O => q
  | S fuel =>
      match delayed q with
      | [] => q
      | e :: _ =>
          if now <? eligibleAt e then q
          else match Pop delayedLess (delayed q) with
               | None => q
               | Some (e, d) =>
                   promote_loop fuel now (mkQueueIndex (Push readyLess e (ready q)) d)
               end
      end
  end.

Definition promote (queue : string) (now : Time) (s : scheduleIndex) : scheduleIndex :=
  match s !! queue with
  | None => s
  | Some q => <[queue := promote_loop (length (delayed q)) now q]> s
  end.

Definition pop (queue : string) (s : scheduleIndex) : option (indexEntry * scheduleIndex) :=
  match s !! queue with
  | None => None
  | Some q =>
      match ready q with
      | [] => None
      | _ =>
          match Pop readyLess (ready q) with
          | None => None
          | Some (e, r) => Some (e, <[queue := mkQueueIndex r (delayed q)]> s)
          end
      end
  end.

(** One queue's turn in the loop of [nextDeadline]. *)
Definition deadline_step (earliest : Time) (q : queueIndex) : Time :=
  match delayed q with
  | [] => earliest
  | e :: _ =>
      if IsZero earliest || (eligibleAt e <? earliest) then eligibleAt e else earliest
  end.

(** [nextDeadline], visiting the queues in the order [qs]; the flag of the
    source's second result is whether the time is non-zero. *)
Definition nextDeadline_in (qs : list queueIndex) : option Time :=
  let earliest := fold_left deadline_step qs zeroTime in
  if IsZero earliest then None else Some earliest.

Definition nextDeadline (s : scheduleIndex) : option Time :=
  nextDeadline_in (map snd (map_to_list s)).

(** ** The two orders *)

Lemma readyLess_lex a b :
  readyLess a b =
  lex_less (by_key (fun e => Priority_num (priority e)) Z.gtb)
    (lex_less (by_key enqueuedAt Z.ltb) (by_key id str_ltb)) a b.
Proof.
  unfold readyLess, lex_less, by_key. rewrite !Z.gtb_ltb.
  destruct (bool_decide_reflect (priority a = priority b)) as [->|Hne]; cbn [negb].
  - rewrite Z.ltb_irrefl.
    destruct (Z.eqb_spec (enqueuedAt a) (enqueuedAt b)) as [->|He]; cbn [negb].
    + by rewrite Z.ltb_irrefl.
    + destruct (Z.ltb_spec (enqueuedAt a) (enqueuedAt b)); [done|].
      by rewrite (proj2 (Z.ltb_lt _ _)) by lia.
  - destruct (priority a), (priority b); done.
Qed.

Lemma delayedLess_lex a b :
  delayedLess a b = lex_less (by_key eligibleAt Z.ltb) (by_key id str_ltb) a b.
Proof.
  unfold delayedLess, lex_less, by_key.
  destruct (Z.eqb_spec (eligibleAt a) (eligibleAt b)) as [->|He]; cbn [negb].
  - by rewrite Z.ltb_irrefl.
  - destruct (Z.ltb_spec (eligibleAt a) (eligibleAt b)); [done|].
    by rewrite (proj2 (Z.ltb_lt _ _)) by lia.
Qed.

Lemma weak_order_ext {A} (f g : A -> A -> bool) `{!WeakOrder g} :
  (forall x y, f x y = g x y) -> WeakOrder f.
Proof.
  intros H. split.
  - intros x. rewrite H. apply less_irrefl.
  - intros x y z. rewrite !H. apply less_trans.
  - intros x y z. rewrite !H. apply less_ntrans.
Qed.

#[export] Instance readyLess_weak : WeakOrder readyLess.
Proof. eapply weak_order_ext; [|apply readyLess_lex]. apply _. Qed.

#[export] Instance delayedLess_weak : WeakOrder delayedLess.
Proof. eapply weak_order_ext; [|apply delayedLess_lex]. apply _. Qed.

(** Neither order leaves two different identifiers incomparable. *)
Lemma readyLess_total a b : id a <> id b -> readyLess a b = false -> readyLess b a = true.
Proof.
  rewrite !readyLess_lex. unfold lex_less, by_key. rewrite !Z.gtb_ltb. intros Hid.
  destruct (Priority_num (priority b) <? Priority_num (priority a)),
    (Priority_num (priority a) <? Priority_num (priority b)); try done.
  destruct (enqueuedAt a <? enqueuedAt b), (enqueuedAt b <? enqueuedAt a); try done.
  intros H. destruct (str_ltb (id b) (id a)) eqn:E; [done|].
  by destruct Hid; apply str_ltb_total.
Qed.

(** ** Well-formed indices *)

Definition queue_wf (q : queueIndex) : Prop :=
  is_heap readyLess (ready q) /\ is_heap delayedLess (delayed q).

Definition index_wf (s : scheduleIndex) : Prop := map_Forall (fun _ q => queue_wf q) s.

(** Every entry of a queue. *)
Definition entries_q (q : queueIndex) : list indexEntry := ready q ++ delayed q.
Definition entries (name : string) (s : scheduleIndex) : list indexEntry :=
  entries_q (forQueue name s).

Lemma is_heap_nil {A} (less : A -> A -> bool) : is_heap less [].
Proof. intros j _ x y Hx. done. Qed.

Lemma forQueue_wf name s : index_wf s -> queue_wf (forQueue name s).
Proof.
  intros H. unfold forQueue. destruct (s !! name) as [q|] eqn:E; [by apply (H name)|].
  split; apply is_heap_nil.
Qed.

Lemma forQueue_insert name name' q s :
  forQueue name (<[name' := q]> s) =
  if decide (name' = name) then q else forQueue name s.
Proof. unfold forQueue. rewrite lookup_insert. by case_decide. Qed.

Lemma forQueue_Some name q s : s !! name = Some q -> forQueue name s = q.
Proof. unfold forQueue. by intros ->. Qed.

Lemma index_wf_insert name q s : index_wf s -> queue_wf q -> index_wf (<[name := q]> s).
Proof. intros Hs Hq. by apply map_Forall_insert_2. Qed.

Lemma push_wf j now s : index_wf s -> index_wf (push j now s).
Proof.
  intros Hs. unfold push. pose proof (forQueue_wf (Queue j) s Hs) as [Hr Hd].
  destruct (_ <? _); apply index_wf_insert; try done; split; try done;
    cbn; by apply (Push_heap _ _ _).
Qed.

Lemma push_entries j now s q :
  entries q (push j now s) ≡ₚ
  (if decide (Queue j = q) then [entry_of j] else []) ++ entries q s.
Proof.
  unfold entries, push.
  destruct (_ <? _); rewrite forQueue_insert; destruct (decide (Queue j = q)) as [<-|];
    try done; unfold entries_q; cbn [ready delayed].
  - rewrite Push_perm. cbn. by rewrite Permutation_middle.
  - by rewrite Push_perm.
Qed.

(** Where [push] files the entry. *)
Lemma push_ready j now s q e :
  e ∈ ready (forQueue q (push j now s)) <->
  e ∈ ready (forQueue q s) \/
  (q = Queue j /\ e = entry_of j /\ EligibleAt j <= now).
Proof.
  unfold push. cbn [entry_of eligibleAt].
  destruct (Z.ltb_spec now (EligibleAt j)); rewrite forQueue_insert;
    destruct (decide (Queue j = q)) as [<-|Hne]; cbn [ready];
    rewrite ?Push_perm, ?elem_of_cons.
  - split; [tauto|]. intros [?|(_ & _ & ?)]; [done|lia].
  - split; [tauto|]. intros [?|(-> & _)]; [done|congruence].
  - split; [intros [->|?]; auto|]. intros [?|(_ & -> & _)]; auto.
  - split; [tauto|]. intros [?|(-> & _)]; [done|congruence].
Qed.

Lemma elem_of_entries e name s :
  e ∈ entries name s <->
  e ∈ ready (forQueue name s) \/ e ∈ delayed (forQueue name s).
Proof. unfold entries, entries_q. apply elem_of_app. Qed.

(** ** Promotion *)

Lemma delayed_root_min q e d :
  queue_wf q -> delayed q = e :: d ->
  forall y, y ∈ delayed q -> eligibleAt e <= eligibleAt y.
Proof.
  intros [_ Hd] He y Hy.
  assert (H : delayedLess y e = false)
    by (apply (heap_root_min _ (delayed q)); [done|by rewrite He|done]).
  revert H. unfold delayedLess.
  destruct (Z.eqb_spec (eligibleAt y) (eligibleAt e)); cbn [negb]; [lia|].
  intros; to_prop; lia.
Qed.

Definition due (now : Time) (e : indexEntry) : Prop := eligibleAt e <= now.
#[export] Instance due_dec now e : Decision (due now e).
Proof. unfold due. apply _. Defined.

Lemma promote_loop_spec fuel now q :
  (length (delayed q) <= fuel)%nat -> queue_wf q ->
  let q' := promote_loop fuel now q in
  queue_wf q' /\
  ready q' ≡ₚ filter (due now) (delayed q) ++ ready q /\
  delayed q' ≡ₚ filter (fun e => ~ due now e) (delayed q).
Proof.
  revert q. induction fuel as [|fuel IH]; intros q Hf Hq; cbv zeta.
  { assert (delayed q = []) as E by (destruct (delayed q); [done|cbn in Hf; lia]).
    cbn. rewrite E. done. }
  cbn [promote_loop]. destruct (delayed q) as [|e d] eqn:E.
  { by rewrite E. }
  pose proof (delayed_root_min q e d Hq E) as Hmin. rewrite E in Hmin.
  destruct (Z.ltb_spec now (eligibleAt e)) as [Hlt|Hge].
  - split; [done|]. rewrite E.
    assert (Hall : forall y, y ∈ e :: d -> ~ due now y).
    { intros y Hy. unfold due. specialize (Hmin y Hy). lia. }
    rewrite (filter_none (due now)), filter_all by done. done.
  - destruct Hq as [Hr Hd]. rewrite E in Hd.
    destruct (Pop_spec delayedLess (e :: d) Hd) as (x & d' & -> & Hx & Hp & Hd' & _);
      [done|]. cbn in Hx. injection Hx as <-.
    assert (Hp' : d ≡ₚ d') by (by apply Permutation_cons_inv in Hp).
    destruct (IH (mkQueueIndex (Push readyLess e (ready q)) d')) as (H1 & H2 & H3).
    + cbn. rewrite <- Hp'. cbn in Hf. lia.
    + split; cbn; [by apply (Push_heap _ _ _)|done].
    + split; [done|]. cbn [ready delayed] in H2, H3.
      rewrite (filter_cons_True (due now)) by (unfold due; lia).
      rewrite (filter_cons_False (fun e => ~ due now e)) by (unfold due; lia).
      rewrite H2, H3, Push_perm, Hp'. split; [|done].
      cbn. by rewrite Permutation_middle.
Qed.

Lemma promote_spec queue now s :
  index_wf s ->
  let q := forQueue queue s in
  let q' := forQueue queue (promote queue now s) in
  index_wf (promote queue now s) /\
  ready q' ≡ₚ filter (due now) (delayed q) ++ ready q /\
  delayed q' ≡ₚ filter (fun e => ~ due now e) (delayed q) /\
  (forall other, other <> queue -> forQueue other (promote queue now s) = forQueue other s).
Proof.
  intros Hs. cbv zeta. unfold promote. destruct (s !! queue) as [q|] eqn:E.
  - rewrite forQueue_insert, decide_True, (forQueue_Some _ _ _ E) by done.
    destruct (promote_loop_spec (length (delayed q)) now q) as (H1 & H2 & H3);
      [lia|by apply (Hs queue)|].
    split; [by apply index_wf_insert|]. split; [done|]. split; [done|].
    intros other Ho. by rewrite forQueue_insert, decide_False by done.
  - unfold forQueue. by rewrite E.
Qed.

Lemma promote_entries queue now s name :
  index_wf s -> entries name (promote queue now s) ≡ₚ entries name s.
Proof.
  intros Hs. destruct (promote_spec queue now s Hs) as (_ & H2 & H3 & H4).
  unfold entries, entries_q. destruct (decide (name = queue)) as [->|Hne].
  - rewrite H2, H3, (Permutation_app_comm (filter _ _)), <- app_assoc.
    by rewrite filter_app_complement.
  - by rewrite H4.
Qed.

(** ** Popping *)

Lemma pop_None queue s : index_wf s -> pop queue s = None <-> ready (forQueue queue s) = [].
Proof.
  intros Hs. unfold pop, forQueue. destruct (s !! queue) as [q|] eqn:E; [|done].
  destruct (ready q) as [|e r] eqn:Er; [done|].
  destruct (Pop_spec readyLess (e :: r)) as (x & r' & -> & _); [|done|done].
  rewrite <- Er. by apply (Hs queue).
Qed.

Lemma pop_Some queue s e s' :
  index_wf s -> pop queue s = Some (e, s') ->
  index_wf s' /\
  ready (forQueue queue s) ≡ₚ e :: ready (forQueue queue s') /\
  delayed (forQueue queue s') = delayed (forQueue queue s) /\
  (forall y, y ∈ ready (forQueue queue s) -> readyLess y e = false) /\
  (forall other, other <> queue -> forQueue other s' = forQueue other s).
Proof.
  intros Hs. unfold pop. destruct (s !! queue) as [q|] eqn:E; [|done].
  destruct (Hs queue q E) as [Hr Hd]. rewrite (forQueue_Some _ _ _ E).
  destruct (ready q) as [|e0 r] eqn:Er; [done|].
  destruct (Pop_spec readyLess (e0 :: r) Hr) as (x & r' & -> & _ & Hp & Hr' & Hm); [done|].
  intros [= -> <-]. split; [by apply index_wf_insert|].
  rewrite !forQueue_insert, !decide_True by done. split; [done|]. split; [done|].
  split; [done|]. intros other Ho. by rewrite forQueue_insert, decide_False by done.
Qed.

(** ** The next deadline *)

Definition is_earliest (t : Time) (es : list indexEntry) : Prop :=
  (exists e, e ∈ es /\ eligibleAt e = t) /\ forall e, e ∈ es -> t <= eligibleAt e.

Lemma deadline_fold qs acc es :
  Forall queue_wf qs -> (forall q e, q ∈ qs -> e ∈ delayed q -> eligibleAt e <> 0) ->
  (acc = 0 /\ es = [] \/ acc <> 0 /\ is_earliest acc es) ->
  let t := fold_left deadline_step qs acc in
  let es' := es ++ concat (map delayed qs) in
  t = 0 /\ es' = [] \/ t <> 0 /\ is_earliest t es'.
Proof.
  revert acc es. induction qs as [|q qs IH]; intros acc es Hwf Hnz Hacc; cbv zeta.
  { cbn. by rewrite app_nil_r. }
  cbn [fold_left map concat]. rewrite app_assoc.
  apply Forall_cons in Hwf as [Hq Hwf].
  apply IH; [done| intros; apply (Hnz q0); [by right|done] |].
  pose proof (delayed_root_min q) as Hroot.
  pose proof (Hnz q) as Hnzq. unfold deadline_step, IsZero.
  destruct (delayed q) as [|e d] eqn:E.
  { by rewrite app_nil_r. }
  assert (eligibleAt e <> 0) by (apply Hnzq; left).
  specialize (Hroot e d Hq eq_refl). right.
  destruct Hacc as [[-> ->]|[Hne [[e' [He' Ht]] Hmin]]].
  - cbn. split; [done|]. split; [|done]. exists e. split; [left|done].
  - rewrite (proj2 (Z.eqb_neq acc 0) Hne). cbn [orb].
    destruct (Z.ltb_spec (eligibleAt e) acc).
    + split; [done|]. split; [exists e; split; [|done]; set_solver|].
      intros y [Hy|Hy]%elem_of_app; [specialize (Hmin y Hy); lia|auto].
    + split; [done|]. split; [exists e'; split; [|done]; set_solver|].
      intros y [Hy|Hy]%elem_of_app; [auto|]. specialize (Hroot y Hy). lia.
Qed.

(** Every delayed entry of the index, in any queue. *)
Definition is_delayed (s : scheduleIndex) (e : indexEntry) : Prop :=
  exists name q, s !! name = Some q /\ e ∈ delayed q.

Lemma elem_of_queues (s : scheduleIndex) (qs : list queueIndex) (q : queueIndex) :
  qs ≡ₚ map snd (map_to_list s) -> q ∈ qs <-> exists name, s !! name = Some q.
Proof.
  intros ->. rewrite list_elem_of_In, in_map_iff. split.
  - intros ([name q'] & <- & Hin). exists name.
    by apply elem_of_map_to_list, list_elem_of_In.
  - intros [name Hn]. exists (name, q). split; [done|].
    by apply list_elem_of_In, elem_of_map_to_list.
Qed.

Lemma elem_of_concat_delayed (s : scheduleIndex) (qs : list queueIndex) e :
  qs ≡ₚ map snd (map_to_list s) ->
  e ∈ concat (map delayed qs) <-> is_delayed s e.
Proof.
  intros Hqs. rewrite list_elem_of_In, in_concat. split.
  - intros (l & (q & <- & Hq)%in_map_iff & He).
    apply list_elem_of_In, (elem_of_queues s qs q Hqs) in Hq as [name Hn].
    exists name, q. split; [done|]. by apply list_elem_of_In.
  - intros (name & q & Hn & He). exists (delayed q). split.
    + apply in_map, list_elem_of_In. apply (elem_of_queues s qs q Hqs). eauto.
    + by apply list_elem_of_In.
Qed.

(** ** Properties *)

(** Taking the next candidate of a queue after promoting at [now] hands
    out an entry that could run, before which no other entry that could run
    sorts (priority descending, then age, then identifier), and removes
    exactly that entry from the index. *)
Theorem promote_pop_order queue now s e s' :
  index_wf s -> pop queue (promote queue now s) = Some (e, s') ->
  let q := forQueue queue s in
  let runnable y := y ∈ ready q \/ (y ∈ delayed q /\ eligibleAt y <= now) in
  runnable e /\ (forall y, runnable y -> readyLess y e = false) /\
  index_wf s' /\ entries queue s ≡ₚ e :: entries queue s'.
Proof.
  intros Hs Hpop. cbv zeta.
  destruct (promote_spec queue now s Hs) as (Hs1 & Hr & Hd & _).
  destruct (pop_Some _ _ _ _ Hs1 Hpop) as (Hs' & Hp & Hd' & Hmin & _).
  assert (Hiff : forall y, y ∈ ready (forQueue queue (promote queue now s)) <->
    y ∈ ready (forQueue queue s) \/ (y ∈ delayed (forQueue queue s) /\ eligibleAt y <= now)).
  { intros y. rewrite Hr, elem_of_app, list_elem_of_filter. unfold due. tauto. }
  split; [apply Hiff; rewrite Hp; left|]. split; [|split; [done|]].
  - intros y Hy. apply Hmin. by apply Hiff.
  - rewrite <- (promote_entries queue now s queue Hs). unfold entries, entries_q.
    by rewrite Hp, Hd'.
Qed.

(** [promote] moves exactly the entries that are due and loses none:
    afterwards the delayed heap holds the entries of the future and the ready
    heap all the others; both are still heaps, and other queues are
    untouched. *)
Theorem promote_exact queue now s :
  index_wf s ->
  let q := forQueue queue s in
  let q' := forQueue queue (promote queue now s) in
  index_wf (promote queue now s) /\
  ready q' ≡ₚ filter (due now) (delayed q) ++ ready q /\
  delayed q' ≡ₚ filter (fun e => ~ due now e) (delayed q) /\
  (forall other, other <> queue ->
     forQueue other (promote queue now s) = forQueue other s).
Proof. apply promote_spec. Qed.

(** Whatever the order in which the queues are visited, [nextDeadline]
    reports the earliest eligibility time of any delayed job, and nothing
    exactly when no job is delayed. *)
Theorem nextDeadline_earliest (s : scheduleIndex) (qs : list queueIndex) :
  index_wf s -> (forall e, is_delayed s e -> eligibleAt e <> zeroTime) ->
  qs ≡ₚ map snd (map_to_list s) ->
  match nextDeadline_in qs with
  | None => forall e, ~ is_delayed s e
  | Some t => (exists e, is_delayed s e /\ eligibleAt e = t) /\
              forall e, is_delayed s e -> t <= eligibleAt e
  end.
Proof.
  intros Hs Hnz Hqs.
  pose proof (fun e => elem_of_concat_delayed s qs e Hqs) as Hiff.
  destruct (deadline_fold qs 0 []) as [[Ht He]|[Ht [[e [He Het]] Hmin]]].
  - apply Forall_forall. intros q Hq.
    apply (elem_of_queues s qs q Hqs) in Hq as [name Hn]. by apply (Hs name).
  - intros q e Hq He. apply Hnz.
    apply (elem_of_queues s qs q Hqs) in Hq as [name Hn]. by exists name, q.
  - by left.
  - unfold nextDeadline_in, zeroTime. rewrite Ht. cbn.
    intros e H%Hiff. cbn in He. rewrite He in H. by apply elem_of_nil in H.
  - unfold nextDeadline_in, IsZero, zeroTime.
    rewrite (proj2 (Z.eqb_neq _ _) Ht). cbn [app] in He, Hmin. split.
    + exists e. split; [by apply Hiff|done].
    + intros y Hy%Hiff. by apply Hmin.
Qed.

(** *** Witnesses *)

Definition ex_job (i : string) (p : Priority) (enq elig : Z) : Job :=
  mkJob i "q" "shell" [] "" p 3 0 StatePending 0 enq elig 0 "" "".

Definition ex_index : scheduleIndex :=
  push (ex_job "a" PriorityLow 1 1) 10
    (push (ex_job "b" PriorityHigh 3 20) 10
       (push (ex_job "c" PriorityNormal 2 2) 10
          (push (ex_job "d" PriorityHigh 4 90) 10 newScheduleIndex))).

Lemma ex_index_wf : index_wf ex_index.
Proof. unfold ex_index. do 4 apply push_wf. done. Qed.

Lemma promote_pop_order_witness :
  exists s', pop "q" (promote "q" 30 ex_index)
    = Some (mkEntry "b" PriorityHigh 3 20, s') /\ index_wf s'.
Proof.
  destruct (pop "q" (promote "q" 30 ex_index)) as [[e s']|] eqn:E.
  - exists s'. split.
    + f_equal. f_equal. vm_compute in E. congruence.
    + apply (promote_pop_order "q" 30 ex_index e s' ex_index_wf E).
  - exfalso. vm_compute in E. discriminate.
Defined.

Lemma promote_exact_witness :
  index_wf ex_index /\ index_wf (promote "q" 30 ex_index).
Proof.
  split; [apply ex_index_wf|]. apply (promote_exact "q" 30 ex_index ex_index_wf).
Defined.

Lemma ex_index_nonzero e : is_delayed ex_index e -> eligibleAt e <> zeroTime.
Proof.
  intros (name & q & Hn & He).
  assert (Hq : q ∈ map snd (map_to_list ex_index)).
  { apply (elem_of_queues ex_index _ q); [done|eauto]. }
  assert (map snd (map_to_list ex_index) =
    [mkQueueIndex [mkEntry "c" PriorityNormal 2 2; mkEntry "a" PriorityLow 1 1]
       [mkEntry "b" PriorityHigh 3 20; mkEntry "d" PriorityHigh 4 90]]) as Hl
    by (vm_compute; reflexivity).
  rewrite Hl in Hq. apply list_elem_of_singleton in Hq as ->.
  cbn in He. rewrite !elem_of_cons in He.
  destruct He as [->|[->|He]]; [done|done|by apply elem_of_nil in He].
Qed.

Lemma nextDeadline_earliest_witness :
  nextDeadline ex_index = Some 20 /\
  (exists e, is_delayed ex_index e /\ eligibleAt e = 20).
Proof.
  pose proof (nextDeadline_earliest ex_index (map snd (map_to_list ex_index))
    ex_index_wf ex_index_nonzero (Permutation_refl _)) as H.
  assert (E : nextDeadline_in (map snd (map_to_list ex_index)) = Some 20)
    by (vm_compute; reflexivity).
  split; [exact E|]. rewrite E in H. apply H.
Defined.
