(* ===== verification/Framing.v ===== *)
(** * Framing: the record format of [internal/wal/wal.go]

    A record is [length (4, LE) | crc32c (4, LE) | payload]; the checksum
    covers the length field and the payload. [scanRecords] reads records until
    the first one that is not complete and intact. *)
From S2P Require Import Prelude.

Definition headerSize : nat := 8.
Definition MaxRecordSize : N := 67108864. (* 64 << 20 *)

(** ** CRC-32C ([hash/crc32] with the Castagnoli polynomial), bit by bit *)

Definition crc_bit (c : N) : N :=
  if N.odd c then N.lxor (N.shiftr c 1) 2197175160 else N.shiftr c 1.

Definition crc_byte (c : N) (b : byte) : N :=
  let c := N.lxor c (N_of_ascii b) in
  crc_bit (crc_bit (crc_bit (crc_bit (crc_bit (crc_bit (crc_bit (crc_bit c))))))).

Definition crc32c (bs : bytes) : N :=
  N.lxor (fold_left crc_byte bs 4294967295%N) 4294967295%N.

(** The check value of the CRC-32C specification. *)
Example crc32c_check : crc32c (list_ascii_of_string "123456789") = 3808858755%N.
Proof. vm_compute. reflexivity. Qed.

(** ** Writing a record: the framing block of [appendLocked] *)

Definition frame (payload : bytes) : bytes :=
  let hdr := le32 (N.of_nat (length payload)) in
  hdr ++ le32 (crc32c (hdr ++ payload)) ++ payload.

(** What [appendLocked] accepts. *)
Definition valid_payload (p : bytes) : Prop :=
  p <> [] /\ (N.of_nat (length p) <= MaxRecordSize)%N.

#[export] Instance valid_payload_dec p : Decision (valid_payload p).
Proof. unfold valid_payload. apply _. Defined.

(** ** Reading *)

(** A reader delivers [r_data] and then either ends or, with [r_err], fails. *)
Record Reader := mkReader { r_data : bytes; r_err : bool }.

Inductive read_result :=
  | Rec (payload rest : bytes)   (** a complete, intact record *)
  | Stop                         (** clean end, torn or corrupt record *)
  | ReadErr.                     (** an I/O error *)

(** One round of the loop of [scanRecords]. *)
Definition readRecord (r : Reader) : read_result :=
  let data := r_data r in
  let short := if r_err r then ReadErr else Stop in
  if (length data <? headerSize)%nat then short
  else
    let len := un_le32 (take 4 data) in
    let want := un_le32 (take 4 (drop 4 data)) in
    if (len =? 0)%N || (MaxRecordSize <? len)%N then Stop
    else
      let body := drop headerSize data in
      if (N.of_nat (length body) <? len)%N then short
      else
        let payload := take (N.to_nat len) body in
        if negb (crc32c (take 4 data ++ payload) =? want)%N then Stop
        else Rec payload (drop (N.to_nat len) body).

Section Scan.
Context {S E : Type} (eread : E).

(** [scanRecords]: calls [fn] on every record in order and returns the
    offset past the last valid one and their number. Each round consumes
    more than eight bytes. *)
Fixpoint scan_loop (fuel : nat) (fn : bytes -> M S E unit) (r : Reader)
    (validEnd : nat) (count : N) : M S E (nat * N) :=
  match fuel with
  | O => ret (validEnd, count)
  | Datatypes.S fuel =>
      match readRecord r with
      | Stop => ret (validEnd, count)
      | ReadErr => throw eread
      | Rec payload rest =>
          fn payload ;;;
          scan_loop fuel fn (mkReader rest (r_err r))
            (validEnd + headerSize + length payload) (count + 1)%N
      end
  end.

Definition scanRecords (r : Reader) (fn : bytes -> M S E unit) : M S E (nat * N) :=
  scan_loop (Datatypes.S (length (r_data r))) fn r 0 0%N.
End Scan.

(** ** Reference reading: the list of records at the front of some bytes *)

Fixpoint records_fuel (fuel : nat) (data : bytes) : list bytes :=
  match fuel with
  | O => []
  | S fuel =>
      match readRecord (mkReader data false) with
      | Rec p rest => p :: records_fuel fuel rest
      | _ => []
      end
  end.
Definition records (data : bytes) : list bytes := records_fuel (S (length data)) data.

Definition frames (ps : list bytes) : bytes := concat (map frame ps).

(** ** Checksums fit 32 bits *)

Lemma lxor_bound a b k : (a < 2 ^ k -> b < 2 ^ k -> N.lxor a b < 2 ^ k)%N.
Proof.
  intros Ha Hb. destruct (N.eq_dec (N.lxor a b) 0%N) as [->|Hne]; [lia|].
  destruct (N.eq_dec a 0%N) as [->|Ha0]; [by rewrite N.lxor_0_l|].
  destruct (N.eq_dec b 0%N) as [->|Hb0]; [by rewrite N.lxor_0_r|].
  apply N.log2_lt_pow2; [lia|]. apply N.log2_lt_pow2 in Ha, Hb; [|lia..].
  pose proof (N.log2_lxor a b). lia.
Qed.

Lemma crc_bit_bound c : (c < 2 ^ 32 -> crc_bit c < 2 ^ 32)%N.
Proof.
  intros Hc. unfold crc_bit. rewrite N.shiftr_div_pow2.
  assert (c / 2 ^ 1 < 2 ^ 32)%N.
  { change (2 ^ 1)%N with 2%N. change (2 ^ 32)%N with 4294967296%N in *. lia_div. }
  destruct (N.odd c); [|done]. by apply lxor_bound.
Qed.

Lemma crc_byte_bound c b : (c < 2 ^ 32 -> crc_byte c b < 2 ^ 32)%N.
Proof.
  intros Hc. unfold crc_byte. cbv zeta. do 8 apply crc_bit_bound.
  apply lxor_bound; [done|]. pose proof (N_ascii_bounded b).
  change (2 ^ 32)%N with 4294967296%N. lia.
Qed.

Lemma crc32c_bound bs : (crc32c bs < 2 ^ 32)%N.
Proof.
  unfold crc32c. apply lxor_bound; [|done].
  assert (H : forall c, (c < 2 ^ 32 -> fold_left crc_byte bs c < 2 ^ 32)%N).
  { induction bs as [|b bs IH]; intros c Hc; [done|]. cbn.
    apply IH. by apply crc_byte_bound. }
  by apply H.
Qed.

(** ** Frames *)

Lemma length_frame p : length (frame p) = (headerSize + length p)%nat.
Proof. unfold frame. rewrite !length_app, !length_le32. unfold headerSize. lia. Qed.

Lemma length_frames_cons p ps :
  length (frames (p :: ps)) = (headerSize + length p + length (frames ps))%nat.
Proof.
  change (frames (p :: ps)) with (frame p ++ frames ps).
  by rewrite length_app, length_frame.
Qed.

Lemma frames_app ps qs : frames (ps ++ qs) = frames ps ++ frames qs.
Proof. unfold frames. by rewrite map_app, concat_app. Qed.

Lemma frames_snoc ps p : frames (ps ++ [p]) = frames ps ++ frame p.
Proof.
  rewrite frames_app. change (frames [p]) with (frame p ++ []).
  by rewrite app_nil_r.
Qed.

Lemma valid_length_u32 p : valid_payload p -> (N.of_nat (length p) < 2 ^ 32)%N.
Proof.
  intros [_ H]. unfold MaxRecordSize in H. change (2 ^ 32)%N with 4294967296%N. lia.
Qed.

Lemma valid_length_pos p : valid_payload p -> (0 < length p)%nat.
Proof. intros [H _]. destruct p; [done|cbn; lia]. Qed.

(** The parts of a frame, cut where the reader cuts. *)
Lemma frame_parts p rest :
  let data := frame p ++ rest in
  take 4 data = le32 (N.of_nat (length p)) /\
  take 4 (drop 4 data) = le32 (crc32c (le32 (N.of_nat (length p)) ++ p)) /\
  drop headerSize data = p ++ rest.
Proof. cbv zeta. unfold frame. rewrite <- !app_assoc. done. Qed.

(** A whole frame reads back, whatever follows it. *)
Lemma readRecord_frame p rest e :
  valid_payload p -> readRecord (mkReader (frame p ++ rest) e) = Rec p rest.
Proof.
  intros Hv. pose proof (valid_length_u32 p Hv) as H32.
  pose proof (valid_length_pos p Hv) as Hpos. destruct Hv as [_ Hmax].
  unfold readRecord. cbn [r_data r_err].
  destruct (frame_parts p rest) as (-> & -> & ->).
  rewrite length_app, length_frame.
  rewrite (proj2 (Nat.ltb_ge _ _)) by lia.
  rewrite !un_le32_le32 by (done || apply crc32c_bound).
  rewrite (proj2 (N.eqb_neq _ _)), (proj2 (N.ltb_ge MaxRecordSize _)) by lia.
  cbn [orb]. rewrite length_app, (proj2 (N.ltb_ge _ _)) by lia.
  rewrite !Nat2N.id, take_app_length, drop_app_length.
  by rewrite N.eqb_refl.
Qed.

(** A frame cut anywhere short of its end does not read. *)
Lemma readRecord_torn p t e :
  valid_payload p -> t `prefix_of` frame p -> t <> frame p ->
  readRecord (mkReader t e) = if e then ReadErr else Stop.
Proof.
  intros Hv [u Hu] Hne.
  assert (Hlen : (length t < headerSize + length p)%nat).
  { rewrite <- length_frame, Hu, length_app.
    destruct u as [|c u]; [|cbn; lia]. rewrite app_nil_r in Hu. congruence. }
  unfold readRecord. cbn [r_data r_err].
  destruct (Nat.ltb_spec (length t) headerSize) as [|Hge]; [done|].
  pose proof (frame_parts p []) as H. cbv zeta in H.
  rewrite app_nil_r, Hu in H. destruct H as (H4 & _ & _).
  rewrite take_app_le in H4 by (unfold headerSize in *; lia).
  rewrite H4, un_le32_le32 by (by apply valid_length_u32).
  pose proof (valid_length_pos p Hv). destruct Hv as [_ Hmax].
  rewrite (proj2 (N.eqb_neq _ _)), (proj2 (N.ltb_ge MaxRecordSize _)) by lia.
  cbn [orb]. rewrite length_drop, (proj2 (N.ltb_lt _ _)) by lia. done.
Qed.

(** Only a frame reads: what is read is the framing of the payload. *)
Lemma readRecord_inv data e p rest :
  readRecord (mkReader data e) = Rec p rest ->
  valid_payload p /\ data = frame p ++ rest.
Proof.
  unfold readRecord. cbn [r_data r_err].
  destruct (Nat.ltb_spec (length data) headerSize) as [|H8]; [by destruct e|].
  unfold headerSize in *.
  set (len := un_le32 (take 4 data)).
  destruct (N.eqb_spec len 0) as [|H0]; [done|].
  destruct (N.ltb_spec MaxRecordSize len) as [|Hmax]; [done|]. cbn [orb].
  destruct (N.ltb_spec (N.of_nat (length (drop 8 data))) len) as [|Hlen]; [by destruct e|].
  set (body := drop 8 data) in *.
  destruct (N.eqb_spec (crc32c (take 4 data ++ take (N.to_nat len) body))
              (un_le32 (take 4 (drop 4 data)))) as [Hcrc|]; [|done].
  intros [= <- <-].
  assert (Hl : length (take (N.to_nat len) body) = N.to_nat len).
  { rewrite length_take. lia. }
  split.
  { split; [intros E; rewrite E in Hl; cbn in Hl; lia|]. rewrite Hl, N2Nat.id. done. }
  unfold frame. rewrite Hl, N2Nat.id. unfold len at 1 2.
  rewrite !le32_un_le32 by (rewrite length_take; lia).
  rewrite Hcrc, le32_un_le32 by (rewrite length_take, length_drop; lia).
  rewrite <- !app_assoc, take_drop. unfold body.
  replace (drop 8 data) with (drop 4 (drop 4 data)) by (by rewrite drop_drop).
  by rewrite !take_drop.
Qed.

(** ** Reading a whole file *)

Lemma records_fuel_enough f data :
  (length data < f)%nat -> records_fuel f data = records data.
Proof.
  unfold records. revert f. remember (length data) as n eqn:Hn.
  revert data Hn. induction n as [n IH] using lt_wf_ind. intros data -> f Hf.
  destruct f as [|f]; [lia|]. cbn [records_fuel].
  destruct (readRecord (mkReader data false)) as [p rest| |] eqn:E; [|done..].
  apply readRecord_inv in E as [Hv ->]. f_equal.
  rewrite length_app, length_frame in *. unfold headerSize in *.
  pose proof (valid_length_pos p Hv).
  trans (records_fuel (S (length rest)) rest).
  - apply (IH (length rest)); lia.
  - symmetry. apply (IH (length rest)); lia.
Qed.

Lemma records_unfold data :
  records data = match readRecord (mkReader data false) with
                 | Rec p rest => p :: records rest
                 | _ => []
                 end.
Proof.
  unfold records at 1. cbn [records_fuel].
  destruct (readRecord (mkReader data false)) as [p rest| |] eqn:E; [|done..].
  apply readRecord_inv in E as [Hv ->]. f_equal. apply records_fuel_enough.
  rewrite length_app, length_frame. unfold headerSize. lia.
Qed.

Lemma records_frames ps tail :
  Forall valid_payload ps -> readRecord (mkReader tail false) = Stop ->
  records (frames ps ++ tail) = ps.
Proof.
  intros Hv Ht. induction Hv as [|p ps Hp Hv IH].
  - change (frames [] ++ tail) with tail. by rewrite records_unfold, Ht.
  - change (frames (p :: ps)) with (frame p ++ frames ps).
    by rewrite <- app_assoc, records_unfold, readRecord_frame, IH by done.
Qed.

Lemma records_split data :
  Forall valid_payload (records data) /\
  exists tail, data = frames (records data) ++ tail /\
    readRecord (mkReader tail false) = Stop.
Proof.
  remember (length data) as n eqn:Hn. revert data Hn.
  induction n as [n IH] using lt_wf_ind. intros data ->.
  rewrite records_unfold.
  destruct (readRecord (mkReader data false)) as [p rest| |] eqn:E.
  - apply readRecord_inv in E as [Hv ->].
    destruct (IH (length rest)) with (data := rest) as (Hr & tail & Ht & Hs).
    { rewrite length_app, length_frame. unfold headerSize. lia. } { done. }
    split; [by constructor|]. exists tail. split; [|done].
    change (frames (p :: records rest)) with (frame p ++ frames (records rest)).
    by rewrite <- app_assoc, <- Ht.
  - split; [constructor|]. by exists data.
  - exfalso. revert E. unfold readRecord. cbn [r_data r_err].
    repeat case_match; congruence.
Qed.

Lemma readRecord_nil : readRecord (mkReader [] false) = Stop.
Proof. reflexivity. Qed.

Lemma records_frames_exact ps : Forall valid_payload ps -> records (frames ps) = ps.
Proof.
  intros Hv. rewrite <- (app_nil_r (frames ps)). by apply records_frames.
Qed.

(** [fn] on every element in order, stopping at the first error. *)
Fixpoint for_each {S E A} (fn : A -> M S E unit) (l : list A) : M S E unit :=
  match l with
  | [] => ret tt
  | x :: l => fn x ;;; for_each fn l
  end.

Lemma for_each_app_ok {S E A} (fn : A -> M S E unit) l1 l2 s s1 :
  for_each fn l1 s = (inr tt, s1) -> for_each fn (l1 ++ l2) s = for_each fn l2 s1.
Proof.
  revert s. induction l1 as [|x l1 IH]; intros s H; cbn [for_each app] in *; [by injection H as <-|].
  apply bind_inr in H as ([] & s2 & H1 & H2). erewrite bind_ok by exact H1. by apply IH.
Qed.

Lemma for_each_ret {S E A} (l : list A) (s : S) :
  for_each (E := E) (fun _ => ret tt) l s = (inr tt, s).
Proof. by induction l. Qed.

Section ScanSpec.
Context {S E : Type} (eread : E).
Implicit Types fn : bytes -> M S E unit.

Lemma scan_loop_spec fuel fn data ve n s :
  (length data < fuel)%nat ->
  scan_loop eread fuel fn (mkReader data false) ve n s =
  (for_each fn (records data) ;;;
   ret ((ve + length (frames (records data)))%nat,
        (n + N.of_nat (length (records data)))%N)) s.
Proof.
  revert data ve n s. induction fuel as [|fuel IH]; intros data ve n s Hf; [lia|].
  cbn [scan_loop]. rewrite records_unfold.
  destruct (readRecord (mkReader data false)) as [p rest| |] eqn:Er.
  - apply readRecord_inv in Er as [Hv ->]. cbn [for_each].
    unfold bind. destruct (fn p s) as [[e|[]] s'] eqn:Ef; [done|].
    cbn [r_err]. rewrite IH by (rewrite length_app, length_frame in Hf; unfold headerSize in Hf; lia).
    unfold bind. destruct (for_each fn (records rest) s') as [[e|[]] s'']; [done|].
    unfold ret. rewrite length_frames_cons. cbn [length].
    do 3 f_equal; [lia|]. rewrite Nat2N.inj_succ. lia.
  - cbn. unfold bind, ret. do 3 f_equal; lia.
  - exfalso. revert Er. unfold readRecord. cbn [r_data r_err].
    repeat case_match; congruence.
Qed.

Lemma scanRecords_spec fn data s :
  scanRecords eread (mkReader data false) fn s =
  (for_each fn (records data) ;;;
   ret (length (frames (records data)), N.of_nat (length (records data)))) s.
Proof. unfold scanRecords. rewrite scan_loop_spec by (cbn; lia). done. Qed.
End ScanSpec.

(** ** Properties *)

(** The observer of a scan that only collects the payloads. *)
Definition collect (p : bytes) : M (list bytes) unit unit := modify (fun l => l ++ [p]).

Lemma for_each_collect ps acc : for_each collect ps acc = (inr tt, acc ++ ps).
Proof.
  revert acc. induction ps as [|p ps IH]; intros acc; cbn; [by rewrite app_nil_r|].
  unfold bind. cbn. rewrite IH. by rewrite <- app_assoc.
Qed.

Lemma scan_collect data :
  scanRecords tt (mkReader data false) collect [] =
  (inr (length (frames (records data)), N.of_nat (length (records data))), records data).
Proof. rewrite scanRecords_spec. unfold bind. by rewrite for_each_collect. Qed.

(** Reading back what was framed: scanning the frames of any payloads the
    log accepts visits exactly those payloads in order, and reports the whole
    length as valid. *)
Theorem scan_frames_roundtrip ps :
  Forall valid_payload ps ->
  scanRecords tt (mkReader (frames ps) false) collect [] =
  (inr (length (frames ps), N.of_nat (length ps)), ps).
Proof. intros Hv. by rewrite scan_collect, records_frames_exact. Qed.

Lemma scan_frames_roundtrip_witness :
  let ps := [list_ascii_of_string "alpha"; list_ascii_of_string "beta"] in
  scanRecords tt (mkReader (frames ps) false) collect [] = (inr (25%nat, 2%N), ps).
Proof.
  apply (scan_frames_roundtrip
    [list_ascii_of_string "alpha"; list_ascii_of_string "beta"]).
  repeat constructor; by vm_compute.
Defined.

(** C16: a write torn at any offset: when the file ends anywhere inside a
    record, the scan visits exactly the complete records before it and places
    the valid end where the torn record starts. *)
Theorem scan_torn_tail ps p t :
  Forall valid_payload ps -> valid_payload p ->
  t `prefix_of` frame p -> t <> frame p ->
  scanRecords tt (mkReader (frames ps ++ t) false) collect [] =
  (inr (length (frames ps), N.of_nat (length ps)), ps).
Proof.
  intros Hv Hp Ht Hne. rewrite scan_collect.
  by rewrite records_frames by (done || by apply (readRecord_torn p t false)).
Qed.

Lemma scan_torn_tail_witness :
  let p := list_ascii_of_string "durable-record" in
  scanRecords tt (mkReader (frames [p; p] ++ take 21 (frame p)) false) collect [] =
  (inr (44%nat, 2%N), [p; p]).
Proof.
  apply (scan_torn_tail [list_ascii_of_string "durable-record";
                         list_ascii_of_string "durable-record"]
           (list_ascii_of_string "durable-record")).
  - repeat constructor; by vm_compute.
  - by vm_compute.
  - apply prefix_take.
  - vm_compute. congruence.
Defined.

(** A corrupt record ends the log: if the bytes where a record should be
    carry an intact length field but fail the checksum, the scan visits what
    came before and nothing after. *)
Theorem scan_corrupt_stops ps len crc body rest :
  Forall valid_payload ps -> length body = N.to_nat len -> (len < 2 ^ 32)%N ->
  (crc < 2 ^ 32)%N -> crc32c (le32 len ++ body) <> crc ->
  scanRecords tt (mkReader (frames ps ++ le32 len ++ le32 crc ++ body ++ rest) false)
    collect [] = (inr (length (frames ps), N.of_nat (length ps)), ps).
Proof.
  intros Hv Hb Hl Hc Hne. rewrite scan_collect.
  enough (readRecord (mkReader (le32 len ++ le32 crc ++ body ++ rest) false) = Stop)
    by (by rewrite records_frames).
  unfold readRecord. cbn [r_data r_err].
  rewrite !length_app, !length_le32, (proj2 (Nat.ltb_ge _ _)) by (unfold headerSize; lia).
  change (take 4 (le32 len ++ le32 crc ++ body ++ rest)) with (le32 len).
  change (take 4 (drop 4 (le32 len ++ le32 crc ++ body ++ rest))) with (le32 crc).
  change (drop headerSize (le32 len ++ le32 crc ++ body ++ rest)) with (body ++ rest).
  rewrite !un_le32_le32 by done.
  destruct (_ || _); [done|].
  rewrite length_app, (proj2 (N.ltb_ge _ _)) by lia.
  rewrite <- Hb, take_app_length. by rewrite (proj2 (N.eqb_neq _ _)).
Qed.

Lemma scan_corrupt_stops_witness :
  let p := list_ascii_of_string "first" in
  scanRecords tt (mkReader (frames [p] ++ le32 2 ++ le32 7 ++
    list_ascii_of_string "ab" ++ frame p) false) collect [] = (inr (13%nat, 1%N), [p]).
Proof.
  apply (scan_corrupt_stops [list_ascii_of_string "first"] 2 7
           (list_ascii_of_string "ab") (frame (list_ascii_of_string "first"))).
  - repeat constructor; by vm_compute.
  - done.
  - done.
  - done.
  - vm_compute. congruence.
Defined.

(** Truncating a file at the valid end is sound and idempotent: whatever
    bytes the file holds, what is kept is exactly the framing of the records
    that were read, and reading it again gives the same records. *)
Theorem truncate_valid_end data :
  let r := scanRecords tt (mkReader data false) collect [] in
  exists ve n, r.1 = inr (ve, n) /\ (ve <= length data)%nat /\
    n = N.of_nat (length r.2) /\
    take ve data = frames r.2 /\
    scanRecords tt (mkReader (take ve data) false) collect [] = r.
Proof.
  cbv zeta. rewrite !scan_collect. cbn [fst snd].
  destruct (records_split data) as (Hv & tail & Hd & _).
  eexists _, _. split; [done|].
  assert (Htake : take (length (frames (records data))) data = frames (records data)).
  { rewrite Hd at 2. by rewrite take_app_length. }
  split; [rewrite Hd at 2; rewrite length_app; lia|]. split; [done|].
  split; [done|]. by rewrite Htake, scan_collect, records_frames_exact.
Qed.
