(* ===== verification/LogSpec.v ===== *)
(** * LogSpec: what the store relies on of a write-ahead log

    The abstract state of a log, the abstract effect of every operation, and
    the interface ([LogOps], [LogLaws]) the store is written and verified
    against. [WalSpec] shows that the log of [internal/wal] provides it. *)
From S2P Require Import Prelude Framing.

(** The records held, oldest first; the oldest has LSN [a_first]. The first
    [a_written] of them are in files, the first [a_durable] on stable storage. *)
Record abs_log := mkAbs {
  a_first : N;
  a_recs : list bytes;
  a_written : nat;
  a_durable : nat
}.

(** The LSN of the next record. *)
Definition a_next (a : abs_log) : N := (a_first a + N.of_nat (length (a_recs a)))%N.

Record abs_wf (a : abs_log) : Prop := {
  abs_durable_written : (a_durable a <= a_written a)%nat;
  abs_written_length : (a_written a <= length (a_recs a))%nat;
  abs_next_u64 : is_u64 (a_next a)
}.

(** Appending one record; the log may write or flush older ones meanwhile. *)
Record abs_appended (p : bytes) (a a' : abs_log) : Prop := {
  app_first : a_first a' = a_first a;
  app_recs : a_recs a' = a_recs a ++ [p];
  app_written : (a_written a <= a_written a')%nat;
  app_durable : (a_durable a <= a_durable a')%nat
}.

(** Everything written out, and everything on stable storage. *)
Definition abs_flushed (a : abs_log) : abs_log :=
  mkAbs (a_first a) (a_recs a) (length (a_recs a)) (a_durable a).
Definition abs_synced (a : abs_log) : abs_log :=
  mkAbs (a_first a) (a_recs a) (length (a_recs a)) (length (a_recs a)).

(** A crash keeps what is durable, may keep more of what was written, and
    nothing else. *)
Definition abs_crashed (a a' : abs_log) : Prop :=
  exists k, (a_durable a <= k <= a_written a)%nat /\
    a' = mkAbs (a_first a) (take k (a_recs a)) k k.

(** Dropping old records: durable ones only, and none at or after [lsn]. *)
Definition abs_truncated (lsn : N) (a a' : abs_log) : Prop :=
  exists j, (j <= a_durable a)%nat /\
    (j = 0%nat \/ (a_first a + N.of_nat j <= lsn)%N) /\
    a' = mkAbs (a_first a + N.of_nat j) (drop j (a_recs a)) (a_written a - j)
           (a_durable a - j).

(** Records with their LSNs. *)
Fixpoint number (lsn : N) (ps : list bytes) : list (N * bytes) :=
  match ps with
  | [] => []
  | p :: ps => (lsn, p) :: number (lsn + 1) ps
  end.

(** What a replay from [from] visits. *)
Definition a_from (from : N) (a : abs_log) : list (N * bytes) :=
  filter (fun r => (from <= r.1)%N) (number (a_first a) (a_recs a)).

(** Room for one more record. *)
Definition a_room (a : abs_log) : Prop := is_u64 (a_next a + 1).

Lemma number_app lsn ps qs :
  number lsn (ps ++ qs) = number lsn ps ++ number (lsn + N.of_nat (length ps)) qs.
Proof.
  revert lsn. induction ps as [|p ps IH]; intros lsn; cbn [app number length].
  - f_equal. lia.
  - rewrite IH. cbn. do 3 f_equal. lia.
Qed.

Lemma number_lsn lsn ps r : r ∈ number lsn ps ->
  (lsn <= r.1 < lsn + N.of_nat (length ps))%N.
Proof.
  revert lsn. induction ps as [|p ps IH]; intros lsn; cbn [number length].
  { by intros ?%elem_of_nil. }
  intros [->|H]%elem_of_cons; cbn; [lia|]. apply IH in H. lia.
Qed.

Lemma number_drop lsn ps j :
  (j <= length ps)%nat ->
  number (lsn + N.of_nat j) (drop j ps) = drop j (number lsn ps).
Proof.
  revert lsn j. induction ps as [|p ps IH]; intros lsn [|j] Hj; cbn in *; try lia.
  - done.
  - by rewrite N.add_0_r.
  - rewrite <- IH by lia. f_equal. lia.
Qed.

Lemma a_from_truncated lsn from (a a' : abs_log) :
  abs_wf a -> abs_truncated lsn a a' -> (lsn <= from)%N -> a_from from a' = a_from from a.
Proof.
  intros [Hd Hw _] (j & Hj & Hlsn & ->) Hfrom. unfold a_from. cbn [a_first a_recs].
  rewrite <- (take_drop j (a_recs a)) at 2.
  rewrite number_app, filter_app, length_take, Nat.min_l by lia.
  rewrite (filter_none _ (number (a_first a) (take j (a_recs a)))); [done|].
  intros r Hr%number_lsn. rewrite length_take, Nat.min_l in Hr by lia.
  destruct Hlsn as [->|Hlsn]; lia.
Qed.

(** ** The interface *)

Class LogOps (L : Type) := {
  log_err : Type;
  log_open : Z -> M L log_err unit;
  log_append : bytes -> M L log_err N;
  log_append_sync : bytes -> M L log_err N;
  log_sync : M L log_err unit;
  log_truncate_before : N -> M L log_err unit;
  log_close : M L log_err unit;
  log_last_lsn : L -> N;
  log_replay {St Err : Type} : N -> (N -> bytes -> M St Err unit) ->
    M (L * St) (log_err + Err) unit;
  (** the process dies, or the machine loses power *)
  log_crash : L -> L -> Prop;
  (** nothing has been logged yet *)
  log_fresh : L -> Prop
}.

(** The outcome of a replay: an error of the callback is passed on. *)
Definition callback_result {E1 E2 A} (r : E2 + A) : (E1 + E2) + A :=
  match r with inl e => inl (inr e) | inr a => inr a end.

Class LogLaws (L : Type) `{!LogOps L} := {
  (** [represents l a]: [l] is an open, healthy log with contents [a] *)
  represents : L -> abs_log -> Prop;
  represents_wf l a : represents l a -> abs_wf a;
  append_law l a p :
    represents l a -> valid_payload p -> a_room a ->
    exists l' a', log_append p l = (inr (a_next a), l') /\ represents l' a' /\
      abs_appended p a a';
  append_sync_law l a p :
    represents l a -> valid_payload p -> a_room a ->
    exists l' a', log_append_sync p l = (inr (a_next a), l') /\ represents l' a' /\
      abs_appended p a a' /\ a' = abs_synced a';
  sync_law l a :
    represents l a -> exists l', log_sync l = (inr tt, l') /\ represents l' (abs_synced a);
  truncate_law l a lsn :
    represents l a ->
    exists l' a', log_truncate_before lsn l = (inr tt, l') /\ represents l' a' /\
      abs_truncated lsn a a';
  replay_law {St Err} l a from (fn : N -> bytes -> M St Err unit) s :
    represents l a ->
    exists l', represents l' (abs_flushed a) /\
      log_replay from fn (l, s) =
      (callback_result (for_each (fun r => fn r.1 r.2) (a_from from a) s).1,
       (l', (for_each (fun r => fn r.1 r.2) (a_from from a) s).2));
  last_lsn_law l a : represents l a -> log_last_lsn l = u64 (a_next a + 2 ^ 64 - 1);
  reopen_law l a l1 mx :
    represents l a -> log_crash l l1 ->
    exists l2 a', log_open mx l1 = (inr tt, l2) /\ represents l2 a' /\ abs_crashed a a';
  fresh_law l mx :
    log_fresh l ->
    exists l', log_open mx l = (inr tt, l') /\ represents l' (mkAbs 1 [] 0 0)
}.
