(* ===== verification/Wal.v ===== *)
(** * Wal: the write-ahead log of [internal/wal/wal.go]

    The log's in-memory record ([WAL]), the segment directory it writes to
    ([Disk]) and every method, as computations that change both and may fail.

    The directory maps file names to contents. Each file carries the length of
    the prefix known to be on stable storage; [crash] keeps at least that much
    of it. Every system call that can fail first consumes one outcome of the
    disk's [oracle]: [IoOk], or [IoFail n], where [n] is how many bytes a
    failing write still wrote. An exhausted oracle means success. *)
From S2P Require Import Prelude Framing.

(** ** Segment names *)

Definition segmentSuffix : string := ".wal".

(** [n] in exactly [k] decimal digits. *)
Fixpoint dec_digits (k : nat) (n : N) : string :=
  match k with
  | O => ""
  | S k => String (ascii_of_N (48 + (n / 10 ^ N.of_nat k) mod 10)) (dec_digits k n)
  end%N.

(** [fmt.Sprintf("%020d%s", base, segmentSuffix)]: a [uint64] has at most 20
    digits. *)
Definition segmentName (base : N) : string := (dec_digits 20 base ++ segmentSuffix)%string.

(** [strings.HasSuffix] and [strings.TrimSuffix] at once. *)
Fixpoint strip_suffix (suffix s : string) : option string :=
  if String.eqb s suffix then Some ""%string
  else match s with
       | EmptyString => None
       | String c s => String c <$> strip_suffix suffix s
       end.

Fixpoint parse_digits (acc : N) (s : string) : option N :=
  match s with
  | EmptyString => Some acc
  | String c s =>
      let d := N_of_ascii c in
      if (48 <=? d)%N && (d <=? 57)%N then parse_digits (10 * acc + (d - 48))%N s
      else None
  end.

(** [strconv.ParseUint(s, 10, 64)]. *)
Definition ParseUint (s : string) : option N :=
  match s with
  | EmptyString => None
  | _ => n ← parse_digits 0 s; if (n <? 2 ^ 64)%N then Some n else None
  end.

Definition parseSegment (name : string) : option N :=
  s ← strip_suffix segmentSuffix name; ParseUint s.

(** ** The disk *)

Record File := mkFile { f_data : bytes; f_synced : nat }.

Inductive outcome := IoOk | IoFail (short : nat).

Record Disk := mkDisk { files : gmap string File; oracle : list outcome }.

(** Whether the next system call works. *)
Definition next_outcome (d : Disk) : outcome :=
  match oracle d with [] => IoOk | o :: _ => o end.

(** ** The log *)

Inductive walError :=
  | ErrClosed
  | ErrEmptyPayload
  | ErrRecordTooLarge
  | ErrIO (what : string)
  | ErrCallback (why : string).

Definition DefaultMaxSegmentSize : Z := 16 * 2 ^ 20.

Record WAL := mkWAL {
  maxSegmentSize : Z;
  active : string;     (** name of the active segment's file *)
  activeOpen : bool;   (** whether its handle is open *)
  closed : bool;
  buf : bytes;
  bases : list N;
  activeBase : N;
  activeSize : Z;
  nextLSN : N
}.

Record Log := mkLog { wal : WAL; disk : Disk }.

Abbreviation io A := (M Log walError A) (only parsing).

Definition set_disk (d : Disk) : io unit := modify (fun l => mkLog (wal l) d).
Definition set_files (f : gmap string File -> gmap string File) : io unit :=
  modify (fun l => mkLog (wal l) (mkDisk (f (files (disk l))) (oracle (disk l)))).
Definition set_wal (f : WAL -> WAL) : io unit :=
  modify (fun l => mkLog (f (wal l)) (disk l)).

Definition with_buf (b : bytes) (w : WAL) : WAL :=
  mkWAL (maxSegmentSize w) (active w) (activeOpen w) (closed w) b (bases w)
    (activeBase w) (activeSize w) (nextLSN w).
Definition with_open (o : bool) (w : WAL) : WAL :=
  mkWAL (maxSegmentSize w) (active w) o (closed w) (buf w) (bases w)
    (activeBase w) (activeSize w) (nextLSN w).
Definition with_closed (w : WAL) : WAL :=
  mkWAL (maxSegmentSize w) (active w) (activeOpen w) true (buf w) (bases w)
    (activeBase w) (activeSize w) (nextLSN w).
Definition with_bases (bs : list N) (w : WAL) : WAL :=
  mkWAL (maxSegmentSize w) (active w) (activeOpen w) (closed w) (buf w) bs
    (activeBase w) (activeSize w) (nextLSN w).

(** ** System calls *)

(** Consume one outcome of the oracle. *)
Definition syscall : io outcome :=
  let* o := gets (fun l => next_outcome (disk l)) in
  modify (fun l => mkLog (wal l) (mkDisk (files (disk l)) (tail (oracle (disk l))))) ;;;
  ret o.

(** A call that either works or fails without an effect. *)
Definition try_call (what : string) : io unit :=
  let* o := syscall in
  match o with IoOk => ret tt | IoFail _ => throw (ErrIO what) end.

Definition append_data (bs : bytes) (f : File) : File :=
  mkFile (f_data f ++ bs) (f_synced f).

(** [w.active.Write]: a failing write may have written a part. *)
Definition file_Write (bs : bytes) : io unit :=
  let* w := gets wal in
  if activeOpen w then
    let* o := syscall in
    match o with
    | IoOk => set_files (alter (append_data bs) (active w))
    | IoFail n =>
        set_files (alter (append_data (take n bs)) (active w)) ;;;
        throw (ErrIO "write")
    end
  else throw (ErrIO "write: file already closed").

Definition sync_data (f : File) : File := mkFile (f_data f) (length (f_data f)).

(** [fullSync(w.active)] ([sync_darwin.go], [sync_other.go]): when it works,
    everything written to the file is on stable storage. *)
Definition fullSync : io unit :=
  let* w := gets wal in
  if activeOpen w then
    try_call "sync" ;;; set_files (alter sync_data (active w))
  else throw (ErrIO "sync: file already closed").

(** The two calls behind [fullSync] on macOS, by the errors they return: where
    the drive's cache cannot be flushed, a plain flush has to do. *)
Inductive errno := ENOTSUP | EINVAL | errno_other (n : Z).
Definition fullSync_darwin (fcntl_fullfsync fsync : option errno) : option errno :=
  match fcntl_fullfsync with
  | Some ENOTSUP | Some EINVAL => fsync
  | Some err => Some err
  | None => None
  end.

(** [w.active.Close]: the handle is gone whatever it returns. *)
Definition file_Close : io unit :=
  let* w := gets wal in
  if activeOpen w then
    set_wal (with_open false) ;;; try_call "close"
  else throw (ErrIO "close: file already closed").

Definition syncDir : io unit := try_call "sync dir".

(** ** Methods *)

(** [flushBufferLocked]. *)
Definition flushBufferLocked : io unit :=
  let* w := gets wal in
  match buf w with
  | [] => ret tt
  | bs => file_Write bs ;;; set_wal (with_buf [])
  end.

(** [createSegmentLocked]: [O_EXCL] fails on an existing file. *)
Definition createSegmentLocked (base : N) : io unit :=
  let name := segmentName base in
  try_call "create segment" ;;;
  let* l := gets disk in
  match files l !! name with
  | Some _ => throw (ErrIO "create segment: file exists")
  | None =>
      set_files <[name := mkFile [] 0]> ;;;
      syncDir ;;;
      set_wal (fun w => mkWAL (maxSegmentSize w) name true (closed w) (buf w)
                          (bases w ++ [base]) base 0 (nextLSN w))
  end.

(** [createSegment]. *)
Definition createSegment (base : N) : io unit := createSegmentLocked base.

(** [rotateLocked]. *)
Definition rotateLocked : io unit :=
  flushBufferLocked ;;;
  fullSync ;;;
  file_Close ;;;
  let* w := gets wal in
  createSegmentLocked (nextLSN w).

(** [appendLocked]. *)
Definition appendLocked (payload : bytes) : io N :=
  let* w := gets wal in
  if closed w then throw ErrClosed
  else if (length payload =? 0)%nat then throw ErrEmptyPayload
  else if (MaxRecordSize <? N.of_nat (length payload))%N then throw ErrRecordTooLarge
  else
    let size := Z.of_nat (headerSize + length payload) in
    (if (0 <? activeSize w) && (maxSegmentSize w <? activeSize w + size)
     then rotateLocked else ret tt) ;;;
    let* w := gets wal in
    set_wal (fun w => mkWAL (maxSegmentSize w) (active w) (activeOpen w) (closed w)
                        (buf w ++ frame payload) (bases w) (activeBase w)
                        (activeSize w + size) (u64 (nextLSN w + 1))) ;;;
    ret (nextLSN w).

(** [Append]. *)
Definition Append (payload : bytes) : io N := appendLocked payload.

(** [Sync]. *)
Definition Sync : io unit :=
  let* w := gets wal in
  if closed w then throw ErrClosed
  else
    flushBufferLocked ;;;
    let* w := gets wal in
    if closed w then throw ErrClosed else fullSync.

(** [AppendSync]. *)
Definition AppendSync (payload : bytes) : io N :=
  let* lsn := appendLocked payload in
  Sync ;;;
  ret lsn.

(** [LastLSN]. *)
Definition LastLSN (w : WAL) : N := u64 (nextLSN w + 2 ^ 64 - 1).

(** [listSegments]: the bases in the directory, ascending. *)
Definition listSegments (fs : gmap string File) : list N :=
  merge_sort N.le (omap parseSegment (map fst (map_to_list fs))).

(** Open the last segment: read it, cut a torn tail off, continue behind the
    last valid record. *)
Definition openSegment (maxSize : Z) (bs : list N) (base : N) : io unit :=
  let name := segmentName base in
  try_call "open segment" ;;;
  let* d := gets disk in
  match files d !! name with
  | None => throw (ErrIO "open segment: no such file")
  | Some f =>
      let* o := syscall in
      let r := mkReader (f_data f) (match o with IoOk => false | IoFail _ => true end) in
      let* sc := scanRecords (ErrIO "scan segment") r (fun _ => ret tt) in
      let '(validEnd, count) := sc in
      try_call "stat" ;;;
      (if (validEnd <? length (f_data f))%nat then
         try_call "truncate torn tail" ;;;
         set_files (alter (fun f => mkFile (take validEnd (f_data f))
                                     (Nat.min (f_synced f) validEnd)) name) ;;;
         try_call "sync after truncate" ;;;
         set_files (alter sync_data name)
       else ret tt) ;;;
      try_call "seek" ;;;
      set_wal (fun _ => mkWAL maxSize name true false [] bs base (Z.of_nat validEnd)
                          (u64 (base + count)))
  end.

(** [Open]: a fresh [WAL] over the directory. *)
Definition Open (maxSize : Z) : io unit :=
  let maxSize := if maxSize <=? 0 then DefaultMaxSegmentSize else maxSize in
  try_call "create dir" ;;;
  try_call "read dir" ;;;
  let* d := gets disk in
  let bs := listSegments (files d) in
  set_wal (fun _ => mkWAL maxSize "" false false [] bs 0 0 0) ;;;
  match last bs with
  | None =>
      createSegment 1 ;;;
      set_wal (fun w => mkWAL (maxSegmentSize w) (active w) (activeOpen w) (closed w)
                          (buf w) (bases w) (activeBase w) (activeSize w) 1)
  | Some base => openSegment maxSize bs base
  end.

(** [Close]. *)
Definition Close : io unit :=
  let* w := gets wal in
  if closed w then ret tt
  else
    set_wal with_closed ;;;
    catch flushBufferLocked
      (fun e => catch file_Close (fun _ => ret tt) ;;; throw e) ;;;
    catch fullSync
      (fun e => catch file_Close (fun _ => ret tt) ;;; throw e) ;;;
    file_Close.

(** The loop of [TruncateBefore]: how many leading segments were removed. *)
Fixpoint remove_before (lsn : N) (bs : list N) : io nat :=
  match bs with
  | b :: ((b' :: _) as rest) =>
      if (lsn <? b')%N then ret 0%nat
      else
        (let* d := gets disk in
         match files d !! segmentName b with
         | None => ret tt                       (* [os.ErrNotExist] *)
         | Some _ =>
             try_call "remove segment" ;;; set_files (delete (segmentName b))
         end) ;;;
        let* n := remove_before lsn rest in
        ret (S n)
  | _ => ret 0%nat
  end.

(** [TruncateBefore]. *)
Definition TruncateBefore (lsn : N) : io unit :=
  let* w := gets wal in
  if closed w then throw ErrClosed
  else
    let* removed := remove_before lsn (bases w) in
    if (0 <? removed)%nat then
      set_wal (fun w => with_bases (drop removed (bases w)) w) ;;;
      syncDir
    else ret tt.

(** *** Replay

    The callback works on a state of its own. *)
Section Replay.
Context {St Err : Type}.

Definition in_log {A} (m : io A) : M (Log * St) (walError + Err) A :=
  fun '(l, s) => match m l with
                 | (inl e, l') => (inl (inl e), (l', s))
                 | (inr a, l') => (inr a, (l', s))
                 end.

Definition in_state {A} (m : M St Err A) : M (Log * St) (walError + Err) A :=
  fun '(l, s) => match m s with
                 | (inl e, s') => (inl (inr e), (l, s'))
                 | (inr a, s') => (inr a, (l, s'))
                 end.

(** The callback of the scan of one segment: [ordinal] counts the records. *)
Definition replay_record (from base : N) (fn : N -> bytes -> M St Err unit)
    (payload : bytes) : M (N * St) Err unit :=
  fun '(ordinal, s) =>
    let lsn := u64 (base + ordinal) in
    if (lsn <? from)%N then (inr tt, ((ordinal + 1)%N, s))
    else match fn lsn payload s with
         | (inl e, s') => (inl e, ((ordinal + 1)%N, s'))
         | (inr _, s') => (inr tt, ((ordinal + 1)%N, s'))
         end.

(** Errors of the scan of a segment: the reader's or the callback's. *)
Definition replay_segment (from base : N) (fn : N -> bytes -> M St Err unit) (r : Reader) :
    M St (walError + Err) unit :=
  fun s =>
    match scanRecords (inl (ErrIO "replay segment")) r
            (fun p os => match replay_record from base fn p os with
                         | (inl e, os') => (inl (inr e), os')
                         | (inr a, os') => (inr a, os')
                         end) (0%N, s) with
    | (inl e, (_, s')) => (inl e, s')
    | (inr _, (_, s')) => (inr tt, s')
    end.

Fixpoint replay_segments (from : N) (fn : N -> bytes -> M St Err unit) (bs : list N) :
    M (Log * St) (walError + Err) unit :=
  match bs with
  | [] => ret tt
  | base :: rest =>
      let nextBase := match rest with b :: _ => b | [] => (2 ^ 64 - 1)%N end in
      (if (nextBase <=? from)%N then ret tt
       else
         in_log (try_call "open segment") ;;;
         let* d := gets (fun ls => disk ls.1) in
         match files d !! segmentName base with
         | None => throw (inl (ErrIO "open segment: no such file"))
         | Some f =>
             let* o := in_log syscall in
             fun '(l, s) =>
               match replay_segment from base fn
                       (mkReader (f_data f)
                          (match o with IoOk => false | IoFail _ => true end)) s with
               | (r, s') => (r, (l, s'))
               end
         end) ;;;
      replay_segments from fn rest
  end.

(** [Replay]. *)
Definition Replay (from : N) (fn : N -> bytes -> M St Err unit) :
    M (Log * St) (walError + Err) unit :=
  let* l := gets fst in
  if closed (wal l) then throw (inl ErrClosed)
  else
    in_log flushBufferLocked ;;;
    let* l := gets fst in
    replay_segments from fn (bases (wal l)).
End Replay.

(** ** Crashes

    The process is killed, or the machine loses power: of every file an
    arbitrary prefix survives that holds at least what was synced. *)
Definition crash_file (f f' : File) : Prop :=
  exists n, (f_synced f <= n <= length (f_data f))%nat /\
    f' = mkFile (take n (f_data f)) n.

Definition crash (d d' : Disk) : Prop :=
  (forall name, match files d !! name, files d' !! name with
                | Some f, Some f' => crash_file f f'
                | None, None => True
                | _, _ => False
                end).

(** *** Examples: a log in use *)

Definition empty_log : Log := mkLog (mkWAL 0 "" false true [] [] 0 0 0) (mkDisk ∅ []).
Definition text (s : string) : bytes := list_ascii_of_string s.

Definition visit (lsn : N) (p : bytes) : M (list (N * bytes)) unit unit :=
  modify (fun acc => acc ++ [(lsn, p)]).

Example log_in_use :
  let m : io unit := Open 20 ;;; Append (text "alpha") ;;; AppendSync (text "beta") ;;;
           Append (text "gamma") ;;; TruncateBefore 2 in
  let l := (m empty_log).2 in
  (m empty_log).1 = inr tt /\ bases (wal l) = [2; 3]%N /\
  snd (Replay 1 visit (l, [])).2 = [(2%N, text "beta"); (3%N, text "gamma")].
Proof. vm_compute. done. Qed.
