(* ===== verification/WalSpec.v ===== *)
(** * WalSpec: the log as a list of records

    The states a healthy log goes through, written as a function [conc] of the
    records it holds, and what every method of [Wal] does to that list. *)
From S2P Require Import Prelude Framing LogSpec Wal.

(** ** Segment names are injective and parse back *)

Lemma dec_digits_parse k n acc rest :
  parse_digits acc (dec_digits k n ++ rest) =
  parse_digits (acc * 10 ^ N.of_nat k + n mod 10 ^ N.of_nat k)%N rest.
Proof.
  revert acc. induction k as [|k IH]; intros acc.
  { change (dec_digits 0 n ++ rest)%string with rest. change (10 ^ N.of_nat 0)%N with 1%N.
    rewrite N.mod_1_r. f_equal. lia. }
  change (dec_digits (S k) n ++ rest)%string
    with (String (ascii_of_N (48 + (n / 10 ^ N.of_nat k) mod 10)) (dec_digits k n ++ rest)).
  cbn [parse_digits].
  set (p := (10 ^ N.of_nat k)%N).
  assert (Hdig : forall d, (d < 10)%N -> (48 + d < 256)%N /\
            ((48 <=? 48 + d)%N && (48 + d <=? 57)%N) = true).
  { intros d Hd. split; [lia|]. apply andb_true_iff. split; to_prop; lia. }
  destruct (Hdig (n / p mod 10)%N) as [H256 Hle]; [apply N.mod_lt; lia|].
  rewrite N_ascii_embedding, Hle by done.
  rewrite IH. fold p. f_equal.
  rewrite Nat2N.inj_succ, N.pow_succ_r'. fold p.
  rewrite (N.mul_comm 10 p), N.Div0.mod_mul_r.
  rewrite (N.add_comm 48), N.add_sub.
  generalize (n / p mod 10)%N (n mod p)%N. intros. nia.
Qed.

Lemma string_length_app a b :
  String.length (a ++ b) = (String.length a + String.length b)%nat.
Proof.
  induction a as [|c a IH]; [done|].
  change (String c a ++ b)%string with (String c (a ++ b)). cbn. by rewrite IH.
Qed.

Lemma string_app_nil s : (s ++ "")%string = s.
Proof.
  induction s as [|c s IH]; [done|].
  change (String c s ++ "")%string with (String c (s ++ "")). by rewrite IH.
Qed.

Lemma strip_suffix_app s suffix : strip_suffix suffix (s ++ suffix) = Some s.
Proof.
  induction s as [|c s IH].
  - change ("" ++ suffix)%string with suffix. destruct suffix; cbn; [done|].
    by rewrite Ascii.eqb_refl, String.eqb_refl.
  - change (String c s ++ suffix)%string with (String c (s ++ suffix)).
    cbn [strip_suffix]. destruct (String.eqb_spec (String c (s ++ suffix)) suffix) as [E|_].
    + exfalso. apply (f_equal String.length) in E. cbn in E.
      rewrite string_length_app in E. lia.
    + by rewrite IH.
Qed.

(** [strconv.ParseUint] reads back what [%020d] prints. *)
Lemma ParseUint_digits b : is_u64 b -> ParseUint (dec_digits 20 b) = Some b.
Proof.
  intros Hb. unfold ParseUint, is_u64 in *.
  assert (Hp : parse_digits 0 (dec_digits 20 b) = Some b).
  { pose proof (dec_digits_parse 20 b 0 "") as H.
    rewrite string_app_nil in H. rewrite H. cbn [parse_digits]. f_equal.
    change (2 ^ 64)%N with 18446744073709551616%N in Hb.
    change (10 ^ N.of_nat 20)%N with 100000000000000000000%N.
    rewrite N.mod_small by lia. lia. }
  rewrite Hp. cbn [mbind option_bind].
  rewrite (proj2 (N.ltb_lt _ _)) by done.
  by destruct (dec_digits 20 b) eqn:E.
Qed.

Lemma parseSegment_name b : is_u64 b -> parseSegment (segmentName b) = Some b.
Proof.
  intros Hb. unfold parseSegment, segmentName. rewrite strip_suffix_app. cbn [mbind option_bind].
  by apply ParseUint_digits.
Qed.

Lemma segmentName_inj b1 b2 :
  is_u64 b1 -> is_u64 b2 -> segmentName b1 = segmentName b2 -> b1 = b2.
Proof.
  intros H1 H2 E. apply (f_equal parseSegment) in E.
  rewrite !parseSegment_name in E by done. congruence.
Qed.

(** ** The states of a healthy log *)

(** Closed segments with their records, oldest first. *)
Abbreviation segments := (list (N * list bytes)) (only parsing).

Definition closed_file (s : N * list bytes) : string * File :=
  (segmentName s.1, mkFile (frames s.2) (length (frames s.2))).
Definition closed_files (segs : segments) : gmap string File :=
  list_to_map (map closed_file segs).

(** Segments [segs] closed, segment [b] active, holding the durable records
    [psd] and the written ones [psu]; [pend] is buffered. *)
Definition disk_of (segs : segments) (b : N) (psd psu : list bytes) : Disk :=
  mkDisk (<[segmentName b := mkFile (frames (psd ++ psu)) (length (frames psd))]>
            (closed_files segs)) [].

Definition conc (mx : Z) (segs : segments) (b : N) (psd psu pend : list bytes) : Log :=
  mkLog (mkWAL mx (segmentName b) true false (frames pend) (map fst segs ++ [b]) b
           (Z.of_nat (length (frames (psd ++ psu ++ pend))))
           (b + N.of_nat (length (psd ++ psu ++ pend)))%N)
        (disk_of segs b psd psu).

(** Every closed segment ends where the next one starts, and none is empty. *)
Fixpoint chain (segs : segments) (b : N) : Prop :=
  match segs with
  | [] => True
  | (b0, ps0) :: rest =>
      ps0 <> [] /\
      (b0 + N.of_nat (length ps0))%N =
        match rest with [] => b | (b1, _) :: _ => b1 end /\
      chain rest b
  end.

(** The LSN of the first record the log still holds. *)
Definition first_lsn (segs : segments) (b : N) : N :=
  match segs with [] => b | (b0, _) :: _ => b0 end.

Definition all_records (segs : segments) (ps : list bytes) : list bytes :=
  concat (map snd segs) ++ ps.

Record log_wf (segs : segments) (b : N) (ps : list bytes) : Prop := {
  wf_chain : chain segs b;
  wf_valid : Forall valid_payload (all_records segs ps);
  wf_next : is_u64 (b + N.of_nat (length ps))
}.

Lemma chain_first segs b :
  chain segs b -> (first_lsn segs b + N.of_nat (length (concat (map snd segs))))%N = b.
Proof.
  induction segs as [|[b0 ps0] rest IH]; cbn; [lia|].
  intros (Hne & Hnext & Hc). rewrite length_app. specialize (IH Hc).
  destruct rest as [|[b1 ps1] rest]; cbn in *; lia.
Qed.

Lemma chain_lt segs b b0 : chain segs b -> b0 ∈ map fst segs -> (b0 < b)%N.
Proof.
  induction segs as [|[b1 ps1] rest IH]; cbn; [by intros _ ?%elem_of_nil|].
  intros (Hne & Hnext & Hc) [->|Hin]%elem_of_cons; [|by apply IH].
  pose proof (chain_first rest b Hc) as Hf.
  assert (0 < length ps1)%nat by (destruct ps1; [done|cbn; lia]).
  destruct rest as [|[b2 ps2] rest]; cbn in *; lia.
Qed.

Lemma chain_ge segs b y :
  chain segs b -> y ∈ map fst segs ++ [b] -> (first_lsn segs b <= y)%N.
Proof.
  induction segs as [|[b0 ps0] rest IH]; cbn.
  { by intros _ ->%list_elem_of_singleton. }
  intros (Hne & Hnext & Hc) [->|Hy]%elem_of_cons; [lia|].
  specialize (IH Hc Hy). destruct rest as [|[b1 ps1] rest]; cbn in *; lia.
Qed.

Lemma chain_sorted segs b : chain segs b -> StronglySorted N.lt (map fst segs ++ [b]).
Proof.
  induction segs as [|[b0 ps0] rest IH]; cbn; [repeat constructor|].
  intros (Hne & Hnext & Hc). constructor; [by apply IH|].
  apply Forall_forall. intros y Hy. pose proof (chain_ge rest b y Hc Hy).
  assert (0 < length ps0)%nat by (destruct ps0; [done|cbn; lia]).
  destruct rest as [|[b1 ps1] rest]; cbn in *; lia.
Qed.

Lemma chain_u64 segs b ps b0 :
  log_wf segs b ps -> b0 ∈ map fst segs ++ [b] -> is_u64 b0.
Proof.
  intros [Hc _ Hn] [Hin|Hin]%elem_of_app; unfold is_u64 in *.
  - pose proof (chain_lt _ _ _ Hc Hin). lia.
  - apply list_elem_of_singleton in Hin as ->. lia.
Qed.

(** ** Methods on a healthy log *)

(** Unfold system calls and the monad. *)
Ltac run_io :=
  unfold syncDir, file_Write, file_Close, try_call, syscall, set_files, set_wal, set_disk;
  unfold bind, gets, modify, ret, throw; cbn.

Lemma frames_nil_iff ps : frames ps = [] <-> ps = [].
Proof.
  split; [|by intros ->]. destruct ps as [|p ps]; [done|]. intros H.
  apply (f_equal length) in H. rewrite length_frames_cons in H. cbn in H. lia.
Qed.

Lemma flush_conc mx segs b psd psu pend :
  flushBufferLocked (conc mx segs b psd psu pend) =
  (inr tt, conc mx segs b psd (psu ++ pend) []).
Proof.
  unfold flushBufferLocked, bind, gets. cbn [conc wal buf].
  destruct (frames pend) as [|c bs] eqn:E.
  - apply frames_nil_iff in E as ->. unfold ret, conc. by rewrite !app_nil_r.
  - unfold conc. run_io. rewrite <- E.
    rewrite alter_insert_eq. unfold append_data. cbn.
    rewrite <- frames_app, !app_nil_r, <- !app_assoc. done.
Qed.

Lemma fullSync_conc mx segs b psd psu pend :
  fullSync (conc mx segs b psd psu pend) =
  (inr tt, conc mx segs b (psd ++ psu) [] pend).
Proof.
  unfold fullSync, conc. run_io. unfold disk_of. rewrite alter_insert_eq. unfold sync_data. cbn.
  by rewrite app_nil_r, <- app_assoc.
Qed.

Lemma Sync_conc mx segs b psd psu pend :
  Sync (conc mx segs b psd psu pend) = (inr tt, conc mx segs b (psd ++ psu ++ pend) [] []).
Proof.
  unfold Sync, bind at 1, gets at 1. cbn [conc wal closed].
  unfold bind at 1. fold (conc mx segs b psd psu pend).
  rewrite flush_conc. unfold bind, gets. cbn [conc wal closed].
  fold (conc mx segs b psd (psu ++ pend) []). by rewrite fullSync_conc.
Qed.

Lemma closed_files_lookup (segs : segments) name :
  name ∉ map (fun s => segmentName s.1) segs -> closed_files segs !! name = None.
Proof.
  intros H. apply not_elem_of_list_to_map. by rewrite <- list_fmap_compose.
Qed.

Lemma closed_files_snoc (segs : segments) s :
  segmentName s.1 ∉ map (fun s => segmentName s.1) segs ->
  closed_files (segs ++ [s]) =
  <[segmentName s.1 := mkFile (frames s.2) (length (frames s.2))]> (closed_files segs).
Proof.
  intros H. unfold closed_files. rewrite map_app. cbn.
  apply list_to_map_snoc. by rewrite <- list_fmap_compose.
Qed.

Lemma segmentName_fresh (segs : segments) b :
  is_u64 b -> (forall b0, b0 ∈ map fst segs -> (b0 < b)%N) ->
  segmentName b ∉ map (fun s => segmentName s.1) segs.
Proof.
  intros Hb Hlt (s & E & Hin)%list_elem_of_In%in_map_iff.
  specialize (Hlt s.1 ltac:(by apply list_elem_of_In, in_map)).
  apply segmentName_inj in E; [lia| |done]. unfold is_u64 in *. lia.
Qed.

(** Rotation writes out the buffer, closes the segment durably and starts the
    next one at the next LSN. *)
Lemma rotate_conc mx segs b psd psu pend :
  let ps := psd ++ psu ++ pend in
  log_wf segs b ps -> ps <> [] ->
  rotateLocked (conc mx segs b psd psu pend) =
  (inr tt, conc mx (segs ++ [(b, ps)]) (b + N.of_nat (length ps))%N [] [] []).
Proof.
  cbv zeta. set (ps := psd ++ psu ++ pend). intros Hwf Hne.
  unfold rotateLocked, bind at 1. rewrite flush_conc.
  unfold bind at 1. rewrite fullSync_conc. fold ps.
  set (nxt := (b + N.of_nat (length ps))%N).
  assert (Hpos : (0 < length ps)%nat) by (destruct ps; [done|cbn; lia]).
  assert (Hb : is_u64 b) by (apply (chain_u64 segs b ps); [done|set_solver]).
  assert (Hfresh : segmentName b ∉ map (fun s => segmentName s.1) segs).
  { apply segmentName_fresh; [done|]. intros b0. apply chain_lt, Hwf. }
  assert (Hnew : (<[segmentName b:=mkFile (frames ps) (length (frames ps))]>
                    (closed_files segs) : gmap string File) !! segmentName nxt = None).
  { assert (Hn : segmentName nxt ∉ map (fun s => segmentName s.1) segs).
    { apply segmentName_fresh; [apply Hwf|]. intros b0 H0.
      pose proof (chain_lt _ _ _ (wf_chain _ _ _ Hwf) H0). lia. }
    rewrite lookup_insert_ne; [by apply closed_files_lookup|].
    intros E%segmentName_inj; [lia|done|apply Hwf]. }
  unfold createSegmentLocked, conc. run_io.
  rewrite !app_nil_r. fold nxt. rewrite Hnew. cbn.
  unfold disk_of. rewrite closed_files_snoc by done.
  rewrite map_app. cbn. rewrite N.add_0_r. done.
Qed.

Definition would_rotate (mx : Z) (ps : list bytes) (p : bytes) : bool :=
  (0 <? Z.of_nat (length (frames ps))) &&
  (mx <? Z.of_nat (length (frames ps)) + Z.of_nat (headerSize + length p)).

(** Appending an acceptable payload: the record goes to the end of the list,
    in the active segment or in a fresh one, and gets the next LSN. *)
Lemma append_conc mx segs b psd psu pend p :
  let ps := psd ++ psu ++ pend in
  log_wf segs b ps -> valid_payload p -> is_u64 (b + N.of_nat (length ps) + 1) ->
  appendLocked p (conc mx segs b psd psu pend) =
  (inr (b + N.of_nat (length ps))%N,
   if would_rotate mx ps p
   then conc mx (segs ++ [(b, ps)]) (b + N.of_nat (length ps))%N [] [] [p]
   else conc mx segs b psd psu (pend ++ [p])).
Proof.
  cbv zeta. set (ps := psd ++ psu ++ pend). intros Hwf Hp Hnext.
  pose proof (valid_length_pos p Hp). destruct Hp as [_ Hmax].
  unfold appendLocked, bind at 1, gets at 1. cbn [conc wal closed activeSize maxSegmentSize].
  fold (conc mx segs b psd psu pend).
  rewrite (proj2 (Nat.eqb_neq _ _)), (proj2 (N.ltb_ge _ _)) by lia.
  fold ps. unfold bind at 1. unfold would_rotate. destruct (_ && _) eqn:E.
  - apply andb_true_iff in E as [E _]. to_prop.
    rewrite rotate_conc; [|done|].
    2: { intros E'. fold ps in E'. rewrite E' in E. cbn in E. lia. }
    fold ps. unfold conc. run_io.
    rewrite !N.add_0_r, u64_id by done. f_equal. f_equal. f_equal.
    + change (frames [p]) with (frame p ++ []). by rewrite app_nil_r.
    + rewrite app_nil_r. unfold headerSize. lia.
  - run_io. fold ps.
    rewrite u64_id by done. unfold conc. f_equal. f_equal. f_equal.
    + by rewrite frames_snoc.
    + replace (psd ++ psu ++ pend ++ [p]) with (ps ++ [p])
        by (unfold ps; by rewrite <- !app_assoc).
      rewrite frames_snoc, length_app, length_frame. unfold headerSize. lia.
    + replace (psd ++ psu ++ pend ++ [p]) with (ps ++ [p])
        by (unfold ps; by rewrite <- !app_assoc).
      rewrite length_app. cbn. lia.
Qed.

Lemma log_wf_snoc segs b ps p :
  log_wf segs b ps -> valid_payload p -> is_u64 (b + N.of_nat (length ps) + 1) ->
  log_wf segs b (ps ++ [p]).
Proof.
  intros [Hc Hv Hn] Hp Hb. split; [done| |].
  - unfold all_records in *. rewrite app_assoc. apply Forall_app. split; [done|]. by apply Forall_singleton.
  - rewrite length_app. cbn. unfold is_u64 in *. lia.
Qed.

Lemma chain_snoc segs b ps :
  chain segs b -> ps <> [] -> chain (segs ++ [(b, ps)]) (b + N.of_nat (length ps)).
Proof.
  induction segs as [|[b0 ps0] rest IH]; cbn.
  - intros _ H. by split_and!.
  - intros (Hne & Hn & Hc) H. split_and!; [done| |by apply IH].
    destruct rest as [|[b1 ps1] rest]; cbn in *; lia.
Qed.

Lemma all_records_snoc segs b ps :
  all_records (segs ++ [(b, ps)]) [] = all_records segs ps.
Proof.
  unfold all_records. rewrite map_app, concat_app. cbn. by rewrite !app_nil_r.
Qed.

Lemma log_wf_rotate segs b ps :
  log_wf segs b ps -> ps <> [] -> log_wf (segs ++ [(b, ps)]) (b + N.of_nat (length ps)) [].
Proof.
  intros [Hc Hv Hn] Hne. split.
  - by apply chain_snoc.
  - by rewrite all_records_snoc.
  - cbn. unfold is_u64 in *. lia.
Qed.

Lemma first_lsn_snoc segs b ps :
  first_lsn (segs ++ [(b, ps)]) (b + N.of_nat (length ps)) = first_lsn segs b.
Proof. by destruct segs as [|[b0 ps0] rest]. Qed.

(** *** Reopening *)

Lemma omap_map {A B C} (f : A -> B) (g : B -> option C) l :
  omap g (map f l) = omap (fun x => g (f x)) l.
Proof. induction l as [|x l IH]; cbn; [done|]. destruct (g (f x)); by rewrite IH. Qed.

Lemma omap_all {A B} (f : A -> option B) (g : A -> B) l :
  (forall x, x ∈ l -> f x = Some (g x)) -> omap f l = map g l.
Proof.
  induction l as [|x l IH]; intros H; cbn; [done|].
  rewrite H by left. f_equal. apply IH. intros. apply H. by right.
Qed.

#[local] Instance N_le_total : Total N.le.
Proof. intros x y. lia. Qed.
#[local] Instance N_le_trans : Transitive N.le.
Proof. intros x y z. lia. Qed.
#[local] Instance N_le_antisym : AntiSymm (=) N.le.
Proof. intros x y. lia. Qed.

Lemma StronglySorted_lt_NoDup (l : list N) : StronglySorted N.lt l -> NoDup l.
Proof.
  induction 1 as [|x l Hl IH Hx]; constructor; [|done].
  intros Hin. rewrite Forall_forall in Hx. specialize (Hx x Hin). lia.
Qed.

Lemma StronglySorted_lt_le (l : list N) : StronglySorted N.lt l -> StronglySorted N.le l.
Proof.
  induction 1 as [|x l Hl IH Hx]; constructor; [done|].
  eapply Forall_impl; [done|]. cbn. lia.
Qed.

Lemma closed_names_NoDup segs b ps :
  log_wf segs b ps ->
  NoDup (map fst (map closed_file segs)) /\
  (closed_files segs : gmap string File) !! segmentName b = None.
Proof.
  intros Hwf. pose proof (chain_sorted _ _ (wf_chain _ _ _ Hwf)) as Hs.
  assert (Hnd : NoDup (map segmentName (map fst segs ++ [b]))).
  { apply NoDup_fmap_2_strong.
    - intros x y Hx Hy. apply segmentName_inj; by eapply chain_u64.
    - by apply StronglySorted_lt_NoDup. }
  rewrite map_app in Hnd. apply NoDup_app in Hnd as (H1 & H2 & _).
  rewrite map_map in H1. rewrite map_map. split; [done|].
  apply closed_files_lookup. intros Hin. rewrite map_map in H2.
  apply (H2 _ Hin). cbn. left.
Qed.

Lemma listSegments_conc segs b ps f :
  log_wf segs b ps ->
  listSegments (<[segmentName b := f]> (closed_files segs)) = map fst segs ++ [b].
Proof.
  intros Hwf. destruct (closed_names_NoDup _ _ _ Hwf) as [Hnd Hfresh].
  unfold listSegments.
  apply (StronglySorted_unique N.le).
  - apply Sorted_StronglySorted; [apply _|]. apply Sorted_merge_sort. apply _.
  - by apply StronglySorted_lt_le, chain_sorted, Hwf.
  - rewrite merge_sort_Permutation.
    rewrite (map_to_list_insert _ _ _ Hfresh). unfold closed_files.
    rewrite (map_to_list_to_map _ Hnd). rewrite omap_map.
    rewrite (omap_all _ (fun kv : string * File => default 0%N (parseSegment kv.1))).
    + cbn [map fst]. rewrite parseSegment_name by (eapply chain_u64; [done|set_solver]).
      cbn [default]. rewrite map_map. rewrite (map_ext_in _ fst).
      * by rewrite Permutation_app_comm.
      * intros s Hs%list_elem_of_In. cbn [closed_file fst]. rewrite parseSegment_name; [done|].
        eapply chain_u64; [done|]. apply elem_of_app. left. apply list_elem_of_In, in_map.
        by apply list_elem_of_In.
    + intros [name fl] [[= -> ->]|Hin]%elem_of_cons; cbn [fst].
      * by rewrite parseSegment_name by (eapply chain_u64; [done|set_solver]).
      * apply list_elem_of_In, in_map_iff in Hin as (s & [= <- <-] & Hs).
        rewrite parseSegment_name; [done|].
        eapply chain_u64; [done|]. apply elem_of_app. left. by apply list_elem_of_In, in_map.
Qed.

(** A prefix of a file of frames holds a prefix of the records, and all those
    whose frames it covers. *)
Lemma take_frames (ps : list bytes) n :
  Forall valid_payload ps ->
  exists k t, (k <= length ps)%nat /\
    take n (frames ps) = frames (take k ps) ++ t /\
    readRecord (mkReader t false) = Stop /\
    (forall m, (m <= length ps)%nat -> (length (frames (take m ps)) <= n)%nat -> (m <= k)%nat).
Proof.
  intros Hv. revert n. induction Hv as [|p ps Hp Hv IH]; intros n.
  - exists 0%nat, []. change (frames []) with (@nil ascii). rewrite take_nil. split_and!; [done..|].
    cbn. lia.
  - change (frames (p :: ps)) with (frame p ++ frames ps).
    destruct (Nat.le_gt_cases (length (frame p)) n) as [Hle|Hgt].
    + destruct (IH (n - length (frame p))%nat) as (k & t & Hk & Ht & Hs & Hmax).
      exists (S k), t. cbn [take length]. split_and!; [lia| |done|].
      * rewrite take_app_ge by done. rewrite Ht.
        change (frames (p :: take k ps)) with (frame p ++ frames (take k ps)).
        by rewrite app_assoc.
      * intros [|m] Hm Hlen; [lia|]. cbn [take] in Hlen.
        rewrite length_frames_cons in Hlen. rewrite length_frame in Hmax.
        enough (m <= k)%nat by lia. apply Hmax; lia.
    + exists 0%nat, (take n (frame p)). cbn [take]. split_and!; [lia| | |].
      * rewrite take_app_le by lia. done.
      * apply (readRecord_torn p _ false Hp); [apply prefix_take|].
        intros E. apply (f_equal length) in E. rewrite length_take in E. lia.
      * intros [|m] Hm Hlen; [lia|]. cbn [take] in Hlen.
        rewrite length_frames_cons in Hlen. rewrite length_frame in Hgt. lia.
Qed.

(** What a crash leaves of a healthy log's directory. *)
Lemma crash_conc segs b ps psd psu (d' : Disk) :
  log_wf segs b ps -> crash (disk_of segs b psd psu) d' ->
  exists n, (length (frames psd) <= n <= length (frames (psd ++ psu)))%nat /\
    files d' = <[segmentName b := mkFile (take n (frames (psd ++ psu))) n]> (closed_files segs).
Proof.
  intros Hwf Hcrash.
  pose proof (Hcrash (segmentName b)) as Hb. cbn [files disk_of] in Hb.
  rewrite lookup_insert_eq in Hb.
  destruct (files d' !! segmentName b) as [f'|] eqn:Ef; [|done].
  destruct Hb as (n & Hn & ->). cbn [f_synced f_data] in Hn. exists n. split; [done|].
  apply map_eq. intros name. destruct (decide (name = segmentName b)) as [->|Hne].
  { by rewrite lookup_insert_eq, Ef. }
  rewrite lookup_insert_ne by done.
  pose proof (Hcrash name) as H. cbn [files disk_of] in H.
  rewrite lookup_insert_ne in H by done.
  destruct (closed_files segs !! name) as [f|] eqn:Ec;
    destruct (files d' !! name) as [f'|]; try done.
  destruct H as (m & Hm & ->). unfold closed_files in Ec.
  apply elem_of_list_to_map_2 in Ec.
  apply list_elem_of_In, in_map_iff in Ec as (s & [= <- <-] & _).
  cbn [f_synced f_data] in *. f_equal.
  replace m with (length (frames s.2)) by lia. f_equal. by apply firstn_all.
Qed.

Definition effective_size (mx : Z) : Z := if mx <=? 0 then DefaultMaxSegmentSize else mx.

(** Opening a directory whose last segment ends in a torn record. *)
Lemma openSegment_torn mx (segs : segments) b kept t sync w :
  Forall valid_payload kept -> readRecord (mkReader t false) = Stop ->
  (t = [] -> sync = length (frames kept)) -> is_u64 (b + N.of_nat (length kept)) ->
  openSegment mx (map fst segs ++ [b]) b
    (mkLog w (mkDisk (<[segmentName b := mkFile (frames kept ++ t) sync]> (closed_files segs)) []))
  = (inr tt, conc mx segs b kept [] []).
Proof.
  intros Hv Ht Hsync Hn. unfold openSegment.
  do 2 (erewrite bind_ok; [|reflexivity]).
  cbn [disk files]. rewrite lookup_insert_eq.
  erewrite bind_ok; [|reflexivity]. cbn [f_data].
  erewrite bind_ok; [|rewrite scanRecords_spec, records_frames by done;
    erewrite bind_ok by apply for_each_ret; reflexivity].
  cbn beta iota. erewrite bind_ok; [|reflexivity].
  rewrite length_app. unfold conc, disk_of. rewrite !app_nil_r.
  destruct (Nat.ltb_spec (length (frames kept)) (length (frames kept) + length t)) as [Hlt|Hge].
  - run_io. rewrite !alter_insert_eq. unfold sync_data. cbn.
    by rewrite take_app_length, u64_id.
  - destruct t; [|cbn in Hge; lia]. rewrite Hsync by done.
    run_io. by rewrite !app_nil_r, u64_id.
Qed.

Lemma Forall_prefix_records segs b ps qs :
  log_wf segs b (ps ++ qs) -> Forall valid_payload ps.
Proof.
  intros [_ Hv _]. unfold all_records in Hv. apply Forall_app in Hv as [_ Hv].
  by apply Forall_app in Hv as [Hv _].
Qed.

(** A healthy log, killed at any moment, reopens with what was durable and
    some prefix of what was written after it. *)
Lemma Open_crash mx mx' segs b psd psu pend (l1 : Log) :
  log_wf segs b (psd ++ psu ++ pend) ->
  crash (disk (conc mx segs b psd psu pend)) (disk l1) -> oracle (disk l1) = [] ->
  exists k, (length psd <= k <= length (psd ++ psu))%nat /\
    Open mx' l1 =
    (inr tt, conc (effective_size mx') segs b (take k (psd ++ psu)) [] []).
Proof.
  intros Hwf Hcrash Horacle. set (ps := psd ++ psu).
  assert (Hv : Forall valid_payload ps).
  { apply (Forall_prefix_records segs b ps pend). unfold ps. by rewrite <- app_assoc. }
  destruct (crash_conc _ _ _ _ _ _ Hwf Hcrash) as (n & Hn & Hfiles). fold ps in Hn, Hfiles.
  destruct (take_frames ps n Hv) as (k & t & Hk & Ht & Hstop & Hmax).
  exists k. split.
  { split; [|done]. apply Hmax; unfold ps; [rewrite length_app; lia|].
    rewrite take_app_length. lia. }
  destruct l1 as [w [fs orc]]. cbn [disk oracle files] in *. subst orc fs.
  unfold Open. fold (effective_size mx').
  do 3 (erewrite bind_ok; [|reflexivity]). cbn [disk files].
  rewrite (listSegments_conc _ _ _ _ Hwf). erewrite bind_ok; [|reflexivity].
  rewrite last_snoc, Ht. apply openSegment_torn.
  - by apply Forall_take.
  - done.
  - intros ->. rewrite app_nil_r in Ht. rewrite <- Ht, length_take. lia.
  - destruct Hwf as [_ _ Hnext]. rewrite length_take.
    unfold is_u64, ps in *. rewrite !length_app in *. lia.
Qed.

(** *** Replay *)

Section ReplaySpec.
Context {St Err : Type}.
Implicit Types (fn : N -> bytes -> M St Err unit) (s : St).

Definition visit_all fn (rs : list (N * bytes)) : M St Err unit :=
  for_each (fun r => fn r.1 r.2) rs.

Lemma visit_all_app fn rs1 rs2 s :
  visit_all fn (rs1 ++ rs2) s = (visit_all fn rs1 ;;; visit_all fn rs2) s.
Proof.
  unfold visit_all. revert s. induction rs1 as [|r rs1 IH]; intros s; [done|].
  cbn. unfold bind in *. destruct (fn r.1 r.2 s) as [[e|[]] s']; [done|]. apply IH.
Qed.

Definition from_on (from : N) (rs : list (N * bytes)) : list (N * bytes) :=
  filter (fun r => (from <= r.1)%N) rs.

Lemma replay_record_all from base fn ps n s :
  (base + n + N.of_nat (length ps) < 2 ^ 64)%N ->
  exists o,
    for_each (fun p os => match replay_record from base fn p os with
                          | (inl e, os') => (inl (inr e : walError + Err), os')
                          | (inr a, os') => (inr a, os')
                          end) ps (n, s) =
    (callback_result (visit_all fn (from_on from (number (base + n) ps)) s).1,
     (o, (visit_all fn (from_on from (number (base + n) ps)) s).2)).
Proof.
  revert n s. induction ps as [|p ps IH]; intros n s Hlt.
  { by exists n. }
  cbn [for_each number length] in *. unfold bind at 1. unfold replay_record at 1.
  rewrite u64_id by (unfold is_u64; lia). unfold from_on. rewrite filter_cons. cbn [fst].
  destruct (N.ltb_spec (base + n) from) as [Hb|Hb].
  - rewrite decide_False by lia.
    replace (base + n + 1)%N with (base + (n + 1))%N by lia. apply IH. lia.
  - rewrite decide_True by lia. unfold visit_all. cbn [for_each fst snd].
    unfold bind at 1 2. destruct (fn (base + n)%N p s) as [[e|[]] s'] eqn:E.
    + by exists (n + 1)%N.
    + replace (base + n + 1)%N with (base + (n + 1))%N by lia.
      destruct (IH (n + 1)%N s' ltac:(lia)) as [o Ho]. exists o. exact Ho.
Qed.

Lemma replay_segment_spec from base fn ps s :
  Forall valid_payload ps -> is_u64 (base + N.of_nat (length ps)) ->
  replay_segment from base fn (mkReader (frames ps) false) s =
  (callback_result (visit_all fn (from_on from (number base ps)) s).1,
   (visit_all fn (from_on from (number base ps)) s).2).
Proof.
  intros Hv Hn. unfold replay_segment. rewrite scanRecords_spec, records_frames_exact by done.
  destruct (replay_record_all from base fn ps 0 s) as [o Ho].
  { unfold is_u64 in Hn. lia. }
  rewrite N.add_0_r in Ho. unfold bind. rewrite Ho.
  by destruct (visit_all fn (from_on from (number base ps)) s) as [[e|[]] s'].
Qed.

Lemma from_on_none from lsn ps :
  (lsn + N.of_nat (length ps) <= from)%N -> from_on from (number lsn ps) = [].
Proof. intros H. apply filter_none. intros r Hr%number_lsn. lia. Qed.

Lemma from_on_app from rs1 rs2 : from_on from (rs1 ++ rs2) = from_on from rs1 ++ from_on from rs2.
Proof. apply filter_app. Qed.

(** One turn of the loop of [Replay]: whether or not the segment is skipped,
    the records at or after [from] are visited. *)
Lemma replay_segments_cons from fn base rest ps f l s :
  oracle (disk l) = [] -> files (disk l) !! segmentName base = Some f ->
  f_data f = frames ps -> Forall valid_payload ps -> is_u64 (base + N.of_nat (length ps)) ->
  (match rest with b :: _ => b | [] => 2 ^ 64 - 1 end <= from ->
   base + N.of_nat (length ps) <= from)%N ->
  replay_segments from fn (base :: rest) (l, s) =
  match visit_all fn (from_on from (number base ps)) s with
  | (inl e, s') => (inl (inr e), (l, s'))
  | (inr _, s') => replay_segments from fn rest (l, s')
  end.
Proof.
  intros Ho Hf Hdata Hv Hn Hskip. cbn [replay_segments]. unfold bind at 1.
  destruct (N.leb_spec (match rest with b :: _ => b | [] => 2 ^ 64 - 1 end) from) as [Hle|Hgt].
  - rewrite from_on_none by (by apply Hskip). done.
  - destruct l as [w [fs orc]]. cbn [disk oracle files] in *. subst orc.
    unfold in_log at 1, try_call at 1. unfold bind at 1. cbn.
    unfold bind, gets. cbn. rewrite Hf. unfold in_log, syscall, bind, gets, modify, ret.
    cbn [next_outcome oracle disk wal files tail].
    rewrite Hdata, replay_segment_spec by done.
    by destruct (visit_all fn (from_on from (number base ps)) s) as [[e|[]] s'].
Qed.

Lemma replay_segments_spec from fn segs b ps l s :
  log_wf segs b ps -> oracle (disk l) = [] ->
  (forall b0 ps0, (b0, ps0) ∈ segs -> exists f,
     files (disk l) !! segmentName b0 = Some f /\ f_data f = frames ps0) ->
  (exists f, files (disk l) !! segmentName b = Some f /\ f_data f = frames ps) ->
  replay_segments from fn (map fst segs ++ [b]) (l, s) =
  (callback_result
     (visit_all fn (from_on from (number (first_lsn segs b) (all_records segs ps))) s).1,
   (l, (visit_all fn (from_on from (number (first_lsn segs b) (all_records segs ps))) s).2)).
Proof.
  intros Hwf Ho. revert s. induction segs as [|[b0 ps0] rest IH]; intros s Hsegs (f & Hf & Hd).
  - destruct Hwf as [_ Hv Hn]. cbn [map app first_lsn all_records].
    rewrite (replay_segments_cons _ _ _ _ ps f) by (done || unfold is_u64 in *; lia).
    unfold all_records. cbn [map concat app].
    by destruct (visit_all fn (from_on from (number b ps)) s) as [[e|[]] s'].
  - destruct Hwf as [(Hne & Hnext & Hc) Hv Hn].
    assert (Hwf' : log_wf rest b ps).
    { split; [done| |done]. unfold all_records in *. cbn in Hv.
      rewrite <- app_assoc in Hv. by apply Forall_app in Hv as [_ Hv]. }
    assert (Hv0 : Forall valid_payload ps0).
    { unfold all_records in Hv. cbn in Hv. rewrite <- app_assoc in Hv.
      by apply Forall_app in Hv as [Hv _]. }
    assert (Hfirst : (b0 + N.of_nat (length ps0))%N = first_lsn rest b)
      by (rewrite Hnext; by destruct rest as [|[b1 ps1] rest]).
    assert (Hhd : hd 0%N (map fst rest ++ [b]) = first_lsn rest b)
      by (by destruct rest as [|[b1 ps1] rest]).
    destruct (Hsegs b0 ps0 ltac:(left)) as (f0 & Hf0 & Hd0).
    cbn [map app fst]. rewrite (replay_segments_cons _ _ _ _ ps0 f0); try done.
    + cbn [first_lsn]. unfold all_records. cbn [map concat snd].
      rewrite <- app_assoc, number_app, from_on_app, visit_all_app, Hfirst.
      fold (all_records rest ps). unfold bind.
      destruct (visit_all fn (from_on from (number b0 ps0)) s) as [[e|[]] s']; [done|].
      apply IH; [done| |by eauto]. intros b1 ps1 H1. apply Hsegs. by right.
    + pose proof (chain_first rest b Hc). unfold is_u64 in *. lia.
    + destruct (map fst rest ++ [b]) as [|b1 bs] eqn:E; [by destruct rest|].
      cbn in Hhd. lia.
Qed.

Lemma closed_file_lookup segs b ps b0 ps0 :
  log_wf segs b ps -> (b0, ps0) ∈ segs ->
  (closed_files segs : gmap string File) !! segmentName b0 =
  Some (mkFile (frames ps0) (length (frames ps0))) /\ segmentName b0 <> segmentName b.
Proof.
  intros Hwf Hin. destruct (closed_names_NoDup _ _ _ Hwf) as [Hnd Hfresh].
  assert (Hl : (closed_files segs : gmap string File) !! segmentName b0 =
               Some (mkFile (frames ps0) (length (frames ps0)))).
  { apply elem_of_list_to_map_1; [done|]. apply list_elem_of_In.
    apply (in_map closed_file segs (b0, ps0)). by apply list_elem_of_In. }
  split; [done|]. intros E. rewrite E in Hl. by rewrite Hl in Hfresh.
Qed.

(** [Replay] visits exactly the records from [from] on, in order, with their
    LSNs, and passes the callback's error on. *)
Lemma Replay_conc mx segs b psd psu pend from fn s :
  log_wf segs b (psd ++ psu ++ pend) ->
  let rs := from_on from (number (first_lsn segs b) (all_records segs (psd ++ psu ++ pend))) in
  Replay from fn (conc mx segs b psd psu pend, s) =
  (callback_result (visit_all fn rs s).1,
   (conc mx segs b psd (psu ++ pend) [], (visit_all fn rs s).2)).
Proof.
  intros Hwf rs. unfold Replay. erewrite bind_ok; [|reflexivity].
  cbn [fst conc wal closed]. fold (conc mx segs b psd psu pend).
  erewrite bind_ok; [|unfold in_log; rewrite flush_conc; reflexivity].
  erewrite bind_ok; [|reflexivity]. cbn [fst conc wal bases].
  fold (conc mx segs b psd (psu ++ pend) []).
  rewrite (replay_segments_spec from fn segs b (psd ++ psu ++ pend)); try done.
  - intros b0 ps0 Hin. destruct (closed_file_lookup _ _ _ _ _ Hwf Hin) as [Hl Hne].
    cbn [conc disk files disk_of]. rewrite lookup_insert_ne by done. by eauto.
  - cbn [conc disk files disk_of]. rewrite lookup_insert_eq. by eauto.
Qed.
End ReplaySpec.

(** *** Truncation *)

Lemma log_wf_tail b0 ps0 rest b ps : log_wf ((b0, ps0) :: rest) b ps -> log_wf rest b ps.
Proof.
  intros [(Hne & Hnext & Hc) Hv Hn]. split; [done| |done].
  unfold all_records in *. cbn in Hv. rewrite <- app_assoc in Hv.
  by apply Forall_app in Hv as [_ Hv].
Qed.

Lemma delete_oldest b0 ps0 rest b ps psd psu :
  log_wf ((b0, ps0) :: rest) b ps ->
  delete (segmentName b0) (files (disk_of ((b0, ps0) :: rest) b psd psu)) =
  files (disk_of rest b psd psu).
Proof.
  intros Hwf. destruct (closed_file_lookup _ _ _ b0 ps0 Hwf ltac:(left)) as [_ Hne].
  destruct (closed_names_NoDup _ _ _ Hwf) as [Hnd _].
  cbn [disk_of files]. rewrite delete_insert_ne by done. f_equal.
  change (closed_files ((b0, ps0) :: rest)) with
    (<[segmentName b0 := mkFile (frames ps0) (length (frames ps0))]> (closed_files rest)).
  apply delete_insert_id. apply not_elem_of_list_to_map.
  cbn in Hnd. by apply NoDup_cons in Hnd as [Hnd _].
Qed.

Lemma remove_file name l :
  oracle (disk l) = [] ->
  (try_call "remove segment" ;;; set_files (delete name)) l =
  (inr tt, mkLog (wal l) (mkDisk (delete name (files (disk l))) [])).
Proof. destruct l as [w [fs o]]. cbn. by intros ->. Qed.

Lemma remove_before_conc lsn segs b ps psd psu w :
  log_wf segs b ps ->
  exists j, (j <= length segs)%nat /\
    (j = 0%nat \/ (first_lsn (drop j segs) b <= lsn)%N) /\
    remove_before lsn (map fst segs ++ [b]) (mkLog w (disk_of segs b psd psu)) =
    (inr j, mkLog w (disk_of (drop j segs) b psd psu)).
Proof.
  induction segs as [|[b0 ps0] rest IH]; intros Hwf.
  { exists 0%nat. cbn. split; [lia|]. split; [by left|done]. }
  assert (Hhd : exists tl, map fst rest ++ [b] = first_lsn rest b :: tl)
    by (destruct rest as [|[b1 ps1] rest]; eexists; done).
  destruct Hhd as [tl Htl]. cbn [map app fst]. rewrite Htl. cbn [remove_before].
  destruct (N.ltb_spec lsn (first_lsn rest b)) as [Hlt|Hle].
  { exists 0%nat. split; [lia|]. split; [by left|done]. }
  destruct (IH (log_wf_tail _ _ _ _ _ Hwf)) as (j & Hj & Hlsn & Hrun).
  exists (S j). cbn [length drop]. split; [lia|]. split.
  { right. destruct Hlsn as [->|?]; [|done]. by rewrite drop_0. }
  destruct (closed_file_lookup _ _ _ b0 ps0 Hwf ltac:(left)) as [Hl Hne].
  erewrite (bind_ok _ _ _ tt).
  2:{ erewrite bind_ok; [|reflexivity]. cbn [disk].
      cbn [disk_of files]. rewrite lookup_insert_ne by done. rewrite Hl.
      rewrite remove_file by done. cbn [disk wal].
      rewrite (delete_oldest _ _ _ _ _ _ _ Hwf). reflexivity. }
  change (mkDisk (files (disk_of rest b psd psu)) []) with (disk_of rest b psd psu).
  rewrite Htl in Hrun.
  erewrite bind_ok by exact Hrun. done.
Qed.

Lemma TruncateBefore_conc lsn mx segs b psd psu pend :
  log_wf segs b (psd ++ psu ++ pend) ->
  exists j, (j <= length segs)%nat /\
    (j = 0%nat \/ (first_lsn (drop j segs) b <= lsn)%N) /\
    TruncateBefore lsn (conc mx segs b psd psu pend) =
    (inr tt, conc mx (drop j segs) b psd psu pend).
Proof.
  intros Hwf. unfold TruncateBefore. erewrite bind_ok; [|reflexivity].
  cbn [conc wal closed bases].
  edestruct (remove_before_conc lsn segs b (psd ++ psu ++ pend) psd psu) as (j & Hj & Hlsn & Hrun); [done|].
  exists j. split; [done|]. split; [done|]. unfold conc at 1.
  erewrite bind_ok by exact Hrun.
  destruct (Nat.ltb_spec 0 j) as [Hpos|H0].
  - unfold conc. run_io. unfold with_bases. cbn.
    do 3 f_equal. rewrite drop_app_le by (by rewrite length_map).
    by rewrite <- skipn_map.
  - assert (j = 0%nat) as -> by lia. by rewrite drop_0.
Qed.

(** ** The log implements its specification *)

Definition abs_of (segs : segments) (b : N) (psd psu pend : list bytes) : abs_log :=
  mkAbs (first_lsn segs b) (all_records segs (psd ++ psu ++ pend))
    (length (all_records segs (psd ++ psu))) (length (all_records segs psd)).

Definition wal_represents (l : Log) (a : abs_log) : Prop :=
  exists mx segs b psd psu pend, log_wf segs b (psd ++ psu ++ pend) /\
    l = conc mx segs b psd psu pend /\ a = abs_of segs b psd psu pend.

Lemma a_next_abs_of segs b psd psu pend :
  chain segs b ->
  a_next (abs_of segs b psd psu pend) = (b + N.of_nat (length (psd ++ psu ++ pend)))%N.
Proof.
  intros Hc%chain_first. unfold a_next, abs_of, all_records. cbn [a_first a_recs].
  rewrite length_app. lia.
Qed.

Lemma wal_represents_wf l a : wal_represents l a -> abs_wf a.
Proof.
  intros (mx & segs & b & psd & psu & pend & Hwf & _ & ->). split.
  - unfold abs_of, all_records. cbn. rewrite !length_app. lia.
  - unfold abs_of, all_records. cbn. rewrite !length_app. lia.
  - rewrite a_next_abs_of by apply Hwf. apply Hwf.
Qed.

Lemma wal_last_lsn_law l a : wal_represents l a -> LastLSN (wal l) = u64 (a_next a + 2 ^ 64 - 1).
Proof. intros (mx & segs & b & psd & psu & pend & Hwf & -> & ->). by rewrite a_next_abs_of by apply Hwf. Qed.

Lemma wal_append_law l a p :
  wal_represents l a -> valid_payload p -> a_room a ->
  exists l' a', Append p l = (inr (a_next a), l') /\ wal_represents l' a' /\
    abs_appended p a a'.
Proof.
  intros (mx & segs & b & psd & psu & pend & Hwf & -> & ->) Hp Hroom.
  unfold a_room in Hroom. rewrite a_next_abs_of in * by apply Hwf.
  unfold Append. rewrite append_conc by done.
  destruct (would_rotate mx (psd ++ psu ++ pend) p) eqn:E.
  - set (ps := psd ++ psu ++ pend) in *.
    assert (Hne : ps <> []).
    { intros E0. rewrite E0 in E. done. }
    assert (Hwf' := log_wf_rotate _ _ _ Hwf Hne).
    eexists _, (abs_of (segs ++ [(b, ps)]) (b + N.of_nat (length ps)) [] [] [p]).
    split; [done|]. split.
    + eexists mx, _, _, [], [], [p]. split; [|done].
      apply (log_wf_snoc _ _ [] p); [done..|]. cbn. by rewrite N.add_0_r.
    + unfold abs_of. split; cbn [a_first a_recs a_written a_durable app].
      * apply first_lsn_snoc.
      * fold ps. rewrite <- (all_records_snoc segs b ps). unfold all_records. cbn. by rewrite !app_nil_r.
      * rewrite all_records_snoc. unfold ps, all_records. rewrite !length_app. lia.
      * rewrite all_records_snoc. unfold ps, all_records. rewrite !length_app. lia.
  - eexists _, (abs_of segs b psd psu (pend ++ [p])). split; [done|]. split.
    + eexists mx, _, _, _, _, _. split; [|done].
      rewrite !app_assoc. apply log_wf_snoc; rewrite <- ?app_assoc; done.
    + unfold abs_of. split; cbn [a_first a_recs a_written a_durable]; [done| |lia..].
      unfold all_records. by rewrite <- !app_assoc.
Qed.

Lemma wal_sync_law l a :
  wal_represents l a -> exists l', Sync l = (inr tt, l') /\ wal_represents l' (abs_synced a).
Proof.
  intros (mx & segs & b & psd & psu & pend & Hwf & -> & ->).
  rewrite Sync_conc. eexists. split; [done|].
  exists mx, segs, b, (psd ++ psu ++ pend), [], []. rewrite !app_nil_r.
  split; [done|]. split; [done|].
  unfold abs_synced, abs_of. cbn. by rewrite !app_nil_r.
Qed.

Lemma wal_append_sync_law l a p :
  wal_represents l a -> valid_payload p -> a_room a ->
  exists l' a', AppendSync p l = (inr (a_next a), l') /\ wal_represents l' a' /\
    abs_appended p a a' /\ a' = abs_synced a'.
Proof.
  intros Hl Hp Hroom. destruct (wal_append_law l a p Hl Hp Hroom) as (l1 & a1 & H1 & Hr1 & Ha1).
  destruct (wal_sync_law l1 a1 Hr1) as (l2 & H2 & Hr2).
  exists l2, (abs_synced a1). split.
  - unfold AppendSync. erewrite bind_ok by exact H1. by erewrite bind_ok by exact H2.
  - split; [done|]. split; [|done]. pose proof (wal_represents_wf _ _ Hr1) as [].
    destruct Ha1. split; cbn; try done; lia.
Qed.

Lemma drop_segments segs b ps j :
  chain segs b -> (j <= length segs)%nat ->
  exists n, first_lsn (drop j segs) b = (first_lsn segs b + N.of_nat n)%N /\
    (n <= length (concat (map snd segs)))%nat /\
    all_records (drop j segs) ps = drop n (all_records segs ps) /\
    length (all_records (drop j segs) ps) = (length (all_records segs ps) - n)%nat /\
    (j = 0 -> n = 0)%nat /\ chain (drop j segs) b.
Proof.
  revert j. induction segs as [|[b0 ps0] rest IH]; intros [|j] Hc Hj; cbn [length] in *.
  - exists 0%nat. rewrite !drop_0. split_and!; cbn; try done; lia.
  - lia.
  - exists 0%nat. rewrite !drop_0. split_and!; cbn; try done; lia.
  - destruct Hc as (Hne & Hnext & Hc). destruct (IH j Hc ltac:(lia)) as (n & Hf & Hn & Hd & Hl & _ & Hc').
    exists (length ps0 + n)%nat. cbn [drop]. unfold all_records in *. cbn [map concat snd] in *.
    rewrite <- app_assoc. split_and!; try done.
    + rewrite Hf. cbn [first_lsn].
      assert (first_lsn rest b = b0 + N.of_nat (length ps0))%N; [|lia].
      rewrite Hnext. by destruct rest as [|[b1 ps1] rest].
    + rewrite length_app. lia.
    + by rewrite Hd, drop_app_add.
    + rewrite Hl, !length_app. lia.
Qed.

Lemma wal_truncate_law l a lsn :
  wal_represents l a ->
  exists l' a', TruncateBefore lsn l = (inr tt, l') /\ wal_represents l' a' /\
    abs_truncated lsn a a'.
Proof.
  intros (mx & segs & b & psd & psu & pend & Hwf & -> & ->).
  destruct (TruncateBefore_conc lsn mx segs b psd psu pend Hwf) as (j & Hj & Hlsn & ->).
  assert (Hpart : forall ps, exists n, first_lsn (drop j segs) b = (first_lsn segs b + N.of_nat n)%N /\
    (n <= length (concat (map snd segs)))%nat /\
    all_records (drop j segs) ps = drop n (all_records segs ps) /\
    length (all_records (drop j segs) ps) = (length (all_records segs ps) - n)%nat /\
    (j = 0 -> n = 0)%nat /\ chain (drop j segs) b) by (intros ps; by apply drop_segments; [apply Hwf|]).
  destruct (Hpart (psd ++ psu ++ pend)) as (n & Hf & Hn & Hd & _ & H0 & Hc).
  assert (Hlen : forall ps, length (all_records (drop j segs) ps) =
                            (length (all_records segs ps) - n)%nat).
  { intros ps. destruct (Hpart ps) as (n' & Hf' & _ & _ & Hl' & _).
    rewrite Hl'. rewrite Hf in Hf'. lia. }
  eexists _, (abs_of (drop j segs) b psd psu pend). split; [done|]. split.
  - eexists mx, _, _, _, _, _. split; [|done]. split; [done| |apply Hwf].
    rewrite Hd. apply Forall_drop, Hwf.
  - exists n. unfold abs_of. cbn [a_first a_recs a_written a_durable]. split.
    { unfold all_records. rewrite length_app. lia. }
    split.
    { destruct Hlsn as [->|Hlsn]; [left; by apply H0|right; lia]. }
    by rewrite Hf, Hd, !Hlen.
Qed.

Definition wal_crash (l l' : Log) : Prop := crash (disk l) (disk l') /\ oracle (disk l') = [].

Lemma wal_reopen_law l a l1 mx :
  wal_represents l a -> wal_crash l l1 ->
  exists l2 a', Open mx l1 = (inr tt, l2) /\ wal_represents l2 a' /\ abs_crashed a a'.
Proof.
  intros (mx0 & segs & b & psd & psu & pend & Hwf & -> & ->) [Hcrash Ho].
  destruct (Open_crash mx0 mx segs b psd psu pend l1 Hwf Hcrash Ho) as (k & Hk & Hopen).
  eexists _, (abs_of segs b (take k (psd ++ psu)) [] []). split; [done|].
  assert (Hwf' : log_wf segs b (take k (psd ++ psu))).
  { destruct Hwf as [Hc Hv Hn]. split; [done| |].
    - unfold all_records in *. apply Forall_app in Hv as [H1 H2].
      apply Forall_app. split; [done|]. apply Forall_take.
      rewrite app_assoc in H2. by apply Forall_app in H2 as [H2 _].
    - rewrite length_take. unfold is_u64 in *. rewrite !length_app in *. lia. }
  split.
  - exists (effective_size mx), segs, b, (take k (psd ++ psu)), [], [].
    rewrite !app_nil_r. by split_and!.
  - exists (length (concat (map snd segs)) + k)%nat.
    unfold abs_of, all_records. cbn [a_first a_recs a_written a_durable].
    rewrite !app_nil_r, !length_app, !length_take in *. split; [lia|].
    rewrite Nat.min_l by (rewrite ?length_app; lia). f_equal.
    rewrite take_app_add, (app_assoc psd). f_equal. symmetry. apply take_app_le.
    rewrite length_app. lia.
Qed.

Lemma wal_replay_law {St Err} l a from (fn : N -> bytes -> M St Err unit) s :
  wal_represents l a ->
  exists l', wal_represents l' (abs_flushed a) /\
    Replay from fn (l, s) =
    (callback_result (for_each (fun r => fn r.1 r.2) (a_from from a) s).1,
     (l', (for_each (fun r => fn r.1 r.2) (a_from from a) s).2)).
Proof.
  intros (mx & segs & b & psd & psu & pend & Hwf & -> & ->).
  exists (conc mx segs b psd (psu ++ pend) []). split.
  - exists mx, segs, b, psd, (psu ++ pend), []. rewrite !app_nil_r.
    split; [done|]. split; [done|]. unfold abs_flushed, abs_of. cbn. by rewrite !app_nil_r.
  - exact (Replay_conc mx segs b psd psu pend from fn s Hwf).
Qed.

Lemma Open_fresh mx l :
  files (disk l) = ∅ -> oracle (disk l) = [] ->
  Open mx l = (inr tt, conc (effective_size mx) [] 1 [] [] []).
Proof.
  destruct l as [w [fs o]]. cbn [files oracle disk]. intros -> ->.
  unfold Open. fold (effective_size mx).
  do 4 (erewrite bind_ok; [|reflexivity]). reflexivity.
Qed.

Lemma fresh_represents mx : wal_represents (conc mx [] 1 [] [] []) (mkAbs 1 [] 0 0).
Proof.
  exists mx, [], 1%N, [], [], []. split; [|done]. split; [done|constructor|done].
Qed.

Definition wal_fresh (l : Log) : Prop := files (disk l) = ∅ /\ oracle (disk l) = [].

Lemma wal_fresh_law l mx :
  wal_fresh l -> exists l', Open mx l = (inr tt, l') /\ wal_represents l' (mkAbs 1 [] 0 0).
Proof. intros [H1 H2]. rewrite Open_fresh by done. eauto using fresh_represents. Qed.

#[export] Instance wal_ops : LogOps Log := {
  log_err := walError;
  log_open := Open;
  log_append := Append;
  log_append_sync := AppendSync;
  log_sync := Sync;
  log_truncate_before := TruncateBefore;
  log_close := Close;
  log_last_lsn l := LastLSN (wal l);
  log_replay := @Replay;
  log_crash := wal_crash;
  log_fresh := wal_fresh
}.

#[export] Instance wal_laws : LogLaws Log := {
  represents := wal_represents;
  represents_wf := wal_represents_wf;
  append_law := wal_append_law;
  append_sync_law := wal_append_sync_law;
  sync_law := wal_sync_law;
  truncate_law := wal_truncate_law;
  replay_law := @wal_replay_law;
  last_lsn_law := wal_last_lsn_law;
  reopen_law := wal_reopen_law;
  fresh_law := wal_fresh_law
}.
