(* ===== verification/WalFaults.v ===== *)
(** * WalFaults: one operation of the log while system calls fail

    [faulty cs l] is the log [l] on a disk whose next calls have the outcomes
    [cs]. An operation on it either works as it does where nothing fails, or it
    returns an error and leaves a disk of which a crash keeps no more and no
    less than of some healthy log ([short_of]). [goes_append_sync] puts that
    together for [AppendSync]. *)
From S2P Require Import Prelude Framing LogSpec Wal WalSpec.

Definition faulty (cs : list outcome) (l : Log) : Log :=
  mkLog (wal l) (mkDisk (files (disk l)) cs).

(** The log itself, its calls working again. *)
Definition clean (l : Log) : Log := faulty [] l.

(** Whatever a crash may leave of [lf] it may leave of [l]. *)
Definition short_of (l lf : Log) : Prop := forall d, crash (disk lf) d -> crash (disk l) d.

Lemma short_same l lf : files (disk lf) = files (disk l) -> short_of l lf.
Proof. intros E d. unfold crash. by rewrite E. Qed.

(** A file of which only the beginning was written. *)
Lemma crash_file_short data more k s f' :
  (s <= length data)%nat ->
  crash_file (mkFile (data ++ take k more) s) f' -> crash_file (mkFile (data ++ more) s) f'.
Proof.
  intros Hs (n & Hn & ->). cbn [f_synced f_data] in *. rewrite length_app, length_take in Hn. exists n.
  cbn [f_synced f_data]. split; [rewrite length_app; lia|]. f_equal. rewrite !take_app. f_equal.
  rewrite firstn_firstn. f_equal. lia.
Qed.

(** [m] on a log [l] whose calls may fail: it works and leaves [l'], or it fails
    for a call that failed, and what a crash keeps is what it keeps of a log in
    [Q]. *)
Definition goes {A} (Q : Log -> Prop) (m : M Log walError A) (v : A) (l l' : Log) : Prop :=
  forall cs, wp m (fun r x => match r with
                              | inr y => y = v /\ exists cs', cs' ⊆ cs /\ x = faulty cs' l'
                              | inl _ => (exists n, IoFail n ∈ cs) /\ exists lw, Q lw /\ short_of lw x
                              end) (faulty cs l).

Lemma goes_bind {A B} Q (m : M Log walError A) (k : A -> M Log walError B) v w l l1 l2 :
  goes Q m v l l1 -> goes Q (k v) w l1 l2 -> goes Q (bind m k) w l l2.
Proof.
  intros Hm Hk cs. apply wp_bind. eapply wp_mono; [apply Hm|]. intros [e|y] x; [done|].
  intros (-> & cs' & Hs & ->). eapply wp_mono; [apply Hk|]. intros [e|y] x.
  - intros [[n Hn] H]. split; [by exists n; apply Hs|done].
  - intros (-> & cs2 & Hs2 & ->). split; [done|]. exists cs2. split; [by etrans|done].
Qed.

Lemma goes_ret {A} Q (v : A) l : goes Q (ret v) v l l.
Proof. intros cs. wp_step. split; [done|]. by exists cs. Qed.

Lemma goes_gets {A} Q (f : Log -> A) l : (forall cs, f (faulty cs l) = f l) -> goes Q (gets f) (f l) l l.
Proof. intros E cs. wp_step. split; [apply E|by exists cs]. Qed.

Lemma goes_set_wal Q f l : goes Q (set_wal f) tt l (mkLog (f (wal l)) (disk l)).
Proof. intros cs. unfold set_wal. wp_step. split; [done|by exists cs]. Qed.

Lemma goes_set_files Q f l : goes Q (set_files f) tt l (mkLog (wal l) (mkDisk (f (files (disk l))) (oracle (disk l)))).
Proof. intros cs. unfold set_files. wp_step. split; [done|by exists cs]. Qed.

(** A call that may fail without an effect; where it does, the disk is that of a
    log in [Q]. *)
Lemma goes_call (Q : Log -> Prop) what l lw : Q lw -> files (disk lw) = files (disk l) -> goes Q (try_call what) tt l l.
Proof.
  intros HQ E cs. unfold try_call, syscall. wp_auto. unfold next_outcome. cbn [disk faulty oracle].
  destruct cs as [|[|n] cs]; wp_auto.
  - by split; [|exists []].
  - split; [done|]. exists cs. split; [by apply list_subseteq_cons|done].
  - split; [exists n; by left|]. exists lw. split; [done|by apply short_same].
Qed.

(** ** The methods *)

Section Methods.
Context (Q : Log -> Prop).

Lemma goes_flush mx segs b psd psu pend :
  Q (conc mx segs b psd (psu ++ pend) []) ->
  goes Q flushBufferLocked tt (conc mx segs b psd psu pend) (conc mx segs b psd (psu ++ pend) []).
Proof.
  intros HQ cs. unfold flushBufferLocked. wp_step. wp_step. cbn [faulty conc wal buf].
  destruct (frames pend) as [|c bs] eqn:E.
  { wp_step. apply frames_nil_iff in E as ->. split; [done|]. exists cs. unfold conc. by rewrite !app_nil_r. }
  rewrite <- E. clear E c bs. unfold file_Write. wp_auto.
  cbn [faulty conc wal activeOpen]. unfold syscall, set_files. wp_auto.
  unfold next_outcome. cbn [faulty conc disk oracle files wal active].
  assert (Hw : forall ds, alter (append_data ds) (segmentName b) (files (disk_of segs b psd psu)) =
     <[segmentName b := mkFile (frames (psd ++ psu) ++ ds) (length (frames psd))]> (closed_files segs)).
  { intros ds. unfold disk_of. cbn [files]. by rewrite alter_insert_eq. }
  assert (Hok : forall cs', cs' ⊆ cs -> exists cs'', cs'' ⊆ cs /\ mkLog (with_buf [] (wal (conc mx segs b psd psu pend)))
     (mkDisk (alter (append_data (frames pend)) (segmentName b) (files (disk_of segs b psd psu))) cs') =
     faulty cs'' (conc mx segs b psd (psu ++ pend) [])).
  { intros cs' Hs. exists cs'. split; [done|]. rewrite Hw. unfold faulty, conc, disk_of. cbn.
    by rewrite <- frames_app, !app_nil_r, <- !app_assoc. }
  destruct cs as [|[|n] cs]; cbn [tail]; wp_auto; unfold set_wal; wp_auto.
  - split; [done|]. by apply (Hok []).
  - split; [done|]. apply (Hok cs). by apply list_subseteq_cons.
  - split; [exists n; by left|]. eexists. split; [exact HQ|]. intros d Hd name. specialize (Hd name).
    cbn [disk files conc disk_of wal] in Hd |- *. fold (disk_of segs b psd psu) in Hd.
    change (alter _ _ _) with (alter (append_data (take n (frames pend))) (segmentName b) (files (disk_of segs b psd psu))) in Hd.
    rewrite Hw in Hd. destruct (decide (name = segmentName b)) as [->|Hne].
    + rewrite lookup_insert_eq in Hd |- *. destruct (files d !! segmentName b); [|done].
      rewrite app_assoc, frames_app. eapply crash_file_short; [|exact Hd].
      rewrite frames_app, length_app. lia.
    + by rewrite lookup_insert_ne in Hd |- * by done.
Qed.

Lemma goes_fullSync mx segs b psd psu pend :
  Q (conc mx segs b psd psu pend) ->
  goes Q fullSync tt (conc mx segs b psd psu pend) (conc mx segs b (psd ++ psu) [] pend).
Proof.
  intros HQ. pose proof (fullSync_conc mx segs b psd psu pend) as H. unfold fullSync in *.
  eapply goes_bind; [by apply goes_gets|]. cbn [conc wal activeOpen].
  eapply goes_bind; [by apply (goes_call Q _ _ _ HQ)|].
  replace (conc mx segs b (psd ++ psu) [] pend) with
    (mkLog (wal (conc mx segs b psd psu pend))
       (mkDisk (alter sync_data (segmentName b) (files (disk (conc mx segs b psd psu pend)))) [])); [apply goes_set_files|].
  unfold bind, gets in H. cbn [conc wal activeOpen] in H. unfold try_call, syscall, bind, gets, modify, ret in H.
  cbn in H. injection H as Hw Hz Hf. unfold conc, disk_of. cbn [disk files wal]. by rewrite Hf, Hw, Hz.
Qed.

Lemma goes_disk {A} (k : Disk -> M Log walError A) v l l' :
  (forall cs, goes Q (k (mkDisk (files (disk l)) cs)) v l l') -> goes Q (bind (gets disk) k) v l l'.
Proof. intros Hk cs. wp_step. wp_step. apply Hk. Qed.

Lemma goes_eq {A} (m : M Log walError A) v v' l l1 l2 :
  goes Q m v l l1 -> (inr (A := walError) v, l1) = (inr v', l2) -> goes Q m v' l l2.
Proof. by intros ? [= <- <-]. Qed.

(** The file of the next segment is not there yet. *)
Lemma next_segment_new (segs : list (N * list bytes)) b ps :
  log_wf segs b ps -> ps <> [] -> 
  (<[segmentName b := mkFile (frames ps) (length (frames ps))]> (closed_files segs) : gmap string File)
    !! segmentName (b + N.of_nat (length ps)) = None.
Proof.
  intros Hwf Hne. assert (Hpos : (0 < length ps)%nat) by (destruct ps; [done|cbn; lia]).
  assert (Hb : is_u64 b) by (apply (chain_u64 segs b ps); [done|set_solver]).
  rewrite lookup_insert_ne by (intros E%segmentName_inj; [lia|done|apply Hwf]).
  apply closed_files_lookup, segmentName_fresh; [apply Hwf|]. intros b0 H0.
  pose proof (chain_lt _ _ _ (wf_chain _ _ _ Hwf) H0). lia.
Qed.

(** From the flush of the old segment on, the disk is that of the old log or that
    of the new one. *)
Lemma goes_rotate mx segs b psd psu pend :
  let ps := psd ++ psu ++ pend in
  let l' := conc mx (segs ++ [(b, ps)]) (b + N.of_nat (length ps))%N [] [] [] in
  log_wf segs b ps -> ps <> [] ->
  Q (conc mx segs b psd (psu ++ pend) []) -> Q (conc mx segs b ps [] []) -> Q l' ->
  goes Q rotateLocked tt (conc mx segs b psd psu pend) l'.
Proof.
  cbv zeta. set (ps := psd ++ psu ++ pend). intros Hwf Hne Q1 Q2 Q3.
  assert (Hfresh : segmentName b ∉ map (fun s => segmentName s.1) segs).
  { apply segmentName_fresh; [apply (chain_u64 segs b ps); [done|set_solver]|].
    intros b0. apply chain_lt, Hwf. }
  unfold rotateLocked. eapply goes_bind; [by apply goes_flush|].
  eapply goes_bind; [by apply goes_fullSync|]. fold ps. unfold file_Close.
  eapply goes_bind; [eapply goes_bind; [by apply goes_gets|]|].
  { cbn [conc wal activeOpen]. eapply goes_bind; [apply goes_set_wal|]. by apply (goes_call _ _ _ _ Q2). }
  eapply goes_bind; [by apply goes_gets|]. unfold createSegmentLocked.
  eapply goes_bind; [by apply (goes_call _ _ _ _ Q2)|]. apply goes_disk. intros cs.
  cbn [conc wal disk files with_open nextLSN disk_of app]. rewrite !app_nil_r, next_segment_new by done.
  eapply goes_bind; [apply goes_set_files|]. eapply goes_eq; [eapply goes_bind; [|apply goes_set_wal]|].
  - apply (goes_call _ _ _ _ Q3). cbn. unfold disk_of. cbn [files]. rewrite closed_files_snoc by done.
    by rewrite ?app_nil_r.
  - unfold conc, disk_of. cbn. rewrite closed_files_snoc by done. rewrite map_app. cbn. by rewrite N.add_0_r, app_nil_r.
Qed.

Lemma goes_append mx segs b psd psu pend p :
  let ps := psd ++ psu ++ pend in
  let l' := if would_rotate mx ps p
            then conc mx (segs ++ [(b, ps)]) (b + N.of_nat (length ps))%N [] [] [p]
            else conc mx segs b psd psu (pend ++ [p]) in
  log_wf segs b ps -> valid_payload p -> is_u64 (b + N.of_nat (length ps) + 1) ->
  Q (conc mx segs b psd (psu ++ pend) []) -> Q (conc mx segs b ps [] []) ->
  (ps <> [] -> Q (conc mx (segs ++ [(b, ps)]) (b + N.of_nat (length ps))%N [] [] [])) ->
  goes Q (appendLocked p) (b + N.of_nat (length ps))%N (conc mx segs b psd psu pend) l'.
Proof.
  cbv zeta. set (ps := psd ++ psu ++ pend). intros Hwf Hp Hnext Q1 Q2 Q3.
  pose proof (append_conc mx segs b psd psu pend p Hwf Hp Hnext) as Happ. cbv zeta in Happ. fold ps in Happ.
  pose proof (valid_length_pos p Hp). pose proof Hp as [_ Hmax]. unfold appendLocked in Happ |- *.
  eapply goes_bind; [by apply goes_gets|]. cbn [conc wal closed activeSize maxSegmentSize].
  rewrite (proj2 (Nat.eqb_neq _ _)), (proj2 (N.ltb_ge _ _)) by lia. fold ps.
  unfold bind at 1, gets at 1 in Happ. cbn [conc wal closed activeSize maxSegmentSize] in Happ.
  rewrite (proj2 (Nat.eqb_neq _ _)), (proj2 (N.ltb_ge _ _)) in Happ by lia. fold ps in Happ.
  unfold would_rotate in *. destruct (_ && _) eqn:E.
  - assert (Hne : ps <> []) by (intros E0; rewrite E0 in E; done).
    eapply goes_bind; [by apply goes_rotate; [..|apply Q3]|]. fold ps.
    eapply goes_bind; [by apply goes_gets|]. eapply goes_eq.
    { eapply goes_bind; [apply goes_set_wal|apply goes_ret]. }
    erewrite bind_ok in Happ by (by apply rotate_conc). fold ps in Happ. exact Happ.
  - eapply goes_bind; [apply goes_ret|]. eapply goes_bind; [by apply goes_gets|]. eapply goes_eq.
    { eapply goes_bind; [apply goes_set_wal|apply goes_ret]. }
    erewrite bind_ok in Happ by done. exact Happ.
Qed.

Lemma goes_Sync mx segs b psd psu pend :
  Q (conc mx segs b psd (psu ++ pend) []) ->
  goes Q Sync tt (conc mx segs b psd psu pend) (conc mx segs b (psd ++ psu ++ pend) [] []).
Proof.
  intros HQ. unfold Sync. eapply goes_bind; [by apply goes_gets|]. cbn [conc wal closed].
  fold (conc mx segs b psd psu pend). eapply goes_bind; [by apply goes_flush|].
  eapply goes_bind; [by apply goes_gets|]. cbn [conc wal closed].
  fold (conc mx segs b psd (psu ++ pend) []). by apply goes_fullSync.
Qed.
End Methods.

(** ** [AppendSync] *)

(** A healthy log that holds what [a] holds as durable, and of [a] and the
    record [p] behind it a beginning. *)
Definition part (a : abs_log) (p : bytes) (lw : Log) : Prop :=
  exists aw, wal_represents lw aw /\ a_first aw = a_first a /\
    a_recs aw `prefix_of` a_recs a ++ [p] /\ (a_durable a <= a_durable aw)%nat.

Lemma part_conc segs b psd psu pend p mx segs' b' psd' psu' :
  log_wf segs' b' (psd' ++ psu') -> first_lsn segs' b' = first_lsn segs b ->
  all_records segs' (psd' ++ psu') `prefix_of` all_records segs (psd ++ psu ++ pend) ++ [p] ->
  (length (all_records segs psd) <= length (all_records segs' psd'))%nat ->
  part (abs_of segs b psd psu pend) p (conc mx segs' b' psd' psu' []).
Proof.
  intros Hwf Hf Hp Hd. exists (abs_of segs' b' psd' psu' []). split.
  - exists mx, segs', b', psd', psu', []. rewrite app_nil_r. by split_and!.
  - unfold abs_of. cbn. rewrite app_nil_r. by split_and!.
Qed.

Lemma all_records_app segs ps qs : all_records segs (ps ++ qs) = all_records segs ps ++ qs.
Proof. unfold all_records. by rewrite app_assoc. Qed.

Lemma goes_append_sync l a p :
  wal_represents l a -> valid_payload p -> a_room a ->
  exists l', AppendSync p l = (inr (a_next a), l') /\ goes (part a p) (AppendSync p) (a_next a) l l'.
Proof.
  intros (mx & segs & b & psd & psu & pend & Hwf & -> & ->) Hp Hroom.
  unfold a_room in Hroom. rewrite a_next_abs_of in * by apply Hwf. set (ps := psd ++ psu ++ pend) in *.
  assert (Hsync : forall mx' segs' b' psd' psu' pend',
    appendLocked p (conc mx segs b psd psu pend) =
      (inr (b + N.of_nat (length ps))%N, conc mx' segs' b' psd' psu' pend') ->
    part (abs_of segs b psd psu pend) p (conc mx' segs' b' psd' (psu' ++ pend') []) ->
    goes (part (abs_of segs b psd psu pend) p) (appendLocked p) (b + N.of_nat (length ps))%N
      (conc mx segs b psd psu pend) (conc mx' segs' b' psd' psu' pend') ->
    exists l', AppendSync p (conc mx segs b psd psu pend) = (inr (b + N.of_nat (length ps))%N, l') /\
      goes (part (abs_of segs b psd psu pend) p) (AppendSync p) (b + N.of_nat (length ps))%N
        (conc mx segs b psd psu pend) l').
  { intros mx' segs' b' psd' psu' pend' Hrun HQ Hgo. eexists. split.
    - unfold AppendSync. erewrite bind_ok by exact Hrun. erewrite bind_ok by apply Sync_conc. done.
    - eapply goes_bind; [exact Hgo|]. eapply goes_bind; [by apply goes_Sync|apply goes_ret]. }
  pose proof (append_conc mx segs b psd psu pend p Hwf Hp Hroom) as Happ. cbv zeta in Happ. fold ps in Happ.
  assert (Hlen : (length (all_records segs psd) <= length (all_records segs ps))%nat).
  { unfold ps. rewrite all_records_app, length_app. lia. }
  assert (Hgo : goes (part (abs_of segs b psd psu pend) p) (appendLocked p) (b + N.of_nat (length ps))%N
    (conc mx segs b psd psu pend)
    (if would_rotate mx ps p then conc mx (segs ++ [(b, ps)]) (b + N.of_nat (length ps))%N [] [] [p]
     else conc mx segs b psd psu (pend ++ [p]))).
  { apply goes_append; [done..| | |intros Hne].
    - apply part_conc; [done|done|by apply prefix_app_r|done].
    - apply part_conc; rewrite ?app_nil_r; [done|done|by apply prefix_app_r|done].
    - apply part_conc; cbn [app]; rewrite ?all_records_snoc;
        [by apply log_wf_rotate|apply first_lsn_snoc|by apply prefix_app_r|done]. }
  destruct (would_rotate mx ps p) eqn:E; apply (Hsync _ _ _ _ _ _ Happ); [|exact Hgo| |exact Hgo].
  - assert (Hne : ps <> []) by (intros E0; rewrite E0 in E; done).
    pose proof (log_wf_rotate _ _ _ Hwf Hne) as Hwf'. apply part_conc; cbn [app].
    + apply (log_wf_snoc _ _ [] p); [done..|]. cbn. by rewrite N.add_0_r.
    + apply first_lsn_snoc.
    + rewrite (all_records_app _ [] [p]), all_records_snoc. done.
    + by rewrite all_records_snoc.
  - apply part_conc; [|done| |done].
    + rewrite !app_assoc. apply log_wf_snoc; rewrite <- ?app_assoc; done.
    + rewrite !app_assoc, (all_records_app segs _ [p]). by rewrite <- !app_assoc.
Qed.
