(* ===== verification/WalProps.v ===== *)
(** * WalProps: the guarantees of the write-ahead log

    What [WalSpec] shows of the methods, put together per guarantee: sequence
    numbers, durability across a crash, replay, truncation, rejected appends,
    and a failed write that loses a record acknowledged later. *)
From S2P Require Import Prelude Framing LogSpec Wal WalSpec WalFaults.

(** Collecting what a replay visits. *)
Lemma visit_all_collect rs acc : visit_all visit rs acc = (inr tt, acc ++ rs).
Proof.
  unfold visit_all. revert acc. induction rs as [|[lsn p] rs IH]; intros acc; cbn.
  - by rewrite app_nil_r.
  - unfold bind. cbn. rewrite IH. by rewrite <- app_assoc.
Qed.

Lemma Replay_represents l a from :
  wal_represents l a ->
  exists l', wal_represents l' (abs_flushed a) /\
    Replay from visit (l, []) = (inr tt, (l', a_from from a)).
Proof.
  intros Hl. destruct (wal_replay_law l a from visit [] Hl) as (l' & Hl' & Hrun).
  exists l'. split; [done|]. rewrite Hrun.
  fold (visit_all visit (a_from from a)). by rewrite visit_all_collect.
Qed.

Lemma a_from_0 a : a_from 0 a = number (a_first a) (a_recs a).
Proof. apply filter_all. intros. lia. Qed.

(** C14: durability. Kill a healthy log at any moment, losing any suffix of
    each file that was not flushed: [Open] succeeds, repairs the tail, and a
    replay then visits a prefix of the records, with their old LSNs, that
    holds every record that was durable and none that was never written. *)
Theorem crash_keeps_durable l a l1 mx :
  wal_represents l a -> wal_crash l l1 ->
  exists l2 k, Open mx l1 = (inr tt, l2) /\ (a_durable a <= k <= a_written a)%nat /\
    exists l3, Replay 0 visit (l2, []) = (inr tt, (l3, number (a_first a) (take k (a_recs a)))).
Proof.
  intros Hl Hc. destruct (wal_reopen_law l a l1 mx Hl Hc) as (l2 & a' & Ho & Hr & k & Hk & ->).
  exists l2, k. split; [done|]. split; [done|].
  destruct (Replay_represents _ _ 0 Hr) as (l3 & _ & Hrun). exists l3.
  by rewrite Hrun, a_from_0.
Qed.

(** A log with one durable record, one that was only written, and a crash in
    the middle of the second. *)
Definition crashed_log : Log :=
  mkLog (wal empty_log)
    (mkDisk {[ segmentName 1 := mkFile (frames [text "acked"] ++ take 3 (frame (text "torn"))) 16 ]} []).

Lemma crash_keeps_durable_witness :
  exists l2 k, Open 0 crashed_log = (inr tt, l2) /\ (1 <= k <= 2)%nat /\
    exists l3, Replay 0 visit (l2, []) =
      (inr tt, (l3, number 1 (take k [text "acked"; text "torn"; text "lost"]))).
Proof.
  apply (crash_keeps_durable (conc 100 [] 1 [text "acked"] [text "torn"] [text "lost"])
    (mkAbs 1 [text "acked"; text "torn"; text "lost"] 2 1) crashed_log 0).
  - exists 100, [], 1%N, [text "acked"], [text "torn"], [text "lost"]. split; [|done].
    split; [done| |done]. repeat constructor; by vm_compute.
  - split; [|done]. intros name. unfold conc, disk_of, closed_files.
    cbn [disk files crashed_log map list_to_map foldr].
    destruct (decide (name = segmentName 1)) as [->|Hne].
    + rewrite lookup_insert_eq, lookup_singleton_eq. exists 16%nat.
      split; [vm_compute; lia|by vm_compute].
    + rewrite lookup_insert_ne, lookup_singleton_ne by done. done.
Defined.

(** A crash that keeps everything. *)
Definition crash_none (fs : gmap string File) : gmap string File :=
  (fun f => mkFile (f_data f) (length (f_data f))) <$> fs.

Lemma crash_none_crash (d : Disk) :
  bool_decide (map_Forall (fun _ f => (f_synced f <= length (f_data f))%nat) (files d)) = true ->
  crash d (mkDisk (crash_none (files d)) []).
Proof.
  intros H%bool_decide_eq_true name. cbn [files]. unfold crash_none. rewrite lookup_fmap.
  destruct (files d !! name) as [f|] eqn:E; cbn; [|done]. exists (length (f_data f)).
  split; [split; [exact (H name f E)|done]|]. by rewrite firstn_all.
Qed.

Lemma represents_clean l a cs : wal_represents l a -> clean (faulty cs l) = l.
Proof. by intros (mx & segs & b & psd & psu & pend & _ & -> & _). Qed.

Lemma prefix_take {A} (k : nat) (xs ys : list A) :
  xs `prefix_of` ys -> (k <= length xs)%nat -> take k xs = take k ys.
Proof. intros [zs ->] Hk. by rewrite take_app_le. Qed.

(** What a failed [AppendSync] leaves opens again. *)
Lemma part_reopens a p lw lf l1 mx :
  part a p lw -> short_of lw lf -> wal_crash lf l1 ->
  exists l2 k, Open mx l1 = (inr tt, l2) /\ (a_durable a <= k <= length (a_recs a) + 1)%nat /\
    exists l3, Replay 0 visit (l2, []) = (inr tt, (l3, number (a_first a) (take k (a_recs a ++ [p])))).
Proof.
  intros (aw & Hw & Hf & Hp & Hd) Hsh [Hc Ho].
  destruct (wal_reopen_law lw aw l1 mx Hw (conj (Hsh _ Hc) Ho)) as (l2 & a' & Hop & Hr & k & Hk & ->).
  pose proof (wal_represents_wf _ _ Hw) as [_ Hle _]. pose proof (prefix_length _ _ Hp) as Hlen.
  rewrite length_app in Hlen. cbn in Hlen. exists l2, k. split; [done|]. split; [lia|].
  destruct (Replay_represents _ _ 0 Hr) as (l3 & _ & Hrun). exists l3.
  rewrite Hrun, a_from_0. cbn [a_first a_recs]. rewrite Hf. by rewrite (prefix_take k _ _ Hp) by lia.
Qed.

(** C15: on a log on which no earlier call failed, [AppendSync] acknowledges only
    what is durable, whatever the system calls it makes do ([cs]). If it returns
    without an error it returns the next LSN, and the record and every record
    before it are on stable storage under the LSNs they were given. If it
    returns an error, a crash still leaves a log that opens again and holds, as
    before, everything that was durable, and beyond that only a beginning of
    the records appended. It returns an error only if a call fails. (A second
    [AppendSync] after a failed one can acknowledge a record that is lost, see
    [retried_write_loses_acknowledged_record].) *)
Theorem AppendSync_durable l a p cs :
  wal_represents l a -> valid_payload p -> a_room a ->
  let '(r, l') := AppendSync p (faulty cs l) in
  match r with
  | inr lsn => lsn = a_next a /\ exists a', wal_represents (clean l') a' /\
      a_first a' = a_first a /\ a_recs a' = a_recs a ++ [p] /\
      a_durable a' = length (a_recs a') /\ a_next a' = (a_next a + 1)%N
  | inl _ => (exists n, IoFail n ∈ cs) /\ forall l1 mx, wal_crash l' l1 ->
      exists l2 k, Open mx l1 = (inr tt, l2) /\ (a_durable a <= k <= length (a_recs a) + 1)%nat /\
        exists l3, Replay 0 visit (l2, []) =
          (inr tt, (l3, number (a_first a) (take k (a_recs a ++ [p]))))
  end.
Proof.
  intros Hl Hp Hroom. destruct (goes_append_sync l a p Hl Hp Hroom) as (l0 & Hrun & Hgo).
  destruct (wal_append_sync_law l a p Hl Hp Hroom) as (l0' & a' & Hrun' & Hr & [Hf Hrec _ _] & Hs).
  rewrite Hrun in Hrun'. injection Hrun' as <-. specialize (Hgo cs). unfold wp in Hgo.
  destruct (AppendSync p (faulty cs l)) as [[e|lsn] l'] eqn:E; cbn [fst snd] in Hgo.
  - destruct Hgo as (Hfail & lw & Hpart & Hsh). split; [done|]. intros l1 mx Hc. by eapply part_reopens.
  - destruct Hgo as (-> & cs' & _ & ->). split; [done|]. exists a'. rewrite (represents_clean _ _ _ Hr).
    split_and!; try done; [by rewrite Hs|]. unfold a_next. rewrite Hf, Hrec, length_app. cbn. lia.
Qed.

(** Once every call works; once the write stops after five bytes. *)
Lemma AppendSync_durable_witness :
  let l := conc 100 [] 1 [] [text "alpha"] [] in
  (exists l' a', AppendSync (text "beta") l = (inr 2%N, l') /\ wal_represents (clean l') a' /\
    a_recs a' = [text "alpha"; text "beta"] /\ a_durable a' = 2%nat) /\
  exists l' l1 l2 k, AppendSync (text "beta") (faulty [IoFail 5] l) = (inl (ErrIO "write"), l') /\
    wal_crash l' l1 /\ Open 0 l1 = (inr tt, l2) /\ (0 <= k <= 2)%nat.
Proof.
  intros l. assert (Hl : wal_represents l (mkAbs 1 [text "alpha"] 1 0)).
  { exists 100, [], 1%N, [], [text "alpha"], []. split; [|done].
    split; [done| |done]. repeat constructor; by vm_compute. }
  assert (Hp : valid_payload (text "beta")) by (by vm_compute).
  assert (Hroom : a_room (mkAbs 1 [text "alpha"] 1 0)) by (by vm_compute). split.
  - pose proof (AppendSync_durable l _ (text "beta") [] Hl Hp Hroom) as H.
    destruct (AppendSync (text "beta") (faulty [] l)) as [r l'] eqn:E.
    assert (Hr : r = inr 2%N) by (apply (f_equal fst) in E; cbn [fst] in E; rewrite <- E; vm_compute; reflexivity).
    subst r. destruct H as (_ & a' & H1 & _ & H2 & H3 & _). exists l', a'.
    rewrite H2 in H3. exact (conj E (conj H1 (conj H2 H3))).
  - pose proof (AppendSync_durable l _ (text "beta") [IoFail 5] Hl Hp Hroom) as H.
    destruct (AppendSync (text "beta") (faulty [IoFail 5] l)) as [r l'] eqn:E.
    assert (Hr : r = inl (ErrIO "write")) by (apply (f_equal fst) in E; cbn [fst] in E; rewrite <- E; vm_compute; reflexivity).
    subst r. destruct H as [_ H].
    set (l1 := mkLog (wal l') (mkDisk (crash_none (files (disk l'))) [])).
    assert (Hc : wal_crash l' l1) by (split; [apply crash_none_crash|reflexivity];
      apply (f_equal snd) in E; cbn [snd] in E; rewrite <- E; vm_compute; reflexivity).
    destruct (H l1 0 Hc) as (l2 & k & H1 & H2 & _). exists l', l1, l2, k.
    exact (conj eq_refl (conj Hc (conj H1 H2))).
Defined.

(** Appends between the two halves of [Sync]. *)
Fixpoint appends (ps : list bytes) : io unit :=
  match ps with [] => ret tt | p :: ps => Append p ;;; appends ps end.

Lemma appends_spec ps l a :
  wal_represents l a -> Forall valid_payload ps ->
  is_u64 (a_next a + N.of_nat (length ps)) ->
  exists l' a', appends ps l = (inr tt, l') /\ wal_represents l' a' /\
    a_first a' = a_first a /\ a_recs a' = a_recs a ++ ps /\ (a_written a <= a_written a')%nat.
Proof.
  intros Hl Hv. revert l a Hl. induction Hv as [|p ps Hp Hv IH]; intros l a Hl Hn.
  - exists l, a. rewrite app_nil_r. by split_and!.
  - cbn [length] in Hn.
    destruct (wal_append_law l a p Hl Hp) as (l1 & a1 & H1 & Hr1 & [Hf Hrec Hw _]).
    { unfold a_room, is_u64 in *. lia. }
    destruct (IH l1 a1 Hr1) as (l2 & a2 & H2 & Hr2 & Hf2 & Hrec2 & Hw2).
    { unfold a_next, is_u64 in *. rewrite Hf, Hrec, length_app. cbn [length]. lia. }
    exists l2, a2. cbn [appends]. erewrite bind_ok by exact H1.
    split_and!; [done|done|congruence| |lia].
    by rewrite Hrec2, Hrec, <- app_assoc.
Qed.

Lemma fullSync_represents l a :
  wal_represents l a ->
  exists l' d, fullSync l = (inr tt, l') /\ (a_written a <= d)%nat /\
    wal_represents l' (mkAbs (a_first a) (a_recs a) (a_written a) d).
Proof.
  intros (mx & segs & b & psd & psu & pend & Hwf & -> & ->). rewrite fullSync_conc.
  eexists _, _. split; [done|]. split; [reflexivity|].
  exists mx, segs, b, (psd ++ psu), [], pend. cbn [app]. rewrite <- app_assoc.
  split; [done|]. split; [done|]. unfold abs_of. cbn. by rewrite app_nil_r, <- app_assoc.
Qed.

Lemma flush_represents l a :
  wal_represents l a ->
  exists l', flushBufferLocked l = (inr tt, l') /\ wal_represents l' (abs_flushed a).
Proof.
  intros (mx & segs & b & psd & psu & pend & Hwf & -> & ->). rewrite flush_conc.
  eexists. split; [done|]. exists mx, segs, b, psd, (psu ++ pend), [].
  rewrite app_nil_r. split; [done|]. split; [done|]. unfold abs_flushed, abs_of. cbn.
  by rewrite app_nil_r.
Qed.

(** [Sync] keeps its promise while other writers keep appending between
    the moment it drains the buffer and the moment it flushes the file,
    rotations included: when it returns, everything appended before it began
    is durable. *)
Theorem Sync_interleaved l a ps :
  wal_represents l a -> Forall valid_payload ps ->
  is_u64 (a_next a + N.of_nat (length ps)) ->
  exists l' a', (flushBufferLocked ;;; appends ps ;;; fullSync) l = (inr tt, l') /\
    wal_represents l' a' /\ a_recs a' = a_recs a ++ ps /\
    (length (a_recs a) <= a_durable a')%nat.
Proof.
  intros Hl Hv Hn. destruct (flush_represents l a Hl) as (l1 & H1 & Hr1).
  destruct (appends_spec ps l1 _ Hr1 Hv Hn) as (l2 & a2 & H2 & Hr2 & Hf2 & Hrec2 & Hw2).
  destruct (fullSync_represents l2 a2 Hr2) as (l3 & d & H3 & Hd & Hr3).
  eexists l3, _. erewrite bind_ok by exact H1. erewrite bind_ok by exact H2.
  split; [done|]. split; [done|]. cbn in *. split; [done|lia].
Qed.

Lemma Sync_interleaved_witness :
  exists l' a', (flushBufferLocked ;;; appends [text "b"; text "c"] ;;; fullSync)
      (conc 10 [] 1 [] [] [text "a"]) = (inr tt, l') /\
    wal_represents l' a' /\ a_recs a' = [text "a"; text "b"; text "c"] /\
    (1 <= a_durable a')%nat.
Proof.
  apply (Sync_interleaved (conc 10 [] 1 [] [] [text "a"]) (mkAbs 1 [text "a"] 0 0)
           [text "b"; text "c"]).
  - exists 10, [], 1%N, [], [], [text "a"]. split; [|done].
    split; [done| |done]. repeat constructor; by vm_compute.
  - repeat constructor; by vm_compute.
  - by vm_compute.
Defined.

(** [Replay] is exact: the callback runs once for every record the log
    holds from the cutoff on, in the order they were appended and with the
    LSN each was given; skipping whole segments loses none; the callback's
    first error stops the replay and is its result. *)
Theorem Replay_exact {St Err} l a from (fn : N -> bytes -> M St Err unit) s :
  wal_represents l a ->
  exists l', wal_represents l' (abs_flushed a) /\
    Replay from fn (l, s) =
    (callback_result (for_each (fun r => fn r.1 r.2) (a_from from a) s).1,
     (l', (for_each (fun r => fn r.1 r.2) (a_from from a) s).2)).
Proof. intros Hl. exact (wal_replay_law l a from fn s Hl). Qed.

Lemma Replay_exact_witness :
  let l := conc 20 [(1%N, [text "a"; text "b"])] 3 [text "c"] [] [text "d"] in
  exists l', wal_represents l' (mkAbs 1 [text "a"; text "b"; text "c"; text "d"] 4 3) /\
    Replay 2 visit (l, []) =
    (inr tt, (l', [(2%N, text "b"); (3%N, text "c"); (4%N, text "d")])).
Proof.
  apply (Replay_exact _ (mkAbs 1 [text "a"; text "b"; text "c"; text "d"] 3 3) 2 visit []).
  exists 20, [(1%N, [text "a"; text "b"])], 3%N, [text "c"], [], [text "d"]. split; [|done].
  split; [by vm_compute| |done]. repeat constructor; by vm_compute.
Defined.

(** C26: [TruncateBefore lsn] never drops a record at or after [lsn]: a replay
    from any cutoff at or above [lsn] visits the same records with the same
    LSNs as before, and the next LSN is unchanged. *)
Theorem TruncateBefore_keeps l a lsn from :
  wal_represents l a -> (lsn <= from)%N ->
  exists l' a', TruncateBefore lsn l = (inr tt, l') /\ wal_represents l' a' /\
    a_next a' = a_next a /\ a_from from a' = a_from from a.
Proof.
  intros Hl Hfrom. destruct (wal_truncate_law l a lsn Hl) as (l' & a' & Hrun & Hr & Ht).
  pose proof (wal_represents_wf _ _ Hl) as Hwf.
  exists l', a'. split; [done|]. split; [done|]. split; [|by eapply a_from_truncated].
  destruct Ht as (j & Hj & _ & ->). destruct Hwf as [Hd Hw _].
  unfold a_next. cbn [a_first a_recs]. rewrite length_drop. lia.
Qed.

Lemma TruncateBefore_keeps_witness :
  let l := conc 20 [(1%N, [text "a"; text "b"])] 3 [text "c"] [] [] in
  exists l' a', TruncateBefore 3 l = (inr tt, l') /\ wal_represents l' a' /\
    a_next a' = 4%N /\ a_from 3 a' = [(3%N, text "c")].
Proof.
  apply (TruncateBefore_keeps _ (mkAbs 1 [text "a"; text "b"; text "c"] 3 3) 3 3);
    [|lia].
  exists 20, [(1%N, [text "a"; text "b"])], 3%N, [text "c"], [], []. split; [|done].
  split; [by vm_compute| |done]. repeat constructor; by vm_compute.
Defined.

(** A rejected append changes nothing: on a closed log, for an empty
    payload and for one over the size limit, [Append] returns the matching
    error, checked in this order, and leaves the log and the disk as they
    were. *)
Theorem Append_rejects (l : Log) p :
  closed (wal l) = true \/ ~ valid_payload p ->
  Append p l =
  (inl (if closed (wal l) then ErrClosed
        else if (length p =? 0)%nat then ErrEmptyPayload else ErrRecordTooLarge), l).
Proof.
  intros H. unfold Append, appendLocked. erewrite bind_ok; [|reflexivity].
  destruct (closed (wal l)); [done|].
  destruct H as [|H]; [done|].
  destruct (Nat.eqb_spec (length p) 0) as [|Hne]; [done|].
  destruct (N.ltb_spec MaxRecordSize (N.of_nat (length p))) as [|Hle]; [done|].
  exfalso. apply H. split; [|done]. by intros ->.
Qed.

Lemma Append_rejects_witness :
  Append [] (conc 20 [] 1 [] [] []) = (inl ErrEmptyPayload, conc 20 [] 1 [] [] []).
Proof.
  apply (Append_rejects (conc 20 [] 1 [] [] []) []). right. intros [H _]. by apply H.
Defined.

(** Segment files sort and parse as their base LSN: the name of a segment
    parses back to its base, for every 64-bit base. *)
Theorem segmentName_roundtrip b :
  is_u64 b -> parseSegment (segmentName b) = Some b.
Proof. apply parseSegment_name. Qed.

Lemma segmentName_roundtrip_witness : parseSegment (segmentName 18446744073709551615) =
  Some 18446744073709551615%N.
Proof. apply segmentName_roundtrip. by vm_compute. Defined.

(** A short write that is retried hides a record acknowledged later. The
    first [AppendSync] fails after three bytes reached the file and reports
    the error; the second one writes the buffer again behind those bytes and
    returns success, with LSN 2. Reopening the log finds no record at all. *)
Theorem retried_write_loses_acknowledged_record :
  let disk0 := mkDisk ∅ (repeat IoOk 4 ++ [IoFail 3]) in
  let l1 := (Open 100 (mkLog (wal empty_log) disk0)).2 in
  let first := AppendSync (text "one") l1 in
  let second := AppendSync (text "two") first.2 in
  let reopened := Open 100 second.2 in
  first.1 = inl (ErrIO "write") /\ second.1 = inr 2%N /\
  reopened.1 = inr tt /\ (Replay 0 visit (reopened.2, [])).1 = inr tt /\
  (Replay 0 visit (reopened.2, [])).2.2 = [].
Proof. vm_compute. by split_and!. Qed.

(** On macOS a flush works when the drive was told to flush its cache, or when
    it cannot be told and a plain flush works; no other error is passed over. *)
Theorem fullSync_darwin_result fcntl fsync :
  fullSync_darwin fcntl fsync = None <->
  fcntl = None \/ (fcntl = Some ENOTSUP \/ fcntl = Some EINVAL) /\ fsync = None.
Proof.
  destruct fcntl as [[]|]; cbn; split; intros H; try done; try (by left);
    try (right; split; [|done]; by (left + right)); try (by destruct H as [|[_ ?]]).
  by destruct H as [|[[|] _]].
Qed.
