(* ===== verification/Utf8.v ===== *)
(** * Utf8: runes, as package [unicode/utf8] reads and writes them

    Strings of the program are sequences of bytes. Their encoding matters where
    they leave the process: in the JSON of the log and of snapshots, and in the
    protocol, whose text fields have to be valid UTF-8. *)
From S2P Require Import Prelude.

Definition between (lo hi : N) (c : byte) : bool :=
  (lo <=? N_of_ascii c)%N && (N_of_ascii c <=? hi)%N.

Definition is_ascii (c : byte) : bool := (N_of_ascii c <? 128)%N.

(** A byte that continues a rune. *)
Definition cont (c : byte) : bool := between 128 191 c.

(** The second byte has a narrower range behind some first ones: no overlong
    encodings, no surrogates, nothing above U+10FFFF. *)
Definition second (c c1 : byte) : bool :=
  let b := N_of_ascii c in
  let lo := if (b =? 224)%N then 160%N else if (b =? 240)%N then 144%N else 128%N in
  let hi := if (b =? 237)%N then 159%N else if (b =? 244)%N then 143%N else 191%N in
  between lo hi c1.

(** The size that [utf8.DecodeRune] reports, and 0 where it reports
    [RuneError] for something that is not an encoding of it. *)
Definition rune_size (s : bytes) : nat :=
  match s with
  | [] => 0
  | c :: t =>
      if is_ascii c then 1
      else if between 194 223 c then
        match t with c1 :: _ => if cont c1 then 2 else 0 | _ => 0 end
      else if between 224 239 c then
        match t with c1 :: c2 :: _ => if second c c1 && cont c2 then 3 else 0 | _ => 0 end
      else if between 240 244 c then
        match t with
        | c1 :: c2 :: c3 :: _ => if second c c1 && cont c2 && cont c3 then 4 else 0
        | _ => 0
        end
      else 0
  end.

(** [utf8.Valid]. *)
Fixpoint valid_utf8 (s : bytes) : bool :=
  match s with
  | [] => true
  | _ :: t =>
      match rune_size s, t with
      | 1%nat, t => valid_utf8 t
      | 2%nat, _ :: t => valid_utf8 t
      | 3%nat, _ :: _ :: t => valid_utf8 t
      | 4%nat, _ :: _ :: _ :: t => valid_utf8 t
      | _, _ => false
      end
  end.

(** [utf8.ValidString]. *)
Definition valid_string (s : string) : bool := valid_utf8 (list_ascii_of_string s).

(** [utf8.RuneError], encoded. *)
Definition rune_error : bytes := map ascii_of_N [239; 191; 189]%N.

(** [utf8.AppendRune]. *)
Definition encode_rune (r : N) : bytes :=
  if (r <? 128)%N then [ascii_of_N r]
  else if (r <? 2048)%N then [ascii_of_N (192 + r / 64); ascii_of_N (128 + r mod 64)]
  else if ((55296 <=? r) && (r <? 57344) || (1114111 <? r))%N then rune_error
  else if (r <? 65536)%N then
    [ascii_of_N (224 + r / 4096); ascii_of_N (128 + r / 64 mod 64); ascii_of_N (128 + r mod 64)]
  else
    [ascii_of_N (240 + r / 262144); ascii_of_N (128 + r / 4096 mod 64);
     ascii_of_N (128 + r / 64 mod 64); ascii_of_N (128 + r mod 64)].

(** ** Lemmas *)

(** What a rune of several bytes looks like. *)
Variant rune_at : bytes -> nat -> Prop :=
  | rune_bad s : rune_at s 0
  | rune_1 c t : is_ascii c = true -> rune_at (c :: t) 1
  | rune_2 c c1 t : is_ascii c = false -> rune_at (c :: c1 :: t) 2
  | rune_3 c c1 c2 t : is_ascii c = false -> rune_at (c :: c1 :: c2 :: t) 3
  | rune_4 c c1 c2 c3 t : is_ascii c = false -> rune_at (c :: c1 :: c2 :: c3 :: t) 4.

Lemma rune_sizeP s : rune_at s (rune_size s).
Proof.
  destruct s as [|c t]; [constructor|]. unfold rune_size.
  destruct (is_ascii c) eqn:Ea; [by constructor|].
  repeat case_match; by constructor.
Qed.

(** The size of a rune depends on its bytes only. *)
Lemma rune_size_app s t : rune_size s <> 0%nat -> rune_size (s ++ t) = rune_size s.
Proof.
  unfold rune_size. destruct s as [|c s]; [done|]. cbn [app].
  destruct (is_ascii c); [done|]. destruct (between 194 223 c).
  { by destruct s. }
  destruct (between 224 239 c).
  { by destruct s as [|? [|? ?]]. }
  destruct (between 240 244 c); [|done]. by destruct s as [|? [|? [|? ?]]].
Qed.

Lemma valid_utf8_cons c t :
  valid_utf8 (c :: t) = true ->
  rune_size (c :: t) <> 0%nat /\ valid_utf8 (drop (rune_size (c :: t)) (c :: t)) = true.
Proof.
  cbn [valid_utf8]. pose proof (rune_sizeP (c :: t)) as Hr.
  destruct (rune_size (c :: t)) as [|[|[|[|[|n]]]]]; inversion Hr; subst; try done.
Qed.

Lemma rune_size_ascii c t : is_ascii c = true -> rune_size (c :: t) = 1%nat.
Proof. intros H. unfold rune_size. by rewrite H. Qed.
