(* ===== verification/Json.v ===== *)
(** * Json: the text format of package [encoding/json]

    Values as the scanner of the package sees them: a string or a number is
    kept as the bytes between its delimiters, and read when a field wants it.
    [print] is the compact output of [json.Marshal], [parse] what
    [json.Unmarshal] accepts; [quote] and [unquote], [format_int], [ParseInt]
    and [ParseUint10], [base64] and [unbase64] are the conversions of texts,
    numbers and byte slices. *)
From stdpp Require Import pretty.
From S2P Require Import Prelude Utf8 Job Framing LogSpec Wal.

#[local] Open Scope char_scope.

#[warnings="-register-all"]
Inductive json :=
  | JNull
  | JBool (b : bool)
  | JNum (literal : bytes)
  | JStr (raw : bytes)                    (** between the quotes *)
  | JArr (elems : list json)
  | JObj (members : list (bytes * json)).

(** ** Texts *)

Definition quotation : byte := "034".
Definition hex_digit (n : N) : byte :=
  ascii_of_N (if (n <? 10)%N then 48 + n else 87 + n).

(** What [encoding/json] writes for an ASCII byte, HTML characters escaped. *)
Definition escape (c : byte) : bytes :=
  if Ascii.eqb c quotation || Ascii.eqb c "\" then ["\"; c]
  else if Ascii.eqb c "008" then ["\"; "b"]
  else if Ascii.eqb c "012" then ["\"; "f"]
  else if Ascii.eqb c "010" then ["\"; "n"]
  else if Ascii.eqb c "013" then ["\"; "r"]
  else if Ascii.eqb c "009" then ["\"; "t"]
  else if (N_of_ascii c <? 32)%N || Ascii.eqb c "<" || Ascii.eqb c ">" || Ascii.eqb c "&" then
    ["\"; "u"; "0"; "0"; hex_digit (N_of_ascii c / 16); hex_digit (N_of_ascii c mod 16)]
  else [c].

(** U+2028 and U+2029 are escaped too. *)
Definition escape_rune3 (c c1 c2 : byte) : bytes :=
  if Ascii.eqb c "226" && Ascii.eqb c1 "128" && (Ascii.eqb c2 "168" || Ascii.eqb c2 "169")
  then ["\"; "u"; "2"; "0"; "2"; hex_digit (N_of_ascii c2 mod 16)]
  else [c; c1; c2].

(** [appendString], without the quotes. *)
Fixpoint quote (s : bytes) : bytes :=
  match s with
  | [] => []
  | c :: t =>
      match rune_size s, t with
      | 1%nat, t => escape c ++ quote t
      | 2%nat, c1 :: t => c :: c1 :: quote t
      | 3%nat, c1 :: c2 :: t => escape_rune3 c c1 c2 ++ quote t
      | 4%nat, c1 :: c2 :: c3 :: t => c :: c1 :: c2 :: c3 :: quote t
      | _, t => ["\"; "u"; "f"; "f"; "f"; "d"] ++ quote t
      end
  end.

Definition hex_value (c : byte) : option N :=
  let n := N_of_ascii c in
  if between 48 57 c then Some (n - 48)%N
  else if between 97 102 c then Some (n - 87)%N
  else if between 65 70 c then Some (n - 55)%N
  else None.

(** [getu4], behind the letter [u]. *)
Definition hex4 (a b c d : byte) : option N :=
  a ← hex_value a; b ← hex_value b; c ← hex_value c; d ← hex_value d;
  Some (4096 * a + 256 * b + 16 * c + d)%N.

Definition simple_escape (c : byte) : option byte :=
  if Ascii.eqb c quotation || Ascii.eqb c "\" || Ascii.eqb c "/" then Some c
  else if Ascii.eqb c "b" then Some "008"
  else if Ascii.eqb c "f" then Some "012"
  else if Ascii.eqb c "n" then Some "010"
  else if Ascii.eqb c "r" then Some "013"
  else if Ascii.eqb c "t" then Some "009"
  else None.

(** A string literal behind its opening quote: what is up to the closing one,
    and what follows it. *)
Fixpoint scan_string (s : bytes) : option (bytes * bytes) :=
  match s with
  | [] => None
  | c :: t =>
      if Ascii.eqb c quotation then Some ([], t)
      else if Ascii.eqb c "\" then
        match t with
        | [] => None
        | e :: t =>
            if Ascii.eqb e "u" then
              match t with
              | h1 :: h2 :: h3 :: h4 :: t =>
                  _ ← hex4 h1 h2 h3 h4; '(raw, rest) ← scan_string t;
                  Some (c :: e :: h1 :: h2 :: h3 :: h4 :: raw, rest)
              | _ => None
              end
            else _ ← simple_escape e; '(raw, rest) ← scan_string t; Some (c :: e :: raw, rest)
        end
      else if (N_of_ascii c <? 32)%N then None
      else '(raw, rest) ← scan_string t; Some (c :: raw, rest)
  end.

Definition is_surrogate (r : N) : bool := ((55296 <=? r) && (r <? 57344))%N.

(** [utf16.DecodeRune], where it is not [RuneError]. *)
Definition surrogates (r1 r2 : N) : option N :=
  if ((55296 <=? r1) && (r1 <? 56320) && (56320 <=? r2) && (r2 <? 57344))%N
  then Some (1024 * (r1 - 55296) + (r2 - 56320) + 65536)%N else None.

(** [unquoteBytes] on what [scan_string] lets through. *)
Fixpoint unquote (s : bytes) : bytes :=
  match s with
  | [] => []
  | c :: t =>
      if Ascii.eqb c "\" then
        match t with
        | [] => []
        | e :: t =>
            if Ascii.eqb e "u" then
              match t with
              | h1 :: h2 :: h3 :: h4 :: t =>
                  let r := default 0%N (hex4 h1 h2 h3 h4) in
                  if is_surrogate r then
                    match t with
                    | b :: u :: g1 :: g2 :: g3 :: g4 :: t' =>
                        match (if Ascii.eqb b "\" && Ascii.eqb u "u" then
                                 r2 ← hex4 g1 g2 g3 g4; surrogates r r2 else None) with
                        | Some r => encode_rune r ++ unquote t'
                        | None => rune_error ++ unquote t
                        end
                    | _ => rune_error ++ unquote t
                    end
                  else encode_rune r ++ unquote t
              | _ => []
              end
            else default c (simple_escape e) :: unquote t
        end
      else
        match rune_size s, t with
        | 1%nat, t => c :: unquote t
        | 2%nat, c1 :: t => c :: c1 :: unquote t
        | 3%nat, c1 :: c2 :: t => c :: c1 :: c2 :: unquote t
        | 4%nat, c1 :: c2 :: c3 :: t => c :: c1 :: c2 :: c3 :: unquote t
        | _, t => rune_error ++ unquote t
        end
  end.

(** ** Numbers *)

(** [strconv.AppendInt] and [AppendUint], to base ten. *)
Definition format_int (n : Z) : bytes := list_ascii_of_string (pretty n).
Definition format_uint (n : N) : bytes := list_ascii_of_string (pretty n).

Definition is_digit (c : byte) : bool := between 48 57 c.

Fixpoint span_digits (s : bytes) : bytes * bytes :=
  match s with
  | c :: t => if is_digit c then let '(ds, rest) := span_digits t in (c :: ds, rest) else ([], s)
  | [] => ([], [])
  end.

Definition scan_int (s : bytes) : option (bytes * bytes) :=
  match s with
  | c :: t =>
      if Ascii.eqb c "0" then Some ([c], t)
      else if is_digit c then Some (span_digits s) else None
  | [] => None
  end.

Definition scan_frac (s : bytes) : option (bytes * bytes) :=
  match s with
  | c :: t =>
      if Ascii.eqb c "." then
        match span_digits t with ([], _) => None | (ds, rest) => Some (c :: ds, rest) end
      else Some ([], s)
  | [] => Some ([], [])
  end.

Definition scan_exp (s : bytes) : option (bytes * bytes) :=
  match s with
  | c :: t =>
      if Ascii.eqb c "e" || Ascii.eqb c "E" then
        let '(sign, t) := match t with
          | g :: t' => if Ascii.eqb g "+" || Ascii.eqb g "-" then ([g], t') else ([], t)
          | [] => ([], [])
          end in
        match span_digits t with ([], _) => None | (ds, rest) => Some (c :: sign ++ ds, rest) end
      else Some ([], s)
  | [] => Some ([], [])
  end.

Definition scan_unsigned (s : bytes) : option (bytes * bytes) :=
  '(i, s) ← scan_int s; '(f, s) ← scan_frac s; '(e, s) ← scan_exp s; Some (i ++ f ++ e, s).

(** A number literal and what follows it. *)
Definition scan_number (s : bytes) : option (bytes * bytes) :=
  match s with
  | c :: t =>
      if Ascii.eqb c "-" then '(l, rest) ← scan_unsigned t; Some (c :: l, rest) else scan_unsigned s
  | [] => None
  end.

(** [strconv.ParseUint(s, 10, bits)] and [ParseInt(s, 10, 64)] of a literal. *)
Definition ParseUint10 (bits : N) (s : bytes) : option N :=
  match s with
  | [] => None
  | _ => n ← parse_digits 0 (string_of_list_ascii s); if (n <? 2 ^ bits)%N then Some n else None
  end.

Definition ParseInt (s : bytes) : option Z :=
  match s with
  | c :: t =>
      if Ascii.eqb c "-" then
        n ← parse_digits 0 (string_of_list_ascii t);
        match t with [] => None | _ => if (n <=? 2 ^ 63)%N then Some (- Z.of_N n)%Z else None end
      else n ← parse_digits 0 (string_of_list_ascii s); if (n <? 2 ^ 63)%N then Some (Z.of_N n) else None
  | [] => None
  end.

(** ** Byte slices *)

(** [base64.StdEncoding]. *)
Definition base64_digit (n : N) : byte :=
  ascii_of_N (if (n <? 26)%N then 65 + n else if (n <? 52)%N then 71 + n
              else if (n <? 62)%N then n - 4 else if (n =? 62)%N then 43 else 47)%N.

Definition base64_value (c : byte) : option N :=
  let n := N_of_ascii c in
  if between 65 90 c then Some (n - 65)%N
  else if between 97 122 c then Some (n - 71)%N
  else if between 48 57 c then Some (n + 4)%N
  else if Ascii.eqb c "+" then Some 62%N
  else if Ascii.eqb c "/" then Some 63%N
  else None.

Fixpoint base64 (s : bytes) : bytes :=
  match s with
  | [] => []
  | [a] =>
      let n := (65536 * N_of_ascii a)%N in
      [base64_digit (n / 262144); base64_digit (n / 4096 mod 64); "="; "="]
  | [a; b] =>
      let n := (65536 * N_of_ascii a + 256 * N_of_ascii b)%N in
      [base64_digit (n / 262144); base64_digit (n / 4096 mod 64); base64_digit (n / 64 mod 64); "="]
  | a :: b :: c :: s =>
      let n := (65536 * N_of_ascii a + 256 * N_of_ascii b + N_of_ascii c)%N in
      base64_digit (n / 262144) :: base64_digit (n / 4096 mod 64) ::
      base64_digit (n / 64 mod 64) :: base64_digit (n mod 64) :: base64 s
  end.

Fixpoint unbase64_quanta (s : bytes) : option bytes :=
  match s with
  | [] => Some []
  | a :: b :: c :: d :: s =>
      a ← base64_value a; b ← base64_value b;
      if Ascii.eqb c "=" then
        if Ascii.eqb d "=" && bool_decide (s = []) then Some [byte_of (4 * a + b / 16)] else None
      else
        c ← base64_value c;
        if Ascii.eqb d "=" then
          if bool_decide (s = []) then Some [byte_of (4 * a + b / 16); byte_of (16 * b + c / 4)]
          else None
        else
          d ← base64_value d; rest ← unbase64_quanta s;
          Some (byte_of (4 * a + b / 16) :: byte_of (16 * b + c / 4) :: byte_of (64 * c + d) :: rest)
  | _ => None
  end.

(** The decoder skips line ends. *)
Definition unbase64 (s : bytes) : option bytes :=
  unbase64_quanta (filter (fun c => Ascii.eqb c "010" || Ascii.eqb c "013" = false) s).

(** ** Values *)

Definition join (sep : byte) (ss : list bytes) : bytes :=
  match ss with
  | [] => []
  | s :: ss => s ++ concat (map (fun s => sep :: s) ss)
  end.

Definition quoted (raw : bytes) : bytes := quotation :: raw ++ [quotation].

Fixpoint print (v : json) : bytes :=
  match v with
  | JNull => list_ascii_of_string "null"
  | JBool true => list_ascii_of_string "true"
  | JBool false => list_ascii_of_string "false"
  | JNum literal => literal
  | JStr raw => quoted raw
  | JArr elems => "[" :: join "," (map print elems) ++ ["]"]
  | JObj members =>
      "{" :: join "," (map (fun m => quoted m.1 ++ ":" :: print m.2) members) ++ ["}"]
  end.

Definition is_space (c : byte) : bool :=
  Ascii.eqb c " " || Ascii.eqb c "009" || Ascii.eqb c "010" || Ascii.eqb c "013".

Fixpoint skip_space (s : bytes) : bytes :=
  match s with
  | c :: t => if is_space c then skip_space t else s
  | [] => []
  end.

Fixpoint strip (prefix s : bytes) : option bytes :=
  match prefix, s with
  | [], _ => Some s
  | a :: prefix, b :: s => if Ascii.eqb a b then strip prefix s else None
  | _ :: _, [] => None
  end.

(** [maxNestingDepth] of the scanner. *)
Definition maxNestingDepth : N := 10000.

(** A value, and what follows it; the elements of an array and the members of
    an object, when there is at least one. [depth] is how much deeper values
    may nest. *)
Fixpoint parse_value (fuel : nat) (depth : N) (s : bytes) {struct fuel} : option (json * bytes) :=
  match fuel with
  | O => None
  | S fuel =>
      match skip_space s with
      | [] => None
      | c :: t =>
          if Ascii.eqb c "{" then
            if (depth =? 0)%N then None
            else
              match skip_space t with
              | b :: t' =>
                  if Ascii.eqb b "}" then Some (JObj [], t')
                  else '(ms, rest) ← parse_members fuel (depth - 1) t; Some (JObj ms, rest)
              | [] => None
              end
          else if Ascii.eqb c "[" then
            if (depth =? 0)%N then None
            else
              match skip_space t with
              | b :: t' =>
                  if Ascii.eqb b "]" then Some (JArr [], t')
                  else '(vs, rest) ← parse_elems fuel (depth - 1) t; Some (JArr vs, rest)
              | [] => None
              end
          else if Ascii.eqb c quotation then
            '(raw, rest) ← scan_string t; Some (JStr raw, rest)
          else if Ascii.eqb c "n" then
            rest ← strip (list_ascii_of_string "ull") t; Some (JNull, rest)
          else if Ascii.eqb c "t" then
            rest ← strip (list_ascii_of_string "rue") t; Some (JBool true, rest)
          else if Ascii.eqb c "f" then
            rest ← strip (list_ascii_of_string "alse") t; Some (JBool false, rest)
          else '(literal, rest) ← scan_number (c :: t); Some (JNum literal, rest)
      end
  end
with parse_elems (fuel : nat) (depth : N) (s : bytes) {struct fuel} : option (list json * bytes) :=
  match fuel with
  | O => None
  | S fuel =>
      '(v, rest) ← parse_value fuel depth s;
      match skip_space rest with
      | c :: t =>
          if Ascii.eqb c "," then '(vs, rest) ← parse_elems fuel depth t; Some (v :: vs, rest)
          else if Ascii.eqb c "]" then Some ([v], t)
          else None
      | [] => None
      end
  end
with parse_members (fuel : nat) (depth : N) (s : bytes) {struct fuel} :
    option (list (bytes * json) * bytes) :=
  match fuel with
  | O => None
  | S fuel =>
      match skip_space s with
      | c :: t =>
          if Ascii.eqb c quotation then
            '(k, rest) ← scan_string t;
            match skip_space rest with
            | c :: t =>
                if Ascii.eqb c ":" then
                  '(v, rest) ← parse_value fuel depth t;
                  match skip_space rest with
                  | c :: t =>
                      if Ascii.eqb c "," then
                        '(ms, rest) ← parse_members fuel depth t; Some ((k, v) :: ms, rest)
                      else if Ascii.eqb c "}" then Some ([(k, v)], t)
                      else None
                  | [] => None
                  end
                else None
            | [] => None
            end
          else None
      | [] => None
      end
  end.

(** A document: one value, and nothing but space behind it. *)
Definition parse (s : bytes) : option json :=
  '(v, rest) ← parse_value (S (2 * length s)) maxNestingDepth s;
  match skip_space rest with [] => Some v | _ => None end.

(** The members of an object once more, each value beside its text: what a
    [json.RawMessage] gets. *)
Fixpoint raw_members (fuel : nat) (depth : N) (s : bytes) {struct fuel} :
    option (list (bytes * (json * bytes)) * bytes) :=
  match fuel with
  | O => None
  | S fuel =>
      match skip_space s with
      | c :: t =>
          if Ascii.eqb c quotation then
            '(k, rest) ← scan_string t;
            match skip_space rest with
            | c :: t =>
                if Ascii.eqb c ":" then
                  '(v, rest) ← parse_value fuel depth t;
                  let text := take (length (skip_space t) - length rest) (skip_space t) in
                  match skip_space rest with
                  | c :: t =>
                      if Ascii.eqb c "," then
                        '(ms, rest) ← raw_members fuel depth t; Some ((k, (v, text)) :: ms, rest)
                      else if Ascii.eqb c "}" then Some ([(k, (v, text))], t)
                      else None
                  | [] => None
                  end
                else None
            | [] => None
            end
          else None
      | [] => None
      end
  end.

Definition raw_object (s : bytes) : option (list (bytes * (json * bytes))) :=
  match skip_space s with
  | _ :: t =>
      match skip_space t with
      | c :: _ =>
          if Ascii.eqb c "}" then Some []
          else fst <$> raw_members (2 * length s) (maxNestingDepth - 1) t
      | [] => None
      end
  | [] => None
  end.
