(* ===== verification/JsonProps.v ===== *)
(** * JsonProps: what is written as JSON is read back

    Texts that are valid UTF-8, integers of 64 bits, byte slices and whole
    values survive [print] and [parse]; the parser has fuel enough for any
    input. *)
From stdpp Require Import pretty.
From S2P Require Import Prelude Utf8 Job Framing LogSpec Wal Json.

#[local] Open Scope char_scope.

(** ** Texts *)

(** What [quote] writes for the first rune of a text, and what is behind it. *)
Record chunk (s : bytes) (out s' : bytes) : Prop := {
  ch_split : exists c, s = c ++ s' /\ c <> [] /\
    (rune_size s <> 0%nat -> length c = rune_size s /\ forall rest, unquote (out ++ rest) = c ++ unquote rest);
  ch_scan rest : scan_string (out ++ rest) =
    '(raw, r) ← scan_string rest; Some (out ++ raw, r)
}.

Lemma scan_plain c rest :
  Ascii.eqb c quotation = false -> Ascii.eqb c "\" = false -> (N_of_ascii c <? 32)%N = false ->
  scan_string (c :: rest) = '(raw, r) ← scan_string rest; Some (c :: raw, r).
Proof. intros H1 H2 H3. cbn. by rewrite H1, H2, H3. Qed.

Lemma high_plain c :
  is_ascii c = false ->
  Ascii.eqb c quotation = false /\ Ascii.eqb c "\" = false /\ (N_of_ascii c <? 32)%N = false.
Proof. destruct c as [[] [] [] [] [] [] [] []]; vm_compute; intros H; try discriminate H; done. Qed.

Lemma scan_high c rest :
  is_ascii c = false -> scan_string (c :: rest) = '(raw, r) ← scan_string rest; Some (c :: raw, r).
Proof. intros (H1 & H2 & H3)%high_plain. by apply scan_plain. Qed.

Lemma cont_high c : cont c = true -> is_ascii c = false.
Proof. destruct c as [[] [] [] [] [] [] [] []]; vm_compute; intros H; try discriminate H; done. Qed.

Lemma second_high c c1 : second c c1 = true -> is_ascii c1 = false.
Proof.
  unfold second, between, is_ascii. intros [H1%N.leb_le _]%andb_true_iff. apply N.ltb_ge.
  repeat case_match; lia.
Qed.

Lemma chunk_escape c t : is_ascii c = true -> chunk (c :: t) (escape c) t.
Proof.
  intros Hc. split.
  - exists [c]. split; [done|]. split; [done|]. intros _. split; [by rewrite rune_size_ascii|]. intros rest.
    destruct c as [[] [] [] [] [] [] [] []]; first [discriminate Hc|reflexivity].
  - intros rest. destruct c as [[] [] [] [] [] [] [] []]; first [discriminate Hc|
      match goal with |- context [escape ?c] => let v := eval vm_compute in (escape c) in change (escape c) with v end;
      cbn; destruct (scan_string rest) as [[? ?]|]; reflexivity].
Qed.

(** Bytes copied as they are. *)
Lemma scan_copied cs rest :
  Forall (fun c => is_ascii c = false) cs ->
  scan_string (cs ++ rest) = '(raw, r) ← scan_string rest; Some (cs ++ raw, r).
Proof.
  induction 1 as [|c cs Hc _ IH]; cbn [app]; [by destruct (scan_string rest) as [[? ?]|]|].
  rewrite scan_high, IH by done. by destruct (scan_string rest) as [[? ?]|].
Qed.

Lemma unquote_high c t : is_ascii c = false ->
  unquote (c :: t) =
    match rune_size (c :: t), t with
    | 1%nat, t => c :: unquote t
    | 2%nat, c1 :: t => c :: c1 :: unquote t
    | 3%nat, c1 :: c2 :: t => c :: c1 :: c2 :: unquote t
    | 4%nat, c1 :: c2 :: c3 :: t => c :: c1 :: c2 :: c3 :: unquote t
    | _, t => rune_error ++ unquote t
    end.
Proof. intros (_ & H & _)%high_plain. cbn [unquote]. by rewrite H. Qed.

(** A rune of several bytes has none below 128. *)
Lemma rune_high c t n :
  is_ascii c = false -> rune_size (c :: t) = n -> Forall (fun c => is_ascii c = false) (take (n - 1) t).
Proof.
  intros Hc. unfold rune_size. rewrite Hc. intros <-.
  destruct (between 194 223 c).
  { destruct t as [|c1 t]; [constructor|]. destruct (cont c1) eqn:E; [|constructor]. cbn.
    constructor; [by apply cont_high|constructor]. }
  destruct (between 224 239 c).
  { destruct t as [|c1 [|c2 t]]; [constructor..|]. destruct (second c c1 && cont c2) eqn:E; [|constructor].
    apply andb_true_iff in E as [E1 E2]. cbn.
    repeat constructor; [by eapply second_high|by apply cont_high]. }
  destruct (between 240 244 c); [|constructor].
  destruct t as [|c1 [|c2 [|c3 t]]]; [constructor..|].
  destruct (second c c1 && cont c2 && cont c3) eqn:E; [|constructor].
  apply andb_true_iff in E as [[E1 E2]%andb_true_iff E3]. cbn.
  repeat constructor; [by eapply second_high|by apply cont_high..].
Qed.

Lemma chunk_copied c cs t :
  is_ascii c = false -> rune_size (c :: cs ++ t) = S (length cs) -> (length cs <= 3)%nat ->
  (1 <= length cs)%nat -> chunk (c :: cs ++ t) (c :: cs) t.
Proof.
  intros Hc Hr H3 H1. assert (Hh := rune_high _ _ _ Hc Hr).
  replace (S (length cs) - 1)%nat with (length cs) in Hh by lia. rewrite take_app_length in Hh.
  split.
  - exists (c :: cs). split; [done|]. split; [done|]. intros _. split; [done|]. intros rest.
    assert (Hr' : rune_size (c :: cs ++ rest) = S (length cs)).
    { clear Hh. revert Hr. unfold rune_size. rewrite Hc.
      destruct cs as [|c1 [|c2 [|c3 [|]]]]; cbn in *; try lia; repeat case_match; congruence. }
    cbn [app]. rewrite unquote_high, Hr' by done.
    destruct cs as [|c1 [|c2 [|c3 [|]]]]; cbn in *; try lia; done.
  - intros rest. rewrite <- (scan_copied (c :: cs) rest); [done|by constructor].
Qed.

Lemma chunk_rune3 c c1 c2 t :
  is_ascii c = false -> rune_size (c :: c1 :: c2 :: t) = 3%nat ->
  chunk (c :: c1 :: c2 :: t) (escape_rune3 c c1 c2) t.
Proof.
  intros Hc Hr. unfold escape_rune3.
  destruct (Ascii.eqb_spec c "226"); cbn [andb]; [|apply (chunk_copied c [c1; c2]); cbn; [done|done|lia|lia]].
  destruct (Ascii.eqb_spec c1 "128"); cbn [andb]; [|apply (chunk_copied c [c1; c2]); cbn; [done|done|lia|lia]].
  subst. destruct (Ascii.eqb_spec c2 "168"); cbn [orb].
  { subst. split.
    - exists ["226"; "128"; "168"]. split; [done|]. split; [done|]. intros _. by rewrite Hr.
    - intros rest. cbn. by destruct (scan_string rest) as [[? ?]|]. }
  destruct (Ascii.eqb_spec c2 "169"); cbn [orb].
  { subst. split.
    - exists ["226"; "128"; "169"]. split; [done|]. split; [done|]. intros _. by rewrite Hr.
    - intros rest. cbn. by destruct (scan_string rest) as [[? ?]|]. }
  apply (chunk_copied "226" ["128"; c2]); cbn; [done|done|lia|lia].
Qed.

(** [quote] goes rune by rune. *)
Lemma quote_chunk c t :
  exists out s', quote (c :: t) = out ++ quote s' /\ chunk (c :: t) out s'.
Proof.
  pose proof (rune_sizeP (c :: t)) as Hr. cbn [quote].
  destruct (rune_size (c :: t)) as [|[|[|[|[|n]]]]] eqn:E; inversion Hr; subst.
  - eexists _, t. split; [done|]. split.
    + exists [c]. split; [done|]. by split.
    + intros rest. cbn. by destruct (scan_string rest) as [[? ?]|].
  - exists (escape c), t. split; [done|]. by apply chunk_escape.
  - eexists [_; _], _. split; [done|]. apply (chunk_copied _ [_]); cbn; [done|done|lia|lia].
  - eexists (escape_rune3 _ _ _), _. split; [done|]. by apply chunk_rune3.
  - eexists [_; _; _; _], _. split; [done|]. apply (chunk_copied _ [_; _; _]); cbn; [done|done|lia|lia].
Qed.

(** Induction on a text rune by rune. *)
Lemma quote_ind (P : bytes -> Prop) :
  P [] ->
  (forall c t out s', quote (c :: t) = out ++ quote s' -> chunk (c :: t) out s' -> P s' -> P (c :: t)) ->
  forall s, P s.
Proof.
  intros H0 Hs s. remember (length s) as n eqn:En. revert s En.
  induction (lt_wf n) as [n _ IH]. intros [|c t] En; [done|].
  destruct (quote_chunk c t) as (out & s' & Hq & Hc). apply (Hs c t out s' Hq Hc).
  apply (IH (length s')); [|done]. destruct (ch_split _ _ _ Hc) as (cs & E & Hne & _).
  rewrite En, E, length_app. destruct cs; [done|cbn; lia].
Qed.

(** Every text is written as a literal the scanner takes as a whole. *)
Lemma scan_quote s rest : scan_string (quote s ++ quotation :: rest) = Some (quote s, rest).
Proof.
  induction s as [|c t out s' Hq Hc IH] using quote_ind; [done|].
  by rewrite Hq, <- app_assoc, (ch_scan _ _ _ Hc), IH.
Qed.

(** Valid UTF-8 is read back. *)
Lemma unquote_quote s : valid_utf8 s = true -> unquote (quote s) = s.
Proof.
  induction s as [|c t out s' Hq Hc IH] using quote_ind; [done|]. intros Hv.
  apply valid_utf8_cons in Hv as [Hr Hv].
  destruct (ch_split _ _ _ Hc) as (cs & E & _ & Hu). destruct (Hu Hr) as [Hl Hu'].
  rewrite Hq, Hu', IH; [done|]. by rewrite <- Hl, E, drop_app_length in Hv.
Qed.

(** ** Numbers *)

Lemma digit_char n : (n < 10)%N -> pretty_N_char n = ascii_of_N (48 + n).
Proof.
  intros H.
  assert (D : forallb (fun k => bool_decide (pretty_N_char (N.of_nat k) = ascii_of_N (48 + N.of_nat k)))
    (seq 0 10) = true) by (vm_compute; reflexivity).
  rewrite forallb_forall in D. specialize (D (N.to_nat n)). rewrite N2Nat.id in D.
  apply (bool_decide_eq_true_1 _), D, in_seq. lia.
Qed.

Lemma N_of_digit n : (n < 10)%N -> N_of_ascii (ascii_of_N (48 + n)) = (48 + n)%N.
Proof. intros H. apply N_ascii_embedding. lia. Qed.

Lemma parse_digit n s acc :
  (n < 10)%N -> parse_digits acc (String (ascii_of_N (48 + n)) s) = parse_digits (10 * acc + n) s.
Proof.
  intros H. cbn [parse_digits]. rewrite N_of_digit by done.
  rewrite (proj2 (N.leb_le _ _)), (proj2 (N.leb_le _ _)) by lia. cbn [andb]. f_equal. lia.
Qed.

(** [pretty_N_go] puts the digits of a number before a text. *)
Lemma pretty_go_spec n s :
  parse_digits 0 (pretty_N_go n s) = parse_digits n s /\
  exists ds, list_ascii_of_string (pretty_N_go n s) = ds ++ list_ascii_of_string s /\
    Forall (fun c => is_digit c = true) ds /\
    ((0 < n)%N -> exists d ds', ds = d :: ds' /\ Ascii.eqb d "0" = false).
Proof.
  revert s. induction n as [n IH] using (well_founded_induction N.lt_wf_0). intros s.
  destruct (N.eq_dec n 0%N) as [->|Hn].
  { rewrite pretty_N_go_0. split; [done|]. exists []. split; [done|]. by split; [constructor|]. }
  rewrite pretty_N_go_step by lia.
  pose proof (N.mod_lt n 10 ltac:(done)) as Hm. rewrite digit_char by done.
  destruct (IH (n / 10)%N ltac:(apply N.div_lt; lia) (String (ascii_of_N (48 + n mod 10)) s))
    as (Hp & ds & Hd & Hall & Hne).
  split.
  - rewrite Hp, parse_digit by done. f_equal. pose proof (N.div_mod n 10 ltac:(done)). lia.
  - exists (ds ++ [ascii_of_N (48 + n mod 10)]). rewrite Hd, <- app_assoc. split; [done|]. split.
    + apply Forall_app. split; [done|]. constructor; [|done]. unfold is_digit, between.
      rewrite N_of_digit by done. apply andb_true_iff. rewrite !N.leb_le. clear -Hm. set (q := (n mod 10)%N) in *. clearbody q. lia.
    + intros _. destruct (N.eq_dec (n / 10)%N 0%N) as [E|E].
      * destruct ds as [|d ds]; [|].
        -- exists (ascii_of_N (48 + n mod 10)), []. split; [done|].
           apply Ascii.eqb_neq. intros Ha. apply (f_equal N_of_ascii) in Ha. rewrite N_of_digit in Ha by done.
           change (N_of_ascii "0") with 48%N in Ha. pose proof (N.div_mod n 10 ltac:(done)). lia.
        -- exfalso. rewrite E, pretty_N_go_0 in Hd. cbn in Hd. apply (f_equal length) in Hd.
           cbn in Hd. rewrite length_app in Hd. cbn in Hd. clear -Hd. lia.
      * destruct Hne as (d & ds' & -> & Hd0); [by apply N.neq_0_lt_0|]. by exists d, (ds' ++ [ascii_of_N (48 + n mod 10)]).
Qed.

(** The digits of a number: no leading zero, and they parse. *)
Lemma format_uint_spec n :
  parse_digits 0 (pretty n) = Some n /\
  exists d ds, format_uint n = d :: ds /\ is_digit d = true /\ Forall (fun c => is_digit c = true) ds /\
    (Ascii.eqb d "0" = true -> ds = []).
Proof.
  unfold format_uint, pretty, pretty_N. case_decide as E.
  - subst n. split; [done|]. exists "0", []. done.
  - destruct (pretty_go_spec n "") as (Hp & ds & Hd & Hall & Hne). split; [done|].
    destruct Hne as (d & ds' & -> & Hd0); [lia|]. cbn in Hd. rewrite app_nil_r in Hd.
    inversion Hall; subst. exists d, ds'. split; [done|]. split; [done|]. split; [done|]. congruence.
Qed.

Lemma ParseUint10_format bits n :
  (n < 2 ^ bits)%N -> ParseUint10 bits (format_uint n) = Some n.
Proof.
  intros H. destruct (format_uint_spec n) as (Hp & d & ds & E & _). unfold ParseUint10.
  rewrite E, <- E. unfold format_uint. rewrite string_of_list_ascii_of_string, Hp. cbn.
  by rewrite (proj2 (N.ltb_lt _ _)).
Qed.

Lemma digit_not_minus d : is_digit d = true -> Ascii.eqb d "-" = false.
Proof. destruct d as [[] [] [] [] [] [] [] []]; vm_compute; intros H; done. Qed.

Lemma format_int_spec z :
  format_int z = (if z <? 0 then "-" :: format_uint (Z.to_N (- z)) else format_uint (Z.to_N z))%Z.
Proof.
  unfold format_int, format_uint. destruct z as [|p|p]; [done|done|]. cbn [Z.ltb Z.compare Z.opp Z.to_N].
  reflexivity.
Qed.

Lemma ParseInt_format z : is_i64 z -> ParseInt (format_int z) = Some z.
Proof.
  unfold is_i64. intros H. rewrite format_int_spec.
  destruct (Z.ltb_spec z 0) as [Hz|Hz]; unfold ParseInt.
  - destruct (format_uint_spec (Z.to_N (- z))) as (Hp & d & ds & E & _). cbn [Ascii.eqb Bool.eqb].
    rewrite E, <- E. unfold format_uint. rewrite string_of_list_ascii_of_string, Hp. cbn.
    rewrite (proj2 (N.leb_le _ _)) by lia. f_equal. lia.
  - destruct (format_uint_spec (Z.to_N z)) as (Hp & d & ds & E & Hd & _). rewrite E, (digit_not_minus d Hd), <- E.
    unfold format_uint. rewrite string_of_list_ascii_of_string, Hp. cbn.
    rewrite (proj2 (N.ltb_lt _ _)) by lia. f_equal. lia.
Qed.

(** What may stand behind a number literal. *)
Definition stops (rest : bytes) : Prop :=
  match rest with
  | [] => True
  | c :: _ => is_digit c = false /\ Ascii.eqb c "." = false /\ Ascii.eqb c "e" || Ascii.eqb c "E" = false
  end.

Lemma span_digits_app ds rest :
  Forall (fun c => is_digit c = true) ds -> stops rest -> span_digits (ds ++ rest) = (ds, rest).
Proof.
  intros H Hr. induction H as [|d ds Hd _ IH]; cbn [app].
  - destruct rest as [|c rest]; [done|]. destruct Hr as (Hc & _). cbn. by rewrite Hc.
  - cbn [span_digits]. by rewrite Hd, IH.
Qed.

Lemma scan_tail rest : stops rest -> scan_frac rest = Some ([], rest) /\ scan_exp rest = Some ([], rest).
Proof.
  destruct rest as [|c rest]; [done|]. intros (_ & H1 & H2). unfold scan_frac, scan_exp. by rewrite H1, H2.
Qed.

Lemma scan_unsigned_format n rest :
  stops rest -> scan_unsigned (format_uint n ++ rest) = Some (format_uint n, rest).
Proof.
  intros Hr. destruct (format_uint_spec n) as (_ & d & ds & E & Hd & Hds & H0).
  destruct (scan_tail rest Hr) as [Hf He]. rewrite E. unfold scan_unsigned. cbn [app scan_int].
  destruct (Ascii.eqb d "0") eqn:Ez.
  - rewrite (H0 eq_refl). cbn [app mbind option_bind]. rewrite Hf. cbn [mbind option_bind]. by rewrite He.
  - rewrite Hd. change (d :: ds ++ rest) with ((d :: ds) ++ rest).
    rewrite span_digits_app by (done || by constructor). cbn [mbind option_bind].
    rewrite Hf. cbn [mbind option_bind]. rewrite He. cbn. by rewrite app_nil_r.
Qed.

Lemma scan_format_uint n rest :
  stops rest -> scan_number (format_uint n ++ rest) = Some (format_uint n, rest).
Proof.
  intros Hr. pose proof (scan_unsigned_format n rest Hr) as H. revert H.
  destruct (format_uint_spec n) as (_ & d & ds & E & Hd & _). rewrite E. cbn [app scan_number].
  by rewrite (digit_not_minus d Hd).
Qed.

Lemma scan_format_int z rest :
  stops rest -> scan_number (format_int z ++ rest) = Some (format_int z, rest).
Proof.
  intros Hr. rewrite format_int_spec. destruct (z <? 0)%Z; [|by apply scan_format_uint].
  cbn [app scan_number Ascii.eqb Bool.eqb]. by rewrite scan_unsigned_format.
Qed.

(** ** Byte slices *)

Definition sextet_ok (n : N) : bool :=
  bool_decide (base64_value (base64_digit n) = Some n) &&
  negb (Ascii.eqb (base64_digit n) "=") &&
  negb (Ascii.eqb (base64_digit n) "010" || Ascii.eqb (base64_digit n) "013").

Lemma sextets_ok : forallb sextet_ok (map N.of_nat (seq 0 64)) = true.
Proof. vm_compute. reflexivity. Qed.

Lemma sextet n : (n < 64)%N ->
  base64_value (base64_digit n) = Some n /\ Ascii.eqb (base64_digit n) "=" = false /\
  (Ascii.eqb (base64_digit n) "010" || Ascii.eqb (base64_digit n) "013" = false).
Proof.
  intros Hn. pose proof sextets_ok as H. rewrite forallb_forall in H. specialize (H n).
  assert (Hin : In n (map N.of_nat (seq 0 64))).
  { apply in_map_iff. exists (N.to_nat n). split; [lia|]. apply in_seq. lia. }
  specialize (H Hin). unfold sextet_ok in H.
  apply andb_true_iff in H as [[H1%bool_decide_eq_true H2%negb_true_iff]%andb_true_iff H3%negb_true_iff]. done.
Qed.

Lemma base64_ind (P : bytes -> Prop) :
  P [] -> (forall a, P [a]) -> (forall a b, P [a; b]) ->
  (forall a b c s, P s -> P (a :: b :: c :: s)) -> forall s, P s.
Proof.
  intros H0 H1 H2 H3. fix IH 1. intros [|a [|b [|c s]]]; [done|done|done|]. apply H3, IH.
Qed.

(** Three bytes as four sextets. *)
Lemma quantum a b c :
  (a < 256)%N -> (b < 256)%N -> (c < 256)%N ->
  let n := (65536 * a + 256 * b + c)%N in
  (n / 262144 < 64 /\ n / 4096 mod 64 < 64 /\ n / 64 mod 64 < 64 /\ n mod 64 < 64)%N /\
  ((4 * (n / 262144) + n / 4096 mod 64 / 16) mod 256 = a)%N /\
  ((16 * (n / 4096 mod 64) + n / 64 mod 64 / 4) mod 256 = b)%N /\
  ((64 * (n / 64 mod 64) + n mod 64) mod 256 = c)%N.
Proof. cbv zeta. intros Ha Hb Hc. repeat split; lia_div. Qed.

Lemma byte_of_eq n c : (n mod 256 = N_of_ascii c)%N -> byte_of n = c.
Proof. intros H. unfold byte_of. rewrite H. apply ascii_N_embedding. Qed.

Definition kept (c : byte) : Prop := Ascii.eqb c "010" || Ascii.eqb c "013" = false.

(** Nothing in the encoding is skipped. *)
Lemma base64_kept s : Forall kept (base64 s).
Proof.
  assert (Hp : kept "=") by done.
  induction s as [|a|a b|a b c s IH] using base64_ind; cbn [base64]; [constructor|..].
  all: pose proof (N_ascii_bounded a) as Ba.
  - destruct (quantum (N_of_ascii a) 0 0) as ((H1 & H2 & _) & _); [done..|].
    rewrite N.mul_0_r, !N.add_0_r in *. repeat constructor; first [done|by apply sextet].
  - pose proof (N_ascii_bounded b) as Bb.
    destruct (quantum (N_of_ascii a) (N_of_ascii b) 0) as ((H1 & H2 & H3 & _) & _); [done..|].
    rewrite !N.add_0_r in *. repeat constructor; first [done|by apply sextet].
  - pose proof (N_ascii_bounded b) as Bb. pose proof (N_ascii_bounded c) as Bc.
    destruct (quantum (N_of_ascii a) (N_of_ascii b) (N_of_ascii c)) as ((H1 & H2 & H3 & H4) & _); [done..|].
    repeat constructor; first [by apply sextet|exact IH].
Qed.

Lemma unbase64_base64 s : unbase64 (base64 s) = Some s.
Proof.
  unfold unbase64. rewrite filter_all by (apply Forall_forall, base64_kept).
  induction s as [|a|a b|a b c s IH] using base64_ind; cbn [base64]; [done|..].
  all: pose proof (N_ascii_bounded a) as Ba.
  - destruct (quantum (N_of_ascii a) 0 0) as ((H1 & H2 & _) & Ea & _); [done..|].
    rewrite N.mul_0_r, !N.add_0_r in *. cbn [unbase64_quanta].
    destruct (sextet _ H1) as (-> & _). destruct (sextet _ H2) as (-> & _). cbn.
    do 2 f_equal. apply byte_of_eq. exact Ea.
  - pose proof (N_ascii_bounded b) as Bb.
    destruct (quantum (N_of_ascii a) (N_of_ascii b) 0) as ((H1 & H2 & H3 & _) & Ea & Eb & _); [done..|].
    rewrite !N.add_0_r in *. cbn [unbase64_quanta].
    destruct (sextet _ H1) as (-> & _). destruct (sextet _ H2) as (-> & _).
    destruct (sextet _ H3) as (-> & -> & _). cbn. do 2 f_equal.
    + apply byte_of_eq. exact Ea.
    + f_equal. apply byte_of_eq. exact Eb.
  - pose proof (N_ascii_bounded b) as Bb. pose proof (N_ascii_bounded c) as Bc.
    destruct (quantum (N_of_ascii a) (N_of_ascii b) (N_of_ascii c))
      as ((H1 & H2 & H3 & H4) & Ea & Eb & Ec); [done..|]. cbn [unbase64_quanta].
    destruct (sextet _ H1) as (-> & _). destruct (sextet _ H2) as (-> & _).
    destruct (sextet _ H3) as (-> & -> & _). destruct (sextet _ H4) as (-> & -> & _).
    cbn [mbind option_bind]. rewrite IH. cbn. do 2 f_equal; [|f_equal; [|f_equal]]; apply byte_of_eq.
    + exact Ea.
    + exact Eb.
    + exact Ec.
Qed.

(** ** Values *)

Lemma json_nested_ind (P : json -> Prop) :
  P JNull -> (forall b, P (JBool b)) -> (forall l, P (JNum l)) -> (forall r, P (JStr r)) ->
  (forall vs, Forall P vs -> P (JArr vs)) ->
  (forall ms, Forall (fun m => P m.2) ms -> P (JObj ms)) -> forall v, P v.
Proof.
  intros H0 H1 H2 H3 H4 H5. fix IH 1. intros [|b|l|r|vs|ms]; [done|done|done|done|apply H4|apply H5].
  - induction vs as [|v vs IHvs]; constructor; [apply IH|apply IHvs].
  - induction ms as [|m ms IHms]; constructor; [apply IH|apply IHms].
Qed.

(** A number and a text that the scanner takes as they are. *)
Definition literal_ok (l : bytes) : Prop := forall rest, stops rest -> scan_number (l ++ rest) = Some (l, rest).
Definition raw_ok (r : bytes) : Prop := forall rest, scan_string (r ++ quotation :: rest) = Some (r, rest).

Fixpoint well_formed (v : json) : Prop :=
  match v with
  | JNum l => literal_ok l
  | JStr r => raw_ok r
  | JArr vs => (fix all vs := match vs with [] => True | v :: vs => well_formed v /\ all vs end) vs
  | JObj ms =>
      (fix all ms := match ms with [] => True | m :: ms => (raw_ok m.1 /\ well_formed m.2) /\ all ms end) ms
  | _ => True
  end.

Fixpoint height (v : json) : nat :=
  match v with
  | JArr vs => S (max_list_with height vs)
  | JObj ms => S (max_list_with (fun m => height m.2) ms)
  | _ => 0
  end.

Lemma well_formed_arr vs : well_formed (JArr vs) <-> Forall well_formed vs.
Proof.
  cbn. induction vs as [|v vs IH]; [split; [constructor|done]|].
  rewrite IH. by rewrite Forall_cons.
Qed.

Lemma well_formed_obj ms :
  well_formed (JObj ms) <-> Forall (fun m => raw_ok m.1 /\ well_formed m.2) ms.
Proof.
  cbn. induction ms as [|m ms IH]; [split; [constructor|done]|].
  rewrite IH. by rewrite Forall_cons.
Qed.

Lemma number_head c t x : scan_number (c :: t) = Some x -> is_digit c = true \/ Ascii.eqb c "-" = true.
Proof.
  cbn [scan_number]. destruct (Ascii.eqb c "-"); [by right|]. unfold scan_unsigned, scan_int.
  destruct (Ascii.eqb_spec c "0") as [->|_]; [by left|]. destruct (is_digit c); [by left|done].
Qed.

(** The first byte of a value: not a space, not the end of an array. *)
Definition opens (c : byte) : Prop := is_space c = false /\ Ascii.eqb c "]" = false.

Lemma number_opens c : is_digit c = true \/ Ascii.eqb c "-" = true ->
  opens c /\ Ascii.eqb c "{" = false /\ Ascii.eqb c "[" = false /\ Ascii.eqb c quotation = false /\
  Ascii.eqb c "n" = false /\ Ascii.eqb c "t" = false /\ Ascii.eqb c "f" = false.
Proof.
  intros H. destruct c as [[] [] [] [] [] [] [] []]; vm_compute in H; vm_compute;
    first [by destruct H|by repeat split].
Qed.

Lemma literal_head l : literal_ok l -> exists c t, l = c :: t /\ (is_digit c = true \/ Ascii.eqb c "-" = true).
Proof.
  intros H. specialize (H [] I). rewrite app_nil_r in H. destruct l as [|c t]; [done|].
  exists c, t. split; [done|]. by eapply number_head.
Qed.

Lemma print_head v : well_formed v -> exists c t, print v = c :: t /\ opens c.
Proof.
  destruct v as [|[]|l|r|vs|ms]; intros H; try (eexists _, _; split; [reflexivity|done]).
  destruct (literal_head l H) as (c & t & -> & Hc). exists c, t. split; [done|]. by apply number_opens.
Qed.

Lemma skip_opens c t : opens c -> skip_space (c :: t) = c :: t.
Proof. intros [H _]. cbn. by rewrite H. Qed.

Lemma join_cons sep s ss : join sep (s :: ss) = s ++ concat (map (cons sep) ss).
Proof. done. Qed.

Lemma concat_join sep s ss : concat (map (cons sep) (s :: ss)) = sep :: join sep (s :: ss).
Proof. done. Qed.

(** What is printed for [v] is read as [v]. *)
Definition reads (v : json) : Prop :=
  forall fuel depth rest, (2 * length (print v) <= fuel)%nat -> (N.of_nat (height v) <= depth)%N ->
    stops rest -> parse_value fuel depth (print v ++ rest) = Some (v, rest).

Lemma stops_comma t : stops ("," :: t). Proof. done. Qed.
Lemma stops_bracket t : stops ("]" :: t). Proof. done. Qed.
Lemma stops_brace t : stops ("}" :: t). Proof. done. Qed.

Lemma parse_elems_print v vs fuel depth rest :
  Forall reads (v :: vs) -> (2 * length (join "," (map print (v :: vs))) + 1 <= fuel)%nat ->
  Forall (fun v => (N.of_nat (height v) <= depth)%N) (v :: vs) ->
  parse_elems fuel depth (join "," (map print (v :: vs)) ++ "]" :: rest) = Some (v :: vs, rest).
Proof.
  revert v fuel. induction vs as [|w vs IH]; intros v fuel Hr Hf Hd;
    apply Forall_cons in Hr as [Hv Hr]; apply Forall_cons in Hd as [Hdv Hd];
    cbn [map] in *; rewrite join_cons in *; (destruct fuel as [|fuel]; [lia|]); cbn [parse_elems].
  - cbn [map concat] in *. rewrite app_nil_r in *. rewrite Hv; [done|lia|done|done].
  - rewrite concat_join in *. rewrite <- app_assoc. rewrite length_app in Hf. cbn [app length] in *.
    rewrite Hv; [|lia|done|done]. cbn [mbind option_bind skip_space is_space Ascii.eqb Bool.eqb orb].
    rewrite IH; [done|done|lia|done].
Qed.

Lemma parse_member fuel depth k v rest :
  raw_ok k -> reads v -> (2 * length (print v) <= fuel)%nat -> (N.of_nat (height v) <= depth)%N ->
  stops rest ->
  parse_members (S fuel) depth (quoted k ++ ":" :: print v ++ rest) =
    match skip_space rest with
    | c :: t =>
        if Ascii.eqb c "," then '(ms, rest) ← parse_members fuel depth t; Some ((k, v) :: ms, rest)
        else if Ascii.eqb c "}" then Some ([(k, v)], t)
        else None
    | [] => None
    end.
Proof.
  intros Hk Hv Hf Hd Hr. unfold quoted. cbn [app]. rewrite <- app_assoc. cbn [app parse_members].
  change (skip_space (quotation :: k ++ quotation :: ":" :: print v ++ rest))
    with (quotation :: k ++ quotation :: ":" :: print v ++ rest).
  cbv beta iota. rewrite Ascii.eqb_refl, Hk. cbn [mbind option_bind].
  change (skip_space (":" :: print v ++ rest)) with (":" :: print v ++ rest).
  cbv beta iota. rewrite Ascii.eqb_refl, Hv by done. done.
Qed.

Definition member_text (m : bytes * json) : bytes := quoted m.1 ++ ":" :: print m.2.

Lemma parse_members_print m ms fuel depth rest :
  Forall (fun m => raw_ok m.1 /\ reads m.2) (m :: ms) ->
  (2 * length (join "," (map member_text (m :: ms))) + 1 <= fuel)%nat ->
  Forall (fun m => (N.of_nat (height m.2) <= depth)%N) (m :: ms) ->
  parse_members fuel depth (join "," (map member_text (m :: ms)) ++ "}" :: rest) = Some (m :: ms, rest).
Proof.
  revert m fuel. induction ms as [|w ms IH]; intros [k v] fuel Hr Hf Hd;
    apply Forall_cons in Hr as [[Hk Hv] Hr]; apply Forall_cons in Hd as [Hdv Hd];
    cbn [map] in *; rewrite join_cons in *; (destruct fuel as [|fuel]; [lia|]); cbn [fst snd] in *.
  - cbn [map concat] in *. rewrite app_nil_r in *. unfold member_text in *. cbn [fst snd] in *.
    rewrite <- app_assoc. rewrite !length_app in Hf. cbn [app length] in *. rewrite parse_member by (done || lia). done.
  - rewrite concat_join in *. unfold member_text at 1. unfold member_text at 1 in Hf. cbn [fst snd] in *.
    rewrite <- !app_assoc. rewrite !length_app in Hf. cbn [app length] in *.
    rewrite parse_member by (done || lia).
    cbn [skip_space is_space Ascii.eqb Bool.eqb orb]. by rewrite IH by (done || lia).
Qed.

Lemma height_bound {A} (f : A -> nat) (l : list A) depth :
  (N.of_nat (S (max_list_with f l)) <= depth)%N -> Forall (fun x => (N.of_nat (f x) <= depth - 1)%N) l.
Proof.
  intros H. assert (Hm : (N.of_nat (max_list_with f l) <= depth - 1)%N) by lia. clear H.
  induction l as [|x l IH]; constructor; cbn in Hm; [lia|]. apply IH. lia.
Qed.

Lemma reads_number l : literal_ok l -> reads (JNum l).
Proof.
  intros Hl fuel depth rest Hf _ Hr. pose proof (Hl rest Hr) as Hs.
  destruct (literal_head l Hl) as (c & t & -> & Hc). cbn [print app] in *.
  destruct fuel as [|fuel]; [cbn in Hf; lia|]. cbn [parse_value].
  destruct (number_opens c Hc) as (Ho & H1 & H2 & H3 & H4 & H5 & H6).
  rewrite (skip_opens c _ Ho), H1, H2, H3, H4, H5, H6. by rewrite Hs.
Qed.

Lemma reads_array vs : Forall well_formed vs -> Forall reads vs -> reads (JArr vs).
Proof.
  intros Hw Hr fuel depth rest Hf Hd Hrest. destruct fuel as [|fuel]; [cbn in Hf; lia|].
  cbn [height] in Hd. pose proof (height_bound _ _ _ Hd) as Hds. cbn [print] in *.
  cbn [app parse_value skip_space is_space Ascii.eqb Bool.eqb orb].
  rewrite (proj2 (N.eqb_neq _ _)) by lia. destruct vs as [|v vs]; [done|].
  rewrite <- app_assoc. cbn [app].
  destruct (print_head v) as (c & t & E & Ho); [by apply Forall_inv in Hw|].
  assert (Hhead : exists t', join "," (map print (v :: vs)) ++ "]" :: rest = c :: t').
  { cbn [map]. rewrite join_cons, E. by eexists. }
  destruct Hhead as [t' Et]. rewrite Et, (skip_opens c t' Ho), (proj2 Ho), <- Et.
  rewrite parse_elems_print; [done|done| |done]. cbn [length] in Hf. rewrite length_app in Hf. cbn [length] in Hf. lia.
Qed.

Lemma reads_object ms :
  Forall (fun m => raw_ok m.1 /\ well_formed m.2) ms -> Forall (fun m => reads m.2) ms -> reads (JObj ms).
Proof.
  intros Hw Hr fuel depth rest Hf Hd Hrest. destruct fuel as [|fuel]; [cbn in Hf; lia|].
  cbn [height] in Hd. pose proof (height_bound _ _ _ Hd) as Hds. cbn [print] in *.
  cbn [app parse_value skip_space is_space Ascii.eqb Bool.eqb orb].
  rewrite (proj2 (N.eqb_neq _ _)) by lia. destruct ms as [|m ms]; [done|].
  change (map (fun m => quoted m.1 ++ ":" :: print m.2) (m :: ms)) with (map member_text (m :: ms)) in *.
  rewrite <- app_assoc. cbn [app].
  assert (Hhead : exists t', join "," (map member_text (m :: ms)) ++ "}" :: rest = quotation :: t').
  { cbn [map]. rewrite join_cons. by eexists. }
  destruct Hhead as [t' Et]. rewrite Et.
  change (skip_space (quotation :: t')) with (quotation :: t'). cbv beta iota.
  replace (Ascii.eqb quotation "}") with false by done. rewrite <- Et.
  rewrite parse_members_print; [done| | |done].
  - clear -Hw Hr. induction Hw as [|m' ms' [Hk _] _ IH]; [constructor|].
    apply Forall_cons in Hr as [? ?]. constructor; [done|by apply IH].
  - cbn [length] in Hf. rewrite length_app in Hf. cbn [length] in Hf. lia.
Qed.

Lemma reads_well_formed v : well_formed v -> reads v.
Proof.
  induction v as [|b|l|r|vs IH|ms IH] using json_nested_ind; intros Hw.
  - intros [|fuel] depth rest Hf _ _; [cbn in Hf; lia|done].
  - intros [|fuel] depth rest Hf _ _; [destruct b; cbn in Hf; lia|]. by destruct b.
  - by apply reads_number.
  - intros [|fuel] depth rest Hf _ _; [cbn in Hf; lia|]. cbn [print]. unfold quoted.
    cbn [app]. rewrite <- app_assoc. cbn [app parse_value].
    change (skip_space (quotation :: r ++ quotation :: rest)) with (quotation :: r ++ quotation :: rest).
    cbv beta iota. replace (Ascii.eqb quotation "{") with false by done.
    replace (Ascii.eqb quotation "[") with false by done. rewrite Ascii.eqb_refl. by rewrite (Hw rest).
  - apply well_formed_arr in Hw. apply reads_array; [done|].
    rewrite Forall_forall in *. intros v Hv. apply IH; [done|]. by apply Hw.
  - apply well_formed_obj in Hw. apply reads_object; [done|].
    rewrite Forall_forall in *. intros m Hm. apply IH; [done|]. by apply Hw.
Qed.

(** A document that was printed is parsed as what it was. *)
Lemma parse_print v :
  well_formed v -> (N.of_nat (height v) <= maxNestingDepth)%N -> parse (print v) = Some v.
Proof.
  intros Hw Hd. unfold parse.
  pose proof (reads_well_formed v Hw (S (2 * length (print v))) maxNestingDepth []) as H.
  rewrite app_nil_r in H. by rewrite H by (done || lia).
Qed.

(** ** The fuel of the parser *)

Lemma skip_space_length s : (length (skip_space s) <= length s)%nat.
Proof. induction s as [|c s IH]; cbn; [lia|]. destruct (is_space c); cbn; lia. Qed.

Lemma strip_length p s rest : strip p s = Some rest -> (length rest <= length s)%nat.
Proof.
  revert s. induction p as [|a p IH]; intros [|b s]; cbn; try (intros [= <-]; cbn; lia); try done.
  destruct (Ascii.eqb a b); [|done]. intros H%IH. lia.
Qed.

Lemma scan_string_length n s raw rest :
  (length s <= n)%nat -> scan_string s = Some (raw, rest) -> (length rest < length s)%nat.
Proof.
  revert s raw rest. induction n as [|n IH]; intros [|c s] raw rest Hn; cbn in Hn; try lia; try done.
  cbn [scan_string]. destruct (Ascii.eqb c quotation); [intros [= _ <-]; cbn; lia|].
  destruct (Ascii.eqb c "\").
  - destruct s as [|e s]; [done|]. cbn in Hn. destruct (Ascii.eqb e "u").
    + destruct s as [|h1 [|h2 [|h3 [|h4 s]]]]; try done. destruct (hex4 h1 h2 h3 h4); [|done]. cbn in *.
      destruct (scan_string s) as [[raw' rest']|] eqn:E; [|done]. intros [= _ <-].
      apply IH in E; lia.
    + destruct (simple_escape e); [|done]. cbn in *.
      destruct (scan_string s) as [[raw' rest']|] eqn:E; [|done]. intros [= _ <-].
      apply IH in E; lia.
  - destruct (_ <? _)%N; [done|]. destruct (scan_string s) as [[raw' rest']|] eqn:E; [|done].
    intros [= _ <-]. apply IH in E; cbn; lia.
Qed.

Lemma span_digits_length s : (length (span_digits s).2 <= length s)%nat.
Proof.
  induction s as [|c s IH]; cbn; [lia|]. destruct (is_digit c); [|cbn; lia].
  destruct (span_digits s). cbn in *. lia.
Qed.

Lemma scan_int_length s i rest : scan_int s = Some (i, rest) -> (length rest < length s)%nat.
Proof.
  destruct s as [|c s]; [done|]. unfold scan_int. destruct (Ascii.eqb c "0"); [intros [= _ <-]; cbn; lia|].
  destruct (is_digit c) eqn:Ed; [|done]. cbn [span_digits]. rewrite Ed.
  pose proof (span_digits_length s). destruct (span_digits s). intros [= _ <-]. cbn in *. lia.
Qed.

Lemma scan_frac_length s f rest : scan_frac s = Some (f, rest) -> (length rest <= length s)%nat.
Proof.
  destruct s as [|c s]; unfold scan_frac; [by intros [= _ <-]|].
  destruct (Ascii.eqb c "."); [|by intros [= _ <-]].
  pose proof (span_digits_length s). destruct (span_digits s) as [[|d ds] r]; [done|].
  intros [= _ <-]. cbn in *. lia.
Qed.

Lemma scan_exp_length s e rest : scan_exp s = Some (e, rest) -> (length rest <= length s)%nat.
Proof.
  destruct s as [|c s]; unfold scan_exp; [by intros [= _ <-]|].
  destruct (Ascii.eqb c "e" || Ascii.eqb c "E"); [|by intros [= _ <-]].
  assert (H : forall sign t, (length t <= length s)%nat ->
    match span_digits t with ([], _) => None | (ds, rest) => Some (c :: sign ++ ds, rest) end = Some (e, rest) ->
    (length rest <= length (c :: s))%nat).
  { intros sign t Ht. pose proof (span_digits_length t). destruct (span_digits t) as [[|d ds] r]; [done|].
    intros [= _ <-]. cbn in *. lia. }
  destruct s as [|g t]; [by apply (H [])|]. destruct (Ascii.eqb g "+" || Ascii.eqb g "-").
  - apply (H [g]). cbn. lia.
  - by apply (H []).
Qed.

Lemma scan_unsigned_length s l rest : scan_unsigned s = Some (l, rest) -> (length rest < length s)%nat.
Proof.
  unfold scan_unsigned. destruct (scan_int s) as [[i s1]|] eqn:E1; [|done]. cbn [mbind option_bind].
  destruct (scan_frac s1) as [[f s2]|] eqn:E2; [|done]. cbn [mbind option_bind].
  destruct (scan_exp s2) as [[e s3]|] eqn:E3; [|done]. intros [= _ <-].
  apply scan_int_length in E1. apply scan_frac_length in E2. apply scan_exp_length in E3. lia.
Qed.

Lemma scan_number_length s l rest : scan_number s = Some (l, rest) -> (length rest < length s)%nat.
Proof.
  destruct s as [|c s]; [done|]. cbn [scan_number]. destruct (Ascii.eqb c "-").
  - destruct (scan_unsigned s) as [[l' r]|] eqn:E; [|done]. intros [= _ <-].
    apply scan_unsigned_length in E. cbn. lia.
  - apply scan_unsigned_length.
Qed.

(** Fuel beyond twice the length of the input changes nothing, and what is
    parsed takes up some of the input. *)
Definition steady {A} (p : nat -> bytes -> option (A * bytes)) (k n : nat) : Prop :=
  forall s, (2 * length s + k < n)%nat ->
    (forall f, (n <= f)%nat -> p f s = p n s) /\
    forall x rest, p n s = Some (x, rest) -> (length rest < length s)%nat.

Lemma value_steady n :
  (forall d, steady (fun f => parse_elems f d) 1 n) -> (forall d, steady (fun f => parse_members f d) 1 n) ->
  forall d, steady (fun f => parse_value f d) 0 (S n).
Proof.
  intros He Hm d s Hs. pose proof (skip_space_length s) as Hsk.
  destruct (skip_space s) as [|c t] eqn:Es.
  { split; [intros [|f] Hf; [lia|]|intros x rest]; cbn [parse_value]; by rewrite Es. }
  cbn [length] in Hsk. destruct (He (d - 1)%N t ltac:(lia)) as [He1 He2].
  destruct (Hm (d - 1)%N t ltac:(lia)) as [Hm1 Hm2]. pose proof (skip_space_length t) as Hst. split.
  - intros [|f] Hf; [lia|]. cbn [parse_value]. rewrite Es, He1, Hm1 by lia. done.
  - intros x rest. cbn [parse_value]. rewrite Es.
    destruct (Ascii.eqb c "{"); [|destruct (Ascii.eqb c "["); [|destruct (Ascii.eqb c quotation);
      [|destruct (Ascii.eqb c "n"); [|destruct (Ascii.eqb c "t"); [|destruct (Ascii.eqb c "f")]]]]].
    + destruct (d =? 0)%N; [done|]. destruct (skip_space t) as [|b t']; [done|]. cbn [length] in Hst.
      destruct (Ascii.eqb b "}"); [intros [= _ <-]; lia|].
      destruct (parse_members n (d - 1) t) as [[ms r]|]; [|done]. intros [= _ <-].
      specialize (Hm2 _ _ eq_refl). lia.
    + destruct (d =? 0)%N; [done|]. destruct (skip_space t) as [|b t']; [done|]. cbn [length] in Hst.
      destruct (Ascii.eqb b "]"); [intros [= _ <-]; lia|].
      destruct (parse_elems n (d - 1) t) as [[ms r]|]; [|done]. intros [= _ <-].
      specialize (He2 _ _ eq_refl). lia.
    + destruct (scan_string t) as [[raw r]|] eqn:E; [|done]. intros [= _ <-].
      apply (scan_string_length (length t)) in E; lia.
    + destruct (strip _ t) eqn:E; [|done]. intros [= _ <-]. apply strip_length in E. lia.
    + destruct (strip _ t) eqn:E; [|done]. intros [= _ <-]. apply strip_length in E. lia.
    + destruct (strip _ t) eqn:E; [|done]. intros [= _ <-]. apply strip_length in E. lia.
    + destruct (scan_number (c :: t)) as [[l r]|] eqn:E; [|done]. intros [= _ <-].
      apply scan_number_length in E. cbn [length] in E. lia.
Qed.

Lemma elems_steady n d :
  steady (fun f => parse_value f d) 0 n -> steady (fun f => parse_elems f d) 1 n ->
  steady (fun f => parse_elems f d) 1 (S n).
Proof.
  intros Hv He s Hs. destruct (Hv s ltac:(lia)) as [Hv1 Hv2].
  destruct (parse_value n d s) as [[v r]|] eqn:Ev.
  2:{ split; [intros [|f] Hf; [lia|]|intros x rest]; cbn [parse_elems]; [rewrite Hv1 by lia|]; by rewrite ?Ev. }
  specialize (Hv2 _ _ eq_refl). pose proof (skip_space_length r) as Hsk.
  destruct (skip_space r) as [|c t] eqn:Es.
  { split; [intros [|f] Hf; [lia|]|intros x rest]; cbn [parse_elems]; [rewrite Hv1 by lia|];
      rewrite ?Ev; cbn [mbind option_bind]; by rewrite Es. }
  cbn [length] in Hsk. destruct (He t ltac:(lia)) as [He1 He2]. split.
  - intros [|f] Hf; [lia|]. cbn [parse_elems]. rewrite Hv1, Ev by lia. cbn [mbind option_bind].
    by rewrite Es, He1 by lia.
  - intros x rest. cbn [parse_elems]. rewrite Ev. cbn [mbind option_bind]. rewrite Es.
    destruct (Ascii.eqb c ","); [|destruct (Ascii.eqb c "]"); [intros [= _ <-]; lia|done]].
    destruct (parse_elems n d t) as [[vs r']|]; [|done]. intros [= _ <-]. specialize (He2 _ _ eq_refl). lia.
Qed.

Lemma members_steady n d :
  steady (fun f => parse_value f d) 0 n -> steady (fun f => parse_members f d) 1 n ->
  steady (fun f => parse_members f d) 1 (S n).
Proof.
  intros Hv Hm s Hs. pose proof (skip_space_length s) as Hsk.
  assert (Hbad : (forall f, parse_members (S f) d s = None) -> 
    (forall f, (S n <= f)%nat -> parse_members f d s = parse_members (S n) d s) /\
    (forall x rest, parse_members (S n) d s = Some (x, rest) -> (length rest < length s)%nat)).
  { intros Hb. split; [intros [|f] Hf; [lia|]; by rewrite !Hb|intros x rest; by rewrite Hb]. }
  destruct (skip_space s) as [|c t] eqn:Es; [apply Hbad; intros f; cbn [parse_members]; by rewrite Es|].
  cbn [length] in Hsk.
  destruct (Ascii.eqb c quotation) eqn:Ec; [|apply Hbad; intros f; cbn [parse_members]; by rewrite Es, Ec].
  destruct (scan_string t) as [[k r]|] eqn:Ek;
    [|apply Hbad; intros f; cbn [parse_members]; by rewrite Es, Ec, Ek].
  pose proof (scan_string_length _ _ _ _ (le_n _) Ek) as Hk. pose proof (skip_space_length r) as Hr.
  destruct (skip_space r) as [|c1 t1] eqn:Er;
    [apply Hbad; intros f; cbn [parse_members]; rewrite Es, Ec, Ek; cbn [mbind option_bind]; by rewrite Er|].
  destruct (Ascii.eqb c1 ":") eqn:Ec1;
    [|apply Hbad; intros f; cbn [parse_members]; rewrite Es, Ec, Ek; cbn [mbind option_bind]; by rewrite Er, Ec1].
  cbn [length] in Hr. destruct (Hv t1 ltac:(lia)) as [Hv1 Hv2].
  assert (Hstep : forall f, parse_members (S f) d s =
    '(v, rest) ← parse_value f d t1;
    match skip_space rest with
    | c :: t => if Ascii.eqb c "," then '(ms, rest) ← parse_members f d t; Some ((k, v) :: ms, rest)
                else if Ascii.eqb c "}" then Some ([(k, v)], t) else None
    | [] => None
    end).
  { intros f. cbn [parse_members]. rewrite Es, Ec, Ek. cbn [mbind option_bind]. by rewrite Er, Ec1. }
  clear Hbad. destruct (parse_value n d t1) as [[v r2]|] eqn:Ev.
  2:{ split; [intros [|f] Hf; [lia|]; rewrite !Hstep, Hv1 by lia|intros x rest; rewrite Hstep]; by rewrite Ev. }
  specialize (Hv2 _ _ eq_refl). pose proof (skip_space_length r2) as Hr2.
  destruct (skip_space r2) as [|c2 t2] eqn:Er2.
  { split; [intros [|f] Hf; [lia|]; rewrite !Hstep, Hv1 by lia|intros x rest; rewrite Hstep];
      rewrite Ev; cbn [mbind option_bind]; by rewrite Er2. }
  cbn [length] in Hr2. destruct (Hm t2 ltac:(lia)) as [Hm1 Hm2]. split.
  - intros [|f] Hf; [lia|]. rewrite !Hstep, Hv1, Ev by lia. cbn [mbind option_bind].
    by rewrite Er2, Hm1 by lia.
  - intros x rest. rewrite Hstep, Ev. cbn [mbind option_bind]. rewrite Er2.
    destruct (Ascii.eqb c2 ","); [|destruct (Ascii.eqb c2 "}"); [intros [= _ <-]; lia|done]].
    destruct (parse_members n d t2) as [[ms r3]|]; [|done]. intros [= _ <-]. specialize (Hm2 _ _ eq_refl). lia.
Qed.

Lemma parser_steady n d :
  steady (fun f => parse_value f d) 0 n /\ steady (fun f => parse_elems f d) 1 n /\
  steady (fun f => parse_members f d) 1 n.
Proof.
  revert d. induction n as [|n IH]; intros d; [repeat split; lia|].
  split; [|split].
  - apply value_steady; intros d'; apply IH.
  - apply elems_steady; apply IH.
  - apply members_steady; apply IH.
Qed.

(** The fuel [parse] starts with is enough for every input. *)
Lemma parse_fuel_enough s f :
  (S (2 * length s) <= f)%nat ->
  parse_value f maxNestingDepth s = parse_value (S (2 * length s)) maxNestingDepth s.
Proof. apply (parser_steady (S (2 * length s)) maxNestingDepth). lia. Qed.

(** The members beside their texts are the members. *)
Lemma raw_members_parse fuel depth s :
  parse_members fuel depth s = '(ms, rest) ← raw_members fuel depth s; Some (map (fun m => (m.1, m.2.1)) ms, rest).
Proof.
  revert s. induction fuel as [|fuel IH]; intros s; [done|]. cbn [parse_members raw_members].
  destruct (skip_space s) as [|q s1]; [done|]. destruct (Ascii.eqb q quotation); [|done].
  destruct (scan_string s1) as [[k s2]|]; [|done]. cbn [mbind option_bind].
  destruct (skip_space s2) as [|c s3]; [done|]. destruct (Ascii.eqb c ":"); [|done].
  destruct (parse_value fuel depth s3) as [[v r]|]; [|done]. cbn [mbind option_bind]. cbv zeta.
  destruct (skip_space r) as [|c2 s4]; [done|]. destruct (Ascii.eqb c2 ",").
  - rewrite IH. by destruct (raw_members fuel depth s4) as [[ms r2]|].
  - by destruct (Ascii.eqb c2 "}").
Qed.

Lemma raw_object_parse s ms :
  parse s = Some (JObj ms) -> map (fun m => (m.1, m.2.1)) <$> raw_object s = Some ms.
Proof.
  unfold parse, raw_object. destruct (parse_value _ _ s) as [[v rest]|] eqn:E; [|done].
  cbn [mbind option_bind]. intros H. assert (v = JObj ms) as -> by (destruct (skip_space rest); congruence). clear H.
  revert E. cbn [parse_value]. destruct (skip_space s) as [|c t]; [done|].
  destruct (Ascii.eqb c "{").
  - replace (maxNestingDepth =? 0)%N with false by done. destruct (skip_space t) as [|b t']; [done|].
    destruct (Ascii.eqb b "}"); [by intros [= <- _]|]. rewrite raw_members_parse.
    destruct (raw_members _ _ t) as [[rs r]|]; [|done]. cbn. by intros [= <- _].
  - destruct (Ascii.eqb c "["); [|destruct (Ascii.eqb c quotation); [|destruct (Ascii.eqb c "n");
      [|destruct (Ascii.eqb c "t"); [|destruct (Ascii.eqb c "f")]]]].
    + replace (maxNestingDepth =? 0)%N with false by done. destruct (skip_space t) as [|b t']; [done|].
      destruct (Ascii.eqb b "]"); [done|]. by destruct (parse_elems _ _ t) as [[? ?]|].
    + by destruct (scan_string t) as [[? ?]|].
    + by destruct (strip _ t).
    + by destruct (strip _ t).
    + by destruct (strip _ t).
    + by destruct (scan_number (c :: t)) as [[? ?]|].
Qed.

(** What is printed for an object is found again, each value with its text. *)
Lemma raw_member fuel depth k v rest :
  raw_ok k -> well_formed v -> (2 * length (print v) <= fuel)%nat -> (N.of_nat (height v) <= depth)%N ->
  stops rest ->
  raw_members (S fuel) depth (quoted k ++ ":" :: print v ++ rest) =
    match skip_space rest with
    | c :: t =>
        if Ascii.eqb c "," then '(ms, rest) ← raw_members fuel depth t; Some ((k, (v, print v)) :: ms, rest)
        else if Ascii.eqb c "}" then Some ([(k, (v, print v))], t)
        else None
    | [] => None
    end.
Proof.
  intros Hk Hw Hf Hd Hr. unfold quoted. cbn [app]. rewrite <- app_assoc. cbn [app raw_members].
  change (skip_space (quotation :: k ++ quotation :: ":" :: print v ++ rest))
    with (quotation :: k ++ quotation :: ":" :: print v ++ rest).
  cbv beta iota. rewrite Ascii.eqb_refl, Hk. cbn [mbind option_bind].
  change (skip_space (":" :: print v ++ rest)) with (":" :: print v ++ rest).
  cbv beta iota. rewrite Ascii.eqb_refl, (reads_well_formed v Hw) by done. cbn [mbind option_bind]. cbv zeta.
  assert (E : skip_space (print v ++ rest) = print v ++ rest).
  { destruct (print_head v Hw) as (c & t & -> & Ho). by apply (skip_opens c (t ++ rest)). }
  assert (Et : take (length (print v ++ rest) - length rest) (print v ++ rest) = print v).
  { rewrite length_app, Nat.add_sub. apply take_app_length. }
  by rewrite E, Et.
Qed.

Lemma raw_members_print m ms fuel depth rest :
  Forall (fun m => raw_ok m.1 /\ well_formed m.2) (m :: ms) ->
  (2 * length (join "," (map member_text (m :: ms))) + 1 <= fuel)%nat ->
  Forall (fun m => (N.of_nat (height m.2) <= depth)%N) (m :: ms) ->
  raw_members fuel depth (join "," (map member_text (m :: ms)) ++ "}" :: rest) =
    Some (map (fun m => (m.1, (m.2, print m.2))) (m :: ms), rest).
Proof.
  revert m fuel. induction ms as [|w ms IH]; intros [k v] fuel Hr Hf Hd;
    apply Forall_cons in Hr as [[Hk Hv] Hr]; apply Forall_cons in Hd as [Hdv Hd];
    cbn [map] in *; rewrite join_cons in *; (destruct fuel as [|fuel]; [lia|]); cbn [fst snd] in *.
  - cbn [map concat] in *. rewrite app_nil_r in *. unfold member_text in *. cbn [fst snd] in *.
    rewrite <- app_assoc. rewrite !length_app in Hf. cbn [app length] in *. rewrite raw_member by (done || lia). done.
  - rewrite concat_join in *. unfold member_text at 1. unfold member_text at 1 in Hf. cbn [fst snd] in *.
    rewrite <- !app_assoc. rewrite !length_app in Hf. cbn [app length] in *.
    rewrite raw_member by (done || lia).
    cbn [skip_space is_space Ascii.eqb Bool.eqb orb]. by rewrite IH by (done || lia).
Qed.

Lemma raw_object_print m ms :
  well_formed (JObj (m :: ms)) -> (N.of_nat (height (JObj (m :: ms))) <= maxNestingDepth)%N ->
  raw_object (print (JObj (m :: ms))) = Some (map (fun m => (m.1, (m.2, print m.2))) (m :: ms)).
Proof.
  intros Hw%well_formed_obj Hh. cbn [height] in Hh. pose proof (height_bound _ _ _ Hh) as Hds.
  unfold raw_object. cbn [print].
  change (map (fun m => quoted m.1 ++ ":" :: print m.2) (m :: ms)) with (map member_text (m :: ms)).
  cbn [skip_space is_space Ascii.eqb Bool.eqb orb].
  assert (Hhead : exists t', join "," (map member_text (m :: ms)) ++ ["}"] = quotation :: t').
  { cbn [map]. rewrite join_cons. by eexists. }
  destruct Hhead as [t' Et]. rewrite Et.
  change (skip_space (quotation :: t')) with (quotation :: t'). cbv beta iota.
  replace (Ascii.eqb quotation "}") with false by done. rewrite <- Et.
  rewrite (raw_members_print m ms); [done|done| |done].
  cbn [length]. rewrite length_app. cbn [length]. lia.
Qed.
