(* ===== verification/JsonPrefix.v ===== *)
(** * JsonPrefix: a document that is cut is not a document

    What the parser has read it reads again when more input follows, except
    that a number at the very end might go on. So no proper prefix of a printed
    object parses: a file that a crash cut short is not mistaken for a
    complete one. *)
From S2P Require Import Prelude Utf8 Job Framing LogSpec Wal Json JsonProps.

#[local] Open Scope char_scope.

Lemma skip_space_app s t : skip_space s <> [] -> skip_space (s ++ t) = skip_space s ++ t.
Proof. induction s as [|c s IH]; cbn; [done|]. destruct (is_space c); [apply IH|done]. Qed.

Lemma skip_cons s c r t : skip_space s = c :: r -> skip_space (s ++ t) = c :: r ++ t.
Proof. intros E. rewrite skip_space_app; by rewrite E. Qed.

Lemma strip_app p s rest t : strip p s = Some rest -> strip p (s ++ t) = Some (rest ++ t).
Proof.
  revert s. induction p as [|a p IH]; intros [|b s]; cbn; try done; try (by intros <-%(inj Some)).
  destruct (Ascii.eqb a b); [apply IH|done].
Qed.

Lemma scan_string_app n s raw rest t :
  (length s <= n)%nat -> scan_string s = Some (raw, rest) -> scan_string (s ++ t) = Some (raw, rest ++ t).
Proof.
  revert s raw rest. induction n as [|n IH]; intros [|c s] raw rest Hn; cbn in Hn; try lia; try done.
  cbn [scan_string app]. destruct (Ascii.eqb c quotation); [by intros [= <- <-]|].
  destruct (Ascii.eqb c "\").
  - destruct s as [|e s]; [done|]. cbn in Hn. cbn [app]. destruct (Ascii.eqb e "u").
    + destruct s as [|h1 [|h2 [|h3 [|h4 s]]]]; try done. cbn in Hn. cbn [app].
      destruct (hex4 h1 h2 h3 h4); [|done]. cbn [mbind option_bind].
      destruct (scan_string s) as [[raw' rest']|] eqn:E; [|done]. intros [= <- <-].
      by rewrite (IH s raw' rest' ltac:(lia) E).
    + destruct (simple_escape e); [|done]. cbn [mbind option_bind].
      destruct (scan_string s) as [[raw' rest']|] eqn:E; [|done]. intros [= <- <-].
      by rewrite (IH s raw' rest' ltac:(lia) E).
  - destruct (_ <? _)%N; [done|]. destruct (scan_string s) as [[raw' rest']|] eqn:E; [|done].
    intros [= <- <-]. by rewrite (IH s raw' rest' ltac:(lia) E).
Qed.

Lemma span_digits_more s ds rest t :
  span_digits s = (ds, rest) -> rest <> [] -> span_digits (s ++ t) = (ds, rest ++ t).
Proof.
  revert ds. induction s as [|c s IH]; intros ds; cbn; [by intros [= <- <-]|].
  destruct (is_digit c); [|by intros [= <- <-]]. destruct (span_digits s) as [ds' r].
  intros [= <- <-] Hr. by rewrite (IH ds' eq_refl Hr).
Qed.

Lemma scan_int_more s i rest t :
  scan_int s = Some (i, rest) -> rest <> [] -> scan_int (s ++ t) = Some (i, rest ++ t).
Proof.
  destruct s as [|c s]; [done|]. unfold scan_int. cbn [app].
  destruct (Ascii.eqb c "0"); [by intros [= <- <-]|]. destruct (is_digit c); [|done].
  intros [= E] Hr. f_equal. change (c :: s ++ t) with ((c :: s) ++ t). by apply span_digits_more.
Qed.

Lemma scan_frac_more s f rest t :
  scan_frac s = Some (f, rest) -> rest <> [] -> scan_frac (s ++ t) = Some (f, rest ++ t).
Proof.
  destruct s as [|c s]; unfold scan_frac; cbn [app]; [by intros [= <- <-]|].
  destruct (Ascii.eqb c "."); [|by intros [= <- <-]].
  destruct (span_digits s) as [[|d ds] r] eqn:E; [done|]. intros [= <- <-] Hr.
  by rewrite (span_digits_more _ _ _ _ E Hr).
Qed.

Lemma scan_exp_more s e rest t :
  scan_exp s = Some (e, rest) -> rest <> [] -> scan_exp (s ++ t) = Some (e, rest ++ t).
Proof.
  destruct s as [|c s]; unfold scan_exp; cbn [app]; [by intros [= <- <-]|].
  destruct (Ascii.eqb c "e" || Ascii.eqb c "E"); [|by intros [= <- <-]].
  destruct s as [|g s]; [done|]. cbn [app].
  assert (H : forall u ds r, span_digits u = (ds, r) -> r <> [] -> span_digits (u ++ t) = (ds, r ++ t))
    by (intros; by apply span_digits_more).
  destruct (Ascii.eqb g "+" || Ascii.eqb g "-").
  - destruct (span_digits s) as [[|d ds] r] eqn:E; [done|]. intros [= <- <-] Hr. by rewrite (H _ _ _ E Hr).
  - destruct (span_digits (g :: s)) as [[|d ds] r] eqn:E; [done|]. intros [= <- <-] Hr.
    change (g :: s ++ t) with ((g :: s) ++ t). by rewrite (H _ _ _ E Hr).
Qed.

Lemma scan_unsigned_more s l rest t :
  scan_unsigned s = Some (l, rest) -> rest <> [] -> scan_unsigned (s ++ t) = Some (l, rest ++ t).
Proof.
  unfold scan_unsigned. destruct (scan_int s) as [[i s1]|] eqn:E1; [|done]. cbn [mbind option_bind].
  destruct (scan_frac s1) as [[f s2]|] eqn:E2; [|done]. cbn [mbind option_bind].
  destruct (scan_exp s2) as [[e s3]|] eqn:E3; [|done]. intros [= <- <-] Hr.
  assert (H2 : s2 <> []) by (intros ->; by injection E3 as _ <-).
  assert (H1 : s1 <> []) by (intros ->; by injection E2 as _ <-).
  rewrite (scan_int_more _ _ _ _ E1 H1). cbn [mbind option_bind].
  rewrite (scan_frac_more _ _ _ _ E2 H2). cbn [mbind option_bind].
  by rewrite (scan_exp_more _ _ _ _ E3 Hr).
Qed.

Lemma scan_number_more s l rest t :
  scan_number s = Some (l, rest) -> rest <> [] -> scan_number (s ++ t) = Some (l, rest ++ t).
Proof.
  destruct s as [|c s]; [done|]. cbn [app scan_number]. destruct (Ascii.eqb c "-").
  - destruct (scan_unsigned s) as [[l' r]|] eqn:E; [|done]. intros [= <- <-] Hr.
    by rewrite (scan_unsigned_more _ _ _ _ E Hr).
  - intros E Hr. change (c :: s ++ t) with ((c :: s) ++ t). by apply scan_unsigned_more.
Qed.

(** A value that does not end where the input does, or that shows its end. *)
Definition ends (v : json) (rest : bytes) : Prop := rest <> [] \/ forall l, v <> JNum l.

Record extends (n : nat) : Prop := {
  ext_value d s v rest t : parse_value n d s = Some (v, rest) -> ends v rest ->
    parse_value n d (s ++ t) = Some (v, rest ++ t);
  ext_elems d s vs rest t : parse_elems n d s = Some (vs, rest) ->
    parse_elems n d (s ++ t) = Some (vs, rest ++ t);
  ext_members d s ms rest t : parse_members n d s = Some (ms, rest) ->
    parse_members n d (s ++ t) = Some (ms, rest ++ t)
}.

Lemma skip_nil_ends v rest c r : skip_space rest = c :: r -> ends v rest.
Proof. intros E. left. by intros ->. Qed.

Lemma ext_value_step n d s v rest t :
  extends n -> parse_value (S n) d s = Some (v, rest) -> ends v rest ->
  parse_value (S n) d (s ++ t) = Some (v, rest ++ t).
Proof.
  intros [_ He Hm]. cbn [parse_value]. destruct (skip_space s) as [|c r] eqn:E; [done|].
  rewrite (skip_cons _ _ _ t E).
  destruct (Ascii.eqb c "{"); [|destruct (Ascii.eqb c "["); [|destruct (Ascii.eqb c quotation);
    [|destruct (Ascii.eqb c "n"); [|destruct (Ascii.eqb c "t"); [|destruct (Ascii.eqb c "f")]]]]].
  - destruct (d =? 0)%N; [done|]. destruct (skip_space r) as [|b r'] eqn:Er; [done|].
    rewrite (skip_cons _ _ _ t Er). destruct (Ascii.eqb b "}"); [by intros [= <- <-]|].
    destruct (parse_members n (d - 1) r) as [[ms r2]|] eqn:E2; [|done]. intros [= <- <-] _.
    by rewrite (Hm _ _ _ _ t E2).
  - destruct (d =? 0)%N; [done|]. destruct (skip_space r) as [|b r'] eqn:Er; [done|].
    rewrite (skip_cons _ _ _ t Er). destruct (Ascii.eqb b "]"); [by intros [= <- <-]|].
    destruct (parse_elems n (d - 1) r) as [[vs r2]|] eqn:E2; [|done]. intros [= <- <-] _.
    by rewrite (He _ _ _ _ t E2).
  - destruct (scan_string r) as [[raw r2]|] eqn:E2; [|done]. intros [= <- <-] _.
    by rewrite (scan_string_app _ _ _ _ t (le_n _) E2).
  - destruct (strip _ r) as [r2|] eqn:E2; [|done]. intros [= <- <-] _. by rewrite (strip_app _ _ _ t E2).
  - destruct (strip _ r) as [r2|] eqn:E2; [|done]. intros [= <- <-] _. by rewrite (strip_app _ _ _ t E2).
  - destruct (strip _ r) as [r2|] eqn:E2; [|done]. intros [= <- <-] _. by rewrite (strip_app _ _ _ t E2).
  - destruct (scan_number (c :: r)) as [[l r2]|] eqn:E2; [|done]. intros [= <- <-] [Hr|Hr]; [|by destruct (Hr l)].
    change (c :: r ++ t) with ((c :: r) ++ t). by rewrite (scan_number_more _ _ _ t E2 Hr).
Qed.

Lemma parser_extends n : extends n.
Proof.
  induction n as [|n IH]; split; try done.
  - intros. by apply ext_value_step.
  - destruct IH as [Hv He _]. intros d s vs rest t. cbn [parse_elems].
    destruct (parse_value n d s) as [[v r]|] eqn:E; [|done]. cbn [mbind option_bind].
    destruct (skip_space r) as [|c r'] eqn:Er; [done|].
    rewrite (Hv _ _ _ _ t E (skip_nil_ends _ _ _ _ Er)). cbn [mbind option_bind].
    rewrite (skip_cons _ _ _ t Er). destruct (Ascii.eqb c ",").
    + destruct (parse_elems n d r') as [[vs' r2]|] eqn:E2; [|done]. intros [= <- <-].
      by rewrite (He _ _ _ _ t E2).
    + destruct (Ascii.eqb c "]"); [|done]. by intros [= <- <-].
  - destruct IH as [Hv _ Hm]. intros d s ms rest t. cbn [parse_members].
    destruct (skip_space s) as [|q s1] eqn:Es; [done|]. rewrite (skip_cons _ _ _ t Es).
    destruct (Ascii.eqb q quotation); [|done].
    destruct (scan_string s1) as [[k s2]|] eqn:Ek; [|done]. cbn [mbind option_bind].
    rewrite (scan_string_app _ _ _ _ t (le_n _) Ek). cbn [mbind option_bind].
    destruct (skip_space s2) as [|c s3] eqn:Ec; [done|]. rewrite (skip_cons _ _ _ t Ec).
    destruct (Ascii.eqb c ":"); [|done].
    destruct (parse_value n d s3) as [[v r]|] eqn:E; [|done]. cbn [mbind option_bind].
    destruct (skip_space r) as [|c2 r'] eqn:Er; [done|].
    rewrite (Hv _ _ _ _ t E (skip_nil_ends _ _ _ _ Er)). cbn [mbind option_bind].
    rewrite (skip_cons _ _ _ t Er). destruct (Ascii.eqb c2 ",").
    + destruct (parse_members n d r') as [[ms' r2]|] eqn:E2; [|done]. intros [= <- <-].
      by rewrite (Hm _ _ _ _ t E2).
    + destruct (Ascii.eqb c2 "}"); [|done]. by intros [= <- <-].
Qed.

(** No proper prefix of a printed object is a document. *)
Lemma cut_object_unreadable ms p t :
  well_formed (JObj ms) -> (N.of_nat (height (JObj ms)) <= maxNestingDepth)%N ->
  print (JObj ms) = p ++ t -> t <> [] -> parse p = None.
Proof.
  intros Hw Hh E Ht. destruct (parse p) as [v|] eqn:Ep; [exfalso|done]. unfold parse in Ep.
  destruct (parse_value (S (2 * length p)) maxNestingDepth p) as [[v' rest]|] eqn:Ev; [|done].
  cbn [mbind option_bind] in Ep. clear Ep.
  set (n := S (2 * length (p ++ t))).
  assert (Hn : parse_value n maxNestingDepth p = Some (v', rest)).
  { rewrite parse_fuel_enough; [done|]. unfold n. rewrite length_app. lia. }
  assert (Hv : ends v' rest).
  { right. intros l ->. destruct p as [|c p]; [done|]. injection E as Ec _. cbn in Ec. subst c.
    unfold n in Hn. cbn [parse_value skip_space is_space Ascii.eqb Bool.eqb orb] in Hn.
    destruct (maxNestingDepth =? 0)%N; [done|]. destruct (skip_space p) as [|b r]; [done|].
    destruct (Ascii.eqb b "}"); [done|].
    by destruct (parse_members _ (maxNestingDepth - 1) p) as [[? ?]|]. }
  pose proof (ext_value n (parser_extends n) _ _ _ _ t Hn Hv) as Hx.
  pose proof (reads_well_formed _ Hw n maxNestingDepth []) as Hr. rewrite app_nil_r, E in Hr.
  rewrite Hr in Hx; [|unfold n; lia|done|done]. injection Hx as _ Hx. by destruct rest, t.
Qed.
