(* ===== verification/Rfc3339.v ===== *)
(** * Rfc3339: instants as text, as [time.Time] marshals them

    [MarshalJSON] writes the civil date and the time of day in the zone of the
    value, with the fraction of a second without trailing zeros, and refuses
    years outside [0, 9999] and offsets of a day or more; [UnmarshalJSON] reads
    strict RFC 3339. An instant is a number of nanoseconds since the zero time,
    midnight of January 1 of year 1, UTC; the zone of a value is an offset in
    minutes beside it. *)
From S2P Require Import Prelude Utf8 Job Json.

#[local] Open Scope char_scope.
#[local] Open Scope Z_scope.

(** ** Civil dates *)

(** Days before a year, counted from year 1. *)
Definition days_before_year (y : Z) : Z :=
  let p := y - 1 in 365 * p + p / 4 - p / 100 + p / 400.

Definition is_leap (y : Z) : bool := (y mod 4 =? 0) && (negb (y mod 100 =? 0) || (y mod 400 =? 0)).

(** Days of a year before a month, 13 for the whole year. *)
Definition days_before_month (leap : bool) (m : Z) : Z :=
  (if m <=? 1 then 0 else if m =? 2 then 31 else
   (if leap then 1 else 0) +
   (if m =? 3 then 59 else if m =? 4 then 90 else if m =? 5 then 120 else if m =? 6 then 151
    else if m =? 7 then 181 else if m =? 8 then 212 else if m =? 9 then 243 else if m =? 10 then 273
    else if m =? 11 then 304 else if m =? 12 then 334 else 365)).

Definition days_in_month (leap : bool) (m : Z) : Z := days_before_month leap (m + 1) - days_before_month leap m.

(** The days from the zero time to a date. *)
Definition days_of (y m d : Z) : Z := days_before_year y + days_before_month (is_leap y) m + (d - 1).

(** The year a day falls in, and the days of the year before it. *)
Definition year_of (n : Z) : Z * Z :=
  let c400 := n / 146097 in let n := n mod 146097 in
  let c100 := n / 36524 in let c100 := c100 - c100 / 4 in let n := n - 36524 * c100 in
  let c4 := n / 1461 in let n := n - 1461 * c4 in
  let c1 := n / 365 in let c1 := c1 - c1 / 4 in let n := n - 365 * c1 in
  (400 * c400 + 100 * c100 + 4 * c4 + c1 + 1, n).

Fixpoint month_from (k : nat) (leap : bool) (m yday : Z) : Z :=
  match k with
  | O => m
  | S k => if yday <? days_before_month leap (m + 1) then m else month_from k leap (m + 1) yday
  end.

Definition civil_of (n : Z) : Z * Z * Z :=
  let '(y, yday) := year_of n in
  let m := month_from 11 (is_leap y) 1 yday in
  (y, m, yday - days_before_month (is_leap y) m + 1).

(** ** Text *)

Definition digit_of (n : Z) : byte := ascii_of_N (Z.to_N (48 + n)).
Definition two_digits (n : Z) : bytes := [digit_of (n / 10); digit_of (n mod 10)].
Definition four_digits (n : Z) : bytes := two_digits (n / 100) ++ two_digits (n mod 100).

(** Nine digits without the zeros at the end. *)
Fixpoint trim_zeros (ds : bytes) : bytes :=
  match ds with
  | [] => []
  | d :: ds => match trim_zeros ds with [] => if Ascii.eqb d "0" then [] else [d] | ds => d :: ds end
  end.

Definition nine_digits (n : Z) : bytes :=
  digit_of (n / 100000000) :: two_digits (n / 1000000 mod 100) ++ two_digits (n / 10000 mod 100) ++
  two_digits (n / 100 mod 100) ++ two_digits (n mod 100).

Definition format_fraction (ns : Z) : bytes :=
  match trim_zeros (nine_digits ns) with [] => [] | ds => "." :: ds end.

Definition format_offset (off : Z) : bytes :=
  if off =? 0 then ["Z"]
  else
    let sign := if off <? 0 then "-" else "+" in
    let off := Z.abs off in
    (sign : byte) :: two_digits (off / 60) ++ ":" :: two_digits (off mod 60).

Definition Day : Duration := 24 * Hour.

(** [appendStrictRFC3339] of the instant [t] in a zone [off] minutes east. *)
Definition format_time (t : Time) (off : Z) : option bytes :=
  let local := t + off * Minute in
  let '(y, m, d) := civil_of (local / Day) in
  let clock := local mod Day in
  let secs := clock / Second in
  if (0 <=? y) && (y <=? 9999) && (Z.abs off <? 24 * 60) then
    Some (four_digits y ++ "-" :: two_digits m ++ "-" :: two_digits d ++ "T" ::
      two_digits (secs / 3600) ++ ":" :: two_digits (secs / 60 mod 60) ++ ":" ::
      two_digits (secs mod 60) ++ format_fraction (clock mod Second) ++ format_offset off)
  else None.

Definition value_of (c : byte) : option Z :=
  if is_digit c then Some (Z.of_N (N_of_ascii c) - 48) else None.

(** [parseUint] of two digits, with bounds. *)
Definition parse_two (lo hi : Z) (s : bytes) : option (Z * bytes) :=
  match s with
  | a :: b :: s =>
      a ← value_of a; b ← value_of b;
      let n := 10 * a + b in
      if (lo <=? n) && (n <=? hi) then Some (n, s) else None
  | _ => None
  end.

Definition expect (c : byte) (s : bytes) : option bytes :=
  match s with b :: s => if Ascii.eqb b c then Some s else None | [] => None end.

(** The first nine digits of a fraction, as nanoseconds. *)
Fixpoint nanoseconds (k : nat) (ds : bytes) : Z :=
  match k, ds with
  | O, _ => 0
  | S k', d :: ds => default 0 (value_of d) * 10 ^ Z.of_nat k' + nanoseconds k' ds
  | S _, [] => 0
  end.

Definition parse_fraction (s : bytes) : Z * bytes :=
  match s with
  | c :: t =>
      if Ascii.eqb c "." then
        match span_digits t with ([], _) => (0, s) | (ds, rest) => (nanoseconds 9 ds, rest) end
      else (0, s)
  | [] => (0, s)
  end.

Definition parse_offset (s : bytes) : option Z :=
  match s with
  | c :: t =>
      if Ascii.eqb c "Z" then match t with [] => Some 0 | _ => None end
      else if Ascii.eqb c "+" || Ascii.eqb c "-" then
        '(h, t) ← parse_two 0 23 t; t ← expect ":" t; '(m, t) ← parse_two 0 59 t;
        match t with
        | [] => Some (if Ascii.eqb c "-" then - (60 * h + m) else 60 * h + m)
        | _ => None
        end
      else None
  | [] => None
  end.

(** [parseStrictRFC3339]. *)
Definition parse_time (s : bytes) : option Time :=
  '(hi, s) ← parse_two 0 99 s; '(lo, s) ← parse_two 0 99 s; s ← expect "-" s;
  let y := 100 * hi + lo in
  '(m, s) ← parse_two 1 12 s; s ← expect "-" s;
  '(d, s) ← parse_two 1 (days_in_month (is_leap y) m) s; s ← expect "T" s;
  '(hour, s) ← parse_two 0 23 s; s ← expect ":" s;
  '(min, s) ← parse_two 0 59 s; s ← expect ":" s; '(sec, s) ← parse_two 0 59 s;
  let '(ns, s) := parse_fraction s in
  off ← parse_offset s;
  Some (days_of y m d * Day + (3600 * hour + 60 * min + sec) * Second + ns - off * Minute).

Example format_example :
  format_time (63897000000 * Second + 1500000) 330 = Some (list_ascii_of_string "2025-10-25T20:10:00.0015+05:30").
Proof. vm_compute. reflexivity. Qed.

(** ** Dates *)

Lemma leap_split a b c e :
  0 <= b <= 3 -> 0 <= c <= 24 -> 0 <= e <= 3 ->
  is_leap (400 * a + 100 * b + 4 * c + e + 1) = (e =? 3) && (negb (c =? 24) || (b =? 3)).
Proof.
  intros Hb Hc He. unfold is_leap.
  destruct (Z.eqb_spec ((400 * a + 100 * b + 4 * c + e + 1) mod 4) 0),
    (Z.eqb_spec ((400 * a + 100 * b + 4 * c + e + 1) mod 100) 0),
    (Z.eqb_spec ((400 * a + 100 * b + 4 * c + e + 1) mod 400) 0),
    (Z.eqb_spec e 3), (Z.eqb_spec c 24), (Z.eqb_spec b 3); cbn; try done; exfalso; lia_div.
Qed.

Lemma year_of_spec n : let '(y, yday) := year_of n in
  n = days_before_year y + yday /\ 0 <= yday < 365 + (if is_leap y then 1 else 0).
Proof.
  unfold year_of.
  pose proof (Z.div_mod n 146097 ltac:(lia)) as E1. pose proof (Z.mod_pos_bound n 146097 ltac:(lia)) as B1.
  set (a := n / 146097) in *. set (n1 := n mod 146097) in *. clearbody a n1.
  set (b := n1 / 36524 - n1 / 36524 / 4). set (n2 := n1 - 36524 * b).
  assert (Hb : 0 <= b <= 3 /\ 0 <= n2 /\ (b < 3 -> n2 < 36524) /\ n2 < 36525) by (unfold n2, b; lia_div).
  set (c := n2 / 1461). set (n3 := n2 - 1461 * c).
  assert (Hc : 0 <= c <= 24 /\ 0 <= n3 < 1461 /\ (c = 24 -> b < 3 -> n3 < 1460)) by (unfold n3, c; lia_div).
  set (e := n3 / 365 - n3 / 365 / 4). set (yday := n3 - 365 * e).
  assert (He : 0 <= e <= 3 /\ 0 <= yday /\ (e < 3 -> yday < 365) /\ yday < 366 /\
    (e = 3 -> n3 < 1460 -> yday < 365)) by (unfold yday, e; lia_div).
  rewrite leap_split by lia. split.
  - unfold days_before_year. cbv zeta.
    replace (400 * a + 100 * b + 4 * c + e + 1 - 1) with (400 * a + 100 * b + 4 * c + e) by lia.
    replace ((400 * a + 100 * b + 4 * c + e) / 4) with (100 * a + 25 * b + c) by lia_div.
    replace ((400 * a + 100 * b + 4 * c + e) / 100) with (4 * a + b) by lia_div.
    replace ((400 * a + 100 * b + 4 * c + e) / 400) with a by lia_div.
    unfold yday, n3, n2. lia.
  - destruct (Z.eqb_spec e 3), (Z.eqb_spec c 24), (Z.eqb_spec b 3); cbn; lia.
Qed.

Lemma month_step leap m :
  1 <= m <= 12 -> days_before_month leap m < days_before_month leap (m + 1) <= days_before_month leap m + 31 /\
  days_before_month leap m + 28 <= days_before_month leap (m + 1).
Proof.
  intros H. assert (E : (m = 1 \/ m = 2 \/ m = 3 \/ m = 4 \/ m = 5 \/ m = 6 \/ m = 7 \/ m = 8 \/ m = 9 \/
    m = 10 \/ m = 11 \/ m = 12)) by lia.
  repeat (destruct E as [->|E]; [destruct leap; vm_compute; done|]). subst. destruct leap; vm_compute; done.
Qed.

Lemma month_from_spec k leap m yday :
  1 <= m -> m + Z.of_nat k = 12 -> days_before_month leap m <= yday ->
  yday < 365 + (if leap then 1 else 0) ->
  let r := month_from k leap m yday in
  1 <= r <= 12 /\ days_before_month leap r <= yday < days_before_month leap (r + 1).
Proof.
  revert m. induction k as [|k IH]; intros m Hm Hk Hl Hu; cbn [month_from].
  - cbv zeta. assert (m = 12) as -> by lia. split; [lia|]. split; [done|].
    assert (days_before_month leap (12 + 1) = 365 + (if leap then 1 else 0)) as -> by (by destruct leap). lia.
  - destruct (Z.ltb_spec yday (days_before_month leap (m + 1))); [cbv zeta; lia|]. apply IH; lia.
Qed.

Lemma civil_of_spec n : let '(y, m, d) := civil_of n in
  days_of y m d = n /\ 1 <= m <= 12 /\ 1 <= d <= days_in_month (is_leap y) m.
Proof.
  unfold civil_of. pose proof (year_of_spec n) as H. destruct (year_of n) as [y yday]. destruct H as [E H].
  destruct (month_from_spec 11 (is_leap y) 1 yday) as [Hm Hd]; [lia|done|cbn; lia|lia|].
  unfold days_of, days_in_month. lia.
Qed.

(** ** Digits *)

Lemma N_of_digit_of n : 0 <= n <= 9 -> N_of_ascii (digit_of n) = Z.to_N (48 + n).
Proof. intros H. unfold digit_of. apply N_ascii_embedding. lia. Qed.

Lemma digit_of_digit n : 0 <= n <= 9 -> is_digit (digit_of n) = true.
Proof.
  intros H. unfold is_digit, between. rewrite N_of_digit_of by done. apply andb_true_iff. rewrite !N.leb_le. lia.
Qed.

Lemma value_of_digit n : 0 <= n <= 9 -> value_of (digit_of n) = Some n.
Proof.
  intros H. unfold value_of. rewrite digit_of_digit, N_of_digit_of by done. f_equal. lia.
Qed.

Lemma parse_two_digits lo hi n rest :
  0 <= n <= 99 -> lo <= n <= hi -> parse_two lo hi (two_digits n ++ rest) = Some (n, rest).
Proof.
  intros Hn Hb. unfold two_digits. cbn [app parse_two]. rewrite !value_of_digit by lia_div. cbn [mbind option_bind].
  replace (10 * (n / 10) + n mod 10) with n by lia_div.
  by rewrite (proj2 (Z.leb_le _ _)), (proj2 (Z.leb_le _ _)) by lia.
Qed.

Lemma expect_app c rest : expect c (c :: rest) = Some rest.
Proof. cbn. by rewrite Ascii.eqb_refl. Qed.

(** ** Fractions *)

Lemma nanoseconds_trim k ds :
  Forall (fun c => is_digit c = true) ds -> nanoseconds k (trim_zeros ds) = nanoseconds k ds.
Proof.
  intros H. revert k. induction H as [|d ds Hd _ IH]; intros k; [done|]. cbn [trim_zeros].
  destruct k as [|k]; [by destruct (trim_zeros ds); try destruct (Ascii.eqb d "0")|].
  specialize (IH k). destruct (trim_zeros ds) as [|e es] eqn:E.
  - assert (Hz : nanoseconds k ds = 0) by (rewrite <- IH; by destruct k).
    destruct (Ascii.eqb_spec d "0") as [->|_]; cbn [nanoseconds]; rewrite Hz; [done|]. by destruct k.
  - cbn [nanoseconds] in *. by rewrite IH.
Qed.

Lemma trim_digits ds :
  Forall (fun c => is_digit c = true) ds -> Forall (fun c => is_digit c = true) (trim_zeros ds).
Proof.
  induction 1 as [|d ds Hd _ IH]; cbn [trim_zeros]; [constructor|].
  destruct (trim_zeros ds); [|by constructor]. destruct (Ascii.eqb d "0"); by repeat constructor.
Qed.

Lemma two_digits_digits n : 0 <= n < 100 -> Forall (fun c => is_digit c = true) (two_digits n).
Proof. intros H. unfold two_digits. repeat constructor; apply digit_of_digit; lia_div. Qed.

Lemma nanoseconds_cons k d ds :
  nanoseconds (S k) (d :: ds) = default 0 (value_of d) * 10 ^ Z.of_nat k + nanoseconds k ds.
Proof. done. Qed.

Lemma nanoseconds_two k n ds :
  0 <= n < 100 -> nanoseconds (S (S k)) (two_digits n ++ ds) = n * 10 ^ Z.of_nat k + nanoseconds k ds.
Proof.
  intros H. unfold two_digits. cbn [app nanoseconds]. rewrite !value_of_digit by lia_div. cbn [default].
  rewrite Nat2Z.inj_succ, Z.pow_succ_r by lia. pose proof (Z.div_mod n 10 ltac:(lia)). cbn. nia.
Qed.

(** A number below 10^9 in groups of digits. *)
Lemma digit_groups n : 0 <= n < 1000000000 ->
  0 <= n / 100000000 <= 9 /\ 0 <= n / 1000000 mod 100 < 100 /\ 0 <= n / 10000 mod 100 < 100 /\
  0 <= n / 100 mod 100 < 100 /\ 0 <= n mod 100 < 100 /\
  n = n / 100000000 * 100000000 + (n / 1000000 mod 100 * 1000000 +
        (n / 10000 mod 100 * 10000 + (n / 100 mod 100 * 100 + n mod 100))).
Proof. intros H. lia_div. Qed.

Lemma nine_digits_digits n : 0 <= n < 1000000000 -> Forall (fun c => is_digit c = true) (nine_digits n).
Proof.
  intros H. destruct (digit_groups n H) as (H1 & H2 & H3 & H4 & H5 & _). unfold nine_digits.
  constructor; [by apply digit_of_digit|]. rewrite !Forall_app. by repeat split; apply two_digits_digits.
Qed.

Lemma nanoseconds_digits n : 0 <= n < 1000000000 -> nanoseconds 9 (nine_digits n) = n.
Proof.
  intros H. destruct (digit_groups n H) as (H1 & H2 & H3 & H4 & H5 & E). unfold nine_digits.
  rewrite nanoseconds_cons, value_of_digit by done. cbn [default]. rewrite !nanoseconds_two by done.
  rewrite <- (app_nil_r (two_digits (n mod 100))), nanoseconds_two by done.
  change (10 ^ Z.of_nat 8) with 100000000.
  change (10 ^ Z.of_nat 6) with 1000000. change (10 ^ Z.of_nat 4) with 10000.
  change (10 ^ Z.of_nat 2) with 100. change (10 ^ Z.of_nat 0) with 1. cbn [nanoseconds]. unfold id. lia.
Qed.

Lemma format_offset_head off : exists c t, format_offset off = c :: t /\ is_digit c = false /\ Ascii.eqb c "." = false.
Proof.
  unfold format_offset. destruct (off =? 0); [by eexists _, _|]. by destruct (off <? 0); eexists _, _.
Qed.

Lemma parse_format_fraction ns off :
  0 <= ns < 1000000000 ->
  parse_fraction (format_fraction ns ++ format_offset off) = (ns, format_offset off).
Proof.
  intros H. destruct (format_offset_head off) as (c & t & E & Hc & Hdot).
  pose proof (nanoseconds_trim 9 _ (nine_digits_digits ns H)) as Hn. rewrite nanoseconds_digits in Hn by done.
  pose proof (trim_digits _ (nine_digits_digits ns H)) as Hd. unfold format_fraction.
  destruct (trim_zeros (nine_digits ns)) as [|d ds].
  - cbn in Hn. subst ns. cbn [app]. rewrite E. cbn [parse_fraction]. by rewrite Hdot.
  - cbn [app parse_fraction]. rewrite Ascii.eqb_refl.
    assert (Hs : span_digits (d :: ds ++ format_offset off) = (d :: ds, format_offset off)).
    { change (d :: ds ++ format_offset off) with ((d :: ds) ++ format_offset off).
      clear Hn. induction Hd as [|x xs Hx _ IH]; cbn [app].
      - rewrite E. cbn. by rewrite Hc.
      - cbn [span_digits]. by rewrite Hx, IH. }
    by rewrite Hs, Hn.
Qed.

Lemma parse_format_offset off : Z.abs off < 24 * 60 -> parse_offset (format_offset off) = Some off.
Proof.
  intros H. unfold format_offset. destruct (Z.eqb_spec off 0) as [->|Hne]; [done|].
  assert (Hm : 0 <= Z.abs off / 60 <= 23 /\ 0 <= Z.abs off mod 60 <= 59) by lia_div.
  assert (Hp : parse_two 0 23 (two_digits (Z.abs off / 60) ++ ":" :: two_digits (Z.abs off mod 60)) =
    Some (Z.abs off / 60, ":" :: two_digits (Z.abs off mod 60))%char) by (apply parse_two_digits; lia).
  assert (Hq : parse_two 0 59 (two_digits (Z.abs off mod 60)) = Some (Z.abs off mod 60, [])).
  { rewrite <- (app_nil_r (two_digits _)). apply parse_two_digits; lia. }
  destruct (Z.ltb_spec off 0); cbn [parse_offset Ascii.eqb Bool.eqb orb];
    rewrite Hp; cbn [mbind option_bind]; rewrite expect_app; cbn [mbind option_bind];
    rewrite Hq; cbn [mbind option_bind]; f_equal; lia_div.
Qed.

(** ** The round trip *)

Lemma parse_four y rest :
  0 <= y <= 9999 ->
  parse_two 0 99 (four_digits y ++ rest) = Some (y / 100, two_digits (y mod 100) ++ rest).
Proof. intros H. unfold four_digits. rewrite <- app_assoc. apply parse_two_digits; lia_div. Qed.

(** What is written in any zone is read as the same instant. *)
Lemma parse_format_time t off b : format_time t off = Some b -> parse_time b = Some t.
Proof.
  unfold format_time. pose proof (civil_of_spec ((t + off * Minute) / Day)) as Hc.
  destruct (civil_of _) as [[y m] d]. destruct Hc as (Hdays & Hm & Hd).
  destruct ((0 <=? y) && (y <=? 9999) && (Z.abs off <? 24 * 60)) eqn:Eb; [|done]. intros <-%(inj Some).
  apply andb_true_iff in Eb as [[Hy1%Z.leb_le Hy2%Z.leb_le]%andb_true_iff Ho%Z.ltb_lt].
  assert (HDay : Day = 86400000000000) by done. assert (HSec : Second = 1000000000) by done.
  assert (HMin : Minute = 60000000000) by done. rewrite HDay, HSec, HMin in *.
  pose proof (Z.div_mod (t + off * 60000000000) 86400000000000 ltac:(lia)) as Edm.
  pose proof (Z.mod_pos_bound (t + off * 60000000000) 86400000000000 ltac:(lia)) as Bdm.
  set (days := (t + off * 60000000000) / 86400000000000) in *.
  set (clock := (t + off * 60000000000) mod 86400000000000) in *. clearbody days clock.
  pose proof (month_step (is_leap y) m ltac:(lia)) as Hms.
  assert (Hdd : d <= 99) by (unfold days_in_month in Hd; lia).
  assert (Hsecs : 0 <= clock / 1000000000 < 86400) by lia_div.
  pose proof (Z.div_mod clock 1000000000 ltac:(lia)) as Ecl.
  pose proof (Z.mod_pos_bound clock 1000000000 ltac:(lia)) as Bcl.
  set (secs := clock / 1000000000) in *. set (ns := clock mod 1000000000) in *. clearbody secs ns.
  unfold parse_time. rewrite HDay, HSec, HMin.
  rewrite parse_four by lia. cbn [mbind option_bind].
  rewrite parse_two_digits by lia_div. cbn [mbind option_bind]. rewrite expect_app. cbn [mbind option_bind].
  replace (100 * (y / 100) + y mod 100) with y by lia_div.
  rewrite parse_two_digits by lia. cbn [mbind option_bind]. rewrite expect_app. cbn [mbind option_bind].
  rewrite parse_two_digits by lia. cbn [mbind option_bind]. rewrite expect_app. cbn [mbind option_bind].
  rewrite parse_two_digits by lia_div. cbn [mbind option_bind]. rewrite expect_app. cbn [mbind option_bind].
  rewrite parse_two_digits by lia_div. cbn [mbind option_bind]. rewrite expect_app. cbn [mbind option_bind].
  rewrite parse_two_digits by lia_div. cbn [mbind option_bind].
  rewrite parse_format_fraction by lia. cbn [mbind option_bind]. rewrite parse_format_offset by done.
  cbn [mbind option_bind]. f_equal. rewrite Hdays. clear -Edm Ecl Hsecs Bcl. lia_div.
Qed.
