(* ===== verification/Fields.v ===== *)
(** * Fields: structs as JSON objects

    How [encoding/json] fills a struct from the members of an object: any order,
    unknown members ignored, names matched up to case when no name is equal, the
    last of several members winning, [null] leaving a field as it was, and a
    value of the wrong kind an error. *)
From S2P Require Import Prelude Utf8 Job Framing LogSpec Wal Json Rfc3339.

(** ** Members *)

Definition name (s : string) : bytes := list_ascii_of_string s.
Definition text (s : string) : json := JStr (quote (name s)).

(** A member that is left out when its value is empty. *)
Definition member (s : string) (v : json) : list (bytes * json) := [(name s, v)].
Definition optional (empty : bool) (s : string) (v : json) : list (bytes * json) :=
  if empty then [] else member s v.

(** What a field of a struct does with a value, and the fields by name. *)
Abbreviation decoder V T := (V -> T -> option T) (only parsing).
Abbreviation fields V T := (list (string * decoder V T)) (only parsing).

(** [foldName], where it can make a difference to an ASCII name: the ASCII
    letters, and the two other runes that fold to one (U+017F and U+212A). *)
Fixpoint fold_name (s : bytes) : bytes :=
  match s with
  | [] => []
  | c :: t =>
      if between 97 122 c then ascii_of_N (N_of_ascii c - 32) :: fold_name t
      else match t with
      | c1 :: t1 =>
          if (N_of_ascii c =? 197)%N && (N_of_ascii c1 =? 191)%N then ("S" : byte)%char :: fold_name t1
          else match t1 with
          | c2 :: t2 =>
              if (N_of_ascii c =? 226)%N && (N_of_ascii c1 =? 132)%N && (N_of_ascii c2 =? 170)%N
              then ("K" : byte)%char :: fold_name t2
              else c :: fold_name t
          | [] => c :: fold_name t
          end
      | [] => [c]
      end
  end.

Fixpoint find_by {V T} (p : bytes -> bool) (fs : fields V T) : option (decoder V T) :=
  match fs with
  | [] => None
  | (n, d) :: fs => if p (name n) then Some d else find_by p fs
  end.

Definition find_field {V T} (fs : fields V T) (key : bytes) : option (decoder V T) :=
  match find_by (fun n => bool_decide (n = key)) fs with
  | Some d => Some d
  | None => find_by (fun n => bool_decide (fold_name n = fold_name key)) fs
  end.

Definition set_member {V T} (fs : fields V T) (m : bytes * V) (t : T) : option T :=
  match find_field fs (unquote m.1) with Some d => d m.2 t | None => Some t end.

Fixpoint set_members {V T} (fs : fields V T) (ms : list (bytes * V)) (t : T) : option T :=
  match ms with
  | [] => Some t
  | m :: ms => t ← set_member fs m t; set_members fs ms t
  end.

(** A struct. *)
Definition as_object {T} (fs : fields json T) : decoder json T :=
  fun v t => match v with JNull => Some t | JObj ms => set_members fs ms t | _ => None end.

(** ** Kinds of fields *)

Section kinds.
Context {T : Type}.

(** A field that [read] makes out of anything but [null]. *)
Definition as_kind {A} (read : json -> option A) (set : A -> T -> T) : decoder json T :=
  fun v t => match v with JNull => Some t | _ => x ← read v; Some (set x t) end.

Definition read_text (v : json) : option string :=
  match v with JStr r => Some (string_of_list_ascii (unquote r)) | _ => None end.
Definition read_bool (v : json) : option bool :=
  match v with JBool b => Some b | _ => None end.
Definition read_int (v : json) : option Z :=
  match v with JNum l => ParseInt l | _ => None end.
Definition read_uint (bits : N) (v : json) : option N :=
  match v with JNum l => ParseUint10 bits l | _ => None end.

(** Base64, or the bytes one by one. *)
Definition read_bytes (v : json) : option bytes :=
  match v with
  | JStr r => unbase64 (unquote r)
  | JArr vs =>
      mapM (fun v => match v with JNull => Some (ascii_of_N 0) | _ => ascii_of_N <$> read_uint 8 v end) vs
  | _ => None
  end.

(** [time.Time.UnmarshalJSON] gets the literal as it stands. *)
Definition read_time (v : json) : option Time :=
  match v with JStr r => parse_time r | _ => None end.

Definition as_text := as_kind read_text.
Definition as_bool := as_kind read_bool.
Definition as_int := as_kind read_int.
Definition as_uint := as_kind (read_uint 64).
Definition as_time := as_kind read_time.

(** [null] makes a nil slice. *)
Definition as_bytes (set : bytes -> T -> T) : decoder json T :=
  fun v t => match v with JNull => Some (set [] t) | _ => x ← read_bytes v; Some (set x t) end.
End kinds.

(** ** Ranges *)

Definition fits_int (z : Z) : bool := (- 2 ^ 63 <=? z) && (z <? 2 ^ 63).
Definition fits_uint (n : N) : bool := (n <? 2 ^ 64)%N.
