(* ===== verification/FieldsProps.v ===== *)
(** * FieldsProps: fields are read back as they were written

    What the JSON of one field is read as, and the steps with which the members
    of a struct are read one after the other. *)
From S2P Require Import Prelude Utf8 Job Framing LogSpec Wal Json JsonProps Rfc3339 Fields.

#[local] Open Scope Z_scope.

Create HintDb codec discriminated.

(** ** Texts without escapes *)

Definition plain (c : byte) : bool :=
  is_ascii c && negb (Ascii.eqb c quotation) && negb (Ascii.eqb c "\"%char) && negb (N_of_ascii c <? 32)%N.

(** Plain text is a literal that stands for itself. *)
Lemma plain_text r : Forall (fun c => plain c = true) r -> raw_ok r /\ unquote r = r.
Proof.
  unfold raw_ok. induction 1 as [|c r Hc _ [IH1 IH2]]; [done|].
  apply andb_true_iff in Hc as [[[Ha H1%negb_true_iff]%andb_true_iff H2%negb_true_iff]%andb_true_iff
    H3%negb_true_iff]. split.
  - intros rest. cbn [app]. by rewrite scan_plain, IH1.
  - cbn [unquote]. by rewrite H2, rune_size_ascii, IH2.
Qed.

Lemma digits_plain ds : Forall (fun c => is_digit c = true) ds -> Forall (fun c => plain c = true) ds.
Proof.
  apply List.Forall_impl. intros c. destruct c as [[] [] [] [] [] [] [] []]; vm_compute; intros H; done.
Qed.

Lemma sextets_plain : forallb (fun n => plain (base64_digit n)) (map N.of_nat (seq 0 64)) = true.
Proof. vm_compute. reflexivity. Qed.

Lemma sextet_plain n : (n < 64)%N -> plain (base64_digit n) = true.
Proof.
  intros H. pose proof sextets_plain as Hs. rewrite forallb_forall in Hs. apply Hs.
  apply in_map_iff. exists (N.to_nat n). split; [lia|]. apply in_seq. lia.
Qed.

Lemma base64_plain s : Forall (fun c => plain c = true) (base64 s).
Proof.
  induction s as [|a|a b|a b c s IH] using base64_ind; cbn [base64]; [constructor|..].
  all: pose proof (N_ascii_bounded a) as Ba.
  - destruct (quantum (N_of_ascii a) 0 0) as ((H1 & H2 & _) & _); [done..|].
    rewrite N.mul_0_r, !N.add_0_r in *. repeat constructor; by apply sextet_plain.
  - pose proof (N_ascii_bounded b) as Bb.
    destruct (quantum (N_of_ascii a) (N_of_ascii b) 0) as ((H1 & H2 & H3 & _) & _); [done..|].
    rewrite !N.add_0_r in *. repeat constructor; by apply sextet_plain.
  - pose proof (N_ascii_bounded b) as Bb. pose proof (N_ascii_bounded c) as Bc.
    destruct (quantum (N_of_ascii a) (N_of_ascii b) (N_of_ascii c)) as ((H1 & H2 & H3 & H4) & _); [done..|].
    repeat constructor; first [by apply sextet_plain|exact IH].
Qed.

Lemma two_plain n : 0 <= n < 100 -> Forall (fun c => plain c = true) (two_digits n).
Proof. intros H. by apply digits_plain, two_digits_digits. Qed.

Lemma format_fraction_plain ns :
  0 <= ns < 1000000000 -> Forall (fun c => plain c = true) (format_fraction ns).
Proof.
  intros H. pose proof (trim_digits _ (nine_digits_digits ns H)) as Hd. unfold format_fraction.
  destruct (trim_zeros (nine_digits ns)); constructor; [done|]. by apply digits_plain.
Qed.

Lemma format_offset_plain off :
  Z.abs off < 24 * 60 -> Forall (fun c => plain c = true) (format_offset off).
Proof.
  intros H. unfold format_offset. destruct (off =? 0); [by repeat constructor|].
  constructor; [by destruct (off <? 0)|]. apply Forall_app. split; [apply two_plain; lia_div|].
  constructor; [done|]. apply two_plain. lia_div.
Qed.

Lemma format_time_plain t off b : format_time t off = Some b -> Forall (fun c => plain c = true) b.
Proof.
  unfold format_time. pose proof (civil_of_spec ((t + off * Minute) / Day)) as Hc.
  destruct (civil_of _) as [[y m] d]. destruct Hc as (_ & Hm & Hd).
  destruct ((0 <=? y) && (y <=? 9999) && (Z.abs off <? 24 * 60)) eqn:Eb; [|done]. intros <-%(inj Some).
  apply andb_true_iff in Eb as [[Hy1%Z.leb_le Hy2%Z.leb_le]%andb_true_iff Ho%Z.ltb_lt].
  pose proof (month_step (is_leap y) m Hm) as Hms. unfold days_in_month in Hd.
  assert (HDay : Day = 86400000000000) by done. assert (HSec : Second = 1000000000) by done.
  rewrite HDay, HSec in *.
  pose proof (Z.mod_pos_bound (t + off * Minute) 86400000000000 ltac:(lia)) as Bdm.
  set (clock := (t + off * Minute) mod 86400000000000) in *. clearbody clock.
  assert (Hsecs : 0 <= clock / 1000000000 < 86400) by lia_div.
  pose proof (Z.mod_pos_bound clock 1000000000 ltac:(lia)) as Bcl.
  set (secs := clock / 1000000000) in *. set (ns := clock mod 1000000000) in *. clearbody secs ns.
  unfold four_digits. rewrite ?Forall_app, ?Forall_cons, ?Forall_app, ?Forall_cons.
  repeat match goal with
  | |- _ /\ _ => split
  | |- Forall _ (_ ++ _) => apply Forall_app
  | |- Forall _ (_ :: _) => constructor
  | |- Forall _ (two_digits _) => apply two_plain; lia_div
  | |- Forall _ (format_fraction _) => by apply format_fraction_plain
  | |- Forall _ (format_offset _) => by apply format_offset_plain
  | |- _ => done
  end.
Qed.

(** ** Reading fields *)

Section reading.
Context {T : Type}.
Implicit Types (t : T).

Lemma unquote_text s : valid_string s = true -> string_of_list_ascii (unquote (quote (name s))) = s.
Proof. intros H. unfold name. rewrite unquote_quote by done. apply string_of_list_ascii_of_string. Qed.

Lemma as_text_text set s t : valid_string s = true -> as_text set (text s) t = Some (set s t).
Proof. intros H. unfold as_text, as_kind. cbn. by rewrite unquote_text. Qed.

Lemma as_bytes_base64 set b t : as_bytes set (JStr (base64 b)) t = Some (set b t).
Proof.
  unfold as_bytes. cbn [read_bytes]. destruct (plain_text _ (base64_plain b)) as [_ ->].
  by rewrite unbase64_base64.
Qed.

Lemma as_int_format set z t : fits_int z = true -> as_int set (JNum (format_int z)) t = Some (set z t).
Proof.
  intros [H1%Z.leb_le H2%Z.ltb_lt]%andb_true_iff. unfold as_int, as_kind. cbn [read_int].
  by rewrite ParseInt_format.
Qed.

Lemma as_uint_format set n t :
  fits_uint n = true -> as_uint set (JNum (format_uint n)) t = Some (set n t).
Proof.
  intros H%N.ltb_lt. unfold as_uint, as_kind. cbn [read_uint]. by rewrite ParseUint10_format.
Qed.

Lemma as_bool_bool set b t : as_bool set (JBool b) t = Some (set b t).
Proof. done. Qed.

Lemma set_named {V} (fs : fields V T) s d v t t' rest :
  find_field fs (unquote (name s)) = Some d -> d v t = Some t' ->
  set_members fs ((name s, v) :: rest) t = set_members fs rest t'.
Proof. intros Hf Hd. cbn. unfold set_member. cbn. by rewrite Hf, Hd. Qed.

Context (fs : fields json T).

Lemma set_one s d v t t' rest :
  find_field fs (unquote (name s)) = Some d -> d v t = Some t' ->
  set_members fs (member s v ++ rest) t = set_members fs rest t'.
Proof. apply set_named. Qed.

Lemma set_opt s d empty v t t' rest :
  find_field fs (unquote (name s)) = Some d -> d v t = Some t' -> (empty = true -> t = t') ->
  set_members fs (optional empty s v ++ rest) t = set_members fs rest t'.
Proof. intros Hf Hd He. destruct empty; [by rewrite He|]. by eapply set_one. Qed.

End reading.

#[export] Hint Resolve as_text_text as_bytes_base64 as_int_format as_uint_format as_bool_bool : codec.

(** ** Well-formedness *)

(** A member whose name and value the parser takes as they are. *)
Definition member_ok (k : nat) (m : bytes * json) : Prop :=
  raw_ok m.1 /\ well_formed m.2 /\ (height m.2 <= k)%nat.

Lemma object_ok k ms :
  Forall (member_ok k) ms -> well_formed (JObj ms) /\ (height (JObj ms) <= S k)%nat.
Proof.
  intros H. split.
  - apply well_formed_obj. revert H. apply List.Forall_impl. by intros m (? & ? & _).
  - cbn. apply le_n_S. induction H as [|m ms (_ & _ & Hm) _ IH]; cbn; lia.
Qed.

Lemma name_raw s : forallb plain (name s) = true -> raw_ok (name s).
Proof. intros H. apply plain_text. by apply List.Forall_forall, forallb_forall. Qed.

Lemma member_okI k s v :
  forallb plain (name s) = true -> well_formed v -> (height v <= k)%nat ->
  Forall (member_ok k) (member s v).
Proof. intros Hs Hv Hk. repeat constructor; [by apply name_raw|done|done]. Qed.

Lemma optional_ok k empty s v :
  forallb plain (name s) = true -> well_formed v -> (height v <= k)%nat ->
  Forall (member_ok k) (optional empty s v).
Proof. intros Hs Hv Hk. destruct empty; [constructor|]. by apply member_okI. Qed.

Lemma text_ok s : well_formed (text s).
Proof. intros rest. apply scan_quote. Qed.
Lemma int_ok z : well_formed (JNum (format_int z)).
Proof. intros rest. apply scan_format_int. Qed.
Lemma uint_ok n : well_formed (JNum (format_uint n)).
Proof. intros rest. apply scan_format_uint. Qed.
Lemma base64_ok b : well_formed (JStr (base64 b)).
Proof. exact (proj1 (plain_text _ (base64_plain b))). Qed.

#[export] Hint Resolve text_ok int_ok uint_ok base64_ok : codec.
