(* ===== verification/Event.v ===== *)
(** * Event: what the store writes to its log

    The record of [internal/broker/event.go] and the interface of its encoding.
    An event states the outcome of a decision; every choice that depends on a
    clock or on a random source is a field. *)
From S2P Require Import Prelude Job Framing.

Inductive eventType :=
  | eventSubmit
  | eventLease
  | eventAck
  | eventFail
  | eventReplayJob
  | eventEpochReserve
  | eventOther (tag : string).   (** any other text in a log *)

#[export] Instance eventType_eq_dec : EqDecision eventType.
Proof. solve_decision. Defined.

(** The text of a type. *)
Definition eventType_text (t : eventType) : string :=
  match t with
  | eventSubmit => "submit"
  | eventLease => "lease"
  | eventAck => "ack"
  | eventFail => "fail"
  | eventReplayJob => "replay"
  | eventEpochReserve => "epoch_reserve"
  | eventOther tag => tag
  end.

Record event := mkEvent {
  EType : eventType;
  EJob : option Job;
  EJobID : string;
  EEpoch : N;
  EWorkerID : string;
  ELeaseExpiresAt : Time;
  EAttempt : Z;
  EReason : string;
  ENextState : State;
  EEligibleAt : Time;
  ETimeout : bool;
  EReservedUpTo : N
}.

#[export] Instance event_eq_dec : EqDecision event.
Proof. solve_decision. Defined.

(** The literals the store builds; a field that is not given is zero. *)
Definition ev_submit (j : Job) : event :=
  mkEvent eventSubmit (Some j) "" 0 "" 0 0 "" StateUnspecified 0 false 0.
Definition ev_lease (id : string) (epoch : N) (worker : string) (expires : Time) (attempt : Z) :
    event :=
  mkEvent eventLease None id epoch worker expires attempt "" StateUnspecified 0 false 0.
Definition ev_ack (id : string) (epoch : N) : event :=
  mkEvent eventAck None id epoch "" 0 0 "" StateUnspecified 0 false 0.
Definition ev_fail (id : string) (epoch : N) (attempt : Z) (reason : string) (next : State)
    (eligible : Time) (timeout : bool) : event :=
  mkEvent eventFail None id epoch "" 0 attempt reason next eligible timeout 0.
Definition ev_replay (id : string) (eligible : Time) : event :=
  mkEvent eventReplayJob None id 0 "" 0 0 "" StateUnspecified eligible false 0.
Definition ev_reserve (upto : N) : event :=
  mkEvent eventEpochReserve None "" 0 "" 0 0 "" StateUnspecified 0 false upto.

(** [encodeEvent] and [decodeEvent]; [None] is an error. *)
Class EventCodec := {
  encodeEvent : event -> option bytes;
  decodeEvent : bytes -> option event
}.

(** What the store needs of the encoding: the events in [codec_ok] can be
    logged and read back. *)
Class CodecLaws `{!EventCodec} := {
  codec_ok : event -> Prop;
  codec_roundtrip e : codec_ok e ->
    exists b, encodeEvent e = Some b /\ valid_payload b /\ decodeEvent b = Some e
}.
