(* ===== verification/Memory.v ===== *)
(** * Memory: the state that the log rebuilds

    The maps of [internal/broker/store.go] that events change, [apply], and
    the steps of recovery that follow a replay. *)
From S2P Require Import Prelude Job Heap Index Event.

(** The fields of [Store] that [apply] writes. *)
Record Mem := mkMem {
  jobs : gmap string Job;
  idem : gmap string string;
  leased : gset string;
  epochReservedUpTo : N
}.

Definition empty_mem : Mem := mkMem ∅ ∅ ∅ 0.

Definition set_jobs (f : gmap string Job -> gmap string Job) (m : Mem) : Mem :=
  mkMem (f (jobs m)) (idem m) (leased m) (epochReservedUpTo m).
Definition set_leased (f : gset string -> gset string) (m : Mem) : Mem :=
  mkMem (jobs m) (idem m) (f (leased m)) (epochReservedUpTo m).

(** [idemKey]: the two texts with a NUL byte between them. *)
Definition idemKey (queue key : string) : string :=
  (queue ++ String (ascii_of_N 0) key)%string.

(** ** [apply] *)

Inductive applyError :=
  | SubmitWithoutJob
  | UnknownJob (what id : string)
  | UnknownType (text : string).

(** The assignments of each case. *)
Definition lease_job (e : event) (j : Job) : Job :=
  mkJob (ID j) (Queue j) (Handler j) (Payload j) (IdempotencyKey j) (JPriority j)
    (MaxRetries j) (EAttempt e) StateLeased (EEpoch e) (EnqueuedAt j) (EligibleAt j)
    (ELeaseExpiresAt e) (EWorkerID e) (LastError j).

Definition ack_job (j : Job) : Job :=
  mkJob (ID j) (Queue j) (Handler j) (Payload j) (IdempotencyKey j) (JPriority j)
    (MaxRetries j) (Attempt j) StateDone (Epoch j) (EnqueuedAt j) (EligibleAt j)
    zeroTime "" (LastError j).

Definition fail_job (e : event) (j : Job) : Job :=
  mkJob (ID j) (Queue j) (Handler j) (Payload j) (IdempotencyKey j) (JPriority j)
    (MaxRetries j) (EAttempt e) (ENextState e) (Epoch j) (EnqueuedAt j) (EEligibleAt e)
    zeroTime "" (EReason e).

Definition replay_job (e : event) (j : Job) : Job :=
  mkJob (ID j) (Queue j) (Handler j) (Payload j) (IdempotencyKey j) (JPriority j)
    (MaxRetries j) 0 StatePending (Epoch j) (EnqueuedAt j) (EEligibleAt e)
    zeroTime "" "".

(** The assignment of [Heartbeat]. *)
Definition extend_lease (expires : Time) (j : Job) : Job :=
  mkJob (ID j) (Queue j) (Handler j) (Payload j) (IdempotencyKey j) (JPriority j)
    (MaxRetries j) (Attempt j) (JState j) (Epoch j) (EnqueuedAt j) (EligibleAt j)
    expires (LeasedBy j) (LastError j).

(** Look the job up, change it in place, then update the leased set. *)
Definition on_job (what : string) (e : event) (f : Job -> Job)
    (g : string -> gset string -> gset string) : M Mem applyError unit :=
  let* m := gets jobs in
  match m !! EJobID e with
  | None => throw (UnknownJob what (EJobID e))
  | Some j =>
      modify (set_jobs <[EJobID e := f j]>) ;;;
      modify (set_leased (g (ID j)))
  end.

Definition remove (id : string) (l : gset string) : gset string := l ∖ {[id]}.
Definition add (id : string) (l : gset string) : gset string := {[id]} ∪ l.

Definition submit_mem (j : Job) (m : Mem) : Mem :=
  mkMem (<[ID j := j]> (jobs m))
    (if bool_decide (IdempotencyKey j = "") then idem m
     else <[idemKey (Queue j) (IdempotencyKey j) := ID j]> (idem m))
    (leased m) (epochReservedUpTo m).

Definition apply (e : event) : M Mem applyError unit :=
  match EType e with
  | eventSubmit =>
      match EJob e with
      | None => throw SubmitWithoutJob
      | Some j => modify (submit_mem j)
      end
  | eventLease => on_job "lease" e (lease_job e) add
  | eventAck => on_job "ack" e ack_job remove
  | eventFail => on_job "fail" e (fail_job e) remove
  | eventReplayJob => on_job "replay" e (replay_job e) remove
  | eventEpochReserve =>
      modify (fun m => mkMem (jobs m) (idem m) (leased m) (EReservedUpTo e))
  | eventOther tag => throw (UnknownType tag)
  end.

(** Events applied in order, until the first that fails. *)
Definition apply_all (es : list event) : M Mem applyError unit :=
  (fix go es := match es with [] => ret tt | e :: es => apply e ;;; go es end) es.

(** ** After a replay *)

Definition recover_job (now : Time) (j : Job) : Job :=
  if bool_decide (JState j = StateLeased) then
    mkJob (ID j) (Queue j) (Handler j) (Payload j) (IdempotencyKey j) (JPriority j)
      (MaxRetries j) (Attempt j) StateRetryWait (Epoch j) (EnqueuedAt j) now
      zeroTime "" "broker restarted while job was leased"
  else j.

Definition recoverLeasedLocked (now : Time) (m : Mem) : Mem :=
  mkMem (recover_job now <$> jobs m) (idem m) ∅ (epochReservedUpTo m).

(** [rebuildIndexLocked], visiting the jobs in the order [js]. *)
Definition rebuild_in (js : list Job) (now : Time) : scheduleIndex :=
  fold_left (fun ix j => if Leasable (JState j) then push j now ix else ix) js
    newScheduleIndex.

Definition jobs_in_order (m : gmap string Job) : list Job := map snd (map_to_list m).

Definition rebuildIndexLocked (m : Mem) (now : Time) : scheduleIndex :=
  rebuild_in (jobs_in_order (jobs m)) now.

(** ** Lemmas *)

(** The job an event works on, and what it does to it. *)
Definition job_effect (e : event) : option ((Job -> Job) * (string -> gset string -> gset string)) :=
  match EType e with
  | eventLease => Some (lease_job e, add)
  | eventAck => Some (ack_job, remove)
  | eventFail => Some (fail_job e, remove)
  | eventReplayJob => Some (replay_job e, remove)
  | _ => None
  end.

Lemma apply_on_job e f g m j :
  job_effect e = Some (f, g) -> jobs m !! EJobID e = Some j ->
  apply e m = (inr tt, mkMem (<[EJobID e := f j]> (jobs m)) (idem m) (g (ID j) (leased m))
                         (epochReservedUpTo m)).
Proof.
  unfold job_effect, apply. destruct (EType e); try done; intros [= <- <-] Hj;
    unfold on_job; (erewrite bind_ok; [|reflexivity]); by rewrite Hj.
Qed.

Lemma apply_err e m x m' : apply e m = (inl x, m') -> m' = m.
Proof.
  unfold apply, on_job, bind, gets, throw, modify. intros H.
  destruct (EType e); try (by injection H).
  - destruct (EJob e); [done|by injection H].
  - destruct (jobs m !! EJobID e); [done|by injection H].
  - destruct (jobs m !! EJobID e); [done|by injection H].
  - destruct (jobs m !! EJobID e); [done|by injection H].
  - destruct (jobs m !! EJobID e); [done|by injection H].
Qed.

Lemma apply_all_app es1 es2 m :
  apply_all (es1 ++ es2) m = (apply_all es1 ;;; apply_all es2) m.
Proof.
  revert m. induction es1 as [|e es1 IH]; intros m; [done|].
  cbn [app]. unfold apply_all in *. cbn. unfold bind in *.
  destruct (apply e m) as [[x|[]] m']; [done|]. apply IH.
Qed.

Lemma apply_all_snoc es e m m' :
  apply_all es m = (inr tt, m') -> apply_all (es ++ [e]) m = apply e m'.
Proof.
  intros H. rewrite apply_all_app. erewrite bind_ok by exact H.
  cbn. unfold bind. by destruct (apply e m') as [[x|[]] m''].
Qed.

(** Every way [apply] can change the memory. *)
Lemma apply_cases e m m' :
  apply e m = (inr tt, m') ->
  (exists j, EType e = eventSubmit /\ EJob e = Some j /\ m' = submit_mem j m) \/
  (exists f g j, job_effect e = Some (f, g) /\ jobs m !! EJobID e = Some j /\
     m' = mkMem (<[EJobID e := f j]> (jobs m)) (idem m) (g (ID j) (leased m))
            (epochReservedUpTo m)) \/
  (EType e = eventEpochReserve /\
     m' = mkMem (jobs m) (idem m) (leased m) (EReservedUpTo e)).
Proof.
  intros H. destruct (job_effect e) as [[f g]|] eqn:Ef.
  - right. left. destruct (jobs m !! EJobID e) as [j|] eqn:Ej.
    + rewrite (apply_on_job _ _ _ _ _ Ef Ej) in H. injection H as <-.
      by exists f, g, j.
    + exfalso. revert H. unfold apply, job_effect in *.
      destruct (EType e); try done; unfold on_job; (erewrite bind_ok; [|reflexivity]);
        by rewrite Ej.
  - unfold apply, job_effect in *. destruct (EType e); try done.
    + left. destruct (EJob e) as [j|]; [|done]. injection H as <-. by exists j.
    + right. right. by injection H as <-.
Qed.
