(* ===== verification/MemSpec.v ===== *)
(** * MemSpec: well-formed memories and the histories that lead to them

    The invariant of the store's maps, the equivalence of memories that ignores
    lease deadlines (heartbeats are not logged), and the memories reached by
    replaying a history of events. *)
From S2P Require Import Prelude Job Heap Index Event Memory.

(** ** The invariant *)

Definition job_key (j : Job) : string := idemKey (Queue j) (IdempotencyKey j).

Record mem_wf (m : Mem) : Prop := {
  wf_keys id j : jobs m !! id = Some j -> ID j = id;
  wf_leased id : id ∈ leased m <-> exists j, jobs m !! id = Some j /\ JState j = StateLeased;
  wf_idem_complete id j :
    jobs m !! id = Some j -> IdempotencyKey j <> "" -> idem m !! job_key j = Some id;
  wf_idem_sound k id :
    idem m !! k = Some id ->
    exists j, jobs m !! id = Some j /\ IdempotencyKey j <> "" /\ k = job_key j
}.

(** A job that is neither done nor dead-lettered. *)
Definition running (m : Mem) (id : string) : Prop :=
  exists j, jobs m !! id = Some j /\ Terminal (JState j) = false.

(** Events the store records: a submitted job is new and pending, a lease uses
    a reserved token, only a dead-lettered job is replayed, and the other
    events are about jobs that are not over. *)
Definition admissible (e : event) (m : Mem) : Prop :=
  match EType e with
  | eventSubmit =>
      match EJob e with
      | None => False
      | Some j => jobs m !! ID j = None /\ JState j = StatePending /\ Epoch j = 0%N /\
                  (IdempotencyKey j <> "" -> idem m !! job_key j = None)
      end
  | eventLease => running m (EJobID e) /\ (EEpoch e <= epochReservedUpTo m)%N
  | eventAck => running m (EJobID e)
  | eventFail => running m (EJobID e) /\
                 (ENextState e = StateRetryWait \/ ENextState e = StateDeadLetter)
  | eventReplayJob =>
      exists j, jobs m !! EJobID e = Some j /\ JState j = StateDeadLetter
  | eventEpochReserve => (epochReservedUpTo m < EReservedUpTo e)%N
  | eventOther _ => False
  end.

Lemma empty_mem_wf : mem_wf empty_mem.
Proof.
  split; cbn.
  - intros id j H. by rewrite lookup_empty in H.
  - intros id. split; [set_solver|]. intros (j & H & _). by rewrite lookup_empty in H.
  - intros id j H. by rewrite lookup_empty in H.
  - intros k id H. by rewrite lookup_empty in H.
Qed.

Lemma admissible_is_Some e f g m :
  admissible e m -> job_effect e = Some (f, g) -> is_Some (jobs m !! EJobID e).
Proof.
  unfold admissible, job_effect, running. destruct (EType e); try done; intros H _.
  - destruct H as [(j & -> & _) _]. eauto.
  - destruct H as (j & -> & _). eauto.
  - destruct H as [(j & -> & _) _]. eauto.
  - destruct H as (j & -> & _). eauto.
Qed.

Lemma admissible_applies e m : admissible e m -> exists m', apply e m = (inr tt, m').
Proof.
  intros H. destruct (job_effect e) as [[f g]|] eqn:Ef.
  - destruct (admissible_is_Some _ _ _ _ H Ef) as [j Hj].
    rewrite (apply_on_job _ _ _ _ _ Ef Hj). eauto.
  - unfold admissible, job_effect, apply in *. destruct (EType e); try done; [|eauto].
    destruct (EJob e); [eauto|done].
Qed.

(** What an event on a job keeps of it. *)
Lemma effect_fixed e f g j :
  job_effect e = Some (f, g) ->
  ID (f j) = ID j /\ Queue (f j) = Queue j /\ IdempotencyKey (f j) = IdempotencyKey j /\
  JPriority (f j) = JPriority j /\ MaxRetries (f j) = MaxRetries j /\
  EnqueuedAt (f j) = EnqueuedAt j /\ Payload (f j) = Payload j /\ Handler (f j) = Handler j.
Proof. unfold job_effect. destruct (EType e); try done; intros [= <- <-]; done. Qed.

Lemma elem_add id' id l : id' ∈ add id l <-> id' = id \/ id' ∈ l.
Proof. unfold add. by rewrite elem_of_union, elem_of_singleton. Qed.

Lemma elem_remove id' id l : id' ∈ remove id l <-> id' ∈ l /\ id' <> id.
Proof. unfold remove. by rewrite elem_of_difference, elem_of_singleton. Qed.

(** The leased set follows the state of the job. *)
Lemma effect_leased e f g m (l : gset string) j id :
  job_effect e = Some (f, g) -> admissible e m ->
  id ∈ g id l <-> JState (f j) = StateLeased.
Proof.
  unfold job_effect, admissible.
  destruct (EType e); try done; intros [= <- <-] Had; cbn;
    rewrite ?elem_add, ?elem_remove.
  - split; [done|by left].
  - split; [by intros [_ ?]|done].
  - split; [by intros [_ ?]|]. by destruct Had as [_ [-> | ->]].
  - split; [by intros [_ ?]|done].
Qed.

Lemma effect_leased_other e f g (l : gset string) id id' :
  job_effect e = Some (f, g) -> id' <> id -> id' ∈ g id l <-> id' ∈ l.
Proof.
  unfold job_effect. destruct (EType e); try done; intros [= <- <-] Hne;
    rewrite ?elem_add, ?elem_remove; tauto.
Qed.

Lemma wf_idem_submit m j id :
  mem_wf m -> jobs m !! ID j = None ->
  (IdempotencyKey j <> "" -> idem m !! job_key j = None) ->
  forall k, idem (submit_mem j m) !! k = Some id <->
    (k = job_key j /\ IdempotencyKey j <> "" /\ id = ID j) \/ idem m !! k = Some id.
Proof.
  intros Hwf Hnew Hkey k. cbn. case_bool_decide as Hk.
  - split; [by right|]. by intros [(_ & ? & _)|?].
  - specialize (Hkey Hk). unfold job_key in *. rewrite lookup_insert.
    destruct (decide (idemKey (Queue j) (IdempotencyKey j) = k)) as [<-|Hne].
    + split; [intros [= <-]; by left|]. intros [(_ & _ & ->)|H]; [done|congruence].
    + split; [by right|]. intros [(-> & _)|H]; [done|done].
Qed.

Lemma submit_mem_wf m j :
  mem_wf m -> jobs m !! ID j = None -> JState j = StatePending ->
  (IdempotencyKey j <> "" -> idem m !! job_key j = None) -> mem_wf (submit_mem j m).
Proof.
  intros Hwf Hnew Hst Hkey.
  pose proof (wf_idem_submit m j) as Hidem. split.
  - intros id j'. cbn. rewrite lookup_insert. case_decide; [by intros [= <-]|apply Hwf].
  - intros id. cbn. rewrite (wf_leased m Hwf). split.
    + intros (j' & Hj & Hl). exists j'. split; [|done].
      rewrite lookup_insert_ne; [done|]. intros E. congruence.
    + intros (j' & Hj & Hl). rewrite lookup_insert in Hj.
      case_decide; [injection Hj as <-; congruence|by eauto].
  - intros id j' Hj Hk. apply Hidem; [done..|]. cbn in Hj. rewrite lookup_insert in Hj.
    case_decide; [injection Hj as <-; left; done|right; by apply (wf_idem_complete m Hwf)].
  - intros k id. rewrite Hidem by done. cbn.
    intros [(-> & Hk & ->)|H].
    + exists j. by rewrite lookup_insert_eq.
    + destruct (wf_idem_sound m Hwf _ _ H) as (j' & Hj & Hk & ->). exists j'.
      rewrite lookup_insert_ne; [done|]. intros E. congruence.
Qed.

Lemma effect_mem_wf m e f g j :
  mem_wf m -> admissible e m -> job_effect e = Some (f, g) -> jobs m !! EJobID e = Some j ->
  mem_wf (mkMem (<[EJobID e := f j]> (jobs m)) (idem m) (g (ID j) (leased m))
            (epochReservedUpTo m)).
Proof.
  intros Hwf Had Hf Hj.
  destruct (effect_fixed e f g j Hf) as (Hid & Hq & Hk & _).
  assert (Hkey : job_key (f j) = job_key j) by (unfold job_key; by rewrite Hq, Hk).
  assert (HID : ID j = EJobID e) by (by apply (wf_keys m Hwf)). split; cbn.
  - intros id j'. rewrite lookup_insert. case_decide; [|apply Hwf].
    intros [= <-]. congruence.
  - intros id. rewrite lookup_insert. rewrite HID.
    destruct (decide (EJobID e = id)) as [<-|Hne].
    + rewrite (effect_leased e f g m _ j) by done. split; [by eauto|].
      by intros (j' & [= <-] & H).
    + rewrite (effect_leased_other e f g) by done. apply Hwf.
  - intros id j'. rewrite lookup_insert. destruct (decide (EJobID e = id)) as [<-|Hne].
    + intros [= <-]. rewrite Hkey, Hk. by apply (wf_idem_complete m Hwf).
    + apply (wf_idem_complete m Hwf).
  - intros k id H. destruct (wf_idem_sound m Hwf _ _ H) as (j' & Hj' & Hk' & ->).
    rewrite lookup_insert. destruct (decide (EJobID e = id)) as [<-|Hne].
    + assert (j' = j) as -> by congruence. exists (f j). by rewrite Hk, Hkey.
    + by exists j'.
Qed.

(** Every admissible event keeps the invariant. *)
Lemma apply_mem_wf e m m' :
  mem_wf m -> admissible e m -> apply e m = (inr tt, m') -> mem_wf m'.
Proof.
  intros Hwf Had Happ. destruct (apply_cases e m m' Happ)
    as [(j & Ht & Hj & ->)|[(f & g & j & Hf & Hj & ->)|[Ht ->]]].
  - unfold admissible in Had. rewrite Ht, Hj in Had. destruct Had as (? & ? & _ & ?).
    by apply submit_mem_wf.
  - by apply effect_mem_wf.
  - destruct Hwf. by split.
Qed.

(** ** Memories up to lease deadlines *)

Definition forget (j : Job) : Job := extend_lease zeroTime j.

#[export] Instance mem_equiv : Equiv Mem := fun m1 m2 =>
  forget <$> jobs m1 = forget <$> jobs m2 /\ idem m1 = idem m2 /\
  leased m1 = leased m2 /\ epochReservedUpTo m1 = epochReservedUpTo m2.

#[export] Instance mem_equiv_equivalence : Equivalence (≡@{Mem}).
Proof.
  split.
  - done.
  - intros m1 m2 (H1 & H2 & H3 & H4). done.
  - intros m1 m2 m3 (H1 & H2 & H3 & H4) (H1' & H2' & H3' & H4'). split_and!; congruence.
Qed.

Lemma equiv_lookup m1 m2 id j1 :
  m1 ≡ m2 -> jobs m1 !! id = Some j1 ->
  exists j2, jobs m2 !! id = Some j2 /\ forget j1 = forget j2.
Proof.
  intros (H & _) Hj. apply (f_equal (.!! id)) in H. rewrite !lookup_fmap, Hj in H.
  destruct (jobs m2 !! id) as [j2|]; [|done]. apply (inj Some) in H. by exists j2.
Qed.

Lemma equiv_is_Some m1 m2 id :
  m1 ≡ m2 -> is_Some (jobs m1 !! id) -> is_Some (jobs m2 !! id).
Proof. intros H [j Hj]. destruct (equiv_lookup _ _ _ _ H Hj) as (j2 & -> & _). eauto. Qed.

Lemma equiv_None m1 m2 id : m1 ≡ m2 -> jobs m1 !! id = None -> jobs m2 !! id = None.
Proof.
  intros H Hj. apply eq_None_not_Some. intros Hs.
  apply (equiv_is_Some m2 m1 id) in Hs as [? ?]; [congruence|by symmetry].
Qed.

(** [admissible] and [apply] do not see lease deadlines. *)
#[export] Instance admissible_proper e : Proper ((≡) ==> iff) (admissible e).
Proof.
  enough (Hd : forall m1 m2, m1 ≡ m2 -> admissible e m1 -> admissible e m2).
  { intros m1 m2 H. split; apply Hd; [done|by symmetry]. }
  intros m1 m2 H. unfold admissible.
  assert (Hlook : forall j, jobs m1 !! EJobID e = Some j ->
            exists j', jobs m2 !! EJobID e = Some j' /\ JState j' = JState j).
  { intros j Hj. destruct (equiv_lookup _ _ _ _ H Hj) as (j' & Hj' & Hf). exists j'.
    split; [done|]. by apply (f_equal JState) in Hf. }
  assert (Hrun : running m1 (EJobID e) -> running m2 (EJobID e)).
  { intros (j & Hj & Ht). destruct (Hlook j Hj) as (j' & Hj' & E). exists j'. by rewrite E. }
  pose proof H as (_ & Hidem & _ & Hres).
  destruct (EType e); try done.
  - destruct (EJob e) as [j|]; [|done]. rewrite Hidem. intros (H1 & H2 & H3).
    split; [by apply (equiv_None m1)|done].
  - rewrite Hres. intros [? ?]. by split; [apply Hrun|].
  - intros [? ?]. by split; [apply Hrun|].
  - intros (j & Hj & Ht). destruct (Hlook j Hj) as (j' & Hj' & E). exists j'. by rewrite E.
  - by rewrite Hres.
Qed.

Lemma effect_forget e f g j1 j2 :
  job_effect e = Some (f, g) -> forget j1 = forget j2 -> forget (f j1) = forget (f j2).
Proof.
  intros Hf Hj. assert (Hj' := Hj). unfold forget, extend_lease in Hj. injection Hj as ????????.
  revert Hf. unfold job_effect. destruct (EType e); try done; intros [= <- _];
    unfold forget, extend_lease; cbn; congruence.
Qed.

Lemma apply_equiv e m1 m2 m1' :
  m1 ≡ m2 -> apply e m1 = (inr tt, m1') ->
  exists m2', apply e m2 = (inr tt, m2') /\ m1' ≡ m2'.
Proof.
  intros H Happ. pose proof H as (Hj & Hi & Hl & Hr).
  destruct (apply_cases e m1 m1' Happ) as [(j & Ht & He & ->)|[(f & g & j & Hf & Hg & ->)|[Ht ->]]].
  - exists (submit_mem j m2). unfold apply. rewrite Ht, He. split; [done|].
    unfold submit_mem. split; cbn; [by rewrite !fmap_insert, Hj|]. rewrite Hi, Hl, Hr. done.
  - destruct (equiv_lookup _ _ _ _ H Hg) as (j2 & Hg2 & Hfo).
    rewrite (apply_on_job _ _ _ _ _ Hf Hg2). eexists. split; [done|].
    split; cbn.
    + by rewrite !fmap_insert, Hj, (effect_forget e f g j j2).
    + rewrite Hi, Hl, Hr. apply (f_equal ID) in Hfo. cbn in Hfo. by rewrite Hfo.
  - eexists. unfold apply. rewrite Ht. split; [done|]. by split_and!.
Qed.

(** ** A live memory and what a replay makes of the same events

    The steps of recovery are not logged. A job that was leased when a process
    died waits for a retry in the next one and is still leased in a replay of
    the log; the eligibility and the last error that recovery gave it survive,
    in the live memory only, until the job fails again. *)

Definition job_core (j : Job) :=
  (ID j, Queue j, Handler j, Payload j, IdempotencyKey j, JPriority j, MaxRetries j,
   Attempt j, Epoch j, EnqueuedAt j).

(** A recovery names no worker and gives an error of its own. *)
Definition texts_sim (live rep : Job) : Prop :=
  (LeasedBy live = LeasedBy rep \/ LeasedBy live = "") /\
  (LastError live = LastError rep \/ LastError live = "broker restarted while job was leased").

Definition job_sim (live rep : Job) : Prop :=
  (job_core live = job_core rep /\ texts_sim live rep) /\
  match JState live, JState rep with
  | StateRetryWait, StateLeased | StateLeased, StateLeased | StateDone, StateDone => True
  | a, b => a = b /\ EligibleAt live = EligibleAt rep /\ LastError live = LastError rep
  end.

Record mem_sim (live rep : Mem) : Prop := {
  sim_jobs id : option_Forall2 job_sim (jobs live !! id) (jobs rep !! id);
  sim_idem : idem live = idem rep;
  sim_reserved : epochReservedUpTo live = epochReservedUpTo rep
}.

Lemma job_sim_refl j : job_sim j j.
Proof. split; [split; [done|split; by left]|]. by destruct (JState j). Qed.

Lemma mem_sim_refl m : mem_sim m m.
Proof. split; [|done..]. intros id. destruct (jobs m !! id); constructor. apply job_sim_refl. Qed.

Lemma sim_lookup live rep id j :
  mem_sim live rep -> jobs live !! id = Some j ->
  exists j', jobs rep !! id = Some j' /\ job_sim j j'.
Proof.
  intros [H _ _] Hj. specialize (H id). rewrite Hj in H. inversion H; subst. eauto.
Qed.

Lemma sim_is_Some live rep id :
  mem_sim live rep -> is_Some (jobs live !! id) <-> is_Some (jobs rep !! id).
Proof.
  intros [H _ _]. specialize (H id).
  inversion H as [?? Hj E1 E2|E1 E2]; split; by intros [? [=]].
Qed.

(** Heartbeats do not matter to the relation. *)
#[export] Instance mem_sim_proper : Proper ((≡) ==> (=) ==> iff) mem_sim.
Proof.
  enough (Hd : forall m1 m2 r, m1 ≡ m2 -> mem_sim m1 r -> mem_sim m2 r).
  { intros m1 m2 H r ? <-. split; apply Hd; [done|by symmetry]. }
  intros m1 m2 r H [Hj Hi Hr]. pose proof H as (_ & Hi' & _ & Hr'). split; [|congruence..].
  intros id. specialize (Hj id). destruct (jobs m1 !! id) as [j1|] eqn:E1.
  - destruct (equiv_lookup _ _ _ _ H E1) as (j2 & -> & Hf).
    inversion Hj as [? jr Hs|]; subst. constructor. destruct Hs as [[Hc Htx] Hst].
    injection Hf as E2 E3 E4 E5 E6 E7 E8 E9 E10 E11 E12 E13 E14 E15.
    split; [|by rewrite <- E10, <- E13, <- E15].
    split; [rewrite <- Hc; unfold job_core; congruence|]. unfold texts_sim in *. by rewrite <- E14, <- E15.
  - by rewrite (equiv_None _ _ _ H E1).
Qed.

Lemma effect_sim e f g live rep :
  job_effect e = Some (f, g) -> job_sim live rep -> job_sim (f live) (f rep).
Proof.
  intros Hf [[Hc [Hb He]] Hs]. unfold job_core in Hc. injection Hc as ??????????.
  unfold job_effect in Hf. destruct (EType e); try done; injection Hf as <- _;
    (split; [split; [unfold job_core; cbn; congruence|split; cbn; tauto]|]); cbn; try done.
  by destruct (ENextState e).
Qed.

Lemma sim_insert id live rep jl jr f g :
  mem_sim live rep -> job_sim jl jr ->
  mem_sim (mkMem (<[id := jl]> (jobs live)) (idem live) (f (leased live)) (epochReservedUpTo live))
          (mkMem (<[id := jr]> (jobs rep)) (idem rep) (g (leased rep)) (epochReservedUpTo rep)).
Proof.
  intros [Hj Hi Hr] Hs. split; cbn; [|done..]. intros id'.
  rewrite !lookup_insert. case_decide; [by constructor|apply Hj].
Qed.

(** The same event on both sides. *)
Lemma apply_sim e live rep live' :
  mem_sim live rep -> apply e live = (inr tt, live') ->
  exists rep', apply e rep = (inr tt, rep') /\ mem_sim live' rep'.
Proof.
  intros Hsim Happ. destruct (apply_cases e live live' Happ)
    as [(j & Ht & He & ->)|[(f & g & j & Hf & Hg & ->)|[Ht ->]]].
  - exists (submit_mem j rep). unfold apply. rewrite Ht, He. split; [done|].
    destruct Hsim as [Hj Hi Hr]. split; cbn; [|by rewrite Hi|done].
    intros id. rewrite !lookup_insert. case_decide; [constructor; apply job_sim_refl|apply Hj].
  - destruct (sim_lookup _ _ _ _ Hsim Hg) as (jr & Hjr & Hs).
    rewrite (apply_on_job _ _ _ _ _ Hf Hjr). eexists. split; [done|].
    apply (sim_insert _ _ _ _ _ (g (ID j)) (g (ID jr))); [done|]. by eapply effect_sim.
  - eexists. unfold apply. rewrite Ht. split; [done|]. destruct Hsim. by split.
Qed.

Lemma sim_lookup_r live rep id j' :
  mem_sim live rep -> jobs rep !! id = Some j' ->
  exists j, jobs live !! id = Some j /\ job_sim j j'.
Proof.
  intros [H _ _] Hj. specialize (H id). rewrite Hj in H. inversion H; subst. eauto.
Qed.

Lemma sim_terminal j j' : job_sim j j' -> Terminal (JState j) = Terminal (JState j').
Proof.
  intros [_ H]. destruct (JState j), (JState j'); try done; by destruct H.
Qed.

Lemma sim_dead j j' :
  job_sim j j' -> JState j = StateDeadLetter <-> JState j' = StateDeadLetter.
Proof.
  intros [_ H]. split; intros E; rewrite E in H.
  - by destruct H.
  - destruct (JState j); try done; by destruct H.
Qed.

Lemma running_sim live rep id : mem_sim live rep -> running live id <-> running rep id.
Proof.
  intros H. split; intros (j & Hj & Ht).
  - destruct (sim_lookup _ _ _ _ H Hj) as (j' & Hj' & Hs). exists j'.
    by rewrite <- (sim_terminal _ _ Hs).
  - destruct (sim_lookup_r _ _ _ _ H Hj) as (j' & Hj' & Hs). exists j'.
    by rewrite (sim_terminal _ _ Hs).
Qed.

Lemma admissible_sim e live rep :
  mem_sim live rep -> admissible e live <-> admissible e rep.
Proof.
  intros Hsim. pose proof (running_sim live rep (EJobID e) Hsim) as Hs. unfold admissible.
  pose proof (sim_idem _ _ Hsim) as Hi. pose proof (sim_reserved _ _ Hsim) as Hr.
  destruct (EType e); try done; try tauto.
  - destruct (EJob e) as [j|]; [|done]. rewrite Hi, !eq_None_not_Some.
    by rewrite (sim_is_Some live rep).
  - rewrite Hr. tauto.
  - split; intros (j & Hj & Ht).
    + destruct (sim_lookup _ _ _ _ Hsim Hj) as (j' & Hj' & Hjs). exists j'.
      by rewrite <- (sim_dead _ _ Hjs).
    + destruct (sim_lookup_r _ _ _ _ Hsim Hj) as (j' & Hj' & Hjs). exists j'.
      by rewrite (sim_dead _ _ Hjs).
  - by rewrite Hr.
Qed.

(** ** Histories *)

Inductive history : Mem -> list event -> Prop :=
  | history_nil : history empty_mem []
  | history_snoc m es e m' :
      history m es -> admissible e m -> apply e m = (inr tt, m') -> history m' (es ++ [e]).

Lemma history_wf m es : history m es -> mem_wf m.
Proof. induction 1; [apply empty_mem_wf|by eapply apply_mem_wf]. Qed.

Lemma history_replay m es : history m es -> apply_all es empty_mem = (inr tt, m).
Proof.
  induction 1 as [|m es e m' Hh IH Had Happ]; [done|]. by rewrite (apply_all_snoc _ _ _ m).
Qed.

Lemma history_det m m' es : history m es -> history m' es -> m = m'.
Proof. intros H%history_replay H'%history_replay. congruence. Qed.

Lemma history_snoc_inv m' es e :
  history m' (es ++ [e]) ->
  exists m, history m es /\ admissible e m /\ apply e m = (inr tt, m').
Proof.
  intros H. inversion H as [E|m es0 e0 m'0 Hh Had Happ E1 E2].
  - by destruct es.
  - apply app_inj_tail in E2 as [-> ->]. by exists m.
Qed.

(** Every prefix of a history is one. *)
Lemma history_take m es k : history m es -> exists m', history m' (take k es).
Proof.
  induction 1 as [|m es e m' Hh IH Had Happ].
  - exists empty_mem. rewrite take_nil. constructor.
  - destruct (Nat.le_gt_cases k (length es)) as [Hle|Hgt].
    + by rewrite take_app_le.
    + exists m'. rewrite take_ge; [by econstructor|]. rewrite length_app. cbn. lia.
Qed.

(** Replaying the rest of a history onto a prefix of it. *)
Lemma history_split m m' es k :
  history m es -> history m' (take k es) -> apply_all (drop k es) m' = (inr tt, m).
Proof.
  intros H%history_replay H'%history_replay. rewrite <- (take_drop k es) in H at 1.
  rewrite apply_all_app in H. by erewrite bind_ok in H by exact H'.
Qed.

(** Every token on a job was reserved. *)
Lemma history_epochs m es id j :
  history m es -> jobs m !! id = Some j -> (Epoch j <= epochReservedUpTo m)%N.
Proof.
  intros Hh. revert id j. induction Hh as [|m es e m' Hh IH Had Happ]; intros id j Hj.
  { cbn in Hj. by rewrite lookup_empty in Hj. }
  destruct (apply_cases e m m' Happ) as [(j0 & Ht & He & ->)|[(f & g & j0 & Hf & Hg & ->)|[Ht ->]]];
    cbn in *; unfold admissible in Had.
  - rewrite Ht, He in Had. destruct Had as (_ & _ & H0 & _).
    rewrite lookup_insert in Hj. case_decide; [|by apply (IH id)]. injection Hj as <-.
    rewrite H0. lia.
  - rewrite lookup_insert in Hj. case_decide; [|by apply (IH id)]. injection Hj as <-.
    specialize (IH _ _ Hg). unfold job_effect in *.
    destruct (EType e); try done; injection Hf as <- _; cbn; try done. by destruct Had.
  - rewrite Ht in Had. specialize (IH id j Hj). lia.
Qed.

(** The highest reservation in a history. *)
Lemma history_reserved m es :
  history m es ->
  (forall e, e ∈ es -> EType e = eventEpochReserve -> (EReservedUpTo e <= epochReservedUpTo m)%N) /\
  ((epochReservedUpTo m = 0)%N \/
   exists e, e ∈ es /\ EType e = eventEpochReserve /\ EReservedUpTo e = epochReservedUpTo m).
Proof.
  induction 1 as [|m es e m' Hh [IH1 IH2] Had Happ].
  { split; [by intros e ?%elem_of_nil|by left]. }
  assert (Hcase : (EType e = eventEpochReserve /\ (epochReservedUpTo m < EReservedUpTo e)%N /\
                   epochReservedUpTo m' = EReservedUpTo e) \/
                  (EType e <> eventEpochReserve /\ epochReservedUpTo m' = epochReservedUpTo m)).
  { destruct (apply_cases e m m' Happ) as [(j & Ht & _ & ->)|[(f & g & j & Hf & _ & ->)|[Ht ->]]].
    - right. by rewrite Ht.
    - right. split; [|done]. intros Ht. unfold job_effect in Hf. by rewrite Ht in Hf.
    - left. unfold admissible in Had. by rewrite Ht in Had. }
  destruct Hcase as [(Ht & Hlt & ->)|(Ht & ->)]; split.
  - intros e' [He| ->%list_elem_of_singleton]%elem_of_app Ht'; [|lia].
    specialize (IH1 e' He Ht'). lia.
  - right. exists e. split; [|done]. apply elem_of_app. right. by left.
  - intros e' [He| ->%list_elem_of_singleton]%elem_of_app Ht'; [by apply IH1|done].
  - destruct IH2 as [?|(e' & He & ?)]; [by left|right]. exists e'. split; [|done].
    apply elem_of_app. by left.
Qed.

(** A prefix that holds every reservation has the same highest one. *)
Lemma history_reserved_take m m' hist k :
  history m hist -> history m' (take k hist) ->
  (forall i e, hist !! i = Some e -> EType e = eventEpochReserve -> (i < k)%nat) ->
  epochReservedUpTo m' = epochReservedUpTo m.
Proof.
  intros H H' Hk. destruct (history_reserved _ _ H) as [Hle Hex].
  destruct (history_reserved _ _ H') as [Hle' Hex'].
  assert (Hsub : forall e, e ∈ take k hist -> e ∈ hist).
  { intros e He. rewrite <- (take_drop k hist). apply elem_of_app. by left. }
  apply N.le_antisymm.
  - destruct Hex' as [->|(e & He & Ht & <-)]; [lia|]. by apply Hle; [apply Hsub|].
  - destruct Hex as [->|(e & He & Ht & <-)]; [lia|]. apply Hle'; [|done].
    apply list_elem_of_lookup in He as [i Hi]. apply list_elem_of_lookup. exists i.
    rewrite lookup_take_lt; [done|]. by apply (Hk i e).
Qed.
