(* ===== verification/Committer.v ===== *)
(** * Committer: group commit, [internal/broker/commit.go]

    One flush serves everyone who waits for it. The state is the waiter list
    and the [running] flag that [c.mu] guards, the goroutine [flushLoop] as a
    control state, and, to say what a caller is promised, ghost data: how many
    records were appended, how many when each flush began, how it ended, and
    what each call got.

    The steps are the locked sections of [commit] and [flushLoop], the start
    and the end of [c.log.Sync()], and each send on a caller's channel; calls
    and appends of other goroutines come in between anywhere. *)
From S2P Require Import Prelude.

Section Committer.
Context {E : Type}.

Record committer := mkCommitter {
  waiters : list nat;    (** the channels of the callers, by their number *)
  running : bool
}.

Definition newCommitter : committer := mkCommitter [] false.

(** The locked section of [commit]; [true]: a [flushLoop] is started. *)
Definition commit_enter (ch : nat) (c : committer) : committer * bool :=
  (mkCommitter (waiters c ++ [ch]) true, negb (running c)).

(** The locked section of [flushLoop]; [None]: the loop returns. *)
Definition flush_take (c : committer) : committer * option (list nat) :=
  match waiters c with
  | [] => (mkCommitter [] false, None)
  | batch => (mkCommitter [] (running c), Some batch)
  end.

(** Where [flushLoop] is. *)
Inductive flushLoop :=
  | Stopped
  | AtTop
  | Taken (batch : list nat)
  | Flushing (batch : list nat) (from : nat)   (** since [from] records were appended *)
  | Delivering (batch : list nat) (flush : nat) (r : E + unit).

(** A call of [commit]: how many records were appended and how many flushes
    begun when it was made; which flush it got the result of. *)
Record caller := mkCaller {
  need : nat;
  since : nat;
  answer : option (nat * (E + unit))
}.

Record state := mkState {
  com : committer;
  loop : flushLoop;
  appended : nat;
  callers : list caller;
  outcomes : list (E + unit);     (** of the flushes, in order *)
  covers : list nat;              (** what was appended when each began *)
  batches : list nat              (** [metrics.CommitBatchSize] *)
}.

Definition init : state := mkState newCommitter Stopped 0 [] [] [] [].

Definition begun (st : state) : nat :=
  length (outcomes st) + match loop st with Flushing _ _ => 1 | _ => 0 end.

Definition give (a : nat * (E + unit)) (cl : caller) : caller :=
  mkCaller (need cl) (since cl) (Some a).

(** A record is appended. *)
Definition do_append (st : state) : state :=
  mkState (com st) (loop st) (S (appended st)) (callers st) (outcomes st) (covers st) (batches st).

(** [commit] up to the receive on its channel. *)
Definition do_commit (st : state) : state :=
  let '(c, spawn) := commit_enter (length (callers st)) (com st) in
  mkState c (if spawn then AtTop else loop st) (appended st)
    (callers st ++ [mkCaller (appended st) (begun st) None]) (outcomes st) (covers st) (batches st).

Inductive env_step : state -> state -> Prop :=
  | env_append st : env_step st (do_append st)
  | env_commit st : env_step st (do_commit st).

Definition with_loop (l : flushLoop) (st : state) : state :=
  mkState (com st) l (appended st) (callers st) (outcomes st) (covers st) (batches st).

Inductive loop_step : state -> state -> Prop :=
  | loop_take st :
      loop st = AtTop ->
      loop_step st
        (mkState (flush_take (com st)).1
           (match (flush_take (com st)).2 with None => Stopped | Some b => Taken b end)
           (appended st) (callers st) (outcomes st) (covers st) (batches st))
  | loop_begin st b :
      loop st = Taken b -> loop_step st (with_loop (Flushing b (appended st)) st)
  | loop_end st b from r :
      loop st = Flushing b from ->
      loop_step st
        (mkState (com st) (Delivering b (length (outcomes st)) r) (appended st) (callers st)
           (outcomes st ++ [r]) (covers st ++ [from]) (batches st ++ [length b]))
  | loop_send st ch b i r :
      loop st = Delivering (ch :: b) i r ->
      loop_step st
        (mkState (com st) (Delivering b i r) (appended st)
           (alter (give (i, r)) ch (callers st)) (outcomes st) (covers st) (batches st))
  | loop_again st i r :
      loop st = Delivering [] i r -> loop_step st (with_loop AtTop st).

(** A run that makes [k] steps of the loop. *)
Inductive run : state -> nat -> state -> Prop :=
  | run_done st : run st 0 st
  | run_env st st1 k st2 : env_step st st1 -> run st1 k st2 -> run st k st2
  | run_loop st st1 k st2 : loop_step st st1 -> run st1 k st2 -> run st (S k) st2.

Definition reachable (st : state) : Prop := exists k, run init k st.

(** ** The invariant *)

(** The calls the loop has in hand. *)
Definition in_hand (l : flushLoop) : list nat :=
  match l with
  | Stopped | AtTop => []
  | Taken b | Flushing b _ | Delivering b _ _ => b
  end.

Definition pending (st : state) : list nat := in_hand (loop st) ++ waiters (com st).

(** The flush [i] began when all the call needs was appended. *)
Definition covered_by (st : state) (cl : caller) (i : nat) : Prop :=
  exists from, covers st !! i = Some from /\ (need cl <= from)%nat.

(** What a call in hand can count on. *)
Definition promised (st : state) (cl : caller) : Prop :=
  match loop st with
  | Flushing _ from => (since cl <= length (outcomes st))%nat /\ (need cl <= from)%nat
  | Delivering _ i r => (since cl <= i)%nat /\ outcomes st !! i = Some r /\ covered_by st cl i
  | _ => (since cl <= length (outcomes st))%nat
  end.

Definition kept (st : state) (cl : caller) : Prop :=
  match answer cl with
  | None => True
  | Some (i, r) => (since cl <= i)%nat /\ outcomes st !! i = Some r /\ covered_by st cl i
  end.

Record inv (st : state) : Prop := {
  inv_running : running (com st) = true <-> loop st <> Stopped;
  inv_stopped : loop st = Stopped -> waiters (com st) = [];
  inv_nodup : NoDup (pending st);
  inv_pending ch : ch ∈ pending st <-> exists cl, callers st !! ch = Some cl /\ answer cl = None;
  inv_covers : length (covers st) = length (outcomes st);
  inv_callers ch cl : callers st !! ch = Some cl ->
    (need cl <= appended st)%nat /\ (since cl <= begun st)%nat /\ kept st cl;
  inv_in_hand ch cl : ch ∈ in_hand (loop st) -> callers st !! ch = Some cl -> promised st cl;
  inv_batch : match loop st with Taken b | Flushing b _ => b <> [] | _ => True end;
  inv_from : match loop st with Flushing _ from => (from <= appended st)%nat | _ => True end;
  inv_batches : Forall (fun n => (0 < n)%nat) (batches st) /\
    length (batches st) = length (outcomes st) /\
    (sum_list (batches st) +
     match loop st with Delivering _ _ _ => 0 | l => length (in_hand l) end +
     length (waiters (com st)))%nat = length (callers st)
}.

Lemma inv_init : inv init.
Proof.
  split; cbn; try done.
  - constructor.
  - intros ch. split; [by intros ?%elem_of_nil|]. intros (cl & H & _). by rewrite lookup_nil in H.
Qed.

Lemma inv_append st : inv st -> inv (do_append st).
Proof.
  intros []. split; cbn; try done; try lia; try (by destruct (loop st); try done; lia).
  intros ch cl Hc. destruct (inv_callers0 ch cl Hc) as (? & ? & ?). split; [lia|done].
Qed.

Lemma inv_commit st : inv st -> inv (do_commit st).
Proof.
  intros Hinv. pose proof Hinv as [Hrun Hstop Hnd Hpend Hcov Hcall Hhand Hbat Hfrom (Hpos & Hlen & Hsum)].
  assert (Hl : (if negb (running (com st)) then AtTop else loop st) =
               match loop st with Stopped => AtTop | l => l end).
  { destruct (running (com st)) eqn:Er; cbn.
    - by destruct (loop st); [destruct (proj1 Hrun eq_refl)|..].
    - destruct (loop st); [done|..]; (assert (false = true) by (by apply Hrun)); done. }
  assert (Hin : in_hand (match loop st with Stopped => AtTop | l => l end) = in_hand (loop st))
    by (by destruct (loop st)).
  assert (Hpe : pending (do_commit st) = pending st ++ [length (callers st)]).
  { unfold pending, do_commit. cbn. by rewrite Hl, Hin, app_assoc. }
  assert (Hfresh : length (callers st) ∉ pending st).
  { intros (cl & Hc & _)%Hpend. apply lookup_lt_Some in Hc. lia. }
  assert (Hbeg : begun (do_commit st) = begun st).
  { unfold begun, do_commit. cbn. rewrite Hl. by destruct (loop st). }
  split.
  - cbn. rewrite Hl. split; [by destruct (loop st)|done].
  - cbn. rewrite Hl. by destruct (loop st).
  - rewrite Hpe. apply NoDup_app. split; [done|]. split; [|by repeat constructor; set_solver].
    intros x Hx ->%list_elem_of_singleton. done.
  - intros ch. rewrite Hpe, elem_of_app, list_elem_of_singleton, Hpend. cbn. split.
    + intros [(cl & Hc & Ha)| ->].
      * exists cl. by rewrite lookup_app_l by (by eapply lookup_lt_Some).
      * rewrite list_lookup_middle by done. by eexists.
    + intros (cl & Hc & Ha). apply lookup_app_Some in Hc as [Hc|[Hle Hc]]; [left; by exists cl|right].
      apply list_lookup_singleton_Some in Hc as [? _]. lia.
  - done.
  - intros ch cl Hc. rewrite Hbeg. cbn in Hc. apply lookup_app_Some in Hc as [Hc|[_ Hc]].
    + by apply (Hcall ch).
    + apply list_lookup_singleton_Some in Hc as [_ <-]. cbn. split; [done|]. by split.
  - intros ch cl. cbn. rewrite Hl, Hin. intros Hh Hc.
    assert (Hlt : (ch < length (callers st))%nat).
    { assert (Hp : ch ∈ pending st) by (apply elem_of_app; by left).
      apply Hpend in Hp as (cl' & Hc' & _). by eapply lookup_lt_Some. }
    rewrite lookup_app_l in Hc by done. pose proof (Hhand ch cl Hh Hc) as Hp.
    unfold promised in *. cbn. by destruct (loop st).
  - cbn. rewrite Hl. by destruct (loop st).
  - cbn. rewrite Hl. by destruct (loop st).
  - cbn. rewrite Hl, !length_app. cbn. split; [done|]. split; [done|]. rewrite <- Hsum.
    destruct (loop st); cbn; lia.
Qed.

Lemma inv_loop_take st :
  inv st -> loop st = AtTop ->
  inv (mkState (flush_take (com st)).1
         (match (flush_take (com st)).2 with None => Stopped | Some b => Taken b end)
         (appended st) (callers st) (outcomes st) (covers st) (batches st)).
Proof.
  intros [Hrun Hstop Hnd Hpend Hcov Hcall Hhand Hbat Hfrom Hsum] El.
  unfold pending, begun, promised in *. rewrite El in *. cbn in *.
  assert (Er : running (com st) = true) by (by apply Hrun).
  unfold flush_take. destruct (waiters (com st)) as [|w ws] eqn:Ew; cbn.
  - by split; unfold pending, begun, promised.
  - split; unfold pending, begun, promised; cbn; rewrite ?app_nil_r; try done.
    + intros ch cl _ Hc. destruct (Hcall ch cl Hc) as (_ & ? & _). lia.
    + destruct Hsum as (? & ? & ?). cbn [length] in *. split_and!; [done..|lia].
Qed.

Lemma inv_loop_begin st b :
  inv st -> loop st = Taken b -> inv (with_loop (Flushing b (appended st)) st).
Proof.
  intros [Hrun Hstop Hnd Hpend Hcov Hcall Hhand Hbat Hfrom Hsum] El.
  unfold pending, begun, promised in *. rewrite El in *. cbn in *.
  split; unfold pending, begun, promised; cbn; try done.
  - split; [done|]. intros _. by apply Hrun.
  - intros ch cl Hc. destruct (Hcall ch cl Hc) as (? & ? & ?). split_and!; [done|lia|done].
  - intros ch cl Hh Hc. split; [by apply (Hhand ch)|by apply (Hcall ch)].
Qed.

(** What a call was promised outlives more flushes. *)
Lemma kept_more st st' cl :
  kept st cl -> covers st `prefix_of` covers st' -> outcomes st `prefix_of` outcomes st' ->
  kept st' cl.
Proof.
  unfold kept. destruct (answer cl) as [[i r]|]; [|done]. intros (H1 & H2 & from & H3 & H4) Hd Hp.
  split; [done|]. split; [by eapply prefix_lookup_Some|]. exists from.
  split; [by eapply prefix_lookup_Some|done].
Qed.

Lemma inv_loop_end st b from r :
  inv st -> loop st = Flushing b from ->
  inv (mkState (com st) (Delivering b (length (outcomes st)) r) (appended st) (callers st)
         (outcomes st ++ [r]) (covers st ++ [from]) (batches st ++ [length b])).
Proof.
  intros [Hrun Hstop Hnd Hpend Hcov Hcall Hhand Hbat Hfrom (Hpos & Hlen & Hsum)] El.
  unfold pending, begun, promised in *. rewrite El in *. cbn in *.
  split; unfold pending, begun, promised; cbn; try done.
  - split; [done|]. intros _. by apply Hrun.
  - rewrite !length_app. cbn. lia.
  - intros ch cl Hc. destruct (Hcall ch cl Hc) as (H1 & H2 & H3). rewrite length_app. cbn.
    split_and!; [done|lia|]. eapply kept_more; [exact H3|by apply prefix_app_r..].
  - intros ch cl Hh Hc. destruct (Hhand ch cl Hh Hc) as [H1 H2]. split; [done|].
    split; [by rewrite list_lookup_middle|]. exists from. cbn.
    split; [by rewrite <- Hcov, list_lookup_middle|done].
  - rewrite Forall_app, !length_app, sum_list_with_app. cbn.
    split_and!; [done| |lia|lia]. repeat constructor. destruct b; [done|cbn; lia].
Qed.

Lemma inv_loop_send st ch b i r :
  inv st -> loop st = Delivering (ch :: b) i r ->
  inv (mkState (com st) (Delivering b i r) (appended st)
         (alter (give (i, r)) ch (callers st)) (outcomes st) (covers st) (batches st)).
Proof.
  intros [Hrun Hstop Hnd Hpend Hcov Hcall Hhand Hbat Hfrom Hsum] El.
  unfold pending, begun, promised in *. rewrite El in *. cbn in *.
  apply NoDup_cons in Hnd as [Hnin Hnd].
  destruct (proj1 (Hpend ch)) as (cl & Hcl & Hna); [by left|].
  destruct (Hhand ch cl ltac:(by left) Hcl) as (Hs & Ho & Hdu).
  split; unfold pending, begun, promised; cbn; try done.
  - split; [done|]. intros _. by apply Hrun.
  - intros x. destruct (decide (x = ch)) as [->|Hne].
    + split; [done|]. intros (cl' & Hc & Ha). rewrite list_lookup_alter_eq, Hcl in Hc.
      by injection Hc as <-.
    + rewrite list_lookup_alter_ne by done. rewrite <- Hpend, elem_of_cons. tauto.
  - intros x clx Hx. destruct (decide (x = ch)) as [->|Hne].
    + rewrite list_lookup_alter_eq, Hcl in Hx. injection Hx as <-.
      destruct (Hcall ch cl Hcl) as (H1 & H2 & _). by split_and!.
    + rewrite list_lookup_alter_ne in Hx by done. by apply (Hcall x).
  - intros x clx Hx Hcx. rewrite list_lookup_alter_ne in Hcx.
    + apply (Hhand x); [by right|done].
    + intros ->. apply Hnin, elem_of_app. by left.
  - by rewrite length_alter.
Qed.

Lemma inv_loop_again st i r :
  inv st -> loop st = Delivering [] i r -> inv (with_loop AtTop st).
Proof.
  intros [Hrun Hstop Hnd Hpend Hcov Hcall Hhand Hbat Hfrom Hsum] El.
  unfold pending, begun, promised in *. rewrite El in *. cbn in *.
  split; unfold pending, begun, promised; cbn; try done.
  - split; [done|]. intros _. by apply Hrun.
  - intros ch cl Hh. by apply elem_of_nil in Hh.
Qed.

Lemma inv_env_step st st' : inv st -> env_step st st' -> inv st'.
Proof. intros Hi Hs. destruct Hs; [by apply inv_append|by apply inv_commit]. Qed.

Lemma inv_loop_step st st' : inv st -> loop_step st st' -> inv st'.
Proof.
  intros Hi Hs. destruct Hs as [? El|? b El|? b from r El|? ch b i r El|? i r El].
  - by apply inv_loop_take.
  - by apply inv_loop_begin.
  - by eapply inv_loop_end.
  - by apply inv_loop_send.
  - by eapply inv_loop_again.
Qed.

Lemma inv_run st k st' : inv st -> run st k st' -> inv st'.
Proof.
  intros Hi Hr. induction Hr as [|st st1 k st2 Hs Hr IH|st st1 k st2 Hs Hr IH]; [done|..].
  - by apply IH, (inv_env_step st).
  - by apply IH, (inv_loop_step st).
Qed.

Lemma reachable_inv st : reachable st -> inv st.
Proof. intros [k Hr]. by apply (inv_run init k); [apply inv_init|]. Qed.
End Committer.
