(* ===== verification/CommitterProps.v ===== *)
(** * CommitterProps: the promises of group commit

    The result of [commit] is the result of a flush that began after the call;
    every call returns, within a bounded number of steps of the flush loop,
    whatever arrives meanwhile; no caller is lost or served twice, and there
    are never more flushes than callers. *)
From S2P Require Import Prelude Committer.

Section Props.
Context {E : Type}.
Implicit Types (st : state (E := E)).

(** ** How far a call is from its answer *)

Fixpoint pos (t : nat) (l : list nat) : nat :=
  match l with [] => 0 | x :: l => if decide (x = t) then 0 else S (pos t l) end.

Lemma pos_app t l l' : t ∈ l -> pos t (l ++ l') = pos t l.
Proof.
  induction l as [|x l IH]; [by intros ?%elem_of_nil|]. intros [->|Ht]%elem_of_cons; cbn.
  - by case_decide.
  - case_decide; [done|]. by rewrite IH.
Qed.

Lemma pos_lt t l : t ∈ l -> (pos t l < length l)%nat.
Proof.
  induction l as [|x l IH]; [by intros ?%elem_of_nil|]. intros Ht. cbn.
  case_decide; [lia|]. apply elem_of_cons in Ht as [->|Ht]; [done|]. specialize (IH Ht). lia.
Qed.

(** Steps of the loop until what it has in hand is delivered. *)
Definition rest (l : flushLoop (E := E)) : nat :=
  match l with
  | Stopped | AtTop => 0
  | Taken _ => 3
  | Flushing _ _ => 2
  | Delivering _ _ _ => 1
  end.

Definition rank (t : nat) st : nat :=
  if decide (t ∈ in_hand (loop st)) then pos t (in_hand (loop st)) + rest (loop st)
  else length (in_hand (loop st)) + rest (loop st) + pos t (waiters (com st)) + 4.

Definition served (t : nat) st : Prop :=
  exists cl, callers st !! t = Some cl /\ is_Some (answer cl).

Lemma not_served_pending t st : inv st -> (t < length (callers st))%nat -> t ∉ pending st -> served t st.
Proof.
  intros Hi Hlt Hn. destruct (lookup_lt_is_Some_2 _ _ Hlt) as [cl Hcl]. exists cl. split; [done|].
  destruct (answer cl) eqn:Ea; [by eexists|]. exfalso. apply Hn, (inv_pending _ Hi). by exists cl.
Qed.

Lemma rank_bound t st : t ∈ pending st -> (rank t st <= length (pending st) + 6)%nat.
Proof.
  unfold rank, pending. rewrite length_app. intros Ht%elem_of_app. case_decide as Eh.
  - pose proof (pos_lt t _ Eh). destruct (loop st); cbn in *; lia.
  - destruct Ht as [Ht|Ht]; [done|]. pose proof (pos_lt t _ Ht). destruct (loop st); cbn in *; lia.
Qed.

(** ** What a step does to it *)

Lemma served_step t st st' : (env_step st st' \/ loop_step st st') -> served t st -> served t st'.
Proof.
  intros Hs (cl & Hc & Ha). destruct Hs as [Hs|Hs]; destruct Hs; try (by exists cl).
  - exists cl. split; [|done]. cbn. rewrite lookup_app_l; [done|]. by eapply lookup_lt_Some.
  - unfold served. cbn. destruct (decide (t = ch)) as [->|Hne].
    + rewrite list_lookup_alter_eq, Hc. cbn. eexists. split; [done|]. by eexists.
    + rewrite list_lookup_alter_ne by done. by exists cl.
Qed.

Lemma env_keeps t st st' : inv st -> t ∈ pending st -> env_step st st' ->
  t ∈ pending st' /\ rank t st' = rank t st.
Proof.
  intros Hi Ht Hs. destruct Hs as [st|st]; [done|].
  assert (Hrun : running (com st) = true).
  { apply (inv_running _ Hi). intros El. unfold pending in Ht.
    rewrite El, (inv_stopped _ Hi El) in Ht. by apply elem_of_nil in Ht. }
  unfold pending, rank, do_commit in *. cbn. rewrite Hrun. cbn. split.
  - rewrite app_assoc. apply elem_of_app. by left.
  - case_decide as Eh; [done|]. apply elem_of_app in Ht as [Ht|Ht]; [done|]. by rewrite pos_app.
Qed.

Lemma loop_closer t st st' : inv st -> t ∈ pending st -> loop_step st st' ->
  served t st' \/ (t ∈ pending st' /\ (rank t st' < rank t st)%nat).
Proof.
  intros Hi Ht Hs.
  assert (Hlt : (t < length (callers st))%nat).
  { apply (inv_pending _ Hi) in Ht as (cl & Hc & _). by eapply lookup_lt_Some. }
  destruct Hs as [st El|st b El|st b from r El|st ch b i r El|st i r El];
    unfold pending, rank in *; rewrite El in *; cbn in *.
  - right. unfold flush_take. destruct (waiters (com st)) as [|w ws]; [by apply elem_of_nil in Ht|].
    cbn -[pos]. rewrite app_nil_r. split; [done|]. rewrite decide_True by done.
    rewrite decide_False by (by intros ?%elem_of_nil). lia.
  - right. split; [done|]. case_decide; lia.
  - right. split; [done|]. case_decide; lia.
  - destruct (decide (t = ch)) as [->|Hne].
    + left. destruct (lookup_lt_is_Some_2 _ _ Hlt) as [cl Hcl]. unfold served. cbn.
      rewrite list_lookup_alter_eq, Hcl. cbn. eexists. split; [done|]. by eexists.
    + right. split; [by apply elem_of_cons in Ht as [?|Ht]|].
      rewrite (decide_False (P := ch = t)) by congruence.
      destruct (decide (t ∈ b)) as [Hb|Hb].
      * rewrite (decide_True (P := t ∈ ch :: b)) by (by right). lia.
      * rewrite (decide_False (P := t ∈ ch :: b)) by (by intros [?|?]%elem_of_cons). lia.
  - right. split; [done|]. rewrite !decide_False by (by intros ?%elem_of_nil). lia.
Qed.

Lemma run_answers t st k st' :
  inv st -> (served t st \/ (t ∈ pending st /\ (rank t st <= k)%nat)) -> run st k st' ->
  served t st' \/ (t ∈ pending st' /\ rank t st' = 0%nat).
Proof.
  intros Hi Hc Hr. induction Hr as [st|st st1 k st2 Hs Hr IH|st st1 k st2 Hs Hr IH].
  - destruct Hc as [?|[? ?]]; [by left|right]. split; [done|lia].
  - apply IH; [by eapply inv_env_step|]. destruct Hc as [Hd|[Hp Hk]].
    + left. eapply served_step; [by left|done].
    + right. destruct (env_keeps t st st1 Hi Hp Hs) as [? ->]. done.
  - apply IH; [by eapply inv_loop_step|]. destruct Hc as [Hd|[Hp Hk]].
    + left. eapply served_step; [by right|done].
    + destruct (loop_closer t st st1 Hi Hp Hs) as [?|[? ?]]; [by left|right]. split; [done|lia].
Qed.

Lemma rank_pos t st : inv st -> t ∈ pending st -> (0 < rank t st)%nat.
Proof.
  intros Hi Ht. unfold rank. case_decide as Eh; [|lia].
  destruct (loop st); cbn in *; try lia; by apply elem_of_nil in Eh.
Qed.

Lemma loop_enabled st : inv st -> pending st <> [] -> exists st', loop_step st st'.
Proof.
  intros Hi Hp. destruct (loop st) as [| |b|b from|b i r] eqn:El.
  - exfalso. apply Hp. unfold pending. by rewrite El, (inv_stopped _ Hi El).
  - eexists. by apply loop_take.
  - eexists. by eapply loop_begin.
  - eexists. by apply (loop_end st b from (inr tt)).
  - destruct b as [|ch b]; eexists; [by eapply loop_again|by eapply loop_send].
Qed.

(** ** The promises *)

(** C10: [commit] answers with the result of a flush that covers the caller: one
    that began after the call was made, and when every record appended before
    the call was appended already; it never takes the word of a flush already
    running. So if a flush that succeeds leaves durable what was appended when
    it began (which [Sync] of the log does as long as no earlier call on the log
    failed, see [Wal] and [retried_write_loses_acknowledged_record]), a caller
    that is answered without an error has all its records on stable storage. *)
Theorem commit_own_flush st t cl i r :
  reachable st -> callers st !! t = Some cl -> answer cl = Some (i, r) ->
  (since cl <= i)%nat /\ outcomes st !! i = Some r /\
  (exists from, covers st !! i = Some from /\ (need cl <= from)%nat) /\
  forall durable : nat,
    (forall k from, outcomes st !! k = Some (inr tt) -> covers st !! k = Some from -> (from <= durable)%nat) ->
    r = inr tt -> (need cl <= durable)%nat.
Proof.
  intros Hr%reachable_inv Hc Ha. destruct (inv_callers _ Hr t cl Hc) as (_ & _ & Hk).
  unfold kept in Hk. rewrite Ha in Hk. destruct Hk as (H1 & H2 & from & H3 & H4).
  split; [done|]. split; [done|]. split; [by exists from|]. intros durable Hd ->.
  specialize (Hd i from H2 H3). lia.
Qed.

(** C11: every call returns: as long as it has not, the flush loop can move, and
    whatever calls and appends come in between, it is answered within a number
    of loop steps fixed by the callers waiting now; later callers do not delay
    it. *)
Theorem commit_always_returns st t :
  reachable st -> (t < length (callers st))%nat ->
  (served t st \/ exists st', loop_step st st') /\
  forall st', run st (length (pending st) + 6) st' -> served t st'.
Proof.
  intros Hr%reachable_inv Hlt. split.
  - destruct (decide (t ∈ pending st)) as [Hp|Hp].
    + right. apply loop_enabled; [done|]. intros E0. rewrite E0 in Hp. by apply elem_of_nil in Hp.
    + left. by apply not_served_pending.
  - intros st' Hrun. destruct (run_answers t st (length (pending st) + 6) st' Hr) as [?|[Hp H0]]; [|done|done|].
    + destruct (decide (t ∈ pending st)) as [Hp|Hp].
      * right. split; [done|]. by apply rank_bound.
      * left. by apply not_served_pending.
    + pose proof (rank_pos t st' (inv_run _ _ _ Hr Hrun) Hp). lia.
Qed.

(** Flushes are shared: every flush serves at least one call, every call is
    in exactly one batch or still waiting for one, so there are never more
    flushes than calls; and the loop that runs out of callers stops. *)
Theorem flushes_shared st :
  reachable st ->
  Forall (fun n => (0 < n)%nat) (batches st) /\
  length (batches st) = length (outcomes st) /\
  (length (outcomes st) <= length (callers st))%nat /\
  (loop st = Stopped -> sum_list (batches st) = length (callers st) /\
    forall t, (t < length (callers st))%nat -> served t st).
Proof.
  intros Hr%reachable_inv. destruct (inv_batches _ Hr) as (Hpos & Hlen & Hsum).
  split; [done|]. split; [done|]. split.
  - rewrite <- Hlen. transitivity (sum_list (batches st)); [|lia].
    clear -Hpos. induction Hpos; cbn; lia.
  - intros El. pose proof (inv_stopped _ Hr El) as Ew. rewrite El, Ew in Hsum. cbn in Hsum.
    split; [lia|]. intros t Ht. apply not_served_pending; [done..|].
    unfold pending. rewrite El, Ew. by intros ?%elem_of_nil.
Qed.
End Props.

(** ** A run of three calls *)

(** One call starts a flush, two arrive while it runs and share the next,
    which fails. *)
Definition demo : state (E := string) :=
  mkState newCommitter Stopped 3
    [mkCaller 1 0 (Some (0%nat, inr tt)); mkCaller 2 1 (Some (1%nat, inl "input/output error"));
     mkCaller 3 1 (Some (1%nat, inl "input/output error"))]
    [inr tt; inl "input/output error"] [1; 3]%nat [1; 2]%nat.

(** The state while the first flush runs and two calls wait. *)
Definition demo_mid : state (E := string) :=
  mkState (mkCommitter [1; 2]%nat true) (Flushing [0%nat] 1) 3
    [mkCaller 1 0 None; mkCaller 2 1 None; mkCaller 3 1 None] [] [] [].

Lemma demo_mid_reachable : run (E := string) init 2 demo_mid.
Proof.
  eapply run_env; [apply env_append|]. eapply run_env; [apply env_commit|].
  eapply run_loop; [by apply loop_take|]. eapply run_loop; [by eapply loop_begin|].
  eapply run_env; [apply env_append|]. eapply run_env; [apply env_commit|].
  eapply run_env; [apply env_append|]. eapply run_env; [apply env_commit|]. apply run_done.
Qed.

(** The state at the top of the loop, all three answered. *)
Definition demo_top : state (E := string) :=
  mkState (mkCommitter [] true) AtTop 3 (callers demo) (outcomes demo) (covers demo) (batches demo).

Lemma demo_top_run : run demo_mid 9 demo_top.
Proof.
  eapply run_loop; [by apply (loop_end _ [0%nat] 1 (inr tt))|].
  eapply run_loop; [by eapply loop_send|]. eapply run_loop; [by eapply loop_again|].
  eapply run_loop; [by apply loop_take|]. eapply run_loop; [by eapply loop_begin|].
  eapply run_loop; [by apply (loop_end _ [1; 2]%nat 3 (inl "input/output error"))|].
  eapply run_loop; [by eapply loop_send|]. eapply run_loop; [by eapply loop_send|].
  eapply run_loop; [by eapply loop_again|]. apply run_done.
Qed.

Lemma demo_rest : run demo_top 1 demo.
Proof. eapply run_loop; [by apply loop_take|]. apply run_done. Qed.

Lemma run_trans (st1 st2 st3 : state (E := string)) k1 k2 :
  run st1 k1 st2 -> run st2 k2 st3 -> run st1 (k1 + k2) st3.
Proof.
  intros H. induction H; cbn; [done|..]; intros H'; [eapply run_env|eapply run_loop]; eauto.
Qed.

Lemma demo_reachable : reachable demo.
Proof.
  exists 12%nat. eapply (run_trans _ _ _ 2 10); [exact demo_mid_reachable|].
  exact (run_trans _ _ _ 9 1 demo_top_run demo_rest).
Qed.

Lemma commit_own_flush_witness :
  (0 <= 0)%nat /\ outcomes demo !! 0%nat = Some (inr tt) /\
  exists from, covers demo !! 0%nat = Some from /\ (1 <= from)%nat.
Proof.
  destruct (commit_own_flush demo 0 (mkCaller 1 0 (Some (0%nat, inr tt))) 0 (inr tt)
           demo_reachable eq_refl eq_refl) as (H1 & H2 & H3 & _).
  exact (conj H1 (conj H2 H3)).
Defined.

Lemma commit_always_returns_witness :
  (served 2 demo_mid \/ exists st', loop_step demo_mid st') /\ served 2 demo_top.
Proof.
  destruct (commit_always_returns demo_mid 2) as [Hmove Hserved].
  - exists 2%nat. exact demo_mid_reachable.
  - cbn. lia.
  - split; [exact Hmove|]. apply Hserved. exact demo_top_run.
Defined.

Lemma flushes_shared_witness : sum_list (batches demo) = 3%nat /\
  forall t, (t < length (callers demo))%nat -> served t demo.
Proof. apply (flushes_shared demo demo_reachable). reflexivity. Defined.
