(* ===== verification/Store.v ===== *)
(** * Store: the durable job store of [internal/broker/store.go]

    [Store] and its operations, over any log with the operations of
    [LogSpec.LogOps] and any event encoding. A method that takes [s.mu], lets
    go of it and then waits for a flush is the composition of its locked
    section ([..._locked]) and [commitDurable], so that other operations can
    be interleaved between the two.

    What a method draws from outside is an argument: [now] is [time.Now()],
    [id] the fresh [job.NewID()], [rnd] the jitter of [job.Backoff]. Metrics
    are kept as the list of the counter updates made, newest first. *)
From S2P Require Import Prelude Job Heap Index Framing LogSpec Event Memory.

(** The counters and histograms of [internal/metrics] the store updates. *)
Inductive metric :=
  | JobsSubmitted (queue : string)
  | JobsDeduplicated (queue : string)
  | JobsLeased (queue : string)
  | DispatchDelay (queue : string) (waited : Duration)
  | JobsCompleted (queue : string)
  | JobsFailed (queue cause : string)
  | JobsDeadLettered (queue : string)
  | JobsReplayed (queue : string)
  | FencedRequests (op : string).

Definition CauseHandler : string := "handler".
Definition CauseTimeout : string := "lease_expired".

Inductive storeError {LogErr : Type} :=
  | ErrQueueRequired
  | ErrJobNotFound
  | ErrNotDeadLettered
  | ErrEncode
  | ErrDecode (lsn : N)
  | ErrAppend (e : LogErr)
  | ErrReserve (e : LogErr)
  | ErrApply (e : applyError)
  | ErrDurabilityLost (e : LogErr)
  | ErrLog (e : LogErr)
  | ErrReplay (e : LogErr).
Arguments storeError : clear implicits.

Definition defaultEpochBlockSize : N := 2 ^ 20.

Record SubmitParams := mkSubmitParams {
  PQueue : string;
  PHandler : string;
  PPayload : bytes;
  PIdempotencyKey : string;
  PPriority : Priority;
  PMaxRetries : Z;
  PDelay : Duration
}.

(** [holdsLease]. *)
Definition holdsLease (j : Job) (epoch : N) : bool :=
  bool_decide (JState j = StateLeased) && (Epoch j =? epoch)%N.

Section Store.
Context {L : Type} {lops : LogOps L} {codec : EventCodec}.

Record Config := mkConfig {
  CfgBackoffBase : Duration;
  CfgBackoffCap : Duration;
  CfgEpochBlockSize : N;
  CfgWALSegmentSize : Z
}.

Record Store := mkStore {
  backoffBase : Duration;
  backoffCap : Duration;
  epochBlockSize : N;
  log : L;
  mem : Mem;
  index : scheduleIndex;
  lastLSN : N;
  failed : option (storeError log_err);
  nextEpoch : N;
  notifyCh : bool;          (** whether a wakeup is waiting in the channel *)
  metrics : list metric
}.

Definition with_log (l : L) (s : Store) : Store :=
  mkStore (backoffBase s) (backoffCap s) (epochBlockSize s) l (mem s) (index s) (lastLSN s)
    (failed s) (nextEpoch s) (notifyCh s) (metrics s).
Definition with_mem (m : Mem) (s : Store) : Store :=
  mkStore (backoffBase s) (backoffCap s) (epochBlockSize s) (log s) m (index s) (lastLSN s)
    (failed s) (nextEpoch s) (notifyCh s) (metrics s).
Definition with_index (ix : scheduleIndex) (s : Store) : Store :=
  mkStore (backoffBase s) (backoffCap s) (epochBlockSize s) (log s) (mem s) ix (lastLSN s)
    (failed s) (nextEpoch s) (notifyCh s) (metrics s).
Definition with_lastLSN (n : N) (s : Store) : Store :=
  mkStore (backoffBase s) (backoffCap s) (epochBlockSize s) (log s) (mem s) (index s) n
    (failed s) (nextEpoch s) (notifyCh s) (metrics s).
Definition with_failed (e : option (storeError log_err)) (s : Store) : Store :=
  mkStore (backoffBase s) (backoffCap s) (epochBlockSize s) (log s) (mem s) (index s)
    (lastLSN s) e (nextEpoch s) (notifyCh s) (metrics s).
Definition with_nextEpoch (n : N) (s : Store) : Store :=
  mkStore (backoffBase s) (backoffCap s) (epochBlockSize s) (log s) (mem s) (index s)
    (lastLSN s) (failed s) n (notifyCh s) (metrics s).
Definition with_notify (b : bool) (s : Store) : Store :=
  mkStore (backoffBase s) (backoffCap s) (epochBlockSize s) (log s) (mem s) (index s)
    (lastLSN s) (failed s) (nextEpoch s) b (metrics s).
Definition with_metric (m : metric) (s : Store) : Store :=
  mkStore (backoffBase s) (backoffCap s) (epochBlockSize s) (log s) (mem s) (index s)
    (lastLSN s) (failed s) (nextEpoch s) (notifyCh s) (m :: metrics s).

Abbreviation op A := (M Store (storeError log_err) A) (only parsing).

Definition on_log {A} (wrap : log_err -> storeError log_err) (m : M L log_err A) : op A :=
  zoom log with_log wrap m.
Definition on_mem {A} (m : M Mem applyError A) : op A := zoom mem with_mem ErrApply m.
Definition on_index (f : scheduleIndex -> scheduleIndex) : op unit :=
  modify (fun s => with_index (f (index s)) s).
Definition inc (m : metric) : op unit := modify (with_metric m).

(** [signal]: a non-blocking send on a channel of capacity one. *)
Definition signal : op unit := modify (with_notify true).

Definition get_job (id : string) : op (option Job) := gets (fun s => jobs (mem s) !! id).

(** [s.index.push(j, now)] with [j] the job stored under [id]. *)
Definition push_job (id : string) (now : Time) : op unit :=
  let* j := get_job id in
  match j with None => ret tt | Some j => on_index (push j now) end.

(** ** Recording *)

Definition encode (e : event) : op bytes :=
  match encodeEvent e with None => throw ErrEncode | Some b => ret b end.

Definition recordLocked (e : event) : op unit :=
  let* f := gets failed in
  match f with
  | Some err => throw err
  | None =>
      let* payload := encode e in
      let* lsn := on_log ErrAppend (log_append payload) in
      on_mem (apply e) ;;;
      modify (with_lastLSN lsn)
  end.

(** [commitDurable]: [s.commit.commit()] returns the result of a [Sync] of the
    log that begins after the call. *)
Definition commitDurable : op unit :=
  let* r := try (on_log ErrLog log_sync) in
  match r with
  | inr _ => ret tt
  | inl err =>
      let* f := gets failed in
      match f with
      | Some err => throw err
      | None =>
          let err := match err with ErrLog e => ErrDurabilityLost e | e => e end in
          modify (with_failed (Some err)) ;;;
          throw err
      end
  end.

Definition Failed (s : Store) : option (storeError log_err) := failed s.

(** ** Fencing tokens *)

Definition reserveEpochsLocked : op unit :=
  let* s := gets (fun s => s) in
  let e := ev_reserve (u64 (nextEpoch s + epochBlockSize s + 2 ^ 64 - 1)) in
  let* payload := encode e in
  let* lsn := on_log ErrReserve (log_append_sync payload) in
  on_mem (apply e) ;;;
  modify (with_lastLSN lsn).

Definition nextEpochLocked : op N :=
  let* s := gets (fun s => s) in
  (if (epochReservedUpTo (mem s) <? nextEpoch s)%N then reserveEpochsLocked else ret tt) ;;;
  let* e := gets nextEpoch in
  modify (with_nextEpoch (u64 (e + 1))) ;;;
  ret e.

(** ** Submit *)

(** The defaults [Submit] fills in. *)
Definition submit_defaults (p : SubmitParams) : SubmitParams :=
  mkSubmitParams (PQueue p)
    (if bool_decide (PHandler p = "") then "shell" else PHandler p)
    (PPayload p) (PIdempotencyKey p) (PPriority p)
    (if PMaxRetries p <? 0 then 0 else PMaxRetries p) (PDelay p).

Definition new_job (p : SubmitParams) (id : string) (now : Time) : Job :=
  mkJob id (PQueue p) (PHandler p) (PPayload p) (PIdempotencyKey p) (PPriority p)
    (PMaxRetries p) 0 StatePending 0 now (now + PDelay p) zeroTime "" "".

(** The section of [Submit] under [s.mu]: the job, and whether it is one that
    was there before. *)
Definition Submit_locked (p : SubmitParams) (id : string) (now : Time) : op (option Job * bool) :=
  let* f := gets failed in
  match f with
  | Some err => throw err
  | None =>
      let* m := gets mem in
      match (if bool_decide (PIdempotencyKey p = "") then None
             else idem m !! idemKey (PQueue p) (PIdempotencyKey p)) with
      | Some old => ret (Clone <$> jobs m !! old, true)
      | None =>
          let j := new_job p id now in
          recordLocked (ev_submit j) ;;;
          push_job id now ;;;
          ret (Some (Clone j), false)
      end
  end.

Definition Submit (p : SubmitParams) (id : string) (now : Time) : op (option Job * bool) :=
  if bool_decide (TrimSpace (PQueue p) = "") then throw ErrQueueRequired
  else
    let p := submit_defaults p in
    let* r := Submit_locked p id now in
    if r.2 then
      inc (JobsDeduplicated (PQueue p)) ;;;
      ret r
    else
      commitDurable ;;;
      inc (JobsSubmitted (PQueue p)) ;;;
      signal ;;;
      ret r.

(** ** Lease *)

(** The rest of the loop body of [Lease], once the job [j] stored under [cid]
    has been chosen. *)
Definition lease_turn (queue workerID : string) (dur : Duration) (now : Time) (cid : string)
    (j : Job) : op (option Job) :=
  let* epoch := catch nextEpochLocked
    (fun err => on_index (push j now) ;;; throw err) in
  let waited := now - EligibleAt j in
  catch (recordLocked (ev_lease (ID j) epoch workerID (now + dur) (i64 (Attempt j + 1))))
    (fun err => push_job cid now ;;; throw err) ;;;
  inc (JobsLeased queue) ;;;
  inc (DispatchDelay queue waited) ;;;
  get_job cid.

(** The loop of [Lease]; every round takes one entry off the ready heap. *)
Fixpoint lease_loop (fuel : nat) (queue workerID : string) (dur : Duration) (now : Time) :
    op (option Job) :=
  match fuel with
  | O => ret None
  | S fuel =>
      let* ix := gets index in
      match pop queue ix with
      | None => ret None
      | Some (cand, ix') =>
          modify (with_index ix') ;;;
          let* oj := get_job (id cand) in
          match oj with
          | None => lease_loop fuel queue workerID dur now
          | Some j =>
              if negb (Leasable (JState j)) then lease_loop fuel queue workerID dur now
              else if negb (eligibleAt cand =? EligibleAt j) then
                lease_loop fuel queue workerID dur now
              else if now <? EligibleAt j then
                on_index (push j now) ;;;
                lease_loop fuel queue workerID dur now
              else lease_turn queue workerID dur now (id cand) j
          end
      end
  end.

Definition Lease (queue workerID : string) (dur : Duration) (now : Time) : op (option Job) :=
  on_index (promote queue now) ;;;
  let* ix := gets index in
  lease_loop (S (length (ready (forQueue queue ix)))) queue workerID dur now.

(** ** Ack *)

(** [None]: fenced. *)
Definition Ack_locked (jobID : string) (epoch : N) : op (option string) :=
  let* oj := get_job jobID in
  match oj with
  | None => throw ErrJobNotFound
  | Some j =>
      if negb (holdsLease j epoch) then inc (FencedRequests "ack") ;;; ret None
      else
        recordLocked (ev_ack jobID epoch) ;;;
        ret (Some (Queue j))
  end.

Definition Ack (jobID : string) (epoch : N) : op bool :=
  let* r := Ack_locked jobID epoch in
  match r with
  | None => ret false
  | Some queue =>
      commitDurable ;;;
      inc (JobsCompleted queue) ;;;
      signal ;;;
      ret true
  end.

(** ** Failure *)

Definition failLocked (j : Job) (reason : string) (timeout : bool) (now : Time)
    (rnd : Z -> Z) : op bool :=
  let* s := gets (fun s => s) in
  let attempt := Attempt j in
  let dead := MaxRetries j <? attempt in
  let next := if dead then StateDeadLetter else StateRetryWait in
  let eligible :=
    if dead then now else now + Backoff rnd attempt (backoffBase s) (backoffCap s) in
  recordLocked (ev_fail (ID j) (Epoch j) attempt reason next eligible timeout) ;;;
  (if bool_decide (next = StateRetryWait) then push_job (ID j) now else ret tt) ;;;
  ret (bool_decide (next = StateDeadLetter)).

Definition nack_reason (reason : string) : string :=
  if bool_decide (reason = "") then "handler reported failure" else reason.

(** [None]: fenced. *)
Definition Nack_locked (jobID : string) (epoch : N) (reason : string) (now : Time)
    (rnd : Z -> Z) : op (option (string * bool)) :=
  let* oj := get_job jobID in
  match oj with
  | None => throw ErrJobNotFound
  | Some j =>
      if negb (holdsLease j epoch) then inc (FencedRequests "nack") ;;; ret None
      else
        let* dead := failLocked j (nack_reason reason) false now rnd in
        ret (Some (Queue j, dead))
  end.

(** The result is [(accepted, deadLettered)]. *)
Definition Nack (jobID : string) (epoch : N) (reason : string) (now : Time)
    (rnd : Z -> Z) : op (bool * bool) :=
  let* r := Nack_locked jobID epoch reason now rnd in
  match r with
  | None => ret (false, false)
  | Some (queue, dead) =>
      commitDurable ;;;
      inc (JobsFailed queue CauseHandler) ;;;
      (if dead then inc (JobsDeadLettered queue) else ret tt) ;;;
      signal ;;;
      ret (true, dead)
  end.

(** ** Heartbeat *)

Definition Heartbeat (jobID : string) (epoch : N) (dur : Duration) (now : Time) :
    op (bool * Time) :=
  let* oj := get_job jobID in
  match oj with
  | None => throw ErrJobNotFound
  | Some j =>
      if negb (holdsLease j epoch) then ret (false, zeroTime)
      else
        let expires := now + dur in
        modify (fun s => with_mem (set_jobs <[jobID := extend_lease expires j]> (mem s)) s) ;;;
        ret (true, expires)
  end.

(** ** ReclaimExpired *)

(** One leased job that was taken back: its ID, its queue, whether it was
    dead-lettered. *)
Definition reclaimed_job : Type := string * string * bool.

(** The loop over [s.leased], visiting the IDs in [order]; an error ends it and
    leaves what was reclaimed so far. *)
Fixpoint reclaim_loop (order : list string) (now : Time) (rnd : string -> Z -> Z)
    (acc : list reclaimed_job) : op (list reclaimed_job * option (storeError log_err)) :=
  match order with
  | [] => ret (acc, None)
  | id :: order =>
      let* oj := get_job id in
      match oj with
      | Some j =>
          if negb (bool_decide (JState j = StateLeased)) then
            modify (fun s => with_mem (set_leased (remove id) (mem s)) s) ;;;
            reclaim_loop order now rnd acc
          else if now <? LeaseExpiresAt j then reclaim_loop order now rnd acc
          else
            let* r := try (failLocked j "lease expired" true now (rnd id)) in
            match r with
            | inl err => ret (acc, Some err)
            | inr dead => reclaim_loop order now rnd (acc ++ [(id, Queue j, dead)])
            end
      | None =>
          modify (fun s => with_mem (set_leased (remove id) (mem s)) s) ;;;
          reclaim_loop order now rnd acc
      end
  end.

Fixpoint inc_all (ms : list metric) : op unit :=
  match ms with [] => ret tt | m :: ms => inc m ;;; inc_all ms end.

(** [ReclaimExpired], ranging over the map [s.leased] in the order [order]: the
    IDs taken back and the error. *)
Definition ReclaimExpired_in (order : list string) (now : Time) (rnd : string -> Z -> Z) :
    op (list string * option (storeError log_err)) :=
  let* r := reclaim_loop order now rnd [] in
  let '(reclaimed, err) := r in
  let ids := map (fun x => x.1.1) reclaimed in
  match err with
  | Some err => ret (ids, Some err)
  | None =>
      if bool_decide (reclaimed = []) then ret ([], None)
      else
        let* c := try commitDurable in
        match c with
        | inl err => ret (ids, Some err)
        | inr _ =>
            inc_all (map (fun x => JobsFailed x.1.2 CauseTimeout) reclaimed) ;;;
            inc_all (map (fun x => JobsDeadLettered x.1.2) (filter (fun x => x.2 = true) reclaimed)) ;;;
            signal ;;;
            ret (ids, None)
        end
  end.

Definition ReclaimExpired (now : Time) (rnd : string -> Z -> Z) :
    op (list string * option (storeError log_err)) :=
  let* m := gets mem in
  ReclaimExpired_in (elements (leased m)) now rnd.

(** ** ReplayJob *)

Definition ReplayJob_locked (jobID : string) (now : Time) : op string :=
  let* oj := get_job jobID in
  match oj with
  | None => throw ErrJobNotFound
  | Some j =>
      if negb (bool_decide (JState j = StateDeadLetter)) then throw ErrNotDeadLettered
      else
        recordLocked (ev_replay jobID now) ;;;
        push_job jobID now ;;;
        ret (Queue j)
  end.

Definition ReplayJob (jobID : string) (now : Time) : op unit :=
  let* queue := ReplayJob_locked jobID now in
  commitDurable ;;;
  inc (JobsReplayed queue) ;;;
  signal.

(** ** Queries *)

Definition Get (id : string) (s : Store) : option Job := Clone <$> jobs (mem s) !! id.

(** [out[i].ID > out[k].ID], as the order of a merge sort. *)
Definition id_ge (a b : Job) : Prop := str_ltb (ID a) (ID b) = false.
#[export] Instance id_ge_dec a b : Decision (id_ge a b).
Proof. unfold id_ge. apply _. Defined.

Definition list_match (queue : string) (state : State) (j : Job) : bool :=
  (bool_decide (queue = "") || bool_decide (Queue j = queue)) &&
  (bool_decide (state = StateUnspecified) || bool_decide (JState j = state)).

Definition ListJobs (queue : string) (state : State) (limit : Z) (s : Store) : list Job :=
  let out := filter (fun j => list_match queue state j = true) (jobs_in_order (jobs (mem s))) in
  let out := merge_sort id_ge (map Clone out) in
  if (0 <? limit) && (limit <? Z.of_nat (length out)) then take (Z.to_nat limit) out else out.

Record QueueStats := mkQueueStats {
  SQueue : string;
  SPending : Z;
  SLeased : Z;
  SRetryWait : Z;
  SDone : Z;
  SDeadLetter : Z
}.

Record Stats := mkStats {
  StatsQueues : list QueueStats;
  TotalJobs : Z;
  StatsLastLSN : N
}.

Definition count_job (j : Job) (q : QueueStats) : QueueStats :=
  match JState j with
  | StatePending => mkQueueStats (SQueue q) (SPending q + 1) (SLeased q) (SRetryWait q) (SDone q) (SDeadLetter q)
  | StateLeased => mkQueueStats (SQueue q) (SPending q) (SLeased q + 1) (SRetryWait q) (SDone q) (SDeadLetter q)
  | StateRetryWait => mkQueueStats (SQueue q) (SPending q) (SLeased q) (SRetryWait q + 1) (SDone q) (SDeadLetter q)
  | StateDone => mkQueueStats (SQueue q) (SPending q) (SLeased q) (SRetryWait q) (SDone q + 1) (SDeadLetter q)
  | StateDeadLetter => mkQueueStats (SQueue q) (SPending q) (SLeased q) (SRetryWait q) (SDone q) (SDeadLetter q + 1)
  | StateUnspecified => q
  end.

(** One turn of the loop of [Stats]. *)
Definition stats_step (queue : string) (acc : gmap string QueueStats * Z) (j : Job) :
    gmap string QueueStats * Z :=
  if negb (bool_decide (queue = "")) && negb (bool_decide (Queue j = queue)) then acc
  else
    let q := default (mkQueueStats (Queue j) 0 0 0 0 0) (acc.1 !! Queue j) in
    (<[Queue j := count_job j q]> acc.1, acc.2 + 1).

Definition queue_le (a b : QueueStats) : Prop := str_ltb (SQueue b) (SQueue a) = false.
#[export] Instance queue_le_dec a b : Decision (queue_le a b).
Proof. unfold queue_le. apply _. Defined.

Definition Stats_of (queue : string) (s : Store) : Stats :=
  let '(byQueue, total) :=
    fold_left (stats_step queue) (jobs_in_order (jobs (mem s))) (∅, 0) in
  mkStats (merge_sort queue_le (map snd (map_to_list byQueue))) total (lastLSN s).

Definition NextDelayedDeadline (s : Store) : option Time := nextDeadline (index s).

(** ** Opening *)

(** The callback of the replay in [Open]. *)
Definition replay_event (lsn : N) (payload : bytes) : M (Mem * N) (storeError log_err) unit :=
  match decodeEvent payload with
  | None => throw (ErrDecode lsn)
  | Some e =>
      zoom fst (fun m s => (m, s.2)) ErrApply (apply e) ;;;
      modify (fun s => (s.1, lsn))
  end.

Definition config_defaults (cfg : Config) : Config :=
  mkConfig
    (if CfgBackoffBase cfg <=? 0 then DefaultBackoffBase else CfgBackoffBase cfg)
    (if CfgBackoffCap cfg <=? 0 then DefaultBackoffCap else CfgBackoffCap cfg)
    (if (CfgEpochBlockSize cfg =? 0)%N then defaultEpochBlockSize else CfgEpochBlockSize cfg)
    (CfgWALSegmentSize cfg).

(** The part of [Open] that follows the loading of a snapshot with memory
    [snap] that covers the log up to [snapLSN]; [cfg] has its defaults. *)
Definition recover (cfg : Config) (snap : Mem) (snapLSN : N) (now : Time) :
    M L (storeError log_err) Store :=
  fun l =>
    match log_replay (u64 (snapLSN + 1)) replay_event (l, (snap, snapLSN)) with
    | (inl err, (l, _)) =>
        (inl (match err with inl e => ErrReplay e | inr e => e end), (log_close l).2)
    | (inr _, (l, (m, lsn))) =>
        let m := recoverLeasedLocked now m in
        (inr (mkStore (CfgBackoffBase cfg) (CfgBackoffCap cfg) (CfgEpochBlockSize cfg) l m
                (rebuildIndexLocked m now) lsn None (u64 (epochReservedUpTo m + 1)) false []), l)
    end.

Definition open_log (cfg : Config) : M L (storeError log_err) unit :=
  zoom (fun l => l) (fun l _ => l) ErrLog (log_open (CfgWALSegmentSize cfg)).

(** [Open] when the snapshot is known: [Snapshot.OpenStore] loads it. *)
Definition Open (cfg : Config) (snap : Mem) (snapLSN : N) (now : Time) :
    M L (storeError log_err) Store :=
  let cfg := config_defaults cfg in
  open_log cfg ;;; recover cfg snap snapLSN now.

Definition Close : op unit := on_log ErrLog log_close.

End Store.
