(* ===== verification/Metrics.v ===== *)
(** * Metrics: the instruments of [internal/metrics]

    [family] has one constructor per variable of the package and [describe]
    the options it is declared with. The store records its updates as a list
    of [metric]s; [update] says which family and which labels each one goes
    to, and [value] what a counter shows after them. The registry that keeps
    and serves the numbers is a library. *)
From Stdlib Require Import QArith.
From S2P Require Import Prelude Job Heap Index Framing LogSpec Event Memory Store.
#[local] Open Scope Z_scope.
#[local] Open Scope string_scope.

Definition namespace : string := "conveyor".

Inductive family :=
  | FJobsSubmitted | FJobsDeduplicated | FJobsLeased | FJobsCompleted | FJobsFailed
  | FJobsDeadLettered | FJobsReplayed | FFencedRequests | FQueueDepth | FDispatchDelay
  | FCommitDuration | FCommitBatchSize | FCommits | FRecoveryDuration | FRecoveredJobs.

#[export] Instance family_eq_dec : EqDecision family.
Proof. solve_decision. Defined.

(** The bounds of a histogram: listed, or the arguments of
    [prometheus.ExponentialBuckets]. *)
Inductive buckets :=
  | Listed (bounds : list Z)
  | ExponentialBuckets (start : Q) (factor : Z) (count : nat).

Inductive instrument := Counter | Gauge | Histogram (b : buckets).

(** The name and the labels of a family, and what it is. *)
Record opts := mkOpts {
  MNamespace : string;
  MName : string;
  MLabels : list string;
  MInstrument : instrument
}.

Definition describe (f : family) : opts :=
  let conveyor := mkOpts namespace in
  match f with
  | FJobsSubmitted => conveyor "jobs_submitted_total" ["queue"] Counter
  | FJobsDeduplicated => conveyor "jobs_deduplicated_total" ["queue"] Counter
  | FJobsLeased => conveyor "jobs_leased_total" ["queue"] Counter
  | FJobsCompleted => conveyor "jobs_completed_total" ["queue"] Counter
  | FJobsFailed => conveyor "jobs_failed_total" ["queue"; "cause"] Counter
  | FJobsDeadLettered => conveyor "jobs_dead_lettered_total" ["queue"] Counter
  | FJobsReplayed => conveyor "jobs_replayed_total" ["queue"] Counter
  | FFencedRequests => conveyor "fenced_requests_total" ["op"] Counter
  | FQueueDepth => conveyor "queue_jobs" ["queue"; "state"] Gauge
  | FDispatchDelay => conveyor "dispatch_delay_seconds" ["queue"]
      (Histogram (ExponentialBuckets (5 # 10000) 3 12))
  | FCommitDuration => conveyor "wal_commit_seconds" []
      (Histogram (ExponentialBuckets (1 # 10000) 3 12))
  | FCommitBatchSize => conveyor "wal_commit_batch_records" []
      (Histogram (Listed [1; 2; 4; 8; 16; 32; 64; 128; 256; 512; 1024]))
  | FCommits => conveyor "wal_commits_total" [] Counter
  | FRecoveryDuration => conveyor "recovery_seconds" [] Gauge
  | FRecoveredJobs => conveyor "recovered_jobs" [] Gauge
  end.

(** The family an update of the store goes to, and the values of its labels. *)
Definition update (m : metric) : family * list string :=
  match m with
  | JobsSubmitted queue => (FJobsSubmitted, [queue])
  | JobsDeduplicated queue => (FJobsDeduplicated, [queue])
  | JobsLeased queue => (FJobsLeased, [queue])
  | DispatchDelay queue _ => (FDispatchDelay, [queue])
  | JobsCompleted queue => (FJobsCompleted, [queue])
  | JobsFailed queue cause => (FJobsFailed, [queue; cause])
  | JobsDeadLettered queue => (FJobsDeadLettered, [queue])
  | JobsReplayed queue => (FJobsReplayed, [queue])
  | FencedRequests op => (FFencedRequests, [op])
  end.

(** What the counter of [f] with the given labels shows: the number of its
    updates since the process started. *)
Definition value (f : family) (labels : list string) (ms : list metric) : Z :=
  Z.of_nat (length (filter (fun m => update m = (f, labels)) ms)).

(** The gauge [Open] sets. *)
Definition RecoveredJobs {L : Type} {lops : LogOps L} (s : Store) : Z :=
  Z.of_nat (size (jobs (mem s))).

(** [WithLabelValues] panics unless it gets a value for each label: it does,
    and the counters go to counters. *)
Lemma update_labels m :
  length (update m).2 = length (MLabels (describe (update m).1)) /\
  (MInstrument (describe (update m).1) = Counter \/ exists q w, m = DispatchDelay q w).
Proof. destruct m; cbn; eauto. Qed.

(** No two families share a name. *)
Lemma names_distinct f g : MName (describe f) = MName (describe g) -> f = g.
Proof. by destruct f, g. Qed.

Lemma value_cons f labels m ms :
  value f labels (m :: ms) = (if decide (update m = (f, labels)) then 1 else 0) + value f labels ms.
Proof. unfold value. rewrite filter_cons. case_decide; cbn; lia. Qed.
