(* ===== verification/Snapshot.v ===== *)
(** * Snapshot: the snapshots of [internal/broker/store.go]

    [Snapshot], [loadLatestSnapshot], [pruneSnapshots] and [OpenStore], which
    puts the loading of a snapshot and the replay of the log together.

    The directory of snapshots is modelled with two maps: the names as the
    process sees them, and the names as of the last flush of the directory
    entry. A crash ([dir_crash]) keeps, name by name, the one or the other, and
    of each file a prefix no shorter than what was synced. System calls consume
    the outcomes in [calls], as in [Wal]. *)
From S2P Require Import Prelude Job Heap Index Framing LogSpec Wal Event Memory Store.

(** ** Data *)

Record snapshot := mkSnapshot {
  SnapLastLSN : N;
  SnapReservedUpTo : N;
  SnapJobs : list Job
}.

(** [json.Marshal] and [json.Unmarshal] of a snapshot. *)
Class SnapCodec := {
  encodeSnapshot : snapshot -> option bytes;
  decodeSnapshot : bytes -> option snapshot
}.

(** What is marshalled can be read back; [snap_encodable] is where. *)
Class SnapCodecLaws `{!SnapCodec} := {
  snap_encodable : snapshot -> Prop;
  snap_roundtrip sn : snap_encodable sn ->
    exists b, encodeSnapshot sn = Some b /\ decodeSnapshot b = Some sn
}.

Definition snapshotPrefix : string := "snapshot-".
Definition snapshotSuffix : string := ".json".
Definition snapshotsKept : nat := 2.

(** [fmt.Sprintf("%s%020d%s", snapshotPrefix, lsn, snapshotSuffix)]. *)
Definition snapshotName (lsn : N) : string :=
  (snapshotPrefix ++ dec_digits 20 lsn ++ snapshotSuffix)%string.
Definition tmpName (name : string) : string := (name ++ ".tmp")%string.

(** [strings.HasPrefix] and [strings.TrimPrefix] at once. *)
Fixpoint strip_prefix (prefix s : string) : option string :=
  match prefix, s with
  | EmptyString, _ => Some s
  | String a prefix, String b s => if Ascii.eqb a b then strip_prefix prefix s else None
  | String _ _, EmptyString => None
  end.

Definition parseSnapshot (name : string) : option N :=
  s ← strip_prefix snapshotPrefix name; s ← strip_suffix snapshotSuffix s; ParseUint s.

(** ** The directory *)

Record SnapDir := mkSnapDir {
  entries_now : gmap string File;
  entries_disk : gmap string File;
  calls : list outcome
}.

Inductive snapError {LogErr : Type} :=
  | SnapEncode
  | SnapIO (what : string)
  | SnapLog (e : LogErr)
  | SnapStore (e : storeError LogErr).
Arguments snapError : clear implicits.

Section Snapshot.
Context {L : Type} {lops : LogOps L} {codec : EventCodec} {scodec : SnapCodec}.

Abbreviation dir_op A := (M SnapDir (snapError log_err) A) (only parsing).

Definition with_entries (f : gmap string File -> gmap string File) : dir_op unit :=
  modify (fun d => mkSnapDir (f (entries_now d)) (entries_disk d) (calls d)).

Definition dir_syscall : dir_op outcome :=
  let* d := gets (fun d => d) in
  modify (fun d => mkSnapDir (entries_now d) (entries_disk d) (tail (calls d))) ;;;
  ret (match calls d with [] => IoOk | o :: _ => o end).

Definition dir_call (what : string) : dir_op unit :=
  let* o := dir_syscall in
  match o with IoOk => ret tt | IoFail _ => throw (SnapIO what) end.

(** [writeFileSync]; the handle is closed whatever fails. *)
Definition writeFileSync (path : string) (data : bytes) : dir_op unit :=
  dir_call "create" ;;;
  with_entries <[path := mkFile [] 0]> ;;;
  let* o := dir_syscall in
  match o with
  | IoFail n =>
      with_entries (alter (append_data (take n data)) path) ;;;
      dir_syscall ;;;
      throw (SnapIO "write")
  | IoOk =>
      with_entries (alter (append_data data) path) ;;;
      catch (dir_call "sync") (fun e => dir_syscall ;;; throw e) ;;;
      with_entries (alter sync_data path) ;;;
      dir_call "close"
  end.

(** [os.Rename]: the old name goes, the new one replaces what it named. *)
Definition rename (old new : string) : dir_op unit :=
  dir_call "rename snapshot" ;;;
  let* d := gets entries_now in
  match d !! old with
  | None => throw (SnapIO "rename snapshot: no such file")
  | Some f => with_entries (fun es => <[new := f]> (delete old es))
  end.

Definition syncSnapDir : dir_op unit :=
  dir_call "open snapshot dir" ;;;
  catch (dir_call "sync snapshot dir") (fun e => dir_syscall ;;; throw e) ;;;
  modify (fun d => mkSnapDir (entries_now d) (entries_now d) (calls d)) ;;;
  dir_syscall ;;;
  ret tt.

(** The files that are snapshots by their names, with their LSNs, oldest
    first. *)
Definition lsn_le (a b : string * N) : Prop := (a.2 <= b.2)%N.
#[export] Instance lsn_le_dec a b : Decision (lsn_le a b).
Proof. unfold lsn_le. apply _. Defined.

Definition snapshots_in (es : gmap string File) : list (string * N) :=
  merge_sort lsn_le
    (omap (fun name => (fun lsn => (name, lsn)) <$> parseSnapshot name)
       (map fst (map_to_list es))).

Definition listSnapshots : dir_op (list string) :=
  dir_call "read snapshot dir" ;;;
  gets (fun d => map fst (snapshots_in (entries_now d))).

(** ** Loading *)

(** What one job of a snapshot restores. *)
Definition load_job (m : Mem) (j : Job) : Mem :=
  mkMem (<[ID j := j]> (jobs m))
    (if bool_decide (IdempotencyKey j = "") then idem m
     else <[idemKey (Queue j) (IdempotencyKey j) := ID j]> (idem m))
    (if bool_decide (JState j = StateLeased) then add (ID j) (leased m) else leased m)
    (epochReservedUpTo m).

(** Onto the empty maps of a new store. *)
Definition load_snapshot (sn : snapshot) : Mem :=
  let m := fold_left load_job (SnapJobs sn) empty_mem in
  mkMem (jobs m) (idem m) (leased m) (SnapReservedUpTo sn).

(** The loop of [loadLatestSnapshot], newest first. *)
Fixpoint load_first (names : list string) : dir_op (Mem * N) :=
  match names with
  | [] => ret (empty_mem, 0%N)
  | name :: names =>
      let* o := dir_syscall in
      let* es := gets entries_now in
      match o, es !! name with
      | IoOk, Some f =>
          match decodeSnapshot (f_data f) with
          | Some sn => ret (load_snapshot sn, SnapLastLSN sn)
          | None => load_first names
          end
      | _, _ => load_first names
      end
  end.

Definition loadLatestSnapshot : dir_op (Mem * N) :=
  let* names := listSnapshots in load_first (rev names).

(** ** Pruning *)

Fixpoint prune_loop (names : list string) : dir_op unit :=
  match names with
  | [] => ret tt
  | name :: names =>
      (let* es := gets entries_now in
       match es !! name with
       | None => ret tt                              (* [os.ErrNotExist] *)
       | Some _ => dir_call "prune snapshot" ;;; with_entries (delete name)
       end) ;;;
      prune_loop names
  end.

Definition pruneSnapshots : dir_op unit :=
  let* names := listSnapshots in
  if (length names <=? snapshotsKept)%nat then ret tt
  else prune_loop (take (length names - snapshotsKept) names).

(** ** Taking a snapshot *)

(** [snap.Jobs[i].ID < snap.Jobs[j].ID], as the order of a merge sort. *)
Definition id_le (a b : Job) : Prop := str_ltb (ID b) (ID a) = false.
#[export] Instance id_le_dec a b : Decision (id_le a b).
Proof. unfold id_le. apply _. Defined.

(** The section of [Snapshot] under the read lock. *)
Definition capture (s : Store) : snapshot :=
  mkSnapshot (lastLSN s) (epochReservedUpTo (mem s))
    (merge_sort id_le (jobs_in_order (jobs (mem s)))).

(** The file is complete and durable before it has its name, and the name is
    durable before anything is removed. *)
Definition writeSnapshot (lsn : N) (data : bytes) : dir_op unit :=
  let final := snapshotName lsn in
  let tmp := tmpName final in
  writeFileSync tmp data ;;;
  rename tmp final ;;;
  syncSnapDir.

Abbreviation both_op A := (M (Store * SnapDir) (snapError log_err) A) (only parsing).

Definition in_dir {A} (m : dir_op A) : both_op A :=
  zoom snd (fun d sd => (sd.1, d)) (fun e => e) m.
Definition in_store {A} (m : M Store (storeError log_err) A) : both_op A :=
  zoom fst (fun s sd => (s, sd.2)) SnapStore m.

(** [Snapshot] from the marshalling on: the jobs are marshalled after the read
    lock is released, so [snap] need not be what was captured. *)
Definition write_out (snap : snapshot) : both_op unit :=
  match encodeSnapshot snap with
  | None => throw SnapEncode
  | Some data =>
      in_dir (writeSnapshot (SnapLastLSN snap) data) ;;;
      in_store (on_log ErrLog (log_truncate_before (u64 (SnapLastLSN snap + 1)))) ;;;
      in_dir pruneSnapshots
  end.

(** [Snapshot], when no other operation runs while it does. *)
Definition Snapshot : both_op unit :=
  let* s := gets fst in write_out (capture s).

(** ** Opening a store *)

(** [Open]: the log, the newest snapshot that can be read, the replay. *)
Definition OpenStore (cfg : Config) (now : Time) :
    M (L * SnapDir) (snapError log_err) Store :=
  let cfg := config_defaults cfg in
  let on_dir {A} (m : dir_op A) : M (L * SnapDir) (snapError log_err) A :=
    zoom snd (fun d ld => (ld.1, d)) (fun e => e) m in
  let on_log {A} (m : M L (storeError log_err) A) : M (L * SnapDir) (snapError log_err) A :=
    zoom fst (fun l ld => (l, ld.2)) SnapStore m in
  on_dir (dir_call "create snapshot dir") ;;;
  on_log (open_log cfg) ;;;
  let* loaded := catch (on_dir loadLatestSnapshot)
    (fun e => modify (fun ld => ((log_close ld.1).2, ld.2)) ;;; throw e) in
  on_log (recover cfg loaded.1 loaded.2 now).
End Snapshot.

(** ** Crashes *)

(** A file that survives under its name. *)
Definition survives (f f' : option File) : Prop :=
  match f, f' with
  | Some f, Some f' => crash_file f f'
  | None, None => True
  | _, _ => False
  end.

Definition dir_crash (d d' : SnapDir) : Prop :=
  entries_disk d' = entries_now d' /\
  forall name,
    survives (entries_now d !! name) (entries_now d' !! name) \/
    survives (entries_disk d !! name) (entries_now d' !! name).
