(* ===== verification/StoreSpec.v ===== *)
(** * StoreSpec: the invariant of the store

    [store_wf]: the maps agree, every job that may be leased has an entry in
    the index, and no job carries a fencing token that is still to be handed
    out. Every locked section keeps it, whatever the log does: nothing here
    assumes that an append or a flush works. *)
From S2P Require Import Prelude Job Heap Index Framing LogSpec Event Memory MemSpec Store.

(** An entry of queue [q] is about a job of that queue, and agrees with it on
    what never changes. *)
Definition describes (q : string) (e : indexEntry) (m : Mem) : Prop :=
  exists j, jobs m !! id e = Some j /\ Queue j = q /\ JPriority j = priority e /\
    EnqueuedAt j = enqueuedAt e.

(** The invariant of the memory, the index and the next token; the job [ex]
    may be missing from the index. *)
Record Inv (ex : option string) (m : Mem) (ix : scheduleIndex) (ne : N) : Prop := {
  inv_mem : mem_wf m;
  inv_index : index_wf ix;
  inv_complete id j :
    jobs m !! id = Some j -> Leasable (JState j) = true -> ex <> Some id ->
    entry_of j ∈ entries (Queue j) ix;
  inv_epoch id j : jobs m !! id = Some j -> (Epoch j < ne)%N;
  inv_reserved : (0 < ne <= epochReservedUpTo m + 1)%N;
  inv_entries q e : e ∈ entries q ix -> describes q e m
}.

Definition store_inv `{!LogOps L} (ex : option string) (s : Store) : Prop :=
  Inv ex (mem s) (index s) (nextEpoch s).
Definition store_wf `{!LogOps L} (s : Store) : Prop := store_inv None s.

(** Tokens can still be reserved without wrapping around. *)
Definition epoch_room `{!LogOps L} (s : Store) : Prop :=
  (0 < epochBlockSize s)%N /\ (nextEpoch s + epochBlockSize s < 2 ^ 64)%N.

(** The job an event is about. *)
Definition event_target (e : event) : option string :=
  match EType e with
  | eventSubmit => ID <$> EJob e
  | eventEpochReserve | eventOther _ => None
  | _ => Some (EJobID e)
  end.

(** The token an event puts on its job. *)
Definition event_epoch (e : event) : N :=
  match EType e with
  | eventSubmit => match EJob e with Some j => Epoch j | None => 0 end
  | eventLease => EEpoch e
  | _ => 0
  end%N.

Lemma describes_apply q e0 e m m' :
  admissible e m -> apply e m = (inr tt, m') -> describes q e0 m -> describes q e0 m'.
Proof.
  intros Had Happ (j & Hj & Hq & Hp & Hn).
  destruct (apply_cases e m m' Happ)
    as [(j0 & Ht & Hj0 & ->)|[(f & g & j0 & Hf & Hj0 & ->)|[Ht ->]]].
  - exists j. cbn. rewrite lookup_insert_ne; [done|]. intros E.
    unfold admissible in Had. rewrite Ht, Hj0 in Had. destruct Had as [Hnew _]. congruence.
  - unfold describes. cbn. destruct (decide (EJobID e = id e0)) as [E|Hne].
    + exists (f j0). rewrite <- E, lookup_insert_eq.
      destruct (effect_fixed e f g j0 Hf) as (_ & -> & _ & -> & _ & -> & _).
      assert (j0 = j) as -> by congruence. done.
    + exists j. by rewrite lookup_insert_ne.
  - by exists j.
Qed.

Lemma Inv_apply ex e m m' ix ne :
  Inv ex m ix ne -> admissible e m -> apply e m = (inr tt, m') ->
  (event_epoch e < ne)%N -> (ex = None \/ ex = event_target e) ->
  Inv (event_target e) m' ix ne.
Proof.
  intros Hinv Had Happ Hep Hex. pose proof (inv_mem _ _ _ _ Hinv) as Hwf.
  pose proof (inv_reserved _ _ _ _ Hinv) as Hres.
  assert (Hother : forall id j, jobs m !! id = Some j -> Leasable (JState j) = true ->
            event_target e <> Some id -> entry_of j ∈ entries (Queue j) ix).
  { intros id j Hj Hl Hne. apply (inv_complete _ _ _ _ Hinv id); [done..|].
    destruct Hex as [-> | ->]; [done|done]. }
  split; [by eapply apply_mem_wf|apply Hinv| | | |].
  - destruct (apply_cases e m m' Happ)
      as [(j0 & Ht & Hj0 & ->)|[(f & g & j0 & Hf & Hj0 & ->)|[Ht ->]]]; intros id j Hj Hl Hne.
    + cbn in Hj. unfold event_target in Hne, Hother. rewrite Ht, Hj0 in *.
      rewrite lookup_insert_ne in Hj by (intros E; apply Hne; cbn; congruence).
      by apply (Hother id).
    + cbn in Hj. assert (event_target e = Some (EJobID e)) as Htgt.
      { unfold event_target, job_effect in *. by destruct (EType e). }
      rewrite Htgt in *. rewrite lookup_insert_ne in Hj by congruence.
      by apply (Hother id).
    + by apply (Hother id).
  - destruct (apply_cases e m m' Happ)
      as [(j0 & Ht & Hj0 & ->)|[(f & g & j0 & Hf & Hj0 & ->)|[Ht ->]]]; intros id j Hj;
      cbn in Hj.
    + rewrite lookup_insert in Hj. unfold event_epoch in Hep. rewrite Ht, Hj0 in Hep.
      case_decide; [by injection Hj as <-|by apply (inv_epoch _ _ _ _ Hinv id)].
    + rewrite lookup_insert in Hj. case_decide; [|by apply (inv_epoch _ _ _ _ Hinv id)].
      injection Hj as <-. pose proof (inv_epoch _ _ _ _ Hinv _ _ Hj0).
      unfold event_epoch, job_effect in *.
      destruct (EType e); try done; injection Hf as <- _; done.
    + by apply (inv_epoch _ _ _ _ Hinv id).
  - destruct (apply_cases e m m' Happ)
      as [(j0 & Ht & Hj0 & ->)|[(f & g & j0 & Hf & Hj0 & ->)|[Ht ->]]]; cbn; [done|done|].
    unfold admissible in Had. rewrite Ht in Had. lia.
  - intros q e0 He0. apply (describes_apply _ _ e m); [done..|]. by apply (inv_entries _ _ _ _ Hinv).
Qed.

Lemma Inv_weaken id m ix ne : Inv None m ix ne -> Inv (Some id) m ix ne.
Proof. intros []. split; try done. intros i j Hj Hl _. by apply (inv_complete0 i). Qed.

(** The job that was left out cannot be leased: nothing is missing. *)
Lemma Inv_close id m ix ne :
  Inv (Some id) m ix ne ->
  (forall j, jobs m !! id = Some j -> Leasable (JState j) = false) -> Inv None m ix ne.
Proof.
  intros [] Hno. split; try done. intros id' j Hj Hl _.
  apply (inv_complete0 id'); [done..|]. intros [= <-]. by rewrite (Hno j) in Hl.
Qed.

Lemma entries_push j now ix q e :
  e ∈ entries q (push j now ix) <-> (Queue j = q /\ e = entry_of j) \/ e ∈ entries q ix.
Proof.
  rewrite push_entries, elem_of_app. destruct (decide (Queue j = q)) as [->|Hne].
  - rewrite list_elem_of_singleton. tauto.
  - rewrite elem_of_nil. tauto.
Qed.

(** Filing the job that was left out. *)
Lemma Inv_push id j now m ix ne :
  Inv (Some id) m ix ne -> jobs m !! id = Some j -> Inv None m (push j now ix) ne.
Proof.
  intros [] Hj. split; try done; [by apply push_wf| |].
  - intros id' j' Hj' Hl _.
    apply entries_push. destruct (decide (id' = id)) as [->|Hne].
    + left. split; congruence.
    + right. apply (inv_complete0 id'); congruence.
  - intros q e [[Hq ->]|He]%entries_push; [|by apply inv_entries0].
    exists j. cbn. by rewrite (wf_keys m inv_mem0 id j Hj).
Qed.

Lemma Inv_promote q now m ix ne : Inv None m ix ne -> Inv None m (promote q now ix) ne.
Proof.
  intros []. split; try done; [by apply promote_spec| |].
  - intros id j Hj Hl Hex. rewrite promote_entries by done. by apply (inv_complete0 id).
  - intros q' e. rewrite promote_entries by done. apply inv_entries0.
Qed.

(** Taking an entry off: only the job it is about can be left out, and only if
    the entry was the current one. *)
Lemma pop_entries q ix cand ix' :
  index_wf ix -> pop q ix = Some (cand, ix') ->
  index_wf ix' /\ entries q ix ≡ₚ cand :: entries q ix' /\
  (forall other, other <> q -> entries other ix' = entries other ix).
Proof.
  intros Hwf Hpop. destruct (pop_Some q ix cand ix' Hwf Hpop) as (H1 & H2 & H3 & _ & H5).
  split; [done|]. unfold entries, entries_q. split.
  - by rewrite H2, H3.
  - intros other Hne. by rewrite H5.
Qed.

Lemma pop_subset q ix cand ix' e name :
  index_wf ix -> pop q ix = Some (cand, ix') ->
  e ∈ entries name ix' -> e ∈ entries name ix.
Proof.
  intros Hwf Hpop He. destruct (pop_entries q ix cand ix' Hwf Hpop) as (_ & Hp & Ho).
  destruct (decide (name = q)) as [->|Hq]; [|by rewrite <- Ho].
  rewrite Hp. by right.
Qed.

Lemma pop_keeps q ix cand ix' e name :
  index_wf ix -> pop q ix = Some (cand, ix') -> e <> cand ->
  e ∈ entries name ix -> e ∈ entries name ix'.
Proof.
  intros Hwf Hpop Hne He. destruct (pop_entries q ix cand ix' Hwf Hpop) as (_ & Hp & Ho).
  destruct (decide (name = q)) as [->|Hq].
  - rewrite Hp, elem_of_cons in He. by destruct He.
  - by rewrite Ho.
Qed.

Lemma Inv_pop q m ix cand ix' ne :
  Inv None m ix ne -> pop q ix = Some (cand, ix') -> Inv (Some (id cand)) m ix' ne.
Proof.
  intros Hinv Hpop. pose proof (inv_index _ _ _ _ Hinv) as Hwf. destruct Hinv. split; try done.
  - by destruct (pop_entries q ix cand ix' Hwf Hpop).
  - intros id j Hj Hl Hex. eapply pop_keeps; [done..| |by apply (inv_complete0 id)].
    intros <-. apply Hex. cbn. f_equal. by apply (wf_keys m).
  - intros name e He. apply inv_entries0. by eapply pop_subset.
Qed.

(** A superseded entry is not missed. *)
Lemma Inv_pop_stale q m ix cand ix' ne j :
  Inv None m ix ne -> pop q ix = Some (cand, ix') ->
  jobs m !! id cand = Some j -> eligibleAt cand <> EligibleAt j -> Inv None m ix' ne.
Proof.
  intros Hinv Hpop Hj Hst. pose proof (Inv_pop _ _ _ _ _ _ Hinv Hpop) as [H1 H2 H3 H4 H5 H6].
  split; try done. intros id' j' Hj' Hl _. destruct (decide (id' = id cand)) as [->|Hne].
  - assert (j' = j) as -> by congruence. eapply pop_keeps; [apply Hinv|done| |].
    + intros <-. by apply Hst.
    + by apply (inv_complete _ _ _ _ Hinv (id cand)).
  - apply (H3 id'); [done..|congruence].
Qed.

(** ** What the building blocks do, whatever the log does *)

Section Blocks.
Context {L : Type} {lops : LogOps L} {codec : EventCodec}.
Abbreviation error := (storeError log_err) (only parsing).
Implicit Types (s : Store).

Lemma with_log_id s : with_log (log s) s = s.
Proof. by destruct s. Qed.

Lemma with_mem_id s : with_mem (mem s) s = s.
Proof. by destruct s. Qed.

Lemma wp_on_log {A} (wrap : log_err -> error) (m : M L log_err A) Q s :
  (forall e l', m (log s) = (inl e, l') -> Q (inl (wrap e)) (with_log l' s)) ->
  (forall a l', m (log s) = (inr a, l') -> Q (inr a) (with_log l' s)) ->
  wp (on_log wrap m) Q s.
Proof.
  intros He Ha. unfold wp, on_log, zoom. destruct (m (log s)) as [[e|a] l'] eqn:E;
    [by apply He|by apply Ha].
Qed.

Lemma wp_on_mem (m : M Mem applyError unit) Q s :
  (forall e m', m (mem s) = (inl e, m') -> Q (inl (ErrApply e)) (with_mem m' s)) ->
  (forall m', m (mem s) = (inr tt, m') -> Q (inr tt) (with_mem m' s)) ->
  wp (on_mem m) Q s.
Proof.
  intros He Ha. unfold wp, on_mem, zoom. destruct (m (mem s)) as [[e|[]] l'] eqn:E;
    [by apply He|by apply Ha].
Qed.

Lemma wp_apply e Q s :
  (forall x, Q (inl (ErrApply x)) s) ->
  (forall m', apply e (mem s) = (inr tt, m') -> Q (inr tt) (with_mem m' s)) ->
  wp (on_mem (apply e)) Q s.
Proof.
  intros He Ha. apply wp_on_mem; [|done]. intros x m' ->%apply_err. by rewrite with_mem_id.
Qed.

(** [recordLocked] either fails, with an effect on the log only, or applies
    the event. *)
Lemma wp_recordLocked e Q s :
  (forall err l', Q (inl err) (with_log l' s)) ->
  (forall lsn l' m', failed s = None -> apply e (mem s) = (inr tt, m') ->
     Q (inr tt) (with_lastLSN lsn (with_mem m' (with_log l' s)))) ->
  wp (recordLocked e) Q s.
Proof.
  intros He Hok. unfold recordLocked. do 2 wp_step.
  destruct (failed s) as [err|] eqn:Ef.
  { wp_step. rewrite <- (with_log_id s). apply He. }
  wp_step. unfold encode. destruct (encodeEvent e) as [b|].
  2:{ wp_step. rewrite <- (with_log_id s). apply He. }
  do 2 wp_step. apply wp_on_log; intros x l' _; [apply He|].
  wp_step. apply wp_apply; [intros; apply He|]. intros m' Hm'. wp_step. by apply Hok.
Qed.

Definition reserve_event s : event := ev_reserve (u64 (nextEpoch s + epochBlockSize s + 2 ^ 64 - 1)).

Lemma wp_reserveEpochsLocked Q s :
  (forall err l', Q (inl err) (with_log l' s)) ->
  (forall lsn l' m', apply (reserve_event s) (mem s) = (inr tt, m') ->
     Q (inr tt) (with_lastLSN lsn (with_mem m' (with_log l' s)))) ->
  wp reserveEpochsLocked Q s.
Proof.
  intros He Hok. unfold reserveEpochsLocked. do 2 wp_step. fold (reserve_event s).
  wp_step. unfold encode. destruct (encodeEvent (reserve_event s)) as [b|].
  2:{ wp_step. rewrite <- (with_log_id s). apply He. }
  do 2 wp_step. apply wp_on_log; intros x l' _; [apply He|].
  wp_step. apply wp_apply; [intros; apply He|]. intros m' Hm'. wp_step. by apply Hok.
Qed.

Lemma wp_push_job id now Q s :
  (jobs (mem s) !! id = None -> Q (inr tt) s) ->
  (forall j, jobs (mem s) !! id = Some j -> Q (inr tt) (with_index (push j now (index s)) s)) ->
  wp (push_job id now) Q s.
Proof.
  intros Hn Hs. unfold push_job, get_job. do 2 wp_step.
  destruct (jobs (mem s) !! id) as [j|] eqn:E.
  - unfold on_index. wp_step. by apply Hs.
  - wp_step. by apply Hn.
Qed.

(** [commitDurable] touches the log and, when the flush fails, the poison. *)
Lemma wp_commitDurable Q s :
  (forall l', Q (inr tt) (with_log l' s)) ->
  (forall err l', Q (inl err) (with_failed (Some err) (with_log l' s))) ->
  wp commitDurable Q s.
Proof.
  intros Hok Herr. unfold wp, commitDurable, bind, try, on_log, zoom, gets.
  destruct (log_sync (log s)) as [[e|a] l'] eqn:E; cbn; [|apply Hok].
  destruct (failed s) as [err|] eqn:Ef; cbn.
  - replace (with_log l' s) with (with_failed (Some err) (with_log l' s)); [apply Herr|].
    destruct s. cbn in *. by rewrite Ef.
  - apply Herr.
Qed.

(** *** Each block keeps the invariant *)

Lemma Inv_record ex e s :
  store_inv ex s -> admissible e (mem s) -> (event_epoch e < nextEpoch s)%N ->
  (ex = None \/ ex = event_target e) ->
  wp (recordLocked e) (fun r s' =>
    match r with
    | inl _ => store_inv ex s'
    | inr _ => store_inv (event_target e) s'
    end /\ nextEpoch s' = nextEpoch s /\ epochBlockSize s' = epochBlockSize s /\
    match r with
    | inl _ => mem s' = mem s /\ index s' = index s
    | inr _ => apply e (mem s) = (inr tt, mem s')
    end) s.
Proof.
  intros Hinv Had Hep Hex. apply wp_recordLocked.
  - intros err l'. by split_and!.
  - intros lsn l' m' _ Happ. split_and!; try done. by eapply Inv_apply.
Qed.

Lemma Inv_commit ex s :
  store_inv ex s -> wp commitDurable (fun _ s' => store_inv ex s') s.
Proof. intros Hinv. by apply wp_commitDurable. Qed.

Lemma commitDurable_wf s : store_wf s -> wp commitDurable (fun _ s' => store_wf s') s.
Proof. apply Inv_commit. Qed.

Lemma reserved_upto ex s :
  store_inv ex s -> epoch_room s ->
  EReservedUpTo (reserve_event s) = (nextEpoch s + epochBlockSize s - 1)%N.
Proof.
  intros Hwf [Hb Hr]. pose proof (inv_reserved _ _ _ _ Hwf). cbn. unfold u64.
  replace (nextEpoch s + epochBlockSize s + 2 ^ 64 - 1)%N
    with (nextEpoch s + epochBlockSize s - 1 + 1 * 2 ^ 64)%N by lia.
  rewrite N.Div0.mod_add. apply N.mod_small. lia.
Qed.

Lemma Inv_reserve ex m ix ne upto :
  Inv ex m ix ne -> (ne <= upto + 1)%N ->
  Inv ex (mkMem (jobs m) (idem m) (leased m) upto) ix ne.
Proof. intros [[] ? ? ? ? ?] H. split; cbn; try done; lia. Qed.

Lemma Inv_next ex m ix ne ne' :
  Inv ex m ix ne -> (ne <= ne' <= epochReservedUpTo m + 1)%N -> Inv ex m ix ne'.
Proof.
  intros [] H. split; try done; [|lia]. intros id j Hj. specialize (inv_epoch0 id j Hj). lia.
Qed.

(** A fresh token: above every token a job carries, and not to be handed out
    again. *)
Definition epoch_post (ex : option string) s (r : error + N) (s' : Store) : Prop :=
  store_inv ex s' /\ index s' = index s /\ jobs (mem s') = jobs (mem s) /\
  epochBlockSize s' = epochBlockSize s /\
  match r with
  | inl _ => nextEpoch s' = nextEpoch s
  | inr e => e = nextEpoch s /\ nextEpoch s' = (e + 1)%N /\
             (e <= epochReservedUpTo (mem s'))%N
  end.

Lemma Inv_nextEpoch ex s :
  store_inv ex s -> epoch_room s -> wp nextEpochLocked (epoch_post ex s) s.
Proof.
  intros Hinv Hroom. pose proof (reserved_upto ex s Hinv Hroom) as Hupto.
  pose proof (inv_reserved _ _ _ _ Hinv) as Hres. destruct Hroom as [Hb Hr].
  unfold nextEpochLocked. do 3 wp_step.
  assert (Hfin : forall s1, store_inv ex s1 -> index s1 = index s -> jobs (mem s1) = jobs (mem s) ->
    epochBlockSize s1 = epochBlockSize s -> nextEpoch s1 = nextEpoch s ->
    (nextEpoch s <= epochReservedUpTo (mem s1))%N ->
    wp (let* e := gets nextEpoch in modify (with_nextEpoch (u64 (e + 1))) ;;; ret e)
      (epoch_post ex s) s1).
  { intros s1 H1 H2 H3 H4 H5 H6. wp_auto. rewrite H5, u64_id by (unfold is_u64; lia).
    split_and!; try done. apply (Inv_next _ _ _ (nextEpoch s1)); [done|]. cbn. lia. }
  destruct (N.ltb_spec (epochReservedUpTo (mem s)) (nextEpoch s)) as [Hlt|Hge].
  - apply wp_reserveEpochsLocked; [done|].
    intros lsn l' m' Happ.
    assert (m' = mkMem (jobs (mem s)) (idem (mem s)) (leased (mem s))
                   (EReservedUpTo (reserve_event s))) as -> by (by injection Happ as <-).
    rewrite Hupto. apply Hfin; try done; [|cbn; lia].
    apply Inv_reserve; [done|]. cbn. lia.
  - wp_step. by apply Hfin.
Qed.

Lemma Inv_push_job id now s :
  store_inv (Some id) s ->
  wp (push_job id now) (fun r s' => r = inr tt /\ store_wf s' /\ mem s' = mem s /\
    nextEpoch s' = nextEpoch s /\ epochBlockSize s' = epochBlockSize s) s.
Proof.
  intros Hinv. apply wp_push_job.
  - intros Hn. split_and!; try done. apply (Inv_close id); [done|]. by rewrite Hn.
  - intros j Hj. split_and!; try done. by apply (Inv_push id).
Qed.

(** The job after an event on it. *)
Lemma apply_target e f g m m' j :
  job_effect e = Some (f, g) -> jobs m !! EJobID e = Some j -> apply e m = (inr tt, m') ->
  jobs m' !! EJobID e = Some (f j).
Proof.
  intros Hf Hj Happ. rewrite (apply_on_job _ _ _ _ _ Hf Hj) in Happ. injection Happ as <-.
  cbn. by rewrite lookup_insert_eq.
Qed.

(** An event that leaves its job not leasable needs no entry. *)
Lemma Inv_record_done e f g s :
  store_wf s -> admissible e (mem s) -> job_effect e = Some (f, g) ->
  (event_epoch e < nextEpoch s)%N ->
  (forall j, Leasable (JState (f j)) = false) ->
  wp (recordLocked e) (fun r s' => store_wf s' /\ nextEpoch s' = nextEpoch s /\
    epochBlockSize s' = epochBlockSize s /\
    match r with
    | inl _ => mem s' = mem s
    | inr _ => apply e (mem s) = (inr tt, mem s')
    end) s.
Proof.
  intros Hwf Had Hf Hep Hdone. eapply wp_mono.
  { apply (Inv_record None); [done..|by left]. }
  intros [err|[]] s' (Hinv & Hne & Hbs & H); [by destruct H|].
  split_and!; try done.
  assert (event_target e = Some (EJobID e)) as Ht.
  { unfold event_target, job_effect in *. by destruct (EType e). }
  rewrite Ht in Hinv. apply (Inv_close (EJobID e)); [done|].
  destruct (admissible_is_Some _ _ _ _ Had Hf) as [j Hj].
  rewrite (apply_target e f g _ _ j Hf Hj H). by intros j' [= <-].
Qed.

(** ** The locked sections *)

Lemma holds_leased j epoch : holdsLease j epoch = true -> JState j = StateLeased /\ Epoch j = epoch.
Proof.
  unfold holdsLease. rewrite andb_true_iff, bool_decide_eq_true, N.eqb_eq. done.
Qed.

Lemma leased_running m id j :
  jobs m !! id = Some j -> JState j = StateLeased -> running m id.
Proof. intros Hj E. exists j. by rewrite E. Qed.

Lemma leasable_running m id j :
  jobs m !! id = Some j -> Leasable (JState j) = true -> running m id.
Proof. intros Hj E. exists j. split; [done|]. by destruct (JState j). Qed.

Lemma next_pos s ex : store_inv ex s -> (0 < nextEpoch s)%N.
Proof. intros H. apply (inv_reserved _ _ _ _ H). Qed.

Lemma Submit_locked_wf p id now s :
  store_wf s -> jobs (mem s) !! id = None ->
  wp (Submit_locked p id now) (fun _ s' => store_wf s') s.
Proof.
  intros Hwf Hnew. unfold Submit_locked. do 2 wp_step.
  destruct (failed s) as [err|]; [by wp_step|]. do 2 wp_step.
  destruct (if bool_decide _ then _ else _) as [old|] eqn:Eold; [by wp_step|].
  wp_step. eapply wp_mono.
  { apply (Inv_record None); [done| |by apply (next_pos s None)|by left].
    cbn. split_and!; [done..|]. intros Hk. by rewrite bool_decide_false in Eold. }
  intros [err|[]] s1 (H1 & _); [done|]. wp_step.
  eapply wp_mono; [by apply (Inv_push_job id)|]. intros r s2 (-> & H2 & _). by wp_step.
Qed.

Lemma Ack_locked_wf jobID epoch s :
  store_wf s -> wp (Ack_locked jobID epoch) (fun _ s' => store_wf s') s.
Proof.
  intros Hwf. unfold Ack_locked. wp_step. unfold get_job at 1. wp_step.
  destruct (jobs (mem s) !! jobID) as [j|] eqn:Ej; [|by wp_step].
  destruct (holdsLease j epoch) eqn:Eh; cbn [negb]; [|unfold inc; by wp_auto].
  apply holds_leased in Eh as [Eh _].
  wp_step. eapply wp_mono.
  { eapply (Inv_record_done (ev_ack jobID epoch)); [done| |done|by apply (next_pos s None)|done].
    by apply (leased_running _ _ j). }
  intros [err|[]] s' (H & _); [done|by wp_step].
Qed.

Lemma failLocked_wf j reason timeout now rnd s :
  store_wf s -> jobs (mem s) !! ID j = Some j -> JState j = StateLeased ->
  wp (failLocked j reason timeout now rnd) (fun _ s' => store_wf s') s.
Proof.
  intros Hwf Hj Hst. unfold failLocked. do 3 wp_step.
  set (next := if MaxRetries j <? Attempt j then StateDeadLetter else StateRetryWait).
  set (e := ev_fail _ _ _ _ _ _ _).
  assert (Had : admissible e (mem s)).
  { cbn. split; [by apply (leased_running _ _ j)|]. unfold next. destruct (_ <? _); auto. }
  destruct (bool_decide_reflect (next = StateRetryWait)) as [Hn|Hn].
  - eapply wp_mono.
    { apply (Inv_record None e); [done..|by apply (next_pos s None)|by left]. }
    intros [err|[]] s1 (H1 & _); [done|]. wp_step.
    eapply wp_mono; [by apply (Inv_push_job (ID j))|].
    intros r s2 (-> & H2 & _). by wp_step.
  - assert (Hd : next = StateDeadLetter) by (unfold next in *; by destruct (_ <? _)).
    eapply wp_mono.
    { eapply (Inv_record_done e); [done|done|done|by apply (next_pos s None)|].
      intros j'. cbn. by rewrite Hd. }
    intros [err|[]] s1 (H1 & _); [done|]. wp_step. wp_step. by wp_step.
Qed.

Lemma Nack_locked_wf jobID epoch reason now rnd s :
  store_wf s -> wp (Nack_locked jobID epoch reason now rnd) (fun _ s' => store_wf s') s.
Proof.
  intros Hwf. unfold Nack_locked. wp_step. unfold get_job at 1. wp_step.
  destruct (jobs (mem s) !! jobID) as [j|] eqn:Ej; [|by wp_step].
  destruct (holdsLease j epoch) eqn:Eh; cbn [negb]; [|unfold inc; by wp_auto].
  apply holds_leased in Eh as [Eh _].
  wp_step. eapply wp_mono; [apply failLocked_wf; [done| |done]|].
  - by rewrite (wf_keys _ (inv_mem _ _ _ _ Hwf) _ _ Ej).
  - intros [err|dead] s1 H1; [done|by wp_step].
Qed.

Lemma ReplayJob_locked_wf jobID now s :
  store_wf s -> wp (ReplayJob_locked jobID now) (fun _ s' => store_wf s') s.
Proof.
  intros Hwf. unfold ReplayJob_locked. wp_step. unfold get_job at 1. wp_step.
  destruct (jobs (mem s) !! jobID) as [j|] eqn:Ej; [|by wp_step].
  destruct (bool_decide_reflect (JState j = StateDeadLetter)); cbn [negb]; [|by wp_step].
  wp_step. eapply wp_mono.
  { apply (Inv_record None (ev_replay jobID now)); [done| |by apply (next_pos s None)|by left].
    by exists j. }
  intros [err|[]] s1 (H1 & _); [done|]. wp_step.
  eapply wp_mono; [by apply (Inv_push_job jobID)|]. intros r s2 (-> & H2 & _). by wp_step.
Qed.

Lemma extend_mem_wf id j expires m :
  mem_wf m -> jobs m !! id = Some j ->
  mem_wf (set_jobs <[id := extend_lease expires j]> m).
Proof.
  intros [Hk Hl Hc Hs] Hj. split; cbn.
  - intros id' j'. rewrite lookup_insert. case_decide; [|apply Hk].
    intros [= <-]. cbn. rewrite (Hk _ _ Hj). done.
  - intros id'. rewrite Hl, lookup_insert. destruct (decide (id = id')) as [<-|]; [|done].
    rewrite Hj. split; intros (j' & [= <-] & ?); eauto.
  - intros id' j'. rewrite lookup_insert. case_decide; [|apply Hc].
    intros [= <-]. subst id'. apply (Hc id j Hj).
  - intros k id' H. destruct (Hs k id' H) as (j' & Hj' & ? & ->). rewrite lookup_insert.
    case_decide; [|by exists j']. exists (extend_lease expires j).
    subst id'. assert (j' = j) as -> by congruence. done.
Qed.

Lemma Heartbeat_wf jobID epoch dur now s :
  store_wf s -> wp (Heartbeat jobID epoch dur now) (fun _ s' => store_wf s') s.
Proof.
  intros Hwf. unfold Heartbeat. wp_step. unfold get_job at 1. wp_step.
  destruct (jobs (mem s) !! jobID) as [j|] eqn:Ej; [|by wp_step].
  destruct (negb (holdsLease j epoch)) eqn:Eh; [by wp_step|]. wp_auto.
  destruct Hwf as [Hm Hi Hc He Hr Hen]. split; cbn; try done.
  - by apply extend_mem_wf.
  - intros id' j'. rewrite lookup_insert. case_decide; [|apply Hc].
    intros [= <-] Hl. apply negb_false_iff, andb_true_iff in Eh as [Eh _].
    apply bool_decide_eq_true in Eh. cbn in Hl. by rewrite Eh in Hl.
  - intros id' j'. rewrite lookup_insert. case_decide; [|apply He].
    intros [= <-]. by apply (He jobID j).
  - intros q e Hin. destruct (Hen q e Hin) as (j' & Hj' & Hd). unfold describes. cbn.
    destruct (decide (jobID = Index.id e)) as [E|Hne].
    + exists (extend_lease (now + dur) j). rewrite <- E, lookup_insert_eq.
      rewrite <- E in Hj'. assert (j' = j) as -> by congruence. done.
    + exists j'. by rewrite lookup_insert_ne.
Qed.

(** The drift branch of [ReclaimExpired] never finds anything to repair. *)
Lemma remove_not_leased id m :
  mem_wf m -> (forall j, jobs m !! id = Some j -> JState j <> StateLeased) ->
  set_leased (remove id) m = m.
Proof.
  intros Hwf Hno. destruct m as [js i l r]. unfold set_leased. cbn. f_equal.
  apply set_eq. intros id'. rewrite elem_remove. split; [by intros [? _]|].
  intros Hin. split; [done|]. intros ->.
  apply (wf_leased _ Hwf) in Hin as (j & Hj & Hl). by apply (Hno j).
Qed.

Lemma reclaim_loop_wf order now rnd acc s :
  store_wf s -> wp (reclaim_loop order now rnd acc) (fun _ s' => store_wf s') s.
Proof.
  revert acc s. induction order as [|id order IH]; intros acc s Hwf; cbn [reclaim_loop].
  { by wp_step. }
  pose proof (inv_mem _ _ _ _ Hwf) as Hm.
  wp_step. unfold get_job at 1. wp_step.
  destruct (jobs (mem s) !! id) as [j|] eqn:Ej.
  - destruct (bool_decide_reflect (JState j = StateLeased)) as [El|El]; cbn [negb].
    2:{ do 2 wp_step. apply IH. rewrite remove_not_leased; [by rewrite with_mem_id|done|].
      intros j'. rewrite Ej. by intros [= <-]. }
    destruct (now <? LeaseExpiresAt j); [by apply IH|].
    do 2 wp_step. eapply wp_mono; [apply failLocked_wf; [done| |done]|].
    + by rewrite (wf_keys _ Hm _ _ Ej).
    + intros [err|dead] s1 H1; [by wp_step|by apply IH].
  - do 2 wp_step. apply IH. rewrite remove_not_leased; [by rewrite with_mem_id|done|].
    intros j'. by rewrite Ej.
Qed.

Lemma epoch_room_mono s s' :
  epoch_room s -> epochBlockSize s' = epochBlockSize s ->
  (nextEpoch s' <= nextEpoch s)%N -> epoch_room s'.
Proof. intros [Hb Hr] E1 E2. unfold epoch_room. rewrite E1. lia. Qed.

(** *** The loop of [Lease] *)

(** What the loop keeps: besides the invariant, no entry of the queue that is
    due is left in the delayed heap. *)
Definition loop_inv (queue : string) (now : Time) s (ix : scheduleIndex) : Prop :=
  Inv None (mem s) ix (nextEpoch s) /\
  forall e, e ∈ delayed (forQueue queue ix) -> now < eligibleAt e.

(** The jobs a worker can be given. *)
Definition eligible (queue : string) (now : Time) s (j : Job) : Prop :=
  jobs (mem s) !! ID j = Some j /\ Queue j = queue /\ Leasable (JState j) = true /\
  EligibleAt j <= now.

(** [j] may be handed out, and nothing that may be sorts before it. *)
Definition best (queue : string) (now : Time) s (j : Job) : Prop :=
  eligible queue now s j /\
  forall j', eligible queue now s j' -> readyLess (entry_of j') (entry_of j) = false.

Lemma eligible_ready queue now s ix j :
  loop_inv queue now s ix -> eligible queue now s j ->
  entry_of j ∈ ready (forQueue queue ix).
Proof.
  intros [Hinv Hd] (Hj & <- & Hl & He).
  pose proof (inv_complete _ _ _ _ Hinv _ _ Hj Hl ltac:(done)) as Hin.
  apply elem_of_entries in Hin as [?|Hin]; [done|]. specialize (Hd _ Hin). cbn in Hd. lia.
Qed.

(** The job behind the entry that was popped is the best one. *)
Lemma popped_best queue now s ix ix' cand j :
  loop_inv queue now s ix -> pop queue ix = Some (cand, ix') ->
  jobs (mem s) !! Index.id cand = Some j -> Leasable (JState j) = true ->
  eligibleAt cand = EligibleAt j -> EligibleAt j <= now -> best queue now s j.
Proof.
  intros Hloop Hpop Hj Hl He Hnow. pose proof Hloop as [Hinv _].
  destruct (pop_Some _ _ _ _ (inv_index _ _ _ _ Hinv) Hpop) as (_ & Hp & _ & Hmin & _).
  pose proof (wf_keys _ (inv_mem _ _ _ _ Hinv) _ _ Hj) as HID.
  destruct (inv_entries _ _ _ _ Hinv queue cand) as (j0 & Hj0 & Hq & Hpr & Hen).
  { apply elem_of_entries. left. rewrite Hp. left. }
  assert (j0 = j) as -> by congruence.
  assert (Hc : cand = entry_of j).
  { destruct cand as [ci cp cn ce]. cbn in *. unfold entry_of. congruence. }
  split; [by rewrite <- HID in Hj|]. intros j' Hj'. rewrite <- Hc. apply Hmin.
  by eapply eligible_ready.
Qed.

Lemma loop_inv_pop queue now s ix ix' cand :
  loop_inv queue now s ix -> pop queue ix = Some (cand, ix') ->
  Inv None (mem s) ix' (nextEpoch s) -> loop_inv queue now s ix'.
Proof.
  intros [Hinv Hd] Hpop Hinv'. split; [done|].
  destruct (pop_Some _ _ _ _ (inv_index _ _ _ _ Hinv) Hpop) as (_ & _ & -> & _). done.
Qed.

Lemma push_future j now ix queue :
  now < EligibleAt j ->
  ready (forQueue queue (push j now ix)) = ready (forQueue queue ix) /\
  forall e, e ∈ delayed (forQueue queue (push j now ix)) <->
    (Queue j = queue /\ e = entry_of j) \/ e ∈ delayed (forQueue queue ix).
Proof.
  intros H. unfold push. cbn [entry_of eligibleAt]. rewrite (proj2 (Z.ltb_lt _ _)) by done.
  rewrite forQueue_insert. destruct (decide (Queue j = queue)) as [<-|Hne]; cbn [ready delayed].
  - split; [done|]. intros e. rewrite Push_perm, elem_of_cons. tauto.
  - split; [done|]. intros e. tauto.
Qed.

Lemma lease_loop_rule fuel queue workerID dur now s (Q : error + option Job -> Store -> Prop) ix :
  (length (ready (forQueue queue ix)) < fuel)%nat -> loop_inv queue now s ix ->
  (forall ix, loop_inv queue now s ix -> ready (forQueue queue ix) = [] ->
     Q (inr None) (with_index ix s)) ->
  (forall ix cid j, Inv (Some cid) (mem s) ix (nextEpoch s) -> cid = ID j -> best queue now s j ->
     wp (lease_turn queue workerID dur now cid j) Q (with_index ix s)) ->
  wp (lease_loop fuel queue workerID dur now) Q (with_index ix s).
Proof.
  intros Hf Hloop Hnone Hturn. revert ix Hf Hloop.
  induction fuel as [|fuel IH]; intros ix Hf Hloop; cbn [lease_loop]; [lia|].
  pose proof Hloop as [Hinv Hd]. pose proof (inv_index _ _ _ _ Hinv) as Hix.
  do 2 wp_step. cbn [index with_index].
  destruct (pop queue ix) as [[cand ix']|] eqn:Epop.
  2:{ wp_step. apply Hnone; [done|]. by apply (pop_None queue ix Hix). }
  pose proof (Inv_pop _ _ _ _ _ _ Hinv Epop) as Hpop.
  destruct (pop_Some _ _ _ _ Hix Epop) as (_ & Hp & _ & _ & _).
  apply Permutation_length in Hp. cbn in Hp.
  do 2 wp_step. wp_step. unfold get_job at 1. wp_step. cbn [mem with_index].
  change (with_index ix' (with_index ix s)) with (with_index ix' s).
  destruct (jobs (mem s) !! Index.id cand) as [j|] eqn:Ej.
  2:{ apply IH; [lia|]. eapply loop_inv_pop; [done..|].
      apply (Inv_close (Index.id cand)); [done|]. by rewrite Ej. }
  destruct (Leasable (JState j)) eqn:El; cbn [negb].
  2:{ apply IH; [lia|]. eapply loop_inv_pop; [done..|].
      apply (Inv_close (Index.id cand)); [done|]. rewrite Ej. by intros j' [= <-]. }
  destruct (Z.eqb_spec (eligibleAt cand) (EligibleAt j)) as [Ee|Ee]; cbn [negb].
  2:{ apply IH; [lia|]. eapply loop_inv_pop; [done..|].
      by apply (Inv_pop_stale _ _ _ _ _ _ j Hinv Epop). }
  destruct (Z.ltb_spec now (EligibleAt j)) as [Hlt|Hle].
  - wp_step. unfold on_index. wp_step. cbn [index with_index].
    change (with_index (push j now ix') (with_index ix' s)) with (with_index (push j now ix') s).
    destruct (push_future j now ix' queue Hlt) as [Hr Hdel].
    apply IH; [rewrite Hr; lia|]. split; [by apply (Inv_push (Index.id cand))|].
    intros e [[_ ->]|He]%Hdel; [done|]. apply Hd.
    destruct (pop_Some _ _ _ _ Hix Epop) as (_ & _ & Hd' & _). by rewrite <- Hd'.
  - apply Hturn; [done| |].
    + by rewrite (wf_keys _ (inv_mem _ _ _ _ Hinv) _ _ Ej).
    + by eapply popped_best.
Qed.

(** [Lease] promotes first, which is what the loop relies on, and starts with
    enough fuel. *)
Lemma Lease_rule queue workerID dur now s (Q : error + option Job -> Store -> Prop) :
  store_wf s ->
  (forall ix, loop_inv queue now s ix -> ready (forQueue queue ix) = [] ->
     Q (inr None) (with_index ix s)) ->
  (forall ix cid j, Inv (Some cid) (mem s) ix (nextEpoch s) -> cid = ID j -> best queue now s j ->
     wp (lease_turn queue workerID dur now cid j) Q (with_index ix s)) ->
  wp (Lease queue workerID dur now) Q s.
Proof.
  intros Hwf Hnone Hturn. unfold Lease. wp_step. unfold on_index. do 3 wp_step.
  apply lease_loop_rule; [cbn; lia| |done|done].
  pose proof (inv_index _ _ _ _ Hwf) as Hix. split; [by apply Inv_promote|].
  intros e He. destruct (promote_spec queue now (index s) Hix) as (_ & _ & Hd & _).
  rewrite Hd in He. apply list_elem_of_filter in He as [He _]. unfold due in He. lia.
Qed.

(** No runnable entry left: no eligible job. *)
Lemma no_eligible queue now s ix j :
  loop_inv queue now s ix -> ready (forQueue queue ix) = [] -> ~ eligible queue now s j.
Proof.
  intros Hloop Hr He. pose proof (eligible_ready _ _ _ _ _ Hloop He) as Hin.
  rewrite Hr in Hin. by apply elem_of_nil in Hin.
Qed.

(** The round that hands a job out: either the log fails and the job is filed
    again, or the job leaves with a token nobody had before. *)
Definition turn_post (workerID : string) (dur : Duration) (now : Time) (j : Job) s
    (r : error + option Job) (s' : Store) : Prop :=
  store_wf s' /\ (nextEpoch s <= nextEpoch s')%N /\
  match r with
  | inl _ => jobs (mem s') = jobs (mem s)
  | inr oj =>
      let e := ev_lease (ID j) (nextEpoch s) workerID (now + dur) (i64 (Attempt j + 1)) in
      oj = Some (lease_job e j) /\ jobs (mem s') = <[ID j := lease_job e j]> (jobs (mem s)) /\
      nextEpoch s' = (nextEpoch s + 1)%N
  end.

Lemma lease_turn_spec queue workerID j dur now s :
  store_inv (Some (ID j)) s -> jobs (mem s) !! ID j = Some j ->
  Leasable (JState j) = true -> epoch_room s ->
  wp (lease_turn queue workerID dur now (ID j) j) (turn_post workerID dur now j s) s.
Proof.
  intros Hinv Hj Hl Hroom. unfold lease_turn.
  do 2 wp_step. eapply wp_mono; [by apply (Inv_nextEpoch (Some (ID j)))|].
  intros [err|epoch] s1 (H1 & Hix & Hjobs & Hbs & Hep).
  { unfold on_index. wp_auto. split; [|split; [cbn; by rewrite Hep|done]].
    apply (Inv_push (ID j)); [done|]. cbn. by rewrite Hjobs. }
  destruct Hep as (-> & Hne & Hup). do 2 wp_step.
  set (e := ev_lease _ _ _ _ _).
  eapply wp_mono.
  { apply (Inv_record (Some (ID j)) e); [done| | |by right].
    - split; [|done]. apply (leasable_running _ _ j); [cbn; by rewrite Hjobs|done].
    - cbn. lia. }
  intros [err|[]] s2 (H2 & Hn2 & _ & H3).
  - wp_step. eapply wp_mono; [by apply Inv_push_job|].
    intros r s3 (-> & Hw & Hm3 & Hn3 & _). wp_step. split; [done|].
    destruct H3 as [Hm2 _]. rewrite Hm3, Hm2, Hjobs. split; [lia|done].
  - unfold inc, get_job. wp_auto. cbn [mem with_metric].
    assert (Hm2 : jobs (mem s2) = <[ID j := lease_job e j]> (jobs (mem s))).
    { rewrite (apply_on_job e (lease_job e) add _ j) in H3 by (done || by (cbn; rewrite Hjobs)).
      injection H3 as <-. cbn. by rewrite Hjobs. }
    split; [|split; [cbn; lia|]].
    + apply (Inv_close (ID j)); [done|]. cbn. rewrite Hm2, lookup_insert_eq.
      by intros j' [= <-].
    + cbn zeta. fold e. cbn [mem with_metric nextEpoch]. rewrite Hm2, lookup_insert_eq.
      split; [done|]. split; [done|lia].
Qed.

Lemma Lease_wf queue workerID dur now s :
  store_wf s -> epoch_room s ->
  wp (Lease queue workerID dur now) (fun _ s' => store_wf s') s.
Proof.
  intros Hwf Hroom. apply Lease_rule; [done| |].
  - intros ix [H _] _. exact H.
  - intros ix cid j Hinv -> [(Hj & _ & Hl & _) _]. eapply wp_mono.
    + by apply lease_turn_spec.
    + by intros r s' [H _].
Qed.
End Blocks.

(** Well-formedness is preserved, operation by operation. *)
#[export] Hint Resolve Submit_locked_wf Lease_wf Ack_locked_wf Nack_locked_wf Heartbeat_wf
  reclaim_loop_wf ReplayJob_locked_wf commitDurable_wf inv_mem : conveyor.
