(* ===== verification/System.v ===== *)
(** * System: the store as a transition system

    One transition per locked section of the store, one for a flush, and one
    for the death of the process followed by [Open]. Operations of different
    callers interleave at the boundaries of locked sections, which is where
    the code lets go of [s.mu]. *)
From S2P Require Import Prelude Job Heap Index Framing LogSpec Event Memory MemSpec Store.
From S2P Require Import StoreSpec.

(** ** Recovery *)

Lemma recover_job_core now j :
  ID (recover_job now j) = ID j /\ Queue (recover_job now j) = Queue j /\
  IdempotencyKey (recover_job now j) = IdempotencyKey j /\
  Epoch (recover_job now j) = Epoch j /\ Attempt (recover_job now j) = Attempt j /\
  MaxRetries (recover_job now j) = MaxRetries j.
Proof. unfold recover_job. by case_bool_decide. Qed.

Lemma recover_job_not_leased now j : JState (recover_job now j) <> StateLeased.
Proof. unfold recover_job. by case_bool_decide. Qed.

Lemma recover_lookup now m id j' :
  jobs (recoverLeasedLocked now m) !! id = Some j' <->
  exists j, jobs m !! id = Some j /\ j' = recover_job now j.
Proof.
  cbn. rewrite lookup_fmap, fmap_Some. done.
Qed.

Lemma recover_wf now m : mem_wf m -> mem_wf (recoverLeasedLocked now m).
Proof.
  intros Hwf. split.
  - intros id j' (j & Hj & ->)%recover_lookup.
    destruct (recover_job_core now j) as (-> & _). by apply (wf_keys m Hwf).
  - intros id. split; [by intros ?%elem_of_empty|].
    intros (j' & (j & _ & ->)%recover_lookup & Hl). by apply recover_job_not_leased in Hl.
  - intros id j' (j & Hj & ->)%recover_lookup. unfold job_key.
    destruct (recover_job_core now j) as (_ & -> & -> & _). by apply (wf_idem_complete m Hwf).
  - intros k id H. destruct (wf_idem_sound m Hwf k id H) as (j & Hj & Hk & ->).
    exists (recover_job now j). unfold job_key.
    destruct (recover_job_core now j) as (_ & -> & -> & _).
    split; [apply recover_lookup; by exists j|done].
Qed.

(** Recovery is invisible in a later replay. *)
Lemma recover_job_sim now j j' : job_sim j j' -> job_sim (recover_job now j) j'.
Proof.
  intros [[Hc Ht] Hs]. unfold recover_job. case_bool_decide as E; [|done].
  split; [split; [done|by split; right]|]. rewrite E in Hs. cbn. destruct (JState j'); try done; by destruct Hs.
Qed.

Lemma mem_sim_recover now live rep : mem_sim live rep -> mem_sim (recoverLeasedLocked now live) rep.
Proof.
  intros [Hj Hi Hr]. split; [|done..]. intros id. specialize (Hj id). cbn. rewrite lookup_fmap.
  destruct Hj; cbn; constructor. by apply recover_job_sim.
Qed.

Lemma rebuild_spec js now ix :
  index_wf ix ->
  let ix' := fold_left (fun ix j => if Leasable (JState j) then push j now ix else ix) js ix in
  index_wf ix' /\
  forall q e, e ∈ entries q ix' <->
    e ∈ entries q ix \/
    exists j, j ∈ js /\ Leasable (JState j) = true /\ Queue j = q /\ e = entry_of j.
Proof.
  revert ix. induction js as [|j js IH]; intros ix Hix; cbn.
  { split; [done|]. intros q e. split; [by left|].
    intros [?|(j & ?%elem_of_nil & _)]; done. }
  destruct (Leasable (JState j)) eqn:El.
  - destruct (IH (push j now ix)) as [H1 H2]; [by apply push_wf|]. split; [done|].
    intros q e. rewrite H2, entries_push. split.
    + intros [[[Hq ->]|?]|(j' & Hin & ?)]; [right|by left|right].
      * exists j. split_and!; try done. left.
      * exists j'. split; [by right|done].
    + intros [?|(j' & [->|Hin]%elem_of_cons & Hl & Hq & ->)]; [by left; right|by left; left|].
      right. by exists j'.
  - destruct (IH ix) as [H1 H2]; [done|]. split; [done|]. intros q e. rewrite H2.
    split; (intros [?|(j' & Hin & Hl & Hq & ->)]; [by left|right]).
    + exists j'. split; [by right|done].
    + apply elem_of_cons in Hin as [->|Hin]; [congruence|by exists j'].
Qed.

Lemma elem_of_jobs (m : gmap string Job) j :
  j ∈ jobs_in_order m <-> exists id, m !! id = Some j.
Proof.
  unfold jobs_in_order. rewrite list_elem_of_In, in_map_iff. split.
  - intros ([id j'] & <- & H%list_elem_of_In%elem_of_map_to_list). by exists id.
  - intros [id H]. exists (id, j). split; [done|]. by apply list_elem_of_In, elem_of_map_to_list.
Qed.

(** The state [Open] arrives at satisfies the invariant. *)
Lemma recovered_Inv now m :
  mem_wf m -> (forall id j, jobs m !! id = Some j -> (Epoch j <= epochReservedUpTo m)%N) ->
  let m' := recoverLeasedLocked now m in
  Inv None m' (rebuildIndexLocked m' now) (epochReservedUpTo m + 1)%N.
Proof.
  intros Hwf Hep m'.
  destruct (rebuild_spec (jobs_in_order (jobs m')) now newScheduleIndex) as [H1 H2].
  { by apply map_Forall_empty. }
  split; try done.
  - by apply recover_wf.
  - intros id j Hj Hl _. apply H2. right. exists j. split_and!; try done.
    apply elem_of_jobs. by exists id.
  - intros id j' (j & Hj & ->)%recover_lookup.
    destruct (recover_job_core now j) as (_ & _ & _ & -> & _). specialize (Hep _ _ Hj). lia.
  - cbn. lia.
  - intros q e [He|(j & [id Hj]%elem_of_jobs & _ & Hq & ->)]%H2.
    { by apply elem_of_nil in He. }
    exists j. cbn [entry_of Index.id priority enqueuedAt].
    by rewrite (wf_keys _ (recover_wf now m Hwf) _ _ Hj).
Qed.

(** ** Operations *)

Inductive operation :=
  | OpSubmit (p : SubmitParams) (id : string) (now : Time)
  | OpLease (queue workerID : string) (dur : Duration) (now : Time)
  | OpAck (id : string) (epoch : N)
  | OpNack (id : string) (epoch : N) (reason : string) (now : Time) (rnd : Z -> Z)
  | OpHeartbeat (id : string) (epoch : N) (dur : Duration) (now : Time)
  | OpReclaim (order : list string) (now : Time) (rnd : string -> Z -> Z)
  | OpReplay (id : string) (now : Time)
  | OpCommit.

Section Operations.
Context {L : Type} {lops : LogOps L} {codec : EventCodec}.
Implicit Types (s : Store).

(** The state after an operation, whatever it returns. *)
Definition run_op (o : operation) (s : Store) : Store :=
  match o with
  | OpSubmit p id now => (Submit_locked (submit_defaults p) id now s).2
  | OpLease queue workerID dur now => (Lease queue workerID dur now s).2
  | OpAck id epoch => (Ack_locked id epoch s).2
  | OpNack id epoch reason now rnd => (Nack_locked id epoch reason now rnd s).2
  | OpHeartbeat id epoch dur now => (Heartbeat id epoch dur now s).2
  | OpReclaim order now rnd => (reclaim_loop order now rnd [] s).2
  | OpReplay id now => (ReplayJob_locked id now s).2
  | OpCommit => (commitDurable s).2
  end.

(** What the environment guarantees: identifiers are fresh, tokens have not
    run out, and the leased set is visited once. *)
Definition op_valid (o : operation) (s : Store) : Prop :=
  match o with
  | OpSubmit _ id _ => jobs (mem s) !! id = None
  | OpLease _ _ _ _ => epoch_room s
  | OpReclaim order _ _ => order ≡ₚ elements (leased (mem s))
  | _ => True
  end.

Lemma wp_run {A} (m : M Store (storeError log_err) A) s (P : Store -> Prop) :
  wp m (fun _ s' => P s') s -> P (m s).2.
Proof. done. Qed.

Lemma run_op_wf o s : store_wf s -> op_valid o s -> store_wf (run_op o s).
Proof.
  intros Hwf Hv. destruct o; cbn [run_op op_valid] in *; apply wp_run; auto with conveyor.
Qed.

(** The event of [failLocked]. *)
Definition fail_event (base capDelay : Duration) (j : Job) (reason : string) (timeout : bool)
    (now : Time) (rnd : Z -> Z) : event :=
  let dead := MaxRetries j <? Attempt j in
  ev_fail (ID j) (Epoch j) (Attempt j) reason
    (if dead then StateDeadLetter else StateRetryWait)
    (if dead then now else now + Backoff rnd (Attempt j) base capDelay) timeout.

(** The events an operation may record when it starts in [s], and when. *)
Definition may_record (o : operation) s (e : event) : Prop :=
  match o with
  | OpSubmit p id now =>
      e = ev_submit (new_job (submit_defaults p) id now) /\
      (PIdempotencyKey p <> "" -> idem (mem s) !! idemKey (PQueue p) (PIdempotencyKey p) = None)
  | OpLease queue workerID dur now =>
      e = reserve_event s \/
      exists id j, jobs (mem s) !! id = Some j /\ Leasable (JState j) = true /\
        EligibleAt j <= now /\
        e = ev_lease id (nextEpoch s) workerID (now + dur) (i64 (Attempt j + 1))
  | OpAck id epoch =>
      e = ev_ack id epoch /\ exists j, jobs (mem s) !! id = Some j /\ holdsLease j epoch = true
  | OpNack id epoch reason now rnd =>
      exists j, jobs (mem s) !! id = Some j /\ holdsLease j epoch = true /\
        e = fail_event (backoffBase s) (backoffCap s) j (nack_reason reason) false now rnd
  | OpReclaim order now rnd =>
      exists id j, id ∈ order /\ jobs (mem s) !! id = Some j /\ JState j = StateLeased /\
        LeaseExpiresAt j <= now /\
        e = fail_event (backoffBase s) (backoffCap s) j "lease expired" true now (rnd id)
  | OpReplay id now =>
      e = ev_replay id now /\
      exists j, jobs (mem s) !! id = Some j /\ JState j = StateDeadLetter
  | OpHeartbeat _ _ _ _ | OpCommit => False
  end.

(** What an operation that takes [s] to [s'] does to the job [id]. *)
Inductive job_change (o : operation) (s s' : Store) (id : string) :
    option Job -> option Job -> Prop :=
  | change_none a : job_change o s s' id a a
  | change_event e f g j :
      may_record o s e -> job_effect e = Some (f, g) -> EJobID e = id ->
      (EType e = eventLease -> (nextEpoch s < nextEpoch s')%N) ->
      job_change o s s' id (Some j) (Some (f j))
  | change_submit e j :
      may_record o s e -> EType e = eventSubmit -> EJob e = Some j -> ID j = id ->
      job_change o s s' id None (Some j)
  | change_extend expires j epoch dur now :
      o = OpHeartbeat id epoch dur now -> holdsLease j epoch = true -> expires = now + dur ->
      job_change o s s' id (Some j) (Some (extend_lease expires j)).

Record op_effect (o : operation) (s s' : Store) : Prop := {
  oe_jobs id : job_change o s s' id (jobs (mem s) !! id) (jobs (mem s') !! id);
  oe_epoch : (nextEpoch s <= nextEpoch s')%N
}.

Lemma effect_same o s s' :
  jobs (mem s') = jobs (mem s) -> (nextEpoch s <= nextEpoch s')%N -> op_effect o s s'.
Proof. intros E He. split; [|done]. intros id. rewrite E. constructor. Qed.

Lemma effect_event o s s' s1 e f g :
  jobs (mem s1) = jobs (mem s) -> apply e (mem s1) = (inr tt, mem s') ->
  job_effect e = Some (f, g) -> may_record o s e -> (nextEpoch s <= nextEpoch s')%N ->
  (EType e = eventLease -> (nextEpoch s < nextEpoch s')%N) -> op_effect o s s'.
Proof.
  intros E Happ Hf He Hne Hlt. split; [|done]. intros id.
  destruct (apply_cases _ _ _ Happ) as [(j & Ht & _)|[(f' & g' & j & Hf' & Hj & Hm)|[Ht _]]].
  - unfold job_effect in Hf. by rewrite Ht in Hf.
  - rewrite Hm. cbn. rewrite E in *. rewrite lookup_insert. case_decide as Ei; [|constructor].
    subst id. rewrite Hj. by apply (change_event _ _ _ _ e f' g').
  - unfold job_effect in Hf. by rewrite Ht in Hf.
Qed.

Lemma push_job_effect id now s :
  wp (push_job id now) (fun r s' => r = inr tt /\ mem s' = mem s /\ nextEpoch s' = nextEpoch s) s.
Proof. by apply wp_push_job. Qed.

Lemma Submit_effect p id now s :
  jobs (mem s) !! id = None ->
  wp (Submit_locked (submit_defaults p) id now) (fun _ s' => op_effect (OpSubmit p id now) s s') s.
Proof.
  intros Hnew. unfold Submit_locked. do 2 wp_step.
  destruct (failed s); [wp_step; by apply effect_same|]. do 2 wp_step.
  destruct (if bool_decide _ then _ else _) eqn:Eold; [wp_step; by apply effect_same|].
  wp_step. apply wp_recordLocked; [intros; by apply effect_same|].
  intros lsn l' m' _ Happ. wp_step. eapply wp_mono; [apply push_job_effect|].
  intros r s2 (-> & Hm2 & Hn2). wp_step. split; [|by rewrite Hn2].
  intros id'. rewrite Hm2. injection Happ as <-. cbn. rewrite lookup_insert.
  destruct (decide (id = id')) as [E|E]; [|constructor]. subst id'. rewrite Hnew.
  eapply (change_submit _ _ _ _ (ev_submit (new_job (submit_defaults p) id now))); try done.
  split; [done|]. intros Hk. by rewrite bool_decide_false in Eold.
Qed.

Lemma Ack_effect id epoch s :
  wp (Ack_locked id epoch) (fun _ s' => op_effect (OpAck id epoch) s s') s.
Proof.
  unfold Ack_locked. wp_step. unfold get_job at 1. wp_step.
  destruct (jobs (mem s) !! id) as [j|] eqn:Ej; [|wp_step; by apply effect_same].
  destruct (holdsLease j epoch) eqn:Eh; cbn [negb].
  2:{ unfold inc. wp_auto. by apply effect_same. }
  wp_step. apply wp_recordLocked; [intros; by apply effect_same|].
  intros lsn l' m' _ Happ. wp_step.
  apply (effect_event _ s _ s (ev_ack id epoch) ack_job remove); try done.
  split; [done|by exists j].
Qed.

Lemma failLocked_effect o j reason timeout now rnd s0 s :
  jobs (mem s) !! ID j = jobs (mem s0) !! ID j -> (nextEpoch s0 <= nextEpoch s)%N ->
  may_record o s0 (fail_event (backoffBase s) (backoffCap s) j reason timeout now rnd) ->
  wp (failLocked j reason timeout now rnd) (fun r s' =>
    nextEpoch s' = nextEpoch s /\ backoffBase s' = backoffBase s /\ backoffCap s' = backoffCap s /\
    match r with
    | inl _ => mem s' = mem s
    | inr _ => forall id, if decide (id = ID j)
                then job_change o s0 s' id (jobs (mem s0) !! id) (jobs (mem s') !! id)
                else jobs (mem s') !! id = jobs (mem s) !! id
    end) s.
Proof.
  intros Hj Hn He. unfold failLocked. do 3 wp_step.
  fold (fail_event (backoffBase s) (backoffCap s) j reason timeout now rnd).
  set (e := fail_event _ _ _ _ _ _ _) in *.
  apply wp_recordLocked; [done|]. intros lsn l' m' _ Happ. wp_step.
  set (s1 := with_lastLSN _ _).
  assert (H1 : forall s', mem s' = mem s1 ->
    forall id, if decide (id = ID j)
      then job_change o s0 s' id (jobs (mem s0) !! id) (jobs (mem s') !! id)
      else jobs (mem s') !! id = jobs (mem s) !! id).
  { intros s' -> id. destruct (apply_cases _ _ _ Happ)
      as [(? & Ht & _)|[(f & g & j' & Hf & Hj' & Hm)|[Ht _]]]; [done| |done].
    cbn [mem s1 with_lastLSN with_mem]. rewrite Hm. cbn.
    change (EJobID e) with (ID j) in *. case_decide as E.
    - subst id. rewrite lookup_insert_eq, <- Hj, Hj'. by apply (change_event _ _ _ _ e f g).
    - by rewrite lookup_insert_ne. }
  case_bool_decide.
  - apply wp_push_job; intros; wp_step; (split_and!; [done..|]); by apply H1.
  - wp_step. wp_step. split_and!; [done..|]. by apply H1.
Qed.

Lemma Nack_effect id epoch reason now rnd s :
  mem_wf (mem s) ->
  wp (Nack_locked id epoch reason now rnd)
    (fun _ s' => op_effect (OpNack id epoch reason now rnd) s s') s.
Proof.
  intros Hwf. unfold Nack_locked. wp_step. unfold get_job at 1. wp_step.
  destruct (jobs (mem s) !! id) as [j|] eqn:Ej; [|wp_step; by apply effect_same].
  destruct (holdsLease j epoch) eqn:Eh; cbn [negb].
  2:{ unfold inc. wp_auto. by apply effect_same. }
  wp_step. eapply wp_mono; [eapply (failLocked_effect (OpNack id epoch reason now rnd) _ _ _ _ _ s)|].
  { done. } { done. } { by exists j. }
  intros [err|dead] s' (Hn & _ & _ & H); [apply effect_same; [by rewrite H|by rewrite Hn]|].
  wp_step. split; [|by rewrite Hn]. intros id'. specialize (H id'). case_decide; [done|].
  rewrite H. constructor.
Qed.

Lemma Replay_effect id now s :
  wp (ReplayJob_locked id now) (fun _ s' => op_effect (OpReplay id now) s s') s.
Proof.
  unfold ReplayJob_locked. wp_step. unfold get_job at 1. wp_step.
  destruct (jobs (mem s) !! id) as [j|] eqn:Ej; [|wp_step; by apply effect_same].
  destruct (bool_decide_reflect (JState j = StateDeadLetter)) as [Ed|]; cbn [negb];
    [|wp_step; by apply effect_same].
  wp_step. apply wp_recordLocked; [intros; by apply effect_same|].
  intros lsn l' m' _ Happ. wp_step. eapply wp_mono; [apply push_job_effect|].
  intros r s2 (-> & Hm2 & Hn2). wp_step.
  eapply (effect_event _ s _ s (ev_replay id now)); [done|by rewrite Hm2|done| | |done].
  - split; [done|by exists j].
  - by rewrite Hn2.
Qed.

Lemma Heartbeat_effect id epoch dur now s :
  wp (Heartbeat id epoch dur now) (fun _ s' => op_effect (OpHeartbeat id epoch dur now) s s') s.
Proof.
  unfold Heartbeat. wp_step. unfold get_job at 1. wp_step.
  destruct (jobs (mem s) !! id) as [j|] eqn:Ej; [|wp_step; by apply effect_same].
  destruct (holdsLease j epoch) eqn:Eh; cbn [negb]; [|wp_step; by apply effect_same].
  wp_auto. split; [|done]. intros id'. cbn. rewrite lookup_insert. case_decide as E; [|constructor].
  subst id'. rewrite Ej. by eapply change_extend.
Qed.

Lemma Lease_effect queue workerID dur now s :
  store_wf s -> epoch_room s ->
  wp (Lease queue workerID dur now)
    (fun _ s' => op_effect (OpLease queue workerID dur now) s s') s.
Proof.
  intros Hwf Hroom. apply Lease_rule; [done|by intros; apply effect_same|].
  intros ix cid j Hinv -> [(Hj & Hq & Hl & He) _]. eapply wp_mono.
  { by apply lease_turn_spec. }
  intros [err|oj] s' (_ & Hn & H); cbn [mem nextEpoch with_index] in *.
  { by apply effect_same. }
  destruct H as (_ & Hm & Hn'). set (e := ev_lease _ _ _ _ _) in *.
  split; [|done]. intros id. rewrite Hm, lookup_insert.
  destruct (decide (ID j = id)) as [<-|]; [|constructor]. rewrite Hj.
  apply (change_event _ _ _ _ e (lease_job e) add); try done.
  - right. by exists (ID j), j.
  - intros _. lia.
Qed.

Lemma change_mono o s s1 s2 id a b :
  job_change o s s1 id a b -> (nextEpoch s1 <= nextEpoch s2)%N -> job_change o s s2 id a b.
Proof.
  intros H Hle. destruct H as [|? ? ? ? He Hf Hid Hn| |].
  - constructor.
  - eapply change_event; [done..|]. intros Ht. specialize (Hn Ht). lia.
  - by eapply change_submit.
  - by eapply change_extend.
Qed.

(** What the loop of [ReclaimExpired] has left alone, and what it has done. *)
Record reclaim_progress (o : operation) (s0 s : Store) (todo : list string) : Prop := {
  rp_todo id : id ∈ todo -> jobs (mem s) !! id = jobs (mem s0) !! id;
  rp_done id : job_change o s0 s id (jobs (mem s0) !! id) (jobs (mem s) !! id);
  rp_epoch : nextEpoch s = nextEpoch s0;
  rp_base : backoffBase s = backoffBase s0;
  rp_cap : backoffCap s = backoffCap s0
}.

Lemma progress_tail o s0 s s' id todo :
  reclaim_progress o s0 s (id :: todo) -> jobs (mem s') = jobs (mem s) ->
  nextEpoch s' = nextEpoch s -> backoffBase s' = backoffBase s ->
  backoffCap s' = backoffCap s -> reclaim_progress o s0 s' todo.
Proof.
  intros [Ht Hd Hn Hb Hc] E1 E2 E3 E4. split; [| |congruence..].
  - intros id' H. rewrite E1. apply Ht. by right.
  - intros id'. rewrite E1. eapply change_mono; [apply Hd|lia].
Qed.

Lemma reclaim_loop_effect order0 order now rnd acc s0 s :
  mem_wf (mem s0) -> NoDup order -> (forall id, id ∈ order -> id ∈ order0) ->
  reclaim_progress (OpReclaim order0 now rnd) s0 s order ->
  wp (reclaim_loop order now rnd acc)
    (fun _ s' => op_effect (OpReclaim order0 now rnd) s0 s') s.
Proof.
  intros Hwf. revert acc s. induction order as [|id order IH];
    intros acc s Hnd Hsub Hrp; cbn [reclaim_loop].
  { wp_step. destruct Hrp as [_ Hd Hn _ _]. split; [done|lia]. }
  apply NoDup_cons in Hnd as [Hnin Hnd].
  assert (Hsub' : forall id, id ∈ order -> id ∈ order0) by (intros; apply Hsub; by right).
  wp_step. unfold get_job at 1. wp_step.
  destruct (jobs (mem s) !! id) as [j|] eqn:Ej.
  2:{ do 2 wp_step. apply IH; [done..|]. by eapply progress_tail. }
  destruct (bool_decide_reflect (JState j = StateLeased)) as [El|]; cbn [negb].
  2:{ do 2 wp_step. apply IH; [done..|]. by eapply progress_tail. }
  destruct (Z.ltb_spec now (LeaseExpiresAt j)); [apply IH; [done..|]; by eapply progress_tail|].
  assert (Ej0 : jobs (mem s0) !! id = Some j).
  { rewrite <- (rp_todo _ _ _ _ Hrp); [done|left]. }
  assert (HID : ID j = id) by (by apply (wf_keys _ Hwf)).
  do 2 wp_step. eapply wp_mono.
  { apply (failLocked_effect (OpReclaim order0 now rnd) _ _ _ _ _ s0).
    - by rewrite HID, Ej.
    - by rewrite (rp_epoch _ _ _ _ Hrp).
    - exists id, j. split; [apply Hsub; left|]. split_and!; try done.
      by rewrite (rp_base _ _ _ _ Hrp), (rp_cap _ _ _ _ Hrp). }
  intros r s1 (Hn1 & Hb1 & Hc1 & Hr). cbn beta iota zeta.
  destruct r as [err|dead].
  - wp_step. destruct Hrp as [_ Hd Hn _ _]. split; [|lia]. intros id'. rewrite Hr.
    eapply change_mono; [apply Hd|lia].
  - apply IH; [done..|]. pose proof Hrp as [Ht Hd Hn Hb Hc]. split; [| |congruence..].
    + intros id' Hin. specialize (Hr id'). rewrite decide_False in Hr by (rewrite HID; by intros ->).
      rewrite Hr. apply Ht. by right.
    + intros id'. specialize (Hr id'). case_decide as E; [done|]. rewrite Hr.
      eapply change_mono; [apply Hd|lia].
Qed.

(** Every operation does to every job what its kind allows, and nothing else. *)
Lemma run_op_effect o s : store_wf s -> op_valid o s -> op_effect o s (run_op o s).
Proof.
  intros Hwf Hv. pose proof (inv_mem _ _ _ _ Hwf) as Hm. destruct o; cbn [run_op] in *.
  - by apply (Submit_effect p id now s).
  - by apply (Lease_effect queue workerID dur now s).
  - apply (Ack_effect id epoch s).
  - by apply (Nack_effect id epoch reason now rnd s).
  - apply (Heartbeat_effect id epoch dur now s).
  - apply (reclaim_loop_effect order order now rnd [] s s); [done| |done|].
    + cbn in Hv. rewrite Hv. apply NoDup_elements.
    + split; try done. intros. constructor.
  - apply (Replay_effect id now s).
  - apply (wp_commitDurable (fun _ s' => op_effect OpCommit s s') s); intros; by apply effect_same.
Qed.
End Operations.
