(* ===== verification/Accounts.v ===== *)
(** * Accounts: the counters of the store and the jobs it keeps

    A [book] weighs jobs and values counter updates: the jobs of a queue that
    are leased, say, against the deliveries counted minus the reports counted.
    The laws of a book are about one job and one event each; from them every
    operation of the store that succeeds keeps the difference between the two
    sides, its [drift]. *)
From S2P Require Import Prelude Job Heap Index Framing LogSpec Event Memory MemSpec Store.
From S2P Require Import StoreSpec System Metrics.

(** ** Sums over the jobs *)

Definition weigh (w : Job -> Z) (m : gmap string Job) : Z :=
  foldr (fun j acc => w j + acc) 0 (jobs_in_order m).

Lemma weigh_perm (w : Job -> Z) js js' :
  js ≡ₚ js' -> foldr (fun j acc => w j + acc) 0 js = foldr (fun j acc => w j + acc) 0 js'.
Proof. induction 1; cbn; lia. Qed.

Lemma weigh_new w m id j : m !! id = None -> weigh w (<[id := j]> m) = weigh w m + w j.
Proof.
  intros H. unfold weigh, jobs_in_order.
  rewrite (weigh_perm _ _ (j :: map snd (map_to_list m))); [cbn; lia|].
  by rewrite (map_to_list_insert m id j H).
Qed.

Lemma weigh_change w m id j j' :
  m !! id = Some j -> weigh w (<[id := j']> m) = weigh w m + (w j' - w j).
Proof.
  intros H. rewrite <- (insert_delete_id m id j H) at 2.
  rewrite <- insert_delete_eq, !weigh_new by apply lookup_delete_eq. lia.
Qed.

Definition total (c : metric -> Z) (ms : list metric) : Z := foldr (fun m acc => c m + acc) 0 ms.

Lemma total_cons c m ms : total c (m :: ms) = c m + total c ms.
Proof. done. Qed.

Arguments weigh : simpl never.
Arguments total : simpl never.

(** ** Books *)

Record book := mkBook { weight : Job -> Z; credit : metric -> Z }.

(** What one event does to a job, and how it is counted. *)
Class BookLaws (b : book) : Prop := {
  book_new p id now : weight b (new_job p id now) = credit b (JobsSubmitted (PQueue p));
  book_lease e j : Leasable (JState j) = true ->
    weight b (lease_job e j) = weight b j + credit b (JobsLeased (Queue j));
  book_ack j : JState j = StateLeased ->
    weight b (ack_job j) = weight b j + credit b (JobsCompleted (Queue j));
  book_fail e j cause (dead : bool) : JState j = StateLeased ->
    cause = CauseHandler \/ cause = CauseTimeout ->
    ENextState e = (if dead then StateDeadLetter else StateRetryWait) ->
    weight b (fail_job e j) = weight b j + credit b (JobsFailed (Queue j) cause) +
      (if dead then credit b (JobsDeadLettered (Queue j)) else 0);
  book_replay e j : JState j = StateDeadLetter ->
    weight b (replay_job e j) = weight b j + credit b (JobsReplayed (Queue j));
  book_extend expires j : weight b (extend_lease expires j) = weight b j;
  book_free m : match m with
    | JobsDeduplicated _ | DispatchDelay _ _ | FencedRequests _ => credit b m = 0
    | _ => True
    end
}.

(** *** The four books of a queue *)

Definition one (P : Prop) `{Decision P} : Z := if decide P then 1 else 0.

(** Every job of the queue was submitted. *)
Definition queue_book (q : string) : book := {|
  weight j := one (Queue j = q);
  credit m := match m with JobsSubmitted q' => one (q' = q) | _ => 0 end
|}.

(** A job is out on lease from its delivery to its report or its reclaim. *)
Definition leased_book (q : string) : book := {|
  weight j := one (Queue j = q /\ JState j = StateLeased);
  credit m := match m with
    | JobsLeased q' => one (q' = q)
    | JobsCompleted q' => - one (q' = q)
    | JobsFailed q' cause => - one (q' = q /\ (cause = CauseHandler \/ cause = CauseTimeout))
    | _ => 0
    end
|}.

Definition done_book (q : string) : book := {|
  weight j := one (Queue j = q /\ JState j = StateDone);
  credit m := match m with JobsCompleted q' => one (q' = q) | _ => 0 end
|}.

Definition dead_book (q : string) : book := {|
  weight j := one (Queue j = q /\ JState j = StateDeadLetter);
  credit m := match m with
    | JobsDeadLettered q' => one (q' = q)
    | JobsReplayed q' => - one (q' = q)
    | _ => 0
    end
|}.

Lemma leasable_states st : Leasable st = true -> st = StatePending \/ st = StateRetryWait.
Proof. destruct st; auto; done. Qed.

Ltac count := unfold one, CauseHandler, CauseTimeout in *; cbn; repeat case_decide; intuition (congruence || lia).
Ltac book := split;
  [ intros; count
  | intros e j Hl%leasable_states; count
  | intros; count
  | intros e j cause [] ? ? Hn; unfold one; cbn; rewrite ?Hn; count
  | intros; count
  | intros; count
  | intros []; done ].

#[export] Instance queue_book_laws q : BookLaws (queue_book q).
Proof. book. Qed.
#[export] Instance leased_book_laws q : BookLaws (leased_book q).
Proof. book. Qed.
#[export] Instance done_book_laws q : BookLaws (done_book q).
Proof. book. Qed.
#[export] Instance dead_book_laws q : BookLaws (dead_book q).
Proof. book. Qed.

(** ** The drift of a book *)

Section Drift.
Context {L : Type} {lops : LogOps L} {codec : EventCodec}.
Context (b : book) {laws : BookLaws b}.
Abbreviation error := (storeError log_err) (only parsing).
Implicit Types (s : Store).

Definition drift s : Z := weigh (weight b) (jobs (mem s)) - total (credit b) (metrics s).

Lemma drift_metric m s : drift (with_metric m s) = drift s - credit b m.
Proof. unfold drift, total. cbn. lia. Qed.

Lemma drift_frame s s' :
  jobs (mem s') = jobs (mem s) -> metrics s' = metrics s -> drift s' = drift s.
Proof. unfold drift. by intros -> ->. Qed.

(** [k] is what is still to be counted once the section has returned. *)
Definition owes {A} (k : A -> Z) s (r : error + A) s' : Prop :=
  drift s' = drift s + match r with inl _ => 0 | inr a => k a end.

(** What a whole call leaves: nothing, unless it poisoned the store. *)
Definition settled {A} s (r : error + A) s' : Prop :=
  match r with
  | inl _ => failed s' = None -> drift s' = drift s
  | inr _ => drift s' = drift s
  end.

Lemma record_job e f g j s :
  job_effect e = Some (f, g) -> jobs (mem s) !! EJobID e = Some j ->
  wp (recordLocked e) (fun r s' =>
    owes (fun _ => weight b (f j) - weight b j) s r s' /\
    match r with
    | inl _ => jobs (mem s') = jobs (mem s)
    | inr _ => jobs (mem s') = <[EJobID e := f j]> (jobs (mem s))
    end) s.
Proof.
  intros Hf Hj. apply wp_recordLocked.
  - intros err l'. split; [unfold owes, drift; cbn; lia|done].
  - intros lsn l' m' _ Happ. rewrite (apply_on_job _ _ _ _ _ Hf Hj) in Happ. injection Happ as <-.
    split; [|done]. unfold owes, drift. cbn. rewrite (weigh_change _ _ _ j) by done. lia.
Qed.

Lemma commit_settled s (Q : error + unit -> Store -> Prop) :
  (forall s', drift s' = drift s -> store_wf s -> store_wf s' -> Q (inr tt) s') ->
  (forall err s', store_wf s' -> failed s' <> None -> Q (inl err) s') ->
  store_wf s -> wp commitDurable Q s.
Proof. intros Hok Herr Hwf. apply wp_commitDurable; intros; [by apply Hok|by apply Herr]. Qed.

(** *** The locked sections *)

Lemma Submit_owes p id now s :
  jobs (mem s) !! id = None ->
  wp (Submit_locked p id now)
    (owes (fun r : option Job * bool => if r.2 then 0 else credit b (JobsSubmitted (PQueue p))) s) s.
Proof.
  intros Hnew. unfold Submit_locked. do 2 wp_step.
  destruct (failed s); [wp_step; unfold owes; lia|]. do 2 wp_step.
  destruct (if bool_decide _ then _ else _); [wp_step; unfold owes; cbn; lia|].
  wp_step. apply wp_recordLocked; [intros; unfold owes, drift; cbn; lia|].
  intros lsn l' m' _ Happ. injection Happ as <-. wp_step.
  assert (H : drift (with_lastLSN lsn (with_mem (submit_mem (new_job p id now) (mem s)) (with_log l' s))) =
    drift s + credit b (JobsSubmitted (PQueue p))).
  { unfold drift. cbn. rewrite weigh_new, (book_new p id now) by done. lia. }
  apply wp_push_job; intros; wp_step; unfold owes; cbn [snd]; exact H.
Qed.

Lemma Ack_owes id epoch s :
  wp (Ack_locked id epoch)
    (owes (fun r => match r with None => 0 | Some q => credit b (JobsCompleted q) end) s) s.
Proof.
  unfold Ack_locked. wp_step. unfold get_job at 1. wp_step.
  destruct (jobs (mem s) !! id) as [j|] eqn:Ej; [|wp_step; unfold owes; lia].
  destruct (holdsLease j epoch) eqn:Eh; cbn [negb].
  2:{ unfold inc. wp_auto. unfold owes. rewrite drift_metric.
      pose proof (book_free (FencedRequests "ack")). cbn in *. lia. }
  apply holds_leased in Eh as [Eh _]. wp_step.
  eapply wp_mono; [by apply (record_job _ ack_job remove j)|].
  intros [err|[]] s' [H _]; [done|]. wp_step. unfold owes in *. rewrite H, book_ack by done. lia.
Qed.

Definition fail_credit (cause : string) (q : string) (dead : bool) : Z :=
  credit b (JobsFailed q cause) + (if dead then credit b (JobsDeadLettered q) else 0).

Lemma fail_owes j reason timeout cause now rnd s :
  cause = CauseHandler \/ cause = CauseTimeout ->
  jobs (mem s) !! ID j = Some j -> JState j = StateLeased ->
  wp (failLocked j reason timeout now rnd) (fun r s' =>
    owes (fail_credit cause (Queue j)) s r s' /\
    forall id, id <> ID j -> jobs (mem s') !! id = jobs (mem s) !! id) s.
Proof.
  intros Hc Hj Hl. unfold failLocked. do 3 wp_step.
  set (dead := MaxRetries j <? Attempt j). set (e := ev_fail _ _ _ _ _ _ _).
  eapply wp_mono; [by apply (record_job e (fail_job e) remove j)|].
  intros [err|[]] s' [H Hm].
  { split; [done|]. intros. by rewrite Hm. }
  wp_step. unfold owes in *.
  rewrite (book_fail e j cause dead Hl Hc) in H by (cbn; by destruct dead).
  assert (Hd : bool_decide ((if dead then StateDeadLetter else StateRetryWait) = StateDeadLetter) = dead)
    by (by destruct dead). rewrite Hd. clear Hd.
  assert (Hrest : forall id, id <> ID j -> jobs (mem s') !! id = jobs (mem s) !! id).
  { intros id Hne. rewrite Hm. by rewrite lookup_insert_ne. }
  assert (Hk : drift s' = drift s + fail_credit cause (Queue j) dead).
  { rewrite H. unfold fail_credit. lia. }
  destruct (bool_decide (_ = StateRetryWait)); [apply wp_push_job; intros|];
    repeat wp_step; by split.
Qed.

Lemma Nack_owes id epoch reason now rnd s :
  mem_wf (mem s) ->
  wp (Nack_locked id epoch reason now rnd)
    (owes (fun r => match r with None => 0 | Some (q, dead) => fail_credit CauseHandler q dead end) s) s.
Proof.
  intros Hwf. unfold Nack_locked. wp_step. unfold get_job at 1. wp_step.
  destruct (jobs (mem s) !! id) as [j|] eqn:Ej; [|wp_step; unfold owes; lia].
  destruct (holdsLease j epoch) eqn:Eh; cbn [negb].
  2:{ unfold inc. wp_auto. unfold owes. rewrite drift_metric.
      pose proof (book_free (FencedRequests "nack")). cbn in *. lia. }
  apply holds_leased in Eh as [Eh _]. wp_step. eapply wp_mono.
  { apply (fail_owes j _ _ CauseHandler); [by left| |done]. by rewrite (wf_keys _ Hwf _ _ Ej). }
  intros [err|dead] s' [H _]; [done|]. by wp_step.
Qed.

Lemma Replay_owes id now s :
  wp (ReplayJob_locked id now) (owes (fun q => credit b (JobsReplayed q)) s) s.
Proof.
  unfold ReplayJob_locked. wp_step. unfold get_job at 1. wp_step.
  destruct (jobs (mem s) !! id) as [j|] eqn:Ej; [|wp_step; unfold owes; lia].
  destruct (bool_decide_reflect (JState j = StateDeadLetter)) as [Ed|]; cbn [negb];
    [|wp_step; unfold owes; lia].
  wp_step. set (e := ev_replay id now).
  eapply wp_mono; [by apply (record_job e (replay_job e) remove j)|].
  intros [err|[]] s' [H _]; [done|]. unfold owes in *. rewrite book_replay in H by done.
  wp_step. apply wp_push_job; intros; wp_step; unfold drift in *; cbn; lia.
Qed.

Lemma Heartbeat_settled id epoch dur now s : wp (Heartbeat id epoch dur now) (settled s) s.
Proof.
  unfold Heartbeat. wp_step. unfold get_job at 1. wp_step.
  destruct (jobs (mem s) !! id) as [j|] eqn:Ej; [|by wp_step].
  destruct (holdsLease j epoch); cbn [negb]; [|by wp_step]. wp_auto.
  unfold settled, drift. cbn. rewrite (weigh_change _ _ _ j), book_extend by done. lia.
Qed.

(** What a sweep has taken back and not counted yet. *)
Definition sweep_credit (rs : list reclaimed_job) : Z :=
  foldr (fun x acc => fail_credit CauseTimeout x.1.2 x.2 + acc) 0 rs.

Lemma sweep_credit_snoc rs x :
  sweep_credit (rs ++ [x]) = sweep_credit rs + fail_credit CauseTimeout x.1.2 x.2.
Proof. induction rs as [|y rs IH]; cbn; [lia|]. unfold sweep_credit in *. cbn. lia. Qed.

(** Whether the sweep runs into an error or not, it owes what it took back. *)
Lemma reclaim_owes order now rnd acc s :
  store_wf s ->
  wp (reclaim_loop order now rnd acc) (fun r s' =>
    exists acc' err, r = inr (acc', err) /\
      drift s' = drift s + sweep_credit acc' - sweep_credit acc) s.
Proof.
  revert acc s. induction order as [|id order IH]; intros acc s Hwf; cbn [reclaim_loop].
  { wp_step. exists acc, None. split; [done|lia]. }
  pose proof (inv_mem _ _ _ _ Hwf) as Hm.
  wp_step. unfold get_job at 1. wp_step.
  destruct (jobs (mem s) !! id) as [j|] eqn:Ej.
  2:{ do 2 wp_step. rewrite remove_not_leased; [rewrite with_mem_id; by apply IH|done|].
      intros j'. by rewrite Ej. }
  destruct (bool_decide_reflect (JState j = StateLeased)) as [El|El]; cbn [negb].
  2:{ do 2 wp_step. rewrite remove_not_leased; [rewrite with_mem_id; by apply IH|done|].
      intros j'. rewrite Ej. by intros [= <-]. }
  destruct (now <? LeaseExpiresAt j); [by apply IH|].
  pose proof (wf_keys _ Hm _ _ Ej) as HID.
  do 2 wp_step. eapply wp_mono.
  { apply wp_and; [by apply failLocked_wf; [|rewrite HID|]|].
    apply (fail_owes j _ _ CauseTimeout); [by right|by rewrite HID|done]. }
  intros [err|dead] s1 [H1 [H2 _]]; unfold owes in H2.
  - wp_step. exists acc, (Some err). split; [done|lia].
  - eapply wp_mono; [by apply IH|]. intros r s2 (acc' & err & -> & H).
    exists acc', err. split; [done|]. rewrite sweep_credit_snoc in H. cbn in H. lia.
Qed.

(** *** Whole calls *)

Definition books_ok {A} s (r : error + A) s' : Prop := store_wf s' /\ settled s r s'.

Lemma drift_notify x s : drift (with_notify x s) = drift s.
Proof. done. Qed.

Lemma settled_err {A} s (err : error) s' :
  store_wf s' -> drift s' = drift s -> books_ok s (@inl _ A err) s'.
Proof. intros ? Hd. split; [done|]. intros _. exact Hd. Qed.

Lemma settled_poisoned {A} s (err : error) s' :
  store_wf s' -> failed s' <> None -> books_ok s (@inl _ A err) s'.
Proof. intros ? Hf. split; [done|]. intros E. by destruct (Hf E). Qed.

(** The part of a call that follows its locked section: wait for the flush,
    then count what is owed. *)
Ltac commit_then_count :=
  wp_step; apply commit_settled; [|by intros; apply settled_poisoned|done];
  intros ? ? _ ?; unfold inc, signal; wp_auto;
  split; [done|]; cbn [settled]; rewrite ?drift_notify, ?drift_metric.

Lemma Submit_settled p id now s :
  store_wf s -> jobs (mem s) !! id = None -> wp (Submit p id now) (books_ok s) s.
Proof.
  intros Hwf Hnew. unfold Submit. case_bool_decide; [by wp_step; apply settled_err|].
  wp_step. eapply wp_mono; [apply wp_and; [by apply Submit_locked_wf|by apply Submit_owes]|].
  intros [err|[oj dup]] s1 [Hwf1 H1]; unfold owes in H1; [apply settled_err; [done|lia]|].
  cbn [snd] in *. destruct dup.
  - unfold inc. wp_auto. split; [done|]. cbn [settled]. rewrite drift_metric.
    pose proof (book_free (JobsDeduplicated (PQueue (submit_defaults p)))). cbn [snd] in *. lia.
  - commit_then_count. cbn [PQueue submit_defaults] in *. lia.
Qed.

Lemma Ack_settled id epoch s : store_wf s -> wp (Ack id epoch) (books_ok s) s.
Proof.
  intros Hwf. unfold Ack. wp_step.
  eapply wp_mono; [apply wp_and; [by apply Ack_locked_wf|by apply Ack_owes]|].
  intros [err|[q|]] s1 [Hwf1 H1]; unfold owes in H1; [apply settled_err; [done|lia]| |].
  - commit_then_count. lia.
  - wp_step. split; [done|]. cbn. lia.
Qed.

Lemma Nack_settled id epoch reason now rnd s :
  store_wf s -> wp (Nack id epoch reason now rnd) (books_ok s) s.
Proof.
  intros Hwf. unfold Nack. wp_step.
  eapply wp_mono; [apply wp_and; [by apply Nack_locked_wf|by apply Nack_owes, (inv_mem _ _ _ _ Hwf)]|].
  intros [err|[[q dead]|]] s1 [Hwf1 H1]; unfold owes, fail_credit in H1;
    [apply settled_err; [done|lia]| |].
  - destruct dead; commit_then_count; lia.
  - wp_step. split; [done|]. cbn. lia.
Qed.

Lemma Replay_settled id now s : store_wf s -> wp (ReplayJob id now) (books_ok s) s.
Proof.
  intros Hwf. unfold ReplayJob. wp_step.
  eapply wp_mono; [apply wp_and; [by apply ReplayJob_locked_wf|by apply Replay_owes]|].
  intros [err|q] s1 [Hwf1 H1]; unfold owes in H1; [apply settled_err; [done|lia]|].
  commit_then_count. lia.
Qed.

Lemma nextEpoch_frame s :
  wp nextEpochLocked (fun _ s' => jobs (mem s') = jobs (mem s) /\ metrics s' = metrics s) s.
Proof.
  unfold nextEpochLocked. do 3 wp_step. destruct (_ <? _)%N.
  - apply wp_reserveEpochsLocked; [done|]. intros lsn l' m' Happ. injection Happ as <-.
    by wp_auto.
  - by wp_auto.
Qed.

Lemma Lease_settled queue workerID dur now s :
  store_wf s -> epoch_room s -> wp (Lease queue workerID dur now) (books_ok s) s.
Proof.
  intros Hwf Hroom. apply wp_and; [by apply Lease_wf|]. apply Lease_rule; [done|done|].
  intros ix cid j Hinv -> [(Hj & Hq & Hl & _) _]. unfold lease_turn. do 2 wp_step.
  eapply wp_mono; [apply nextEpoch_frame|].
  intros [err|epoch] s1 [Hm1 Hs1]; cbn [mem metrics with_index] in *.
  { unfold on_index. wp_auto. intros _. by apply drift_frame. }
  do 2 wp_step. set (e := ev_lease _ _ _ _ _).
  eapply wp_mono; [apply (record_job e (lease_job e) add j); [done|by rewrite Hm1]|].
  intros [err|[]] s2 [H2 Hm2]; unfold owes in H2; rewrite (drift_frame s s1) in H2 by done.
  - wp_step. apply wp_push_job; intros; wp_step; intros _; unfold drift in *; cbn; lia.
  - unfold inc, get_job. wp_auto. cbn [settled]. rewrite !drift_metric, H2, book_lease, Hq by done.
    pose proof (book_free (DispatchDelay queue (now - EligibleAt j))) as Hf. cbn [credit] in Hf. lia.
Qed.

Lemma inc_all_drift ms s :
  wp (inc_all ms) (fun r s' => r = inr tt /\ drift s' = drift s - total (credit b) ms /\
    (store_wf s -> store_wf s')) s.
Proof.
  revert s. induction ms as [|m ms IH]; intros s; cbn [inc_all].
  { wp_step. split_and!; [done|unfold total; cbn; lia|done]. }
  wp_step. unfold inc. wp_step. eapply wp_mono; [apply IH|].
  intros r s' (-> & Hd & Hw). split_and!; [done| |done].
  rewrite Hd, drift_metric. unfold total. cbn. lia.
Qed.

Lemma sweep_counted rs :
  total (credit b) (map (fun x => JobsFailed x.1.2 CauseTimeout) rs) +
  total (credit b) (map (fun x => JobsDeadLettered x.1.2) (filter (fun x : reclaimed_job => x.2 = true) rs)) =
  sweep_credit rs.
Proof.
  induction rs as [|[[id q] dead] rs IH]; [done|].
  change (sweep_credit _) with (fail_credit CauseTimeout q dead + sweep_credit rs).
  unfold fail_credit.
  destruct dead; [rewrite filter_cons_True by done|rewrite filter_cons_False by done];
    cbn [map fst snd]; rewrite !total_cons; unfold reclaimed_job in *; lia.
Qed.

(** A sweep without an error settles; one with an error returns the jobs it
    took back, and they stay uncounted. *)
Lemma Reclaim_settled now rnd s :
  store_wf s ->
  wp (ReclaimExpired now rnd) (fun r s' => store_wf s' /\
    exists ids err, r = inr (ids, err) /\
      match err with
      | None => drift s' = drift s
      | Some _ => exists rs, ids = map (fun x : reclaimed_job => x.1.1) rs /\
          drift s' = drift s + sweep_credit rs
      end) s.
Proof.
  intros Hwf. unfold ReclaimExpired. do 2 wp_step. unfold ReclaimExpired_in. wp_step.
  eapply wp_mono; [apply wp_and; [by apply reclaim_loop_wf|by apply reclaim_owes]|].
  intros r s1 [Hwf1 (rs & err & -> & H1)]. cbn [fst snd sweep_credit foldr] in H1.
  destruct err as [err|].
  { wp_step. split; [done|]. exists (map (fun x => x.1.1) rs), (Some err). split; [done|].
    exists rs. split; [done|]. lia. }
  case_bool_decide as Hrs.
  { wp_step. split; [done|]. exists [], None. split; [done|]. subst rs. cbn in H1. lia. }
  do 2 wp_step. unfold reclaimed_job in *.
  apply wp_commitDurable.
  - intros l'. wp_step. eapply wp_mono; [apply inc_all_drift|].
    intros r s3 (-> & H3 & Hw3). wp_step. eapply wp_mono; [apply inc_all_drift|].
    intros r s4 (-> & H4 & Hw4). unfold signal. wp_auto.
    split; [exact (Hw4 (Hw3 Hwf1))|]. exists (map (fun x => x.1.1) rs), None. split; [done|].
    pose proof (sweep_counted rs) as Hs. unfold reclaimed_job in *. rewrite drift_notify, H4, H3.
    change (drift (with_log l' s1)) with (drift s1). lia.
  - intros err l'. wp_step. split; [done|]. exists (map (fun x => x.1.1) rs), (Some err).
    split; [done|]. exists rs. split; [done|].
    change (drift (with_failed (Some err) (with_log l' s1))) with (drift s1). lia.
Qed.
End Drift.

(** ** Sequences of calls *)

Inductive call :=
  | CallSubmit (p : SubmitParams) (id : string) (now : Time)
  | CallLease (queue workerID : string) (dur : Duration) (now : Time)
  | CallAck (id : string) (epoch : N)
  | CallNack (id : string) (epoch : N) (reason : string) (now : Time) (rnd : Z -> Z)
  | CallHeartbeat (id : string) (epoch : N) (dur : Duration) (now : Time)
  | CallReclaim (now : Time) (rnd : string -> Z -> Z)
  | CallReplay (id : string) (now : Time).

Section Calls.
Context {L : Type} {lops : LogOps L} {codec : EventCodec}.
Abbreviation error := (storeError log_err) (only parsing).
Implicit Types (s : Store).

Definition err_of {A} (r : error + A) : option error := match r with inl e => Some e | inr _ => None end.

(** A call of a method, from its start to its return: its error and the store
    it leaves. *)
Definition run_call (c : call) s : option error * Store :=
  let go {A} (x : (error + A) * Store) := (err_of x.1, x.2) in
  match c with
  | CallSubmit p id now => go (Submit p id now s)
  | CallLease queue workerID dur now => go (Lease queue workerID dur now s)
  | CallAck id epoch => go (Ack id epoch s)
  | CallNack id epoch reason now rnd => go (Nack id epoch reason now rnd s)
  | CallHeartbeat id epoch dur now => go (Heartbeat id epoch dur now s)
  | CallReclaim now rnd =>
      let x := ReclaimExpired now rnd s in
      (match x.1 with inl e => Some e | inr r => r.2 end, x.2)
  | CallReplay id now => go (ReplayJob id now s)
  end.

Definition call_valid (c : call) s : Prop :=
  match c with
  | CallSubmit _ id _ => jobs (mem s) !! id = None
  | CallLease _ _ _ _ => epoch_room s
  | _ => True
  end.

(** The calls that count what they do: all that return no error, and of the
    others every one that does not poison the store, but for a sweep. *)
Definition counts (c : call) (err : option error) s' : Prop :=
  match c, err with
  | _, None => True
  | CallReclaim _ _, Some _ => False
  | _, Some _ => failed s' = None
  end.

Inductive calls : Store -> Store -> Prop :=
  | calls_none s : calls s s
  | calls_then s c err s' s'' :
      calls s s' -> call_valid c s' -> run_call c s' = (err, s'') -> counts c err s'' ->
      calls s s''.

Lemma call_settles b `{!BookLaws b} c s err s' :
  store_wf s -> call_valid c s -> run_call c s = (err, s') -> counts c err s' ->
  store_wf s' /\ drift b s' = drift b s.
Proof.
  intros Hwf Hv.
  assert (go : forall A (m : M Store error A),
    wp m (books_ok b s) s -> (err_of (m s).1, (m s).2) = (err, s') ->
    (match err with None => True | Some _ => failed s' = None end) ->
    store_wf s' /\ drift b s' = drift b s).
  { intros A m H E Hc. unfold wp in H. destruct (m s) as [[e|a] s1]; injection E as <- <-;
      destruct H as [Hw Hs]; cbn in *; auto. }
  destruct c; cbn [run_call call_valid counts] in *; intros E Hc.
  - by apply (go _ _ (Submit_settled b _ _ _ s Hwf Hv) E); destruct err.
  - by apply (go _ _ (Lease_settled b _ _ _ _ s Hwf Hv) E); destruct err.
  - by apply (go _ _ (Ack_settled b _ _ s Hwf) E); destruct err.
  - by apply (go _ _ (Nack_settled b _ _ _ _ _ s Hwf) E); destruct err.
  - apply (go _ (Heartbeat id epoch dur now)); [|done|by destruct err].
    apply wp_and; [by apply Heartbeat_wf|by apply Heartbeat_settled].
  - pose proof (Reclaim_settled b now rnd s Hwf) as H. unfold wp in H.
    destruct (ReclaimExpired now rnd s) as [r s1]. cbn [fst snd] in *.
    destruct H as (Hw & ids & e & -> & He). injection E as <- <-. by destruct e.
  - by apply (go _ _ (Replay_settled b _ _ s Hwf) E); destruct err.
Qed.

Lemma calls_settle b `{!BookLaws b} s s' :
  store_wf s -> calls s s' -> store_wf s' /\ drift b s' = drift b s.
Proof.
  intros Hwf. induction 1 as [|s c err s1 s2 _ IH Hv Hrun Hc]; [done|].
  destruct (IH Hwf) as [Hwf1 H1].
  destruct (call_settles b c s1 err s2 Hwf1 Hv Hrun Hc) as [Hwf2 H2]. split; [done|lia].
Qed.
End Calls.
