(* ===== verification/Durability.v ===== *)
(** * Durability: the log and the memory tell the same story

    [logged hist s]: the store is healthy, [hist] is everything it recorded
    since it was created, the log holds the encodings of the last part of it,
    and a replay of [hist] gives the memory the store has, up to what recovery
    and heartbeats change without logging. Every operation keeps this, and a
    crash followed by [Open] restores it for a prefix of [hist]. *)
From S2P Require Import Prelude Job Heap Index Framing LogSpec Event Memory MemSpec Store.
From S2P Require Import StoreSpec System.

Section Durability.
Context {L : Type} {lops : LogOps L} {laws : LogLaws L}.
Context {codec : EventCodec} {claws : CodecLaws}.
(** The log may have dropped the records of the first [base] events: a
    snapshot stands for them. *)
Context (base : nat).
Implicit Types (s : Store) (hist : list event).

(** An event and the record that encodes it. *)
Definition record_of (e : event) (b : bytes) : Prop :=
  encodeEvent e = Some b /\ decodeEvent b = Some e.

(** The events that precede the records a log still holds. *)
Definition dropped (a : abs_log) : nat := N.to_nat (a_first a - 1).

Record logged_as hist (a : abs_log) : Prop := {
  las_first : (1 <= a_first a)%N;
  las_dropped : (dropped a <= base <= length hist)%nat;
  las_records : Forall2 record_of (drop (dropped a) hist) (a_recs a)
}.

(** How many events of the history are on stable storage. *)
Definition durable_events (a : abs_log) : nat := (dropped a + a_durable a)%nat.

Definition reserves_durable hist (n : nat) : Prop :=
  forall k e, hist !! k = Some e -> EType e = eventEpochReserve -> (k < n)%nat.

(** [n] events of the history are durable. *)
Record logged_upto hist (n : nat) (s : Store) : Prop := {
  lg_failed : failed s = None;
  lg_history : exists m, history m hist /\ mem_sim (mem s) m;
  lg_log : exists a, represents (log s) a /\ logged_as hist a /\ n = durable_events a;
  lg_reserves : reserves_durable hist n;
  lg_last : lastLSN s = N.of_nat (length hist);
  lg_codec : Forall codec_ok hist
}.

Definition logged hist s : Prop := exists n, logged_upto hist n s.

(** Room in the log for [n] more records. *)
Definition log_room hist (n : nat) : Prop := is_u64 (N.of_nat (length hist + n) + 1).

Lemma logged_next hist a : logged_as hist a -> a_next a = (N.of_nat (length hist) + 1)%N.
Proof.
  intros [Hf Hd Hr%Forall2_length]. unfold a_next, dropped in *. rewrite length_drop in Hr. lia.
Qed.

Lemma logged_durable_le hist a : abs_wf a -> logged_as hist a ->
  (durable_events a <= length hist)%nat.
Proof.
  intros [H1 H2 _] [Hf Hd Hr%Forall2_length]. unfold durable_events.
  rewrite length_drop in Hr. lia.
Qed.

Lemma logged_as_snoc hist a a' e b :
  logged_as hist a -> abs_appended b a a' -> record_of e b -> logged_as (hist ++ [e]) a'.
Proof.
  intros [Hf Hd Hr] [Hf' Hr' _ _] Heb.
  assert (Hdr : dropped a' = dropped a) by (unfold dropped; by rewrite Hf'). split.
  - by rewrite Hf'.
  - rewrite Hdr, length_app. lia.
  - rewrite Hdr, Hr', drop_app_le by lia. apply Forall2_app; [done|]. by constructor.
Qed.

Lemma logged_cong hist n s s' :
  logged_upto hist n s -> failed s' = failed s -> mem s' ≡ mem s -> log s' = log s ->
  lastLSN s' = lastLSN s -> logged_upto hist n s'.
Proof.
  intros [H1 (m & Hm & Hsim) H3 H4 H5 H6] E1 E2 E3 E4. split; try congruence.
  - exists m. split; [done|]. by rewrite E2.
  - by rewrite E3.
  - done.
Qed.

Lemma history_sim_snoc hist m live live' e :
  history m hist -> mem_sim live m -> admissible e live -> apply e live = (inr tt, live') ->
  exists m', history m' (hist ++ [e]) /\ mem_sim live' m'.
Proof.
  intros Hh Hsim Had Happ. destruct (apply_sim _ _ _ _ Hsim Happ) as (m' & Happ' & Hsim').
  exists m'. split; [|done]. econstructor; [done| |done]. by apply (admissible_sim e live m).
Qed.

Lemma reserves_snoc hist e n n' :
  reserves_durable hist n -> (n <= n')%nat ->
  (EType e = eventEpochReserve -> (length hist < n')%nat) -> reserves_durable (hist ++ [e]) n'.
Proof.
  intros Hr Hn He k e' Hk Ht.
  apply lookup_app_Some in Hk as [Hk|[Hle Hk]]; [specialize (Hr k e' Hk Ht); lia|].
  apply list_lookup_singleton_Some in Hk as [Hk <-]. specialize (He Ht). lia.
Qed.

(** Appending to the log of a healthy store, with or without a flush. *)
Lemma logged_append hist n s e b l' a a' m' lsn :
  logged_upto hist n s -> represents (log s) a -> logged_as hist a -> n = durable_events a ->
  represents l' a' -> abs_appended b a a' -> record_of e b -> codec_ok e -> lsn = a_next a ->
  admissible e (mem s) -> apply e (mem s) = (inr tt, m') ->
  (EType e = eventEpochReserve -> a' = abs_synced a') ->
  logged_upto (hist ++ [e]) (durable_events a')
    (with_lastLSN lsn (with_mem m' (with_log l' s))).
Proof.
  intros [Hf (m & Hm & Hsim) _ Hres Hlast Hco] Hl Has -> Hl' Happd Hrec Hok -> Had Happ Hsync.
  pose proof (logged_as_snoc _ _ _ _ _ Has Happd Hrec) as Has'.
  assert (Hdr : dropped a' = dropped a) by (unfold dropped; by rewrite (app_first _ _ _ Happd)).
  assert (Hde : durable_events a' = (dropped a + a_durable a')%nat)
    by (unfold durable_events; by rewrite Hdr).
  pose proof (app_durable _ _ _ Happd) as Hmono.
  destruct Has as [Hf1 Hd1 Hr1]. pose proof (Forall2_length _ _ _ Hr1) as Hlen.
  rewrite length_drop in Hlen. split.
  - done.
  - by eapply history_sim_snoc.
  - by exists a'.
  - rewrite Hde. apply (reserves_snoc _ _ (durable_events a)); [done| |].
    + unfold durable_events. lia.
    + intros Ht. rewrite (Hsync Ht). cbn [a_durable abs_synced].
      rewrite (app_recs _ _ _ Happd), length_app. cbn. lia.
  - cbn [lastLSN with_lastLSN]. rewrite (logged_next hist a) by done.
    rewrite length_app. cbn. lia.
  - apply Forall_app. split; [done|by apply Forall_singleton].
Qed.

Lemma log_room_1 hist n : log_room hist (S n) -> is_u64 (N.of_nat (length hist) + 1 + 1).
Proof. unfold log_room, is_u64. lia. Qed.

(** [recordLocked] on a healthy store works. *)
Lemma logged_record hist n s e :
  logged_upto hist n s -> admissible e (mem s) -> codec_ok e -> log_room hist 1 ->
  EType e <> eventEpochReserve ->
  exists l' lsn m' n', (n <= n')%nat /\ apply e (mem s) = (inr tt, m') /\
    recordLocked e s = (inr tt, with_lastLSN lsn (with_mem m' (with_log l' s))) /\
    logged_upto (hist ++ [e]) n' (with_lastLSN lsn (with_mem m' (with_log l' s))).
Proof.
  intros Hlg Had Hok Hroom Ht. pose proof Hlg as [Hf _ (a & Hl & Has & Hn) _ _ _].
  destruct (codec_roundtrip e Hok) as (b & Henc & Hval & Hdec).
  destruct (append_law (log s) a b Hl Hval) as (l' & a' & Hrun & Hl' & Happd).
  { unfold a_room. rewrite (logged_next hist) by done. by apply (log_room_1 hist 0). }
  destruct (admissible_applies e (mem s) Had) as [m' Happ].
  exists l', (a_next a), m', (durable_events a'). split_and!; [|done| |].
  - subst n. unfold durable_events, dropped. rewrite (app_first _ _ _ Happd).
    pose proof (app_durable _ _ _ Happd). lia.
  - unfold recordLocked. erewrite bind_ok; [|reflexivity]. rewrite Hf.
    unfold encode. rewrite Henc. erewrite bind_ok; [|reflexivity].
    erewrite bind_ok; [|unfold on_log, zoom; rewrite Hrun; reflexivity].
    erewrite bind_ok; [|unfold on_mem, zoom; cbn [mem with_log]; rewrite Happ; reflexivity].
    reflexivity.
  - by eapply logged_append.
Qed.

(** A reservation on a healthy store works and is durable at once. *)
Lemma logged_reserve hist n s :
  logged_upto hist n s -> admissible (reserve_event s) (mem s) -> codec_ok (reserve_event s) ->
  log_room hist 1 ->
  exists l' lsn m' n', (n <= n')%nat /\ apply (reserve_event s) (mem s) = (inr tt, m') /\
    reserveEpochsLocked s = (inr tt, with_lastLSN lsn (with_mem m' (with_log l' s))) /\
    logged_upto (hist ++ [reserve_event s]) n' (with_lastLSN lsn (with_mem m' (with_log l' s))).
Proof.
  intros Hlg Had Hok Hroom. pose proof Hlg as [Hf _ (a & Hl & Has & Hn) _ _ _].
  destruct (codec_roundtrip _ Hok) as (b & Henc & Hval & Hdec).
  destruct (append_sync_law (log s) a b Hl Hval) as (l' & a' & Hrun & Hl' & Happd & Hsync).
  { unfold a_room. rewrite (logged_next hist) by done. by apply (log_room_1 hist 0). }
  destruct (admissible_applies _ (mem s) Had) as [m' Happ].
  exists l', (a_next a), m', (durable_events a'). split_and!; [|done| |].
  - subst n. unfold durable_events, dropped. rewrite (app_first _ _ _ Happd).
    pose proof (app_durable _ _ _ Happd). lia.
  - unfold reserveEpochsLocked. erewrite bind_ok; [|reflexivity]. cbv zeta.
    fold (reserve_event s). unfold encode. rewrite Henc. erewrite bind_ok; [|reflexivity].
    erewrite bind_ok; [|unfold on_log, zoom; rewrite Hrun; reflexivity].
    erewrite bind_ok; [|unfold on_mem, zoom; cbn [mem with_log]; rewrite Happ; reflexivity].
    reflexivity.
  - by eapply logged_append.
Qed.

(** A flush of a healthy store works and makes all of the history durable. *)
Lemma logged_commit hist n s :
  logged_upto hist n s ->
  exists l', commitDurable s = (inr tt, with_log l' s) /\
    logged_upto hist (length hist) (with_log l' s).
Proof.
  intros [Hf Hh (a & Hl & Has & ->) Hres Hlast Hco].
  destruct (sync_law (log s) a Hl) as (l' & Hrun & Hl'). exists l'. split.
  - unfold commitDurable. erewrite bind_ok; [|unfold try, on_log, zoom; rewrite Hrun; reflexivity].
    done.
  - pose proof (logged_durable_le _ _ (represents_wf _ _ Hl) Has) as Hle.
    split; [done|done| | |done|done].
    + exists (abs_synced a). split; [done|]. split; [by destruct Has; split|].
      destruct Has as [_ Hd Hr%Forall2_length]. rewrite length_drop in Hr.
      unfold durable_events. cbn. fold (dropped a). unfold dropped in *. cbn. lia.
    + intros k e Hk Ht. specialize (Hres k e Hk Ht). lia.
Qed.

(** *** Operations *)

Definition max_records (o : operation) : nat :=
  match o with
  | OpHeartbeat _ _ _ _ | OpCommit => 0
  | OpLease _ _ _ _ => 2
  | OpReclaim order _ _ => length order
  | _ => 1
  end.

(** The history grew by events in [P], [k] at most. *)
Definition grows hist (n : nat) (P : event -> Prop) (k : nat) (s' : Store) : Prop :=
  exists es n', (n <= n')%nat /\ logged_upto (hist ++ es) n' s' /\ Forall P es /\
    (length es <= k)%nat.

Lemma grows_none hist n P k s : logged_upto hist n s -> grows hist n P k s.
Proof. intros H. exists [], n. rewrite app_nil_r. split_and!; [done..|by constructor|cbn; lia]. Qed.

Lemma grows_one hist n n' (P : event -> Prop) k e s :
  logged_upto (hist ++ [e]) n' s -> (n <= n')%nat -> P e -> grows hist n P (S k) s.
Proof.
  intros H Hn He. exists [e], n'. split_and!; [done..|by repeat constructor|cbn; lia].
Qed.

Lemma grows_weaken hist n (P P' : event -> Prop) k k' s :
  grows hist n P k s -> (forall e, P e -> P' e) -> (k <= k')%nat -> grows hist n P' k' s.
Proof.
  intros (es & n' & Hn & Hl & HP & Hlen) HPP Hk. exists es, n'. split_and!; [done|done| |lia].
  by eapply Forall_impl.
Qed.

Lemma grows_cons hist n n1 (P : event -> Prop) k e s :
  (n <= n1)%nat -> P e -> grows (hist ++ [e]) n1 P k s -> grows hist n P (S k) s.
Proof.
  intros Hn He (es & n' & Hn' & Hl & HP & Hlen). exists (e :: es), n'.
  rewrite <- app_assoc in Hl. split_and!; [lia|done|by constructor|cbn; lia].
Qed.

(** The fields a record leaves alone. *)
Record same_config s s' : Prop := {
  sc_base : backoffBase s' = backoffBase s;
  sc_cap : backoffCap s' = backoffCap s;
  sc_block : epochBlockSize s' = epochBlockSize s
}.

Lemma wp_record_logged hist n s e Q :
  logged_upto hist n s -> admissible e (mem s) -> codec_ok e -> log_room hist 1 ->
  EType e <> eventEpochReserve ->
  (forall s' n', (n <= n')%nat -> logged_upto (hist ++ [e]) n' s' ->
     apply e (mem s) = (inr tt, mem s') -> index s' = index s -> nextEpoch s' = nextEpoch s ->
     same_config s s' -> Q (inr tt) s') ->
  wp (recordLocked e) Q s.
Proof.
  intros Hlg Had Hok Hroom Ht HQ.
  destruct (logged_record hist n s e Hlg Had Hok Hroom Ht) as (l' & lsn & m' & n' & Hn & Happ & Hrun & Hlg').
  unfold wp. rewrite Hrun. by apply (HQ _ n').
Qed.

Lemma wp_push_logged hist n id now s Q :
  logged_upto hist n s ->
  (forall s', logged_upto hist n s' -> mem s' = mem s -> same_config s s' -> Q (inr tt) s') ->
  wp (push_job id now) Q s.
Proof.
  intros Hlg HQ. apply wp_push_job.
  - intros _. by apply HQ.
  - intros j _. apply HQ; [by eapply logged_cong|done|by split].
Qed.

Lemma Submit_logged hist n p id now s :
  store_wf s -> logged_upto hist n s -> jobs (mem s) !! id = None -> log_room hist 1 ->
  codec_ok (ev_submit (new_job p id now)) ->
  wp (Submit_locked p id now) (fun r s' =>
    (exists old, PIdempotencyKey p <> "" /\
       idem (mem s) !! idemKey (PQueue p) (PIdempotencyKey p) = Some old /\
       r = inr (Clone <$> jobs (mem s) !! old, true) /\ s' = s) \/
    (r = inr (Some (new_job p id now), false) /\
     exists n', (n <= n')%nat /\ logged_upto (hist ++ [ev_submit (new_job p id now)]) n' s' /\
       mem s' = submit_mem (new_job p id now) (mem s))) s.
Proof.
  intros Hwf Hlg Hnew Hroom Hok. unfold Submit_locked. do 2 wp_step.
  rewrite (lg_failed _ _ _ Hlg). do 2 wp_step.
  destruct (if bool_decide _ then _ else _) as [old|] eqn:Eold.
  - wp_step. left. case_bool_decide; [done|]. by exists old.
  - wp_step. eapply wp_record_logged; [done| |done..|].
    { cbn. split_and!; [done..|]. intros Hk. by rewrite bool_decide_false in Eold. }
    intros s1 n1 Hn1 Hlg1 Happ _ _ _. wp_step.
    eapply wp_push_logged; [done|]. intros s2 Hlg2 Hm2 _. wp_step. right. split; [done|].
    exists n1. split; [done|]. split; [done|]. rewrite Hm2. by injection Happ.
Qed.

Lemma failLocked_logged hist n j reason timeout now rnd s :
  logged_upto hist n s -> jobs (mem s) !! ID j = Some j -> JState j = StateLeased ->
  log_room hist 1 ->
  let e := fail_event (backoffBase s) (backoffCap s) j reason timeout now rnd in
  codec_ok e ->
  wp (failLocked j reason timeout now rnd) (fun r s' =>
    r = inr (MaxRetries j <? Attempt j) /\
    jobs (mem s') = <[ID j := fail_job e j]> (jobs (mem s)) /\ same_config s s' /\
    exists n', (n <= n')%nat /\ logged_upto (hist ++ [e]) n' s') s.
Proof.
  intros Hlg Hj Hst Hroom e Hok. unfold failLocked. do 3 wp_step.
  fold (fail_event (backoffBase s) (backoffCap s) j reason timeout now rnd). fold e.
  eapply wp_record_logged; [done| |done..|].
  { cbn. split; [by apply (leased_running _ _ j)|]. destruct (_ <? _); auto. }
  intros s1 n1 Hn1 Hlg1 Happ _ _ Hsc1. wp_step.
  assert (Hjobs : jobs (mem s1) = <[ID j := fail_job e j]> (jobs (mem s))).
  { rewrite (apply_on_job e (fail_job e) remove (mem s) j) in Happ by done.
    injection Happ as <-. done. }
  destruct (MaxRetries j <? Attempt j).
  - rewrite bool_decide_false by done. wp_step. wp_step. by eauto 6.
  - rewrite bool_decide_true by done. eapply wp_push_logged; [done|].
    intros s2 Hlg2 Hm2 [E1 E2 E3]. wp_step. split; [done|]. rewrite Hm2. split; [done|].
    split; [|by eauto]. destruct Hsc1. split; congruence.
Qed.

Lemma log_room_app hist es k : log_room hist (length es + k) -> log_room (hist ++ es) k.
Proof. unfold log_room, is_u64. rewrite length_app. lia. Qed.

Lemma log_room_le hist k k' : log_room hist k -> (k' <= k)%nat -> log_room hist k'.
Proof. unfold log_room, is_u64. lia. Qed.

Lemma nextEpoch_logged hist n ex s :
  store_inv ex s -> epoch_room s -> logged_upto hist n s -> log_room hist 1 ->
  codec_ok (reserve_event s) ->
  wp nextEpochLocked (fun r s' =>
    r = inr (nextEpoch s) /\ jobs (mem s') = jobs (mem s) /\
    (nextEpoch s <= epochReservedUpTo (mem s'))%N /\
    exists es n', (n <= n')%nat /\ logged_upto (hist ++ es) n' s' /\
      (es = [] \/ es = [reserve_event s])) s.
Proof.
  intros Hinv Hroom Hlg Hlroom Hok. pose proof (reserved_upto ex s Hinv Hroom) as Hupto.
  pose proof (inv_reserved _ _ _ _ Hinv) as Hres. destruct Hroom as [Hb Hr].
  unfold nextEpochLocked. do 3 wp_step.
  destruct (N.ltb_spec (epochReservedUpTo (mem s)) (nextEpoch s)) as [Hlt|Hge].
  - assert (Had : admissible (reserve_event s) (mem s)).
    { change (epochReservedUpTo (mem s) < EReservedUpTo (reserve_event s))%N. lia. }
    destruct (logged_reserve hist n s Hlg Had Hok Hlroom)
      as (l' & lsn & m' & n' & Hn & Happ & Hrun & Hlg').
    unfold wp at 1. rewrite Hrun. cbn [fst snd]. wp_auto.
    assert (m' = mkMem (jobs (mem s)) (idem (mem s)) (leased (mem s))
                   (EReservedUpTo (reserve_event s))) as E by (by injection Happ as <-).
    split; [done|]. split; [by rewrite E|]. split.
    { cbn [mem with_nextEpoch with_lastLSN with_mem]. rewrite E.
      cbn [epochReservedUpTo]. lia. }
    exists [reserve_event s], n'. split; [done|]. split; [by eapply logged_cong|by right].
  - wp_auto. split; [done|]. split; [done|]. split; [done|].
    exists [], n. rewrite app_nil_r. split; [done|]. split; [by eapply logged_cong|by left].
Qed.

Lemma lease_turn_logged hist n queue workerID j dur now s :
  store_inv (Some (ID j)) s -> best queue now s j -> epoch_room s ->
  logged_upto hist n s -> log_room hist 2 ->
  (forall e, may_record (OpLease queue workerID dur now) s e -> codec_ok e) ->
  wp (lease_turn queue workerID dur now (ID j) j)
    (fun _ s' => grows hist n (may_record (OpLease queue workerID dur now) s) 2 s') s.
Proof.
  intros Hinv [(Hj & Hq & Hl & He) _] Hroom Hlg Hlroom Hok. unfold lease_turn.
  do 2 wp_step. eapply wp_mono.
  { apply (nextEpoch_logged hist n (Some (ID j))); [done..| |apply Hok; by left].
    by apply (log_room_le _ 2); [|lia]. }
  intros r s1 (-> & Hjobs & Hup & es & n1 & Hn1 & Hlg1 & Hes).
  set (P := may_record _ _) in *.
  assert (HPes : Forall P es /\ (length es <= 1)%nat).
  { destruct Hes as [-> | ->]; split; [by constructor|cbn; lia| |done].
    constructor; [by left|by constructor]. }
  destruct HPes as [HPes Hlen]. do 2 wp_step.
  set (e := ev_lease _ _ _ _ _).
  assert (HPe : P e) by (right; by exists (ID j), j).
  eapply (wp_record_logged (hist ++ es) n1); [done| |by apply Hok| |done|].
  - split; [|done]. apply (leasable_running _ _ j); [cbn; by rewrite Hjobs|done].
  - apply log_room_app. by apply (log_room_le _ 2); [|lia].
  - intros s2 n2 Hn2 Hlg2 _ _ _ _. unfold inc, get_job. wp_auto.
    exists (es ++ [e]), n2. rewrite app_assoc. split; [lia|].
    split; [by eapply logged_cong|]. split.
    + apply Forall_app. split; [done|by apply Forall_singleton].
    + rewrite length_app. cbn. lia.
Qed.

Lemma Lease_logged hist n queue workerID dur now s :
  store_wf s -> epoch_room s -> logged_upto hist n s -> log_room hist 2 ->
  (forall e, may_record (OpLease queue workerID dur now) s e -> codec_ok e) ->
  wp (Lease queue workerID dur now)
    (fun _ s' => grows hist n (may_record (OpLease queue workerID dur now) s) 2 s') s.
Proof.
  intros Hwf Hroom Hlg Hlroom Hok. apply Lease_rule; [done| |].
  - intros ix _ _. apply grows_none. by eapply logged_cong.
  - intros ix cid j Hinv -> Hbest.
    apply (lease_turn_logged hist n queue workerID j dur now (with_index ix s)); try done.
    by eapply logged_cong.
Qed.

Lemma reclaim_loop_logged hist n order now rnd acc s0 s :
  store_wf s -> logged_upto hist n s -> NoDup order -> same_config s0 s ->
  (forall id, id ∈ order -> jobs (mem s) !! id = jobs (mem s0) !! id) ->
  log_room hist (length order) ->
  (forall id j, id ∈ order -> jobs (mem s0) !! id = Some j -> JState j = StateLeased ->
     LeaseExpiresAt j <= now ->
     codec_ok (fail_event (backoffBase s0) (backoffCap s0) j "lease expired" true now (rnd id))) ->
  wp (reclaim_loop order now rnd acc) (fun _ s' =>
    grows hist n (may_record (OpReclaim order now rnd) s0) (length order) s') s.
Proof.
  revert hist n acc s. induction order as [|id order IH];
    intros hist n acc s Hwf Hlg Hnd Hsc Hsame Hroom Hok; cbn [reclaim_loop].
  { wp_step. by apply grows_none. }
  pose proof (inv_mem _ _ _ _ Hwf) as Hm. apply NoDup_cons in Hnd as [Hnin Hnd].
  assert (Hskip : wp (reclaim_loop order now rnd acc) (fun _ s' =>
    grows hist n (may_record (OpReclaim (id :: order) now rnd) s0) (length (id :: order)) s') s).
  { eapply wp_mono; [apply IH; try done|].
    - intros id' Hi. apply Hsame. by right.
    - apply (log_room_le _ _ _ Hroom). cbn. lia.
    - intros id' j Hi. apply Hok. by right.
    - intros r s' Hg. eapply grows_weaken; [exact Hg| |cbn; lia].
      intros e (i & j & Hi & ?). exists i, j. by split; [right|]. }
  wp_step. unfold get_job at 1. wp_step.
  destruct (jobs (mem s) !! id) as [j|] eqn:Ej.
  - destruct (bool_decide_reflect (JState j = StateLeased)) as [El|El]; cbn [negb].
    2:{ do 2 wp_step. rewrite remove_not_leased; [by rewrite with_mem_id|done|].
      intros j'. rewrite Ej. by intros [= <-]. }
    destruct (Z.ltb_spec now (LeaseExpiresAt j)); [done|].
    do 2 wp_step.
    assert (Ej0 : jobs (mem s0) !! id = Some j) by (rewrite <- Hsame; [done|left]).
    assert (HID : ID j = id) by (by rewrite (wf_keys _ Hm _ _ Ej)).
    assert (Hev : codec_ok (fail_event (backoffBase s) (backoffCap s) j "lease expired" true now (rnd id))).
    { rewrite (sc_base _ _ Hsc), (sc_cap _ _ Hsc). apply Hok; [left|done..]. }
    assert (Hwf' : wp (failLocked j "lease expired" true now (rnd id)) (fun _ s' => store_wf s') s).
    { apply failLocked_wf; [done| |done]. by rewrite HID. }
    eapply wp_mono; [apply wp_and; [exact Hwf'|];
      apply (failLocked_logged hist n); [done|by rewrite HID|done| |done]|].
    { apply (log_room_le _ _ _ Hroom). cbn. lia. }
    intros r s1 (Hwf1 & -> & Hjobs & Hsc1 & n1 & Hn1 & Hlg1). cbn beta iota zeta.
    set (e := fail_event _ _ _ _ _ _ _) in *.
    eapply wp_mono; [apply (IH (hist ++ [e]) n1); try done|].
    + destruct Hsc, Hsc1. split; congruence.
    + intros id' Hi. rewrite Hjobs, lookup_insert_ne by (rewrite HID; by intros ->).
      apply Hsame. by right.
    + apply log_room_app. exact Hroom.
    + intros id' j' Hi. apply Hok. by right.
    + intros r s' Hg. apply (grows_cons _ _ n1 _ _ e); [lia| |].
      * exists id, j. split; [left|]. split_and!; try done. unfold e.
        by rewrite (sc_base _ _ Hsc), (sc_cap _ _ Hsc).
      * eapply grows_weaken; [exact Hg| |done].
        intros e' (i & j' & Hi & ?). exists i, j'. by split; [right|].
  - do 2 wp_step. rewrite remove_not_leased; [by rewrite with_mem_id|done|].
    intros j'. by rewrite Ej.
Qed.

(** Every operation of a healthy store extends its history by events of its
    own and leaves it healthy. *)
Lemma Submit_grows hist n p id now s :
  store_wf s -> logged_upto hist n s -> jobs (mem s) !! id = None ->
  (forall e, may_record (OpSubmit p id now) s e -> codec_ok e) -> log_room hist 1 ->
  wp (Submit_locked (submit_defaults p) id now)
    (fun _ s' => grows hist n (may_record (OpSubmit p id now) s) 1 s') s.
Proof.
  intros Hwf Hlg Hv Hok Hroom. destruct (decide (PIdempotencyKey p <> "" /\
    is_Some (idem (mem s) !! idemKey (PQueue p) (PIdempotencyKey p)))) as [[Hk [old Hold]]|Hnk].
  { unfold Submit_locked. do 2 wp_step. rewrite (lg_failed _ _ _ Hlg). do 2 wp_step.
    cbn [submit_defaults PIdempotencyKey PQueue]. rewrite bool_decide_false, Hold by done.
    wp_step. by apply grows_none. }
  assert (HP : may_record (OpSubmit p id now) s (ev_submit (new_job (submit_defaults p) id now))).
  { split; [done|]. intros Hk. apply eq_None_not_Some. tauto. }
  eapply wp_mono; [apply (Submit_logged hist n); try done; by apply Hok|].
  intros r s' [(old & _ & _ & _ & ->)|(_ & n' & Hn & Hl & _)]; [by apply grows_none|].
  by eapply grows_one.
Qed.

Lemma Ack_grows hist n id epoch s :
  logged_upto hist n s -> (forall e, may_record (OpAck id epoch) s e -> codec_ok e) ->
  log_room hist 1 ->
  wp (Ack_locked id epoch) (fun _ s' => grows hist n (may_record (OpAck id epoch) s) 1 s') s.
Proof.
  intros Hlg Hok Hroom. unfold Ack_locked. wp_step. unfold get_job at 1. wp_step.
  destruct (jobs (mem s) !! id) as [j|] eqn:Ej; [|wp_step; by apply grows_none].
  destruct (holdsLease j epoch) eqn:Eh; cbn [negb].
  2:{ unfold inc. wp_auto. apply grows_none. by eapply logged_cong. }
  assert (HP : may_record (OpAck id epoch) s (ev_ack id epoch)) by (split; [done|by exists j]).
  apply holds_leased in Eh as [Eh _].
  wp_step. eapply (wp_record_logged hist n); [done|by apply (leased_running _ _ j)|by apply Hok|done..|].
  intros s1 n1 Hn1 Hlg1 _ _ _ _. wp_step. by eapply grows_one.
Qed.

Lemma Nack_grows hist n id epoch reason now rnd s :
  store_wf s -> logged_upto hist n s ->
  (forall e, may_record (OpNack id epoch reason now rnd) s e -> codec_ok e) -> log_room hist 1 ->
  wp (Nack_locked id epoch reason now rnd)
    (fun _ s' => grows hist n (may_record (OpNack id epoch reason now rnd) s) 1 s') s.
Proof.
  intros Hwf Hlg Hok Hroom. unfold Nack_locked. wp_step. unfold get_job at 1. wp_step.
  destruct (jobs (mem s) !! id) as [j|] eqn:Ej; [|wp_step; by apply grows_none].
  destruct (holdsLease j epoch) eqn:Eh; cbn [negb].
  2:{ unfold inc. wp_auto. apply grows_none. by eapply logged_cong. }
  assert (HP : may_record (OpNack id epoch reason now rnd) s
    (fail_event (backoffBase s) (backoffCap s) j (nack_reason reason) false now rnd))
    by (by exists j).
  wp_step. eapply wp_mono.
  { apply holds_leased in Eh as [Eh _].
    apply (failLocked_logged hist n); [done| |done|done|by apply Hok].
    by rewrite (wf_keys _ (inv_mem _ _ _ _ Hwf) _ _ Ej). }
  intros r s1 (-> & _ & _ & n1 & Hn1 & Hlg1). wp_step. by eapply grows_one.
Qed.

Lemma Heartbeat_grows hist n id epoch dur now P s :
  logged_upto hist n s -> wp (Heartbeat id epoch dur now) (fun _ s' => grows hist n P 0 s') s.
Proof.
  intros Hlg. unfold Heartbeat. wp_step. unfold get_job at 1. wp_step.
  destruct (jobs (mem s) !! id) as [j|] eqn:Ej; [|wp_step; by apply grows_none].
  destruct (negb (holdsLease j epoch)); wp_auto; [by apply grows_none|].
  apply grows_none. eapply logged_cong; try done. cbn. split; [|done]. cbn.
  rewrite fmap_insert. symmetry. rewrite insert_id; [done|]. by rewrite lookup_fmap, Ej.
Qed.

Lemma Replay_grows hist n id now s :
  logged_upto hist n s -> (forall e, may_record (OpReplay id now) s e -> codec_ok e) ->
  log_room hist 1 ->
  wp (ReplayJob_locked id now) (fun _ s' => grows hist n (may_record (OpReplay id now) s) 1 s') s.
Proof.
  intros Hlg Hok Hroom. unfold ReplayJob_locked. wp_step. unfold get_job at 1. wp_step.
  destruct (jobs (mem s) !! id) as [j|] eqn:Ej; [|wp_step; by apply grows_none].
  destruct (bool_decide_reflect (JState j = StateDeadLetter)); cbn [negb];
    [|wp_step; by apply grows_none].
  assert (HP : may_record (OpReplay id now) s (ev_replay id now)) by (split; [done|by exists j]).
  wp_step. eapply (wp_record_logged hist n); [done|by exists j|by apply Hok|done..|].
  intros s1 n1 Hn1 Hlg1 _ _ _ _. wp_step. eapply wp_push_logged; [done|].
  intros s2 Hlg2 _ _. wp_step. by eapply grows_one.
Qed.

Lemma commit_grows hist n P s :
  logged_upto hist n s -> wp commitDurable (fun _ s' => grows hist n P 0 s') s.
Proof.
  intros Hlg. destruct (logged_commit hist n s Hlg) as (l' & E & Hl'). unfold wp. rewrite E.
  exists [], (length hist). rewrite app_nil_r. split_and!; [|done|by constructor|cbn; lia].
  pose proof Hlg as [_ _ (a & Hl & Has & ->) _ _ _].
  apply (logged_durable_le hist a); [by eapply represents_wf|done].
Qed.

Lemma run_op_logged hist n o s :
  store_wf s -> logged_upto hist n s -> op_valid o s ->
  (forall e, may_record o s e -> codec_ok e) -> log_room hist (max_records o) ->
  grows hist n (may_record o s) (max_records o) (run_op o s).
Proof.
  intros Hwf Hlg Hv Hok Hroom. destruct o; cbn [run_op max_records op_valid] in *.
  - by apply Submit_grows.
  - by apply (Lease_logged hist n queue workerID dur now s).
  - by apply Ack_grows.
  - by apply Nack_grows.
  - by apply Heartbeat_grows.
  - apply reclaim_loop_logged; try done.
    + rewrite Hv. apply NoDup_elements.
    + intros id j Hid Hj Hst Hx. apply Hok. by exists id, j.
  - by apply Replay_grows.
  - by apply commit_grows.
Qed.

(** *** Crash and recovery *)

(** The replay of the rest of a history onto the memory of a prefix. *)
Lemma replay_events es hist bs m m' live :
  history m hist -> history m' (hist ++ es) -> mem_sim live m -> mem_wf live ->
  Forall2 record_of es bs ->
  exists live', for_each (fun r => replay_event r.1 r.2)
      (number (N.of_nat (length hist) + 1) bs) (live, N.of_nat (length hist)) =
    (inr tt, (live', N.of_nat (length (hist ++ es)))) /\ mem_sim live' m' /\ mem_wf live'.
Proof.
  revert hist bs m live. induction es as [|e es IH]; intros hist bs m live Hm Hm' Hsim Hwf Hrec.
  - inversion Hrec; subst. exists live. rewrite app_nil_r in *.
    by rewrite (history_det _ _ _ Hm' Hm).
  - inversion Hrec as [|? b ? bs' [Henc Hdec] Hrec']; subst.
    assert (Hm1 : exists m1, history m1 (hist ++ [e])).
    { destruct (history_take _ _ (length (hist ++ [e])) Hm') as [m1 H1]. exists m1.
      rewrite (app_assoc hist [e] es : hist ++ e :: es = _), take_app_length in H1. done. }
    destruct Hm1 as [m1 Hm1]. pose proof Hm1 as (m0 & Hm0 & Had & Happ)%history_snoc_inv.
    rewrite (history_det _ _ _ Hm0 Hm) in *. clear m0 Hm0.
    apply (admissible_sim e live m Hsim) in Had.
    destruct (admissible_applies e live Had) as [live1 Hl1].
    destruct (apply_sim e live m live1 Hsim Hl1) as (m1' & Hm1' & Hsim1).
    assert (m1' = m1) as -> by congruence.
    destruct (IH (hist ++ [e]) bs' m1 live1) as (live' & Hrun & Hsim' & Hwf').
    { done. } { by rewrite <- app_assoc. } { done. } { by eapply apply_mem_wf. } { done. }
    exists live'. split; [|done]. rewrite <- app_assoc in Hrun. cbn [app] in Hrun.
    rewrite length_app in Hrun. cbn [length] in Hrun.
    cbn [number for_each fst snd]. erewrite bind_ok.
    2:{ unfold replay_event. rewrite Hdec. erewrite bind_ok; [|unfold zoom; cbn [fst]; rewrite Hl1; reflexivity].
        reflexivity. }
    cbn [fst snd]. rewrite <- Hrun. f_equal; [do 2 f_equal; lia|f_equal; lia].
Qed.

Lemma number_from lsn ps j :
  (j <= length ps)%nat ->
  filter (fun r : N * bytes => (lsn + N.of_nat j <= r.1)%N) (number lsn ps) =
  number (lsn + N.of_nat j) (drop j ps).
Proof.
  intros Hj. rewrite <- (take_drop j ps) at 1. rewrite number_app, filter_app.
  rewrite length_take, Nat.min_l by lia. rewrite filter_none, filter_all; [done| |].
  - intros r Hr%number_lsn. lia.
  - intros r Hr%number_lsn. rewrite length_take in Hr. lia.
Qed.

(** A snapshot that stands for the first [base] events, when the first [n] are
    durable: replaying some of those that follow makes a memory that is as good
    as theirs. None is needed when it was written as it was captured. *)
Definition snapshot_ok hist (n : nat) (snap : Mem) : Prop :=
  exists c r m, (base + c <= n)%nat /\ apply_all (take c (drop base hist)) snap = (inr tt, r) /\
    mem_wf r /\ history m (take (base + c) hist) /\ mem_sim r m.

Lemma snapshot_ok_exact hist n snap m :
  (base <= n)%nat -> mem_wf snap -> history m (take base hist) -> mem_sim snap m -> snapshot_ok hist n snap.
Proof.
  intros Hn Hwf Hm Hsim. exists 0%nat, snap, m. rewrite Nat.add_0_r. by rewrite take_0.
Qed.

(** The replay of events that are known to apply. *)
Lemma replay_plain es bs lsn m r :
  apply_all es m = (inr tt, r) -> Forall2 record_of es bs ->
  for_each (fun r => replay_event r.1 r.2) (number (lsn + 1) bs) (m, lsn) =
  (inr tt, (r, (lsn + N.of_nat (length es))%N)).
Proof.
  intros Happ Hrec. revert m lsn Happ. induction Hrec as [|e b es bs [_ Hdec] _ IH]; intros m lsn Happ.
  - injection Happ as <-. cbn. by rewrite N.add_0_r.
  - change (apply_all (e :: es)) with (apply e ;;; apply_all es) in Happ.
    apply bind_inr in Happ as ([] & m1 & H1 & H2).
    cbn [number for_each fst snd]. erewrite bind_ok.
    2:{ unfold replay_event. rewrite Hdec. erewrite bind_ok; [|unfold zoom; cbn [fst]; rewrite H1; reflexivity].
        reflexivity. }
    cbn [fst snd]. rewrite (IH m1 (lsn + 1)%N H2). cbn [length]. do 2 f_equal. lia.
Qed.

(** How much of the history a crash kept of the log. *)
Lemma crashed_kept hist a a' :
  logged_as hist a -> abs_wf a -> abs_crashed a a' ->
  (durable_events a <= durable_events a' <= length hist)%nat /\
  a_next a' = (N.of_nat (durable_events a') + 1)%N /\ abs_flushed a' = a'.
Proof.
  intros [Hf Hd Hr] [H1 H2 H3] (k & Hk & ->).
  pose proof (Forall2_length _ _ _ Hr) as Hlen. rewrite length_drop in Hlen.
  assert (Hkl : length (take k (a_recs a)) = k) by (rewrite length_take; lia).
  unfold durable_events, abs_flushed, a_next, dropped in *. cbn [a_first a_recs a_written a_durable] in *.
  rewrite Hkl. split; [lia|]. split; [lia|done].
Qed.

Lemma crashed_logged hist a a' :
  logged_as hist a -> abs_wf a -> abs_crashed a a' -> (base <= durable_events a')%nat ->
  logged_as (take (durable_events a') hist) a' /\
  a_from (N.of_nat base + 1) a' =
    number (N.of_nat base + 1) (drop (base - dropped a) (a_recs a')).
Proof.
  intros [Hf Hd Hr] [H1 H2 H3] (k & Hk & ->) Hbase.
  pose proof (Forall2_length _ _ _ Hr) as Hlen. rewrite length_drop in Hlen.
  assert (Hkl : length (take k (a_recs a)) = k) by (rewrite length_take; lia).
  unfold durable_events, a_from, dropped in *. cbn [a_first a_recs a_written a_durable] in *.
  split.
  - split; cbn; [done| |].
    + rewrite length_take. unfold dropped. cbn. lia.
    + unfold dropped. cbn. rewrite skipn_firstn_comm.
      replace (N.to_nat (a_first a - 1) + k - N.to_nat (a_first a - 1))%nat with k by lia.
      by apply Forall2_take.
  - replace (N.of_nat base + 1)%N
      with (a_first a + N.of_nat (base - N.to_nat (a_first a - 1)))%N by lia.
    apply number_from. lia.
Qed.

(** The replay onto a snapshot: first what makes it as good as a prefix of the
    history, then the rest. *)
Lemma replay_snapshot hist k c rs mb mk snap bs :
  apply_all (take c (drop base hist)) snap = (inr tt, rs) -> mem_wf rs ->
  history mb (take (base + c) hist) -> mem_sim rs mb -> history mk (take k hist) ->
  Forall2 record_of (drop base (take k hist)) bs -> (base + c <= k)%nat -> (k <= length hist)%nat ->
  exists live, for_each (fun r => replay_event r.1 r.2) (number (N.of_nat base + 1) bs) (snap, N.of_nat base) =
    (inr tt, (live, N.of_nat (length (take k hist)))) /\ mem_sim live mk /\ mem_wf live.
Proof.
  intros Hfix Hwfs Hmb Hsimb Hmk Hrecs Hc Hk.
  assert (Hsplit : drop base (take k hist) = take c (drop base hist) ++ drop (base + c) (take k hist)).
  { rewrite <- (take_drop c (drop base (take k hist))), drop_drop. f_equal.
    rewrite skipn_firstn_comm, firstn_firstn. f_equal. lia. }
  assert (Hwhole : take (base + c) hist ++ drop (base + c) (take k hist) = take k hist).
  { rewrite <- (take_drop (base + c) (take k hist)) at 2. f_equal. rewrite firstn_firstn. f_equal. lia. }
  rewrite Hsplit in Hrecs. apply Forall2_app_inv_l in Hrecs as (b1 & b2 & H1 & H2 & ->).
  pose proof (Forall2_length _ _ _ H1) as Hl1. rewrite length_take, length_drop in Hl1.
  rewrite number_app. erewrite for_each_app_ok by (by apply (replay_plain _ _ _ _ _ Hfix)).
  destruct (replay_events (drop (base + c) (take k hist)) (take (base + c) hist) b2 mb mk rs)
    as (live & Hfor & Hsim & Hwf); [done|by rewrite Hwhole|done..|].
  exists live. split; [|done]. rewrite Hwhole, length_take in Hfor. rewrite <- Hfor.
  rewrite length_take, length_drop. f_equal; [f_equal; lia|f_equal; lia].
Qed.

(** What was left of the log holds the first [k] events. *)
Definition log_holds (size : Z) (l1 : L) (k : nat) : Prop :=
  exists l2 a, log_open size l1 = (inr tt, l2) /\ represents l2 a /\ a_next a = (N.of_nat k + 1)%N.

Lemma log_holds_last size l1 l2 k :
  log_open size l1 = (inr tt, l2) -> log_holds size l1 k -> log_last_lsn l2 = N.of_nat k.
Proof.
  intros Ho (l2' & a & Ho' & Ha & Hk). rewrite Ho in Ho'. injection Ho' as <-.
  pose proof (abs_next_u64 _ (represents_wf _ _ Ha)) as Hu. rewrite (last_lsn_law l2 a Ha), Hk in *.
  unfold u64, is_u64 in *. replace (N.of_nat k + 1 + 2 ^ 64 - 1)%N with (N.of_nat k + 1 * 2 ^ 64)%N by lia.
  rewrite N.Div0.mod_add. apply N.mod_small. lia.
Qed.

Lemma log_reopens hist n s l1 size :
  logged_upto hist n s -> log_crash (log s) l1 ->
  exists k, (n <= k <= length hist)%nat /\ log_holds size l1 k.
Proof.
  intros [_ _ (a & Hl & Has & ->) _ _ _] Hcrash.
  destruct (reopen_law (log s) a l1 size Hl Hcrash) as (l2 & a' & Hopen & Hl2 & Hcr).
  destruct (crashed_kept hist a a' Has (represents_wf _ _ Hl) Hcr) as (Hk & Hnext & _).
  exists (durable_events a'). split; [done|]. by exists l2, a'.
Qed.

(** The log of a crashed store opens and replays to a prefix of the history
    that has everything durable, when the snapshot is one of that prefix. *)
Lemma replay_after_crash hist n s l1 size snap :
  logged_upto hist n s -> log_crash (log s) l1 ->
  (forall k, (n <= k <= length hist)%nat -> log_holds size l1 k -> snapshot_ok hist k snap) ->
  exists k live m l2 l3 a', (n <= k <= length hist)%nat /\ log_holds size l1 k /\
    log_open size l1 = (inr tt, l2) /\
    log_replay (u64 (N.of_nat base + 1)) replay_event (l2, (snap, N.of_nat base)) =
      (inr tt, (l3, (live, N.of_nat (length (take k hist))))) /\
    history m (take k hist) /\ mem_sim live m /\ mem_wf live /\
    represents l3 a' /\ logged_as (take k hist) a' /\ durable_events a' = k.
Proof.
  intros Hlg Hcrash Hsnap.
  pose proof Hlg as [_ (mh & Hmh & _) (a & Hl & Has & ->) _ _ _].
  destruct (reopen_law (log s) a l1 size Hl Hcrash) as (l2 & a' & Hopen & Hl2 & Hcr).
  destruct (crashed_kept hist a a' Has (represents_wf _ _ Hl) Hcr) as (Hk & Hnext & Hfl).
  assert (Hholds : log_holds size l1 (durable_events a')) by (by exists l2, a').
  destruct (Hsnap _ Hk Hholds) as (c & rs & mb & Hc & Hfix & Hwfs & Hmb & Hsimb).
  destruct (crashed_logged hist a a' Has (represents_wf _ _ Hl) Hcr ltac:(lia)) as (Has' & Hfrom).
  set (k := durable_events a') in *.
  destruct (history_take _ _ k Hmh) as [mk Hmk].
  destruct (replay_law l2 a' (N.of_nat base + 1) replay_event (snap, N.of_nat base) Hl2)
    as (l3 & Hl3 & Hrun). rewrite Hfl in Hl3.
  assert (Hdr : dropped a' = dropped a) by (by destruct Hcr as (? & _ & ->)).
  assert (Hrecs : Forall2 record_of (drop base (take k hist)) (drop (base - dropped a) (a_recs a'))).
  { destruct Has' as [_ Hd' Hr']. apply (Forall2_drop _ _ _ (base - dropped a)) in Hr'.
    rewrite drop_drop, Hdr in Hr'.
    by replace (dropped a + (base - dropped a))%nat with base in Hr' by (rewrite <- Hdr; lia). }
  destruct (replay_snapshot hist k c rs mb mk snap _ Hfix Hwfs Hmb Hsimb Hmk Hrecs Hc ltac:(lia))
    as (live & Hfor & Hsiml & Hwfl).
  rewrite Hfrom, Hfor in Hrun. cbn [fst snd callback_result] in Hrun.
  rewrite u64_id.
  - exists k, live, mk, l2, l3, a'. by split_and!; [lia..| | | | | | | | |].
  - pose proof (abs_next_u64 _ (represents_wf _ _ Hl)) as Hnx.
    rewrite (logged_next hist a Has) in Hnx. destruct Has as [_ [_ ?] _].
    unfold is_u64 in *. lia.
Qed.

(** What was reserved by the time of the crash is in every prefix that holds
    what was durable. *)
Lemma reserved_survives hist n s k live m :
  logged_upto hist n s -> (n <= k)%nat -> history m (take k hist) -> mem_sim live m ->
  epochReservedUpTo live = epochReservedUpTo (mem s).
Proof.
  intros [_ (mh & Hmh & Hsimh) _ Hres _ _] Hk Hm Hsim.
  rewrite (sim_reserved _ _ Hsim), (sim_reserved _ _ Hsimh).
  apply (history_reserved_take _ _ hist k); [done..|].
  intros i e Hi Ht. specialize (Hres i e Hi Ht). lia.
Qed.

Lemma Open_crash_logged hist n s l1 cfg snap now :
  logged_upto hist n s -> log_crash (log s) l1 ->
  (forall k, (n <= k <= length hist)%nat ->
     log_holds (CfgWALSegmentSize (config_defaults cfg)) l1 k -> snapshot_ok hist k snap) ->
  is_u64 (epochReservedUpTo (mem s) + 1) ->
  exists k live m s' l', (n <= k <= length hist)%nat /\
    log_holds (CfgWALSegmentSize (config_defaults cfg)) l1 k /\
    Open cfg snap (N.of_nat base) now l1 = (inr s', l') /\
    history m (take k hist) /\ mem_sim live m /\ mem_wf live /\
    mem s' = recoverLeasedLocked now live /\ store_wf s' /\
    logged_upto (take k hist) k s' /\
    nextEpoch s' = (epochReservedUpTo (mem s) + 1)%N /\
    epochReservedUpTo (mem s') = epochReservedUpTo (mem s).
Proof.
  intros Hlg Hcrash Hsnap Hu64. set (cfg' := config_defaults cfg).
  destruct (replay_after_crash hist n s l1 (CfgWALSegmentSize cfg') snap Hlg Hcrash Hsnap)
    as (k & live & mk & l2 & l3 & a' & Hk & Hholds & Hopen & Hrun & Hmk & Hsiml & Hwfl & Hl3 & Has' & Hka).
  pose proof (reserved_survives hist n s k live mk Hlg (proj1 Hk) Hmk Hsiml) as Hreserved.
  exists k, live, mk. eexists _, l3. split; [done|]. split; [done|]. split.
  { unfold Open, recover. erewrite bind_ok; [|unfold open_log, zoom; fold cfg'; rewrite Hopen; reflexivity].
    fold cfg'. rewrite Hrun. reflexivity. }
  split; [done|]. split; [done|]. split; [done|]. split; [done|].
  rewrite (u64_id (epochReservedUpTo _ + 1)) by (cbn; by rewrite Hreserved).
  split; [|split; [|split; [cbn; by rewrite Hreserved|done]]].
  - apply recovered_Inv; [done|]. intros id j Hj.
    destruct (sim_lookup _ _ _ _ Hsiml Hj) as (j' & Hj' & [Hc _] & _).
    rewrite (sim_reserved _ _ Hsiml). unfold job_core in Hc. injection Hc as ???????? Hep ?.
    rewrite Hep. by eapply history_epochs.
  - split; cbn [failed mem log lastLSN]; [done| |by exists a'| |done|].
    + exists mk. split; [done|]. by eapply mem_sim_recover.
    + intros i e Hi Ht. apply lookup_lt_Some in Hi. rewrite length_take in Hi. lia.
    + apply Forall_take, (lg_codec _ _ _ Hlg).
Qed.
End Durability.
