(* ===== verification/SnapshotSpec.v ===== *)
(** * SnapshotSpec: snapshots are faithful, and crashes do not tear them

    Loading what was captured gives back the memory; the directory invariant
    [dir_ok] (every snapshot in it is complete and is a prefix of the history,
    and one of them reaches the records the log still holds); every step of
    [Snapshot] keeps it, whatever call fails; and [OpenStore] recovers. *)
From S2P Require Import Prelude Job Heap Index Framing LogSpec Wal WalSpec Event Memory.
From S2P Require Import MemSpec Store Snapshot StoreSpec System Durability.

(** ** Loading what was captured *)

Definition loaded (js : list Job) : Mem := fold_left load_job js empty_mem.

Lemma loaded_snoc js j : loaded (js ++ [j]) = load_job (loaded js) j.
Proof. unfold loaded. by rewrite fold_left_app. Qed.

Lemma loaded_jobs js id j :
  (forall a b, a ∈ js -> b ∈ js -> ID a = ID b -> a = b) ->
  jobs (loaded js) !! id = Some j <-> j ∈ js /\ ID j = id.
Proof.
  revert id j. induction js as [|x js' IH] using rev_ind; intros id j Hu.
  { cbn. rewrite lookup_empty. split; [done|]. by intros [?%elem_of_nil _]. }
  rewrite loaded_snoc. cbn. rewrite lookup_insert.
  assert (IH' := IH id j). rewrite elem_of_app, list_elem_of_singleton.
  case_decide as E.
  - subst id. split; [intros [= <-]; tauto|]. intros [Hj Hid]. f_equal.
    apply Hu; [apply elem_of_app; right; by left|by rewrite elem_of_app, list_elem_of_singleton|done].
  - rewrite IH'.
    + split; [tauto|]. intros [[? | ->] ?]; [done|congruence].
    + intros a b Ha Hb. apply Hu; apply elem_of_app; by left.
Qed.

Lemma loaded_idem js k id :
  (forall a b, a ∈ js -> b ∈ js -> IdempotencyKey a <> "" -> IdempotencyKey b <> "" ->
     job_key a = job_key b -> a = b) ->
  idem (loaded js) !! k = Some id <->
  exists j, j ∈ js /\ IdempotencyKey j <> "" /\ k = job_key j /\ ID j = id.
Proof.
  revert k id. induction js as [|x js' IH] using rev_ind; intros k id Hu.
  { cbn. rewrite lookup_empty. split; [done|]. by intros (j & ?%elem_of_nil & _). }
  assert (IH' := IH k id). rewrite loaded_snoc. cbn.
  assert (Hold : (exists j, j ∈ js' /\ IdempotencyKey j <> "" /\ k = job_key j /\ ID j = id) ->
    exists j, j ∈ js' ++ [x] /\ IdempotencyKey j <> "" /\ k = job_key j /\ ID j = id).
  { intros (j & Hj & ?). exists j. split; [apply elem_of_app; by left|done]. }
  rewrite <- IH' in Hold by (intros a b Ha Hb; apply Hu; apply elem_of_app; by left).
  case_bool_decide as Ek.
  - split; [done|]. intros (j & [Hj|Hj%list_elem_of_singleton]%elem_of_app & Hk & ?); [|by subst].
    apply IH'; [intros a b Ha Hb; apply Hu; apply elem_of_app; by left|by exists j].
  - rewrite lookup_insert. change (idemKey (Queue x) (IdempotencyKey x)) with (job_key x).
    case_decide as E.
    + subst k. split.
      * intros [= <-]. exists x. split; [apply elem_of_app; right; by left|done].
      * intros (j & Hj & Hk & Heq & <-). do 2 f_equal.
        apply Hu; [apply elem_of_app; right; by left|done..].
    + split; [done|]. intros (j & [Hj|Hj%list_elem_of_singleton]%elem_of_app & Hk & Heq & ?).
      * apply IH'; [intros a b Ha Hb; apply Hu; apply elem_of_app; by left|by exists j].
      * subst. done.
Qed.

Lemma loaded_leased js id :
  id ∈ leased (loaded js) <-> exists j, j ∈ js /\ JState j = StateLeased /\ ID j = id.
Proof.
  revert id. induction js as [|x js' IH] using rev_ind; intros id.
  { cbn. split; [by intros ?%elem_of_empty|]. by intros (j & ?%elem_of_nil & _). }
  rewrite loaded_snoc. cbn.
  assert (Hs : (exists j, j ∈ js' ++ [x] /\ JState j = StateLeased /\ ID j = id) <->
    (JState x = StateLeased /\ ID x = id) \/ id ∈ leased (loaded js')).
  { rewrite IH. split.
    - intros (j & [Hj|Hj%list_elem_of_singleton]%elem_of_app & ?); [right; by exists j|].
      subst. by left.
    - intros [H|(j & Hj & H)].
      + exists x. split; [apply elem_of_app; right; by left|done].
      + exists j. split; [apply elem_of_app; by left|done]. }
  rewrite Hs. case_bool_decide as E.
  - rewrite elem_add. split; [intros [->|]|intros [[_ ->]|]]; tauto.
  - tauto.
Qed.

Section Capture.
Context {L : Type} {lops : LogOps L} {codec : EventCodec}.

(** A snapshot loses nothing. *)
Lemma load_capture (s : Store) : mem_wf (mem s) -> load_snapshot (capture s) = mem s.
Proof.
  intros Hwf. set (js := SnapJobs (capture s)).
  assert (Hin : forall j, j ∈ js <-> exists id, jobs (mem s) !! id = Some j).
  { intros j. unfold js. cbn. rewrite merge_sort_Permutation. apply elem_of_jobs. }
  assert (Hjs : forall id j, jobs (mem s) !! id = Some j <-> j ∈ js /\ ID j = id).
  { intros id j. rewrite Hin. split.
    - intros Hj. split; [by exists id|by apply (wf_keys _ Hwf)].
    - intros [[id' Hj] <-]. by rewrite (wf_keys _ Hwf _ _ Hj). }
  assert (Hids : forall a b, a ∈ js -> b ∈ js -> ID a = ID b -> a = b).
  { intros a b Ha Hb E. assert (Ha' := proj2 (Hjs (ID a) a) (conj Ha eq_refl)).
    assert (Hb' := proj2 (Hjs (ID b) b) (conj Hb eq_refl)). rewrite E in Ha'. congruence. }
  change (load_snapshot (capture s)) with
    (mkMem (jobs (loaded js)) (idem (loaded js)) (leased (loaded js)) (epochReservedUpTo (mem s))).
  assert (H1 : jobs (loaded js) = jobs (mem s)).
  { apply map_eq. intros id. apply option_eq. intros j. by rewrite loaded_jobs, Hjs. }
  assert (H2 : idem (loaded js) = idem (mem s)).
  { apply map_eq. intros k. apply option_eq. intros id. rewrite loaded_idem.
    - split.
      + intros (j & Hj & Hk & -> & <-). apply (wf_idem_complete _ Hwf); [by apply Hjs|done].
      + intros (j & Hj & Hk & ->)%(wf_idem_sound _ Hwf). exists j. by apply Hjs in Hj as [? ?].
    - intros a b Ha Hb Hka Hkb E. apply Hids; [done..|].
      pose proof (wf_idem_complete _ Hwf (ID a) a (proj2 (Hjs _ a) (conj Ha eq_refl)) Hka) as Ea.
      pose proof (wf_idem_complete _ Hwf (ID b) b (proj2 (Hjs _ b) (conj Hb eq_refl)) Hkb) as Eb.
      rewrite E in Ea. congruence. }
  assert (H3 : leased (loaded js) = leased (mem s)).
  { apply set_eq. intros id. rewrite loaded_leased, (wf_leased _ Hwf).
    split; intros (j & Hj); exists j; rewrite Hjs in *; tauto. }
  rewrite H1, H2, H3. by destruct (mem s).
Qed.
End Capture.

(** ** Names *)

Lemma strip_prefix_app p s : strip_prefix p (p ++ s) = Some s.
Proof.
  induction p as [|a p IH]; [by destruct s|].
  change (String a p ++ s)%string with (String a (p ++ s)). cbn. by rewrite Ascii.eqb_refl.
Qed.

Lemma parseSnapshot_name b : is_u64 b -> parseSnapshot (snapshotName b) = Some b.
Proof.
  intros Hb. unfold parseSnapshot, snapshotName. rewrite strip_prefix_app.
  cbn [mbind option_bind]. rewrite strip_suffix_app. by apply ParseUint_digits.
Qed.

Lemma strip_suffix_inv suffix s r : strip_suffix suffix s = Some r -> s = (r ++ suffix)%string.
Proof.
  revert r. induction s as [|c s IH]; intros r; cbn [strip_suffix];
    (match goal with |- context [String.eqb ?x suffix] =>
       destruct (String.eqb_spec x suffix) as [E|E] end; [by intros [= <-]|]); [done|].
  destruct (strip_suffix suffix s) as [r'|]; [|done]. intros [= <-].
  by rewrite (IH r' eq_refl).
Qed.

Lemma list_ascii_app a b :
  list_ascii_of_string (a ++ b) = list_ascii_of_string a ++ list_ascii_of_string b.
Proof.
  induction a as [|c a IH]; [done|].
  change (String c a ++ b)%string with (String c (a ++ b)). cbn. by rewrite IH.
Qed.

(** A file being written is not listed. *)
Lemma parseSnapshot_tmp b : parseSnapshot (tmpName (snapshotName b)) = None.
Proof.
  unfold parseSnapshot, tmpName. destruct (strip_prefix _ _) as [s|] eqn:Ep; [|done].
  assert (Hs : exists r, s = (r ++ ".tmp")%string).
  { unfold snapshotName in Ep. revert Ep.
    generalize (dec_digits 20 b ++ snapshotSuffix)%string. intros x.
    unfold snapshotPrefix. cbn. intros [= <-]. by eexists. }
  destruct Hs as [r ->]. cbn [mbind option_bind].
  destruct (strip_suffix _ _) as [r'|] eqn:Es; [|done]. apply strip_suffix_inv in Es.
  apply (f_equal (fun s => last (list_ascii_of_string s))) in Es.
  rewrite !list_ascii_app in Es. unfold snapshotSuffix in Es. cbn [list_ascii_of_string] in Es.
  rewrite !last_app in Es. discriminate.
Qed.

(** ** What a directory lists *)

Lemma elem_snapshots es name k :
  (name, k) ∈ snapshots_in es <-> is_Some (es !! name) /\ parseSnapshot name = Some k.
Proof.
  unfold snapshots_in. rewrite merge_sort_Permutation, list_elem_of_omap. split.
  - intros (name' & Hin & H). destruct (parseSnapshot name') as [k'|] eqn:E; [|discriminate H].
    cbn in H. injection H as -> ->. split; [|done].
    apply list_elem_of_fmap in Hin as ([n' f] & -> & Hin).
    apply elem_of_map_to_list in Hin. by exists f.
  - intros [[f Hf] Hk]. exists name. rewrite Hk. split; [|done].
    apply list_elem_of_fmap. exists (name, f). by rewrite elem_of_map_to_list.
Qed.

#[export] Instance lsn_le_trans : Transitive lsn_le.
Proof. intros a b c. unfold lsn_le. lia. Qed.
#[export] Instance lsn_le_total : Total lsn_le.
Proof. intros a b. unfold lsn_le. lia. Qed.

Lemma snapshots_sorted es : StronglySorted lsn_le (snapshots_in es).
Proof. apply (StronglySorted_merge_sort lsn_le). Qed.

Lemma omap_names_nodup (f : string -> option N) (l : list string) :
  NoDup l -> NoDup (map fst (omap (fun name => (fun k => (name, k)) <$> f name) l)).
Proof.
  induction 1 as [|x l Hx Hl IH]; [constructor|]. cbn.
  destruct (f x) as [k|]; cbn; [|exact IH]. constructor; [|exact IH].
  intros Hin. apply list_elem_of_fmap in Hin as ([n k'] & E & Hin). cbn in E. subst n.
  apply list_elem_of_omap in Hin as (y & Hy & E). destruct (f y); [|discriminate E].
  cbn in E. injection E as E _. by subst.
Qed.

Lemma snapshots_nodup es : NoDup (map fst (snapshots_in es)).
Proof.
  unfold snapshots_in. erewrite Permutation_map by apply merge_sort_Permutation.
  apply omap_names_nodup, NoDup_fst_map_to_list.
Qed.

(** A file being written has a name of its own. *)
Lemma name_not_tmp a b : snapshotName a <> tmpName (snapshotName b).
Proof.
  intros E. apply (f_equal (fun s => last (list_ascii_of_string s))) in E.
  unfold tmpName, snapshotName, snapshotSuffix in E.
  rewrite !list_ascii_app in E. cbn [list_ascii_of_string] in E. rewrite !last_app in E.
  discriminate.
Qed.

(** ** The invariant of the directory *)

Section Directory.
Context {L : Type} {lops : LogOps L} {laws : LogLaws L}.
Context {codec : EventCodec} {claws : CodecLaws}.
Context {scodec : SnapCodec} {sclaws : SnapCodecLaws}.
Implicit Types (s : Store) (hist : list event) (d : SnapDir) (es : gmap string File) (lim : nat -> nat).

(** A complete file with a snapshot of the first [k] events, as good as theirs
    when [n] are durable. *)
Definition good_file hist (n : nat) (k : N) (f : File) : Prop :=
  f_synced f = length (f_data f) /\
  exists sn, decodeSnapshot (f_data f) = Some sn /\ SnapLastLSN sn = k /\
    snapshot_ok (N.to_nat k) hist n (load_snapshot sn).

(** Whatever is listed is good; a snapshot of the first [k] events needs no
    more than the first [lim k] of them to be durable. *)
Definition good_entries hist lim es : Prop :=
  forall name f k, es !! name = Some f -> parseSnapshot name = Some k ->
    name = snapshotName k /\ (N.to_nat k <= lim (N.to_nat k))%nat /\ good_file hist (lim (N.to_nat k)) k f.

(** All of them need the first [n] events. *)
Definition always (n : nat) : nat -> nat := fun _ => n.

(** No snapshot listed is newer than [K]. *)
Definition listed_upto (K : nat) es : Prop :=
  forall name f k, es !! name = Some f -> parseSnapshot name = Some k -> (N.to_nat k <= K)%nat.

Definition present (base : nat) es : Prop := is_Some (es !! snapshotName (N.of_nat base)).

(** The snapshot of the first [base] events is there, crash or not. *)
Record dir_ok hist lim (base : nat) d : Prop := {
  dir_now : good_entries hist lim (entries_now d);
  dir_disk : good_entries hist lim (entries_disk d);
  dir_anchor : base = 0%nat \/ (present base (entries_now d) /\ present base (entries_disk d))
}.

Lemma snapshot_ok_change base h1 h2 n n' snap :
  take n h1 = take n h2 -> (n <= n')%nat -> snapshot_ok base h1 n snap -> snapshot_ok base h2 n' snap.
Proof.
  intros Ht Hn (c & r & m & Hc & Happ & Hwf & Hm & Hsim). exists c, r, m.
  assert (Hpre : forall x, (x <= n)%nat -> take x h1 = take x h2).
  { intros x Hx. replace x with (Nat.min x n) by lia. by rewrite <- !firstn_firstn, Ht. }
  split; [lia|]. rewrite <- Hpre by lia. split; [|done].
  replace (take c (drop base h2)) with (drop base (take (base + c) h2))
    by (rewrite skipn_firstn_comm; f_equal; lia).
  rewrite <- Hpre by lia. rewrite skipn_firstn_comm. by replace (base + c - base)%nat with c by lia.
Qed.

(** What is listed needs no more of the one history than there is of it in the
    other. *)
Definition carried (h1 h2 : list event) lim lim' es : Prop :=
  forall name k, is_Some (es !! name) -> parseSnapshot name = Some k ->
    take (lim (N.to_nat k)) h1 = take (lim (N.to_nat k)) h2 /\ (lim (N.to_nat k) <= lim' (N.to_nat k))%nat.

Lemma good_change h1 h2 lim lim' es :
  carried h1 h2 lim lim' es -> good_entries h1 lim es -> good_entries h2 lim' es.
Proof.
  intros Hc Hg name f k Hf Hk. destruct (Hg name f k Hf Hk) as (-> & Hkn & Hs & sn & Hd & Hl & Hok).
  destruct (Hc _ k (ex_intro _ f Hf) Hk) as [Ht Hn].
  split; [done|]. split; [lia|]. split; [done|]. exists sn. split; [done|]. split; [done|].
  by eapply snapshot_ok_change.
Qed.

Lemma dir_ok_change h1 h2 lim lim' base d :
  carried h1 h2 lim lim' (entries_now d) -> carried h1 h2 lim lim' (entries_disk d) ->
  dir_ok h1 lim base d -> dir_ok h2 lim' base d.
Proof. intros Hc Hc' [H1 H2 H3]. split; [by eapply good_change..|done]. Qed.

Lemma dir_ok_always h1 h2 n n' base d :
  take n h1 = take n h2 -> (n <= n')%nat -> dir_ok h1 (always n) base d -> dir_ok h2 (always n') base d.
Proof. intros Ht Hn. by apply dir_ok_change. Qed.

(** Files that are not listed do not matter. *)
Lemma good_unlisted hist lim es es' path :
  parseSnapshot path = None -> good_entries hist lim es ->
  (forall name, name <> path -> es' !! name = es !! name) -> good_entries hist lim es'.
Proof.
  intros Hp Hg Hsame name f k Hf Hk. apply (Hg name f k); [|done].
  rewrite <- Hsame; [done|]. intros ->. congruence.
Qed.

(** *** Crashes *)

Lemma survives_good hist n k f f' : good_file hist n k f -> crash_file f f' -> good_file hist n k f'.
Proof.
  intros [Hs Hg] (m & Hm & ->). assert (m = length (f_data f)) as -> by lia.
  split; cbn; rewrite firstn_all; [done|exact Hg].
Qed.

Lemma dir_crash_ok hist lim base d d' :
  dir_ok hist lim base d -> dir_crash d d' -> dir_ok hist lim base d'.
Proof.
  intros [H1 H2 H3] [Hd Hs].
  assert (Hg : good_entries hist lim (entries_now d')).
  { intros name f' k Hf' Hk.
    assert (H : exists f, crash_file f f' /\
      name = snapshotName k /\ (N.to_nat k <= lim (N.to_nat k))%nat /\ good_file hist (lim (N.to_nat k)) k f).
    { destruct (Hs name) as [Hc|Hc]; rewrite Hf' in Hc.
      - destruct (entries_now d !! name) as [f|] eqn:Ef; [|done]. exists f. split; [done|].
        by apply (H1 name f k).
      - destruct (entries_disk d !! name) as [f|] eqn:Ef; [|done]. exists f. split; [done|].
        by apply (H2 name f k). }
    destruct H as (f & Hc & Hn & Hk' & Hgf). split; [done|]. split; [done|].
    by apply (survives_good hist _ k f). }
  split; [done|by rewrite Hd|].
  destruct H3 as [->|[[f1 E1] [f2 E2]]]; [by left|right]. rewrite Hd. unfold present.
  assert (is_Some (entries_now d' !! snapshotName (N.of_nat base))); [|done].
  destruct (entries_now d' !! snapshotName (N.of_nat base)) eqn:E; [done|].
  destruct (Hs (snapshotName (N.of_nat base))) as [Hc|Hc]; rewrite E in Hc;
    by rewrite ?E1, ?E2 in Hc.
Qed.

(** *** Loading *)

Lemma loadLatestSnapshot_ok hist lim base d :
  dir_ok hist lim base d -> calls d = [] -> snapshot_ok 0 hist (lim 0%nat) empty_mem ->
  is_u64 (N.of_nat base) -> entries_disk d = entries_now d ->
  exists k m, loadLatestSnapshot d = (inr (m, N.of_nat k), d) /\
    (base <= k <= lim k)%nat /\ snapshot_ok k hist (lim k) m /\ dir_ok hist lim k d /\
    (k = 0%nat \/ exists name, is_Some (entries_now d !! name) /\ parseSnapshot name = Some (N.of_nat k)).
Proof.
  intros Hok Hc H0 Hu Hsame. destruct d as [es ds cs]. cbn in Hc, Hsame. subst cs ds.
  pose proof Hok as [Hg _ Ha]. cbn [entries_now entries_disk] in *.
  assert (Hload : loadLatestSnapshot (mkSnapDir es es []) =
    load_first (rev (map fst (snapshots_in es))) (mkSnapDir es es [])) by done.
  pose proof (elem_snapshots es) as Hel. pose proof (snapshots_sorted es) as Hsort.
  rewrite Hload. clear Hload.
  destruct (snapshots_in es) as [|[name k] l _] using rev_ind.
  - exists 0%nat, empty_mem.
    assert (base = 0%nat) as ->.
    { destruct Ha as [?|[Hp _]]; [done|exfalso].
      apply (not_elem_of_nil (snapshotName (N.of_nat base), N.of_nat base)), Hel.
      split; [done|]. by apply parseSnapshot_name. }
    split; [done|]. split; [lia|]. split; [done|]. split; [done|by left].
  - destruct (proj1 (Hel name k)) as [[f Hf] Hk]; [apply elem_of_app; right; by left|].
    destruct (Hg name f k Hf Hk) as (-> & Hkn & Hsy & sn & Hd & Hl & Hsn).
    exists (N.to_nat k), (load_snapshot sn).
    assert (Hbk : (base <= N.to_nat k)%nat).
    { destruct Ha as [?|[Hp _]]; [lia|].
      assert (Hin : (snapshotName (N.of_nat base), N.of_nat base) ∈ l ++ [(snapshotName k, k)]).
      { apply Hel. split; [done|]. by apply parseSnapshot_name. }
      apply elem_of_app in Hin as [Hin|Hin%list_elem_of_singleton]; [|injection Hin; lia].
      apply StronglySorted_app in Hsort as (Hle & _ & _).
      specialize (Hle _ (snapshotName k, k) Hin). unfold lsn_le in Hle. cbn in Hle.
      specialize (Hle ltac:(by left)). lia. }
    rewrite map_app, rev_app_distr. cbn [map rev app fst load_first].
    split; [|split; [lia|split; [done|split; [|right; exists (snapshotName k); rewrite N2Nat.id, Hf; by split; [eexists|]]]]].
    + unfold bind, dir_syscall, gets, modify, ret. cbn. rewrite Hf, Hd. cbn.
      by rewrite N2Nat.id, Hl.
    + destruct Hok as [H1 H2 _]. split; [done..|]. right. unfold present. cbn.
      rewrite N2Nat.id, Hf. by split; eexists.
Qed.

(** *** System calls *)

Lemma wp_dir_syscall (Q : snapError log_err + outcome -> SnapDir -> Prop) d :
  (forall o cs, Q (inr o) (mkSnapDir (entries_now d) (entries_disk d) cs)) -> wp dir_syscall Q d.
Proof. intros H. unfold dir_syscall. wp_auto. apply H. Qed.

Lemma wp_dir_call what (Q : snapError log_err + unit -> SnapDir -> Prop) d :
  (forall r cs, Q r (mkSnapDir (entries_now d) (entries_disk d) cs)) -> wp (dir_call what) Q d.
Proof.
  intros H. unfold dir_call. wp_step. apply wp_dir_syscall. intros [|n] cs; cbn; wp_step; apply H.
Qed.

(** The file is written or it is not; no other name changes. *)
Lemma writeFileSync_spec path data d :
  wp (writeFileSync path data) (fun (r : snapError log_err + unit) d' =>
    entries_disk d' = entries_disk d /\
    (forall name, name <> path -> entries_now d' !! name = entries_now d !! name) /\
    (r = inr tt -> entries_now d' !! path = Some (mkFile data (length data)))) d.
Proof.
  unfold writeFileSync, with_entries. wp_step.
  apply wp_dir_call. intros [err|[]] cs; [done|]. wp_step. wp_step. wp_step.
  apply wp_dir_syscall. intros [|n] cs1; cbn beta iota.
  - wp_step. wp_step. wp_step. wp_step. apply wp_dir_call.
    intros [err|[]] cs2; cbn beta iota.
    + wp_step. apply wp_dir_syscall. intros o cs3. wp_step. split; [done|]. split; [|done].
      intros name Hn. cbn [entries_now]. by rewrite lookup_alter_ne, lookup_insert_ne.
    + wp_step. wp_step. apply wp_dir_call. intros r cs4. cbn [entries_now entries_disk].
      split; [done|]. split.
      * intros name Hn. by rewrite !lookup_alter_ne, lookup_insert_ne.
      * intros _. by rewrite !lookup_alter_eq, lookup_insert_eq.
  - wp_step. wp_step. wp_step. apply wp_dir_syscall. intros o cs2. wp_step.
    split; [done|]. split; [|done]. intros name Hn. cbn [entries_now].
    by rewrite lookup_alter_ne, lookup_insert_ne.
Qed.

Lemma rename_spec old new d :
  wp (rename old new) (fun (r : snapError log_err + unit) d' =>
    entries_disk d' = entries_disk d /\
    match r with
    | inl _ => entries_now d' = entries_now d
    | inr _ => exists f, entries_now d !! old = Some f /\
                 entries_now d' = <[new := f]> (delete old (entries_now d))
    end) d.
Proof.
  unfold rename, with_entries. wp_step. apply wp_dir_call. intros [err|[]] cs; [done|].
  do 2 wp_step. cbn. destruct (entries_now d !! old) as [f|] eqn:E; wp_step; [|done].
  split; [done|]. by exists f.
Qed.

Lemma syncSnapDir_spec d :
  wp syncSnapDir (fun (r : snapError log_err + unit) d' =>
    entries_now d' = entries_now d /\
    entries_disk d' = match r with inl _ => entries_disk d | inr _ => entries_now d end) d.
Proof.
  unfold syncSnapDir. wp_step. apply wp_dir_call. intros [err|[]] cs; [done|].
  do 2 wp_step. apply wp_dir_call. intros [err|[]] cs1; cbn beta iota.
  - wp_step. apply wp_dir_syscall. intros o cs2. by wp_step.
  - do 3 wp_step. apply wp_dir_syscall. intros o cs2. by wp_step.
Qed.

(** *** Writing a snapshot *)

(** Whatever call fails, the directory stays good; once all have worked, the
    new snapshot is the one to rely on. *)
Lemma writeSnapshot_ok hist lim base d k data sn :
  dir_ok hist lim base d -> (N.to_nat k <= lim (N.to_nat k))%nat -> is_u64 k ->
  decodeSnapshot data = Some sn -> SnapLastLSN sn = k ->
  snapshot_ok (N.to_nat k) hist (lim (N.to_nat k)) (load_snapshot sn) ->
  wp (writeSnapshot k data) (fun (r : snapError log_err + unit) d' =>
    dir_ok hist lim base d' /\
    (r = inr tt -> dir_ok hist lim (N.to_nat k) d' /\
      (listed_upto (N.to_nat k) (entries_now d) -> listed_upto (N.to_nat k) (entries_now d')))) d.
Proof.
  intros [H1 H2 H3] Hkn Hu Hdec Hlsn Hsn. unfold writeSnapshot. cbv zeta.
  set (tmp := tmpName (snapshotName k)).
  assert (Htmp : parseSnapshot tmp = None) by apply parseSnapshot_tmp.
  wp_step. eapply wp_mono; [apply writeFileSync_spec|].
  intros r d1 (Hd1 & Hn1 & Hr1).
  assert (Hg1 : good_entries hist lim (entries_now d1)) by 
    by exact (good_unlisted hist lim _ _ tmp Htmp H1 Hn1).
  assert (Hok1 : dir_ok hist lim base d1).
  { split; [done|by rewrite Hd1|]. destruct H3 as [?|[Hp Hp']]; [by left|right].
    unfold present. rewrite Hn1 by apply name_not_tmp. by rewrite Hd1. }
  destruct r as [err|[]]; [done|]. specialize (Hr1 eq_refl).
  wp_step. eapply wp_mono; [apply rename_spec|]. intros r d2 [Hd2 Hr2].
  destruct r as [err|[]]; cbn beta iota in Hr2.
  { split; [|done]. destruct Hok1. split; by rewrite ?Hr2, ?Hd2. }
  destruct Hr2 as (f & Hf & Hr2). assert (f = mkFile data (length data)) as -> by congruence.
  assert (Hg2 : good_entries hist lim (entries_now d2)).
  { intros name f' k' Hf' Hk'. rewrite Hr2, lookup_insert in Hf'. case_decide as E.
    - subst name. injection Hf' as <-. rewrite parseSnapshot_name in Hk' by done.
      injection Hk' as <-. split; [done|]. split; [done|]. split; [done|]. by exists sn.
    - apply lookup_delete_Some in Hf' as [_ Hf']. by apply (Hg1 name f' k'). }
  assert (Hup : listed_upto (N.to_nat k) (entries_now d) -> listed_upto (N.to_nat k) (entries_now d2)).
  { intros Hup name f' k' Hf' Hk'. rewrite Hr2, lookup_insert in Hf'. case_decide as E.
    - subst name. rewrite parseSnapshot_name in Hk' by done. by injection Hk' as <-.
    - apply lookup_delete_Some in Hf' as [Hne Hf']. rewrite Hn1 in Hf' by (intros ->; congruence).
      by apply (Hup name f'). }
  assert (Hnew : is_Some (entries_now d2 !! snapshotName k)) by (rewrite Hr2, lookup_insert_eq; by eexists).
  assert (Hold : forall name, is_Some (entries_now d1 !! name) -> name <> tmp ->
    is_Some (entries_now d2 !! name)).
  { intros name Hs Hne. rewrite Hr2, lookup_insert. case_decide; [by eexists|].
    by rewrite lookup_delete_ne. }
  assert (Hok2 : dir_ok hist lim base d2).
  { destruct Hok1 as [_ Hdk Ha]. split; [done|by rewrite Hd2|].
    destruct Ha as [?|[Hp Hp']]; [by left|right]. unfold present. rewrite Hd2.
    split; [|done]. apply Hold; [done|apply name_not_tmp]. }
  eapply wp_mono; [apply syncSnapDir_spec|]. intros r d3 [Hn3 Hd3].
  destruct Hok2 as [_ Hdk Ha]. destruct r as [err|[]].
  - split; [|done]. split; by rewrite ?Hn3, ?Hd3.
  - unfold present in *. split; [|intros _; split; [|by rewrite Hn3]];
      (split; [by rewrite Hn3|by rewrite Hd3|]); unfold present; rewrite Hn3, Hd3.
    + destruct Ha as [?|[Hp _]]; [by left|by right].
    + right. by rewrite N2Nat.id.
Qed.

(** *** Pruning *)

Lemma prune_loop_spec names keep d :
  keep ∉ names ->
  wp (prune_loop names) (fun (_ : snapError log_err + unit) d' =>
    entries_disk d' = entries_disk d /\
    entries_now d' !! keep = entries_now d !! keep /\
    forall name f, entries_now d' !! name = Some f -> entries_now d !! name = Some f) d.
Proof.
  revert d. induction names as [|x names IH]; intros d Hk; cbn [prune_loop]; [by wp_step|].
  apply not_elem_of_cons in Hk as [Hne Hk]. do 3 wp_step.
  destruct (entries_now d !! x) as [f|] eqn:E.
  - wp_step. apply wp_dir_call. intros [err|[]] cs; [done|]. unfold with_entries. wp_step.
    eapply wp_mono; [by apply IH|]. cbn. intros r d' (H1 & H2 & H3).
    split; [done|]. split; [by rewrite H2, lookup_delete_ne|].
    intros name f' H%H3. by apply lookup_delete_Some in H as [_ H].
  - wp_step. by apply IH.
Qed.

(** The newest snapshot is never pruned. *)
Lemma newest_kept hist lim K es :
  good_entries hist lim es -> listed_upto K es -> present K es -> is_u64 (N.of_nat K) ->
  snapshotName (N.of_nat K) ∉
    take (length (snapshots_in es) - snapshotsKept) (map fst (snapshots_in es)).
Proof.
  intros Hg Hup Hp Hu Hin. set (c := N.of_nat K) in *.
  pose proof (elem_snapshots es) as Hel. pose proof (snapshots_sorted es) as Hs.
  pose proof (snapshots_nodup es) as Hnd. set (ls := snapshots_in es) in *.
  set (m := (length ls - snapshotsKept)%nat) in *.
  rewrite firstn_map in Hin. apply list_elem_of_fmap in Hin as ([nm k] & E & Hin).
  cbn in E. subst nm. rewrite <- (take_drop m ls) in Hs, Hnd, Hel.
  destruct (proj1 (Hel (snapshotName c) k)) as [_ Hk]; [apply elem_of_app; by left|].
  rewrite parseSnapshot_name in Hk by done. injection Hk as <-.
  destruct (drop m ls) as [|[name' k'] rest] eqn:Ed.
  { apply (f_equal length) in Ed. rewrite length_drop in Ed. cbn in Ed.
    assert (length ls = 0%nat) by (unfold m, snapshotsKept in *; lia).
    destruct ls; [|done]. by rewrite take_nil in Hin; apply elem_of_nil in Hin. }
  destruct (proj1 (Hel name' k')) as [[f Hf] Hk']; [apply elem_of_app; right; by left|].
  destruct (Hg name' f k' Hf Hk') as (-> & _). specialize (Hup _ f k' Hf Hk') as Hkn.
  apply StronglySorted_app in Hs as (Hle & _ & _).
  specialize (Hle _ (snapshotName k', k') Hin ltac:(by left)). unfold lsn_le in Hle. cbn in Hle.
  assert (k' = c) as -> by lia.
  rewrite map_app in Hnd. apply NoDup_app in Hnd as (_ & Hnd & _).
  apply (Hnd (snapshotName c)); [|by left].
  apply list_elem_of_fmap. by exists (snapshotName c, c).
Qed.

Lemma pruneSnapshots_ok hist lim K d :
  dir_ok hist lim K d -> listed_upto K (entries_now d) -> is_u64 (N.of_nat K) ->
  wp pruneSnapshots (fun (_ : snapError log_err + unit) d' => dir_ok hist lim K d') d.
Proof.
  intros Hok Hup Hu. unfold pruneSnapshots, listSnapshots. wp_step. wp_step.
  apply wp_dir_call. intros [err|[]] cs; cbn beta iota; [by destruct Hok; split|].
  wp_step. cbn [entries_now]. destruct (_ <=? _)%nat; [wp_step; by destruct Hok; split|].
  rewrite length_map.
  assert (Hkeep : forall keep, keep ∉ take (length (snapshots_in (entries_now d)) - snapshotsKept)
      (map fst (snapshots_in (entries_now d))) ->
    (K = 0%nat \/ keep = snapshotName (N.of_nat K)) ->
    wp (prune_loop (take (length (snapshots_in (entries_now d)) - snapshotsKept)
      (map fst (snapshots_in (entries_now d)))))
      (fun (_ : snapError log_err + unit) d' => dir_ok hist lim K d')
      (mkSnapDir (entries_now d) (entries_disk d) cs)).
  { intros keep Hk Hn. eapply wp_mono; [by apply (prune_loop_spec _ keep)|].
    cbn. intros _ d' (Hd & Hk' & Hsub). destruct Hok as [H1 H2 H3]. split.
    - intros name f k Hf. by apply H1, Hsub.
    - by rewrite Hd.
    - destruct Hn as [->|Hn]; [by left|]. destruct H3 as [->|[Hp Hp']]; [by left|right].
      unfold present in *. rewrite Hd. subst keep. by rewrite Hk'. }
  pose proof Hok as [H1 _ [->|[Hp _]]].
  - (* nothing has to be kept: any name that is not in the list *)
    destruct (exist_fresh (list_to_set (take (length (snapshots_in (entries_now d)) - snapshotsKept)
      (map fst (snapshots_in (entries_now d)))) : gset string)) as [keep Hfresh].
    apply (Hkeep keep); [|by left]. by rewrite elem_of_list_to_set in Hfresh.
  - apply (Hkeep (snapshotName (N.of_nat K))); [|by right]. by apply (newest_kept hist lim).
Qed.

(** *** The log *)

(** A newer snapshot may stand for more of the log. *)
Lemma logged_rebase base base' hist n s :
  logged_upto base hist n s -> (base <= base' <= length hist)%nat -> logged_upto base' hist n s.
Proof.
  intros [H1 H2 (a & Hl & [Hf Hd Hr] & Hn) H4 H5 H6] Hb. split; [done..| |done|done|done].
  exists a. split; [done|]. split; [|done]. split; [done|lia|done].
Qed.

(** Dropping records that the snapshot stands for. *)
Lemma logged_truncate base hist n s :
  logged_upto base hist n s ->
  exists l', log_truncate_before (N.of_nat base + 1) (log s) = (inr tt, l') /\
    logged_upto base hist n (with_log l' s).
Proof.
  intros [H1 H2 (a & Hl & [Hf Hd Hr] & ->) H4 H5 H6].
  destruct (truncate_law (log s) a (N.of_nat base + 1) Hl) as (l' & a' & Hrun & Hl' & Htr).
  exists l'. split; [done|].
  destruct Htr as (j & Hj & Hlsn & ->). unfold durable_events, dropped in *.
  pose proof (represents_wf _ _ Hl) as [Hw1 Hw2 _].
  split; [done|done| |done|done|done].
  eexists. split; [exact Hl'|]. unfold durable_events, dropped. cbn [a_first a_recs a_durable].
  split; [|lia]. split; unfold dropped; cbn [a_first a_recs].
  - lia.
  - destruct Hlsn; lia.
  - replace (N.to_nat (a_first a + N.of_nat j - 1)) with (N.to_nat (a_first a - 1) + j)%nat by lia.
    rewrite <- drop_drop. by apply Forall2_drop.
Qed.

Lemma logged_length base hist n s : logged_upto base hist n s ->
  is_u64 (N.of_nat (length hist) + 1) /\ (base <= length hist)%nat /\ (n <= length hist)%nat.
Proof.
  intros [_ _ (a & Hl & Has & ->) _ _ _]. pose proof (represents_wf _ _ Hl) as Hw. split.
  - rewrite <- (logged_next base hist a Has). apply Hw.
  - split; [apply Has|]. by apply (logged_durable_le base hist a).
Qed.

(** ** Snapshot *)

(** Writing a snapshot out leaves the memory alone, and whatever call on the
    directory fails, the directory stays good: to the snapshots it had comes at
    most the new one. *)
Lemma write_out_ok base hist lim n K s d snap :
  logged_upto base hist n s -> dir_ok hist lim base d -> listed_upto K (entries_now d) ->
  (base <= K <= lim K)%nat -> (K <= length hist)%nat ->
  snap_encodable snap -> SnapLastLSN snap = N.of_nat K -> snapshot_ok K hist (lim K) (load_snapshot snap) ->
  wp (write_out snap) (fun (_ : snapError log_err + unit) sd => exists base' l',
    sd.1 = with_log l' s /\ logged_upto base' hist n sd.1 /\ dir_ok hist lim base' sd.2 /\
    (base <= base' <= K)%nat) (s, d).
Proof.
  intros Hlg Hok Hup HbK HKh Henc Hlast Hsn.
  destruct (logged_length _ _ _ _ Hlg) as (Hu & Hb & Hle).
  assert (Hun : is_u64 (N.of_nat K) /\ is_u64 (N.of_nat K + 1)) by (unfold is_u64 in *; lia).
  destruct (snap_roundtrip _ Henc) as (data & Hdata & Hdec).
  assert (Hlog0 : s = with_log (log s) s) by (by destruct s).
  unfold write_out. rewrite Hdata, Hlast. wp_step. unfold in_dir at 1.
  apply wp_zoom. cbn [fst snd]. eapply wp_mono.
  { apply (writeSnapshot_ok hist lim base d (N.of_nat K) data snap); rewrite ?Nat2N.id; try done; [lia|apply Hun]. }
  cbn beta. intros r d1 [Hok1 Hok1']. rewrite Nat2N.id in Hok1'.
  destruct r as [err|[]]; cbn beta iota.
  { exists base, (log s). rewrite <- Hlog0. split_and!; [done..|lia|lia]. }
  specialize (Hok1' eq_refl) as [Hok1' Hup1]. specialize (Hup1 Hup). rewrite u64_id by apply Hun.
  pose proof (logged_rebase base K hist n s Hlg ltac:(lia)) as Hlg1.
  destruct (logged_truncate K hist n s Hlg1) as (l' & Hrun & Hlg2).
  wp_step. unfold in_store. apply wp_zoom. unfold on_log. apply wp_zoom. cbn [fst snd].
  unfold wp at 1. rewrite Hrun. cbn [fst snd]. apply wp_zoom. cbn [fst snd].
  eapply wp_mono; [by apply (pruneSnapshots_ok hist lim K); [| |apply Hun]|].
  intros r d2 Hok2. destruct r; exists K, l'; (split; [done|]; split; [done|]; split; [done|lia]).
Qed.

Lemma dir_ok_upto hist n base d K : dir_ok hist (always n) base d -> (n <= K)%nat -> listed_upto K (entries_now d).
Proof. intros [H1 _ _] HK name f k Hf Hk. destruct (H1 name f k Hf Hk) as (_ & Hle & _). unfold always in Hle. lia. Qed.

(** What [Snapshot] captures stands for the whole history. *)
Lemma capture_ok base hist n s :
  store_wf s -> logged_upto base hist n s -> snapshot_ok (length hist) hist (length hist) (load_snapshot (capture s)).
Proof.
  intros Hwf Hlg. rewrite load_capture by apply Hwf. destruct (lg_history _ _ _ _ Hlg) as (m & Hm & Hsim).
  apply (snapshot_ok_exact (length hist) hist _ _ m); [done|apply Hwf|by rewrite firstn_all|done].
Qed.

(** [Snapshot] at any moment: the log may not be flushed. *)
Lemma Snapshot_upto base hist lim n s d :
  store_wf s -> logged_upto base hist n s -> dir_ok hist lim base d -> listed_upto (length hist) (entries_now d) ->
  (length hist <= lim (length hist))%nat -> snap_encodable (capture s) ->
  wp Snapshot (fun (_ : snapError log_err + unit) sd => exists base' l',
    sd.1 = with_log l' s /\ logged_upto base' hist n sd.1 /\ dir_ok hist lim base' sd.2) (s, d).
Proof.
  intros Hwf Hlg Hok Hup Hlim Henc. destruct (logged_length _ _ _ _ Hlg) as (_ & Hb & _).
  pose proof (capture_ok _ _ _ _ Hwf Hlg) as Hsn.
  unfold Snapshot. wp_step. wp_step. cbn [fst]. eapply wp_mono.
  - apply (write_out_ok base hist lim n (length hist)); try done.
    + apply (lg_last _ _ _ _ Hlg).
    + by apply (snapshot_ok_change _ hist _ (length hist)).
  - cbn beta. intros r sd (base' & l' & H1 & H2 & H3 & _). by exists base', l'.
Qed.

(** On a store whose log is flushed, nothing has to come after the snapshot. *)
Lemma Snapshot_ok base hist s d :
  store_wf s -> logged_upto base hist (length hist) s -> dir_ok hist (always (length hist)) base d ->
  snap_encodable (capture s) ->
  wp Snapshot (fun (_ : snapError log_err + unit) sd => exists base' l',
    sd.1 = with_log l' s /\ logged_upto base' hist (length hist) sd.1 /\
    dir_ok hist (always (length hist)) base' sd.2) (s, d).
Proof. intros Hwf Hlg Hok Henc. apply (Snapshot_upto base); try done. by eapply dir_ok_upto. Qed.

(** ** Opening after a crash *)

Lemma empty_snapshot_ok hist n : snapshot_ok 0 hist n empty_mem.
Proof.
  apply (snapshot_ok_exact 0 hist n _ empty_mem); [lia|apply empty_mem_wf|constructor|apply mem_sim_refl].
Qed.

(** [OpenStore] is [Open] with the snapshot it loads. *)
Lemma OpenStore_Open cfg now (l : L) d m k s l' :
  calls d = [] -> loadLatestSnapshot d = (inr (m, k), d) ->
  Open cfg m k now l = (inr s, l') -> OpenStore cfg now (l, d) = (inr s, (l', d)).
Proof.
  intros Hc Hload Hopen. unfold Open, bind in Hopen.
  destruct (open_log (config_defaults cfg) l) as [[e|[]] l1] eqn:El; [done|].
  destruct d as [es ds cs]. cbn in Hc. subst cs. unfold OpenStore. cbv zeta.
  rewrite (bind_ok _ _ _ tt (l, mkSnapDir es ds [])) by done.
  erewrite bind_ok; [|unfold zoom; cbn [fst snd]; rewrite El; reflexivity].
  erewrite bind_ok; [|unfold catch, zoom; cbn [fst snd]; rewrite Hload; reflexivity].
  unfold zoom. cbn [fst snd]. by rewrite Hopen.
Qed.

(** Kill a store at any moment: it opens again from a snapshot and the log, to
    a prefix of its history that has everything durable, as long as what was
    left of the log has what the snapshots that were left need. *)
Lemma OpenStore_crash base hist n lim s d l1 d1 cfg now :
  logged_upto base hist n s -> dir_ok hist lim base d -> (lim 0 <= n)%nat ->
  log_crash (log s) l1 -> dir_crash d d1 -> calls d1 = [] ->
  (forall k, (n <= k <= length hist)%nat -> log_holds (CfgWALSegmentSize (config_defaults cfg)) l1 k ->
     forall name b, is_Some (entries_now d1 !! name) -> parseSnapshot name = Some b -> (lim (N.to_nat b) <= k)%nat) ->
  is_u64 (epochReservedUpTo (mem s) + 1) ->
  exists k base' live m s' l', (n <= k <= length hist)%nat /\ (base' <= k)%nat /\
    OpenStore cfg now (l1, d1) = (inr s', (l', d1)) /\
    history m (take k hist) /\ mem_sim live m /\ mem_wf live /\
    mem s' = recoverLeasedLocked now live /\ store_wf s' /\
    logged_upto base' (take k hist) k s' /\ dir_ok (take k hist) (always k) base' d1 /\
    nextEpoch s' = (epochReservedUpTo (mem s) + 1)%N /\
    epochReservedUpTo (mem s') = epochReservedUpTo (mem s).
Proof.
  intros Hlg Hok Hlim0 Hcrash Hdcrash Hcalls Hkept Hu.
  destruct (logged_length _ _ _ _ Hlg) as (Hlen & Hb & Hn).
  pose proof (dir_crash_ok hist lim base d d1 Hok Hdcrash) as Hok1.
  destruct (loadLatestSnapshot_ok hist lim base d1 Hok1 Hcalls (empty_snapshot_ok hist _))
    as (b & m0 & Hload & Hb' & Hsn & Hok2 & Hlisted).
  { unfold is_u64 in *. lia. } { apply Hdcrash. }
  assert (Hin : forall k, (n <= k <= length hist)%nat ->
    log_holds (CfgWALSegmentSize (config_defaults cfg)) l1 k -> (lim b <= k)%nat).
  { intros k Hk Hh. destruct Hlisted as [->|(name & Hname & Hp)]; [lia|].
    specialize (Hkept k Hk Hh name _ Hname Hp). by rewrite Nat2N.id in Hkept. }
  destruct (log_reopens base hist n s l1 (CfgWALSegmentSize (config_defaults cfg)) Hlg Hcrash) as (k0 & Hk0 & Hh0).
  pose proof (Hin k0 Hk0 Hh0) as Hb0.
  pose proof (logged_rebase base b hist n s Hlg ltac:(lia)) as Hlg'.
  destruct (Open_crash_logged b hist n s l1 cfg m0 now Hlg' Hcrash) as
    (k & live & m & s' & l' & Hk & Hholds & Hopen & Hm & Hsim & Hwfl & Hmem & Hwf' & Hlg1 & Hne & Hre); [|done|].
  { intros k Hk Hh. by apply (snapshot_ok_change _ hist _ (lim b)); [|apply Hin|]. }
  exists k, b, live, m, s', l'. split; [done|]. split; [specialize (Hin k Hk Hholds); lia|].
  split; [by eapply OpenStore_Open|]. do 6 (split; [done|]). split; [|done].
  assert (Hc : carried hist (take k hist) lim (always k) (entries_now d1)).
  { intros name b' Hname Hp. pose proof (Hkept k Hk Hholds name b' Hname Hp) as Hle.
    unfold always. split; [|done]. rewrite firstn_firstn. f_equal. lia. }
  eapply dir_ok_change; [exact Hc| |exact Hok2]. by rewrite (proj1 Hdcrash).
Qed.
End Directory.
