(* ===== verification/Life.v ===== *)
(** * Life: runs of the broker through operations, snapshots and crashes

    [step]: one locked section or flush, a snapshot, or the death of the process
    followed by [OpenStore] on what its log and its snapshots left behind. The
    properties that hold along every run.

    A snapshot may be taken at any moment, as the broker does, and any of its
    calls on the directory may fail. It is about records that need not be
    flushed: a crash that loses records a snapshot on disk covers is not part of
    a run ([covered]); [SnapshotProps.snapshot_hides_acknowledged_submit] is
    what such a crash does. No call on the log fails in a run, nor one of a
    recovery. *)
From S2P Require Import Prelude Job Heap Index Framing LogSpec Wal Event Memory MemSpec.
From S2P Require Import Store Snapshot StoreSpec System Durability SnapshotSpec.

Section Life.
Context {L : Type} {lops : LogOps L} {laws : LogLaws L}.
Context {codec : EventCodec} {claws : CodecLaws}.
Context {scodec : SnapCodec} {sclaws : SnapCodecLaws}.
Implicit Types (s : Store) (d : SnapDir) (toks : list N).

(** The log holds the end of the history, a snapshot the beginning; [n] events
    are durable. *)
Record recorded (base : nat) (hist : list event) (n : nat) s d : Prop := {
  rec_log : logged_upto base hist n s;
  rec_dir : dir_ok hist (always n) base d;
  rec_base : (base <= n)%nat
}.

Definition healthy s d : Prop := store_wf s /\ exists base hist n, recorded base hist n s d.

(** How much of the history a snapshot of its first [k] events needs, while [n]
    are durable: those, and the first [k]. *)
Definition needs (hist : list event) (n k : nat) : nat := Nat.max n (Nat.min k (length hist)).

(** The same of a store whose snapshots may be ahead of what is durable. *)
Record spanned (base : nat) (hist : list event) (n : nat) s d : Prop := {
  sp_log : logged_upto base hist n s;
  sp_dir : dir_ok hist (needs hist n) base d
}.

Definition in_service s d : Prop := store_wf s /\ exists base hist n, spanned base hist n s d.

(** The token an operation hands out. *)
Definition granted (o : operation) s : list N :=
  match o with
  | OpLease queue workerID dur now =>
      match (Lease queue workerID dur now s).1 with
      | inr (Some j) => [Epoch j]
      | _ => []
      end
  | _ => []
  end.

Definition with_calls (cs : list outcome) d : SnapDir :=
  mkSnapDir (entries_now d) (entries_disk d) cs.

(** A flush, then a snapshot whose calls on the directory have the outcomes
    [cs]. *)
Definition flush_and_snapshot (cs : list outcome) s d : Store * SnapDir :=
  (Snapshot ((commitDurable s).2, with_calls cs d)).2.

(** What was left of the log reaches as far as every snapshot that was left. *)
Definition covered (cfg : Config) (l1 : L) (d1 : SnapDir) : Prop :=
  forall l2, log_open (CfgWALSegmentSize (config_defaults cfg)) l1 = (inr tt, l2) ->
    forall name k, is_Some (entries_now d1 !! name) -> parseSnapshot name = Some k -> (k <= log_last_lsn l2)%N.

Inductive step : Store -> SnapDir -> list N -> Store -> SnapDir -> Prop :=
  | step_op o s d :
      op_valid o s -> (forall e, may_record o s e -> codec_ok e) ->
      is_u64 (lastLSN s + N.of_nat (max_records o) + 1) ->
      step s d (granted o s) (run_op o s) d
  | step_snapshot cs s d :
      snap_encodable (capture s) ->
      step s d [] (Snapshot (s, with_calls cs d)).2.1 (Snapshot (s, with_calls cs d)).2.2
  | step_crash s d l1 d1 cfg now s' l' :
      log_crash (log s) l1 -> dir_crash d d1 -> covered cfg l1 d1 -> calls d1 = [] ->
      is_u64 (epochReservedUpTo (mem s) + 1) ->
      OpenStore cfg now (l1, d1) = (inr s', (l', d1)) -> step s d [] s' d1.

Inductive run : Store -> SnapDir -> list N -> Store -> SnapDir -> Prop :=
  | run_nil s d : run s d [] s d
  | run_step s d t1 s1 d1 t2 s2 d2 :
      step s d t1 s1 d1 -> run s1 d1 t2 s2 d2 -> run s d (t1 ++ t2) s2 d2.

(** ** Starting *)

Definition fresh_dir d : Prop := entries_now d = ∅ /\ entries_disk d = ∅ /\ calls d = [].

Lemma fresh_dir_ok hist lim d : fresh_dir d -> dir_ok hist lim 0 d.
Proof.
  intros (H1 & H2 & _). split; [..|by left]; intros name f k Hf; rewrite ?H1, ?H2 in Hf;
    by rewrite lookup_empty in Hf.
Qed.

Lemma Open_fresh_healthy l cfg now :
  log_fresh l ->
  exists s l', Open cfg empty_mem 0 now l = (inr s, l') /\ store_wf s /\
    logged_upto 0 [] 0 s /\ mem s = empty_mem /\ nextEpoch s = 1%N /\ lastLSN s = 0%N /\
    epochBlockSize s = CfgEpochBlockSize (config_defaults cfg).
Proof.
  intros Hf. set (cfg' := config_defaults cfg).
  destruct (fresh_law l (CfgWALSegmentSize cfg') Hf) as (l1 & Hopen & Hl1).
  destruct (replay_law l1 _ 1 replay_event (empty_mem, 0%N) Hl1) as (l2 & Hl2 & Hrun).
  cbn in Hrun. eexists _, l2. split.
  { unfold Open, recover. erewrite bind_ok; [|unfold open_log, zoom; fold cfg'; rewrite Hopen; reflexivity].
    change (u64 (0 + 1)) with 1%N. rewrite Hrun. reflexivity. }
  assert (Hm : recoverLeasedLocked now empty_mem = empty_mem).
  { unfold recoverLeasedLocked, empty_mem. cbn. by rewrite fmap_empty. }
  split; [|split; [|by rewrite Hm]].
  - apply recovered_Inv; [apply empty_mem_wf|]. intros id j Hj. cbn in Hj.
    by rewrite lookup_empty in Hj.
  - split; cbn [failed mem log lastLSN]; try done.
    + exists empty_mem. split; [constructor|]. rewrite Hm. apply mem_sim_refl.
    + eexists. split; [exact Hl2|]. split; [|done]. split; [cbn; lia|unfold dropped; cbn; lia|constructor].
Qed.

(** Opening a store in an empty directory. *)
Lemma OpenStore_fresh l d cfg now :
  log_fresh l -> fresh_dir d ->
  exists s l', OpenStore cfg now (l, d) = (inr s, (l', d)) /\ healthy s d.
Proof.
  intros Hf Hd. destruct (Open_fresh_healthy l cfg now Hf) as (s & l' & H & Hwf & Hlg & _).
  exists s, l'. split.
  - pose proof Hd as (H1 & H2 & H3). eapply OpenStore_Open; [done| |done].
    destruct d as [es ds cs]. cbn in *. by subst.
  - split; [done|]. exists 0%nat, [], 0%nat. split; [done|by apply fresh_dir_ok|done].
Qed.

(** ** Steps *)

Lemma room_of_last base hist n s k :
  logged_upto base hist n s -> is_u64 (lastLSN s + N.of_nat k + 1) -> log_room hist k.
Proof. intros Hlg. rewrite (lg_last _ _ _ _ Hlg). unfold log_room, is_u64. lia. Qed.

Lemma recorded_grows base hist n es n' s s' d :
  recorded base hist n s d -> logged_upto base (hist ++ es) n' s' -> (n <= n')%nat ->
  recorded base (hist ++ es) n' s' d.
Proof.
  intros [Hlg Hok Hb] Hlg' Hn. destruct (logged_length _ _ _ _ Hlg) as (_ & _ & Hle).
  split; [done| |lia]. eapply (dir_ok_always hist _ n); [by rewrite take_app_le|done..].
Qed.

Lemma op_recorded base hist n o s d :
  store_wf s -> recorded base hist n s d -> op_valid o s ->
  (forall e, may_record o s e -> codec_ok e) ->
  is_u64 (lastLSN s + N.of_nat (max_records o) + 1) ->
  exists es n', (n <= n')%nat /\ recorded base (hist ++ es) n' (run_op o s) d.
Proof.
  intros Hwf Hrec Hv Hok Hroom. pose proof Hrec as [Hlg _ _].
  destruct (run_op_logged base hist n o s Hwf Hlg Hv Hok (room_of_last _ _ _ _ _ Hlg Hroom))
    as (es & n' & Hn & Hlg' & _).
  exists es, n'. split; [done|]. by eapply recorded_grows.
Qed.

Lemma op_healthy o s d :
  healthy s d -> op_valid o s -> (forall e, may_record o s e -> codec_ok e) ->
  is_u64 (lastLSN s + N.of_nat (max_records o) + 1) -> healthy (run_op o s) d.
Proof.
  intros [Hwf (base & hist & n & Hrec)] Hv Hok Hroom. split; [by apply run_op_wf|].
  destruct (op_recorded base hist n o s d Hwf Hrec Hv Hok Hroom) as (es & n' & _ & H). eauto.
Qed.

Lemma commit_recorded base hist n s d :
  recorded base hist n s d ->
  exists l', commitDurable s = (inr tt, with_log l' s) /\
    recorded base hist (length hist) (with_log l' s) d.
Proof.
  intros [Hlg Hok Hb]. destruct (logged_length _ _ _ _ Hlg) as (_ & _ & Hle).
  destruct (logged_commit base hist n s Hlg) as (l' & Hrun & Hlg'). exists l'.
  split; [done|]. split; [done| |lia]. by eapply (dir_ok_always hist hist n).
Qed.

Lemma with_calls_ok hist lim base cs d : dir_ok hist lim base d -> dir_ok hist lim base (with_calls cs d).
Proof. by intros [H1 H2 H3]. Qed.

(** A snapshot loses nothing, whatever fails while it is taken. *)
Lemma snapshot_recorded base hist n cs s d :
  store_wf s -> recorded base hist n s d -> snap_encodable (capture s) ->
  let sd := flush_and_snapshot cs s d in
  (exists base', recorded base' hist (length hist) sd.1 sd.2) /\
  exists l', sd.1 = with_log l' s.
Proof.
  intros Hwf Hrec Henc sd. destruct (commit_recorded _ _ _ _ _ Hrec) as (l1 & Hc & [Hlg Hok _]).
  assert (H : wp Snapshot (fun (_ : snapError log_err + unit) sd => exists base' l',
    sd.1 = with_log l' (with_log l1 s) /\ logged_upto base' hist (length hist) sd.1 /\
    dir_ok hist (always (length hist)) base' sd.2) (with_log l1 s, with_calls cs d)).
  { apply (Snapshot_ok base hist); [done|done|by apply with_calls_ok|done]. }
  unfold wp in H. unfold sd, flush_and_snapshot. rewrite Hc. cbn [snd].
  destruct H as (base' & l' & E & Hlg' & Hok'). split; [|by exists l'].
  exists base'. split; [done|done|]. by destruct (logged_length _ _ _ _ Hlg') as (_ & ? & _).
Qed.

Lemma crash_recovers base hist n s d l1 d1 cfg now :
  recorded base hist n s d -> log_crash (log s) l1 -> dir_crash d d1 -> calls d1 = [] ->
  is_u64 (epochReservedUpTo (mem s) + 1) ->
  exists k base' live m s' l', (n <= k <= length hist)%nat /\
    OpenStore cfg now (l1, d1) = (inr s', (l', d1)) /\
    history m (take k hist) /\ mem_sim live m /\ mem_wf live /\
    mem s' = recoverLeasedLocked now live /\ store_wf s' /\
    recorded base' (take k hist) k s' d1 /\
    nextEpoch s' = (epochReservedUpTo (mem s) + 1)%N /\
    epochReservedUpTo (mem s') = epochReservedUpTo (mem s).
Proof.
  intros [Hlg Hok Hb] Hc Hdc Hcalls Hu.
  destruct (OpenStore_crash base hist n (always n) s d l1 d1 cfg now Hlg Hok ltac:(done) Hc Hdc Hcalls)
    as (k & base' & live & m & s' & l' & Hk & Hb' & Hopen & Hm & Hsim & Hwfl & Hmem & Hwf' &
        Hlg' & Hok' & Hn & Hr); [|done|].
  { intros. unfold always. lia. }
  exists k, base', live, m, s', l'. do 7 (split; [done|]). split; [by split|done].
Qed.

(** *** With snapshots ahead of what is durable *)

Lemma listed_within hist n base d :
  (n <= length hist)%nat -> dir_ok hist (needs hist n) base d ->
  listed_upto (length hist) (entries_now d) /\ listed_upto (length hist) (entries_disk d).
Proof.
  intros Hn [H1 H2 _]. unfold needs in *.
  split; intros name f k Hf Hk; [destruct (H1 name f k Hf Hk) as (_ & H & _)|destruct (H2 name f k Hf Hk) as (_ & H & _)]; lia.
Qed.

(** The history goes on. *)
Lemma needs_grows hist es n n' base d :
  (n <= length hist)%nat -> (n <= n')%nat ->
  dir_ok hist (needs hist n) base d -> dir_ok (hist ++ es) (needs (hist ++ es) n') base d.
Proof.
  intros Hle Hn Hok. destruct (listed_within hist n base d Hle Hok) as [H1 H2].
  assert (Hc : forall E, listed_upto (length hist) E ->
    carried hist (hist ++ es) (needs hist n) (needs (hist ++ es) n') E).
  { intros E HE name k [f Hf] Hk. specialize (HE name f k Hf Hk). unfold needs. rewrite length_app.
    split; [by rewrite take_app_le by lia|lia]. }
  by apply (dir_ok_change hist _ (needs hist n)); [apply Hc..|].
Qed.

Lemma recorded_spanned base hist n s d : recorded base hist n s d -> spanned base hist n s d.
Proof.
  intros [Hlg Hok _]. split; [done|]. apply (dir_ok_change hist hist (always n)); [..|done];
    intros name k _ _; unfold always, needs; (split; [done|lia]).
Qed.

Lemma healthy_in_service s d : healthy s d -> in_service s d.
Proof. intros [Hwf (base & hist & n & H%recorded_spanned)]. split; [done|]. by exists base, hist, n. Qed.

Lemma spanned_grows base hist n es n' s s' d :
  spanned base hist n s d -> logged_upto base (hist ++ es) n' s' -> (n <= n')%nat ->
  spanned base (hist ++ es) n' s' d.
Proof.
  intros [Hlg Hok] Hlg' Hn. destruct (logged_length _ _ _ _ Hlg) as (_ & _ & Hle).
  split; [done|by apply (needs_grows _ _ n)].
Qed.

Lemma op_spanned base hist n o s d :
  store_wf s -> spanned base hist n s d -> op_valid o s ->
  (forall e, may_record o s e -> codec_ok e) ->
  is_u64 (lastLSN s + N.of_nat (max_records o) + 1) ->
  exists es n', (n <= n')%nat /\ spanned base (hist ++ es) n' (run_op o s) d.
Proof.
  intros Hwf Hsp Hv Hok Hroom. pose proof Hsp as [Hlg _].
  destruct (run_op_logged base hist n o s Hwf Hlg Hv Hok (room_of_last _ _ _ _ _ Hlg Hroom))
    as (es & n' & Hn & Hlg' & _).
  exists es, n'. split; [done|]. by eapply spanned_grows.
Qed.

Lemma commit_spanned base hist n s d :
  spanned base hist n s d ->
  exists l', commitDurable s = (inr tt, with_log l' s) /\
    spanned base hist (length hist) (with_log l' s) d.
Proof.
  intros [Hlg Hok]. destruct (logged_length _ _ _ _ Hlg) as (_ & _ & Hle).
  destruct (logged_commit base hist n s Hlg) as (l' & Hrun & Hlg'). exists l'.
  split; [done|]. split; [done|]. rewrite <- (app_nil_r hist). apply (needs_grows _ _ n); [done| |done].
  by rewrite app_nil_r.
Qed.

Lemma snapshot_spanned base hist n cs s d :
  store_wf s -> spanned base hist n s d -> snap_encodable (capture s) ->
  let sd := (Snapshot (s, with_calls cs d)).2 in
  (exists base', spanned base' hist n sd.1 sd.2) /\ exists l', sd.1 = with_log l' s.
Proof.
  intros Hwf [Hlg Hok] Henc sd. destruct (logged_length _ _ _ _ Hlg) as (_ & _ & Hle).
  assert (H : wp Snapshot (fun (_ : snapError log_err + unit) sd => exists base' l',
    sd.1 = with_log l' s /\ logged_upto base' hist n sd.1 /\ dir_ok hist (needs hist n) base' sd.2)
    (s, with_calls cs d)).
  { apply (Snapshot_upto base); [done|done|by apply with_calls_ok| | |done].
    - cbn. by eapply listed_within.
    - unfold needs. lia. }
  unfold wp in H. destruct H as (base' & l' & E & Hlg' & Hok'). split; [by exists base'|by exists l'].
Qed.

Lemma crash_spanned base hist n s d l1 d1 cfg now :
  spanned base hist n s d -> log_crash (log s) l1 -> dir_crash d d1 -> covered cfg l1 d1 -> calls d1 = [] ->
  is_u64 (epochReservedUpTo (mem s) + 1) ->
  exists k base' live m s' l', (n <= k <= length hist)%nat /\
    OpenStore cfg now (l1, d1) = (inr s', (l', d1)) /\
    history m (take k hist) /\ mem_sim live m /\ mem_wf live /\
    mem s' = recoverLeasedLocked now live /\ store_wf s' /\
    recorded base' (take k hist) k s' d1 /\
    nextEpoch s' = (epochReservedUpTo (mem s) + 1)%N.
Proof.
  intros [Hlg Hok] Hc Hdc Hcov Hcalls Hu. destruct (logged_length _ _ _ _ Hlg) as (_ & _ & Hle).
  destruct (OpenStore_crash base hist n (needs hist n) s d l1 d1 cfg now Hlg Hok)
    as (k & base' & live & m & s' & l' & Hk & Hb' & Hopen & Hm & Hsim & Hwfl & Hmem & Hwf' &
        Hlg' & Hok' & Hn & Hr); [unfold needs; lia|done..| |done|].
  { intros k Hk Hh name b Hname Hp. pose proof Hh as (l2 & a & Ho & _).
    specialize (Hcov l2 Ho name b Hname Hp). rewrite (log_holds_last _ _ _ _ Ho Hh) in Hcov.
    unfold needs. lia. }
  exists k, base', live, m, s', l'. do 7 (split; [done|]). by split.
Qed.

(** A flush makes every crash a covered one, until the next record. *)
Lemma flushed_covered base hist s d l1 d1 cfg :
  spanned base hist (length hist) s d -> log_crash (log s) l1 -> dir_crash d d1 -> covered cfg l1 d1.
Proof.
  intros [Hlg Hok] Hc Hdc l2 Ho name k Hname Hk.
  destruct (log_reopens base hist (length hist) s l1 (CfgWALSegmentSize (config_defaults cfg)) Hlg Hc) as (k' & Hk' & Hh).
  rewrite (log_holds_last _ _ _ _ Ho Hh).
  pose proof (dir_crash_ok _ _ _ _ _ Hok Hdc) as Hok1.
  destruct (listed_within hist _ _ d1 ltac:(done) Hok1) as [Hl _]. destruct Hname as [f Hf].
  specialize (Hl name f k Hf Hk). lia.
Qed.

Lemma granted_fresh o s t :
  store_wf s -> op_valid o s -> t ∈ granted o s -> t = nextEpoch s /\ nextEpoch (run_op o s) = (t + 1)%N.
Proof.
  intros Hwf Hv Ht. destruct o; cbn in Ht; try (by apply elem_of_nil in Ht).
  revert Ht. cbn [run_op]. cbn in Hv.
  apply (Lease_rule queue workerID dur now s (fun r s' =>
    t ∈ match r with inr (Some j) => [Epoch j] | _ => [] end ->
    t = nextEpoch s /\ nextEpoch s' = (t + 1)%N) Hwf).
  - intros ix _ _ Ht. by apply elem_of_nil in Ht.
  - intros ix cid j Hinv -> [(Hj & _ & Hl & _) _]. eapply wp_mono; [by apply lease_turn_spec|].
    intros [err|oj] s' (_ & _ & H) Ht; [by apply elem_of_nil in Ht|].
    destruct H as (-> & _ & Hn). cbn in Ht, Hn. apply list_elem_of_singleton in Ht as ->.
    split; [done|]. rewrite Hn. done.
Qed.

Lemma granted_short o s : (length (granted o s) <= 1)%nat.
Proof.
  unfold granted. destruct o; try (cbn; lia).
  destruct ((Lease queue workerID dur now s).1) as [|[]]; cbn; lia.
Qed.

Lemma step_spec s d toks s' d' :
  in_service s d -> step s d toks s' d' ->
  in_service s' d' /\ (nextEpoch s <= nextEpoch s')%N /\
  (toks = [] \/ toks = [nextEpoch s] /\ nextEpoch s' = (nextEpoch s + 1)%N).
Proof.
  intros [Hwf (base & hist & n & Hsp)] Hst.
  destruct Hst as [o s d Hv Hok Hroom|cs s d Henc|s d l1 d1 cfg now s' l' Hc Hdc Hcov Hcalls Hu Hopen].
  - destruct (op_spanned base hist n o s d Hwf Hsp Hv Hok Hroom) as (es & n' & _ & Hsp').
    split; [split; [by apply run_op_wf|by eauto]|].
    split; [by apply run_op_effect|].
    destruct (granted o s) as [|t ts] eqn:E; [by left|right].
    destruct (granted_fresh o s t Hwf Hv) as [-> Hn]; [rewrite E; left|]. split; [|done].
    pose proof (granted_short o s) as Hshort. rewrite E in Hshort. cbn in Hshort.
    destruct ts; [done|cbn in Hshort; lia].
  - destruct (snapshot_spanned base hist n cs s d Hwf Hsp Henc) as [(base' & Hsp') [l' E]].
    split; [split; [by rewrite E|by eauto]|]. rewrite E. split; [done|by left].
  - destruct (crash_spanned base hist n s d l1 d1 cfg now Hsp Hc Hdc Hcov Hcalls Hu)
      as (k & base' & live & m & s1 & l1' & Hk & Hopen' & _ & _ & _ & _ & Hwf1 & Hrec1%recorded_spanned & Hn).
    rewrite Hopen in Hopen'. injection Hopen' as <- <-.
    split; [split; [done|by eauto]|]. split; [|by left].
    rewrite Hn. apply (inv_reserved _ _ _ _ Hwf).
Qed.

Lemma run_spec s d toks s' d' :
  in_service s d -> run s d toks s' d' ->
  in_service s' d' /\ (nextEpoch s <= nextEpoch s')%N /\ StronglySorted N.lt toks /\
  Forall (fun t => nextEpoch s <= t < nextEpoch s')%N toks.
Proof.
  intros Hh Hrun. induction Hrun as [s d|s d t1 s1 d1 t2 s2 d2 Hst Hrun IH].
  { split; [done|]. split; [lia|]. split; constructor. }
  destruct (step_spec s d t1 s1 d1 Hh Hst) as (Hh1 & Hn1 & Ht1).
  destruct (IH Hh1) as (Hh2 & Hn2 & Hs2 & Hf2). split; [done|]. split; [lia|].
  destruct Ht1 as [->|[-> Hn]]; cbn [app].
  - split; [done|]. eapply Forall_impl; [exact Hf2|]. cbn. lia.
  - split.
    + constructor; [done|]. eapply Forall_impl; [exact Hf2|]. cbn. lia.
    + constructor; [lia|]. eapply Forall_impl; [exact Hf2|]. cbn. lia.
Qed.

(** ** What is durable stays *)

(** A predicate that no event can undo. *)
Definition stable (P : Mem -> Prop) : Prop :=
  forall m e m', mem_wf m -> admissible e m -> apply e m = (inr tt, m') -> P m -> P m'.

(** [P] holds of the memory that what is durable rebuilds. *)
Definition durably (P : Mem -> Prop) s d : Prop :=
  exists base hist n m, spanned base hist n s d /\ history m (take n hist) /\ P m.

Lemma stable_history P m es m' es' :
  stable P -> history m es -> P m -> history m' (es ++ es') -> P m'.
Proof.
  intros Hst Hm HP. revert m'. induction es' as [|e es' IH] using rev_ind; intros m' Hm'.
  - rewrite app_nil_r in Hm'. by rewrite (history_det _ _ _ Hm' Hm).
  - rewrite app_assoc in Hm'. apply history_snoc_inv in Hm' as (m1 & Hm1 & Had & Happ).
    eapply Hst; [by eapply history_wf|done|done|]. by apply IH.
Qed.

Lemma stable_prefix P hist k k' m m' :
  stable P -> (k <= k')%nat -> history m (take k hist) -> P m -> history m' (take k' hist) -> P m'.
Proof.
  intros Hst Hk Hm HP Hm'. apply (stable_history P m (take k hist) m' (drop k (take k' hist)));
    [done..|].
  replace (take k hist) with (take k (take k' hist)); [by rewrite take_drop|].
  rewrite firstn_firstn. f_equal. lia.
Qed.

Lemma durably_now P s d :
  stable P -> durably P s d -> exists m, mem_sim (mem s) m /\ P m.
Proof.
  intros Hst (base & hist & n & m & [Hlg _] & Hm & HP).
  destruct (lg_history _ _ _ _ Hlg) as (m' & Hm' & Hsim). exists m'. split; [done|].
  apply (stable_history P m (take n hist) m' (drop n hist)); [done..|]. by rewrite take_drop.
Qed.

(** More of the history is durable than before. *)
Lemma durably_more P base hist es n n' m s d :
  stable P -> (n <= length hist)%nat -> (n <= n')%nat -> history m (take n hist) -> P m ->
  spanned base (hist ++ es) n' s d -> durably P s d.
Proof.
  intros Hst Hle Hn Hm HP Hrec. pose proof Hrec as [Hlg _].
  destruct (lg_history _ _ _ _ Hlg) as (mf & Hmf & _).
  destruct (history_take _ _ n' Hmf) as [m' Hm']. exists base, (hist ++ es), n', m'.
  split; [done|]. split; [done|].
  apply (stable_prefix P (hist ++ es) n n' m m'); [done..| |done|done]. by rewrite take_app_le.
Qed.

Lemma durably_step P s d toks s' d' :
  stable P -> store_wf s -> durably P s d -> step s d toks s' d' -> durably P s' d'.
Proof.
  intros Hst Hwf (base & hist & n & m & Hsp & Hm & HP) Hstep.
  pose proof Hsp as [Hlg _]. destruct (logged_length _ _ _ _ Hlg) as (_ & _ & Hle).
  destruct Hstep as [o s d Hv Hok Hroom|cs s d Henc|s d l1 d1 cfg now s' l' Hc Hdc Hcov Hcalls Hu Hopen].
  - destruct (op_spanned base hist n o s d Hwf Hsp Hv Hok Hroom) as (es & n' & Hn & Hsp').
    by eapply (durably_more P).
  - destruct (snapshot_spanned base hist n cs s d Hwf Hsp Henc) as [(base' & Hsp') _].
    by exists base', hist, n, m.
  - destruct (crash_spanned base hist n s d l1 d1 cfg now Hsp Hc Hdc Hcov Hcalls Hu)
      as (k & base' & live & mk & s1 & l1' & Hk & Hopen' & Hmk & _ & _ & _ & _ & Hrec1%recorded_spanned & _).
    rewrite Hopen in Hopen'. injection Hopen' as <- <-.
    exists base', (take k hist), k, mk. split; [done|]. rewrite firstn_firstn, Nat.min_id.
    split; [done|]. by apply (stable_prefix P hist n k m mk); [|lia|..].
Qed.

Lemma durably_run P s d toks s' d' :
  stable P -> in_service s d -> durably P s d -> run s d toks s' d' -> durably P s' d'.
Proof.
  intros Hst Hh Hd Hrun. induction Hrun as [s d|s d t1 s1 d1 t2 s2 d2 Hstep Hrun IH]; [done|].
  destruct (step_spec s d t1 s1 d1 Hh Hstep) as (Hh1 & _). apply IH; [done|].
  eapply durably_step; [done|apply Hh|done..].
Qed.

(** A job that is done. *)
Definition is_done (id : string) (m : Mem) : Prop :=
  exists j, jobs m !! id = Some j /\ JState j = StateDone.

Lemma is_done_stable id : stable (is_done id).
Proof.
  intros m e m' Hwf Had Happ (j & Hj & Hd).
  destruct (apply_cases e m m' Happ)
    as [(j0 & Ht & Hj0 & ->)|[(f & g & j0 & Hf & Hj0 & ->)|[Ht ->]]].
  - unfold admissible in Had. rewrite Ht, Hj0 in Had. destruct Had as [Hnew _].
    exists j. cbn. rewrite lookup_insert_ne; [done|]. intros E. congruence.
  - exists j. cbn. rewrite lookup_insert_ne; [done|]. intros <-. exfalso.
    unfold admissible, job_effect, running in *.
    destruct (EType e); try done; [destruct Had as [(j' & Hj' & Ht) _]|destruct Had as (j' & Hj' & Ht)
      |destruct Had as [(j' & Hj' & Ht) _]|destruct Had as (j' & Hj' & Ht)];
      assert (j' = j) as -> by congruence; by rewrite Hd in Ht.
  - by exists j.
Qed.

(** The part of a job that its submission fixes. *)
Definition identity (j : Job) :=
  (ID j, Queue j, Handler j, Payload j, IdempotencyKey j, JPriority j, MaxRetries j, EnqueuedAt j).

Definition is_submitted (j0 : Job) (m : Mem) : Prop :=
  exists j, jobs m !! ID j0 = Some j /\ identity j = identity j0.

Lemma is_submitted_stable j0 : stable (is_submitted j0).
Proof.
  intros m e m' Hwf Had Happ (j & Hj & Hi).
  destruct (apply_cases e m m' Happ)
    as [(j1 & Ht & Hj1 & ->)|[(f & g & j1 & Hf & Hj1 & ->)|[Ht ->]]].
  - unfold admissible in Had. rewrite Ht, Hj1 in Had. destruct Had as [Hnew _].
    exists j. cbn. rewrite lookup_insert_ne; [done|]. intros E. congruence.
  - destruct (decide (EJobID e = ID j0)) as [E|Hne].
    + exists (f j1). cbn. rewrite <- E, lookup_insert_eq. split; [done|].
      assert (j1 = j) as -> by congruence. rewrite <- Hi.
      destruct (effect_fixed e f g j Hf) as (E1 & E2 & E3 & E4 & E5 & E6 & E7 & E8).
      unfold identity. congruence.
    + exists j. cbn. by rewrite lookup_insert_ne.
  - by exists j.
Qed.
End Life.
