(* ===== verification/Codec.v ===== *)
(** * Codec: events, jobs and snapshots as JSON

    The encoding of [internal/broker/event.go], of the snapshots of
    [internal/broker/store.go], and of the job record inside both
    ([internal/job/job.go]), as [json.Marshal] and [json.Unmarshal] derive it
    from the tags of the structs: the members in the order of the fields, the
    ones marked [omitempty] or [omitzero] left out when they are empty; on the
    way back as in [Fields].

    [State] and [Priority] are written as the numbers behind them. A number
    that fits [uint8] but names no constant, and a [null] among the jobs of a
    snapshot, are taken for errors, and of repeated [jobs] members the last one
    counts: the program writes none of these. *)
From S2P Require Import Prelude Utf8 Job Framing LogSpec Wal Event Memory Store Snapshot Json Rfc3339 Fields.

(** ** States, priorities and types *)

Definition State_num (s : State) : N :=
  match s with
  | StateUnspecified => 0 | StatePending => 1 | StateLeased => 2
  | StateRetryWait => 3 | StateDone => 4 | StateDeadLetter => 5
  end.
Definition State_of (n : N) : option State :=
  nth_error [StateUnspecified; StatePending; StateLeased; StateRetryWait; StateDone; StateDeadLetter]
    (N.to_nat n).
Definition Priority_of (n : N) : option Priority :=
  nth_error [PriorityLow; PriorityNormal; PriorityHigh] (N.to_nat n).

Definition read_state (v : json) : option State := n ← read_uint 8 v; State_of n.
Definition read_priority (v : json) : option Priority := n ← read_uint 8 v; Priority_of n.

Definition eventType_of (s : string) : eventType :=
  if bool_decide (s = "submit") then eventSubmit
  else if bool_decide (s = "lease") then eventLease
  else if bool_decide (s = "ack") then eventAck
  else if bool_decide (s = "fail") then eventFail
  else if bool_decide (s = "replay") then eventReplayJob
  else if bool_decide (s = "epoch_reserve") then eventEpochReserve
  else eventOther s.

Definition read_type (v : json) : option eventType := eventType_of <$> read_text v.

Definition as_state {T} := as_kind (T := T) read_state.
Definition as_priority {T} := as_kind (T := T) read_priority.
Definition as_type {T} := as_kind (T := T) read_type.

(** ** Jobs *)

Definition zero_job : Job := mkJob "" "" "" [] "" PriorityLow 0 0 StateUnspecified 0 0 0 0 "" "".

Definition job_fields : fields json Job :=
  [("id", as_text (fun v j => mkJob v (Queue j) (Handler j) (Payload j) (IdempotencyKey j)
      (JPriority j) (MaxRetries j) (Attempt j) (JState j) (Epoch j) (EnqueuedAt j) (EligibleAt j)
      (LeaseExpiresAt j) (LeasedBy j) (LastError j)));
   ("queue", as_text (fun v j => mkJob (ID j) v (Handler j) (Payload j) (IdempotencyKey j)
       (JPriority j) (MaxRetries j) (Attempt j) (JState j) (Epoch j) (EnqueuedAt j) (EligibleAt
       j) (LeaseExpiresAt j) (LeasedBy j) (LastError j)));
   ("handler", as_text (fun v j => mkJob (ID j) (Queue j) v (Payload j) (IdempotencyKey j)
       (JPriority j) (MaxRetries j) (Attempt j) (JState j) (Epoch j) (EnqueuedAt j) (EligibleAt
       j) (LeaseExpiresAt j) (LeasedBy j) (LastError j)));
   ("payload", as_bytes (fun v j => mkJob (ID j) (Queue j) (Handler j) v (IdempotencyKey j)
       (JPriority j) (MaxRetries j) (Attempt j) (JState j) (Epoch j) (EnqueuedAt j) (EligibleAt
       j) (LeaseExpiresAt j) (LeasedBy j) (LastError j)));
   ("idempotency_key", as_text (fun v j => mkJob (ID j) (Queue j) (Handler j) (Payload j) v
       (JPriority j) (MaxRetries j) (Attempt j) (JState j) (Epoch j) (EnqueuedAt j) (EligibleAt
       j) (LeaseExpiresAt j) (LeasedBy j) (LastError j)));
   ("priority", as_priority (fun v j => mkJob (ID j) (Queue j) (Handler j) (Payload j)
       (IdempotencyKey j) v (MaxRetries j) (Attempt j) (JState j) (Epoch j) (EnqueuedAt j)
       (EligibleAt j) (LeaseExpiresAt j) (LeasedBy j) (LastError j)));
   ("max_retries", as_int (fun v j => mkJob (ID j) (Queue j) (Handler j) (Payload j)
       (IdempotencyKey j) (JPriority j) v (Attempt j) (JState j) (Epoch j) (EnqueuedAt j)
       (EligibleAt j) (LeaseExpiresAt j) (LeasedBy j) (LastError j)));
   ("attempt", as_int (fun v j => mkJob (ID j) (Queue j) (Handler j) (Payload j) (IdempotencyKey
       j) (JPriority j) (MaxRetries j) v (JState j) (Epoch j) (EnqueuedAt j) (EligibleAt j)
       (LeaseExpiresAt j) (LeasedBy j) (LastError j)));
   ("state", as_state (fun v j => mkJob (ID j) (Queue j) (Handler j) (Payload j) (IdempotencyKey
       j) (JPriority j) (MaxRetries j) (Attempt j) v (Epoch j) (EnqueuedAt j) (EligibleAt j)
       (LeaseExpiresAt j) (LeasedBy j) (LastError j)));
   ("epoch", as_uint (fun v j => mkJob (ID j) (Queue j) (Handler j) (Payload j) (IdempotencyKey
       j) (JPriority j) (MaxRetries j) (Attempt j) (JState j) v (EnqueuedAt j) (EligibleAt j)
       (LeaseExpiresAt j) (LeasedBy j) (LastError j)));
   ("enqueued_at", as_time (fun v j => mkJob (ID j) (Queue j) (Handler j) (Payload j)
       (IdempotencyKey j) (JPriority j) (MaxRetries j) (Attempt j) (JState j) (Epoch j) v
       (EligibleAt j) (LeaseExpiresAt j) (LeasedBy j) (LastError j)));
   ("eligible_at", as_time (fun v j => mkJob (ID j) (Queue j) (Handler j) (Payload j)
       (IdempotencyKey j) (JPriority j) (MaxRetries j) (Attempt j) (JState j) (Epoch j)
       (EnqueuedAt j) v (LeaseExpiresAt j) (LeasedBy j) (LastError j)));
   ("lease_expires_at", as_time (fun v j => mkJob (ID j) (Queue j) (Handler j) (Payload j)
       (IdempotencyKey j) (JPriority j) (MaxRetries j) (Attempt j) (JState j) (Epoch j)
       (EnqueuedAt j) (EligibleAt j) v (LeasedBy j) (LastError j)));
   ("leased_by", as_text (fun v j => mkJob (ID j) (Queue j) (Handler j) (Payload j)
       (IdempotencyKey j) (JPriority j) (MaxRetries j) (Attempt j) (JState j) (Epoch j)
       (EnqueuedAt j) (EligibleAt j) (LeaseExpiresAt j) v (LastError j)));
   ("last_error", as_text (fun v j => mkJob (ID j) (Queue j) (Handler j) (Payload j)
       (IdempotencyKey j) (JPriority j) (MaxRetries j) (Attempt j) (JState j) (Epoch j)
       (EnqueuedAt j) (EligibleAt j) (LeaseExpiresAt j) (LeasedBy j) v))].

(** A pointer to a job: [null] clears it, an object is read into what it
    points to. *)
Definition as_job {T} (get : T -> option Job) (set : option Job -> T -> T) : decoder json T :=
  fun v t =>
    match v with
    | JNull => Some (set None t)
    | _ => j ← as_object job_fields v (default zero_job (get t)); Some (set (Some j) t)
    end.

(** ** Events *)

Definition zero_event : event :=
  mkEvent (eventOther "") None "" 0 "" 0 0 "" StateUnspecified 0 false 0.

Definition event_fields : fields json event :=
  [("t", as_type (fun v e => mkEvent v (EJob e) (EJobID e) (EEpoch e) (EWorkerID e)
      (ELeaseExpiresAt e) (EAttempt e) (EReason e) (ENextState e) (EEligibleAt e) (ETimeout e)
      (EReservedUpTo e)));
   ("job", as_job EJob (fun v e => mkEvent (EType e) v (EJobID e) (EEpoch e) (EWorkerID e)
       (ELeaseExpiresAt e) (EAttempt e) (EReason e) (ENextState e) (EEligibleAt e) (ETimeout e)
       (EReservedUpTo e)));
   ("id", as_text (fun v e => mkEvent (EType e) (EJob e) v (EEpoch e) (EWorkerID e)
       (ELeaseExpiresAt e) (EAttempt e) (EReason e) (ENextState e) (EEligibleAt e) (ETimeout e)
       (EReservedUpTo e)));
   ("e", as_uint (fun v e => mkEvent (EType e) (EJob e) (EJobID e) v (EWorkerID e)
       (ELeaseExpiresAt e) (EAttempt e) (EReason e) (ENextState e) (EEligibleAt e) (ETimeout e)
       (EReservedUpTo e)));
   ("w", as_text (fun v e => mkEvent (EType e) (EJob e) (EJobID e) (EEpoch e) v (ELeaseExpiresAt
       e) (EAttempt e) (EReason e) (ENextState e) (EEligibleAt e) (ETimeout e) (EReservedUpTo
       e)));
   ("lx", as_time (fun v e => mkEvent (EType e) (EJob e) (EJobID e) (EEpoch e) (EWorkerID e) v
       (EAttempt e) (EReason e) (ENextState e) (EEligibleAt e) (ETimeout e) (EReservedUpTo e)));
   ("a", as_int (fun v e => mkEvent (EType e) (EJob e) (EJobID e) (EEpoch e) (EWorkerID e)
       (ELeaseExpiresAt e) v (EReason e) (ENextState e) (EEligibleAt e) (ETimeout e)
       (EReservedUpTo e)));
   ("r", as_text (fun v e => mkEvent (EType e) (EJob e) (EJobID e) (EEpoch e) (EWorkerID e)
       (ELeaseExpiresAt e) (EAttempt e) v (ENextState e) (EEligibleAt e) (ETimeout e)
       (EReservedUpTo e)));
   ("ns", as_state (fun v e => mkEvent (EType e) (EJob e) (EJobID e) (EEpoch e) (EWorkerID e)
       (ELeaseExpiresAt e) (EAttempt e) (EReason e) v (EEligibleAt e) (ETimeout e) (EReservedUpTo
       e)));
   ("el", as_time (fun v e => mkEvent (EType e) (EJob e) (EJobID e) (EEpoch e) (EWorkerID e)
       (ELeaseExpiresAt e) (EAttempt e) (EReason e) (ENextState e) v (ETimeout e) (EReservedUpTo
       e)));
   ("to", as_bool (fun v e => mkEvent (EType e) (EJob e) (EJobID e) (EEpoch e) (EWorkerID e)
       (ELeaseExpiresAt e) (EAttempt e) (EReason e) (ENextState e) (EEligibleAt e) v
       (EReservedUpTo e)));
   ("ru", as_uint (fun v e => mkEvent (EType e) (EJob e) (EJobID e) (EEpoch e) (EWorkerID e)
       (ELeaseExpiresAt e) (EAttempt e) (EReason e) (ENextState e) (EEligibleAt e) (ETimeout e)
       v))].

(** [decodeEvent]. *)
Definition json_decodeEvent (b : bytes) : option event :=
  v ← parse b; as_object event_fields v zero_event.

(** ** Snapshots *)

Definition read_job (v : json) : option Job :=
  match v with JNull => None | _ => as_object job_fields v zero_job end.
Definition read_jobs (v : json) : option (list Job) :=
  match v with JArr vs => mapM read_job vs | _ => None end.

Definition snapshot_fields : fields json snapshot :=
  [("last_lsn", as_uint (fun v sn => mkSnapshot v (SnapReservedUpTo sn) (SnapJobs sn)));
   ("epoch_reserved_up_to", as_uint (fun v sn => mkSnapshot (SnapLastLSN sn) v (SnapJobs sn)));
   ("jobs", fun v sn =>
      match v with
      | JNull => Some (mkSnapshot (SnapLastLSN sn) (SnapReservedUpTo sn) [])
      | _ => js ← read_jobs v; Some (mkSnapshot (SnapLastLSN sn) (SnapReservedUpTo sn) js)
      end)].

(** The reading half of [loadLatestSnapshot]. *)
Definition json_decodeSnapshot (b : bytes) : option snapshot :=
  v ← parse b; as_object snapshot_fields v (mkSnapshot 0 0 []).

(** ** Writing *)

Section write.
(** The zone an instant is shown in, in minutes east of UTC. It is the zone the
    value has in the process; reading the text gives the instant whatever it
    was. *)
Context (zone : Time -> Z).

Definition time_json (t : Time) : option json := JStr <$> format_time t (zone t).

(** A time marked [omitzero]. *)
Definition time_member (s : string) (t : Time) : option (list (bytes * json)) :=
  if IsZero t then Some [] else v ← time_json t; Some (member s v).

Definition job_members (j : Job) : option (list (bytes * json)) :=
  enqueued ← time_json (EnqueuedAt j);
  eligible ← time_json (EligibleAt j);
  lease ← time_member "lease_expires_at" (LeaseExpiresAt j);
  Some (member "id" (text (ID j)) ++
    member "queue" (text (Queue j)) ++
    member "handler" (text (Handler j)) ++
    optional (bool_decide (Payload j = [])) "payload" (JStr (base64 (Payload j))) ++
    optional (bool_decide (IdempotencyKey j = "")) "idempotency_key" (text (IdempotencyKey j)) ++
    member "priority" (JNum (format_uint (Z.to_N (Priority_num (JPriority j))))) ++
    member "max_retries" (JNum (format_int (MaxRetries j))) ++
    member "attempt" (JNum (format_int (Attempt j))) ++
    member "state" (JNum (format_uint (State_num (JState j)))) ++
    member "epoch" (JNum (format_uint (Epoch j))) ++
    member "enqueued_at" enqueued ++
    member "eligible_at" eligible ++
    lease ++
    optional (bool_decide (LeasedBy j = "")) "leased_by" (text (LeasedBy j)) ++
    optional (bool_decide (LastError j = "")) "last_error" (text (LastError j))).

Definition job_json (j : Job) : option json := JObj <$> job_members j.

Definition event_members (e : event) : option (list (bytes * json)) :=
  job ← match EJob e with None => Some [] | Some j => v ← job_json j; Some (member "job" v) end;
  lease ← time_member "lx" (ELeaseExpiresAt e);
  eligible ← time_member "el" (EEligibleAt e);
  Some (member "t" (text (eventType_text (EType e))) ++
    job ++
    optional (bool_decide (EJobID e = "")) "id" (text (EJobID e)) ++
    optional (EEpoch e =? 0)%N "e" (JNum (format_uint (EEpoch e))) ++
    optional (bool_decide (EWorkerID e = "")) "w" (text (EWorkerID e)) ++
    lease ++
    optional (EAttempt e =? 0) "a" (JNum (format_int (EAttempt e))) ++
    optional (bool_decide (EReason e = "")) "r" (text (EReason e)) ++
    optional (bool_decide (ENextState e = StateUnspecified)) "ns"
      (JNum (format_uint (State_num (ENextState e)))) ++
    eligible ++
    optional (negb (ETimeout e)) "to" (JBool (ETimeout e)) ++
    optional (EReservedUpTo e =? 0)%N "ru" (JNum (format_uint (EReservedUpTo e)))).

(** [encodeEvent]; a year that RFC 3339 cannot show is an error. *)
Definition json_encodeEvent (e : event) : option bytes :=
  ms ← event_members e; Some (print (JObj ms)).

(** The marshalling in [Snapshot]. *)
Definition json_encodeSnapshot (sn : snapshot) : option bytes :=
  js ← mapM job_json (SnapJobs sn);
  Some (print (JObj
    (member "last_lsn" (JNum (format_uint (SnapLastLSN sn))) ++
     member "epoch_reserved_up_to" (JNum (format_uint (SnapReservedUpTo sn))) ++
     member "jobs" (JArr js)))).

(** ** What survives

    Texts that are valid UTF-8 (others are written with replacement
    characters), numbers within their widths and years up to 9999. *)

Definition printable_time (t : Time) : bool :=
  match format_time t (zone t) with Some _ => true | None => false end.

Definition job_storable (j : Job) : bool :=
  forallb valid_string [ID j; Queue j; Handler j; IdempotencyKey j; LeasedBy j; LastError j] &&
  fits_int (MaxRetries j) && fits_int (Attempt j) && fits_uint (Epoch j) &&
  forallb printable_time [EnqueuedAt j; EligibleAt j; LeaseExpiresAt j].

Definition event_storable (e : event) : bool :=
  bool_decide (eventType_of (eventType_text (EType e)) = EType e) &&
  forallb valid_string [eventType_text (EType e); EJobID e; EWorkerID e; EReason e] &&
  fits_int (EAttempt e) && fits_uint (EEpoch e) && fits_uint (EReservedUpTo e) &&
  forallb printable_time [ELeaseExpiresAt e; EEligibleAt e] &&
  match EJob e with None => true | Some j => job_storable j end.

(** The log takes records up to [MaxRecordSize]. *)
Definition event_fits (e : event) : bool :=
  match json_encodeEvent e with
  | Some b => (N.of_nat (length b) <=? MaxRecordSize)%N
  | None => false
  end.

Definition snapshot_storable (sn : snapshot) : bool :=
  fits_uint (SnapLastLSN sn) && fits_uint (SnapReservedUpTo sn) && forallb job_storable (SnapJobs sn).
End write.
