(* ===== verification/CodecProps.v ===== *)
(** * CodecProps: the JSON of events and snapshots is read back

    What the store logs and what it puts into a snapshot comes back as it was,
    field by field: the instances of the interfaces that [Event] and [Snapshot]
    ask for. *)
From S2P Require Import Prelude Utf8 Job Framing LogSpec Wal Event Memory Store Snapshot.
From S2P Require Import Json JsonProps JsonPrefix Rfc3339 Fields FieldsProps Codec.

#[local] Open Scope Z_scope.

(** ** Fields *)

Section reading.
Context {T : Type}.
Implicit Types (t : T).

Lemma as_type_text set ty t :
  valid_string (eventType_text ty) = true -> eventType_of (eventType_text ty) = ty ->
  as_type set (text (eventType_text ty)) t = Some (set ty t).
Proof. intros H E. unfold as_type, as_kind. cbn. by rewrite unquote_text, E. Qed.

Lemma as_state_format set s t :
  as_state set (JNum (format_uint (State_num s))) t = Some (set s t).
Proof.
  unfold as_state, as_kind, read_state, read_uint.
  rewrite ParseUint10_format by (by destruct s). by destruct s.
Qed.

Lemma as_priority_format set p t :
  as_priority set (JNum (format_uint (Z.to_N (Priority_num p)))) t = Some (set p t).
Proof.
  unfold as_priority, as_kind, read_priority, read_uint.
  rewrite ParseUint10_format by (by destruct p). by destruct p.
Qed.

Lemma as_time_json zone set x v t : time_json zone x = Some v -> as_time set v t = Some (set x t).
Proof.
  unfold time_json. destruct (format_time x (zone x)) as [b|] eqn:E; [|done]. intros <-%(inj Some).
  unfold as_time, as_kind. cbn. by rewrite (parse_format_time _ _ _ E).
Qed.

Lemma set_time (fs : fields json T) zone s set x ms t rest :
  time_member zone s x = Some ms -> find_field fs (unquote (name s)) = Some (as_time set) ->
  (x = 0 -> t = set x t) -> set_members fs (ms ++ rest) t = set_members fs rest (set x t).
Proof.
  unfold time_member, IsZero. intros Hm Hf Hz. destruct (Z.eqb_spec x 0) as [E|E].
  - apply (inj Some) in Hm as <-. by rewrite <- Hz.
  - destruct (time_json zone x) as [v|] eqn:Ev; [|done]. apply (inj Some) in Hm as <-.
    eapply set_one; [done|]. by eapply as_time_json.
Qed.
End reading.

#[export] Hint Resolve as_type_text as_state_format as_priority_format as_time_json : codec.

Lemma time_ok zone x v : time_json zone x = Some v -> well_formed v /\ height v = 0%nat.
Proof.
  unfold time_json. destruct (format_time x (zone x)) as [b|] eqn:E; [|done]. intros <-%(inj Some).
  split; [|done]. exact (proj1 (plain_text _ (format_time_plain _ _ _ E))).
Qed.

Lemma time_member_ok zone k s x ms :
  time_member zone s x = Some ms -> forallb plain (name s) = true -> Forall (member_ok k) ms.
Proof.
  unfold time_member. destruct (IsZero x); [intros <-%(inj Some); constructor|].
  destruct (time_json zone x) as [v|] eqn:E; [|done]. intros <-%(inj Some) Hs.
  apply time_ok in E as [Hv Hh]. apply member_okI; [done|done|lia].
Qed.

(** ** Round trips *)

(** One more member read; [set_one] where it is always there, [set_opt] and
    [set_time] where it may be left out. *)
Ltac read_member :=
  match goal with
  | |- set_members _ (member _ _ ++ _) _ = _ =>
      erewrite set_one; [|reflexivity|solve [eauto with codec nocore]]
  | |- set_members _ (optional _ _ _ ++ _) _ = _ =>
      erewrite set_opt;
        [|reflexivity|solve [eauto with codec nocore]
         |cbn; first [intros ->%bool_decide_eq_true|intros ->%N.eqb_eq|intros ->%Z.eqb_eq
                     |intros ->%negb_true_iff]; reflexivity]
  | _ => erewrite set_time; [|eassumption|reflexivity|cbn; intros ->; reflexivity]
  end.

(** All of them; [norm] normalizes the struct read so far. *)
Ltac read_members norm :=
  rewrite <- (app_nil_r (_ ++ _)), <- ?app_assoc; repeat (read_member; norm ()); reflexivity.

Ltac job_norm _ :=
  cbn [ID Queue Handler Payload IdempotencyKey JPriority MaxRetries Attempt JState Epoch
    EnqueuedAt EligibleAt LeaseExpiresAt LeasedBy LastError zero_job] in *.
Ltac event_norm _ :=
  cbn [EType EJob EJobID EEpoch EWorkerID ELeaseExpiresAt EAttempt EReason ENextState EEligibleAt
    ETimeout EReservedUpTo zero_event] in *.

Ltac members_ok :=
  rewrite ?Forall_app;
  repeat match goal with
  | |- _ /\ _ => split
  | |- Forall _ (member _ _) => apply member_okI; [reflexivity|eauto with codec|cbn; lia]
  | |- Forall _ (optional _ _ _) => apply optional_ok; [reflexivity|eauto with codec|cbn; lia]
  | H : time_member _ _ _ = Some ?ms |- Forall _ ?ms => eapply time_member_ok; [exact H|reflexivity]
  end.

Section roundtrip.
Context (zone : Time -> Z).

Lemma printable_json t : printable_time zone t = true -> exists v, time_json zone t = Some v.
Proof. unfold printable_time, time_json. destruct (format_time t (zone t)); [by eexists|done]. Qed.

Lemma printable_member s t :
  printable_time zone t = true -> exists ms, time_member zone s t = Some ms.
Proof.
  intros [v E]%printable_json. unfold time_member. destruct (IsZero t); [by eexists|].
  rewrite E. by eexists.
Qed.

Lemma job_fields_members j ms :
  job_storable zone j = true -> job_members zone j = Some ms ->
  Forall (member_ok 0) ms /\ set_members job_fields ms zero_job = Some j.
Proof.
  unfold job_storable. rewrite !andb_true_iff. intros ((((Htexts & Hmax) & Hatt) & Hep) & _).
  cbn [forallb] in Htexts. rewrite !andb_true_iff in Htexts.
  destruct Htexts as (H1 & H2 & H3 & H4 & H5 & H6 & _). unfold job_members.
  destruct (time_json zone (EnqueuedAt j)) as [enq|] eqn:E1; [|done]. cbn [mbind option_bind].
  destruct (time_json zone (EligibleAt j)) as [el|] eqn:E2; [|done]. cbn [mbind option_bind].
  destruct (time_member zone "lease_expires_at" (LeaseExpiresAt j)) as [lx|] eqn:E3; [|done].
  cbn [mbind option_bind]. intros <-%(inj Some).
  destruct (time_ok _ _ _ E1) as [Hv1 Hh1]. destruct (time_ok _ _ _ E2) as [Hv2 Hh2].
  split; [members_ok; rewrite ?Hh1, ?Hh2; done|].
  destruct j as [i q h p k pr mr att st ep en ela lea lb le]. job_norm (). read_members job_norm.
Qed.

(** A job as a value: it fits under two levels and is read into any field that
    holds a job. *)
Lemma job_json_ok j :
  job_storable zone j = true -> exists ms, job_members zone j = Some ms /\
    job_json zone j = Some (JObj ms) /\ well_formed (JObj ms) /\ (height (JObj ms) <= 1)%nat /\
    as_object job_fields (JObj ms) zero_job = Some j.
Proof.
  intros Hj. pose proof Hj as Hs. unfold job_storable in Hs. rewrite !andb_true_iff in Hs.
  destruct Hs as (_ & Ht). cbn [forallb] in Ht. rewrite !andb_true_iff in Ht.
  destruct Ht as ([v1 E1]%printable_json & [v2 E2]%printable_json
    & [ms3 E3]%(printable_member "lease_expires_at") & _).
  assert (Hm : exists ms, job_members zone j = Some ms).
  { unfold job_members. rewrite E1. cbn [mbind option_bind]. rewrite E2. cbn [mbind option_bind].
    rewrite E3. by eexists. }
  destruct Hm as [ms Hm]. exists ms. unfold job_json. rewrite Hm.
  destruct (job_fields_members j ms Hj Hm) as [Hok Hset]. destruct (object_ok 0 ms Hok). done.
Qed.

Lemma as_job_json {T} get (set : option Job -> T -> T) j ms t :
  as_object job_fields (JObj ms) zero_job = Some j -> get t = None ->
  as_job get set (JObj ms) t = Some (set (Some j) t).
Proof.
  intros H Ht.
  change (as_job get set (JObj ms) t)
    with (j ← as_object job_fields (JObj ms) (default zero_job (get t)); Some (set (Some j) t)).
  assert (E : default zero_job (get t) = zero_job) by (by rewrite Ht). by rewrite E, H.
Qed.

Lemma event_fields_members e ms :
  event_storable zone e = true -> event_members zone e = Some ms ->
  Forall (member_ok 1) ms /\ set_members event_fields ms zero_event = Some e.
Proof.
  unfold event_storable. rewrite !andb_true_iff.
  intros ((((((Hty%bool_decide_eq_true & Htexts) & Hatt) & Hep) & Hup) & _) & Hjob).
  cbn [forallb] in Htexts. rewrite !andb_true_iff in Htexts. destruct Htexts as (H1 & H2 & H3 & H4 & _).
  unfold event_members. 
  destruct (match EJob e with None => Some [] | Some j => v ← job_json zone j; Some (member "job" v) end)
    as [job|] eqn:Ej; [|done].
  cbn [mbind option_bind].
  destruct (time_member zone "lx" (ELeaseExpiresAt e)) as [lx|] eqn:E1; [|done]. cbn [mbind option_bind].
  destruct (time_member zone "el" (EEligibleAt e)) as [el|] eqn:E2; [|done]. cbn [mbind option_bind].
  intros <-%(inj Some).
  destruct e as [ty oj i ep w lex att r ns ela tm ru]. event_norm ().
  assert (Hj : Forall (member_ok 1) job /\ forall rest,
    set_members event_fields (job ++ rest) (mkEvent ty None "" 0 "" 0 0 "" StateUnspecified 0 false 0)
    = set_members event_fields rest (mkEvent ty oj "" 0 "" 0 0 "" StateUnspecified 0 false 0)).
  { destruct oj as [j|]; [|apply (inj Some) in Ej as <-; done].
    destruct (job_json_ok j Hjob) as (ms & _ & E & Hw & Hh & Hr). rewrite E in Ej.
    apply (inj Some) in Ej as <-. split; [by apply member_okI|]. intros rest.
    erewrite set_one; [|reflexivity|by eapply as_job_json]. done. }
  destruct Hj as [Hjok Hjset]. split; [members_ok; first [exact Hjok|exact I]|].
  rewrite <- (app_nil_r (_ ++ _)), <- ?app_assoc. read_member. event_norm (). rewrite Hjset.
  repeat (read_member; event_norm ()). reflexivity.
Qed.

Lemma event_members_some e : event_storable zone e = true -> exists ms, event_members zone e = Some ms.
Proof.
  unfold event_storable. rewrite !andb_true_iff. intros [[_ Ht] Hjob].
  cbn [forallb] in Ht. rewrite !andb_true_iff in Ht.
  destruct Ht as ([ms1 E1]%(printable_member "lx") & [ms2 E2]%(printable_member "el") & _).
  assert (Hj : exists job,
    match EJob e with None => Some [] | Some j => v ← job_json zone j; Some (member "job" v) end = Some job).
  { destruct (EJob e) as [j|]; [|by eexists]. destruct (job_json_ok j Hjob) as (ms & _ & E & _).
    rewrite E. by eexists. }
  destruct Hj as [job Ej]. unfold event_members. rewrite Ej. cbn [mbind option_bind].
  rewrite E1. cbn [mbind option_bind]. rewrite E2. by eexists.
Qed.

(** An event is read back, and the record it makes is never empty. *)
Lemma event_json e :
  event_storable zone e = true ->
  exists b, json_encodeEvent zone e = Some b /\ b <> [] /\ json_decodeEvent b = Some e.
Proof.
  intros He. destruct (event_members_some e He) as [ms Hms].
  destruct (event_fields_members e ms He Hms) as [Hok Hset]. destruct (object_ok 1 ms Hok) as [Hw Hh].
  exists (print (JObj ms)). unfold json_encodeEvent, json_decodeEvent. rewrite Hms. split; [done|].
  split; [done|]. rewrite parse_print; [done|done|]. unfold maxNestingDepth. lia.
Qed.

Lemma jobs_json_ok js :
  forallb (job_storable zone) js = true -> exists vs, mapM (job_json zone) js = Some vs /\
    Forall well_formed vs /\ (max_list_with height vs <= 1)%nat /\ mapM read_job vs = Some js.
Proof.
  induction js as [|j js IH]; cbn [forallb]; [intros _; exists []; repeat split; [constructor|cbn; lia]|].
  intros [Hj Hjs]%andb_true_iff. destruct (IH Hjs) as (vs & E & Hw & Hh & Hr).
  destruct (job_json_ok j Hj) as (ms & _ & Ej & Hwj & Hhj & Hrj). exists (JObj ms :: vs).
  cbn [mapM]. rewrite Ej, E. cbn [mbind option_bind]. split; [done|].
  split; [by constructor|]. split; [cbn [max_list_with]; lia|].
  change (read_job (JObj ms)) with (as_object job_fields (JObj ms) zero_job). by rewrite Hrj, Hr.
Qed.

Lemma snapshot_json sn :
  snapshot_storable zone sn = true ->
  exists ms, json_encodeSnapshot zone sn = Some (print (JObj ms)) /\
    well_formed (JObj ms) /\ (N.of_nat (height (JObj ms)) <= maxNestingDepth)%N /\
    json_decodeSnapshot (print (JObj ms)) = Some sn.
Proof.
  unfold snapshot_storable. rewrite !andb_true_iff. intros ((Hl & Hr) & Hjs).
  destruct (jobs_json_ok _ Hjs) as (vs & E & Hw & Hh & Hread). destruct sn as [lsn upto js].
  cbn [SnapLastLSN SnapReservedUpTo SnapJobs] in *. unfold json_encodeSnapshot, json_decodeSnapshot.
  cbn [SnapLastLSN SnapReservedUpTo SnapJobs]. rewrite E. cbn [mbind option_bind].
  eexists. split; [reflexivity|].
  assert (Hok : Forall (member_ok 2)
    (member "last_lsn" (JNum (format_uint lsn)) ++
     member "epoch_reserved_up_to" (JNum (format_uint upto)) ++ member "jobs" (JArr vs))).
  { members_ok. by apply well_formed_arr. }
  destruct (object_ok 2 _ Hok) as [Hwo Hho].
  split; [exact Hwo|]. split; [unfold maxNestingDepth; lia|].
  rewrite parse_print; [|done|unfold maxNestingDepth; lia]. cbn [mbind option_bind as_object].
  read_member. read_member. rewrite <- (app_nil_r (member "jobs" _)).
  erewrite set_one; [|reflexivity|cbn [read_jobs]; rewrite Hread; reflexivity]. done.
Qed.
End roundtrip.

(** ** The interfaces *)

Definition json_codec (zone : Time -> Z) : EventCodec := {|
  encodeEvent := json_encodeEvent zone;
  decodeEvent := json_decodeEvent
|}.

Program Definition json_codec_laws (zone : Time -> Z) : @CodecLaws (json_codec zone) := {|
  codec_ok e := event_storable zone e && event_fits zone e = true
|}.
Next Obligation.
  intros zone e [He Hf]%andb_true_iff. destruct (event_json zone e He) as (b & Hb & Hne & Hd).
  exists b. split; [done|]. split; [|done]. split; [done|]. unfold event_fits in Hf. rewrite Hb in Hf.
  by apply N.leb_le.
Qed.

Definition json_snap_codec (zone : Time -> Z) : SnapCodec := {|
  encodeSnapshot := json_encodeSnapshot zone;
  decodeSnapshot := json_decodeSnapshot
|}.

Program Definition json_snap_laws (zone : Time -> Z) :
    @SnapCodecLaws (json_snap_codec zone) := {|
  snap_encodable sn := snapshot_storable zone sn = true
|}.
Next Obligation. intros zone sn H. destruct (snapshot_json zone sn H) as (ms & H1 & _ & _ & H2). eauto. Qed.

(** ** Properties *)

(** The times an event is written with. *)
Definition nonzero (t : Time) : list Time := if IsZero t then [] else [t].
Definition written_times (e : event) : list Time :=
  match EJob e with
  | Some j => EnqueuedAt j :: EligibleAt j :: nonzero (LeaseExpiresAt j)
  | None => []
  end ++ nonzero (ELeaseExpiresAt e) ++ nonzero (EEligibleAt e).

Section errors.
Context (zone : Time -> Z).

Definition unprintable (ts : list Time) : Prop := exists t, t ∈ ts /\ printable_time zone t = false.

Lemma unprintable_app ts ts' : unprintable (ts ++ ts') <-> unprintable ts \/ unprintable ts'.
Proof.
  split.
  - intros (t & [H|H]%elem_of_app & E); [left|right]; by exists t.
  - intros [(t & H & E)|(t & H & E)]; exists t; (split; [apply elem_of_app; auto|done]).
Qed.

Lemma unprintable_one t : unprintable [t] <-> time_json zone t = None.
Proof.
  unfold unprintable, printable_time, time_json. split.
  - intros (t' & ->%list_elem_of_singleton & E). by destruct (format_time t (zone t)).
  - intros E. exists t. split; [left|]. by destruct (format_time t (zone t)).
Qed.

Lemma unprintable_member s t : unprintable (nonzero t) <-> time_member zone s t = None.
Proof.
  unfold nonzero, time_member. destruct (IsZero t).
  - split; [by intros (? & ?%elem_of_nil & _)|done].
  - rewrite unprintable_one. by destruct (time_json zone t).
Qed.

Lemma job_json_none j :
  job_json zone j = None <-> unprintable (EnqueuedAt j :: EligibleAt j :: nonzero (LeaseExpiresAt j)).
Proof.
  change (EnqueuedAt j :: EligibleAt j :: nonzero (LeaseExpiresAt j))
    with ([EnqueuedAt j] ++ [EligibleAt j] ++ nonzero (LeaseExpiresAt j)).
  rewrite !unprintable_app, !unprintable_one, (unprintable_member "lease_expires_at").
  unfold job_json, job_members. destruct (time_json zone (EnqueuedAt j)); [|by split; [left|]].
  cbn [mbind option_bind]. destruct (time_json zone (EligibleAt j)); [|by split; [right; left|]].
  cbn [mbind option_bind]. destruct (time_member zone _ (LeaseExpiresAt j)); cbn; [|by split; [right; right|]].
  split; [done|]. by intros [?|[?|?]].
Qed.
End errors.

(** C30: What [encodeEvent] writes, [decodeEvent] reads: every event whose texts are
    valid UTF-8, whose numbers fit their types and whose times can be shown is
    encoded, never as an empty record, and decoded to itself, whatever zone the
    writer shows times in. Encoding fails exactly when one of the times written
    has no RFC 3339 form, and for no other content. *)
Theorem event_json_roundtrip (zone : Time -> Z) (e : event) :
  (event_storable zone e = true ->
   exists b, json_encodeEvent zone e = Some b /\ b <> [] /\ json_decodeEvent b = Some e) /\
  (json_encodeEvent zone e = None <->
   exists t, t ∈ written_times e /\ printable_time zone t = false).
Proof.
  split; [apply event_json|]. fold (unprintable zone (written_times e)). unfold written_times.
  rewrite !unprintable_app, (unprintable_member zone "lx"), (unprintable_member zone "el").
  unfold json_encodeEvent, event_members. destruct (EJob e) as [j|].
  - rewrite <- job_json_none. destruct (job_json zone j); [|by split; [left|]]. cbn [mbind option_bind].
    destruct (time_member zone "lx" _); [|by split; [right; left|]]. cbn [mbind option_bind].
    destruct (time_member zone "el" _); cbn; [|by split; [right; right|]]. split; [done|]. by intros [?|[?|?]].
  - cbn [mbind option_bind]. destruct (time_member zone "lx" _); [|by split; [right; left|]]. cbn [mbind option_bind].
    destruct (time_member zone "el" _); cbn; [|by split; [right; right|]].
    split; [done|]. by intros [(? & ?%elem_of_nil & _)|[?|?]].
Qed.

(** A snapshot, and what was cut off one. *)
Lemma snapshot_json_cut (zone : Time -> Z) (sn : snapshot) :
  snapshot_storable zone sn = true ->
  exists b, json_encodeSnapshot zone sn = Some b /\ json_decodeSnapshot b = Some sn /\
    forall p, p `prefix_of` b -> p <> b -> json_decodeSnapshot p = None.
Proof.
  intros H. destruct (snapshot_json zone sn H) as (ms & Hb & Hw & Hh & Hd).
  exists (print (JObj ms)). split; [done|]. split; [done|]. intros p [t E] Hne.
  unfold json_decodeSnapshot. rewrite (cut_object_unreadable ms p t); [done|done|done|done|].
  intros ->. by rewrite app_nil_r in E.
Qed.

(** *** Witnesses *)

Definition east (t : Time) : Z := 330.
Definition example_job : Job :=
  mkJob "job-1" "mail" "shell" (list_ascii_of_string "echo") "key & 1" PriorityHigh 3 1 StateLeased 7
    (63897000000 * Second) (63897000000 * Second + 1500000) (63897000030 * Second) "w1" "".

(** The text itself, as [json.Marshal] writes it. *)
Example example_job_json : print <$> job_json east example_job = Some (list_ascii_of_string
  ("{'id':'job-1','queue':'mail','handler':'shell','payload':'ZWNobw==','idempotency_key':'key \u0026 1'," ++
   "'priority':2,'max_retries':3,'attempt':1,'state':2,'epoch':7,'enqueued_at':'2025-10-25T20:10:00+05:30'," ++
   "'eligible_at':'2025-10-25T20:10:00.0015+05:30','lease_expires_at':'2025-10-25T20:10:30+05:30'," ++
   "'leased_by':'w1'}")) ≫= fun b => Some (map (fun c => if Ascii.eqb c "'" then quotation else c)%char b).
Proof. vm_compute. reflexivity. Qed.

Lemma event_json_roundtrip_witness :
  event_storable east (ev_submit example_job) = true /\
  exists b, json_encodeEvent east (ev_submit example_job) = Some b /\ json_decodeEvent b = Some (ev_submit example_job).
Proof.
  assert (H : event_storable east (ev_submit example_job) = true) by (vm_compute; reflexivity).
  split; [exact H|]. destruct (proj1 (event_json_roundtrip east (ev_submit example_job)) H) as (b & H1 & _ & H2).
  exists b. exact (conj H1 H2).
Defined.
