(* ===== verification/Demo.v ===== *)
(** * Demo: a concrete log, encoding and store

    The interfaces of the store, instantiated: the log of [internal/wal] over a
    directory, and the JSON encodings of events and snapshots, for a process
    whose clock shows one zone. The examples of the other files run on the
    states defined here. *)
From S2P Require Import Prelude Job Heap Index Framing LogSpec Wal WalSpec Event Memory.
From S2P Require Import MemSpec Store Snapshot StoreSpec System Durability SnapshotSpec Life Codec CodecProps.

(** ** The encoding *)

(** Half past five hours east, whatever the time. *)
Definition demo_zone (t : Time) : Z := 330.

#[export] Instance demo_codec : EventCodec := json_codec demo_zone.
#[export] Instance demo_codec_laws : CodecLaws := json_codec_laws demo_zone.
#[export] Instance demo_snap_codec : SnapCodec := json_snap_codec demo_zone.
#[export] Instance demo_snap_laws : SnapCodecLaws := json_snap_laws demo_zone.

(** ** States of a store *)

Definition demo_log : Log := mkLog (mkWAL 0 "" false true [] [] 0 0 0) (mkDisk ∅ []).
Definition demo_config : Config := mkConfig 0 0 4 0.
Definition no_jitter (n : Z) : Z := 0.

Definition dir0 : SnapDir := mkSnapDir ∅ ∅ [].

(** The store that opens on a log and a directory at a given time. *)
Definition opened (l : Log) (d : SnapDir) (now : Time) : Store :=
  match OpenStore demo_config now (l, d) with
  | (inr s, _) => s
  | (inl _, (l, _)) => mkStore 0 0 0 l empty_mem ∅ 0 None 0 false []
  end.

(** A store opened on an empty directory at time 1000. *)
Definition store0 : Store := opened demo_log dir0 1000.

Lemma store0_healthy : healthy store0 dir0.
Proof.
  destruct (OpenStore_fresh demo_log dir0 demo_config 1000) as (s & l' & H & Hh); [done..|].
  unfold store0, opened. by rewrite H.
Qed.

Definition demo_params : SubmitParams :=
  mkSubmitParams "mail" "shell" (list_ascii_of_string "echo") "key-1" PriorityNormal 1 0.

(** One job submitted, then leased, then lost. *)
Definition store1 : Store := run_op (OpSubmit demo_params "job-1" 2000) store0.
Definition store2 : Store := run_op (OpLease "mail" "w1" 500 3000) store1.
Definition store3 : Store := run_op (OpReclaim ["job-1"] 4000 (fun _ => no_jitter)) store2.

Definition demo_job : Job := new_job (submit_defaults demo_params) "job-1" 2000.

Lemma store1_jobs : jobs (mem store1) = {["job-1" := demo_job]}.
Proof. vm_compute. reflexivity. Qed.

Lemma demo_submit_ok e : may_record (OpSubmit demo_params "job-1" 2000) store0 e -> codec_ok e.
Proof. intros [-> _]. vm_compute. reflexivity. Qed.

Lemma store1_healthy : healthy store1 dir0.
Proof.
  apply op_healthy; [apply store0_healthy|by vm_compute|apply demo_submit_ok|by vm_compute].
Qed.

Lemma demo_lease_ok e : may_record (OpLease "mail" "w1" 500 3000) store1 e -> codec_ok e.
Proof.
  intros [->|(id & j & Hj & _ & _ & ->)]; [vm_compute; reflexivity|].
  rewrite store1_jobs in Hj. apply lookup_singleton_Some in Hj as [<- <-].
  vm_compute. reflexivity.
Qed.

Lemma store1_epoch_room : epoch_room store1.
Proof. split; vm_compute; reflexivity. Qed.

Lemma store2_healthy : healthy store2 dir0.
Proof.
  apply op_healthy; [apply store1_healthy|apply store1_epoch_room|apply demo_lease_ok|by vm_compute].
Qed.

Definition demo_leased : Job :=
  lease_job (ev_lease "job-1" 1 "w1" 3500 1) demo_job.

Lemma store2_jobs : jobs (mem store2) = {["job-1" := demo_leased]}.
Proof. vm_compute. reflexivity. Qed.

Lemma demo_reclaim_ok e :
  may_record (OpReclaim ["job-1"] 4000 (fun _ => no_jitter)) store2 e -> codec_ok e.
Proof.
  intros (id & j & _ & Hj & _ & _ & ->).
  rewrite store2_jobs in Hj. apply lookup_singleton_Some in Hj as [<- <-].
  vm_compute. reflexivity.
Qed.

Lemma store2_leased : ["job-1"] ≡ₚ elements (leased (mem store2)).
Proof. vm_compute. reflexivity. Qed.

Lemma store3_healthy : healthy store3 dir0.
Proof.
  apply op_healthy; [apply store2_healthy|apply store2_leased|apply demo_reclaim_ok|by vm_compute].
Qed.

(** The job leased again, to another worker, and lost again: its budget of one
    retry is spent. *)
Definition store4 : Store := run_op (OpLease "mail" "w2" 500 9000000000) store3.
Definition store5 : Store := run_op (OpReclaim ["job-1"] 9000001000 (fun _ => no_jitter)) store4.

Definition demo_waiting : Job :=
  fail_job (fail_event Second (5 * Minute) demo_leased "lease expired" true 4000 no_jitter)
    demo_leased.

Lemma store3_jobs : jobs (mem store3) = {["job-1" := demo_waiting]}.
Proof. vm_compute. reflexivity. Qed.

Lemma demo_release_ok e :
  may_record (OpLease "mail" "w2" 500 9000000000) store3 e -> codec_ok e.
Proof.
  intros [->|(id & j & Hj & _ & _ & ->)]; [vm_compute; reflexivity|].
  rewrite store3_jobs in Hj. apply lookup_singleton_Some in Hj as [<- <-].
  vm_compute. reflexivity.
Qed.

Lemma store3_epoch_room : epoch_room store3.
Proof. split; vm_compute; reflexivity. Qed.

Lemma store4_healthy : healthy store4 dir0.
Proof.
  apply op_healthy; [apply store3_healthy|apply store3_epoch_room|apply demo_release_ok|by vm_compute].
Qed.

Lemma store5_wf : store_wf store5.
Proof. apply run_op_wf; [apply store4_healthy|vm_compute; reflexivity]. Qed.

(** A crash that keeps what was flushed and nothing more. *)
Definition power_loss (l : Log) : Log :=
  mkLog (wal l)
    (mkDisk ((fun f => mkFile (take (f_synced f) (f_data f)) (f_synced f)) <$> files (disk l)) []).

Definition synced_within (f : File) : Prop := (f_synced f <= length (f_data f))%nat.
#[export] Instance synced_within_dec f : Decision (synced_within f).
Proof. unfold synced_within. apply _. Defined.

Lemma power_loss_crash l :
  map_Forall (fun _ f => synced_within f) (files (disk l)) -> wal_crash l (power_loss l).
Proof.
  intros H. split; [|done]. intros name. cbn. rewrite lookup_fmap.
  destruct (files (disk l) !! name) as [f|] eqn:E; cbn; [|done].
  exists (f_synced f). split; [|done]. split; [done|]. exact (H name f E).
Qed.
