(* ===== verification/StoreProps.v ===== *)
(** * StoreProps: the guarantees of the job store

    Fencing, token uniqueness, durability of what was acknowledged, recovery,
    scheduling order and progress, the retry budget, deduplication, and the
    behaviour of a poisoned store. Witnesses run on the states of [Demo]. *)
From S2P Require Import Prelude Job Heap Index Framing LogSpec Wal WalSpec Event Memory.
From S2P Require Import MemSpec Store Snapshot StoreSpec System Durability SnapshotSpec Life Demo.

(** ** Shared lemmas *)

Section Shared.
Context {L : Type} {lops : LogOps L} {laws : LogLaws L}.
Context {codec : EventCodec} {claws : CodecLaws}.
Context {scodec : SnapCodec} {sclaws : SnapCodecLaws}.
Implicit Types (s : Store) (d : SnapDir).

(** Nobody holds job [id] under token [epoch]. *)
Definition not_held (id : string) (epoch : N) s : Prop :=
  forall j, jobs (mem s) !! id = Some j -> holdsLease j epoch = false.

Lemma holdsLease_false j epoch :
  ~ (JState j = StateLeased /\ Epoch j = epoch) -> holdsLease j epoch = false.
Proof.
  intros H. unfold holdsLease. apply andb_false_iff.
  destruct (decide (JState j = StateLeased)) as [E|E].
  - right. apply N.eqb_neq. tauto.
  - left. by apply bool_decide_eq_false.
Qed.

(** An event leaves its job leased only if it is a lease, and then under the
    token that was next. *)
Lemma event_holds o s e f g j epoch :
  may_record o s e -> job_effect e = Some (f, g) -> holdsLease (f j) epoch = true ->
  EType e = eventLease /\ epoch = nextEpoch s.
Proof.
  intros He Hf [Hs Hep]%holds_leased.
  assert (Ht : EType e = eventLease).
  { unfold job_effect in Hf. destruct (EType e) eqn:Ety; try done; injection Hf as <- _; cbn in Hs.
    - done.
    - exfalso. destruct o; cbn in He; try done; try by destruct He as [-> _].
      + by destruct He as [->|(i & j' & _ & _ & _ & ->)].
      + destruct He as (j' & _ & _ & ->). cbn in Hs. by destruct (_ <? _).
      + destruct He as (i & j' & _ & _ & _ & _ & ->). cbn in Hs. by destruct (_ <? _).
    - done. }
  split; [done|]. destruct o; cbn in He; try done; try (by destruct He as [-> _]).
  - destruct He as [->|(i & j' & _ & _ & _ & ->)]; [done|]. cbn in Hf. injection Hf as <- _.
    by cbn in Hep.
  - by destruct He as (j' & _ & _ & ->).
  - by destruct He as (i & j' & _ & _ & _ & _ & ->).
Qed.

Lemma not_held_step id epoch s d toks s' d' :
  in_service s d -> (epoch < nextEpoch s)%N -> not_held id epoch s -> step s d toks s' d' ->
  not_held id epoch s'.
Proof.
  intros Hh Hlt Hno Hst.
  destruct Hst as [o s d0 Hv Hok Hroom|cs s d0 Henc|s d0 l1 d1 cfg now s' l' Hc Hdc Hcov Hcalls Hu Hopen].
  - destruct Hh as [Hwf _]. destruct (run_op_effect o s Hwf Hv) as [Hch _].
    intros j' Hj'. specialize (Hch id). rewrite Hj' in Hch.
    inversion Hch as [a E1 E2|e f g j He Hf Hid Hn E1 E2|e j He Ht Hej Hid E1 E2
                     |x j ep d t Ho Hl E1 E2]; subst.
    + by apply Hno.
    + destruct (holdsLease (f j) epoch) eqn:Eh; [|done].
      destruct (event_holds o s e f g j epoch He Hf Eh) as [_ ->]. lia.
    + apply holdsLease_false. intros [Hs _].
      destruct o; cbn in He; try done; try (by destruct He as [-> _]).
      * destruct He as [-> _]. by injection Hej as <-.
      * by destruct He as [->|(i & j0 & _ & _ & _ & ->)].
      * by destruct He as (j0 & _ & _ & ->).
      * by destruct He as (i & j0 & _ & _ & _ & _ & ->).
    + by apply (Hno j).
  - destruct Hh as [Hwf (base & hist & n & Hrec)].
    destruct (snapshot_spanned base hist n cs s d0 Hwf Hrec Henc) as [_ [l' ->]]. exact Hno.
  - destruct Hh as [Hwf (base & hist & n & Hrec)].
    destruct (crash_spanned base hist n s d0 l1 d1 cfg now Hrec Hc Hdc Hcov Hcalls Hu)
      as (k & base' & live & m & s1 & l1' & _ & Hopen' & _ & _ & _ & Hm & _).
    rewrite Hopen in Hopen'. injection Hopen' as <- <-.
    intros j' Hj'. rewrite Hm in Hj'. apply recover_lookup in Hj' as (j & _ & ->).
    apply holdsLease_false. intros [Hs _]. by apply recover_job_not_leased in Hs.
Qed.

Lemma not_held_run id epoch s d toks s' d' :
  in_service s d -> (epoch < nextEpoch s)%N -> not_held id epoch s -> run s d toks s' d' ->
  not_held id epoch s' /\ in_service s' d'.
Proof.
  intros Hh Hlt Hno Hrun. induction Hrun as [s d|s d t1 s1 d1 t2 s2 d2 Hst Hrun IH]; [done|].
  destruct (step_spec s d t1 s1 d1 Hh Hst) as (Hh1 & Hn1 & _).
  apply IH; [done|lia|]. by apply (not_held_step id epoch s d t1 s1 d1).
Qed.

Lemma Ack_fenced id epoch s j :
  jobs (mem s) !! id = Some j -> holdsLease j epoch = false ->
  Ack id epoch s = (inr false, with_metric (FencedRequests "ack") s).
Proof.
  intros Hj Hno.
  assert (E : Ack_locked id epoch s = (inr None, with_metric (FencedRequests "ack") s)).
  { unfold Ack_locked. erewrite bind_ok; [|reflexivity]. by rewrite Hj, Hno. }
  unfold Ack. by erewrite bind_ok by exact E.
Qed.

Lemma Nack_fenced id epoch reason now rnd s j :
  jobs (mem s) !! id = Some j -> holdsLease j epoch = false ->
  Nack id epoch reason now rnd s = (inr (false, false), with_metric (FencedRequests "nack") s).
Proof.
  intros Hj Hno.
  assert (E : Nack_locked id epoch reason now rnd s =
              (inr None, with_metric (FencedRequests "nack") s)).
  { unfold Nack_locked. erewrite bind_ok; [|reflexivity]. by rewrite Hj, Hno. }
  unfold Nack. by erewrite bind_ok by exact E.
Qed.

Lemma Heartbeat_fenced id epoch dur now s j :
  jobs (mem s) !! id = Some j -> holdsLease j epoch = false ->
  Heartbeat id epoch dur now s = (inr (false, zeroTime), s).
Proof.
  intros Hj Hno. unfold Heartbeat. erewrite bind_ok; [|reflexivity]. by rewrite Hj, Hno.
Qed.

(** Counters and the wakeup channel are not part of what is logged. *)
Lemma spanned_quiet base hist n s s' d :
  spanned base hist n s d -> failed s' = failed s -> mem s' = mem s -> log s' = log s ->
  lastLSN s' = lastLSN s -> spanned base hist n s' d.
Proof.
  intros [H1 H2] E1 E2 E3 E4. split; [|done].
  apply (logged_cong base hist n s s'); [done..|by rewrite E2|done|done].
Qed.

Lemma in_service_quiet base hist n s s' d :
  store_wf s -> spanned base hist n s d -> failed s' = failed s -> mem s' = mem s ->
  log s' = log s -> lastLSN s' = lastLSN s -> index s' = index s -> nextEpoch s' = nextEpoch s ->
  in_service s' d.
Proof.
  intros Hwf Hlg E1 E2 E3 E4 E5 E6. split.
  - unfold store_wf, store_inv in *. by rewrite E2, E5, E6.
  - exists base, hist, n. by eapply spanned_quiet.
Qed.

Definition one_record_room s : Prop := is_u64 (lastLSN s + 1 + 1).

Lemma one_room base hist n s : logged_upto base hist n s -> one_record_room s -> log_room hist 1.
Proof. intros Hlg Hr. by apply (room_of_last base hist n s 1). Qed.

(** A submission that is not a duplicate, on a store in service. *)
Lemma Submit_new p id now s d :
  in_service s d -> TrimSpace (PQueue p) <> ""%string -> jobs (mem s) !! id = None ->
  may_record (OpSubmit p id now) s (ev_submit (new_job (submit_defaults p) id now)) ->
  codec_ok (ev_submit (new_job (submit_defaults p) id now)) -> one_record_room s ->
  exists s', Submit p id now s = (inr (Some (new_job (submit_defaults p) id now), false), s') /\
    in_service s' d /\ durably (is_submitted (new_job (submit_defaults p) id now)) s' d /\
    jobs (mem s') !! id = Some (new_job (submit_defaults p) id now).
Proof.
  intros [Hwf (base & hist & n & Hrec)] Hq Hnew [_ Hkey] Hok Hroom.
  pose proof Hrec as [Hlg _].
  set (p' := submit_defaults p) in *. set (j := new_job p' id now) in *.
  assert (Hop : store_wf (Submit_locked p' id now s).2) by (by apply Submit_locked_wf).
  pose proof (Submit_logged base hist n p' id now s Hwf Hlg Hnew (one_room _ _ _ _ Hlg Hroom) Hok) as H.
  unfold wp in H. destruct (Submit_locked p' id now s) as [r s1] eqn:E. cbn [fst snd] in *.
  destruct H as [(old & Hk & Hold & _)|(-> & n1 & Hn1 & Hlg1 & Hm1)].
  { change (PIdempotencyKey p') with (PIdempotencyKey p) in *.
    change (PQueue p') with (PQueue p) in *. rewrite Hkey in Hold by done. done. }
  destruct (commit_spanned base (hist ++ [ev_submit j]) n1 s1 d) as (l2 & Hc & Hrec2); [by eapply spanned_grows|].
  set (s2 := with_log l2 s1) in *.
  exists (with_notify true (with_metric (JobsSubmitted (PQueue p')) s2)). split; [|split; [|split]].
  - unfold Submit. rewrite bool_decide_false by done. cbv zeta. fold p'.
    erewrite bind_ok by exact E. cbn [snd]. by erewrite bind_ok by exact Hc.
  - by eapply (in_service_quiet _ _ _ s2).
  - destruct (lg_history _ _ _ _ (sp_log _ _ _ _ _ Hrec2)) as (m & Hm & Hsim).
    exists base, (hist ++ [ev_submit j]), (length (hist ++ [ev_submit j])), m.
    split; [by eapply spanned_quiet|]. rewrite firstn_all. split; [done|].
    apply history_snoc_inv in Hm as (m0 & _ & Had & Happ). injection Happ as <-.
    exists j. cbn. by rewrite lookup_insert_eq.
  - cbn [mem with_notify with_metric s2 with_log]. rewrite Hm1. cbn. by rewrite lookup_insert_eq.
Qed.

(** An acknowledgement by the holder of the lease, on a store in service. *)
Lemma Ack_held id epoch s d j :
  in_service s d -> jobs (mem s) !! id = Some j -> holdsLease j epoch = true ->
  codec_ok (ev_ack id epoch) -> one_record_room s ->
  exists s', Ack id epoch s = (inr true, s') /\ in_service s' d /\ durably (is_done id) s' d /\
    jobs (mem s') = <[id := ack_job j]> (jobs (mem s)).
Proof.
  intros [Hwf (base & hist & n & Hrec)] Hj Hh Hok Hroom. pose proof Hrec as [Hlg _].
  pose proof (Ack_locked_wf id epoch s Hwf) as Hwf1. unfold wp in Hwf1.
  assert (Hleased : JState j = StateLeased) by (by apply holds_leased in Hh as [? _]).
  destruct (logged_record base hist n s (ev_ack id epoch) Hlg) as (l' & lsn & m' & n' & Hn & Happ & Hrun & Hlg1);
    [by apply (leased_running _ _ j)|done|by eapply one_room|done|].
  set (s1 := with_lastLSN lsn _) in *.
  assert (E : Ack_locked id epoch s = (inr (Some (Queue j)), s1)).
  { unfold Ack_locked. erewrite bind_ok; [|reflexivity]. rewrite Hj, Hh. cbn [negb].
    by erewrite bind_ok by exact Hrun. }
  rewrite E in Hwf1. cbn [snd] in Hwf1.
  destruct (commit_spanned base (hist ++ [ev_ack id epoch]) n' s1 d) as (l2 & Hc & Hrec2); [by eapply spanned_grows|].
  set (s2 := with_log l2 s1) in *.
  exists (with_notify true (with_metric (JobsCompleted (Queue j)) s2)). split; [|split; [|split]].
  - unfold Ack. erewrite bind_ok by exact E. cbn beta iota. by erewrite bind_ok by exact Hc.
  - by eapply (in_service_quiet _ _ _ s2).
  - destruct (lg_history _ _ _ _ (sp_log _ _ _ _ _ Hrec2)) as (m & Hm & Hsim).
    exists base, (hist ++ [ev_ack id epoch]), (length (hist ++ [ev_ack id epoch])), m.
    split; [by eapply spanned_quiet|]. rewrite firstn_all. split; [done|].
    apply history_snoc_inv in Hm as (m0 & _ & (j0 & Hj0 & _) & Ha).
    exists (ack_job j0). split; [|done].
    by apply (apply_target (ev_ack id epoch) ack_job remove m0 m j0).
  - cbn [mem with_notify with_metric s2 with_log s1 with_lastLSN with_mem].
    rewrite (apply_on_job (ev_ack id epoch) ack_job remove (mem s) j) in Happ by done.
    by injection Happ as <-.
Qed.
End Shared.

(** ** Fencing *)

Section Fencing.
Context {L : Type} {lops : LogOps L} {laws : LogLaws L}.
Context {codec : EventCodec} {claws : CodecLaws}.
Context {scodec : SnapCodec} {sclaws : SnapCodecLaws}.

(** A worker that does not hold the lease is turned away without an
    effect: unless the job is leased under the very token presented, [Ack],
    [Nack] and [Heartbeat] report that the lease is gone, no error, and leave
    the jobs, the log and the index as they were (the first two count it). *)
Theorem fenced_worker_rejected (s : Store) id epoch reason dur now rnd j :
  jobs (mem s) !! id = Some j -> ~ (JState j = StateLeased /\ Epoch j = epoch) ->
  Ack id epoch s = (inr false, with_metric (FencedRequests "ack") s) /\
  Nack id epoch reason now rnd s =
    (inr (false, false), with_metric (FencedRequests "nack") s) /\
  Heartbeat id epoch dur now s = (inr (false, zeroTime), s).
Proof.
  intros Hj Hno%holdsLease_false.
  split; [by eapply Ack_fenced|]. split; [by eapply Nack_fenced|by eapply Heartbeat_fenced].
Qed.

(** C5: a zombie is not believed again. Once a token was handed out and the
    job is not leased under it (its lease was reclaimed, reissued, finished or
    lost in a crash), no later run ([Life.run]) makes the store accept an
    [Ack], [Nack] or [Heartbeat] that carries this token. A run is any sequence
    of operations, of snapshots as the broker takes them (at any moment,
    without a flush, any of their calls on the directory failing), and of
    crashes followed by a recovery. Its conditions: no call on the log fails,
    a recovery meets no I/O error, records and snapshots are ones the encoding
    takes, the 64-bit numbers have room, a snapshot sees one state of the store, and
    no crash loses records that a snapshot left on the disk already covers. *)
Theorem zombie_never_accepted (s : Store) d id epoch toks s' d' reason dur now rnd j :
  in_service s d -> (epoch < nextEpoch s)%N ->
  (forall j0, jobs (mem s) !! id = Some j0 -> ~ (JState j0 = StateLeased /\ Epoch j0 = epoch)) ->
  run s d toks s' d' -> jobs (mem s') !! id = Some j ->
  (Ack id epoch s').1 = inr false /\
  (Nack id epoch reason now rnd s').1 = inr (false, false) /\
  (Heartbeat id epoch dur now s').1 = inr (false, zeroTime).
Proof.
  intros Hh Hlt Hno Hrun Hj.
  destruct (not_held_run id epoch s d toks s' d' Hh Hlt) as [Hno' _]; [|done|].
  { intros j0 Hj0. by apply holdsLease_false, Hno. }
  specialize (Hno' j Hj).
  by rewrite (Ack_fenced id epoch s' j), (Nack_fenced id epoch reason now rnd s' j),
    (Heartbeat_fenced id epoch dur now s' j).
Qed.

(** C4: fencing tokens do not repeat. Along a run ([Life.run]: operations,
    unflushed snapshots as the broker takes them, crashes that lose unflushed
    records and the recoveries from them) the tokens handed out by [Lease]
    strictly increase, and all of them are new. The conditions on a run are
    those of C5: in particular no call on the log fails, and no crash loses
    records that a snapshot left on the disk already covers. *)
Theorem tokens_never_repeat (s : Store) d toks s' d' :
  in_service s d -> run s d toks s' d' ->
  StronglySorted N.lt toks /\
  Forall (fun t => nextEpoch s <= t < nextEpoch s')%N toks.
Proof. intros Hh Hrun. by destruct (run_spec s d toks s' d' Hh Hrun) as (_ & _ & H). Qed.

(** C1: the holder is believed. On a store in service, an [Ack] under the token
    of the current lease is accepted, and the job is done, for good: after any
    later run ([Life.run]: operations, unflushed snapshots as the broker takes
    them, crashes and recoveries) it is still done, and never delivered again.
    The conditions on a run are those of C5: no call on the log fails, a
    recovery meets no I/O error, records and snapshots are ones the encoding
    takes and numbers have room, and no crash loses records that a snapshot left on the
    disk already covers. *)
Theorem acked_job_stays_done (s : Store) d id epoch j :
  in_service s d -> jobs (mem s) !! id = Some j -> JState j = StateLeased -> Epoch j = epoch ->
  codec_ok (ev_ack id epoch) -> one_record_room s ->
  exists s', Ack id epoch s = (inr true, s') /\
    jobs (mem s') = <[id := ack_job j]> (jobs (mem s)) /\
    forall toks s2 d2, run s' d toks s2 d2 ->
      exists j2, jobs (mem s2) !! id = Some j2 /\ JState j2 = StateDone.
Proof.
  intros Hh Hj Hst Hep Hok Hroom.
  assert (Hl : holdsLease j epoch = true).
  { unfold holdsLease. by rewrite bool_decide_true, (proj2 (N.eqb_eq _ _)). }
  destruct (Ack_held id epoch s d j Hh Hj Hl Hok Hroom) as (s' & Hrun & Hh' & Hd & Hjobs).
  exists s'. split; [done|]. split; [done|]. intros toks s2 d2 Hrun2.
  pose proof (durably_run _ _ _ _ _ _ (is_done_stable id) Hh' Hd Hrun2) as Hd2.
  destruct (durably_now _ _ _ (is_done_stable id) Hd2) as (m & Hsim & j' & Hj' & Hdone).
  destruct (sim_lookup_r _ _ _ _ Hsim Hj') as (j2 & Hj2 & Hs). exists j2. split; [done|].
  destruct Hs as [_ Hs]. rewrite Hdone in Hs. destruct (JState j2); try done; by destruct Hs.
Qed.

(** Whatever comes after a durable submission, its job is there. *)
Lemma durably_there (s : Store) d j toks s2 d2 :
  in_service s d -> durably (is_submitted j) s d -> run s d toks s2 d2 ->
  exists j2, jobs (mem s2) !! ID j = Some j2 /\ identity j2 = identity j.
Proof.
  intros Hh Hd Hrun.
  pose proof (durably_run _ _ _ _ _ _ (is_submitted_stable j) Hh Hd Hrun) as Hd2.
  destruct (durably_now _ _ _ (is_submitted_stable j) Hd2) as (m & Hsim & j' & Hj' & Hid).
  destruct (sim_lookup_r _ _ _ _ Hsim Hj') as (j2 & Hj2 & Hs). exists j2. split; [done|].
  rewrite <- Hid. destruct Hs as [[Hc _] _]. unfold job_core in Hc. unfold identity.
  injection Hc as ??????????. congruence.
Qed.

(** C2: an accepted submission is not lost. On a store in service a submission
    whose key is new returns the job it created, pending and with the
    parameters given; after any later run ([Life.run]: operations, unflushed
    snapshots as the broker takes them, crashes and recoveries) the job is
    still there, with the same queue, handler, payload, key, priority and retry
    limit. The conditions on a run are those of C5; without the last of them,
    that no crash loses records which a snapshot left on the disk already
    covers, [SnapshotProps.snapshot_hides_acknowledged_submit] loses one. *)
Theorem acked_submit_survives (s : Store) d p id now :
  let j := new_job (submit_defaults p) id now in
  in_service s d -> TrimSpace (PQueue p) <> ""%string -> jobs (mem s) !! id = None ->
  (PIdempotencyKey p <> "" -> idem (mem s) !! idemKey (PQueue p) (PIdempotencyKey p) = None) ->
  codec_ok (ev_submit j) -> one_record_room s ->
  exists s', Submit p id now s = (inr (Some j, false), s') /\
    jobs (mem s') !! id = Some j /\
    forall toks s2 d2, run s' d toks s2 d2 ->
      exists j2, jobs (mem s2) !! id = Some j2 /\ identity j2 = identity j.
Proof.
  intros j Hh Hq Hnew Hkey Hok Hroom.
  destruct (Submit_new p id now s d Hh Hq Hnew) as (s' & Hrun & Hh' & Hd & Hj); [by split|done..|].
  exists s'. split; [done|]. split; [done|]. intros toks s2 d2. exact (durably_there s' d j toks s2 d2 Hh' Hd).
Qed.

(** C6: recovery. Kill a healthy store at any moment: [Open] succeeds, and the
    memory it arrives at is what a replay of a prefix of the recorded history
    gives, with every lease released; the prefix holds every event that was
    durable; the new store is healthy again, every job that can run is in its
    index, and its next token is above every one handed out before. *)
Theorem crash_recovery base hist n (s : Store) d l1 d1 cfg now :
  store_wf s -> recorded base hist n s d -> log_crash (log s) l1 -> dir_crash d d1 ->
  calls d1 = [] -> is_u64 (epochReservedUpTo (mem s) + 1) ->
  exists k base' m s' l', OpenStore cfg now (l1, d1) = (inr s', (l', d1)) /\
    (n <= k <= length hist)%nat /\ history m (take k hist) /\
    mem_sim (mem s') m /\ recorded base' (take k hist) k s' d1 /\ store_wf s' /\
    (forall id j, jobs (mem s') !! id = Some j -> JState j <> StateLeased) /\
    (nextEpoch s <= nextEpoch s')%N.
Proof.
  intros Hwf Hrec Hc Hdc Hcalls Hu.
  destruct (crash_recovers base hist n s d l1 d1 cfg now Hrec Hc Hdc Hcalls Hu)
    as (k & base' & live & m & s' & l' & Hk & Hopen & Hm & Hsim & _ & Hmem & Hwf' & Hrec' & Hn & _).
  exists k, base', m, s', l'. rewrite Hmem, Hn. split_and!; try done; try lia.
  - by apply mem_sim_recover.
  - intros id j' (j & _ & ->)%recover_lookup. apply recover_job_not_leased.
  - pose proof (inv_reserved _ _ _ _ Hwf). lia.
Qed.

(** C13: the invariant of the store holds after every locked section, whatever
    the log does, failures included: the maps agree with each other, the
    leased set is exactly the set of leased jobs, every job that may be leased
    has a current entry in the index, no job carries a token still to be
    handed out, and tokens are only handed out of a reserved block. *)
Theorem store_wf_preserved o (s : Store) :
  store_wf s -> op_valid o s -> store_wf (run_op o s).
Proof. apply run_op_wf. Qed.

(** C8: [Lease] is fair and live. On any store in its invariant, when it hands
    out a job, that job could run and no other job of the queue that can run
    comes before it (higher priority, then older, then smaller identifier),
    and it now is leased under a new token with one more attempt charged; when
    it hands out nothing, no job of the queue can run; when it fails, no job
    has changed. *)
Theorem lease_fair_and_live (s : Store) queue workerID dur now r s' :
  store_wf s -> epoch_room s -> Lease queue workerID dur now s = (r, s') ->
  match r with
  | inl _ => jobs (mem s') = jobs (mem s)
  | inr None => forall j, ~ eligible queue now s j
  | inr (Some j') =>
      exists j, best queue now s j /\
        j' = lease_job (ev_lease (ID j) (nextEpoch s) workerID (now + dur) (i64 (Attempt j + 1))) j /\
        jobs (mem s') = <[ID j := j']> (jobs (mem s)) /\ nextEpoch s' = (nextEpoch s + 1)%N
  end.
Proof.
  intros Hwf Hroom E.
  refine (wp_elim (Lease queue workerID dur now) (fun r s' => match r with
    | inl _ => jobs (mem s') = jobs (mem s)
    | inr None => forall j, ~ eligible queue now s j
    | inr (Some j') => exists j, best queue now s j /\
        j' = lease_job (ev_lease (ID j) (nextEpoch s) workerID (now + dur) (i64 (Attempt j + 1))) j /\
        jobs (mem s') = <[ID j := j']> (jobs (mem s)) /\ nextEpoch s' = (nextEpoch s + 1)%N
    end) s r s' _ E).
  apply Lease_rule; [done| |].
  - intros ix Hloop Hr j. by apply (no_eligible queue now s ix).
  - intros ix cid j Hinv -> Hbest. pose proof Hbest as [(Hj & _ & Hl & _) _].
    eapply wp_mono; [by apply lease_turn_spec|].
    intros [err|oj] s1 (_ & _ & H); [done|]. destruct H as (-> & Hm & Hn).
    by exists j.
Qed.
End Fencing.

(** ** The life of a job *)

(** The transitions of a job's state, by the operation that makes them. *)
Inductive transition : operation -> option State -> option State -> Prop :=
  | tr_none o st : transition o st st
  | tr_submit p id now : transition (OpSubmit p id now) None (Some StatePending)
  | tr_lease q w d now st :
      Leasable st = true -> transition (OpLease q w d now) (Some st) (Some StateLeased)
  | tr_ack id ep : transition (OpAck id ep) (Some StateLeased) (Some StateDone)
  | tr_nack id ep r now rnd st :
      st = StateRetryWait \/ st = StateDeadLetter ->
      transition (OpNack id ep r now rnd) (Some StateLeased) (Some st)
  | tr_reclaim order now rnd st :
      st = StateRetryWait \/ st = StateDeadLetter ->
      transition (OpReclaim order now rnd) (Some StateLeased) (Some st)
  | tr_replay id now :
      transition (OpReplay id now) (Some StateDeadLetter) (Some StatePending).

Section Jobs.
Context {L : Type} {lops : LogOps L}.
Context {codec : EventCodec}.
Implicit Types (s : Store).

Lemma dead_state (j : Job) st :
  st = (if MaxRetries j <? Attempt j then StateDeadLetter else StateRetryWait) ->
  st = StateRetryWait \/ st = StateDeadLetter.
Proof. intros ->. destruct (_ <? _); auto. Qed.

Lemma change_transition o s s' id a b :
  mem_wf (mem s) -> jobs (mem s) !! id = a -> job_change o s s' id a b ->
  transition o (JState <$> a) (JState <$> b).
Proof.
  intros Hwf Ha Hch. pose proof (wf_keys _ Hwf) as HID.
  destruct Hch as [a|e f g j He Hf Hid Hn|e j He Ht Hej Hid|x j ep d t Ho Hl _];
    [constructor| | |constructor].
  - cbn [fmap option_fmap option_map]. destruct o; cbn in He; try done.
    + by destruct He as [-> _].
    + destruct He as [->|(i & j' & Hj' & Hl & _ & ->)]; [done|].
      cbn in Hf, Hid. injection Hf as <- _. subst i. assert (j' = j) as -> by congruence.
      cbn. by constructor.
    + destruct He as [-> (j' & Hj' & [Hl _]%holds_leased)]. cbn in Hf, Hid.
      injection Hf as <- _. subst id0. assert (j' = j) as -> by congruence.
      rewrite Hl. cbn. constructor.
    + destruct He as (j' & Hj' & [Hl _]%holds_leased & ->). cbn in Hf, Hid.
      injection Hf as <- _. pose proof (HID _ _ Hj').
      assert (j' = j) as -> by congruence. rewrite Hl. cbn. constructor. by eapply dead_state.
    + destruct He as (i & j' & _ & Hj' & Hl & _ & ->). cbn in Hf, Hid.
      injection Hf as <- _. pose proof (HID _ _ Hj').
      assert (j' = j) as -> by congruence. rewrite Hl. cbn. constructor. by eapply dead_state.
    + destruct He as [-> (j' & Hj' & Hl)]. cbn in Hf, Hid.
      injection Hf as <- _. subst id0. assert (j' = j) as -> by congruence.
      rewrite Hl. cbn. constructor.
  - destruct o; cbn in He; try done.
    + destruct He as [-> _]. injection Hej as <-. cbn. constructor.
    + by destruct He as [->|(i & j' & _ & _ & _ & ->)].
    + by destruct He as [-> _].
    + by destruct He as (j' & _ & _ & ->).
    + by destruct He as (i & j' & _ & _ & _ & _ & ->).
    + by destruct He as [-> _].
Qed.

(** C12: jobs follow their life cycle. Whatever an operation returns, it moves
    the state of any job only along the edges of the life cycle that belong to
    it: a submission makes a pending job, only [Lease] leases and only what is
    pending or waiting, only [Ack] finishes and only what is leased, only
    [Nack] and [ReclaimExpired] send a leased job to a retry or to the dead
    letters, and only [ReplayJob] brings a dead letter back. The diagrams of
    job.go and DESIGN.md draw other edges around the retry state (back to
    pending when the backoff ends, and from there to the dead letters); the
    code has none of those: it leases a waiting job directly, and a job is
    dead-lettered from its lease. *)
Theorem job_life_cycle o s id :
  store_wf s -> op_valid o s ->
  transition o (JState <$> jobs (mem s) !! id) (JState <$> jobs (mem (run_op o s)) !! id).
Proof.
  intros Hwf Hv. apply (change_transition o s (run_op o s) id); [apply Hwf|done|].
  by apply run_op_effect.
Qed.

(** *** Failure *)

(** What [failLocked] leaves of a job. *)
Definition failed_job (base capDelay : Duration) (j : Job) (reason : string) (now : Time)
    (rnd : Z -> Z) : Job :=
  fail_job (fail_event base capDelay j reason false now rnd) j.

Lemma failLocked_jobs j reason timeout now rnd s :
  jobs (mem s) !! ID j = Some j ->
  wp (failLocked j reason timeout now rnd) (fun r s' =>
    match r with
    | inl _ => mem s' = mem s
    | inr dead => dead = (MaxRetries j <? Attempt j) /\
        jobs (mem s') = <[ID j := failed_job (backoffBase s) (backoffCap s) j reason now rnd]>
                          (jobs (mem s)) /\
        backoffBase s' = backoffBase s /\ backoffCap s' = backoffCap s
    end) s.
Proof.
  intros Hj. unfold failLocked. do 3 wp_step.
  fold (fail_event (backoffBase s) (backoffCap s) j reason timeout now rnd).
  set (e := fail_event _ _ _ _ _ _ _).
  apply wp_recordLocked; [done|]. intros lsn l' m' _ Happ. wp_step.
  rewrite (apply_on_job e (fail_job e) remove (mem s) j) in Happ by done.
  injection Happ as <-.
  destruct (MaxRetries j <? Attempt j).
  - rewrite bool_decide_false by done. wp_step. wp_step. by split.
  - rewrite bool_decide_true by done. apply wp_push_job; intros; wp_step; by split.
Qed.

Lemma Nack_locked_jobs id epoch reason now rnd s j :
  mem_wf (mem s) -> jobs (mem s) !! id = Some j -> holdsLease j epoch = true ->
  wp (Nack_locked id epoch reason now rnd) (fun r s' =>
    match r with
    | inl _ => mem s' = mem s
    | inr x => x = Some (Queue j, MaxRetries j <? Attempt j) /\
        jobs (mem s') =
          <[id := failed_job (backoffBase s) (backoffCap s) j (nack_reason reason) now rnd]>
            (jobs (mem s))
    end) s.
Proof.
  intros Hwf Hj Hh. unfold Nack_locked. wp_step. unfold get_job at 1. wp_step.
  rewrite Hj, Hh. cbn [negb]. wp_step. pose proof (wf_keys _ Hwf _ _ Hj) as HID.
  eapply wp_mono; [apply failLocked_jobs; by rewrite HID|].
  intros [err|dead] s1 H; [done|]. destruct H as (-> & Hm & _). wp_step. by rewrite HID in Hm.
Qed.

Lemma reclaim_one_jobs id now rnd s j :
  mem_wf (mem s) -> jobs (mem s) !! id = Some j -> JState j = StateLeased ->
  LeaseExpiresAt j <= now ->
  wp (reclaim_loop [id] now rnd []) (fun r s' =>
    match r with
    | inr (acc, None) => acc = [(id, Queue j, MaxRetries j <? Attempt j)] /\
        jobs (mem s') =
          <[id := failed_job (backoffBase s) (backoffCap s) j "lease expired" now (rnd id)]>
            (jobs (mem s))
    | _ => mem s' = mem s
    end) s.
Proof.
  intros Hwf Hj Hst Hex. cbn [reclaim_loop]. wp_step. unfold get_job at 1. wp_step.
  rewrite Hj, bool_decide_true by done. cbn [negb].
  rewrite (proj2 (Z.ltb_ge _ _)) by done. pose proof (wf_keys _ Hwf _ _ Hj) as HID.
  do 2 wp_step. eapply wp_mono; [apply failLocked_jobs; by rewrite HID|].
  intros [err|dead] s1 H; cbn beta iota zeta; [by wp_step|].
  destruct H as (-> & Hm & _). wp_step. cbn [app]. by rewrite HID in Hm.
Qed.

(** *** A whole sweep *)

(** What a sweep at [now] makes of a job. *)
Definition expired (now : Time) (j : Job) : Prop :=
  JState j = StateLeased /\ LeaseExpiresAt j <= now.
#[export] Instance expired_dec now j : Decision (expired now j).
Proof. unfold expired. apply _. Defined.

Definition swept (base capDelay : Duration) (now : Time) (rnd : string -> Z -> Z) (id : string)
    (j : Job) : Job :=
  if decide (expired now j) then failed_job base capDelay j "lease expired" now (rnd id) else j.

(** The sweep's own account of a job. *)
Definition reported (now : Time) (m : gmap string Job) (id : string) : option reclaimed_job :=
  j ← m !! id;
  if decide (expired now j) then Some (id, Queue j, MaxRetries j <? Attempt j) else None.

Definition sweep_post (order : list string) (now : Time) (rnd : string -> Z -> Z)
    (acc : list reclaimed_job) s
    (r : storeError log_err + (list reclaimed_job * option (storeError log_err))) (s' : Store) :
    Prop :=
  forall acc', r = inr (acc', None) ->
    (forall id, jobs (mem s') !! id =
       if decide (id ∈ order)
       then swept (backoffBase s) (backoffCap s) now rnd id <$> jobs (mem s) !! id
       else jobs (mem s) !! id) /\
    acc' = acc ++ omap (reported now (jobs (mem s))) order.

(** A round that finds nothing to take back. *)
Lemma sweep_skip id order now rnd acc s s1 r s' :
  jobs (mem s1) = jobs (mem s) -> backoffBase s1 = backoffBase s -> backoffCap s1 = backoffCap s ->
  (forall j, jobs (mem s) !! id = Some j -> ~ expired now j) ->
  sweep_post order now rnd acc s1 r s' -> sweep_post (id :: order) now rnd acc s r s'.
Proof.
  intros E1 E2 E3 Hno H acc' Hr. destruct (H acc' Hr) as [Hj Hacc]. rewrite E1, E2, E3 in *.
  assert (Hid : swept (backoffBase s) (backoffCap s) now rnd id <$> jobs (mem s) !! id =
                jobs (mem s) !! id).
  { destruct (jobs (mem s) !! id) as [j|] eqn:E; [|done]. cbn. unfold swept.
    by rewrite decide_False by (by apply Hno). }
  split.
  - intros id'. rewrite Hj. destruct (decide (id' = id)) as [->|Hne].
    + rewrite (decide_True (P := id ∈ id :: order)) by left. rewrite Hid. by case_decide.
    + destruct (decide (id' ∈ order)) as [Hin|Hin].
      * by rewrite decide_True by (by right).
      * rewrite decide_False; [done|]. by intros [?|?]%elem_of_cons.
  - rewrite Hacc. f_equal. cbn. unfold reported at 2.
    destruct (jobs (mem s) !! id) as [j|] eqn:E; [|done]. cbn.
    by rewrite decide_False by (by apply Hno).
Qed.

Lemma reclaim_loop_sweeps order now rnd acc s :
  store_wf s -> NoDup order ->
  wp (reclaim_loop order now rnd acc) (sweep_post order now rnd acc s) s.
Proof.
  revert acc s. induction order as [|id order IH]; intros acc s Hwf Hnd; cbn [reclaim_loop].
  { wp_step. intros acc' [= <-]. split; [done|by rewrite app_nil_r]. }
  apply NoDup_cons in Hnd as [Hnin Hnd]. pose proof (inv_mem _ _ _ _ Hwf) as Hm.
  wp_step. unfold get_job at 1. wp_step.
  destruct (jobs (mem s) !! id) as [j|] eqn:Ej.
  2:{ do 2 wp_step. rewrite (remove_not_leased id (mem s) Hm), with_mem_id by (by rewrite Ej).
      eapply wp_mono; [by apply IH|]. intros r s'. apply sweep_skip; try done. by rewrite Ej. }
  destruct (bool_decide_reflect (JState j = StateLeased)) as [El|El]; cbn [negb].
  2:{ do 2 wp_step. rewrite (remove_not_leased id (mem s) Hm), with_mem_id
        by (rewrite Ej; by intros j' [= <-]).
      eapply wp_mono; [by apply IH|]. intros r s'. apply sweep_skip; try done.
      rewrite Ej. by intros j' [= <-] [? _]. }
  destruct (Z.ltb_spec now (LeaseExpiresAt j)) as [Hlt|Hle].
  { eapply wp_mono; [by apply IH|]. intros r s'. apply sweep_skip; try done.
    rewrite Ej. intros j' [= <-] [_ ?]. lia. }
  pose proof (wf_keys _ Hm _ _ Ej) as HID.
  do 2 wp_step. eapply wp_mono.
  { apply wp_and; [apply (failLocked_wf j "lease expired" true now (rnd id) s Hwf)|
      apply failLocked_jobs]; by rewrite ?HID. }
  intros [err|dead] s1 [Hwf1 H]; cbn beta iota zeta; [by wp_step; intros ? [=]|].
  destruct H as (-> & Hm1 & Hb1 & Hc1). rewrite HID in Hm1.
  eapply wp_mono; [by apply IH|]. intros r s' Hpost acc' Hr.
  destruct (Hpost acc' Hr) as [Hj Hacc]. rewrite Hb1, Hc1 in Hj.
  assert (Hex : expired now j) by done. split.
  - intros id'. rewrite Hj, Hm1. destruct (decide (id' = id)) as [->|Hne].
    + rewrite decide_False by done. rewrite decide_True by left.
      rewrite lookup_insert_eq, Ej. cbn. unfold swept. by rewrite decide_True.
    + rewrite lookup_insert_ne by done. destruct (decide (id' ∈ order)) as [Hin|Hin].
      * by rewrite decide_True by (by right).
      * rewrite decide_False; [done|]. by intros [?|?]%elem_of_cons.
  - rewrite Hacc, <- app_assoc. f_equal. cbn [omap list_omap]. unfold reported at 2.
    rewrite Ej. cbn. rewrite decide_True by done. cbn. f_equal.
    apply omap_ext_in. intros x Hx. unfold reported. rewrite Hm1.
    by rewrite lookup_insert_ne by (by intros ->).
Qed.

(** C24: a sweep takes back exactly the leases that ran out. Whatever the order
    in which the map of leases is visited, when [ReclaimExpired]'s sweep
    succeeds every leased job whose deadline has passed was failed, no other
    job has changed, and exactly those jobs are reported, each with its queue
    and whether it was dead-lettered. *)
Theorem reclaim_exact s order now rnd acc s' :
  store_wf s -> order ≡ₚ elements (leased (mem s)) ->
  reclaim_loop order now rnd [] s = (inr (acc, None), s') ->
  (forall id, jobs (mem s') !! id =
     swept (backoffBase s) (backoffCap s) now rnd id <$> jobs (mem s) !! id) /\
  (forall x, x ∈ acc <-> exists id, reported now (jobs (mem s)) id = Some x).
Proof.
  intros Hwf Hord Hrun. pose proof (inv_mem _ _ _ _ Hwf) as Hm.
  assert (Hnd : NoDup order) by (rewrite Hord; apply NoDup_elements).
  destruct (wp_elim _ _ _ _ _ (reclaim_loop_sweeps order now rnd [] s Hwf Hnd) Hrun acc eq_refl)
    as [Hj ->].
  assert (Hin : forall id j, jobs (mem s) !! id = Some j -> expired now j -> id ∈ order).
  { intros id j Hj' [Hst _]. rewrite Hord, elem_of_elements. apply (wf_leased _ Hm). by exists j. }
  split.
  - intros id. rewrite Hj. case_decide as Hid; [done|].
    destruct (jobs (mem s) !! id) as [j|] eqn:E; [|done]. cbn. unfold swept.
    rewrite decide_False; [done|]. intros Hex. apply Hid. by eapply Hin.
  - intros x. cbn [app]. rewrite list_elem_of_omap. split.
    + intros (id & _ & H). by exists id.
    + intros (id & H). exists id. split; [|done]. unfold reported in H.
      destruct (jobs (mem s) !! id) as [j|] eqn:E; [|done]. cbn in H.
      case_decide as Hex; [|done]. by apply (Hin id j).
Qed.

(** A job without its last error. *)
Definition sans_error (j : Job) : Job :=
  mkJob (ID j) (Queue j) (Handler j) (Payload j) (IdempotencyKey j) (JPriority j) (MaxRetries j)
    (Attempt j) (JState j) (Epoch j) (EnqueuedAt j) (EligibleAt j) (LeaseExpiresAt j)
    (LeasedBy j) "".

(** C23: a lease that times out costs exactly what a reported failure costs.
    For a leased job whose deadline has passed, [ReclaimExpired] and a [Nack]
    by its holder, when they succeed, agree on whether it is dead-lettered and
    leave the same job behind, down to the backoff and the attempt count; only
    the text of the last error differs. *)
Theorem timeout_costs_as_nack s id j reason now rnd s1 x s2 acc :
  store_wf s -> jobs (mem s) !! id = Some j -> JState j = StateLeased ->
  LeaseExpiresAt j <= now ->
  Nack_locked id (Epoch j) reason now rnd s = (inr x, s1) ->
  reclaim_loop [id] now (fun _ => rnd) [] s = (inr (acc, None), s2) ->
  exists dead, x = Some (Queue j, dead) /\ acc = [(id, Queue j, dead)] /\
    sans_error <$> jobs (mem s1) !! id = sans_error <$> jobs (mem s2) !! id /\
    is_Some (jobs (mem s1) !! id).
Proof.
  intros Hwf Hj Hst Hex Hn Hr. pose proof (inv_mem _ _ _ _ Hwf) as Hm.
  assert (Hh : holdsLease j (Epoch j) = true).
  { unfold holdsLease. by rewrite bool_decide_true, N.eqb_refl. }
  pose proof (wp_elim _ _ _ _ _ (Nack_locked_jobs id (Epoch j) reason now rnd s j Hm Hj Hh) Hn)
    as [-> E1].
  pose proof (wp_elim _ _ _ _ _ (reclaim_one_jobs id now (fun _ => rnd) s j Hm Hj Hst Hex) Hr)
    as [-> E2].
  eexists. split; [done|]. split; [done|]. rewrite E1, E2, !lookup_insert_eq. by eauto.
Qed.

(** C22: a failed delivery is retried exactly while the budget lasts. When a
    holder's [Nack] succeeds, the job is dead-lettered if its attempts exceed
    its retries, and otherwise waits until the backoff of its attempt is over;
    its attempt count, token and identity stay, and no worker holds it. *)
Theorem nack_respects_budget s id j reason now rnd s' dead :
  store_wf s -> jobs (mem s) !! id = Some j -> JState j = StateLeased ->
  Nack_locked id (Epoch j) reason now rnd s = (inr (Some (Queue j, dead)), s') ->
  exists j', jobs (mem s') !! id = Some j' /\ Attempt j' = Attempt j /\ Epoch j' = Epoch j /\
    identity j' = identity j /\ LeasedBy j' = ""%string /\ LastError j' = nack_reason reason /\
    if MaxRetries j <? Attempt j
    then dead = true /\ JState j' = StateDeadLetter /\ EligibleAt j' = now
    else dead = false /\ JState j' = StateRetryWait /\
         EligibleAt j' = now + Backoff rnd (Attempt j) (backoffBase s) (backoffCap s).
Proof.
  intros Hwf Hj Hst Hn. pose proof (inv_mem _ _ _ _ Hwf) as Hm.
  assert (Hh : holdsLease j (Epoch j) = true).
  { unfold holdsLease. by rewrite bool_decide_true, N.eqb_refl. }
  pose proof (wp_elim _ _ _ _ _ (Nack_locked_jobs id (Epoch j) reason now rnd s j Hm Hj Hh) Hn)
    as [[= ->] E].
  exists (failed_job (backoffBase s) (backoffCap s) j (nack_reason reason) now rnd).
  rewrite E, lookup_insert_eq. split; [done|]. unfold failed_job, fail_event, identity. cbn.
  by destruct (MaxRetries j <? Attempt j).
Qed.
End Jobs.

(** ** Errors, deduplication and queries *)

Section More.
Context {L : Type} {lops : LogOps L}.
Context {codec : EventCodec}.
Implicit Types (s : Store).

(** *** After a failed flush *)

(** The jobs up to the deadlines of their leases, and the index of keys. *)
Definition but_deadlines (m : Mem) : gmap string Job * gmap string string :=
  (extend_lease zeroTime <$> jobs m, idem m).

(** [s'] is what a store that failed with [err] and had the jobs of [s] may
    look like: the error is still there, and so are the jobs. *)
Definition still_failed (err : storeError log_err) s s' : Prop :=
  failed s' = Some err /\ but_deadlines (mem s') = but_deadlines (mem s).

Lemma still_failed_trans err s s1 s2 :
  still_failed err s s1 -> still_failed err s1 s2 -> still_failed err s s2.
Proof. intros [_ H1] [H2 H3]. split; [done|congruence]. Qed.

Lemma recordLocked_poisoned e s err :
  failed s = Some err -> recordLocked e s = (inl err, s).
Proof. intros Hf. unfold recordLocked. erewrite bind_ok; [|reflexivity]. by rewrite Hf. Qed.

Lemma wp_record_poisoned e s err (Q : storeError log_err + unit -> Store -> Prop) :
  failed s = Some err -> Q (inl err) s -> wp (recordLocked e) Q s.
Proof. intros Hf H. unfold wp. by rewrite (recordLocked_poisoned e s err). Qed.

Lemma failLocked_poisoned j reason timeout now rnd s err :
  failed s = Some err -> failLocked j reason timeout now rnd s = (inl err, s).
Proof.
  intros Hf. unfold failLocked. erewrite bind_ok; [|reflexivity]. cbv zeta.
  by erewrite bind_err by (by apply recordLocked_poisoned).
Qed.

(** A reservation may still be written, but it touches no job. *)
Lemma nextEpoch_poisoned s err :
  failed s = Some err -> wp nextEpochLocked (fun _ s' => still_failed err s s') s.
Proof.
  intros Hf.
  assert (Hres : wp reserveEpochsLocked (fun _ s' => still_failed err s s') s).
  { unfold reserveEpochsLocked. wp_auto. unfold encode.
    destruct (encodeEvent _) as [b|]; wp_auto; [|done].
    apply wp_zoom. unfold wp at 1.
    destruct (log_append_sync b (log s)) as [[e|lsn] l']; cbn [fst snd]; [done|].
    wp_step. apply wp_zoom. by unfold wp. }
  unfold nextEpochLocked. wp_auto. destruct (_ <? _)%N; [|by wp_auto].
  eapply wp_mono; [exact Hres|]. intros [e|[]] s' [H1 H2]; [done|]. by wp_auto.
Qed.

Lemma lease_loop_poisoned fuel queue workerID dur now s err :
  failed s = Some err ->
  wp (lease_loop fuel queue workerID dur now)
    (fun r s' => still_failed err s s' /\ forall j, r <> inr (Some j)) s.
Proof.
  revert s. induction fuel as [|fuel IH]; intros s Hf; cbn [lease_loop]; [by wp_auto|].
  wp_auto. destruct (pop queue (index s)) as [[cand ix']|]; [|by wp_auto].
  unfold get_job. wp_auto. set (s1 := with_index ix' s).
  destruct (jobs (mem s1) !! id cand) as [j|]; [|by apply (IH s1)].
  destruct (negb _); [by apply (IH s1)|]. destruct (negb _); [by apply (IH s1)|].
  destruct (now <? EligibleAt j); [unfold on_index; wp_auto; by apply (IH (with_index _ s1))|].
  unfold lease_turn. wp_auto.
  eapply wp_mono; [by apply (nextEpoch_poisoned s1 err)|]. intros [e|epoch] s' [H1 H2].
  { unfold on_index. by wp_auto. }
  wp_auto. apply (wp_record_poisoned _ s' err); [done|]. unfold push_job, get_job. wp_auto.
  destruct (jobs (mem s') !! id cand); unfold on_index; by wp_auto.
Qed.

Lemma Lease_poisoned queue workerID dur now s err :
  failed s = Some err ->
  wp (Lease queue workerID dur now)
    (fun r s' => still_failed err s s' /\ forall j, r <> inr (Some j)) s.
Proof. intros Hf. unfold Lease, on_index. wp_auto. by apply (lease_loop_poisoned _ _ _ _ _ (with_index _ s)). Qed.

Lemma reclaim_poisoned order now rnd s err :
  failed s = Some err ->
  wp (reclaim_loop order now rnd [])
    (fun r s' => still_failed err s s' /\ exists e, r = inr ([], e)) s.
Proof.
  revert s. induction order as [|id order IH]; intros s Hf; cbn [reclaim_loop].
  2: assert (IH' : wp (reclaim_loop order now rnd [])
       (fun r s' => still_failed err s s' /\ exists e, r = inr ([], e))
       (with_mem (set_leased (remove id) (mem s)) s)).
  2: { eapply wp_mono; [by apply IH|]. intros r s' [H He]. split; [|done].
       eapply still_failed_trans; [|exact H]. by split. }
  { wp_auto. split; [done|]. by exists None. }
  unfold get_job. wp_auto. destruct (jobs (mem s) !! id) as [j|]; [|by wp_auto].
  destruct (negb _); [by wp_auto|].
  destruct (now <? LeaseExpiresAt j); [by apply IH|]. wp_auto. unfold wp at 1.
  rewrite (failLocked_poisoned _ _ _ _ _ s err) by done. wp_auto. split; [done|]. by exists (Some err).
Qed.

Lemma Submit_locked_poisoned p id now s err :
  failed s = Some err -> Submit_locked p id now s = (inl err, s).
Proof. intros Hf. unfold Submit_locked. erewrite bind_ok; [|reflexivity]. by rewrite Hf. Qed.

Lemma extend_kept id e j s :
  jobs (mem s) !! id = Some j ->
  but_deadlines (set_jobs <[id := extend_lease e j]> (mem s)) = but_deadlines (mem s).
Proof.
  intros Hj. unfold but_deadlines. cbn. f_equal. rewrite fmap_insert. apply insert_id.
  by rewrite lookup_fmap, Hj.
Qed.

(** No operation takes the error away or changes a job. *)
Lemma run_op_poisoned o s err : failed s = Some err -> still_failed err s (run_op o s).
Proof.
  intros Hf. destruct o; cbn [run_op].
  - by rewrite Submit_locked_poisoned with (err := err).
  - by apply (Lease_poisoned queue workerID dur now s err).
  - apply (wp_run _ s (still_failed err s)). unfold Ack_locked, get_job. wp_auto. destruct (jobs (mem s) !! id); [|by wp_auto].
    destruct (negb _); unfold inc; wp_auto; [done|]. by apply (wp_record_poisoned _ s err).
  - apply (wp_run _ s (still_failed err s)). unfold Nack_locked, get_job. wp_auto. destruct (jobs (mem s) !! id); [|by wp_auto].
    destruct (negb _); unfold inc; wp_auto; [done|]. unfold wp. by rewrite (failLocked_poisoned _ _ _ _ _ s err).
  - apply (wp_run _ s (still_failed err s)). unfold Heartbeat, get_job. wp_auto. destruct (jobs (mem s) !! id) as [j|] eqn:Hj; [|by wp_auto].
    destruct (negb _); wp_auto; [done|]. split; [done|]. cbn [mem with_mem]. by apply extend_kept.
  - by apply (reclaim_poisoned order now rnd s err).
  - apply (wp_run _ s (still_failed err s)). unfold ReplayJob_locked, get_job. wp_auto. destruct (jobs (mem s) !! id); [|by wp_auto].
    destruct (negb _); wp_auto; [done|]. by apply (wp_record_poisoned _ s err).
  - unfold commitDurable, bind, try, on_log, zoom, gets.
    destruct (log_sync (log s)) as [[e|a] l']; cbn; rewrite ?Hf; by split.
Qed.

Definition run_ops (ops : list operation) s : Store := fold_left (fun s o => run_op o s) ops s.

Lemma run_ops_poisoned ops s err : failed s = Some err -> still_failed err s (run_ops ops s).
Proof.
  revert s. induction ops as [|o ops IH]; intros s Hf; cbn; [done|].
  pose proof (run_op_poisoned o s err Hf) as H.
  eapply still_failed_trans; [exact H|]. apply IH, H.
Qed.

Lemma commit_fails s e l' :
  failed s = None -> log_sync (log s) = (inl e, l') ->
  commitDurable s = (inl (ErrDurabilityLost e), with_failed (Some (ErrDurabilityLost e)) (with_log l' s)).
Proof.
  intros Hf He. unfold commitDurable.
  erewrite bind_ok; [|unfold try, on_log, zoom; rewrite He; reflexivity]. cbn beta iota.
  erewrite bind_ok; [|reflexivity]. cbn [failed with_log]. by rewrite Hf.
Qed.

Lemma reclaim_none order now rnd s err :
  failed s = Some err -> exists e, (ReclaimExpired_in order now rnd s).1 = inr ([], e).
Proof.
  intros Hf. pose proof (reclaim_poisoned order now rnd s err Hf) as H. unfold wp in H.
  destruct (reclaim_loop order now rnd [] s) as [r s'] eqn:E. cbn [fst snd] in H.
  destruct H as [_ [e ->]]. unfold ReclaimExpired_in. erewrite bind_ok by exact E. cbn.
  by destruct e as [e|]; eexists.
Qed.

(** What the holder of a lease, and who replays a dead letter, is told. *)
Lemma holder_refused id j s err :
  failed s = Some err -> jobs (mem s) !! id = Some j ->
  (JState j = StateLeased -> Ack id (Epoch j) s = (inl err, s) /\
     forall reason now rnd, Nack id (Epoch j) reason now rnd s = (inl err, s)) /\
  (JState j = StateDeadLetter -> forall now, ReplayJob id now s = (inl err, s)).
Proof.
  intros Hf Hj. split.
  - intros Hst.
    assert (Hh : holdsLease j (Epoch j) = true).
    { unfold holdsLease. by rewrite bool_decide_true, N.eqb_refl. }
    split.
    + assert (E : Ack_locked id (Epoch j) s = (inl err, s)).
      { unfold Ack_locked. erewrite bind_ok; [|reflexivity]. rewrite Hj, Hh. cbn [negb].
        by erewrite bind_err by (by apply recordLocked_poisoned). }
      unfold Ack. by erewrite bind_err by exact E.
    + intros reason now rnd. assert (E : Nack_locked id (Epoch j) reason now rnd s = (inl err, s)).
      { unfold Nack_locked. erewrite bind_ok; [|reflexivity]. rewrite Hj, Hh. cbn [negb].
        by erewrite bind_err by (by apply failLocked_poisoned). }
      unfold Nack. by erewrite bind_err by exact E.
  - intros Hst now. assert (E : ReplayJob_locked id now s = (inl err, s)).
    { unfold ReplayJob_locked. erewrite bind_ok; [|reflexivity].
      rewrite Hj, bool_decide_true by done. cbn [negb].
      by erewrite bind_err by (by apply recordLocked_poisoned). }
    unfold ReplayJob. by erewrite bind_err by exact E.
Qed.

(** C32: a store that lost durability takes no more writes. When a flush of the
    log fails, [commitDurable] returns the error, and whatever the store is
    asked from then on ([ops]) it keeps that error and every job, up to the
    deadlines that heartbeats extend. In every such state a submission, an [Ack]
    or [Nack] by the holder and a replay of a dead letter fail with that error
    and change nothing; [Lease] hands out no job (it may still reserve tokens),
    [ReclaimExpired] takes none back, and a later flush that fails reports the
    error of the first. *)
Theorem poisoned_store_refuses s e l' ops :
  failed s = None -> log_sync (log s) = (inl e, l') ->
  let err := ErrDurabilityLost e in
  let s2 := run_ops ops (commitDurable s).2 in
  (commitDurable s).1 = inl err /\
  failed s2 = Some err /\ but_deadlines (mem s2) = but_deadlines (mem s) /\
  (forall p id now, TrimSpace (PQueue p) <> ""%string -> Submit p id now s2 = (inl err, s2)) /\
  (forall id j, jobs (mem s2) !! id = Some j ->
     (JState j = StateLeased -> Ack id (Epoch j) s2 = (inl err, s2) /\
        forall reason now rnd, Nack id (Epoch j) reason now rnd s2 = (inl err, s2)) /\
     (JState j = StateDeadLetter -> forall now, ReplayJob id now s2 = (inl err, s2))) /\
  (forall queue workerID dur now j, (Lease queue workerID dur now s2).1 <> inr (Some j)) /\
  (forall order now rnd, exists e', (ReclaimExpired_in order now rnd s2).1 = inr ([], e')) /\
  (forall e' l2, log_sync (log s2) = (inl e', l2) -> commitDurable s2 = (inl err, with_log l2 s2)).
Proof.
  intros Hno He err s2. pose proof (commit_fails s e l' Hno He) as Hc.
  assert (H2 : still_failed err (commitDurable s).2 s2) by (apply run_ops_poisoned; by rewrite Hc).
  clearbody s2. rewrite Hc in H2 |- *. destruct H2 as [Hf Hm].
  do 3 (split; [done|]). split; [|split; [|split; [|split]]].
  - intros p id now Hq. unfold Submit. rewrite bool_decide_false by done. cbv zeta.
    by erewrite bind_err by (by apply Submit_locked_poisoned).
  - intros id j Hj. by apply (holder_refused id j s2 err).
  - intros queue workerID dur now j. by apply (Lease_poisoned queue workerID dur now s2 err).
  - intros order now rnd. by apply (reclaim_none _ _ _ s2 err).
  - intros e' l2 He'. unfold commitDurable.
    erewrite bind_ok; [|unfold try, on_log, zoom; rewrite He'; reflexivity].
    cbn beta iota. erewrite bind_ok; [|reflexivity]. cbn [failed with_log]. by rewrite Hf.
Qed.

(** A submission whose key is known changes nothing. On a store in its
    invariant that is not poisoned, a submission whose idempotency key is
    filed for its queue returns the one job filed under it, marked as a
    duplicate, and records no event; and no two jobs share a queue and a key. *)
Theorem duplicate_submit_returns_original s p id now old :
  store_wf s -> failed s = None -> TrimSpace (PQueue p) <> ""%string ->
  PIdempotencyKey p <> ""%string ->
  idem (mem s) !! idemKey (PQueue p) (PIdempotencyKey p) = Some old ->
  exists j, jobs (mem s) !! old = Some j /\
    job_key j = idemKey (PQueue p) (PIdempotencyKey p) /\
    Submit p id now s = (inr (Some j, true), with_metric (JobsDeduplicated (PQueue p)) s) /\
    forall id' j', jobs (mem s) !! id' = Some j' -> IdempotencyKey j' <> ""%string ->
      Queue j' = Queue j -> IdempotencyKey j' = IdempotencyKey j -> id' = old.
Proof.
  intros Hwf Hf Hq Hk Hold. pose proof (inv_mem _ _ _ _ Hwf) as Hm.
  destruct (wf_idem_sound _ Hm _ _ Hold) as (j & Hj & Hkj & Ekey).
  exists j. split; [done|]. split; [done|]. split.
  - unfold Submit. rewrite bool_decide_false by done. cbv zeta.
    assert (E : Submit_locked (submit_defaults p) id now s = (inr (Some j, true), s)).
    { unfold Submit_locked. erewrite bind_ok; [|reflexivity]. rewrite Hf.
      erewrite bind_ok; [|reflexivity]. cbn [submit_defaults PIdempotencyKey PQueue].
      rewrite bool_decide_false, Hold by done. by rewrite Hj. }
    by erewrite bind_ok by exact E.
  - intros id' j' Hj' Hk' Eq Ek.
    pose proof (wf_idem_complete _ Hm _ _ Hj' Hk') as H1.
    pose proof (wf_idem_complete _ Hm _ _ Hj Hkj) as H2.
    unfold job_key in *. rewrite Eq, Ek, H2 in H1. congruence.
Qed.

Lemma ReplayJob_locked_jobs id now s j :
  jobs (mem s) !! id = Some j -> JState j = StateDeadLetter ->
  wp (ReplayJob_locked id now) (fun r s' => match r with
    | inl _ => True
    | inr _ => jobs (mem s') = <[id := replay_job (ev_replay id now) j]> (jobs (mem s))
    end) s.
Proof.
  intros Hj Hd. unfold ReplayJob_locked. wp_step. unfold get_job at 1. wp_step.
  rewrite Hj, bool_decide_true by done. cbn [negb]. wp_step.
  apply wp_recordLocked; [done|]. intros lsn l' m' _ Happ. wp_step.
  rewrite (apply_on_job (ev_replay id now) (replay_job (ev_replay id now)) remove (mem s) j)
    in Happ by done. injection Happ as <-.
  apply wp_push_job; intros; wp_step; done.
Qed.

(** Only a dead letter can be replayed, and it gets a fresh budget. On
    any other job [ReplayJob] reports an error and changes nothing; when it
    succeeds on a dead letter, the job is pending at once with no attempts,
    no error and no holder, under its old identity. *)
Theorem replay_only_dead_letters s id now :
  store_wf s ->
  match jobs (mem s) !! id with
  | None => ReplayJob id now s = (inl ErrJobNotFound, s)
  | Some j =>
      if decide (JState j = StateDeadLetter) then
        forall s', ReplayJob id now s = (inr tt, s') ->
          exists j', jobs (mem s') !! id = Some j' /\ JState j' = StatePending /\
            Attempt j' = 0 /\ LastError j' = ""%string /\ LeasedBy j' = ""%string /\
            EligibleAt j' = now /\ identity j' = identity j /\
            entry_of j' ∈ entries (Queue j') (index s')
      else ReplayJob id now s = (inl ErrNotDeadLettered, s)
  end.
Proof.
  intros Hwf. destruct (jobs (mem s) !! id) as [j|] eqn:Hj.
  2:{ assert (E : ReplayJob_locked id now s = (inl ErrJobNotFound, s)).
      { unfold ReplayJob_locked. erewrite bind_ok; [|reflexivity]. by rewrite Hj. }
      unfold ReplayJob. by erewrite bind_err by exact E. }
  case_decide as Hd.
  2:{ assert (E : ReplayJob_locked id now s = (inl ErrNotDeadLettered, s)).
      { unfold ReplayJob_locked. erewrite bind_ok; [|reflexivity].
        by rewrite Hj, bool_decide_false. }
      unfold ReplayJob. by erewrite bind_err by exact E. }
  intros s' Hrun.
  assert (H : wp (ReplayJob id now) (fun r s' => match r with
    | inl _ => True
    | inr _ => store_wf s' /\
        jobs (mem s') = <[id := replay_job (ev_replay id now) j]> (jobs (mem s))
    end) s).
  { unfold ReplayJob. wp_step.
    eapply wp_mono; [apply wp_and; [by apply ReplayJob_locked_wf|by apply ReplayJob_locked_jobs]|].
    intros [err|q] s1 [Hwf1 Hm1]; [done|]. wp_step. apply wp_commitDurable; [|done].
    intros l'. unfold inc, signal. wp_auto. by split. }
  pose proof (wp_elim _ _ _ _ _ H Hrun) as [Hwf' Hm'].
  exists (replay_job (ev_replay id now) j). rewrite Hm', lookup_insert_eq.
  do 7 (split; [done|]).
  apply (inv_complete _ _ _ _ Hwf' id); [|done|done]. by rewrite Hm', lookup_insert_eq.
Qed.
End More.

(** ** What recovery and keys do not guarantee *)

(** A job that may not be retried at all. *)
Definition poison_params : SubmitParams :=
  mkSubmitParams "mail" "shell" (list_ascii_of_string "kill -9 broker") "" PriorityNormal 0 0.

(** The job is leased, its lease record reaches the disk, and the machine goes
    down. *)
Definition killed_while_leased (now : Time) (s : Store (L := Log)) : Store :=
  let s := run_op (OpLease "mail" "w" 100 now) s in
  let s := run_op OpCommit s in
  opened (power_loss (log s)) dir0 (now + 1).

Definition poison_store : Store :=
  run_op OpCommit (run_op (OpSubmit poison_params "poison" 2000) store0).

(** A job that brings the broker down every time it runs is delivered
    again without end. Recovery counts the attempt but never compares it with
    the limit: with no retries allowed, after three deliveries the job is
    eligible for a fourth. *)
Theorem crash_loop_outlives_budget :
  let s := killed_while_leased 5000 (killed_while_leased 4000 (killed_while_leased 3000 poison_store)) in
  exists j, jobs (mem s) !! "poison"%string = Some j /\ MaxRetries j = 0 /\ Attempt j = 3 /\
    JState j = StateRetryWait /\
    match (Lease "mail" "w" 100 6000 s).1 with
    | inr (Some j') => ID j' = "poison"%string /\ Attempt j' = 4
    | _ => False
    end.
Proof. vm_compute. eexists. split; [reflexivity|]. by split_and!. Qed.

Definition nul : string := String (ascii_of_N 0) "".
Definition collide1 : SubmitParams :=
  mkSubmitParams "a" "shell" [] ("b" ++ nul ++ "c")%string PriorityNormal 0 0.
Definition collide2 : SubmitParams :=
  mkSubmitParams ("a" ++ nul ++ "b")%string "shell" [] "c" PriorityNormal 0 0.

(** Idempotency keys can collide across queues. Two submissions to
    different queues with different keys get the same map key when a NUL byte
    is placed in one of them, and the second is answered with the job of the
    first. *)
Theorem idem_keys_collide :
  PQueue collide1 <> PQueue collide2 /\ PIdempotencyKey collide1 <> PIdempotencyKey collide2 /\
  idemKey (PQueue collide1) (PIdempotencyKey collide1) =
    idemKey (PQueue collide2) (PIdempotencyKey collide2) /\
  match (Submit collide2 "j2" 3000 (Submit collide1 "j1" 2000 store0).2).1 with
  | inr (Some j, true) => ID j = "j1"%string /\ Queue j = PQueue collide1
  | _ => False
  end.
Proof. split; [done|]. split; [done|]. vm_compute. by split_and!. Qed.

(** ** Witnesses *)

Ltac evaluated := vm_compute; reflexivity.

Lemma fenced_worker_rejected_witness :
  (Ack "job-1" 1 store3).1 = inr false /\ (Nack "job-1" 1 "late" 0 no_jitter store3).1 = inr (false, false).
Proof.
  destruct (fenced_worker_rejected store3 "job-1" 1 "late" 0 0 no_jitter demo_waiting) as (H1 & H2 & _).
  - evaluated.
  - intros [H _]. vm_compute in H. discriminate.
  - split; [exact (f_equal fst H1)|exact (f_equal fst H2)].
Defined.

Lemma store4_crash : log_crash (log store4) (power_loss (log store4)).
Proof.
  apply power_loss_crash.
  apply (proj1 (bool_decide_eq_true (map_Forall (fun _ f => synced_within f)
    (files (disk (log store4)))))). evaluated.
Qed.

Lemma dir0_crash : dir_crash dir0 dir0.
Proof. split; [done|]. intros name. left. unfold dir0. cbn [entries_now]. by rewrite lookup_empty. Qed.

Lemma dir0_covered l : covered demo_config l dir0.
Proof. intros l2 _ name k [f Hf]. unfold dir0 in Hf. cbn [entries_now] in Hf. by rewrite lookup_empty in Hf. Qed.

(** The job is leased again, the power fails (the leases were not flushed, the
    job is pending again), and what starts after that takes a snapshot. *)
Definition store_back : Store := opened (power_loss (log store4)) dir0 9000000600.

Lemma store_back_opens :
  exists l', OpenStore demo_config 9000000600 (power_loss (log store4), dir0) = (inr store_back, (l', dir0)).
Proof.
  destruct store4_healthy as [_ (base & hist & n & Hrec)].
  destruct (crash_recovers base hist n store4 dir0 (power_loss (log store4)) dir0 demo_config 9000000600
    Hrec store4_crash dir0_crash eq_refl) as (k & b & live & m & s' & l' & _ & H & _); [evaluated|].
  exists l'. unfold store_back, opened. by rewrite H.
Qed.

Definition taken (cs : list outcome) (s : Store) (d : SnapDir) : Store * SnapDir :=
  (Snapshot (s, with_calls cs d)).2.

Lemma demo_run :
  run store3 dir0 [2%N] (taken [] store_back dir0).1 (taken [] store_back dir0).2.
Proof.
  destruct store_back_opens as [l' H].
  change [2%N] with ([2%N] ++ [] ++ [] ++ [])%list.
  eapply run_step; [|eapply run_step; [|eapply run_step; [|apply run_nil]]].
  - assert (E : [2%N] = granted (OpLease "mail" "w2" 500 9000000000) store3) by evaluated.
    rewrite E. apply step_op; [apply store3_epoch_room|apply demo_release_ok|by vm_compute].
  - apply (step_crash _ _ (power_loss (log store4)) dir0 demo_config 9000000600 store_back l');
      [apply store4_crash|apply dir0_crash|apply dir0_covered|done|by vm_compute|exact H].
  - apply step_snapshot. evaluated.
Qed.

Lemma taken_jobs cs s d : in_service s d -> snap_encodable (capture s) ->
  jobs (mem (taken cs s d).1) = jobs (mem s).
Proof.
  intros [Hwf (base & hist & n & Hsp)] Henc.
  unfold taken. by destruct (snapshot_spanned base hist n cs s d Hwf Hsp Henc) as [_ [l' ->]].
Qed.

Lemma store_back_jobs : jobs (mem (taken [] store_back dir0).1) = {["job-1" := demo_job]}.
Proof.
  rewrite taken_jobs; [evaluated| |evaluated].
  destruct store_back_opens as [l' H].
  eapply step_spec; [apply healthy_in_service, store4_healthy|].
  apply (step_crash _ _ (power_loss (log store4)) dir0 demo_config 9000000600 store_back l');
    [apply store4_crash|apply dir0_crash|apply dir0_covered|done|by vm_compute|exact H].
Qed.

Lemma zombie_never_accepted_witness :
  JState <$> jobs (mem store3) !! "job-1"%string = Some StateRetryWait /\
  (Ack "job-1" 1 (taken [] store_back dir0).1).1 = inr false.
Proof.
  split; [evaluated|].
  refine (proj1 (zombie_never_accepted store3 dir0 "job-1" 1 [2%N] _ _ "" 0 0 no_jitter
    demo_job (healthy_in_service _ _ store3_healthy) _ _ demo_run _)).
  - evaluated.
  - intros j Hj [H _]. rewrite store3_jobs in Hj. apply lookup_singleton_Some in Hj as [_ <-].
    vm_compute in H. discriminate.
  - rewrite store_back_jobs. by rewrite lookup_singleton_eq.
Defined.

Lemma tokens_never_repeat_witness :
  nextEpoch store3 = 2%N /\ StronglySorted N.lt [2%N] /\
  Forall (fun t => 2 <= t < nextEpoch (taken [] store_back dir0).1)%N [2%N].
Proof.
  split; [evaluated|].
  exact (tokens_never_repeat store3 dir0 [2%N] _ _ (healthy_in_service _ _ store3_healthy) demo_run).
Defined.

Lemma acked_job_stays_done_witness :
  exists s', Ack "job-1" 1 store2 = (inr true, s') /\
    jobs (mem s') = <["job-1" := ack_job demo_leased]> (jobs (mem store2)) /\
    forall toks s2 d2, run s' dir0 toks s2 d2 ->
      exists j2, jobs (mem s2) !! "job-1"%string = Some j2 /\ JState j2 = StateDone.
Proof.
  apply (acked_job_stays_done store2 dir0 "job-1" 1 demo_leased (healthy_in_service _ _ store2_healthy)); evaluated.
Defined.

Lemma acked_submit_survives_witness :
  exists s', Submit demo_params "job-1" 2000 store0 = (inr (Some demo_job, false), s') /\
    jobs (mem s') !! "job-1"%string = Some demo_job /\
    forall toks s2 d2, run s' dir0 toks s2 d2 ->
      exists j2, jobs (mem s2) !! "job-1"%string = Some j2 /\ identity j2 = identity demo_job.
Proof.
  apply (acked_submit_survives store0 dir0 demo_params "job-1" 2000 (healthy_in_service _ _ store0_healthy)).
  - vm_compute. discriminate.
  - evaluated.
  - intros _. evaluated.
  - evaluated.
  - evaluated.
Defined.

Lemma store2_crash : log_crash (log store2) (power_loss (log store2)).
Proof.
  apply power_loss_crash.
  apply (proj1 (bool_decide_eq_true (map_Forall (fun _ f => synced_within f)
    (files (disk (log store2)))))). evaluated.
Qed.

Lemma crash_recovery_witness :
  exists base hist n k m s' l', recorded base hist n store2 dir0 /\
    OpenStore demo_config 9 (power_loss (log store2), dir0) = (inr s', (l', dir0)) /\
    (n <= k <= length hist)%nat /\ history m (take k hist) /\ mem_sim (mem s') m.
Proof.
  destruct store2_healthy as [Hwf (base & hist & n & Hrec)].
  destruct (crash_recovery base hist n store2 dir0 (power_loss (log store2)) dir0 demo_config 9 Hwf Hrec
    store2_crash dir0_crash eq_refl) as (k & base' & m & s' & l' & H1 & H2 & H3 & H4 & _); [evaluated|].
  exists base, hist, n, k, m, s', l'.
  exact (conj Hrec (conj H1 (conj H2 (conj H3 H4)))).
Defined.

Lemma store_wf_preserved_witness : store_wf store2 /\ store_wf (run_op (OpAck "job-1" 1) store2).
Proof.
  split; [apply store2_healthy|].
  exact (store_wf_preserved (OpAck "job-1" 1) store2 (proj1 store2_healthy) I).
Defined.

Lemma lease_fair_and_live_witness :
  exists j', (Lease "mail" "w1" 500 3000 store1).1 = inr (Some j') /\
    exists j, best "mail" 3000 store1 j /\ ID j' = ID j.
Proof.
  set (run := Lease "mail" "w1" 500 3000 store1).
  assert (E : Lease "mail" "w1" 500 3000 store1 = (inr (Some demo_leased), run.2))
    by (apply pair_of_fst; evaluated).
  exists demo_leased. split; [exact (f_equal fst E)|].
  destruct (lease_fair_and_live store1 "mail" "w1" 500 3000 (inr (Some demo_leased)) run.2
    (proj1 store1_healthy) store1_epoch_room E) as (j & Hb & Hj & _).
  exists j. split; [exact Hb|exact (f_equal ID Hj)].
Defined.

Lemma job_life_cycle_witness :
  transition (OpAck "job-1" 1) (Some StateLeased) (Some StateDone).
Proof.
  assert (E1 : JState <$> jobs (mem store2) !! "job-1"%string = Some StateLeased)
    by (vm_compute; reflexivity).
  assert (E2 : JState <$> jobs (mem (run_op (OpAck "job-1" 1) store2)) !! "job-1"%string =
               Some StateDone) by (vm_compute; reflexivity).
  rewrite <- E1, <- E2.
  exact (job_life_cycle (OpAck "job-1" 1) store2 "job-1" (proj1 store2_healthy) I).
Defined.

Lemma timeout_costs_as_nack_witness :
  exists (dead : bool) x acc, x = Some ("mail"%string, dead) /\ acc = [("job-1"%string, "mail"%string, dead)].
Proof.
  assert (H : exists x s1 acc s2,
    Nack_locked "job-1" 1 "boom" 4000 no_jitter store2 = (inr x, s1) /\
    reclaim_loop ["job-1"%string] 4000 (fun _ => no_jitter) [] store2 = (inr (acc, None), s2)).
  { exists (Some ("mail"%string, false)). eexists.
    exists [("job-1"%string, "mail"%string, false)]. eexists.
    split; apply pair_of_fst; evaluated. }
  destruct H as (x & s1 & acc & s2 & Hn & Hr).
  destruct (timeout_costs_as_nack store2 "job-1" demo_leased "boom" 4000 no_jitter s1 x s2 acc
    (proj1 store2_healthy)) as (dead & H1 & H2 & _); [evaluated..| |exact Hn|exact Hr|].
  - vm_compute. discriminate.
  - exists dead, x, acc. exact (conj H1 H2).
Defined.

Lemma nack_respects_budget_witness :
  exists s' j', Nack_locked "job-1" 1 "boom" 4000 no_jitter store2 =
      (inr (Some ("mail"%string, false)), s') /\
    jobs (mem s') !! "job-1"%string = Some j' /\ JState j' = StateRetryWait.
Proof.
  assert (H : exists s', Nack_locked "job-1" 1 "boom" 4000 no_jitter store2 =
      (inr (Some ("mail"%string, false)), s'))
    by (eexists; apply pair_of_fst; evaluated).
  destruct H as [s' Hn].
  destruct (nack_respects_budget store2 "job-1" demo_leased "boom" 4000 no_jitter s' false
    (proj1 store2_healthy)) as (j' & Hj' & _ & _ & _ & _ & _ & H); [evaluated..|exact Hn|].
  exists s', j'. split; [exact Hn|]. split; [exact Hj'|]. exact (proj1 (proj2 H)).
Defined.

Lemma reclaim_exact_witness :
  exists acc s', reclaim_loop ["job-1"%string] 4000 (fun _ => no_jitter) [] store2 =
      (inr (acc, None), s') /\
    forall x, x ∈ acc <-> exists id, reported 4000 (jobs (mem store2)) id = Some x.
Proof.
  assert (H : exists acc s', reclaim_loop ["job-1"%string] 4000 (fun _ => no_jitter) [] store2 =
      (inr (acc, None), s')).
  { exists [("job-1"%string, "mail"%string, false)]. eexists. apply pair_of_fst. evaluated. }
  destruct H as (acc & s' & H). exists acc, s'. split; [exact H|].
  exact (proj2 (reclaim_exact store2 ["job-1"%string] 4000 (fun _ => no_jitter) acc s'
    (proj1 store2_healthy) store2_leased H)).
Defined.

(** [store2] on a disk whose next call fails. *)
Definition store2_failing : Store :=
  with_log (mkLog (wal (log store2)) (mkDisk (files (disk (log store2))) [IoFail 0])) store2.

Lemma poisoned_store_refuses_witness :
  exists err, (commitDurable store2_failing).1 = inl err /\
    failed (run_ops [OpHeartbeat "job-1" 1 700 3200] (commitDurable store2_failing).2) = Some err /\
    (Submit demo_params "job-2" 4000
       (run_ops [OpHeartbeat "job-1" 1 700 3200] (commitDurable store2_failing).2)).1 = inl err.
Proof.
  assert (H : exists e l', log_sync (log store2_failing) = (inl e, l')).
  { eexists _, _. apply pair_of_fst. evaluated. }
  destruct H as (e & l' & H).
  destruct (poisoned_store_refuses store2_failing e l' [OpHeartbeat "job-1" 1 700 3200] eq_refl H)
    as (H1 & H2 & _ & H3 & _).
  eexists. split; [exact H1|]. split; [exact H2|].
  refine (f_equal fst (H3 demo_params "job-2" 4000 _)). vm_compute. discriminate.
Defined.

Lemma duplicate_submit_returns_original_witness :
  Submit demo_params "job-2" 5000 store1 =
  (inr (Some demo_job, true), with_metric (JobsDeduplicated "mail") store1).
Proof.
  destruct (duplicate_submit_returns_original store1 demo_params "job-2" 5000 "job-1"
    (proj1 store1_healthy)) as (j & Hj & _ & Hrun & _).
  - evaluated.
  - vm_compute. discriminate.
  - vm_compute. discriminate.
  - evaluated.
  - assert (j = demo_job) as ->; [|exact Hrun].
    rewrite store1_jobs in Hj. apply lookup_singleton_Some in Hj as [_ Hj]. exact (eq_sym Hj).
Defined.

Lemma replay_only_dead_letters_witness :
  exists s' j', ReplayJob "job-1" 9999999999 store5 = (inr tt, s') /\
    jobs (mem s') !! "job-1"%string = Some j' /\ JState j' = StatePending /\ Attempt j' = 0.
Proof.
  pose proof (replay_only_dead_letters store5 "job-1" 9999999999 store5_wf) as H.
  assert (E : exists j, jobs (mem store5) !! "job-1"%string = Some j /\ JState j = StateDeadLetter).
  { eexists. split; evaluated. }
  destruct E as (j & Ej & Ed). rewrite Ej, (decide_True _ _ Ed) in H.
  assert (R : exists s', ReplayJob "job-1" 9999999999 store5 = (inr tt, s'))
    by (eexists; apply pair_of_fst; evaluated).
  destruct R as [s' R]. destruct (H s' R) as (j' & H1 & H2 & H3 & _).
  exists s', j'. exact (conj R (conj H1 (conj H2 H3))).
Defined.
