(* ===== verification/Typed.v ===== *)
(** * Typed: everything the store writes can be encoded

    The encoding loses nothing of a record whose texts are valid UTF-8, whose
    numbers fit their widths and whose times have a year of four digits
    ([Codec.event_storable]). These are typing conditions, and the operations
    of the store keep them: with typed arguments and typed jobs in memory, the
    events recorded are typed, and so are the jobs afterwards. *)
From S2P Require Import Prelude Utf8 Job Heap Index Framing LogSpec Wal Event Memory MemSpec.
From S2P Require Import Store Snapshot StoreSpec System Durability SnapshotSpec Life.
From S2P Require Import Json Rfc3339 Fields Codec CodecProps Demo.

#[local] Open Scope Z_scope.

(** ** Years *)

Lemma days_before_year_mono y y' : y <= y' -> days_before_year y <= days_before_year y'.
Proof. unfold days_before_year. intros H. lia_div. Qed.

Lemma days_before_year_step y : days_before_year y + (365 + (if is_leap y then 1 else 0)) <= days_before_year (y + 1).
Proof.
  unfold days_before_year, is_leap. replace (y + 1 - 1) with y by lia.
  destruct (Z.eqb_spec (y mod 4) 0), (Z.eqb_spec (y mod 100) 0), (Z.eqb_spec (y mod 400) 0); cbn; lia_div.
Qed.

(** The instants that can be written in a zone: from year 0 to year 9999. *)
Lemma format_time_range t off :
  Z.abs off < 24 * 60 ->
  days_before_year 0 <= (t + off * Minute) / Day < days_before_year 10000 ->
  exists b, format_time t off = Some b.
Proof.
  intros Ho Ht. unfold format_time, civil_of.
  pose proof (year_of_spec ((t + off * Minute) / Day)) as Hy.
  destruct (year_of _) as [y yday]. destruct Hy as [E Hy]. rewrite E in Ht.
  assert (0 <= y <= 9999) as [H1 H2].
  { destruct (Z.lt_ge_cases y 0) as [Hlt|Hge]; [exfalso|split; [done|]; apply Z.nlt_ge; intros Hgt].
    - pose proof (days_before_year_step y). pose proof (days_before_year_mono (y + 1) 0 ltac:(lia)). lia.
    - pose proof (days_before_year_mono 10000 y ltac:(lia)). lia. }
  rewrite (proj2 (Z.leb_le 0 y)), (proj2 (Z.leb_le y 9999)), (proj2 (Z.ltb_lt (Z.abs off) (24 * 60))) by done.
  by eexists.
Qed.

(** ** Typed arguments *)

Section typed.
Context {L : Type} {lops : LogOps L} {codec : EventCodec}.
Context (zone : Time -> Z).
Implicit Types (s : Store).

(** A clock and durations: whatever is a duration away can be written. *)
Definition clock_ok (now : Time) : Prop :=
  forall d, is_i64 d -> printable_time zone (now + d) = true.

(** The arguments of an operation: texts come out of protocol messages or are
    literals of the program, numbers have the types of the code. *)
Definition op_typed (o : operation) : Prop :=
  match o with
  | OpSubmit p id now =>
      forallb valid_string [id; PQueue p; PHandler p; PIdempotencyKey p] = true /\
      is_i64 (PMaxRetries p) /\ is_i64 (PDelay p) /\ clock_ok now
  | OpLease _ workerID dur now => valid_string workerID = true /\ is_i64 dur /\ clock_ok now
  | OpNack _ _ reason now _ => valid_string reason = true /\ clock_ok now
  | OpHeartbeat _ _ dur now => is_i64 dur /\ clock_ok now
  | OpReclaim _ now _ | OpReplay _ now => clock_ok now
  | OpAck _ _ | OpCommit => True
  end.

Definition jobs_storable s : Prop :=
  forall id j, jobs (mem s) !! id = Some j -> job_storable zone j = true.

Record typed_job (j : Job) : Prop := {
  tj_id : valid_string (ID j) = true; tj_queue : valid_string (Queue j) = true;
  tj_handler : valid_string (Handler j) = true; tj_key : valid_string (IdempotencyKey j) = true;
  tj_by : valid_string (LeasedBy j) = true; tj_err : valid_string (LastError j) = true;
  tj_max : fits_int (MaxRetries j) = true; tj_att : fits_int (Attempt j) = true;
  tj_epoch : fits_uint (Epoch j) = true; tj_enq : printable_time zone (EnqueuedAt j) = true;
  tj_el : printable_time zone (EligibleAt j) = true;
  tj_lx : printable_time zone (LeaseExpiresAt j) = true
}.

Lemma job_storable_typed j : job_storable zone j = true <-> typed_job j.
Proof.
  unfold job_storable. cbn [forallb]. rewrite !andb_true_iff. split.
  - intros H. decompose [and] H. by split.
  - intros []. by split_and!.
Qed.

Lemma fits_int_i64 z : is_i64 z -> fits_int z = true.
Proof. unfold is_i64, fits_int. intros H. apply andb_true_iff. rewrite Z.leb_le, Z.ltb_lt. lia. Qed.

Lemma i64_zero : is_i64 0. Proof. unfold is_i64. lia. Qed.

Lemma clock_now now : clock_ok now -> printable_time zone now = true.
Proof. intros H. rewrite <- (Z.add_0_r now). apply H, i64_zero. Qed.

(** Whatever the configuration and the draw, a delay is a duration. *)
Lemma Backoff_i64 rnd attempt base capDelay : is_i64 (Backoff rnd attempt base capDelay).
Proof.
  rewrite Backoff_ceiling. cbv zeta. pose proof (ceiling_range attempt base capDelay) as Hr.
  destruct (Z.leb_spec (ceiling attempt base capDelay / 2) 0); [|apply i64_range].
  unfold is_i64. lia_div.
Qed.

Context (zero_ok : printable_time zone 0 = true).

#[local] Hint Resolve fits_int_i64 i64_range Backoff_i64 clock_now : core.

(** The conditions on an event, one by one. *)
Ltac event_parts :=
  unfold event_storable;
  cbn [ev_submit ev_lease ev_ack ev_fail ev_replay reserve_event ev_reserve EType EJob EJobID EEpoch EWorkerID
    ELeaseExpiresAt EAttempt EReason EEligibleAt EReservedUpTo eventType_text forallb];
  rewrite !andb_true_iff; split_and!; auto.

(** The record of a failure. *)
Lemma fail_event_typed base capDelay j reason timeout now rnd :
  typed_job j -> valid_string reason = true -> clock_ok now ->
  event_storable zone (fail_event base capDelay j reason timeout now rnd) = true.
Proof.
  intros Hj Hr Hc. unfold fail_event. destruct Hj. event_parts. destruct (_ <? _); auto.
Qed.

Lemma may_record_typed o s e :
  mem_wf (mem s) -> op_valid o s -> op_typed o -> jobs_storable s -> may_record o s e ->
  event_storable zone e = true.
Proof.
  intros Hwf Hv Ho Hs He.
  assert (Hjob : forall id j, jobs (mem s) !! id = Some j -> typed_job j /\ ID j = id).
  { intros id j Hj. split; [by apply job_storable_typed, (Hs id)|by apply (wf_keys _ Hwf)]. }
  destruct o as [p id now|q w dur now|id ep|id ep reason now rnd|id ep dur now|order now rnd|id now|];
    cbn [may_record op_typed op_valid] in *; try done.
  - destruct He as [-> _]. destruct Ho as (Ht & Hm & Hd & Hc). cbn [forallb] in Ht.
    rewrite !andb_true_iff in Ht. destruct Ht as (H1 & H2 & H3 & H4 & _).
    event_parts. apply job_storable_typed. split; cbn; auto.
    + by case_bool_decide.
    + destruct (_ <? _); auto using i64_zero.
  - destruct Ho as (Hw & Hd & Hc). destruct He as [->|(id & j & Hj & _ & _ & ->)].
    + unfold reserve_event. event_parts. apply N.ltb_lt, u64_range.
    + destruct (Hjob id j Hj) as [Htj <-]. destruct Htj. event_parts. apply N.ltb_lt. destruct Hv. lia.
  - destruct He as [-> (j & Hj & Hh)]. destruct (Hjob id j Hj) as [Htj <-].
    apply andb_true_iff in Hh as [_ <-%N.eqb_eq]. destruct Htj. event_parts.
  - destruct He as (j & Hj & _ & ->). apply fail_event_typed; [by eapply Hjob|unfold nack_reason|apply Ho].
    case_bool_decide; [done|apply Ho].
  - destruct He as (id & j & _ & Hj & _ & _ & ->). by apply fail_event_typed; [eapply Hjob| |].
  - destruct He as [-> (j & Hj & _)]. destruct (Hjob id j Hj) as [Htj <-]. destruct Htj. event_parts.
Qed.

Lemma job_effect_typed e f g j :
  event_storable zone e = true -> job_effect e = Some (f, g) -> typed_job j -> typed_job (f j).
Proof.
  unfold event_storable. cbn [forallb]. rewrite !andb_true_iff. intros He Hf Hj. decompose [and] He. clear He.
  unfold job_effect in Hf. destruct Hj, (EType e); try done; injection Hf as <- _; by split.
Qed.

Lemma run_op_typed o s :
  store_wf s -> op_valid o s -> op_typed o -> jobs_storable s -> jobs_storable (run_op o s).
Proof.
  intros Hwf Hv Ho Hs id j' Hj'. pose proof (inv_mem _ _ _ _ Hwf) as Hm.
  destruct (run_op_effect o s Hwf Hv) as [Hch _]. specialize (Hch id). rewrite Hj' in Hch.
  assert (Hold : forall j, jobs (mem s) !! id = Some j -> typed_job j)
    by (intros j Hj; apply job_storable_typed, (Hs id j Hj)).
  revert Hch Hold. generalize (jobs (mem s) !! id) as a. intros a Hch Hold.
  remember (Some j') as b eqn:Eb. apply job_storable_typed.
  destruct Hch as [a|e f g j He Hf _ _|e j He _ Hj _|x j ep dur now -> _ ->]; simplify_eq.
  - by apply Hold.
  - eapply job_effect_typed; [|done|by apply Hold]. by eapply may_record_typed.
  - apply job_storable_typed. pose proof (may_record_typed o s e Hm Hv Ho Hs He) as Ht.
    unfold event_storable in Ht. rewrite Hj in Ht. by apply andb_true_iff in Ht as [_ ?].
  - destruct (Hold j eq_refl), Ho as [Hd Hc]. split; try done. by apply Hc.
Qed.

Lemma capture_storable s :
  jobs_storable s -> is_u64 (lastLSN s) -> is_u64 (epochReservedUpTo (mem s)) ->
  snapshot_storable zone (capture s) = true.
Proof.
  intros Hs Hl Hr. unfold snapshot_storable, capture. cbn [SnapLastLSN SnapReservedUpTo SnapJobs].
  rewrite !andb_true_iff. split_and!; [by apply N.ltb_lt..|]. apply forallb_forall. intros j Hj.
  apply list_elem_of_In in Hj. rewrite merge_sort_Permutation in Hj.
  apply elem_of_jobs in Hj as [id Hj]. by apply (Hs id).
Qed.
End typed.

(** ** Properties *)

(** What the store writes is typed for its encoding. When the texts of an
    operation are valid UTF-8, its numbers have their Go types and the clock
    shows a year that RFC 3339 can show, and the jobs in memory satisfy the
    same conditions, every event the operation may record is encoded without
    loss, the jobs keep the conditions whatever the operation returns, and a
    snapshot of them is encoded without loss too. *)
Theorem stored_data_typed `{!LogOps L} `{!EventCodec} (zone : Time -> Z) (o : operation) (s : Store) :
  printable_time zone zeroTime = true -> store_wf s -> op_valid o s ->
  op_typed zone o -> jobs_storable zone s ->
  (forall e, may_record o s e -> event_storable zone e = true) /\
  jobs_storable zone (run_op o s) /\
  (is_u64 (lastLSN (run_op o s)) -> is_u64 (epochReservedUpTo (mem (run_op o s))) ->
   snapshot_storable zone (capture (run_op o s)) = true).
Proof.
  intros Hz Hwf Hv Ho Hs. pose proof (run_op_typed zone Hz o s Hwf Hv Ho Hs) as Hs'.
  split; [|split; [done|by apply capture_storable]]. intros e.
  apply may_record_typed; [done|apply Hwf|done..].
Qed.

(** C28: A snapshot is lossless. What [Snapshot] writes for a store in its
    invariant, with jobs that are typed for the encoding, decodes to the LSN it
    was taken at and to exactly the memory captured: the jobs, and the
    idempotency map, the set of leased jobs and the token ceiling, which are
    rebuilt from the jobs and not stored. And a file that was cut short is
    recognized: no proper prefix of what is written can be decoded, so
    [loadLatestSnapshot] passes it over. *)
Theorem snapshot_lossless `{!LogOps L} (zone : Time -> Z) (s : Store) :
  store_wf s -> jobs_storable zone s -> is_u64 (lastLSN s) -> is_u64 (epochReservedUpTo (mem s)) ->
  exists data sn, json_encodeSnapshot zone (capture s) = Some data /\ json_decodeSnapshot data = Some sn /\
    SnapLastLSN sn = lastLSN s /\ load_snapshot sn = mem s /\
    forall p, p `prefix_of` data -> p <> data -> json_decodeSnapshot p = None.
Proof.
  intros Hwf Hs Hl Hr.
  destruct (snapshot_json_cut zone (capture s)) as (data & H1 & H2 & H3); [by apply capture_storable|].
  exists data, (capture s). do 3 (split; [done|]). split; [|done]. apply load_capture, Hwf.
Qed.

(** ** Witnesses *)

(** October 25 of 2025. *)
Definition demo_now : Time := 63897000000 * Second.

Lemma demo_clock : clock_ok demo_zone demo_now.
Proof.
  intros d Hd. destruct (format_time_range (demo_now + d) 330) as [b Hb]; [done| |].
  - assert (HDay : Day = 86400000000000) by done. assert (HMin : Minute = 60000000000) by done.
    assert (Hn : demo_now = 63897000000000000000) by done.
    change (days_before_year 0) with (-366). change (days_before_year 10000) with 3652059.
    rewrite HDay, HMin, Hn. unfold is_i64 in Hd. lia_div.
  - unfold printable_time, demo_zone. by rewrite Hb.
Qed.

Lemma store1_storable : jobs_storable demo_zone store1.
Proof.
  intros id j Hj. rewrite store1_jobs in Hj. apply lookup_singleton_Some in Hj as [_ <-].
  vm_compute. reflexivity.
Qed.

Lemma stored_data_typed_witness :
  may_record (OpLease "mail" "w1" Minute demo_now) store1 (reserve_event store1) /\
  event_storable demo_zone (reserve_event store1) = true.
Proof.
  assert (He : may_record (OpLease "mail" "w1" Minute demo_now) store1 (reserve_event store1)) by (by left).
  assert (Hz : printable_time demo_zone zeroTime = true) by (vm_compute; reflexivity).
  assert (Ho : op_typed demo_zone (OpLease "mail" "w1" Minute demo_now)).
  { split; [reflexivity|]. split; [split; [discriminate|reflexivity]|exact demo_clock]. }
  pose proof (stored_data_typed demo_zone (OpLease "mail" "w1" Minute demo_now) store1 Hz
    (proj1 store1_healthy) store1_epoch_room Ho store1_storable) as H.
  exact (conj He (proj1 H (reserve_event store1) He)).
Defined.

Lemma snapshot_lossless_witness :
  exists data sn, json_encodeSnapshot demo_zone (capture store1) = Some data /\
    json_decodeSnapshot data = Some sn /\ load_snapshot sn = mem store1.
Proof.
  assert (Hl : is_u64 (lastLSN store1)) by (vm_compute; reflexivity).
  assert (Hr : is_u64 (epochReservedUpTo (mem store1))) by (vm_compute; reflexivity).
  destruct (snapshot_lossless demo_zone store1 (proj1 store1_healthy) store1_storable Hl Hr)
    as (data & sn & H1 & H2 & _ & H3 & _).
  exists data, sn. exact (conj H1 (conj H2 H3)).
Defined.
