(* ===== verification/EventSize.v ===== *)
(** * EventSize: what fits in a record of the log

    The log takes records of up to [MaxRecordSize] bytes. How long the encoding
    of an event can get, from the lengths of its texts and of the payload; and
    that what the store records therefore fits, as long as the payload and the
    texts of a client stay within bounds. *)
From stdpp Require Import pretty.
From S2P Require Import Prelude Utf8 Job Heap Index Framing LogSpec Wal WalSpec Event Memory MemSpec Store.
From S2P Require Import Snapshot StoreSpec System Json JsonProps Rfc3339 Fields FieldsProps Codec CodecProps Typed Demo.

#[local] Open Scope nat_scope.

(** ** Texts, numbers, times and byte slices *)

Lemma escape_length c : length (escape c) <= 6.
Proof. unfold escape. repeat case_match; cbn; lia. Qed.

Lemma quote_length_upto n s : length s <= n -> length (quote s) <= 6 * length s.
Proof.
  revert s. induction n as [|n IH]; intros [|c t] Hn; cbn in Hn; try (cbn; lia).
  cbn [quote]. assert (Ht : forall t', length t' <= n -> length (quote t') <= 6 * length t') by apply IH.
  assert (Hd : length (["\"; "u"; "f"; "f"; "f"; "d"]%char ++ quote t) <= 6 * length (c :: t)).
  { rewrite length_app. specialize (Ht t ltac:(lia)). cbn. lia. }
  destruct (rune_size (c :: t)) as [|[|[|[|[|k]]]]]; try exact Hd.
  - rewrite length_app. pose proof (escape_length c). specialize (Ht t ltac:(lia)). cbn. lia.
  - destruct t as [|c1 t]; [exact Hd|]. cbn in *. specialize (Ht t ltac:(lia)). lia.
  - destruct t as [|c1 [|c2 t]]; [exact Hd|exact Hd|]. cbn in Hn. specialize (Ht t ltac:(lia)).
    rewrite length_app. assert (length (escape_rune3 c c1 c2) <= 6) by (unfold escape_rune3; case_match; cbn; lia).
    cbn. lia.
  - destruct t as [|c1 [|c2 [|c3 t]]]; try exact Hd. cbn in *. specialize (Ht t ltac:(lia)). lia.
Qed.

Lemma quote_length s : length (quote s) <= 6 * length s.
Proof. by apply (quote_length_upto (length s)). Qed.

Lemma base64_length s : length (base64 s) = 4 * ((length s + 2) / 3).
Proof.
  induction s as [|a|a b|a b c s IH] using base64_ind; cbn [base64 length]; try done.
  rewrite IH. replace (S (S (S (length s))) + 2) with (length s + 2 + 1 * 3) by lia.
  rewrite Nat.div_add by lia. lia.
Qed.

Lemma pretty_go_length k : forall (n : N) (s : string),
  (n < 10 ^ N.of_nat k)%N -> String.length (pretty_N_go n s) <= k + String.length s.
Proof.
  induction k as [|k IH]; intros n s Hn.
  - assert (n = 0)%N as -> by (cbn in Hn; lia). by rewrite pretty_N_go_0.
  - destruct (N.eq_dec n 0%N) as [->|Hne]; [rewrite pretty_N_go_0; lia|].
    rewrite pretty_N_go_step by lia. etrans; [apply IH|cbn; lia].
    apply N.Div0.div_lt_upper_bound. rewrite Nat2N.inj_succ, N.pow_succ_r' in Hn. lia.
Qed.

Lemma list_ascii_length s : length (list_ascii_of_string s) = String.length s.
Proof. induction s as [|c s IH]; cbn; [done|by rewrite IH]. Qed.

Lemma pretty_N_length (n : N) : (n < 10 ^ 20)%N -> String.length (pretty n) <= 20.
Proof.
  intros H. unfold pretty, pretty_N. case_decide; [cbn; lia|].
  etrans; [by apply (pretty_go_length 20)|cbn; lia].
Qed.

Lemma format_uint_length n : fits_uint n = true -> length (format_uint n) <= 20.
Proof.
  unfold fits_uint. intros H%N.ltb_lt. unfold format_uint.
  rewrite list_ascii_length. apply pretty_N_length. lia.
Qed.

Lemma format_int_length z : fits_int z = true -> length (format_int z) <= 21.
Proof.
  unfold fits_int. rewrite andb_true_iff, Z.leb_le, Z.ltb_lt. intros H. unfold format_int.
  rewrite list_ascii_length. unfold pretty, pretty_Z.
  destruct z as [|p|p]; [cbn; lia| |].
  - etrans; [apply (pretty_N_length (Npos p)); lia|lia].
  - change (String.length ("-" +:+ pretty (N.pos p)) <= 21).
    change (S (String.length (pretty (N.pos p))) <= 21). pose proof (pretty_N_length (Npos p) ltac:(lia)). lia.
Qed.

Lemma trim_zeros_length ds : length (trim_zeros ds) <= length ds.
Proof.
  induction ds as [|d ds IH]; [done|]. cbn [trim_zeros].
  destruct (trim_zeros ds); [destruct (Ascii.eqb d "0"); cbn; lia|cbn in *; lia].
Qed.

Lemma format_time_length t off b : format_time t off = Some b -> length b <= 35.
Proof.
  unfold format_time. destruct (civil_of _) as [[y m] d]. case_match; [|done]. intros E. apply (inj Some) in E. subst b.
  unfold four_digits, two_digits. cbn [length app]. rewrite length_app.
  assert (length (format_fraction ((t + off * Minute) mod Day mod Second)) <= 10).
  { unfold format_fraction. pose proof (trim_zeros_length (nine_digits ((t + off * Minute) mod Day mod Second))) as Hz.
    destruct (trim_zeros _); cbn in *; lia. }
  assert (length (format_offset off) <= 6) by (unfold format_offset; case_match; cbn; lia).
  lia.
Qed.

(** ** Members *)

(** The bytes of the members of an object, with a comma behind each. *)
Fixpoint members_size (ms : list (bytes * json)) : nat :=
  match ms with [] => 0 | m :: ms => length m.1 + 4 + length (print m.2) + members_size ms end.

Lemma members_size_app a b : members_size (a ++ b) = members_size a + members_size b.
Proof. induction a as [|m a IH]; cbn [app members_size]; [done|]. rewrite IH. lia. Qed.

Lemma members_size_member s v : members_size (member s v) = String.length s + 4 + length (print v).
Proof. unfold member. cbn [members_size fst snd]. unfold name. rewrite list_ascii_length. lia. Qed.

Lemma members_size_optional b s v : members_size (optional b s v) <= String.length s + 4 + length (print v).
Proof. unfold optional. destruct b; [cbn [members_size]; lia|]. by rewrite members_size_member. Qed.

Lemma member_text_size m : S (length (member_text m)) = length m.1 + 4 + length (print m.2).
Proof.
  unfold member_text, quoted. rewrite length_app. cbn [length]. rewrite length_app. cbn [length]. lia.
Qed.

Lemma commas_size ms : length (concat (map (cons ","%char) (map member_text ms))) = members_size ms.
Proof.
  induction ms as [|m ms IH]; [done|]. cbn [map concat members_size]. rewrite length_app, IH.
  cbn [length]. by rewrite member_text_size.
Qed.

Lemma object_size ms : length (print (JObj ms)) <= members_size ms + 2.
Proof.
  cbn [print]. change (map (fun m => quoted m.1 ++ ":"%char :: print m.2) ms) with (map member_text ms).
  cbn [length]. rewrite length_app. cbn [length].
  destruct ms as [|m ms]; [cbn; lia|]. cbn [map members_size]. rewrite join_cons, length_app, commas_size.
  pose proof (member_text_size m). lia.
Qed.

(** ** Values *)

Lemma text_size s : length (print (text s)) <= 6 * String.length s + 2.
Proof.
  unfold text. cbn [print]. unfold quoted. cbn [length]. rewrite length_app. cbn [length].
  pose proof (quote_length (name s)) as H. unfold name in H. rewrite list_ascii_length in H. unfold name. lia.
Qed.

(** The bytes of a payload in base64. *)
Definition encoded_length (s : bytes) : nat := 4 * ((length s + 2) / 3).

Lemma base64_size s : length (print (JStr (base64 s))) = encoded_length s + 2.
Proof. cbn [print]. unfold quoted. cbn [length]. rewrite length_app, base64_length. cbn [length]. unfold encoded_length. lia. Qed.

Lemma uint_size n : fits_uint n = true -> length (print (JNum (format_uint n))) <= 20.
Proof. apply format_uint_length. Qed.

Lemma int_size z : fits_int z = true -> length (print (JNum (format_int z))) <= 21.
Proof. apply format_int_length. Qed.

Lemma bool_size b : length (print (JBool b)) <= 5.
Proof. destruct b; cbn; lia. Qed.

Lemma time_size zone t v : time_json zone t = Some v -> length (print v) <= 37.
Proof.
  unfold time_json. destruct (format_time t (zone t)) as [b|] eqn:E; [|done]. intros <-%(inj Some).
  cbn [print]. unfold quoted. cbn [length]. rewrite length_app. cbn [length]. apply format_time_length in E. lia.
Qed.

Lemma time_member_size zone s t ms :
  time_member zone s t = Some ms -> members_size ms <= String.length s + 41.
Proof.
  unfold time_member. destruct (IsZero t); [intros <-%(inj Some); cbn; lia|].
  destruct (time_json zone t) as [v|] eqn:E; [|done]. intros <-%(inj Some).
  rewrite members_size_member. apply time_size in E. lia.
Qed.

Lemma state_size s : length (print (JNum (format_uint (State_num s)))) <= 20.
Proof. apply uint_size. by destruct s. Qed.

Lemma priority_size p : length (print (JNum (format_uint (Z.to_N (Priority_num p))))) <= 20.
Proof. apply uint_size. by destruct p. Qed.

(** ** Jobs and events *)

(** What the texts and the payload of a job may take. *)
Definition job_bytes (j : Job) : nat :=
  6 * (String.length (ID j) + String.length (Queue j) + String.length (Handler j) + String.length (IdempotencyKey j)
       + String.length (LeasedBy j) + String.length (LastError j)) + encoded_length (Payload j).

Definition event_bytes (e : event) : nat :=
  6 * (String.length (eventType_text (EType e)) + String.length (EJobID e) + String.length (EWorkerID e)
       + String.length (EReason e)) + match EJob e with None => 0 | Some j => job_bytes j end.

(** The size of every member, from the lemmas above. *)
Ltac sizes :=
  repeat match goal with
  | |- context [members_size (_ ++ _)] => rewrite members_size_app
  | |- context [members_size (member _ _)] => rewrite members_size_member
  | |- context [members_size (optional ?b ?s ?v)] =>
      let H := fresh in pose proof (members_size_optional b s v) as H;
      let n := fresh in set (n := members_size (optional b s v)) in *; clearbody n
  end.

Lemma job_size zone j v : job_storable zone j = true -> job_json zone j = Some v ->
  length (print v) <= job_bytes j + 600.
Proof.
  intros Ht%job_storable_typed E. destruct Ht. unfold job_json in E.
  destruct (job_members zone j) as [ms|] eqn:Em; [|done]. apply (inj Some) in E as <-.
  unfold job_members in Em.
  destruct (time_json zone (EnqueuedAt j)) as [t1|] eqn:E1; [|done].
  destruct (time_json zone (EligibleAt j)) as [t2|] eqn:E2; [|done].
  cbn [mbind option_bind] in Em.
  destruct (time_member zone "lease_expires_at" (LeaseExpiresAt j)) as [t3|] eqn:E3; [|done].
  apply (inj Some) in Em as <-.
  etrans; [apply object_size|]. sizes.
  apply time_size in E1, E2. apply time_member_size in E3.
  pose proof (text_size (ID j)). pose proof (text_size (Queue j)). pose proof (text_size (Handler j)).
  pose proof (text_size (IdempotencyKey j)). pose proof (text_size (LeasedBy j)). pose proof (text_size (LastError j)).
  pose proof (base64_size (Payload j)). pose proof (priority_size (JPriority j)). pose proof (state_size (JState j)).
  pose proof (int_size _ tj_max). pose proof (int_size _ tj_att). pose proof (uint_size _ tj_epoch).
  cbn [String.length] in *. unfold job_bytes. lia.
Qed.

Lemma event_size zone e b : event_storable zone e = true -> json_encodeEvent zone e = Some b ->
  length b <= event_bytes e + 1100.
Proof.
  unfold event_storable. rewrite !andb_true_iff. intros ((((((_ & _) & Hatt) & Hep) & Hup) & _) & Hjob) E.
  unfold json_encodeEvent in E. destruct (event_members zone e) as [ms|] eqn:Em; [|done].
  apply (inj Some) in E as <-. unfold event_members in Em.
  destruct (match EJob e with None => Some [] | Some j => v ← job_json zone j; Some (member "job" v) end)
    as [job|] eqn:Ej; [|done].
  assert (Hsize : members_size job <= match EJob e with None => 0 | Some j => job_bytes j end + 607).
  { destruct (EJob e) as [j|]; [|apply (inj Some) in Ej as <-; cbn; lia].
    destruct (job_json zone j) as [v|] eqn:Ev; [|done]. apply (inj Some) in Ej as <-.
    rewrite members_size_member. pose proof (job_size zone j v Hjob Ev). cbn [String.length]. lia. }
  cbn [mbind option_bind] in Em.
  destruct (time_member zone "lx" (ELeaseExpiresAt e)) as [t1|] eqn:E1; [|done]. cbn [mbind option_bind] in Em.
  destruct (time_member zone "el" (EEligibleAt e)) as [t2|] eqn:E2; [|done].
  apply (inj Some) in Em as <-.
  etrans; [apply object_size|]. sizes.
  apply time_member_size in E1, E2.
  pose proof (text_size (eventType_text (EType e))). pose proof (text_size (EJobID e)).
  pose proof (text_size (EWorkerID e)). pose proof (text_size (EReason e)). pose proof (state_size (ENextState e)).
  pose proof (bool_size (ETimeout e)). pose proof (int_size _ Hatt). pose proof (uint_size _ Hep).
  pose proof (uint_size _ Hup). cbn [String.length] in *. unfold event_bytes. lia.
Qed.

(** An event that is typed for the encoding fits in a record, if its texts and
    its payload leave eleven hundred bytes for everything else. *)
Lemma event_fits_bytes zone e :
  event_storable zone e = true -> (N.of_nat (event_bytes e) + 1100 <= MaxRecordSize)%N ->
  event_fits zone e = true.
Proof.
  intros He Hb. destruct (event_json zone e He) as (b & Eb & _). unfold event_fits. rewrite Eb.
  apply N.leb_le. pose proof (event_size zone e b He Eb). lia.
Qed.

(** ** Operations *)

Section sized.
Context {L : Type} {lops : LogOps L} {codec : EventCodec}.
Implicit Type s : Store.

(** The ids of the jobs in memory are at most [n] bytes long. *)
Definition ids_upto (n : nat) s : Prop :=
  forall id j, jobs (mem s) !! id = Some j -> String.length id <= n.

(** What a call may add to a record: the texts and the payload of a
    submission, and the name or the reason that come with other calls. The
    longest text of the store's own is [lease expired]. *)
Definition op_bytes (o : operation) : nat :=
  match o with
  | OpSubmit p _ _ => 6 * (String.length (PQueue p) + String.length (PHandler p)
      + String.length (PIdempotencyKey p)) + encoded_length (PPayload p)
  | OpLease _ workerID _ _ => 6 * String.length workerID
  | OpNack _ _ reason _ _ => 6 * String.length reason
  | _ => 0
  end.

(** An operation that stays within the bounds: a submission has an id of at
    most [n] bytes, and the record has room for the rest. *)
Definition op_small (n : nat) (o : operation) : Prop :=
  (N.of_nat (op_bytes o) + 6 * N.of_nat n + 1500 <= MaxRecordSize)%N /\
  match o with OpSubmit _ id _ => String.length id <= n | _ => True end.

Lemma may_record_bytes n o s e :
  mem_wf (mem s) -> ids_upto n s -> op_small n o -> may_record o s e -> event_bytes e <= op_bytes o + 6 * n + 300.
Proof.
  intros Hwf Hs [_ Ho] He.
  assert (Hjob : forall id j, jobs (mem s) !! id = Some j -> String.length (ID j) <= n).
  { intros id j Hj. rewrite <- (wf_keys _ Hwf id j Hj) in Hj. by eapply Hs. }
  unfold event_bytes.
  destruct o as [p id now|q w dur now|id ep|id ep reason now rnd|id ep dur now|order now rnd|id now|];
    cbn [may_record op_bytes] in *; try done.
  - destruct He as [-> _]. unfold ev_submit, job_bytes, new_job, submit_defaults.
    cbn [EType EJobID EWorkerID EReason EJob eventType_text ID Queue Handler Payload IdempotencyKey LeasedBy LastError
      PQueue PHandler PPayload PIdempotencyKey PPriority PMaxRetries PDelay].
    case_bool_decide; cbn [String.length]; lia.
  - destruct He as [->|(id & j & Hj & _ & _ & ->)]; [cbn; lia|]. pose proof (Hs id j Hj). cbn; lia.
  - destruct He as [-> (j & Hj & _)]. pose proof (Hs id j Hj). cbn; lia.
  - destruct He as (j & Hj & _ & ->). pose proof (Hjob id j Hj). unfold nack_reason. case_bool_decide; cbn; lia.
  - destruct He as (id & j & _ & Hj & _ & _ & ->). pose proof (Hjob id j Hj). cbn; lia.
  - destruct He as [-> (j & Hj & _)]. pose proof (Hs id j Hj). cbn; lia.
Qed.

Lemma ids_kept n o s : store_wf s -> op_valid o s -> op_small n o -> ids_upto n s -> ids_upto n (run_op o s).
Proof.
  intros Hwf Hv [_ Ho] Hs id j' Hj'. destruct (run_op_effect o s Hwf Hv) as [Hch _].
  specialize (Hch id). rewrite Hj' in Hch.
  assert (Hold : forall j, jobs (mem s) !! id = Some j -> String.length id <= n) by (intros j; apply Hs).
  revert Hch Hold. generalize (jobs (mem s) !! id) as a. intros a Hch Hold.
  remember (Some j') as b eqn:Eb.
  destruct Hch as [a|e f g j He Hf _ _|e j He Ht Hj Hid|x j ep dur now -> _ ->]; simplify_eq; try by eapply Hold.
  destruct o; cbn [may_record] in He; try done; try (destruct He as [-> _]); try done.
  - cbn in Hj. apply (inj Some) in Hj as <-. exact Ho.
  - by destruct He as [->|(id' & j2 & _ & _ & _ & ->)].
  - by destruct He as (j2 & _ & _ & ->).
  - by destruct He as (id' & j2 & _ & _ & _ & _ & ->).
Qed.
End sized.

(** ** Properties *)

(** C29: Every write of the store is taken. When the texts of an operation are
    valid UTF-8, its numbers have their Go types, the clock shows a year that
    RFC 3339 can show, and what it brings along (escaped, and a payload in
    base64) leaves room in a record of 64 MiB for ids of at most [n] bytes and
    fifteen hundred bytes besides, then every event it may record is encoded
    without loss, into a payload that the log accepts and that decodes to the
    event; and the jobs in memory stay typed, with ids of at most [n] bytes,
    whatever the operation returns, so the next operation finds the same. *)
Theorem writes_are_accepted `{!LogOps L} `{!EventCodec} (zone : Time -> Z) (n : nat) (o : operation) (s : Store) :
  printable_time zone zeroTime = true -> store_wf s -> op_valid o s ->
  op_typed zone o -> op_small n o -> jobs_storable zone s -> ids_upto n s ->
  (forall e, may_record o s e -> @codec_ok (json_codec zone) (json_codec_laws zone) e) /\
  jobs_storable zone (run_op o s) /\ ids_upto n (run_op o s).
Proof.
  intros Hz Hwf Hv Ho Hn Hs Hi. pose proof (inv_mem _ _ _ _ Hwf) as Hm. split_and!.
  - intros e He. pose proof (may_record_typed zone Hz o s e Hm Hv Ho Hs He) as Het.
    cbn. rewrite Het. apply event_fits_bytes; [done|].
    pose proof (may_record_bytes n o s e Hm Hi Hn He). destruct Hn as [Hn _]. lia.
  - by apply run_op_typed.
  - by apply ids_kept.
Qed.

(** ** Witness *)

Lemma store1_ids : ids_upto 5 store1.
Proof.
  intros id j Hj. rewrite store1_jobs in Hj. apply lookup_singleton_Some in Hj as [<- _]. vm_compute. lia.
Qed.

Lemma writes_are_accepted_witness :
  may_record (OpLease "mail" "w1" Minute demo_now) store1 (reserve_event store1) /\
  @codec_ok (json_codec demo_zone) (json_codec_laws demo_zone) (reserve_event store1).
Proof.
  assert (He : may_record (OpLease "mail" "w1" Minute demo_now) store1 (reserve_event store1)) by (by left).
  assert (Hz : printable_time demo_zone zeroTime = true) by (vm_compute; reflexivity).
  assert (Ho : op_typed demo_zone (OpLease "mail" "w1" Minute demo_now)).
  { split; [reflexivity|]. split; [split; [discriminate|reflexivity]|exact demo_clock]. }
  assert (Hn : op_small 5 (OpLease "mail" "w1" Minute demo_now)) by (split; [discriminate|exact I]).
  pose proof (writes_are_accepted demo_zone 5 (OpLease "mail" "w1" Minute demo_now) store1 Hz
    (proj1 store1_healthy) store1_epoch_room Ho Hn store1_storable store1_ids) as H.
  exact (conj He (proj1 H (reserve_event store1) He)).
Defined.
