(* ===== verification/SnapshotProps.v ===== *)
(** * SnapshotProps: what snapshots guarantee, and what they do not

    Taken right after a flush, a snapshot never costs a record, whatever call
    fails and whenever the machine goes down. Taken while records are still in
    the buffer, or read back with a transient error, it does. *)
From S2P Require Import Prelude Job Heap Index Framing LogSpec Wal WalSpec Event Memory.
From S2P Require Import MemSpec Store Snapshot StoreSpec System Durability SnapshotSpec Life Demo.

Section Props.
Context {L : Type} {lops : LogOps L} {laws : LogLaws L}.
Context {codec : EventCodec} {claws : CodecLaws}.
Context {scodec : SnapCodec} {sclaws : SnapCodecLaws}.

(** C7: a snapshot taken after a flush is crash-safe. Let any of the calls of
    [Snapshot] on its directory fail, at any point (a short write, the rename,
    the flush of the directory, the pruning), and then let the machine go
    down: the store opens again, and what it recovers is the whole history,
    not one event less. *)
Theorem snapshot_crash_safe base hist n (s : Store) d cs s1 d1 l2 d2 cfg now :
  store_wf s -> recorded base hist n s d -> snap_encodable (capture s) ->
  flush_and_snapshot cs s d = (s1, d1) ->
  log_crash (log s1) l2 -> dir_crash d1 d2 -> calls d2 = [] ->
  is_u64 (epochReservedUpTo (mem s) + 1) ->
  exists s' l' m, OpenStore cfg now (l2, d2) = (inr s', (l', d2)) /\
    history m hist /\ mem_sim (mem s) m /\ mem_sim (mem s') m.
Proof.
  intros Hwf Hrec Henc Hrun Hc Hdc Hcalls Hu.
  destruct (snapshot_recorded base hist n cs s d Hwf Hrec Henc) as [(base' & Hrec') (l' & Es)].
  rewrite Hrun in Hrec', Es. cbn [fst snd] in *.
  destruct (crash_recovers base' hist (length hist) s1 d1 l2 d2 cfg now Hrec' Hc Hdc Hcalls)
    as (k & b & live & m & s' & l1 & Hk & Hopen & Hm & Hsim & _ & Hmem & _); [by rewrite Es|].
  rewrite firstn_all2 in Hm by lia. exists s', l1, m. split; [done|]. split; [done|]. split.
  - destruct Hrec as [[_ (m' & Hm' & Hsim') _ _ _] _ _]. by rewrite (history_det _ _ _ Hm Hm').
  - rewrite Hmem. by apply mem_sim_recover.
Qed.
End Props.

(** ** A snapshot of what is not flushed *)

Definition after_snapshot (s : Store) (d : SnapDir) : Store * SnapDir := (Snapshot (s, d)).2.

Definition second_params : SubmitParams :=
  mkSubmitParams "mail" "shell" [] "key-2" PriorityNormal 1 0.

(** A snapshot of unflushed records hides jobs acknowledged later. A job
    is submitted and leased; the lease is in the buffer when a snapshot is
    taken, which succeeds. The process dies; the log has lost the lease and
    gives its LSN out again, to a second job, whose submission is flushed and
    reported as accepted. The next restart replays from behind the LSN of the
    snapshot: the second job is gone. *)
Theorem snapshot_hides_acknowledged_submit :
  let leased := run_op (OpLease "mail" "w" 500 3000) (run_op OpCommit store1) in
  let snapped := after_snapshot leased dir0 in
  let restarted := opened (power_loss (log snapped.1)) snapped.2 4000 in
  let submitted := Submit second_params "job-2" 5000 restarted in
  let final := opened (power_loss (log submitted.2)) snapped.2 6000 in
  (Snapshot (leased, dir0)).1 = inr tt /\
  failed restarted = None /\
  submitted.1 = inr (Some (new_job second_params "job-2" 5000), false) /\
  is_Some (jobs (mem final) !! "job-1"%string) /\ failed final = None /\
  jobs (mem final) !! "job-2"%string = None.
Proof. vm_compute. split_and!; try reflexivity. by eexists. Qed.

(** ** A snapshot that cannot be read *)

Definition small_config : Config := mkConfig 0 0 4 100.

Definition submit_now (id : string) (now : Time) (s : Store (L := Log)) : Store :=
  run_op OpCommit (run_op (OpSubmit (mkSubmitParams "mail" "shell" [] "" PriorityNormal 1 0) id now) s).

Definition small_store : Store :=
  match OpenStore small_config 1000 (demo_log, dir0) with
  | (inr s, _) => s
  | _ => store0
  end.

(** Falling back to an older snapshot loses acknowledged jobs in silence.
    Three jobs are submitted and flushed, a snapshot taken after the first and
    after the third; each drops the segments it covers. At the next start the
    newer snapshot cannot be read, for a passing I/O error: [Open] uses the
    older one and reports success, but the records between the two snapshots
    are no longer in the log. *)
Theorem unreadable_snapshot_loses_silently :
  let s1 := submit_now "a" 2000 small_store in
  let sd1 := after_snapshot s1 dir0 in
  let s3 := submit_now "c" 4000 (submit_now "b" 3000 sd1.1) in
  let sd3 := after_snapshot s3 sd1.2 in
  let d := with_calls [IoOk; IoOk; IoFail 0] sd3.2 in
  match OpenStore small_config 5000 (power_loss (log sd3.1), d) with
  | (inr s, _) =>
      failed s = None /\ is_Some (jobs (mem s) !! "a"%string) /\
      jobs (mem s) !! "b"%string = None /\ is_Some (jobs (mem s) !! "c"%string)
  | _ => False
  end.
Proof. vm_compute. split_and!; try reflexivity; by eexists. Qed.

(** ** Witnesses *)

Lemma store2_encodable : snap_encodable (capture store2).
Proof. vm_compute. reflexivity. Qed.

(** A directory in which everything is synced survives a crash as it is. *)
Definition synced_file (f : File) : Prop := f_synced f = length (f_data f).
#[export] Instance synced_file_dec f : Decision (synced_file f).
Proof. unfold synced_file. apply _. Defined.

Lemma synced_dir_crash d :
  entries_disk d = entries_now d -> map_Forall (fun _ f => synced_file f) (entries_now d) ->
  dir_crash d d.
Proof.
  intros Hd Hs. split; [done|]. intros name. left.
  destruct (entries_now d !! name) as [f|] eqn:E; [|done]. specialize (Hs name f E).
  exists (f_synced f). split; [rewrite Hs; lia|]. destruct f as [data n].
  unfold synced_file in Hs. cbn in *. subst n. by rewrite firstn_all.
Qed.

Definition demo_snapped : Store * SnapDir := flush_and_snapshot [] store2 dir0.

Lemma demo_snapped_crash :
  log_crash (log demo_snapped.1) (power_loss (log demo_snapped.1)) /\
  dir_crash demo_snapped.2 demo_snapped.2.
Proof.
  split.
  - apply power_loss_crash. apply (proj1 (bool_decide_eq_true (map_Forall (fun _ f => synced_within f)
      (files (disk (log demo_snapped.1)))))). vm_compute. reflexivity.
  - apply synced_dir_crash; [vm_compute; reflexivity|].
    apply (proj1 (bool_decide_eq_true (map_Forall (fun _ f => synced_file f)
      (entries_now demo_snapped.2)))). vm_compute. reflexivity.
Qed.

Lemma snapshot_crash_safe_witness :
  size (entries_now demo_snapped.2) = 1%nat /\
  exists s' l' m, OpenStore demo_config 9 (power_loss (log demo_snapped.1), demo_snapped.2) =
      (inr s', (l', demo_snapped.2)) /\ mem_sim (mem store2) m /\ mem_sim (mem s') m.
Proof.
  split; [vm_compute; reflexivity|].
  destruct store2_healthy as [Hwf (base & hist & n & Hrec)].
  destruct (snapshot_crash_safe (sclaws := demo_snap_laws) base hist n store2 dir0 [] demo_snapped.1 demo_snapped.2
    (power_loss (log demo_snapped.1)) demo_snapped.2 demo_config 9 Hwf Hrec store2_encodable
    (surjective_pairing demo_snapped) (proj1 demo_snapped_crash) (proj2 demo_snapped_crash))
    as (s' & l' & m & H1 & _ & H2 & H3); [vm_compute; reflexivity..|].
  exists s', l', m. exact (conj H1 (conj H2 H3)).
Defined.
