(* ===== verification/Marshal.v ===== *)
(** * Marshal: a snapshot that is marshalled while the store is running

    [Snapshot] of [internal/broker/store.go] collects the jobs, the LSN and the
    token ceiling under the read lock, and marshals the jobs after it has
    released it. The jobs are shared with the store, so what is written for a
    job is not a job at one moment: every field is what the job had in it at
    some moment between the capture and the end of the marshalling.

    [trace] is what the rest of the store does meanwhile; [marshalled] is what
    the encoder can read of one job, [fuzzy] of all of them. A field is read in
    one piece here; the memory model of Go promises less of two words. *)
From S2P Require Import Prelude Job Heap Index Event Memory MemSpec.
From S2P Require Import LogSpec Wal Store Snapshot.

(** The memories the store goes through, with the events it records on the
    way. A heartbeat moves a deadline and records nothing. *)
Inductive trace : Mem -> list event -> list Mem -> Mem -> Prop :=
  | trace_end m : trace m [] [m] m
  | trace_event m e m' es ms m2 :
      admissible e m -> apply e m = (inr tt, m') -> trace m' es ms m2 ->
      trace m (e :: es) (m :: ms) m2
  | trace_heartbeat m id j expires es ms m2 :
      jobs m !! id = Some j ->
      trace (set_jobs <[id := extend_lease expires j]> m) es ms m2 ->
      trace m es (m :: ms) m2.

(** A value that a field of the job [id] has in one of the memories. *)
Definition read_in {A : Type} (ms : list Mem) (id : string) (field : Job -> A) (v : A) : Prop :=
  exists m j, m ∈ ms /\ jobs m !! id = Some j /\ field j = v.

(** Every field but the deadline, which no event about a running lease
    repeats. *)
Record logged_fields (ms : list Mem) (id : string) (j : Job) : Prop := {
  read_ID : read_in ms id ID (ID j);
  read_Queue : read_in ms id Queue (Queue j);
  read_Handler : read_in ms id Handler (Handler j);
  read_Payload : read_in ms id Payload (Payload j);
  read_IdempotencyKey : read_in ms id IdempotencyKey (IdempotencyKey j);
  read_Priority : read_in ms id JPriority (JPriority j);
  read_MaxRetries : read_in ms id MaxRetries (MaxRetries j);
  read_Attempt : read_in ms id Attempt (Attempt j);
  read_State : read_in ms id JState (JState j);
  read_Epoch : read_in ms id Epoch (Epoch j);
  read_EnqueuedAt : read_in ms id EnqueuedAt (EnqueuedAt j);
  read_EligibleAt : read_in ms id EligibleAt (EligibleAt j);
  read_LeasedBy : read_in ms id LeasedBy (LeasedBy j);
  read_LastError : read_in ms id LastError (LastError j)
}.

(** What [json.Marshal] can write for the job [id]. *)
Definition marshalled (ms : list Mem) (id : string) (j : Job) : Prop :=
  logged_fields ms id j /\ read_in ms id LeaseExpiresAt (LeaseExpiresAt j).

(** The snapshot written when the section under the lock captured [captured]
    and the store then went through [ms]. *)
Definition fuzzy (captured : snapshot) (ms : list Mem) (written : snapshot) : Prop :=
  SnapLastLSN written = SnapLastLSN captured /\
  SnapReservedUpTo written = SnapReservedUpTo captured /\
  Forall2 (fun j j' => marshalled ms (ID j) j') (SnapJobs captured) (SnapJobs written).
