(* ===== verification/MarshalProps.v ===== *)
(** * MarshalProps: a snapshot marshalled late still converges

    Every event writes constants into the fields it changes, so replaying an
    event onto a job that already has some of its effects, or of later ones,
    loses nothing: when the replay has reached the end of what the marshaller
    could see, the memory is the one the store had then. *)
From S2P Require Import Prelude Job Heap Index Event Memory MemSpec.
From S2P Require Import LogSpec Wal Store Snapshot StoreSpec System SnapshotSpec Demo Marshal.

(** ** Reading *)

Lemma read_here {A : Type} m ms id j (field : Job -> A) :
  jobs m !! id = Some j -> read_in (m :: ms) id field (field j).
Proof. intros Hj. exists m, j. split; [by left|done]. Qed.

Lemma read_weaken {A : Type} ms ms' id (field : Job -> A) v :
  ms ⊆ ms' -> read_in ms id field v -> read_in ms' id field v.
Proof. intros Hs (m & j & Hm & H). exists m, j. split; [by apply Hs|done]. Qed.

(** A field that a step leaves alone can be read after it. *)
Lemma read_keep {A : Type} m m' ms id j j' (field : Job -> A) v :
  jobs m !! id = Some j -> jobs m' !! id = Some j' -> field j' = field j ->
  read_in (m :: m' :: ms) id field v -> read_in (m' :: ms) id field v.
Proof.
  intros Hj Hj' E (m0 & j0 & [->|Hin]%elem_of_cons & H0 & <-).
  - assert (j0 = j) as -> by congruence. rewrite <- E. by apply read_here.
  - by exists m0, j0.
Qed.

Lemma fields_here m ms id j : jobs m !! id = Some j -> logged_fields (m :: ms) id j.
Proof. intros Hj. split; by apply read_here. Qed.

(** Fields read in a single memory are the fields of its job. *)
Lemma fields_last m id j j' :
  jobs m !! id = Some j -> logged_fields [m] id j' -> forget j' = forget j.
Proof.
  intros Hj Hf.
  assert (H : forall (A : Type) (field : Job -> A) v, read_in [m] id field v -> v = field j).
  { intros A field v (m0 & j0 & ->%list_elem_of_singleton & H0 & <-). congruence. }
  unfold forget, extend_lease. destruct Hf as [H1 H2 H3 H4 H5 H6 H7 H8 H9 H10 H11 H12 H13 H14].
  f_equal; by apply H.
Qed.

(** A step that leaves a job alone, apart from its deadline. *)
Lemma fields_same m m' ms id j j' j0 :
  jobs m !! id = Some j -> jobs m' !! id = Some j' -> forget j' = forget j ->
  logged_fields (m :: m' :: ms) id j0 -> logged_fields (m' :: ms) id j0.
Proof.
  intros Hj Hj' E. unfold forget, extend_lease in E.
  injection E as E1 E2 E3 E4 E5 E6 E7 E8 E9 E10 E11 E12 E13 E14.
  intros []. split; (eapply read_keep; [exact Hj|exact Hj'|eassumption|eassumption]).
Qed.

(** An event on both: what it writes is what the live job now has; what it
    leaves alone can be read later, as before. *)
Lemma fields_effect e f g m m' ms id j j0 :
  job_effect e = Some (f, g) -> jobs m !! id = Some j -> jobs m' !! id = Some (f j) ->
  logged_fields (m :: m' :: ms) id j0 -> logged_fields (m' :: ms) id (f j0).
Proof.
  intros Hf Hj Hj'. assert (Hw := fun (A : Type) (field : Job -> A) => read_here m' ms id (f j) field Hj').
  unfold job_effect in Hf. destruct (EType e); try done; injection Hf as <- <-;
    intros []; split; first [eapply read_keep; [exact Hj|exact Hj'|reflexivity|assumption] | apply Hw].
Qed.

(** ** Loading *)

Lemma fields_ID ms id j : (forall m, m ∈ ms -> mem_wf m) -> logged_fields ms id j -> ID j = id.
Proof.
  intros Hwf Hf. destruct (read_ID _ _ _ Hf) as (m & j0 & Hm & Hj & <-). by apply (wf_keys m (Hwf m Hm)).
Qed.

Lemma trace_head m es ms m2 : trace m es ms m2 -> exists ms', ms = m :: ms'.
Proof. intros H. destruct H; eauto. Qed.

Lemma heartbeat_equiv m id j expires :
  jobs m !! id = Some j -> m ≡ set_jobs <[id := extend_lease expires j]> m.
Proof.
  intros Hj. split; [|done]. cbn. rewrite fmap_insert. symmetry. rewrite insert_id; [done|].
  rewrite lookup_fmap, Hj. done.
Qed.

(** *** The invariant of the replay

    [m] is a memory the store had, [ms] those it had from then on, and [r] the
    replay when it has reached the events recorded before [m]. *)
Record catching_up (m : Mem) (ms : list Mem) (r : Mem) : Prop := {
  cu_jobs id : match jobs m !! id with
    | Some _ => exists j, jobs r !! id = Some j /\ logged_fields ms id j
    | None => jobs r !! id = None
    end;
  cu_idem : idem r = idem m;
  cu_leased id : id ∈ leased r <-> exists j, jobs r !! id = Some j /\ JState j = StateLeased;
  cu_reserved : epochReservedUpTo r = epochReservedUpTo m
}.

Lemma trace_wf m es ms m2 : mem_wf m -> trace m es ms m2 -> forall m', m' ∈ ms -> mem_wf m'.
Proof.
  intros Hwf H. induction H as [m|m e m1 es ms m2 Had Happ H IH|m id j x es ms m2 Hj H IH];
    intros m' Hin.
  - by apply list_elem_of_singleton in Hin as ->.
  - apply elem_of_cons in Hin as [->|Hin]; [done|]. apply IH; [by eapply apply_mem_wf|done].
  - apply elem_of_cons in Hin as [->|Hin]; [done|]. apply IH; [|done].
    by apply (extend_mem_wf id j).
Qed.

Lemma catching_submit j m ms r :
  jobs m !! ID j = None -> JState j = StatePending ->
  catching_up m (m :: submit_mem j m :: ms) r ->
  catching_up (submit_mem j m) (submit_mem j m :: ms) (submit_mem j r).
Proof.
  intros Hnew Hst [Hj Hi Hl Hr].
  assert (Hnew' : jobs r !! ID j = None) by (specialize (Hj (ID j)); by rewrite Hnew in Hj). split.
  - intros id. cbn [jobs submit_mem]. destruct (decide (ID j = id)) as [<-|Hne].
    + rewrite !lookup_insert_eq. exists j. split; [done|]. apply fields_here. cbn. by rewrite lookup_insert_eq.
    + rewrite !lookup_insert_ne by done. specialize (Hj id).
      destruct (jobs m !! id) as [j1|] eqn:E1; [|done]. destruct Hj as (j0 & Hj0 & Hf).
      exists j0. split; [done|]. eapply (fields_same m _ _ id j1 j1); [done| |done|done].
      cbn. by rewrite lookup_insert_ne.
  - cbn. by rewrite Hi.
  - intros id. cbn. rewrite Hl. destruct (decide (ID j = id)) as [<-|Hne].
    + rewrite Hnew', lookup_insert_eq. split; [by intros (? & ? & _)|]. intros (j0 & [= <-] & E). congruence.
    + by rewrite lookup_insert_ne.
  - exact Hr.
Qed.

Lemma catching_effect e f g j m ms r :
  job_effect e = Some (f, g) -> admissible e m -> jobs m !! EJobID e = Some j ->
  let m' := mkMem (<[EJobID e := f j]> (jobs m)) (idem m) (g (ID j) (leased m)) (epochReservedUpTo m) in
  (forall m0, m0 ∈ m :: m' :: ms -> mem_wf m0) -> catching_up m (m :: m' :: ms) r ->
  exists r', apply e r = (inr tt, r') /\ catching_up m' (m' :: ms) r'.
Proof.
  intros Hf Had Hg m' Hwf [Hj Hi Hl Hr].
  pose proof (Hj (EJobID e)) as Hje. rewrite Hg in Hje. destruct Hje as (j0 & Hj0 & Hfields).
  eexists. split; [by apply (apply_on_job e f g r j0)|].
  rewrite (fields_ID _ _ _ Hwf Hfields). split; cbn [jobs idem leased epochReservedUpTo]; [|done| |done].
  - intros id. unfold m'. cbn [jobs]. destruct (decide (EJobID e = id)) as [<-|Hne].
    + rewrite !lookup_insert_eq. exists (f j0). split; [done|].
      eapply (fields_effect e f g m _ _ _ j); [done|done| |done]. cbn. by rewrite lookup_insert_eq.
    + rewrite !lookup_insert_ne by done. specialize (Hj id).
      destruct (jobs m !! id) as [j1|] eqn:E1; [|done]. destruct Hj as (j2 & Hj2 & Hf2).
      exists j2. split; [done|]. eapply (fields_same m _ _ id j1 j1); [done| |done|done].
      cbn. by rewrite lookup_insert_ne.
  - intros id. destruct (decide (EJobID e = id)) as [<-|Hne].
    + rewrite (effect_leased e f g m _ j0 _ Hf Had), lookup_insert_eq. split; [by eauto|].
      by intros (? & [= <-] & ?).
    + rewrite (effect_leased_other e f g _ _ id Hf) by done. by rewrite lookup_insert_ne.
Qed.

Lemma catching_event e m m' ms r :
  admissible e m -> apply e m = (inr tt, m') ->
  (forall m0, m0 ∈ m :: m' :: ms -> mem_wf m0) -> catching_up m (m :: m' :: ms) r ->
  exists r', apply e r = (inr tt, r') /\ catching_up m' (m' :: ms) r'.
Proof.
  intros Had Happ Hwf Hcu. destruct (apply_cases e m m' Happ)
    as [(j & Ht & Hj & ->)|[(f & g & j & Hf & Hj & ->)|[Ht ->]]].
  - unfold admissible in Had. rewrite Ht, Hj in Had. destruct Had as (Hnew & Hst & _).
    exists (submit_mem j r). unfold apply. rewrite Ht, Hj. split; [done|]. by apply catching_submit.
  - by apply (catching_effect e f g j m).
  - eexists. unfold apply. rewrite Ht. split; [done|]. destruct Hcu as [Hj Hi Hl Hr].
    split; [|done..]. intros id. cbn [jobs]. specialize (Hj id).
    destruct (jobs m !! id) as [j|] eqn:E; [|done]. destruct Hj as (j0 & Hj0 & Hf). exists j0.
    split; [done|]. by eapply (fields_same m _ _ id j j).
Qed.

Lemma catching_heartbeat m id j expires ms r :
  jobs m !! id = Some j ->
  let m' := set_jobs <[id := extend_lease expires j]> m in
  catching_up m (m :: m' :: ms) r -> catching_up m' (m' :: ms) r.
Proof.
  intros Hid m' [Hj Hi Hl Hr]. split; [|done..]. intros id'. specialize (Hj id').
  pose proof (heartbeat_equiv m id j expires Hid) as He. fold m' in He.
  destruct (jobs m !! id') as [j1|] eqn:E1.
  - destruct (equiv_lookup _ _ _ _ He E1) as (j2 & E2 & Hfo). rewrite E2.
    destruct Hj as (j0 & Hj0 & Hf). exists j0. split; [done|]. by eapply (fields_same m m' ms id' j1 j2).
  - by rewrite (equiv_None _ _ _ He E1).
Qed.

Lemma replay_catches_up m es ms m2 r :
  mem_wf m -> trace m es ms m2 -> catching_up m ms r ->
  exists r2, apply_all es r = (inr tt, r2) /\ catching_up m2 [m2] r2.
Proof.
  intros Hwf Htr. pose proof (trace_wf _ _ _ _ Hwf Htr) as Hall. clear Hwf. revert r Hall.
  induction Htr as [m|m e m' es ms m2 Had Happ H IH|m id j x es ms m2 Hj H IH]; intros r Hall Hcu.
  - by exists r.
  - destruct (trace_head _ _ _ _ H) as [ms' ->].
    destruct (catching_event e m m' ms' r Had Happ Hall Hcu) as (r' & Hr' & Hcu').
    destruct (IH r') as (r2 & H2 & Hcu2); [intros m0 Hm0; apply Hall; by right|done|].
    exists r2. split; [|done]. unfold apply_all in *. by erewrite bind_ok by exact Hr'.
  - destruct (trace_head _ _ _ _ H) as [ms' ->]. apply IH.
    + intros m0 Hm0. apply Hall. by right.
    + by apply catching_heartbeat.
Qed.

Lemma caught_up m r : mem_wf m -> catching_up m [m] r -> r ≡ m.
Proof.
  intros Hwf [Hj Hi Hl Hr].
  assert (Hjobs : forall id, forget <$> jobs r !! id = forget <$> jobs m !! id).
  { intros id. specialize (Hj id). destruct (jobs m !! id) as [j|] eqn:E; [|by rewrite Hj].
    destruct Hj as (j0 & -> & Hf). cbn. f_equal. by apply (fields_last m id). }
  split_and!; [|done| |done].
  - apply map_eq. intros id. by rewrite !lookup_fmap, Hjobs.
  - apply set_eq. intros id. rewrite Hl, (wf_leased m Hwf). specialize (Hjobs id).
    destruct (jobs r !! id) as [j1|], (jobs m !! id) as [j2|]; try done. injection Hjobs as Hfo.
    split; intros (? & [= <-] & E); eexists; (split; [done|]); congruence.
Qed.

(** *** The start of the replay *)

(** What no event changes of a job. *)
Lemma trace_fixed m es ms m2 id j m' j' :
  trace m es ms m2 -> jobs m !! id = Some j -> m' ∈ ms -> jobs m' !! id = Some j' ->
  Queue j' = Queue j /\ IdempotencyKey j' = IdempotencyKey j.
Proof.
  intros H. revert j. induction H as [m|m e m1 es ms m2 Had Happ H IH|m id1 j1 x es ms m2 Hj1 H IH];
    intros j Hj Hin Hj'.
  - apply list_elem_of_singleton in Hin as ->. assert (j' = j) as -> by congruence. done.
  - apply elem_of_cons in Hin as [->|Hin]; [by assert (j' = j) as -> by congruence|].
    destruct (apply_cases e m m1 Happ) as [(j0 & Ht & He & ->)|[(f & g & j0 & Hf & Hg & ->)|[Ht ->]]].
    + apply (IH j); [|done..]. unfold admissible in Had. rewrite Ht, He in Had.
      destruct Had as (Hnew & _). cbn. rewrite lookup_insert_ne; [done|]. intros <-. congruence.
    + destruct (decide (EJobID e = id)) as [<-|Hne].
      * assert (j0 = j) as -> by congruence.
        destruct (effect_fixed e f g j Hf) as (_ & Hq & Hk & _).
        destruct (IH (f j)) as [E1 E2]; [cbn; by rewrite lookup_insert_eq|done..|].
        by rewrite E1, E2, Hq, Hk.
      * apply (IH j); [|done..]. cbn. by rewrite lookup_insert_ne.
    + by apply (IH j).
  - apply elem_of_cons in Hin as [->|Hin]; [by assert (j' = j) as -> by congruence|].
    destruct (decide (id1 = id)) as [<-|Hne].
    + assert (j1 = j) as -> by congruence.
      apply (IH (extend_lease x j)); [cbn; by rewrite lookup_insert_eq|done..].
    + apply (IH j); [|done..]. cbn. by rewrite lookup_insert_ne.
Qed.

Lemma jobs_in_order_ids m : mem_wf m -> NoDup (map ID (jobs_in_order (jobs m))).
Proof.
  intros Hwf. unfold jobs_in_order. rewrite map_map.
  rewrite (map_ext_in _ fst); [apply NoDup_fst_map_to_list|].
  intros [id j] Hin%list_elem_of_In%elem_of_map_to_list. by apply (wf_keys m Hwf).
Qed.

Section Load.
Context {L : Type} {lops : LogOps L}.
Context (s : Store (L := L)) (es : list event) (ms : list Mem) (m2 : Mem) (written : snapshot).
Hypothesis (Hwf : mem_wf (mem s)) (Htr : trace (mem s) es ms m2) (Hfuzzy : fuzzy (capture s) ms written).

(** A job of the memory and what was written for it. *)
Lemma written_for id j :
  jobs (mem s) !! id = Some j -> exists j', j' ∈ SnapJobs written /\ marshalled ms id j' /\ ID j' = id.
Proof.
  intros Hj. destruct Hfuzzy as (_ & _ & Hall).
  assert (Hin : j ∈ SnapJobs (capture s)).
  { cbn. rewrite merge_sort_Permutation. apply elem_of_jobs. by exists id. }
  apply list_elem_of_lookup in Hin as [i Hi].
  destruct (Forall2_lookup_l _ _ _ _ _ Hall Hi) as (j' & Hi' & Hm).
  rewrite (wf_keys _ Hwf _ _ Hj) in Hm. exists j'. split; [by eapply list_elem_of_lookup_2|].
  split; [done|]. eapply (fields_ID ms); [by apply (trace_wf _ _ _ _ Hwf Htr)|apply Hm].
Qed.

Lemma written_from j' :
  j' ∈ SnapJobs written -> exists j, jobs (mem s) !! ID j' = Some j /\ marshalled ms (ID j') j'.
Proof.
  intros Hin. destruct Hfuzzy as (_ & _ & Hall). apply list_elem_of_lookup in Hin as [i Hi'].
  destruct (Forall2_lookup_r _ _ _ _ _ Hall Hi') as (j & Hi & Hm).
  apply list_elem_of_lookup_2 in Hi. cbn in Hi. rewrite merge_sort_Permutation in Hi.
  apply elem_of_jobs in Hi as [id Hj].
  assert (E : ID j' = ID j).
  { eapply (fields_ID ms); [by apply (trace_wf _ _ _ _ Hwf Htr)|apply Hm]. }
  rewrite E. exists j. split; [|done]. by rewrite (wf_keys _ Hwf _ _ Hj).
Qed.

Lemma written_ids a b : a ∈ SnapJobs written -> b ∈ SnapJobs written -> ID a = ID b -> a = b.
Proof.
  destruct Hfuzzy as (_ & _ & Hall). intros [i Hi]%list_elem_of_lookup [k Hk]%list_elem_of_lookup E.
  destruct (Forall2_lookup_r _ _ _ _ _ Hall Hi) as (ja & Ha & Hma).
  destruct (Forall2_lookup_r _ _ _ _ _ Hall Hk) as (jb & Hb & Hmb).
  pose proof (fields_ID ms _ _ (trace_wf _ _ _ _ Hwf Htr) (proj1 Hma)) as Ea.
  pose proof (fields_ID ms _ _ (trace_wf _ _ _ _ Hwf Htr) (proj1 Hmb)) as Eb.
  assert (Hnd : NoDup (map ID (SnapJobs (capture s)))).
  { cbn. erewrite Permutation_map by apply merge_sort_Permutation. by apply jobs_in_order_ids. }
  assert (i = k) as ->; [|congruence].
  apply (NoDup_lookup _ i k (ID ja) Hnd).
  - by rewrite list_lookup_fmap, Ha.
  - rewrite list_lookup_fmap, Hb. cbn. congruence.
Qed.

Lemma written_key id j j' :
  jobs (mem s) !! id = Some j -> marshalled ms id j' ->
  job_key j' = job_key j /\ IdempotencyKey j' = IdempotencyKey j.
Proof.
  intros Hj [Hf _].
  destruct (read_Queue _ _ _ Hf) as (ma & ja & Hma & Hja & Eq).
  destruct (read_IdempotencyKey _ _ _ Hf) as (mb & jb & Hmb & Hjb & Ek).
  destruct (trace_fixed _ _ _ _ _ _ _ _ Htr Hj Hma Hja) as [Hq _].
  destruct (trace_fixed _ _ _ _ _ _ _ _ Htr Hj Hmb Hjb) as [_ Hk].
  unfold job_key. by rewrite <- Eq, <- Ek, Hq, Hk.
Qed.

Lemma written_idem : idem (loaded (SnapJobs written)) = idem (mem s).
Proof.
  apply map_eq. intros k. apply option_eq. intros id. rewrite loaded_idem.
  - split.
    + intros (j' & Hin & Hne & -> & <-). destruct (written_from j' Hin) as (j & Hj & Hm).
      destruct (written_key _ _ _ Hj Hm) as [-> Ek].
      apply (wf_idem_complete _ Hwf); [done|congruence].
    + intros (j & Hj & Hne & ->)%(wf_idem_sound _ Hwf).
      destruct (written_for id j Hj) as (j' & Hin & Hm & Hid).
      destruct (written_key _ _ _ Hj Hm) as [E Ek]. exists j'. by rewrite E, Ek.
  - intros a b Ha Hb Hka Hkb E. apply written_ids; [done..|].
    destruct (written_from a Ha) as (ja & Hja & Hma). destruct (written_from b Hb) as (jb & Hjb & Hmb).
    destruct (written_key _ _ _ Hja Hma) as [Ea Eka]. destruct (written_key _ _ _ Hjb Hmb) as [Eb Ekb].
    pose proof (wf_idem_complete _ Hwf _ _ Hja) as H1. pose proof (wf_idem_complete _ Hwf _ _ Hjb) as H2.
    rewrite Eka in Hka. rewrite Ekb in Hkb. specialize (H1 Hka). specialize (H2 Hkb). congruence.
Qed.

Lemma written_catching_up : catching_up (mem s) ms (load_snapshot written).
Proof.
  assert (Hjobs : forall id j, jobs (loaded (SnapJobs written)) !! id = Some j <->
    j ∈ SnapJobs written /\ ID j = id) by (intros id j; apply loaded_jobs, written_ids).
  change (load_snapshot written) with (mkMem (jobs (loaded (SnapJobs written)))
    (idem (loaded (SnapJobs written))) (leased (loaded (SnapJobs written))) (SnapReservedUpTo written)).
  split; cbn [jobs idem leased epochReservedUpTo].
  - intros id. destruct (jobs (mem s) !! id) as [j|] eqn:Ej.
    + destruct (written_for id j Ej) as (j' & Hin & [Hm _] & Hid). exists j'. by rewrite Hjobs.
    + apply eq_None_not_Some. intros [j' [Hin <-]%Hjobs].
      destruct (written_from j' Hin) as (j & Hj & _). congruence.
  - apply written_idem.
  - intros id. rewrite loaded_leased. split; intros (j & Hj); exists j; rewrite Hjobs in *; tauto.
  - by destruct Hfuzzy as (_ & -> & _).
Qed.
End Load.

(** ** The property *)

(** A snapshot that is marshalled while the store is running converges.
    Let every field of every captured job be read at a moment of its own, with
    any operations and heartbeats in between: loading what was written and
    replaying the records from the LSN it names up to the last one the
    marshaller could have seen the effect of, succeeds, and gives exactly the
    memory the store had then (lease deadlines apart, which heartbeats move
    without a record). *)
Theorem late_marshal_converges {L : Type} {lops : LogOps L} (s : Store (L := L)) es ms m2 written :
  mem_wf (mem s) -> trace (mem s) es ms m2 -> fuzzy (capture s) ms written ->
  SnapLastLSN written = lastLSN s /\
  exists r, apply_all es (load_snapshot written) = (inr tt, r) /\ r ≡ m2.
Proof.
  intros Hwf Htr Hfuzzy. split; [by destruct Hfuzzy as (-> & _)|].
  pose proof (written_catching_up s es ms m2 written Hwf Htr Hfuzzy) as Hcu.
  destruct (replay_catches_up _ _ _ _ _ Hwf Htr Hcu) as (r & Hr & Hcu').
  exists r. split; [done|]. apply caught_up; [|done]. apply (trace_wf _ _ _ _ Hwf Htr).
  clear -Htr. induction Htr; [by left|by right..].
Qed.

(** ** Witness *)

(** The job of [store2] is acknowledged while it is marshalled: the state is
    read after the acknowledgement, the worker before it. *)
Definition demo_torn : Job :=
  let j := demo_leased in
  mkJob (ID j) (Queue j) (Handler j) (Payload j) (IdempotencyKey j) (JPriority j)
    (MaxRetries j) (Attempt j) StateDone (Epoch j) (EnqueuedAt j) (EligibleAt j)
    (LeaseExpiresAt j) (LeasedBy j) (LastError j).

Definition demo_acked : Mem :=
  mkMem (<["job-1" := ack_job demo_leased]> (jobs (mem store2))) (idem (mem store2))
    (remove (ID demo_leased) (leased (mem store2))) (epochReservedUpTo (mem store2)).

Definition demo_written : snapshot :=
  mkSnapshot (lastLSN store2) (epochReservedUpTo (mem store2)) [demo_torn].

Lemma store2_job1 : jobs (mem store2) !! "job-1"%string = Some demo_leased.
Proof. rewrite store2_jobs. apply lookup_insert_eq. Qed.

Lemma demo_trace : trace (mem store2) [ev_ack "job-1" 1] [mem store2; demo_acked] demo_acked.
Proof.
  eapply trace_event; [| |apply trace_end].
  - exists demo_leased. split; [apply store2_job1|done].
  - by apply (apply_on_job (ev_ack "job-1" 1) ack_job remove _ demo_leased); [|apply store2_job1].
Qed.

Lemma demo_fuzzy : fuzzy (capture store2) [mem store2; demo_acked] demo_written.
Proof.
  split; [done|]. split; [done|].
  assert (E : SnapJobs (capture store2) = [demo_leased]).
  { cbn [SnapJobs capture]. unfold jobs_in_order. by rewrite store2_jobs, map_to_list_singleton. }
  rewrite E. constructor; [|constructor].
  pose proof store2_job1 as Hj.
  assert (Hd : jobs demo_acked !! "job-1"%string = Some (ack_job demo_leased)) by apply lookup_insert_eq.
  assert (H1 : mem store2 ∈ [mem store2; demo_acked]) by apply list_elem_of_here.
  assert (H2 : demo_acked ∈ [mem store2; demo_acked]) by apply list_elem_of_further, list_elem_of_here.
  split; [split|];
    first [exact (ex_intro _ (mem store2) (ex_intro _ demo_leased (conj H1 (conj Hj eq_refl))))
      |exact (ex_intro _ demo_acked (ex_intro _ (ack_job demo_leased) (conj H2 (conj Hd eq_refl))))].
Qed.

Lemma late_marshal_converges_witness :
  exists r, apply_all [ev_ack "job-1" 1] (load_snapshot demo_written) = (inr tt, r) /\ r ≡ demo_acked.
Proof.
  exact (proj2 (late_marshal_converges store2 _ _ _ demo_written
    (inv_mem _ _ _ _ (proj1 store2_healthy)) demo_trace demo_fuzzy)).
Defined.
