(* ===== verification/LateSnapshot.v ===== *)
(** * LateSnapshot: crashes around a snapshot that was marshalled late

    [Marshal] says what [Store.Snapshot] can write when the store goes on
    running, [MarshalProps] that a replay makes up for it. Here such a snapshot
    is written out, with any of the calls on its directory failing, the log is
    truncated behind it, and the machine goes down. *)
From S2P Require Import Prelude Job Heap Index Framing LogSpec Wal WalSpec Event Memory MemSpec.
From S2P Require Import Store Snapshot StoreSpec System Durability SnapshotSpec Life Demo Marshal MarshalProps.
From S2P Require Import SnapshotProps.

(** ** Memories *)

(** Lease deadlines do not matter to the invariant. *)
Lemma equiv_wf m1 m2 : m1 ≡ m2 -> mem_wf m1 -> mem_wf m2.
Proof.
  intros H [Hk Hl Hc Hs]. pose proof H as (_ & Hi & Hle & _).
  assert (Hback : forall id j2, jobs m2 !! id = Some j2 ->
    exists j1, jobs m1 !! id = Some j1 /\ forget j2 = forget j1).
  { intros id j2. by apply equiv_lookup. }
  split.
  - intros id j2 Hj. destruct (Hback id j2 Hj) as (j1 & Hj1 & E). injection E as E _.
    rewrite E. by apply Hk.
  - intros id. rewrite <- Hle, Hl. split; intros (j & Hj & Hst).
    + destruct (equiv_lookup _ _ _ _ H Hj) as (j' & Hj' & E). exists j'. split; [done|].
      apply (f_equal JState) in E. cbn in E. congruence.
    + destruct (Hback _ _ Hj) as (j' & Hj' & E). exists j'. split; [done|].
      apply (f_equal JState) in E. cbn in E. congruence.
  - intros id j2 Hj Hne. destruct (Hback id j2 Hj) as (j1 & Hj1 & E). injection E as _ E2 _ _ E5 _ _ _ _ _ _ _ _ _.
    rewrite <- Hi. unfold job_key. rewrite E2, E5. apply Hc; congruence.
  - intros k id. rewrite <- Hi. intros (j1 & Hj1 & Hne & ->)%Hs.
    destruct (equiv_lookup _ _ _ _ H Hj1) as (j2 & Hj2 & E). injection E as _ E2 _ _ E5 _ _ _ _ _ _ _ _ _.
    exists j2. split; [done|]. unfold job_key. by rewrite <- E2, <- E5.
Qed.

(** What a store records while it runs extends its history. *)
Lemma trace_history m0 hist m es ms m2 :
  history m0 hist -> mem_sim m m0 -> trace m es ms m2 ->
  exists m', history m' (hist ++ es) /\ mem_sim m2 m'.
Proof.
  intros Hm0 Hsim Htr. revert m0 hist Hm0 Hsim.
  induction Htr as [m|m e m1 es ms m2 Had Happ H IH|m id j x es ms m2 Hj H IH]; intros m0 hist Hm0 Hsim.
  - exists m0. by rewrite app_nil_r.
  - destruct (apply_sim e m m0 m1 Hsim Happ) as (m0' & Happ' & Hsim').
    destruct (IH m0' (hist ++ [e])) as (m' & Hm' & Hs'); [|done|].
    + econstructor; [done|by apply (admissible_sim e m m0)|done].
    + exists m'. by rewrite <- app_assoc in Hm'.
  - apply (IH m0 hist Hm0). by rewrite <- (heartbeat_equiv m id j x Hj).
Qed.

Lemma trace_last m es ms m2 : trace m es ms m2 -> m2 ∈ ms.
Proof. induction 1; [by left|by right..]. Qed.

Section Late.
Context {L : Type} {lops : LogOps L} {laws : LogLaws L}.
Context {codec : EventCodec} {claws : CodecLaws}.
Context {scodec : SnapCodec} {sclaws : SnapCodecLaws}.

(** What was written is as good as the events it names, once those it could see
    the effect of are durable. *)
Lemma late_snapshot_ok base hist n0 (s0 : Store) d es ms m1 written es1 n :
  store_wf s0 -> recorded base hist n0 s0 d ->
  trace (mem s0) es ms m1 -> fuzzy (capture s0) ms written ->
  (length (hist ++ es) <= n)%nat ->
  snapshot_ok (length hist) (hist ++ es ++ es1) n (load_snapshot written).
Proof.
  intros Hwf [Hlg _ _] Htr Hfuzzy Hn. pose proof (inv_mem _ _ _ _ Hwf) as Hm.
  pose proof (written_catching_up s0 es ms m1 written Hm Htr Hfuzzy) as Hcu.
  destruct (replay_catches_up _ _ _ _ _ Hm Htr Hcu) as (r & Hr & Hcu').
  assert (Hm1 : mem_wf m1) by (eapply trace_wf; [exact Hm|exact Htr|by eapply trace_last]).
  pose proof (caught_up _ _ Hm1 Hcu') as Heq.
  destruct (lg_history _ _ _ _ Hlg) as (m0 & Hm0 & Hsim0).
  destruct (trace_history _ _ _ _ _ _ Hm0 Hsim0 Htr) as (m' & Hm' & Hsim').
  exists (length es), r, m'. rewrite length_app in Hn. split; [lia|].
  rewrite drop_app_length, take_app_length. split; [done|].
  split; [by apply (equiv_wf m1); [symmetry|]|]. split; [|by rewrite Heq].
  rewrite app_assoc, <- length_app, take_app_length. done.
Qed.

Lemma late_written base hist n0 (s0 : Store) d es ms m1 written base1 es1 n s cs :
  store_wf s0 -> recorded base hist n0 s0 d ->
  trace (mem s0) es ms m1 -> fuzzy (capture s0) ms written -> snap_encodable written ->
  recorded base1 (hist ++ es ++ es1) n s d -> (length (hist ++ es) <= n)%nat ->
  let sd := (write_out written (s, with_calls cs d)).2 in
  exists base' l', recorded base' (hist ++ es ++ es1) n sd.1 sd.2 /\ sd.1 = with_log l' s.
Proof.
  intros Hwf Hrec Htr Hfuzzy Henc [Hlg Hdir Hb1] Hn sd.
  pose proof (late_snapshot_ok _ _ _ _ _ _ _ _ _ es1 n Hwf Hrec Htr Hfuzzy Hn) as Hok.
  destruct Hrec as [Hlg0 Hdir0 _]. destruct (logged_length _ _ _ _ Hlg0) as (_ & _ & Hn0).
  pose proof (dir_ok_upto _ _ _ _ (length hist) Hdir0 Hn0) as Hup.
  rewrite length_app in Hn.
  destruct (logged_length _ _ _ _ Hlg) as (Hu & Hb1' & _).
  assert (HbK : (base1 <= length hist)%nat).
  { destruct (dir_anchor _ _ _ _ Hdir) as [->|[[f Hf] _]]; [lia|].
    specialize (Hup _ f (N.of_nat base1) Hf). rewrite Nat2N.id in Hup. apply Hup.
    apply parseSnapshot_name. unfold is_u64 in *. lia. }
  assert (H : wp (write_out written) (fun (_ : snapError log_err + unit) sd => exists base' l',
    sd.1 = with_log l' s /\ logged_upto base' (hist ++ es ++ es1) n sd.1 /\
    dir_ok (hist ++ es ++ es1) (always n) base' sd.2 /\ (base1 <= base' <= length hist)%nat) (s, with_calls cs d)).
  { apply (write_out_ok base1 _ (always n) n (length hist)); try done.
    - by apply with_calls_ok.
    - unfold always. lia.
    - rewrite length_app. lia.
    - destruct Hfuzzy as (-> & _). apply (lg_last _ _ _ _ Hlg0). }
  unfold wp in H. destruct H as (base' & l' & E & Hlg' & Hdir' & Hb').
  exists base', l'. split; [split; [done|done|lia]|done].
Qed.

(** C27: A snapshot that is marshalled while the store is running is crash-safe,
    when what it could see was durable before it is written out. Let the
    operations record any events after the capture, let every field of every
    captured job be read at a moment of its own, and let a flush cover those
    events; then let any of the calls on the directory of snapshots fail. The
    store is healthy after that, and when the machine goes down it opens again,
    to a prefix of its history with everything that was durable. *)
Theorem late_snapshot_crash_safe base hist n0 (s0 : Store) d es ms m1 written base1 es1 n s cs :
  store_wf s0 -> recorded base hist n0 s0 d ->
  trace (mem s0) es ms m1 -> fuzzy (capture s0) ms written -> snap_encodable written ->
  store_wf s -> recorded base1 (hist ++ es ++ es1) n s d -> (length (hist ++ es) <= n)%nat ->
  let sd := (write_out written (s, with_calls cs d)).2 in
  healthy sd.1 sd.2 /\ mem sd.1 = mem s /\
  forall l2 d2 cfg now, log_crash (log sd.1) l2 -> dir_crash sd.2 d2 -> calls d2 = [] ->
    is_u64 (epochReservedUpTo (mem s) + 1) ->
    exists k s' l' m, OpenStore cfg now (l2, d2) = (inr s', (l', d2)) /\
      (n <= k <= length (hist ++ es ++ es1))%nat /\
      history m (take k (hist ++ es ++ es1)) /\ mem_sim (mem s') m.
Proof.
  intros Hwf0 Hrec0 Htr Hfuzzy Henc Hwf Hrec Hn sd.
  destruct (late_written _ _ _ _ _ _ _ _ _ _ _ _ _ cs Hwf0 Hrec0 Htr Hfuzzy Henc Hrec Hn)
    as (base' & l' & Hrec' & E). fold sd in Hrec', E.
  split; [split; [by rewrite E|by eauto]|]. split; [by rewrite E|]. intros l2 d2 cfg now Hc Hdc Hcalls Hu.
  destruct (crash_recovers base' _ n sd.1 sd.2 l2 d2 cfg now Hrec' Hc Hdc Hcalls)
    as (k & b & live & m & s' & l1 & Hk & Hopen & Hm & Hsim & _ & Hmem & _); [by rewrite E|].
  exists k, s', l1, m. split; [done|]. split; [done|]. split; [done|].
  rewrite Hmem. by apply mem_sim_recover.
Qed.
End Late.

(** ** Witness *)

Definition late_acked : Store := run_op (OpAck "job-1" 1) store2.

Lemma late_ack_ok e : may_record (OpAck "job-1" 1) store2 e -> codec_ok e.
Proof. intros [-> _]. vm_compute. reflexivity. Qed.

Lemma late_acked_recorded base hist n :
  recorded base hist n store2 dir0 ->
  exists n', recorded base (hist ++ [ev_ack "job-1" 1]) n' late_acked dir0.
Proof.
  intros Hrec. pose proof Hrec as [Hlg _ _].
  assert (Hroom : is_u64 (lastLSN store2 + N.of_nat (max_records (OpAck "job-1" 1)) + 1)) by (vm_compute; reflexivity).
  destruct (run_op_logged base hist n (OpAck "job-1" 1) store2 (proj1 store2_healthy) Hlg I late_ack_ok
    (room_of_last _ _ _ _ _ Hlg Hroom)) as (es & n' & Hn & Hlg' & HP & Hlen).
  assert (Hes : es = [ev_ack "job-1" 1]).
  { pose proof (lg_last _ _ _ _ Hlg') as E'. pose proof (lg_last _ _ _ _ Hlg) as E.
    assert (E2 : lastLSN late_acked = (lastLSN store2 + 1)%N) by (vm_compute; reflexivity).
    change (run_op (OpAck "job-1" 1) store2) with late_acked in E'. rewrite E2, E, length_app in E'.
    destruct es as [|e [|e2 es]]; cbn in E', Hlen; [lia| |lia].
    apply Forall_singleton in HP as [-> _]. done. }
  subst es. exists n'. by eapply recorded_grows.
Qed.

Definition late_flushed : Store := (commitDurable late_acked).2.
Definition late_snapped : Store * SnapDir := (write_out demo_written (late_flushed, with_calls [] dir0)).2.

Lemma late_flushed_recorded base hist n :
  recorded base hist n store2 dir0 ->
  recorded base (hist ++ [ev_ack "job-1" 1]) (length (hist ++ [ev_ack "job-1" 1])) late_flushed dir0.
Proof.
  intros Hrec. destruct (late_acked_recorded base hist n Hrec) as [n' Hrec'].
  destruct (commit_recorded _ _ _ _ _ Hrec') as (l' & Hc & Hrec2).
  unfold late_flushed. by rewrite Hc.
Qed.

Lemma late_snapped_crash :
  log_crash (log late_snapped.1) (power_loss (log late_snapped.1)) /\ dir_crash late_snapped.2 late_snapped.2.
Proof.
  split.
  - apply power_loss_crash. apply (proj1 (bool_decide_eq_true (map_Forall (fun _ f => synced_within f)
      (files (disk (log late_snapped.1)))))). vm_compute. reflexivity.
  - apply synced_dir_crash; [vm_compute; reflexivity|].
    apply (proj1 (bool_decide_eq_true (map_Forall (fun _ f => synced_file f)
      (entries_now late_snapped.2)))). vm_compute. reflexivity.
Qed.

Lemma late_written_encodable : snap_encodable demo_written.
Proof. vm_compute. reflexivity. Qed.

Lemma ack_commit_wf {L : Type} {lops : LogOps L} {codec : EventCodec} id epoch (s : Store) :
  store_wf s -> store_wf (commitDurable (run_op (OpAck id epoch) s)).2.
Proof.
  intros Hwf. exact (run_op_wf OpCommit _ (run_op_wf (OpAck id epoch) s Hwf I) I).
Qed.

Lemma late_flushed_wf : store_wf late_flushed.
Proof. unfold late_flushed, late_acked. apply ack_commit_wf, store2_healthy. Qed.

Lemma late_room : is_u64 (epochReservedUpTo (mem late_flushed) + 1).
Proof. vm_compute. reflexivity. Qed.

Lemma late_calls : calls late_snapped.2 = [].
Proof. vm_compute. reflexivity. Qed.

Lemma late_snapshot_crash_safe_witness :
  size (entries_now late_snapped.2) = 1%nat /\ healthy late_snapped.1 late_snapped.2 /\
  exists s' l' m, OpenStore demo_config 9 (power_loss (log late_snapped.1), late_snapped.2) =
      (inr s', (l', late_snapped.2)) /\ mem_sim (mem s') m.
Proof.
  split; [vm_compute; reflexivity|].
  destruct store2_healthy as [Hwf (base & hist & n & Hrec)].
  pose proof (late_flushed_recorded base hist n Hrec) as Hrec2.
  destruct (late_snapshot_crash_safe (sclaws := demo_snap_laws) base hist n store2 dir0 [ev_ack "job-1" 1]
    [mem store2; demo_acked] demo_acked demo_written base [] (length (hist ++ [ev_ack "job-1" 1])) late_flushed []
    Hwf Hrec demo_trace demo_fuzzy late_written_encodable late_flushed_wf Hrec2 (le_n _)) as (H1 & _ & H2).
  split; [exact H1|].
  destruct (H2 (power_loss (log late_snapped.1)) late_snapped.2 demo_config 9 (proj1 late_snapped_crash)
    (proj2 late_snapped_crash) late_calls late_room) as (k & s' & l' & m & H3 & _ & _ & H4).
  exists s', l', m. exact (conj H3 H4).
Defined.
