(* ===== verification/Dispatcher.v ===== *)
(** * Dispatcher: who gets what next, [internal/broker/dispatcher.go]

    The connected streams, the slots they have in use and the pass that hands
    jobs out. A [*workerStream] is its position in [objs], the list of all
    streams ever registered; the dispatcher's maps hold such positions.

    The locked sections are functions of their own. [dispatch] composes them
    the way the goroutine runs when nobody interferes; [step] lets the RPC
    handlers, the workers and the store's other clients come in between any
    two of them. *)
From S2P Require Import Prelude Job Heap Index Framing LogSpec Event Memory Store StoreSpec System.

Definition DefaultDispatchTick : Duration := 200 * Millisecond.
Definition queueDepthInterval : Duration := 2 * Second.

Record workerStream := mkStream {
  wid : N;
  wqueue : string;
  workerID : string;
  maxInFlight : Z;
  leaseDur : Duration;
  cancelled : bool;      (** [ctx.Err() != nil] *)
  ch : list Job;         (** buffered to [maxInFlight] *)
  inFlight : Z
}.

Definition set_cancelled (st : workerStream) : workerStream :=
  mkStream (wid st) (wqueue st) (workerID st) (maxInFlight st) (leaseDur st) true (ch st) (inFlight st).
Definition set_ch (c : list Job) (st : workerStream) : workerStream :=
  mkStream (wid st) (wqueue st) (workerID st) (maxInFlight st) (leaseDur st) (cancelled st) c (inFlight st).
Definition set_inFlight (n : Z) (st : workerStream) : workerStream :=
  mkStream (wid st) (wqueue st) (workerID st) (maxInFlight st) (leaseDur st) (cancelled st) (ch st) n.

(** A send that finds the channel full and the stream still connected. *)
Inductive stuck := Stuck (ptr : nat).

Section Dispatcher.
Context {L : Type} {lops : LogOps L} {codec : EventCodec}.

Record Dispatcher := mkDispatcher {
  store : Store;
  tick : Duration;
  objs : list workerStream;
  streams : gmap N nat;
  jobOwner : gmap string nat;
  nextID : N;
  wake : bool
}.

Definition with_store (s : Store) (d : Dispatcher) : Dispatcher :=
  mkDispatcher s (tick d) (objs d) (streams d) (jobOwner d) (nextID d) (wake d).
Definition with_objs (os : list workerStream) (d : Dispatcher) : Dispatcher :=
  mkDispatcher (store d) (tick d) os (streams d) (jobOwner d) (nextID d) (wake d).
Definition with_owner (ow : gmap string nat) (d : Dispatcher) : Dispatcher :=
  mkDispatcher (store d) (tick d) (objs d) (streams d) ow (nextID d) (wake d).

Definition NewDispatcher (s : Store) : Dispatcher :=
  mkDispatcher s DefaultDispatchTick [] ∅ ∅ 0 false.

Definition signal (d : Dispatcher) : Dispatcher :=
  mkDispatcher (store d) (tick d) (objs d) (streams d) (jobOwner d) (nextID d) true.

(** ** Registration *)

Definition register (queue wk : string) (max : Z) (dur : Duration) (d : Dispatcher) :
    nat * Dispatcher :=
  let id := u64 (nextID d + 1) in
  let ptr := length (objs d) in
  (ptr, signal (mkDispatcher (store d) (tick d)
                  (objs d ++ [mkStream id queue wk max dur false [] 0])
                  (<[id := ptr]> (streams d)) (jobOwner d) id (wake d))).

Definition unregister (ptr : nat) (d : Dispatcher) : Dispatcher :=
  match objs d !! ptr with
  | None => d
  | Some st =>
      mkDispatcher (store d) (tick d) (objs d) (delete (wid st) (streams d))
        (filter (fun kv => kv.2 <> ptr) (jobOwner d)) (nextID d) (wake d)
  end.

Definition release (jobID : string) (d : Dispatcher) : Dispatcher :=
  signal
    match jobOwner d !! jobID with
    | None => d
    | Some ptr =>
        with_objs
          (alter (fun st => if 0 <? inFlight st then set_inFlight (inFlight st - 1) st else st)
             ptr (objs d))
          (with_owner (delete jobID (jobOwner d)) d)
    end.

Fixpoint release_all (ids : list string) (d : Dispatcher) : Dispatcher :=
  match ids with [] => d | id :: ids => release_all ids (release id d) end.

(** ** The sections of [dispatch] *)

(** The test at the head of the loop body: connected, and with room. *)
Definition hasRoom (ptr : nat) (d : Dispatcher) : bool :=
  match objs d !! ptr with
  | None => false
  | Some st => negb (cancelled st) && (inFlight st <? maxInFlight st)
  end.

(** [d.store.Lease] for the stream; an error of the store is only logged. *)
Definition lease_for (ptr : nat) (now : Time) (d : Dispatcher) : option Job * Dispatcher :=
  match objs d !! ptr with
  | None => (None, d)
  | Some st =>
      let '(r, s') := Lease (wqueue st) (workerID st) (leaseDur st) now (store d) in
      (match r with inl _ => None | inr oj => oj end, with_store s' d)
  end.

Definition account (ptr : nat) (j : Job) (d : Dispatcher) : Dispatcher :=
  with_objs (alter (fun st => set_inFlight (inFlight st + 1) st) ptr (objs d))
    (with_owner (<[ID j := ptr]> (jobOwner d)) d).

Definition chan_has_room (st : workerStream) : bool :=
  Z.of_nat (length (ch st)) <? maxInFlight st.

(** The [select]: [None] while neither case is ready; when both are, the
    runtime picks. The result is whether the job was handed over. *)
Definition send (pick : bool) (ptr : nat) (j : Job) (d : Dispatcher) : option (bool * Dispatcher) :=
  match objs d !! ptr with
  | None => None
  | Some st =>
      if chan_has_room st && (negb (cancelled st) || pick) then
        Some (true, with_objs (<[ptr := set_ch (ch st ++ [j]) st]> (objs d)) d)
      else if cancelled st then Some (false, d) else None
  end.

(** ** [dispatch] when nothing comes in between *)

Abbreviation dop A := (M Dispatcher stuck A) (only parsing).

(** The loop body: whether a job was placed. *)
Definition offer (now : Time) (ptr : nat) : dop bool :=
  let* d := gets (fun d => d) in
  if negb (hasRoom ptr d) then ret false
  else
    let '(oj, d) := lease_for ptr now d in
    modify (fun _ => d) ;;;
    match oj with
    | None => ret false
    | Some j =>
        modify (account ptr j) ;;;
        let* d := gets (fun d => d) in
        match send true ptr j d with
        | None => throw (Stuck ptr)
        | Some (placed, d) => modify (fun _ => d) ;;; ret placed
        end
    end.

(** One pass over the streams; [now p] is the time stream [p] is looked at. *)
Fixpoint pass (now : nat -> Time) (ptrs : list nat) : dop bool :=
  match ptrs with
  | [] => ret false
  | p :: ps =>
      let* a := offer (now p) p in
      let* b := pass now ps in
      ret (a || b)
  end.

(** Passes until one places nothing; [false]: out of fuel. *)
Fixpoint dispatch_loop (fuel : nat) (clock : nat -> nat -> Time) (round : nat) (ptrs : list nat) :
    dop bool :=
  match fuel with
  | O => ret false
  | S fuel =>
      let* placed := pass (clock round) ptrs in
      if placed then dispatch_loop fuel clock (S round) ptrs else ret true
  end.

(** The free slots of the streams: every pass but the last takes one. *)
Definition room (d : Dispatcher) (p : nat) : nat :=
  match objs d !! p with None => 0 | Some st => Z.to_nat (maxInFlight st - inFlight st) end.
Definition rooms (d : Dispatcher) (ptrs : list nat) : nat := sum_list (map (room d) ptrs).

(** The order in which the range over [d.streams] visits them is the
    runtime's; it is fixed for all passes. *)
Definition is_order (order : list nat) (d : Dispatcher) : Prop :=
  order ≡ₚ (map_to_list (streams d)).*2.

Definition dispatch (clock : nat -> nat -> Time) (order : list nat) : dop bool :=
  let* d := gets (fun d => d) in
  if bool_decide (order = []) then ret true
  else dispatch_loop (S (rooms d order)) clock 0 order.

(** ** The rest of [Run] *)

Definition reclaimExpired (now : Time) (rnd : string -> Z -> Z) (d : Dispatcher) : Dispatcher :=
  let '(r, s') := ReclaimExpired now rnd (store d) in
  release_all (match r with inr (ids, _) => ids | inl _ => [] end) (with_store s' d).

(** [time.Until]: the difference, saturated at 64 bits. *)
Definition Until (deadline now : Time) : Duration :=
  Z.max (- 2 ^ 63) (Z.min (2 ^ 63 - 1) (deadline - now)).

Definition sleepFor (now : Time) (d : Dispatcher) : Duration :=
  let wait :=
    match NextDelayedDeadline (store d) with
    | Some deadline =>
        let until := Until deadline now in
        if (0 <? until) && (until <? tick d) then until else tick d
    | None => tick d
    end in
  if wait <? Millisecond then Millisecond else wait.

(** The gauges [refreshQueueDepth] sets: queue, state label and value. *)
Definition refreshQueueDepth (d : Dispatcher) : list (string * string * Z) :=
  flat_map (fun q =>
    [(SQueue q, "pending", SPending q); (SQueue q, "leased", SLeased q);
     (SQueue q, "retry_wait", SRetryWait q); (SQueue q, "done", SDone q);
     (SQueue q, "dead_letter", SDeadLetter q)]%string)
    (StatsQueues (Stats_of "" (store d))).

(** One turn of [Run]: how long it sleeps unless it is woken. *)
Definition run_once (now1 : Time) (rnd : string -> Z -> Z) (clock : nat -> nat -> Time)
    (order : list nat) (now2 : Time) : dop Duration :=
  modify (reclaimExpired now1 rnd) ;;;
  dispatch clock order ;;;
  gets (sleepFor now2).

(** ** The dispatcher among the other goroutines *)

(** Where the goroutine of [Run] is. *)
Inductive loopState :=
  | AtTop
  | Releasing (ids : list string)
  | Passing (all todo : list nat) (placed : bool)
  | Leasing (all todo : list nat) (placed : bool) (ptr : nat)
  | Leased (all todo : list nat) (placed : bool) (ptr : nat) (j : Job)
  | Sending (all todo : list nat) (placed : bool) (ptr : nat) (j : Job).

(** [committing] and [finishing] are the [Ack] and [Nack] calls that wait for
    the flush and that are about to call [release]; [sent] records what was
    handed over, newest first. *)
Record world := mkWorld {
  disp : Dispatcher;
  at_ : loopState;
  committing : list string;
  finishing : list string;
  sent : list (nat * Job)
}.

Definition start (d : Dispatcher) : world := mkWorld d AtTop [] [] [].

(** The store operations that do not end in a [release]: everything but
    [Lease] and [ReclaimExpired], which only this component calls, and but an
    [Ack] or [Nack] that is accepted. *)
Definition no_release (o : operation) (s : Store) : Prop :=
  match o with
  | OpLease _ _ _ _ | OpReclaim _ _ _ => False
  | OpAck id ep => forall q, (Ack_locked id ep s).1 <> inr (Some q)
  | OpNack id ep reason now rnd => forall x, (Nack_locked id ep reason now rnd s).1 <> inr (Some x)
  | _ => True
  end.

Inductive run_step : world -> world -> Prop :=
  | run_reclaim d now rnd r s' c f h :
      ReclaimExpired now rnd (store d) = (r, s') ->
      run_step (mkWorld d AtTop c f h)
        (mkWorld (with_store s' d) (Releasing (match r with inr (ids, _) => ids | inl _ => [] end)) c f h)
  | run_release d id ids c f h :
      run_step (mkWorld d (Releasing (id :: ids)) c f h) (mkWorld (release id d) (Releasing ids) c f h)
  | run_streams d order c f h :
      is_order order d ->
      run_step (mkWorld d (Releasing []) c f h)
        (mkWorld d (if bool_decide (order = []) then AtTop else Passing order order false) c f h)
  | run_skip d all p todo pl c f h :
      hasRoom p d = false ->
      run_step (mkWorld d (Passing all (p :: todo) pl) c f h) (mkWorld d (Passing all todo pl) c f h)
  | run_room d all p todo pl c f h :
      hasRoom p d = true ->
      run_step (mkWorld d (Passing all (p :: todo) pl) c f h) (mkWorld d (Leasing all todo pl p) c f h)
  | run_none d all todo pl p now d' c f h :
      epoch_room (store d) -> lease_for p now d = (None, d') ->
      run_step (mkWorld d (Leasing all todo pl p) c f h) (mkWorld d' (Passing all todo pl) c f h)
  | run_lease d all todo pl p now j d' c f h :
      epoch_room (store d) -> lease_for p now d = (Some j, d') ->
      run_step (mkWorld d (Leasing all todo pl p) c f h) (mkWorld d' (Leased all todo pl p j) c f h)
  | run_account d all todo pl p j c f h :
      run_step (mkWorld d (Leased all todo pl p j) c f h)
        (mkWorld (account p j d) (Sending all todo pl p j) c f h)
  | run_sent d all todo pl p j pick d' c f h :
      send pick p j d = Some (true, d') ->
      run_step (mkWorld d (Sending all todo pl p j) c f h)
        (mkWorld d' (Passing all todo true) c f ((p, j) :: h))
  | run_gone d all todo pl p j pick d' c f h :
      send pick p j d = Some (false, d') ->
      run_step (mkWorld d (Sending all todo pl p j) c f h) (mkWorld d' (Passing all todo pl) c f h)
  | run_again d all c f h :
      run_step (mkWorld d (Passing all [] true) c f h) (mkWorld d (Passing all all false) c f h)
  | run_idle d all c f h :
      run_step (mkWorld d (Passing all [] false) c f h) (mkWorld d AtTop c f h).

Inductive env_step : world -> world -> Prop :=
  | env_register d q wk max dur l c f h :
      1 <= max -> env_step (mkWorld d l c f h) (mkWorld (register q wk max dur d).2 l c f h)
  | env_unregister d p l c f h :
      env_step (mkWorld d l c f h) (mkWorld (unregister p d) l c f h)
  | env_cancel d p l c f h :
      env_step (mkWorld d l c f h) (mkWorld (with_objs (alter set_cancelled p (objs d)) d) l c f h)
  | env_receive d p st j js l c f h :
      objs d !! p = Some st -> ch st = j :: js ->
      env_step (mkWorld d l c f h) (mkWorld (with_objs (<[p := set_ch js st]> (objs d)) d) l c f h)
  | env_ack d id ep q s' l c f h :
      Ack_locked id ep (store d) = (inr (Some q), s') ->
      env_step (mkWorld d l c f h) (mkWorld (with_store s' d) l (id :: c) f h)
  | env_nack d id ep reason now rnd x s' l c f h :
      Nack_locked id ep reason now rnd (store d) = (inr (Some x), s') ->
      env_step (mkWorld d l c f h) (mkWorld (with_store s' d) l (id :: c) f h)
  | env_committed d id r s' l c1 c2 f h :
      commitDurable (store d) = (r, s') ->
      env_step (mkWorld d l (c1 ++ id :: c2) f h)
        (mkWorld (with_store s' d) l (c1 ++ c2) (match r with inr _ => id :: f | inl _ => f end) h)
  | env_release d id l c f1 f2 h :
      env_step (mkWorld d l c (f1 ++ id :: f2) h) (mkWorld (release id d) l c (f1 ++ f2) h)
  | env_store d o l c f h :
      no_release o (store d) ->
      op_valid o (store d) ->
      env_step (mkWorld d l c f h) (mkWorld (with_store (run_op o (store d)) d) l c f h).

Definition step (w w' : world) : Prop := run_step w w' \/ env_step w w'.
Definition reaches : world -> world -> Prop := rtc step.
End Dispatcher.
