(* ===== verification/DispatchSpec.v ===== *)
(** * DispatchSpec: lemmas about the dispatcher

    What a call of [Lease] leaves alone, the accounting of worker slots by
    every section of the dispatcher, and what a pass does when nobody
    interferes. *)
From S2P Require Import Prelude Job Heap Index Framing LogSpec Event Memory MemSpec Store StoreSpec System.
From S2P Require Import Dispatcher.

(** ** What an operation of the store does not touch *)

Section Keeps.
Context {L : Type} {lops : LogOps L} {codec : EventCodec} {B : Type} (f : Store -> B).
Abbreviation op A := (M Store (storeError log_err) A) (only parsing).

Definition keeps {A} (m : op A) : Prop := forall s, f (m s).2 = f s.

Lemma keeps_bind {A C} (m : op A) (k : A -> op C) :
  keeps m -> (forall a, keeps (k a)) -> keeps (bind m k).
Proof.
  intros Hm Hk s. unfold bind. specialize (Hm s). destruct (m s) as [[e|a] s1]; [done|].
  cbn in *. by rewrite Hk.
Qed.

Lemma keeps_catch {A} (m : op A) (h : storeError log_err -> op A) :
  keeps m -> (forall e, keeps (h e)) -> keeps (catch m h).
Proof.
  intros Hm Hk s. unfold catch. specialize (Hm s). destruct (m s) as [[e|a] s1]; [|done].
  cbn in *. by rewrite Hk.
Qed.

Lemma keeps_ret {A} (a : A) : keeps (ret a).
Proof. done. Qed.
Lemma keeps_throw {A} e : keeps (throw e : op A).
Proof. done. Qed.
Lemma keeps_gets {A} (g : Store -> A) : keeps (gets g).
Proof. done. Qed.
Lemma keeps_modify g : (forall s, f (g s) = f s) -> keeps (modify g).
Proof. intros H s. apply H. Qed.
Lemma keeps_on_log {A} w (m : M L log_err A) : (forall l s, f (with_log l s) = f s) -> keeps (on_log w m).
Proof. intros H s. unfold on_log, zoom. destruct (m (log s)) as [[] l]; apply H. Qed.
Lemma keeps_on_mem {A} (m : M Mem applyError A) : (forall l s, f (with_mem l s) = f s) -> keeps (on_mem m).
Proof. intros H s. unfold on_mem, zoom. destruct (m (mem s)) as [[] l]; apply H. Qed.
End Keeps.

Ltac keeps_tac :=
  repeat lazymatch goal with
  | |- keeps _ (bind _ _) => apply keeps_bind; [|intros ?]
  | |- keeps _ (catch _ _) => apply keeps_catch; [|intros ?]
  | |- keeps _ (ret _) => apply keeps_ret
  | |- keeps _ (throw _) => apply keeps_throw
  | |- keeps _ (gets _) => apply keeps_gets
  | |- keeps _ (modify _) => by apply keeps_modify
  | |- keeps _ (on_log _ _) => by apply keeps_on_log
  | |- keeps _ (on_mem _) => by apply keeps_on_mem
  | |- keeps _ (match ?x with _ => _ end) => destruct x
  | |- _ => progress unfold get_job, push_job, inc, on_index, recordLocked, encode,
              nextEpochLocked, reserveEpochsLocked
  end.

Section LeaseKeeps.
Context {L : Type} {lops : LogOps L} {codec : EventCodec}.

Lemma lease_loop_keeps {B} (f : Store -> B) fuel q w dur now :
  (forall i s, f (with_index i s) = f s) ->
  (forall cid j, keeps f (lease_turn q w dur now cid j)) ->
  keeps f (lease_loop fuel q w dur now).
Proof.
  intros Hi Ht. induction fuel as [|fuel IH]; cbn [lease_loop]; keeps_tac; done || by apply IH || by apply Ht.
Qed.

Lemma Lease_block q w dur now (s : Store) :
  epochBlockSize (Lease q w dur now s).2 = epochBlockSize s.
Proof.
  change (epochBlockSize (Lease q w dur now s).2) with (epochBlockSize ((Lease q w dur now) s).2).
  revert s. change (keeps epochBlockSize (Lease q w dur now)). unfold Lease. keeps_tac.
  apply lease_loop_keeps; [done|]. intros cid j. unfold lease_turn. keeps_tac.
Qed.

(** A call takes at most one token. *)
Definition takes {A} (k : N) (m : M Store (storeError log_err) A) : Prop :=
  forall s, (nextEpoch (m s).2 <= nextEpoch s + k)%N.

Lemma takes_keeps {A} (m : M Store (storeError log_err) A) : keeps nextEpoch m -> takes 0 m.
Proof. intros H s. rewrite H. lia. Qed.

Lemma takes_bind {A C} k1 k2 (m : M Store (storeError log_err) A) (k : A -> M Store _ C) :
  takes k1 m -> (forall a, takes k2 (k a)) -> takes (k1 + k2) (bind m k).
Proof.
  intros Hm Hk s. unfold bind. specialize (Hm s). destruct (m s) as [[e|a] s1]; cbn in *; [lia|].
  specialize (Hk a s1). lia.
Qed.

Lemma takes_catch {A} k (m : M Store (storeError log_err) A) h :
  takes k m -> (forall e, takes 0 (h e)) -> takes k (catch m h).
Proof.
  intros Hm Hk s. unfold catch. specialize (Hm s). destruct (m s) as [[e|a] s1]; cbn in *; [|lia].
  specialize (Hk e s1). lia.
Qed.

Lemma nextEpochLocked_takes : takes 1 nextEpochLocked.
Proof.
  assert (Hr : keeps nextEpoch (reserveEpochsLocked (L := L))) by keeps_tac.
  intros s. unfold nextEpochLocked, bind, gets, modify, ret, throw. cbn.
  destruct (epochReservedUpTo (mem s) <? nextEpoch s)%N.
  - specialize (Hr s). destruct (reserveEpochsLocked s) as [[e|a] s1]; cbn in *; [lia|].
    unfold u64. rewrite Hr. pose proof (N.Div0.mod_le (nextEpoch s + 1) (2 ^ 64)). lia.
  - cbn. unfold u64. pose proof (N.Div0.mod_le (nextEpoch s + 1) (2 ^ 64)). lia.
Qed.

Lemma lease_turn_takes q w dur now cid j : takes 1 (lease_turn (L := L) q w dur now cid j).
Proof.
  unfold lease_turn. apply (takes_bind 1 0).
  - apply takes_catch; [apply nextEpochLocked_takes|]. intros e. apply takes_keeps. keeps_tac.
  - intros epoch. apply takes_keeps. keeps_tac.
Qed.

Lemma lease_loop_takes fuel q w dur now : takes 1 (lease_loop (L := L) fuel q w dur now).
Proof.
  assert (H0 : takes 1 (ret (S := Store (L := L)) (E := storeError log_err) (@None Job))) by (intros s; cbn; lia).
  induction fuel as [|fuel IH]; cbn [lease_loop]; [done|].
  apply (takes_bind 0 1); [apply takes_keeps; keeps_tac|]. intros ix.
  destruct (pop q ix) as [[cand ix']|]; [|done].
  apply (takes_bind 0 1); [apply takes_keeps; keeps_tac|]. intros _.
  apply (takes_bind 0 1); [apply takes_keeps; keeps_tac|]. intros [j|]; [|done].
  destruct (negb (Leasable _)); [done|]. destruct (negb (_ =? _)); [done|].
  destruct (now <? _); [|apply lease_turn_takes].
  apply (takes_bind 0 1); [apply takes_keeps; keeps_tac|]. done.
Qed.

Lemma Lease_takes q w dur now (s : Store) :
  (nextEpoch (Lease q w dur now s).2 <= nextEpoch s + 1)%N.
Proof.
  revert s. change (takes 1 (Lease (L := L) q w dur now)). unfold Lease.
  apply (takes_bind 0 1); [apply takes_keeps; keeps_tac|]. intros _.
  apply (takes_bind 0 1); [apply takes_keeps; keeps_tac|]. intros ix. apply lease_loop_takes.
Qed.

(** *** What [Lease] promises the dispatcher *)

(** [k] more calls of [Lease] cannot use the tokens up. *)
Definition tokens_left (k : N) (s : Store) : Prop :=
  (0 < epochBlockSize s)%N /\ (nextEpoch s + epochBlockSize s + k < 2 ^ 64)%N.

Lemma tokens_epoch_room k s : tokens_left k s -> epoch_room s.
Proof. intros [? ?]. split; [done|lia]. Qed.

Lemma tokens_lease k q w dur now (s : Store) :
  tokens_left (k + 1) s -> tokens_left k (Lease q w dur now s).2.
Proof.
  intros [Hb Hn]. unfold tokens_left. rewrite Lease_block.
  pose proof (Lease_takes q w dur now s). split; [done|lia].
Qed.

Definition leased_post (q w : string) (dur : Duration) (now : Time) (s : Store)
    (r : storeError log_err + option Job) (s' : Store) : Prop :=
  store_wf s' /\ (nextEpoch s <= nextEpoch s')%N /\
  match r with
  | inl _ => jobs (mem s') = jobs (mem s)
  | inr None => jobs (mem s') = jobs (mem s) /\ forall j, ~ eligible q now s j
  | inr (Some j') =>
      Queue j' = q /\ LeasedBy j' = w /\ JState j' = StateLeased /\
      LeaseExpiresAt j' = now + dur /\ Epoch j' = nextEpoch s /\
      nextEpoch s' = (nextEpoch s + 1)%N /\ eligible q now s (default j' (jobs (mem s) !! ID j')) /\
      jobs (mem s') = <[ID j' := j']> (jobs (mem s))
  end.

Lemma Lease_post q w dur now s :
  store_wf s -> epoch_room s -> wp (Lease q w dur now) (leased_post q w dur now s) s.
Proof.
  intros Hwf Hroom. apply Lease_rule; [done| |].
  - intros ix Hloop Hr. split; [exact (proj1 Hloop)|]. split; [done|]. split; [done|].
    intros j. by apply (no_eligible q now s ix).
  - intros ix cid j Hinv -> [He _]. pose proof He as (Hj & Hq & Hl & _).
    eapply wp_mono; [by apply lease_turn_spec|]. intros [err|oj] s1 (Hw & Hn & H).
    + by split_and!.
    + destruct H as (-> & Hm & Hne). split; [done|]. split; [done|]. cbn in *.
      rewrite Hj. cbn. by split_and!.
Qed.
End LeaseKeeps.

(** ** Slots *)

Section Slots.
Context {L : Type} {lops : LogOps L} {codec : EventCodec}.
Implicit Types (d : Dispatcher).

(** How many jobs the dispatcher thinks stream [p] holds. *)
Definition owned_in (p : nat) (m : gmap string nat) : nat := size (filter (fun kv => kv.2 = p) m).
Definition owned (p : nat) d : nat := owned_in p (jobOwner d).

Lemma owned_insert p q id m :
  (owned_in p (<[id := q]> m) <= owned_in p m + (if decide (p = q) then 1 else 0))%nat.
Proof.
  unfold owned_in. rewrite map_filter_insert. cbn. case_decide; subst.
  - case_decide; [|done]. rewrite map_size_insert. destruct (_ !! id); cbn; lia.
  - rewrite decide_False by congruence. rewrite Nat.add_0_r. apply map_subseteq_size, map_filter_subseteq_mono, delete_subseteq.
Qed.

Lemma owned_delete p id q m :
  m !! id = Some q -> owned_in p m = (owned_in p (delete id m) + (if decide (p = q) then 1 else 0))%nat.
Proof.
  intros Hm. unfold owned_in. rewrite map_filter_delete.
  destruct (decide (p = q)) as [->|Hne].
  - assert (Hf : filter (fun kv => kv.2 = q) m !! id = Some q) by (by apply map_lookup_filter_Some).
    rewrite map_size_delete_Some by (by eexists).
    assert (size (filter (fun kv : string * nat => kv.2 = q) m) <> 0%nat); [|lia].
    intros E%map_size_empty_iff. by rewrite E, lookup_empty in Hf.
  - rewrite delete_id; [lia|]. apply map_lookup_filter_None. right. cbn. intros x Hx E. congruence.
Qed.

Lemma owned_drop p q m :
  owned_in p (filter (fun kv => kv.2 <> q) m) = if decide (p = q) then 0%nat else owned_in p m.
Proof.
  unfold owned_in. rewrite map_filter_filter. case_decide as E.
  - subst. apply map_size_empty_iff, map_empty. intros i. apply map_lookup_filter_None.
    right. cbn. intros x _ [H1 H2]. done.
  - f_equal. apply map_filter_ext. intros i x _. cbn. split; [tauto|]. intros ->. done.
Qed.

Record slots d : Prop := {
  sl_owner id p : jobOwner d !! id = Some p -> (p < length (objs d))%nat;
  sl_range p st : objs d !! p = Some st ->
    Z.of_nat (owned p d) <= inFlight st <= maxInFlight st;
  sl_max p st : objs d !! p = Some st -> 1 <= maxInFlight st
}.

Lemma owned_fresh d : slots d -> owned (length (objs d)) d = 0%nat.
Proof.
  intros Hs. unfold owned, owned_in. apply map_size_empty_iff, map_empty. intros id.
  apply map_lookup_filter_None. right. cbn. intros p Hp ->.
  pose proof (sl_owner _ Hs _ _ Hp). lia.
Qed.

(** A change of one stream that does not touch its counters. *)
Definition same_slots (f : workerStream -> workerStream) : Prop :=
  forall st, inFlight (f st) = inFlight st /\ maxInFlight (f st) = maxInFlight st.

Lemma alter_Some {A} (f : A -> A) p (l : list A) q y :
  alter f p l !! q = Some y <->
  (q = p /\ exists x, l !! p = Some x /\ y = f x) \/ (q <> p /\ l !! q = Some y).
Proof.
  rewrite list_lookup_alter. case_decide as E.
  - subst. rewrite fmap_Some. split.
    + intros (x & ? & ->). left. eauto.
    + intros [(_ & x & ? & ->)|[? _]]; [eauto|done].
  - split; [intros; right; split; congruence|]. by intros [[-> _]|[_ ?]].
Qed.

Lemma slots_objs os d :
  length os = length (objs d) ->
  (forall p st', os !! p = Some st' -> exists st, objs d !! p = Some st /\
     inFlight st' = inFlight st /\ maxInFlight st' = maxInFlight st) ->
  slots d -> slots (with_objs os d).
Proof.
  intros Hl Hos [H1 H2 H3]. split; cbn.
  - intros id p Hp. rewrite Hl. by eapply H1.
  - intros p st' (st & Hst & -> & ->)%Hos. by apply H2.
  - intros p st' (st & Hst & _ & ->)%Hos. by eapply H3.
Qed.

Lemma slots_alter f p d : same_slots f -> slots d -> slots (with_objs (alter f p (objs d)) d).
Proof.
  intros Hf. apply slots_objs; [apply length_alter|].
  intros q st' [(-> & st & Hst & ->)|[_ Hst]]%alter_Some; [exists st|by exists st'].
  by destruct (Hf st).
Qed.

Lemma slots_insert p st st' d :
  objs d !! p = Some st -> inFlight st' = inFlight st -> maxInFlight st' = maxInFlight st ->
  slots d -> slots (with_objs (<[p := st']> (objs d)) d).
Proof.
  intros Hp E1 E2. apply slots_objs; [apply length_insert|].
  intros q x [(-> & <- & _)|[_ Hx]]%list_lookup_insert_Some; [by exists st|by exists x].
Qed.

Lemma slots_signal d : slots d -> slots (signal d).
Proof. by intros [H1 H2 H3]. Qed.

Lemma slots_store s d : slots d -> slots (with_store s d).
Proof. by intros [H1 H2 H3]. Qed.

Lemma slots_register q w max dur d : 1 <= max -> slots d -> slots (register q w max dur d).2.
Proof.
  intros Hm Hs. pose proof (owned_fresh d Hs) as Hf. destruct Hs as [H1 H2 H3]. split; cbn.
  - intros id p Hp. rewrite length_app. specialize (H1 id p Hp). lia.
  - intros p st Hp. apply lookup_app_Some in Hp as [Hp|[Hle Hp]]; [by apply H2|].
    apply list_lookup_singleton_Some in Hp as [Hp <-]. cbn.
    assert (p = length (objs d)) as -> by lia. unfold owned in *. cbn. rewrite Hf. lia.
  - intros p st Hp. apply lookup_app_Some in Hp as [Hp|[_ Hp]]; [by eapply H3|].
    by apply list_lookup_singleton_Some in Hp as [_ <-].
Qed.

Lemma slots_unregister p d : slots d -> slots (unregister p d).
Proof.
  intros Hs. unfold unregister. destruct (objs d !! p) as [st|] eqn:E; [|done].
  destruct Hs as [H1 H2 H3]. split; cbn.
  - intros id q [Hq _]%map_lookup_filter_Some. by eapply H1.
  - intros q st' Hq. specialize (H2 _ _ Hq). unfold owned in *. cbn. rewrite owned_drop.
    case_decide; lia.
  - done.
Qed.

(** The guard of [release] always holds: a job with an owner is counted. *)
Lemma slots_release id d : slots d -> slots (release id d).
Proof.
  intros Hs. unfold release. apply slots_signal.
  destruct (jobOwner d !! id) as [p|] eqn:E; [|done]. destruct Hs as [H1 H2 H3].
  pose proof (fun q => owned_delete q id p _ E) as Hd. split; cbn.
  - intros id' q Hq. apply lookup_delete_Some in Hq as [_ Hq]. rewrite length_alter. by eapply H1.
  - intros q st Hst. apply alter_Some in Hst as [(-> & st0 & Hq & ->)|[Hne Hq]];
      specialize (H2 _ _ Hq); unfold owned in *; cbn; rewrite Hd in H2.
    + rewrite decide_True in H2 by done. destruct (Z.ltb_spec 0 (inFlight st0)); cbn; lia.
    + rewrite decide_False in H2 by done. lia.
  - intros q st [(-> & st0 & Hq & ->)|[Hne Hq]]%alter_Some; [|by eapply H3].
    specialize (H3 _ _ Hq). by destruct (0 <? inFlight st0).
Qed.

Lemma slots_account p st j d :
  slots d -> objs d !! p = Some st -> inFlight st < maxInFlight st -> slots (account p j d).
Proof.
  intros [H1 H2 H3] Hp Hlt. split; cbn.
  - intros id q Hq. rewrite length_alter. apply lookup_insert_Some in Hq as [[_ <-]|[_ Hq]].
    + by eapply lookup_lt_Some.
    + by eapply H1.
  - intros q st' Hq. pose proof (owned_insert q p (ID j) (jobOwner d)) as Hi.
    apply alter_Some in Hq as [(-> & st0 & Hq & ->)|[Hne Hq]]; specialize (H2 _ _ Hq);
      unfold owned in *; cbn.
    + rewrite decide_True in Hi by done. rewrite Hp in Hq. injection Hq as <-. lia.
    + rewrite decide_False in Hi by done. lia.
  - intros q st' [(-> & st0 & Hq & ->)|[Hne Hq]]%alter_Some; [|by eapply H3]. by apply (H3 p st0).
Qed.

Lemma slots_send pick p j d b d' : slots d -> send pick p j d = Some (b, d') -> slots d'.
Proof.
  unfold send. intros Hs. destruct (objs d !! p) as [st|] eqn:Ep; [|done].
  destruct (chan_has_room st && _).
  - intros [= _ <-]. by apply (slots_insert p st).
  - destruct (cancelled st); [by intros [= _ <-]|done].
Qed.

Lemma slots_lease p now d oj d' : lease_for p now d = (oj, d') -> slots d -> slots d' /\ objs d' = objs d.
Proof.
  unfold lease_for. destruct (objs d !! p) as [st|]; [|by intros [= _ <-]].
  destruct (Lease _ _ _ _ _) as [r s']. intros [= _ <-] Hs. split; [by apply slots_store|done].
Qed.

(** The stream the loop has tested keeps its room until it is used: only this
    goroutine takes slots. *)
Definition chosen (l : loopState) : option nat :=
  match l with Leasing _ _ _ p | Leased _ _ _ p _ => Some p | _ => None end.

Definition roomy (p : nat) d : Prop :=
  exists st, objs d !! p = Some st /\ inFlight st < maxInFlight st.

Definition world_slots (w : world) : Prop :=
  slots (disp w) /\ forall p, chosen (at_ w) = Some p -> roomy p (disp w).

Lemma roomy_alter f q p d :
  (forall st, inFlight (f st) <= inFlight st /\ maxInFlight (f st) = maxInFlight st) ->
  roomy p d -> roomy p (with_objs (alter f q (objs d)) d).
Proof.
  intros Hf (st & Hst & Hlt). destruct (decide (p = q)) as [->|Hne].
  - exists (f st). cbn. rewrite list_lookup_alter_eq, Hst. destruct (Hf st) as [? ->]. split; [done|lia].
  - exists st. cbn. by rewrite list_lookup_alter_ne.
Qed.

Lemma roomy_insert q st' st p d :
  objs d !! q = Some st -> inFlight st' = inFlight st -> maxInFlight st' = maxInFlight st ->
  roomy p d -> roomy p (with_objs (<[q := st']> (objs d)) d).
Proof.
  intros Hq E1 E2 (x & Hx & Hlt). destruct (decide (p = q)) as [->|Hne].
  - exists st'. cbn. rewrite list_lookup_insert_eq by (by eapply lookup_lt_Some).
    split; [done|]. rewrite E1, E2. congruence.
  - exists x. cbn. by rewrite list_lookup_insert_ne.
Qed.

Lemma roomy_release id p d : roomy p d -> roomy p (release id d).
Proof.
  unfold release. intros Hr. destruct (jobOwner d !! id) as [q|]; [|done].
  refine (roomy_alter (fun st => if 0 <? inFlight st then set_inFlight (inFlight st - 1) st else st)
            q p d _ Hr). intros st. destruct (Z.ltb_spec 0 (inFlight st)); cbn; lia.
Qed.

Lemma hasRoom_roomy p d : hasRoom p d = true -> roomy p d.
Proof.
  unfold hasRoom. destruct (objs d !! p) as [st|] eqn:E; [|done].
  intros [_ ?%Z.ltb_lt]%andb_true_iff. by exists st.
Qed.

Lemma world_slots_run w w' : world_slots w -> run_step w w' -> world_slots w'.
Proof.
  intros [Hs Hr] Hst. destruct Hst; cbn in *.
  - split; [by apply slots_store|done].
  - split; [by apply slots_release|done].
  - split; [done|]. by case_bool_decide.
  - done.
  - split; [done|]. intros ? [= <-]. by apply hasRoom_roomy.
  - split; [by eapply slots_lease|done].
  - destruct (slots_lease _ _ _ _ _ H0 Hs) as [? E]. split; [done|]. intros q Hq.
    destruct (Hr q Hq) as (st & ? & ?). exists st. cbn. by rewrite E.
  - split; [|done]. destruct (Hr p eq_refl) as (st & ? & ?). by eapply slots_account.
  - split; [by eapply slots_send|done].
  - split; [by eapply slots_send|done].
  - done.
  - done.
Qed.

Lemma world_slots_env w w' : world_slots w -> env_step w w' -> world_slots w'.
Proof.
  intros [Hs Hr] Hst. destruct Hst; cbn in *.
  - split; [by apply slots_register|]. intros p Hp. destruct (Hr p Hp) as (st & Hst & ?).
    exists st. cbn. rewrite lookup_app_l; [done|]. by eapply lookup_lt_Some.
  - split; [by apply slots_unregister|]. intros q Hq. destruct (Hr q Hq) as (st & Hst & ?).
    exists st. unfold unregister. by destruct (objs d !! p).
  - split; [by apply slots_alter|]. intros q Hq. by apply roomy_alter, Hr.
  - split; [by apply (slots_insert p st)|]. intros q Hq. by eapply roomy_insert, Hr.
  - split; [by apply slots_store|exact Hr].
  - split; [by apply slots_store|exact Hr].
  - split; [by apply slots_store|exact Hr].
  - split; [by apply slots_release|]. intros q Hq. by apply roomy_release, Hr.
  - split; [by apply slots_store|exact Hr].
Qed.

Lemma world_slots_reaches w w' : reaches w w' -> world_slots w -> world_slots w'.
Proof.
  intros Hr Hw. induction Hr as [|w1 w2 w3 [Hs|Hs] _ IH]; [done|..].
  - by apply IH, (world_slots_run w1).
  - by apply IH, (world_slots_env w1).
Qed.

Lemma world_slots_start s : world_slots (start (NewDispatcher s)).
Proof. split; [|done]. split; cbn; [intros ? ? H; by rewrite lookup_empty in H|done..]. Qed.
End Slots.

(** ** Hand-overs *)

Section HandOver.
Context {L : Type} {lops : LogOps L} {codec : EventCodec}.
Implicit Types (d : Dispatcher) (w : world).

(** A later state of a store. *)
Definition store_later (s s' : Store) : Prop := store_wf s' /\ (nextEpoch s <= nextEpoch s')%N.

Lemma run_op_later o s : store_wf s -> op_valid o s -> store_later s (run_op o s).
Proof. intros Hwf Hv. split; [by apply run_op_wf|]. by destruct (run_op_effect o s Hwf Hv). Qed.

Lemma inc_all_later ms s0 s : store_later s0 s -> store_later s0 (inc_all ms s).2.
Proof.
  revert s. induction ms as [|m ms IH]; intros s Hs; cbn [inc_all]; [done|].
  erewrite bind_ok; [|reflexivity]. by apply IH.
Qed.

Lemma ReclaimExpired_later now rnd s : store_wf s -> store_later s (ReclaimExpired now rnd s).2.
Proof.
  intros Hwf. change (wp (ReclaimExpired now rnd) (fun _ s' => store_later s s') s).
  unfold ReclaimExpired. wp_step. wp_step. unfold ReclaimExpired_in. wp_step.
  pose proof (run_op_later (OpReclaim (elements (leased (mem s))) now rnd) s Hwf (Permutation_refl _)) as H1.
  eapply wp_mono with (Q := fun _ s' => store_later s s'); [exact H1|].
  clear H1. intros [e|[acc err]] s1 H1; [done|]. destruct err; [by wp_step|].
  case_bool_decide; [by wp_step|]. wp_step. wp_step.
  pose proof (run_op_later OpCommit s1 (proj1 H1) I) as [H2 H3].
  eapply wp_mono with (Q := fun _ s' => store_later s s').
  { split; [exact H2|]. destruct H1 as [_ H1]. etrans; [exact H1|exact H3]. }
  clear H1 H2 H3. intros [e|[]] s2 H2; [exact H2|].
  wp_step. eapply wp_mono with (Q := fun _ s' => store_later s s'); [by apply inc_all_later|].
  intros [e|[]] s3 H3; [done|]. wp_step.
  eapply wp_mono with (Q := fun _ s' => store_later s s'); [by apply inc_all_later|].
  intros [e|[]] s4 H4; [done|]. wp_step. unfold Store.signal. wp_step. by wp_step.
Qed.

(** The job was leased for this stream. *)
Definition meant_for d (pj : nat * Job) : Prop :=
  exists st, objs d !! pj.1 = Some st /\ Queue pj.2 = wqueue st /\ LeasedBy pj.2 = workerID st /\
    JState pj.2 = StateLeased.

(** The lease the loop is about to pass on, and those it has. *)
Definition leases (w : world) : list (nat * Job) :=
  match at_ w with Leased _ _ _ p j | Sending _ _ _ p j => [(p, j)] | _ => [] end ++ sent w.

Record world_leases w : Prop := {
  wl_store : store_wf (store (disp w));
  wl_meant : Forall (meant_for (disp w)) (leases w);
  wl_below : Forall (fun pj => (Epoch pj.2 < nextEpoch (store (disp w)))%N) (leases w);
  wl_order : StronglySorted (fun x y => (Epoch y.2 < Epoch x.2)%N) (leases w);
  wl_chan p st j : objs (disp w) !! p = Some st -> j ∈ ch st -> (p, j) ∈ sent w
}.

(** The streams keep their identity. *)
Definition same_streams d d' : Prop :=
  forall p st, objs d !! p = Some st ->
    exists st', objs d' !! p = Some st' /\ wqueue st' = wqueue st /\ workerID st' = workerID st.

Lemma meant_same d d' pj : same_streams d d' -> meant_for d pj -> meant_for d' pj.
Proof.
  intros Hs (st & Hst & H1 & H2 & H3). destruct (Hs _ _ Hst) as (st' & ? & E1 & E2).
  exists st'. by rewrite E1, E2.
Qed.

Lemma same_streams_alter f p d d' :
  (forall st, wqueue (f st) = wqueue st /\ workerID (f st) = workerID st) ->
  objs d' = alter f p (objs d) -> same_streams d d'.
Proof.
  intros Hf E q st Hq. rewrite E. destruct (decide (p = q)) as [->|Hne].
  - rewrite list_lookup_alter_eq, Hq. exists (f st). by destruct (Hf st).
  - rewrite list_lookup_alter_ne by done. by exists st.
Qed.

Lemma same_streams_insert p st st' d d' :
  objs d !! p = Some st -> wqueue st' = wqueue st -> workerID st' = workerID st ->
  objs d' = <[p := st']> (objs d) -> same_streams d d'.
Proof.
  intros Hp E1 E2 E q x Hq. rewrite E. destruct (decide (p = q)) as [->|Hne].
  - rewrite list_lookup_insert_eq by (by eapply lookup_lt_Some). exists st'. by simplify_eq.
  - rewrite list_lookup_insert_ne by done. by exists x.
Qed.

Lemma same_streams_refl d d' : objs d' = objs d -> same_streams d d'.
Proof. intros E p st Hp. exists st. by rewrite E. Qed.

(** A step that hands nothing over. *)
Lemma leases_mono w w' :
  world_leases w -> store_later (store (disp w)) (store (disp w')) ->
  same_streams (disp w) (disp w') -> leases w' = leases w -> sent w' = sent w ->
  (forall p st' j, objs (disp w') !! p = Some st' -> j ∈ ch st' ->
     exists st, objs (disp w) !! p = Some st /\ j ∈ ch st) ->
  world_leases w'.
Proof.
  intros [H1 H2 H3 H4 H5] [Hw Hn] Hs El Eh Hc. split; rewrite ?El, ?Eh; try done.
  - eapply Forall_impl; [exact H2|]. intros pj. by apply meant_same.
  - eapply Forall_impl; [exact H3|]. intros pj. cbn. lia.
  - intros p st' j Hp Hj. destruct (Hc _ _ _ Hp Hj) as (st & ? & ?). by eapply H5.
Qed.

Lemma store_later_refl s : store_wf s -> store_later s s.
Proof. by split. Qed.

Lemma release_objs id d :
  store (release id d) = store d /\
  (objs (release id d) = objs d \/
   exists p, objs (release id d) =
     alter (fun st => if 0 <? inFlight st then set_inFlight (inFlight st - 1) st else st) p (objs d)).
Proof.
  unfold release. destruct (jobOwner d !! id) as [p|]; cbn; [|by split; [|left]].
  split; [done|]. right. by exists p.
Qed.

Lemma leases_release id w w' :
  world_leases w -> disp w' = release id (disp w) -> leases w' = leases w -> sent w' = sent w ->
  world_leases w'.
Proof.
  intros Hw Ed El Eh. destruct (release_objs id (disp w)) as [Es Ho].
  apply (leases_mono w); try done; rewrite Ed.
  - rewrite Es. apply store_later_refl, Hw.
  - destruct Ho as [Ho|[p Ho]]; [by apply same_streams_refl|].
    eapply same_streams_alter; [|exact Ho]. intros st. cbn. by destruct (0 <? inFlight st).
  - intros p st' j Hp Hj. destruct Ho as [Ho|[q Ho]]; rewrite Ho in Hp; [by exists st'|].
    apply alter_Some in Hp as [(-> & st & Hst & ->)|[_ Hst]]; [exists st|by exists st'].
    split; [done|]. by destruct (0 <? inFlight st).
Qed.

(** A step of another goroutine or of the store that only changes the store. *)
Lemma leases_store w w' s' :
  world_leases w -> disp w' = with_store s' (disp w) -> store_later (store (disp w)) s' ->
  leases w' = leases w -> sent w' = sent w -> world_leases w'.
Proof.
  intros Hw Ed Hs El Eh. apply (leases_mono w); try done; rewrite Ed; [done| |].
  - by apply same_streams_refl.
  - intros p st j Hp Hj. by exists st.
Qed.

(** A step of the loop that touches nothing. *)
Lemma leases_move w w' :
  world_leases w -> disp w' = disp w -> leases w' = leases w -> sent w' = sent w -> world_leases w'.
Proof.
  intros Hw Ed El Es. eapply leases_store with (s' := store (disp w)); [exact Hw| | |done..].
  - rewrite Ed. by destruct (disp w).
  - apply store_later_refl, Hw.
Qed.

(** [Lease] gave nothing. *)
Lemma leases_none d all todo pl p now d' c f h :
  world_leases (mkWorld d (Leasing all todo pl p) c f h) -> epoch_room (store d) ->
  lease_for p now d = (None, d') -> world_leases (mkWorld d' (Passing all todo pl) c f h).
Proof.
  intros Hw Hroom Hl. pose proof (wl_store _ Hw) as Hwf.
  unfold lease_for in Hl. cbn in Hwf. destruct (objs d !! p) as [st|] eqn:Ep.
  2:{ injection Hl as <-. by eapply leases_move. }
  pose proof (Lease_post (wqueue st) (workerID st) (leaseDur st) now _ Hwf Hroom) as [H1 [H2 _]].
  destruct (Lease _ _ _ _ _) as [r s'] eqn:El. injection Hl as _ <-. cbn in H1, H2.
  by eapply leases_store.
Qed.

(** [Lease] gave [j]: its token is above all before it. *)
Lemma leases_granted d all todo pl p now j d' c f h :
  world_leases (mkWorld d (Leasing all todo pl p) c f h) -> epoch_room (store d) ->
  lease_for p now d = (Some j, d') -> world_leases (mkWorld d' (Leased all todo pl p j) c f h).
Proof.
  intros Hw Hroom Hl. pose proof (wl_store _ Hw) as Hwf.
  unfold lease_for in Hl. cbn in Hwf. destruct (objs d !! p) as [st|] eqn:Ep; [|done].
  pose proof (Lease_post (wqueue st) (workerID st) (leaseDur st) now _ Hwf Hroom) as (H1 & H2 & H3).
  destruct (Lease _ _ _ _ _) as [[e|oj] s'] eqn:El; [done|]. injection Hl as -> <-. cbn in *.
  destruct H3 as (Hq & Hb & Hs & _ & He & Hn & _).
  destruct Hw as [G1 G2 G3 G4 G5]. unfold leases in *. cbn in *. split; unfold leases; cbn; try done.
  - constructor; [by exists st|]. done.
  - constructor; [cbn; lia|]. eapply Forall_impl; [exact G3|]. cbn. lia.
  - constructor; [done|]. eapply Forall_impl; [exact G3|]. cbn. rewrite He. lia.
Qed.

(** The job is handed over. *)
Lemma leases_sent d all todo pl p j pick d' c f h :
  world_leases (mkWorld d (Sending all todo pl p j) c f h) -> send pick p j d = Some (true, d') ->
  world_leases (mkWorld d' (Passing all todo true) c f ((p, j) :: h)).
Proof.
  intros Hw Hse.
  unfold send in Hse. destruct (objs d !! p) as [st|] eqn:Ep; [|done].
  destruct (chan_has_room st && _); [|by destruct (cancelled st)]. injection Hse as <-.
  destruct Hw as [G1 G2 G3 G4 G5]. unfold leases in *. cbn in *. split; unfold leases; cbn; try done.
  - eapply Forall_impl; [exact G2|]. intros pj. apply meant_same.
    by eapply same_streams_insert with (st' := set_ch (ch st ++ [j]) st).
  - intros q x i [(-> & <- & _)|[_ Hx]]%list_lookup_insert_Some Hi; cbn in *.
    + apply elem_of_app in Hi as [Hi| ->%list_elem_of_singleton]; [right; by eapply G5|left].
    + right. by eapply G5.
Qed.

(** The worker is gone. *)
Lemma leases_gone d all todo pl p j pick d' c f h :
  world_leases (mkWorld d (Sending all todo pl p j) c f h) -> send pick p j d = Some (false, d') ->
  world_leases (mkWorld d' (Passing all todo pl) c f h).
Proof.
  intros Hw Hse.
  unfold send in Hse. destruct (objs d !! p) as [st|] eqn:Ep; [|done].
  destruct (chan_has_room st && _); [done|]. destruct (cancelled st); [|done]. injection Hse as <-.
  destruct Hw as [G1 G2 G3 G4 G5]. unfold leases in *. cbn in *. split; unfold leases; cbn; try done.
  - by inversion G2.
  - by inversion G3.
  - by inversion G4.
Qed.

Lemma leases_run w w' : world_leases w -> run_step w w' -> world_leases w'.
Proof.
  intros Hw Hst. pose proof (wl_store _ Hw) as Hwf.
  destruct Hst as [d now rnd r s' c f h Hr|d id ids c f h|d order c f h _|d all p todo pl c f h _
    |d all p todo pl c f h _|d all todo pl p now d' c f h Hroom Hl|d all todo pl p now j d' c f h Hroom Hl
    |d all todo pl p j c f h|d all todo pl p j pick d' c f h Hse|d all todo pl p j pick d' c f h Hse
    |d all c f h|d all c f h].
  - eapply leases_store; try done. pose proof (ReclaimExpired_later now rnd _ Hwf) as H.
    cbn [disp] in H. by rewrite Hr in H.
  - by eapply leases_release.
  - eapply leases_move; [exact Hw|done| |done]. unfold leases. cbn. by case_bool_decide.
  - by eapply leases_move.
  - by eapply leases_move.
  - by eapply leases_none.
  - by eapply leases_granted.
  - apply (leases_mono (mkWorld d (Leased all todo pl p j) c f h)); try done.
    + by eapply same_streams_alter with (f := fun st => set_inFlight (inFlight st + 1) st).
    + cbn. intros q st' i [(-> & st & Hst & ->)|[_ Hst]]%alter_Some Hi; [exists st|by exists st'].
      by split.
  - by eapply leases_sent.
  - by eapply leases_gone.
  - by eapply leases_move.
  - by eapply leases_move.
Qed.

(** What an accepted [Ack] or [Nack], or a flush, leaves is a later store. *)
Lemma op_later o s s' : store_wf s -> op_valid o s -> run_op o s = s' -> store_later s s'.
Proof. intros Hwf Hv <-. by apply run_op_later. Qed.

Lemma leases_env w w' : world_leases w -> env_step w w' -> world_leases w'.
Proof.
  intros Hw Hst. pose proof (wl_store _ Hw) as Hwf.
  destruct Hst as [d q wk max dur l c f h _|d p l c f h|d p l c f h|d p st j js l c f h Hp Hch
    |d id ep q s' l c f h E|d id ep reason now rnd x s' l c f h E|d id r s' l c1 c2 f h E
    |d id l c f1 f2 h|d o l c f h _ Hv].
  - apply (leases_mono (mkWorld d l c f h)); try done.
    + intros p st Hst. exists st. cbn. rewrite lookup_app_l; [done|]. by eapply lookup_lt_Some.
    + cbn. intros p st j [Hp|[_ Hp]]%lookup_app_Some Hj; [by exists st|].
      apply list_lookup_singleton_Some in Hp as [_ <-]. by apply elem_of_nil in Hj.
  - apply (leases_mono (mkWorld d l c f h)); try done; cbn; unfold unregister;
      destruct (objs d !! p) as [st0|] eqn:Ep; try done; try by (intros q st j Hq Hj; exists st).
    + by apply same_streams_refl.
    + by apply same_streams_refl.
  - apply (leases_mono (mkWorld d l c f h)); try done.
    + by eapply same_streams_alter with (f := set_cancelled).
    + cbn. intros q st' i [(-> & st & Hst & ->)|[_ Hst]]%alter_Some Hi; [by exists st|by exists st'].
  - apply (leases_mono (mkWorld d l c f h)); try done.
    + by eapply same_streams_insert with (st' := set_ch js st).
    + cbn. intros q x i [(-> & <- & _)|[_ Hx]]%list_lookup_insert_Some Hi; [|by exists x].
      exists st. split; [done|]. rewrite Hch. cbn in Hi. by right.
  - eapply leases_store; try done. apply (op_later (OpAck id ep)); [done..|]. cbn in *. by rewrite E.
  - eapply leases_store; try done. apply (op_later (OpNack id ep reason now rnd)); [done..|].
    cbn in *. by rewrite E.
  - eapply leases_store; try done. apply (op_later OpCommit); [done..|]. cbn in *. by rewrite E.
  - by eapply leases_release.
  - eapply leases_store; try done. by apply (op_later o).
Qed.

Lemma leases_reaches w w' : reaches w w' -> world_leases w -> world_leases w'.
Proof.
  intros Hr Hw. induction Hr as [|w1 w2 w3 [Hs|Hs] _ IH]; [done|..].
  - by apply IH, (leases_run w1).
  - by apply IH, (leases_env w1).
Qed.

Lemma leases_start s : store_wf s -> world_leases (start (NewDispatcher s)).
Proof. intros Hwf. split; try done; constructor. Qed.
End HandOver.

(** ** A round of [dispatch] that nobody interferes with *)

Section Alone.
Context {L : Type} {lops : LogOps L} {codec : EventCodec}.
Implicit Types (d : Dispatcher).

(** Nothing waits in a channel that is not counted as in flight. *)
Definition fits d : Prop :=
  forall p st, objs d !! p = Some st -> Z.of_nat (length (ch st)) <= inFlight st.

Record ready_for (k : N) d : Prop := {
  rf_slots : slots d;
  rf_fits : fits d;
  rf_store : store_wf (store d);
  rf_tokens : tokens_left k (store d)
}.

(** The stream has all it can have: its slots are full, or its queue has
    nothing to give at that time, or the store, as it was when the stream had
    its turn ([dt]), refused the call made for it. *)
Definition content (now : Time) (p : nat) (dt d : Dispatcher) : Prop :=
  forall st, objs d !! p = Some st -> cancelled st = false ->
    inFlight st = maxInFlight st \/
    (forall j, ~ eligible (wqueue st) now (store d) j) \/
    (exists err, (Lease (wqueue st) (workerID st) (leaseDur st) now (store dt)).1 = inl err).

(** The dispatcher when the stream at position [i] has its turn in a pass that
    began in [d], and after [n] passes from the [round]th on. *)
Definition at_turn (now : nat -> Time) (ptrs : list nat) (i : nat) d : Dispatcher :=
  (pass now (take i ptrs) d).2.

Fixpoint after_passes (n : nat) (clock : nat -> nat -> Time) (round : nat) (ptrs : list nat) d :
    Dispatcher :=
  match n with
  | O => d
  | S n => after_passes n clock (S round) ptrs (pass (clock round) ptrs d).2
  end.

Lemma at_turn_next now p ps i d a d1 :
  offer (now p) p d = (inr a, d1) -> at_turn now (p :: ps) (S i) d = at_turn now ps i d1.
Proof.
  intros H. unfold at_turn. cbn [take pass]. erewrite bind_ok by exact H.
  unfold bind, ret. by destruct (pass now (take i ps) d1) as [[] ?].
Qed.

(** A specification together with the run it is of. *)
Lemma wp_run_eq {S E A} (m : M S E A) (Q : E + A -> S -> Prop) (s : S) :
  wp m Q s -> wp m (fun r s' => Q r s' /\ m s = (r, s')) s.
Proof. unfold wp. intros H. by split; [|destruct (m s)]. Qed.

Definition one_more (p : nat) d d' : Prop :=
  exists st j, objs d !! p = Some st /\ cancelled st = false /\ inFlight st < maxInFlight st /\
    objs d' = <[p := set_ch (ch st ++ [j]) (set_inFlight (inFlight st + 1) st)]> (objs d).

Lemma eligible_jobs q now (s s' : Store) j :
  jobs (mem s') = jobs (mem s) -> eligible q now s' j -> eligible q now s j.
Proof. unfold eligible. by intros ->. Qed.

Lemma content_same now p dt d d' :
  objs d' = objs d -> jobs (mem (store d')) = jobs (mem (store d)) -> content now p dt d -> content now p dt d'.
Proof.
  intros E1 E2 Hc st Hp Hl. rewrite E1 in Hp. destruct (Hc st Hp Hl) as [?|[H|H]].
  - by left.
  - right. left. intros j Hj. apply (H j). by eapply eligible_jobs.
  - by right; right.
Qed.

Definition offer_post (now : Time) (p : nat) (k : N) d (r : stuck + bool) d' : Prop :=
  exists placed, r = inr placed /\ ready_for k d' /\
    (if placed then one_more p d d'
     else objs d' = objs d /\ jobs (mem (store d')) = jobs (mem (store d)) /\ content now p d d').

Lemma ready_weaken k d : ready_for (k + 1) d -> ready_for k d.
Proof. intros [H1 H2 H3 [H4 H5]]. split; [done..|]. split; [done|lia]. Qed.

Lemma offer_spec now p k d :
  ready_for (k + 1) d -> wp (offer now p) (offer_post now p k d) d.
Proof.
  intros Hrf. pose proof Hrf as [Hs Hf Hwf Ht]. unfold offer. wp_step. wp_step.
  destruct (hasRoom p d) eqn:Eh; cbn [negb].
  2:{ wp_step. exists false. split; [done|]. split; [by apply ready_weaken|]. split; [done|].
      split; [done|]. intros st Hp Hl. left. unfold hasRoom in Eh. rewrite Hp, Hl in Eh. cbn in Eh.
      apply Z.ltb_ge in Eh. pose proof (sl_range _ Hs _ _ Hp). lia. }
  unfold hasRoom in Eh. destruct (objs d !! p) as [st|] eqn:Ep; [|done].
  apply andb_true_iff in Eh as [El%negb_true_iff Eh%Z.ltb_lt].
  unfold lease_for. rewrite Ep.
  pose proof (Lease_post (wqueue st) (workerID st) (leaseDur st) now _ Hwf (tokens_epoch_room _ _ Ht))
    as (H1 & _ & H3).
  pose proof (tokens_lease k (wqueue st) (workerID st) (leaseDur st) now _ Ht) as H4.
  destruct (Lease _ _ _ _ _) as [r s'] eqn:ELe. cbn [fst snd] in *.
  destruct r as [err|[j|]].
  - do 3 wp_step. exists false. split; [done|]. split; [by split; [by apply slots_store|..]|].
    split; [done|]. split; [done|]. intros st' Hp' _. right. right. cbn in Hp'.
    exists err. assert (st' = st) as -> by congruence. by rewrite ELe.
  - do 6 wp_step. unfold send. cbn [account with_objs objs with_owner with_store].
    rewrite list_lookup_alter_eq, Ep. cbn [fmap option_fmap option_map].
    assert (Hch : chan_has_room (set_inFlight (inFlight st + 1) st) = true).
    { apply Z.ltb_lt. cbn. pose proof (Hf _ _ Ep). lia. }
    rewrite Hch. cbn. rewrite El. cbn. do 2 wp_step. wp_step.
    exists true. split; [done|].
    set (st1 := set_inFlight (inFlight st + 1) st) in *.
    assert (Hs1 : slots (account p j (with_store s' d))) by (eapply slots_account; [by apply slots_store|done..]).
    assert (Hp1 : objs (account p j (with_store s' d)) !! p = Some st1) by (cbn; by rewrite list_lookup_alter_eq, Ep).
    split; [split|].
    + apply (slots_insert p st1 (set_ch (ch st ++ [j]) st1) (account p j (with_store s' d))); done.
    + cbn. intros q x [(-> & <- & _)|[Hne Hx]]%list_lookup_insert_Some.
      * cbn. rewrite length_app. cbn. pose proof (Hf _ _ Ep). lia.
      * rewrite list_lookup_alter_ne in Hx by done. by apply (Hf q).
    + done.
    + done.
    + exists st, j. split_and!; [done..|]. cbn. apply list_eq. intros q.
      destruct (decide (p = q)) as [->|Hne].
      * rewrite !list_lookup_insert_eq; [done|by eapply lookup_lt_Some|].
        rewrite length_alter. by eapply lookup_lt_Some.
      * by rewrite !list_lookup_insert_ne, list_lookup_alter_ne.
  - do 3 wp_step. destruct H3 as [Hj Hno]. exists false. split; [done|].
    split; [by split; [by apply slots_store|..]|]. split; [done|]. split; [done|].
    intros st' Hp' _. right. left. cbn in *. assert (st' = st) as -> by congruence.
    intros j Hj'. apply (Hno j). by eapply eligible_jobs.
Qed.

Lemma one_more_room p d d' : one_more p d d' -> slots d' ->
  (room d' p < room d p)%nat /\ forall q, (room d' q <= room d q)%nat.
Proof.
  intros (st & j & Hp & _ & Hlt & E) _. unfold room. rewrite E.
  assert (H : (match <[p := set_ch (ch st ++ [j]) (set_inFlight (inFlight st + 1) st)]> (objs d) !! p with
     | Some st0 => Z.to_nat (maxInFlight st0 - inFlight st0) | None => 0 end <
     Z.to_nat (maxInFlight st - inFlight st))%nat).
  { rewrite list_lookup_insert_eq by (by eapply lookup_lt_Some). cbn. lia. }
  rewrite Hp. split; [done|]. intros q. destruct (decide (p = q)) as [->|Hne].
  - rewrite Hp. lia.
  - by rewrite list_lookup_insert_ne.
Qed.

Lemma rooms_le d d' ptrs : (forall q, (room d' q <= room d q)%nat) -> (rooms d' ptrs <= rooms d ptrs)%nat.
Proof.
  intros H. unfold rooms. induction ptrs as [|p ps IH]; cbn; [done|]. specialize (H p).
  unfold rooms in IH. lia.
Qed.

Lemma rooms_lt d d' p ptrs :
  (forall q, (room d' q <= room d q)%nat) -> (room d' p < room d p)%nat -> p ∈ ptrs ->
  (rooms d' ptrs < rooms d ptrs)%nat.
Proof.
  intros H Hp. induction ptrs as [|q ps IH]; [by intros ?%elem_of_nil|].
  pose proof (rooms_le d d' ps H). pose proof (H q). unfold rooms in *. cbn.
  intros [->|Hin]%elem_of_cons; [lia|]. specialize (IH Hin). lia.
Qed.

(** What a pass leaves of a stream: at most one more job, the rest untouched. *)
Definition at_most_one_more d d' : Prop :=
  forall q st, objs d !! q = Some st -> exists st', objs d' !! q = Some st' /\
    inFlight st <= inFlight st' <= inFlight st + 1.

Record pass_post (now : nat -> Time) (ptrs : list nat) (k : N) d (placed : bool) d' : Prop := {
  pp_ready : ready_for k d';
  pp_room q : (room d' q <= room d q)%nat;
  pp_placed : placed = true -> exists p, p ∈ ptrs /\ (room d' p < room d p)%nat;
  pp_quiet : placed = false -> objs d' = objs d /\ jobs (mem (store d')) = jobs (mem (store d)) /\
    forall i p, ptrs !! i = Some p -> content (now p) p (at_turn now ptrs i d) d';
  pp_fair q st : objs d !! q = Some st -> exists st', objs d' !! q = Some st' /\
    inFlight st <= inFlight st' <= inFlight st + (if decide (q ∈ ptrs) then 1 else 0)
}.

Lemma pass_spec now ptrs k d :
  NoDup ptrs -> ready_for (k + N.of_nat (length ptrs)) d ->
  wp (pass now ptrs) (fun r d' => exists placed, r = inr placed /\ pass_post now ptrs k d placed d') d.
Proof.
  revert d. induction ptrs as [|p ps IH]; intros d Hnd Hrf; cbn [pass].
  { wp_step. exists false. split; [done|]. cbn in Hrf. rewrite N.add_0_r in Hrf. split; try done.
    intros q st Hq. exists st. split; [done|]. case_decide; lia. }
  apply NoDup_cons in Hnd as [Hnin Hnd]. wp_step. eapply wp_mono.
  { apply wp_run_eq, (offer_spec (now p) p (k + N.of_nat (length ps))).
    replace (k + N.of_nat (length ps) + 1)%N with (k + N.of_nat (length (p :: ps)))%N by (cbn; lia). done. }
  intros r d1 [(a & -> & Hrf1 & Ha) Eo]. wp_step. eapply wp_mono; [by apply IH|].
  intros r d2 (b & -> & [P1 P2 P3 P4 P5]). wp_step. exists (a || b). split; [done|].
  assert (Hroom : forall q, (room d1 q <= room d q)%nat).
  { destruct a; [by apply (one_more_room p d d1); [|apply Hrf1]|]. destruct Ha as [E _].
    intros q. unfold room. by rewrite E. }
  split; [done| | | |].
  - intros q. etrans; [apply P2|apply Hroom].
  - intros Hab. destruct a; cbn in Hab.
    + exists p. split; [by left|]. destruct (one_more_room p d d1 Ha (rf_slots _ _ Hrf1)) as [H _].
      specialize (P2 p). lia.
    + destruct (P3 Hab) as (q & Hq & Hlt). exists q. split; [by right|]. specialize (Hroom q). lia.
  - intros [-> ->]%orb_false_iff. destruct Ha as (E1 & E2 & Hc). destruct (P4 eq_refl) as (F1 & F2 & Hcs).
    split_and!; [congruence..|]. intros [|i] q Hq; cbn in Hq.
    + injection Hq as <-. by eapply content_same.
    + rewrite (at_turn_next now p ps i d false d1 Eo). by apply Hcs.
  - intros q st Hq. destruct a.
    + destruct Ha as (st0 & j & Hp & _ & _ & E). destruct (decide (p = q)) as [->|Hne].
      * destruct (P5 q (set_ch (ch st0 ++ [j]) (set_inFlight (inFlight st0 + 1) st0))) as (st' & Hst' & Hle).
        { rewrite E, list_lookup_insert_eq; [done|by eapply lookup_lt_Some]. }
        exists st'. split; [done|]. rewrite decide_False in Hle by done.
        rewrite decide_True by (by left). cbn in Hle. simplify_eq. lia.
      * destruct (P5 q st) as (st' & Hst' & Hle); [by rewrite E, list_lookup_insert_ne|].
        exists st'. split; [done|]. case_decide as E1; case_decide as E2; try lia.
        destruct E2. by right.
    + destruct Ha as [E _]. destruct (P5 q st) as (st' & Hst' & Hle); [by rewrite E|].
      exists st'. split; [done|]. case_decide as E1; case_decide as E2; try lia. destruct E2. by right.
Qed.

(** Enough fuel: the passes end, and where they end nobody can be given more. *)
Lemma dispatch_loop_spec fuel clock round order d :
  NoDup order -> (rooms d order < fuel)%nat ->
  ready_for (N.of_nat (fuel * length order)) d ->
  wp (dispatch_loop fuel clock round order) (fun r d' => r = inr true /\ slots d' /\ fits d' /\
    exists last, let now := clock (round + last)%nat in
      let dl := after_passes last clock round order d in
      d' = (pass now order dl).2 /\
      forall i p, order !! i = Some p -> content (now p) p (at_turn now order i dl) d') d.
Proof.
  revert round d. induction fuel as [|fuel IH]; intros round d Hnd Hf Hrf; [lia|]. cbn [dispatch_loop].
  wp_step. eapply wp_mono.
  { apply wp_run_eq, (pass_spec (clock round) order (N.of_nat (fuel * length order))); [done|].
    replace (N.of_nat (fuel * length order) + N.of_nat (length order))%N
      with (N.of_nat (S fuel * length order)) by lia. done. }
  intros r d1 [(placed & -> & [P1 P2 P3 P4 _]) Ep]. destruct placed.
  - destruct (P3 eq_refl) as (p & Hp & Hlt). pose proof (rooms_lt d d1 p order P2 Hlt Hp).
    eapply wp_mono; [apply (IH (S round)); [done|lia|done]|].
    intros r d' (-> & H1 & H2 & last & H3). do 3 (split; [done|]). exists (S last).
    cbn [after_passes]. rewrite Ep, Nat.add_succ_r. exact H3.
  - wp_step. split; [done|]. split; [apply P1|]. split; [apply P1|]. exists 0%nat.
    cbn [after_passes]. rewrite Nat.add_0_r, Ep. split; [done|]. by apply (P4 eq_refl).
Qed.
End Alone.
