(* ===== verification/DispatchProps.v ===== *)
(** * DispatchProps: what the dispatcher guarantees, and where it slips

    Slots and hand-overs in every interleaving with RPC handlers and workers;
    the outcome of [dispatch] when it runs undisturbed; the sleep of [Run]; and
    two runs, checked step by step, in which the accounting goes wrong. *)
From S2P Require Import Prelude Job Heap Index Framing LogSpec Wal WalSpec Event Memory MemSpec Store Snapshot StoreSpec System.
From S2P Require Import SnapshotSpec Life Demo Dispatcher DispatchSpec.

Section Props.
Context {L : Type} {lops : LogOps L} {codec : EventCodec}.
Implicit Types (d : Dispatcher) (w : world).

(** C18: a worker never has more jobs in flight than it asked for, as the
    dispatcher counts: in every state that registrations, disconnections,
    deliveries, acknowledgements, failures and expiries can reach, the counter
    of a stream is between the number of jobs it owns and its maximum, so a
    release never underflows it. *)
Theorem slots_accounted (s : Store) w p st :
  reaches (start (NewDispatcher s)) w -> objs (disp w) !! p = Some st ->
  0 <= Z.of_nat (owned p (disp w)) <= inFlight st /\ inFlight st <= maxInFlight st.
Proof.
  intros Hr Hp. destruct (world_slots_reaches _ _ Hr (world_slots_start s)) as [Hs _].
  pose proof (sl_range _ Hs _ _ Hp). lia.
Qed.

(** C9: hand-overs are exclusive: whatever else happens, every job handed over
    was leased for the queue and worker of the very stream it went to, under a
    token greater than that of every hand-over before it, and a channel holds
    nothing else. *)
Theorem handover_exclusive (s : Store) w :
  store_wf s -> reaches (start (NewDispatcher s)) w ->
  (forall p j, (p, j) ∈ sent w -> meant_for (disp w) (p, j)) /\
  StronglySorted (fun x y => (Epoch y.2 < Epoch x.2)%N) (sent w) /\
  (forall p st j, objs (disp w) !! p = Some st -> j ∈ ch st -> (p, j) ∈ sent w).
Proof.
  intros Hwf Hr. destruct (leases_reaches _ _ Hr (leases_start s Hwf)) as [_ Hm _ Ho Hc].
  unfold leases in *. split; [|split; [|exact Hc]].
  - intros p j Hin. eapply (proj1 (Forall_forall _ _)) in Hm; [exact Hm|]. apply elem_of_app. by right.
  - destruct (at_ w); cbn in Ho; try done; by apply StronglySorted_inv in Ho as [Ho _].
Qed.

(** C17: undisturbed, [dispatch] is work-conserving. Where no channel holds
    more jobs than are counted for its stream ([fits]; a lease that expires
    unread breaks that, see [slow_worker_blocks_dispatch]), [dispatch] ends,
    blocks on no channel, and stops after a pass that places nothing and leaves
    no worker idle that could work: every connected stream either has all its
    slots full, or its queue has no eligible job left at its turn in that pass,
    or the store, in the very state it was in at that turn, refused the lease. *)
Theorem dispatch_work_conserving clock order d :
  is_order order d -> NoDup order ->
  ready_for (N.of_nat (S (rooms d order) * length order)) d ->
  exists d', dispatch clock order d = (inr true, d') /\ slots d' /\ fits d' /\
    exists last, let now := clock last in
      let dl := after_passes last clock 0 order d in
      d' = (pass now order dl).2 /\
      forall id p, streams d !! id = Some p ->
        exists i, order !! i = Some p /\ content (now p) p (at_turn now order i dl) d'.
Proof.
  intros Hord Hnd Hrf.
  assert (H : wp (dispatch clock order) (fun r d' => r = inr true /\ slots d' /\ fits d' /\
    exists last, let now := clock last in
      let dl := after_passes last clock 0 order d in
      d' = (pass now order dl).2 /\
      forall i p, order !! i = Some p -> content (now p) p (at_turn now order i dl) d') d).
  { unfold dispatch. do 2 wp_step. case_bool_decide as E.
    - wp_step. split; [done|]. split; [apply Hrf|]. split; [apply Hrf|]. exists 0%nat. by subst.
    - by apply (dispatch_loop_spec _ clock 0); [|lia|]. }
  unfold wp in H. destruct (dispatch clock order d) as [r d']. cbn [fst snd] in H.
  destruct H as (-> & Hs & Hf & last & E & Hc). exists d'. do 3 (split; [done|]). exists last.
  split; [exact E|]. intros id p Hp.
  assert (Hin : p ∈ order).
  { unfold is_order in Hord. rewrite Hord. apply list_elem_of_fmap. exists (id, p).
    split; [done|]. by apply elem_of_map_to_list. }
  apply list_elem_of_lookup in Hin as [i Hi]. exists i. split; [done|]. by apply Hc.
Qed.

(** A pass is fair: each stream gets at most one job before every other
    stream has had its turn, no stream loses one, and a pass that places
    nothing leaves every stream content. *)
Theorem pass_one_job_each now order k d :
  NoDup order -> ready_for (k + N.of_nat (length order)) d ->
  exists placed d', pass now order d = (inr placed, d') /\
    (forall q st, objs d !! q = Some st -> exists st', objs d' !! q = Some st' /\
       inFlight st <= inFlight st' <= inFlight st + (if decide (q ∈ order) then 1 else 0)) /\
    (placed = false -> forall i p, order !! i = Some p -> content (now p) p (at_turn now order i d) d').
Proof.
  intros Hnd Hrf. pose proof (pass_spec now order k d Hnd Hrf) as H. unfold wp in H.
  destruct (pass now order d) as [r d']. cbn in H. destruct H as (placed & -> & [_ _ _ H4 H5]).
  exists placed, d'. split; [done|]. split; [done|]. intros E. by destruct (H4 E) as (_ & _ & H).
Qed.

(** The loop sleeps at least a millisecond and at most its tick, and never
    past the moment a delayed job falls due (give or take that millisecond). *)
Theorem sleepFor_bounds now d :
  Millisecond <= tick d < 2 ^ 63 ->
  Millisecond <= sleepFor now d <= tick d /\
  (forall due, NextDelayedDeadline (store d) = Some due -> now < due ->
     now + sleepFor now d <= Z.max due (now + Millisecond)).
Proof.
  intros Ht. unfold sleepFor, Until, Millisecond, Microsecond in *.
  destruct (NextDelayedDeadline (store d)) as [deadline|].
  - set (u := Z.max _ _). assert (Hu : u = Z.max (- 2 ^ 63) (Z.min (2 ^ 63 - 1) (deadline - now))) by done.
    clearbody u. destruct (Z.ltb_spec 0 u), (Z.ltb_spec u (tick d)); cbn [andb];
      case_match eqn:E; rewrite ?Z.ltb_lt, ?Z.ltb_ge in E; (split; [lia|]); intros due [= <-] Hdue; lia.
  - case_match eqn:E; rewrite ?Z.ltb_lt, ?Z.ltb_ge in E; (split; [lia|done]).
Qed.
End Props.

(** ** Scripted runs *)

Section Script.
Context {L : Type} {lops : LogOps L} {codec : EventCodec}.

Inductive action :=
  | DoRegister (queue wk : string) (max : Z) (dur : Duration)
  | DoReceive (p : nat)
  | DoAck (id : string) (epoch : N)
  | DoNack (id : string) (epoch : N) (now : Time)
  | DoCommitted                 (** the flush the newest call waits for *)
  | DoRelease                   (** of the newest call that is through *)
  | DoReclaim (now : Time)
  | DoStreams (order : list nat)
  | DoLoop (now : Time).        (** the next step of the loop, at that time *)

Definition is_orderb (order : list nat) (d : Dispatcher) : bool :=
  bool_decide (merge_sort le order = merge_sort le (map_to_list (streams d)).*2).

Definition epoch_roomb (s : Store) : bool :=
  (0 <? epochBlockSize s)%N && (nextEpoch s + epochBlockSize s <? 2 ^ 64)%N.

Definition do_loop (now : Time) (w : world) : option world :=
  let '(mkWorld d l c f h) := w in
  match l with
  | Releasing (id :: ids) => Some (mkWorld (release id d) (Releasing ids) c f h)
  | Passing all (p :: todo) pl =>
      Some (mkWorld d (if hasRoom p d then Leasing all todo pl p else Passing all todo pl) c f h)
  | Passing all [] true => Some (mkWorld d (Passing all all false) c f h)
  | Passing all [] false => Some (mkWorld d AtTop c f h)
  | Leasing all todo pl p =>
      if epoch_roomb (store d) then
        let '(oj, d') := lease_for p now d in
        Some (mkWorld d' (match oj with None => Passing all todo pl | Some j => Leased all todo pl p j end)
                c f h)
      else None
  | Leased all todo pl p j => Some (mkWorld (account p j d) (Sending all todo pl p j) c f h)
  | Sending all todo pl p j =>
      match send true p j d with
      | Some (true, d') => Some (mkWorld d' (Passing all todo true) c f ((p, j) :: h))
      | Some (false, d') => Some (mkWorld d' (Passing all todo pl) c f h)
      | None => None
      end
  | _ => None
  end.

Definition perform (a : action) (w : world) : option world :=
  let '(mkWorld d l c f h) := w in
  match a with
  | DoRegister q wk max dur =>
      if 1 <=? max then Some (mkWorld (register q wk max dur d).2 l c f h) else None
  | DoReceive p =>
      match objs d !! p with
      | Some st =>
          match ch st with
          | j :: js => Some (mkWorld (with_objs (<[p := set_ch js st]> (objs d)) d) l c f h)
          | [] => None
          end
      | None => None
      end
  | DoAck id ep =>
      match Ack_locked id ep (store d) with
      | (inr (Some _), s') => Some (mkWorld (with_store s' d) l (id :: c) f h)
      | _ => None
      end
  | DoNack id ep now =>
      match Nack_locked id ep "" now no_jitter (store d) with
      | (inr (Some _), s') => Some (mkWorld (with_store s' d) l (id :: c) f h)
      | _ => None
      end
  | DoCommitted =>
      match c with
      | id :: c => let '(r, s') := commitDurable (store d) in
          Some (mkWorld (with_store s' d) l c (match r with inr _ => id :: f | inl _ => f end) h)
      | [] => None
      end
  | DoRelease =>
      match f with id :: f => Some (mkWorld (release id d) l c f h) | [] => None end
  | DoReclaim now =>
      match l with
      | AtTop => let '(r, s') := ReclaimExpired now (fun _ => no_jitter) (store d) in
          Some (mkWorld (with_store s' d)
                  (Releasing (match r with inr (ids, _) => ids | inl _ => [] end)) c f h)
      | _ => None
      end
  | DoStreams order =>
      match l with
      | Releasing [] =>
          if is_orderb order d then
            Some (mkWorld d (if bool_decide (order = []) then AtTop else Passing order order false) c f h)
          else None
      | _ => None
      end
  | DoLoop now => do_loop now w
  end.

Fixpoint perform_all (acts : list action) (w : world) : option world :=
  match acts with
  | [] => Some w
  | a :: acts => match perform a w with Some w' => perform_all acts w' | None => None end
  end.

Lemma is_orderb_order order d : is_orderb order d = true -> is_order order d.
Proof.
  unfold is_orderb, is_order. intros E%bool_decide_eq_true_1.
  by rewrite <- (merge_sort_Permutation le order), E, merge_sort_Permutation.
Qed.

Lemma do_loop_sound now w w' : do_loop now w = Some w' -> run_step w w'.
Proof.
  destruct w as [d l c f h]. cbn. intros H.
  destruct l as [|[|id ids]|all [|p todo] [|]|all todo pl p|all todo pl p j|all todo pl p j]; try done.
  - injection H as <-. constructor.
  - injection H as <-. constructor.
  - injection H as <-. constructor.
  - destruct (hasRoom p d) eqn:E; injection H as <-; by constructor.
  - destruct (hasRoom p d) eqn:E; injection H as <-; by constructor.
  - destruct (epoch_roomb (store d)) eqn:Er; [|done].
    apply andb_true_iff in Er as [Hb%N.ltb_lt Hn%N.ltb_lt].
    destruct (lease_for p now d) as [[j|] d'] eqn:E; injection H as <-; by econstructor.
  - injection H as <-. constructor.
  - destruct (send true p j d) as [[[|] d']|] eqn:E; [..|done]; injection H as <-; by econstructor.
Qed.

(** The actions of the loop itself. *)
Definition loop_action (a : action) : bool :=
  match a with DoReclaim _ | DoStreams _ | DoLoop _ => true | _ => false end.

Lemma perform_loop a w w' : loop_action a = true -> perform a w = Some w' -> run_step w w'.
Proof.
  destruct w as [d l c f h]. destruct a as [| | | | | |now|order|now]; try done; intros _ H.
  - cbn [perform] in H. destruct l; try done. destruct (ReclaimExpired _ _ _) as [r s'] eqn:E.
    injection H as <-. by econstructor.
  - cbn [perform] in H. destruct l as [|[|]| | | |]; try done.
    destruct (is_orderb order d) eqn:E; [|done]. injection H as <-.
    constructor. by apply is_orderb_order.
  - by apply (do_loop_sound now).
Qed.

Lemma perform_sound a w w' : perform a w = Some w' -> step w w'.
Proof.
  destruct (loop_action a) eqn:El; [left; by eapply perform_loop|].
  destruct w as [d l c f h]. destruct a as [q wk max dur|p|id ep|id ep now| | |now|order|now];
    try done; cbn [perform]; intros H; right.
  - destruct (Z.leb_spec 1 max); [|done]. injection H as <-. by constructor.
  - destruct (objs d !! p) as [st|] eqn:Ep; [|done]. destruct (ch st) as [|j js] eqn:Ec; [done|].
    injection H as <-. by econstructor.
  - destruct (Ack_locked id ep (store d)) as [[e|[q|]] s'] eqn:E; try done. injection H as <-.
    by econstructor.
  - destruct (Nack_locked id ep "" now no_jitter (store d)) as [[e|[x|]] s'] eqn:E; try done.
    injection H as <-. by econstructor.
  - destruct c as [|id c]; [done|]. destruct (commitDurable (store d)) as [r s'] eqn:E.
    injection H as <-. by apply (env_committed d id r s' l [] c).
  - destruct f as [|id f]; [done|]. injection H as <-. by apply (env_release d id l c [] f).
Qed.

Lemma perform_all_sound acts w w' : perform_all acts w = Some w' -> reaches w w'.
Proof.
  revert w. induction acts as [|a acts IH]; cbn; intros w H; [injection H as ->; apply rtc_refl|].
  destruct (perform a w) as [w1|] eqn:E; [|done]. eapply rtc_l; [by apply (perform_sound a)|by apply IH].
Qed.

(** A script that runs reaches a world with the properties it is seen to have. *)
Lemma script_reaches {A} (view : world -> A) (v : A) acts w :
  view <$> perform_all acts w = Some v -> exists w', reaches w w' /\ view w' = v.
Proof.
  intros (w' & H & E)%fmap_Some. exists w'. split; [by apply (perform_all_sound acts)|done].
Qed.
End Script.

(** ** Where the accounting slips *)

Definition two_slots : world := start (NewDispatcher store1).

(** One turn of the loop that leases a job for stream 0 (after [n] idle tries). *)
Definition turn (now : Time) : list action :=
  [DoReclaim now; DoStreams [0%nat]; DoLoop now; DoLoop now; DoLoop now; DoLoop now].

(** [job-1] goes to the worker, which reports a failure; its flush is slow, and
    the retry falls due, and is handed out, before the handler of the report
    gets to [release]. The worker then finishes the job. *)
Definition nack_race : list action :=
  [DoRegister "mail" "w1" 2 60000000000] ++ turn 3000 ++
  [DoReceive 0; DoNack "job-1" 1 4000;
   DoLoop 5000; DoLoop 5000; DoLoop 5000; DoLoop 5000] ++
  turn 9000000000 ++
  [DoReceive 0; DoCommitted; DoRelease; DoAck "job-1" 2; DoCommitted; DoRelease].

Definition slot_view (w : world) : list (Z * list Job) * list (string * nat) * list State * list string * list string :=
  (map (fun st => (inFlight st, ch st)) (objs (disp w)), map_to_list (jobOwner (disp w)),
   map (fun kv => JState kv.2) (map_to_list (jobs (mem (store (disp w))))), committing w, finishing w).

(** A slot can be lost for good: [release] goes by the job, not by the
    lease, so when a failed job is handed out again before the handler of the
    failure calls [release], that call gives back the slot of the new lease.
    In the end nothing is leased, no call is under way and no job is owned, yet
    the worker counts as having one in flight. *)
Theorem nack_race_leaks_slot :
  exists w st, reaches (start (NewDispatcher store1)) w /\
    objs (disp w) = [st] /\ inFlight st = 1 /\ ch st = [] /\
    map_to_list (jobOwner (disp w)) = [] /\
    map (fun kv => JState kv.2) (map_to_list (jobs (mem (store (disp w))))) = [StateDone] /\
    committing w = [] /\ finishing w = [].
Proof.
  destruct (script_reaches slot_view ([(1, [])], [], [StateDone], [], []) nack_race two_slots)
    as (w & Hr & Hv); [vm_compute; reflexivity|].
  unfold slot_view in Hv. injection Hv as Ho Hj Hs Hc Hf.
  destruct (objs (disp w)) as [|st [|? ?]] eqn:E; try done. injection Ho as H1 H2.
  exists w, st. by split_and!.
Qed.

(** A worker that reads nothing: its job expires in the channel, the slot is
    given back, and the job is leased to it again. *)
Definition slow_worker : list action :=
  [DoRegister "mail" "w1" 1 500] ++ turn 3000 ++ [DoLoop 3000; DoLoop 3000; DoLoop 3000;
   DoReclaim 4000; DoLoop 4000; DoStreams [0%nat]; DoLoop 4000; DoLoop 4000; DoLoop 4000;
   DoReclaim 9000000000; DoStreams [0%nat]; DoLoop 9000000000; DoLoop 9000000000; DoLoop 9000000000].

Definition send_view (w : world) : option (nat * list bool * bool * bool) :=
  match at_ w with
  | Sending all todo pl p j =>
      Some (p, map cancelled (objs (disp w)),
            bool_decide (is_Some (send true p j (disp w))), bool_decide (is_Some (send false p j (disp w))))
  | _ => None
  end.

(** A slow worker can block the dispatch loop: with its expired job still
    in the channel and the slot given back, the next job for it is leased and
    the send waits; the loop can make no step, for any worker, although the
    stream is connected. *)
Theorem slow_worker_blocks_dispatch :
  exists w st, reaches (start (NewDispatcher store1)) w /\
    objs (disp w) = [st] /\ cancelled st = false /\
    forall w', ~ run_step w w'.
Proof.
  destruct (script_reaches send_view (Some (0%nat, [false], false, false)) slow_worker two_slots)
    as (w & Hr & Hv); [vm_compute; reflexivity|].
  unfold send_view in Hv. destruct (at_ w) as [| | | | |all todo pl p j] eqn:El; try done.
  injection Hv as -> Hc Ht Hf. apply bool_decide_eq_false in Ht, Hf.
  destruct (objs (disp w)) as [|st [|? ?]] eqn:E; try done. injection Hc as Hc.
  exists w, st. split_and!; [done..|]. intros w' Hs.
  destruct Hs; cbn in *; try done; injection El as -> -> -> -> ->;
    destruct pick; (apply Ht + apply Hf); rewrite H; by eexists.
Qed.

(** ** Witnesses *)

Lemma slots_accounted_witness :
  exists w st, objs (disp w) !! 0%nat = Some st /\ inFlight st <= maxInFlight st.
Proof.
  destruct (script_reaches (fun w => length (objs (disp w))) 1%nat nack_race two_slots)
    as (w & Hr & Hv); [vm_compute; reflexivity|].
  destruct (objs (disp w)) as [|st l] eqn:E; [discriminate|].
  assert (Hst : objs (disp w) !! 0%nat = Some st) by (rewrite E; reflexivity).
  exists w, st. split; [exact Hst|]. exact (proj2 (slots_accounted store1 w 0 st Hr Hst)).
Defined.

Lemma handover_exclusive_witness :
  exists w, map (fun pj => Epoch pj.2) (sent w) = [2; 1]%N /\
    StronglySorted (fun x y : nat * Job => (Epoch y.2 < Epoch x.2)%N) (sent w).
Proof.
  destruct (script_reaches (fun w => map (fun pj => Epoch pj.2) (sent w)) [2; 1]%N nack_race two_slots)
    as (w & Hr & Hv); [vm_compute; reflexivity|].
  exists w. split; [exact Hv|].
  exact (proj1 (proj2 (handover_exclusive store1 w (proj1 store1_healthy) Hr))).
Defined.

(** Two streams on the queue of one job. *)
Definition demo_disp : Dispatcher (L := Log) :=
  (register "mail" "w2" 1 1000 (register "mail" "w1" 2 1000 (NewDispatcher store1)).2).2.

Lemma demo_disp_ready : ready_for 100 demo_disp.
Proof.
  split.
  - apply slots_register; [lia|]. apply slots_register; [lia|].
    exact (proj1 (world_slots_start store1)).
  - intros [|[|p]] st Hp; cbn in Hp; [injection Hp as <-; cbn; lia..|done].
  - exact (proj1 store1_healthy).
  - split; vm_compute; reflexivity.
Qed.

Lemma ready_less k k' (d : Dispatcher (L := Log)) : (k' <= k)%N -> ready_for k d -> ready_for k' d.
Proof. intros Hle [H1 H2 H3 [H4 H5]]. split; [done..|]. split; [done|lia]. Qed.

Lemma demo_order : NoDup [0%nat; 1%nat].
Proof. repeat constructor; set_solver. Qed.

Definition demo_clock (round p : nat) : Time := 3000.

Lemma dispatch_work_conserving_witness :
  exists d', dispatch demo_clock [0%nat; 1%nat] demo_disp = (inr true, d') /\
    exists last, content (demo_clock last 1) 1
      (at_turn (demo_clock last) [0%nat; 1%nat] 1 (after_passes last demo_clock 0 [0%nat; 1%nat] demo_disp)) d'.
Proof.
  destruct (dispatch_work_conserving demo_clock [0%nat; 1%nat] demo_disp) as (d' & H & _ & _ & last & _ & Hc).
  - apply is_orderb_order. vm_compute. reflexivity.
  - exact demo_order.
  - apply (ready_less 100); [|exact demo_disp_ready]. vm_compute. discriminate.
  - exists d'. split; [exact H|]. exists last.
    destruct (Hc 2%N 1%nat) as (i & Hi & Hct); [vm_compute; reflexivity|].
    destruct i as [|[|i]]; [discriminate|exact Hct|destruct i; discriminate].
Defined.

Lemma pass_one_job_each_witness :
  exists placed d', pass (fun _ => 3000) [0%nat; 1%nat] demo_disp = (inr placed, d').
Proof.
  destruct (pass_one_job_each (fun _ => 3000) [0%nat; 1%nat] 10 demo_disp) as (b & d' & H & _).
  - exact demo_order.
  - apply (ready_less 100); [|exact demo_disp_ready]. vm_compute. discriminate.
  - exists b, d'. exact H.
Defined.

Lemma sleepFor_bounds_witness : Millisecond <= sleepFor 5000 demo_disp <= DefaultDispatchTick.
Proof.
  exact (proj1 (sleepFor_bounds 5000 demo_disp ltac:(vm_compute; split; [discriminate|reflexivity]))).
Defined.
