(* ===== verification/Server.v ===== *)
(** * Server: the RPC surface, [internal/broker/server.go]

    The handlers between the wire and the store: what they check, how they
    convert, which error code each failure becomes, and when they give a slot
    back to the dispatcher. The messages are the fields the handlers read and
    write; their encoding is generated code. [now], [id] and the jitter are
    what the store draws; the identifier of an unnamed worker is an argument. *)
From S2P Require Import Prelude Job Heap Index Framing LogSpec Event Memory Store Dispatcher.

(** ** Durations on the wire *)

Definition DefaultLeaseDuration : Duration := 30 * Second.
Definition MinLeaseDuration : Duration := Second.
Definition MaxLeaseDuration : Duration := Hour.

Definition clampLease (d : Duration) : Duration :=
  if d <=? 0 then DefaultLeaseDuration
  else if d <? MinLeaseDuration then MinLeaseDuration
  else if MaxLeaseDuration <? d then MaxLeaseDuration
  else d.

(** [time.Duration(ms) * time.Millisecond]. *)
Definition of_ms (ms : Z) : Duration := i64 (ms * Millisecond).

(** [Time.UnixMilli]: milliseconds since 1970. *)
Definition unixEpoch : Time := 62135596800 * Second.
Definition UnixMilli (t : Time) : Z := i64 ((t - unixEpoch) / Millisecond).

(** ** The enumerations of the protocol *)

Inductive JobState :=
  | JOB_STATE_UNSPECIFIED | JOB_STATE_PENDING | JOB_STATE_LEASED | JOB_STATE_RETRY_WAIT
  | JOB_STATE_DONE | JOB_STATE_DEAD_LETTER
  | JobState_other (n : Z).       (** a number the protocol does not name *)

Inductive ProtoPriority :=
  | PRIORITY_UNSPECIFIED | PRIORITY_LOW | PRIORITY_NORMAL | PRIORITY_HIGH
  | Priority_other (n : Z).

Definition priorityFromProto (p : ProtoPriority) : Priority :=
  match p with
  | PRIORITY_LOW => PriorityLow
  | PRIORITY_HIGH => PriorityHigh
  | _ => PriorityNormal
  end.

Definition priorityToProto (p : Priority) : ProtoPriority :=
  match p with
  | PriorityLow => PRIORITY_LOW
  | PriorityHigh => PRIORITY_HIGH
  | PriorityNormal => PRIORITY_NORMAL
  end.

Definition stateToProto (s : State) : JobState :=
  match s with
  | StatePending => JOB_STATE_PENDING
  | StateLeased => JOB_STATE_LEASED
  | StateRetryWait => JOB_STATE_RETRY_WAIT
  | StateDone => JOB_STATE_DONE
  | StateDeadLetter => JOB_STATE_DEAD_LETTER
  | StateUnspecified => JOB_STATE_UNSPECIFIED
  end.

Definition stateFromProto (s : JobState) : State :=
  match s with
  | JOB_STATE_PENDING => StatePending
  | JOB_STATE_LEASED => StateLeased
  | JOB_STATE_RETRY_WAIT => StateRetryWait
  | JOB_STATE_DONE => StateDone
  | JOB_STATE_DEAD_LETTER => StateDeadLetter
  | _ => StateUnspecified
  end.

(** ** Messages *)

Record ProtoJob := mkProtoJob {
  Id : string; PJQueue : string; PJHandler : string; PJPayload : bytes;
  PJIdempotencyKey : string; PJPriority : ProtoPriority; PJMaxRetries : Z; PJAttempt : Z;
  PJState : JobState; PJEpoch : N; EnqueuedAtUnixMs : Z; EligibleAtUnixMs : Z;
  LeaseExpiresAtUnixMs : Z; PJLeasedBy : string; PJLastError : string
}.

Definition jobToProto (j : Job) : ProtoJob :=
  mkProtoJob (ID j) (Queue j) (Handler j) (Payload j) (IdempotencyKey j)
    (priorityToProto (JPriority j)) (i32 (MaxRetries j)) (i32 (Attempt j))
    (stateToProto (JState j)) (Epoch j) (UnixMilli (EnqueuedAt j)) (UnixMilli (EligibleAt j))
    (if IsZero (LeaseExpiresAt j) then 0 else UnixMilli (LeaseExpiresAt j))
    (LeasedBy j) (LastError j).

Record SubmitRequest := mkSubmitRequest {
  SRQueue : string; SRPayload : bytes; SRHandler : string; SRIdempotencyKey : string;
  SRPriority : ProtoPriority; SRMaxRetries : Z; SRDelayMs : Z
}.
Record SubmitResponse := mkSubmitResponse { SubJobId : string; Deduplicated : bool }.

Record LeaseRequest := mkLeaseRequest {
  LRQueue : string; LRWorkerId : string; LRMaxInFlight : Z; LRLeaseDurationMs : Z
}.
Record LeaseResponse := mkLeaseResponse {
  LJobId : string; LEpoch : N; LQueue : string; LIdempotencyKey : string; LHandler : string;
  LPayload : bytes; LAttempt : Z; LLeaseExpiresAtUnixMs : Z
}.
Record AckRequest := mkAckRequest { AckJobId : string; AckEpoch : N; AckWorkerId : string }.
Record NackRequest := mkNackRequest {
  NackJobId : string; NackEpoch : N; NackWorkerId : string; NackReason : string
}.
Record NackResponse := mkNackResponse { NackAccepted : bool; NackDeadLettered : bool }.
Record HeartbeatRequest := mkHeartbeatRequest {
  HBJobId : string; HBEpoch : N; HBWorkerId : string; HBLeaseDurationMs : Z
}.
Record HeartbeatResponse := mkHeartbeatResponse { HBAccepted : bool; NewLeaseExpiresAtUnixMs : Z }.
Record ListJobsRequest := mkListJobsRequest { LJQueue : string; LJState : JobState; LJLimit : Z }.

Inductive Code :=
  CodeInvalidArgument | CodeNotFound | CodeFailedPrecondition | CodeInternal | CodeUnimplemented.

(** What goes out instead of a response; [Panic]: the handler dereferenced nil. *)
Inductive rpcError {E : Type} :=
  | ConnectError (code : Code) (err : E)
  | Panic.
Arguments rpcError : clear implicits.

Section Server.
Context {L : Type} {lops : LogOps L} {codec : EventCodec}.

(** The server is its store and its dispatcher. *)
Abbreviation rpc A := (M Dispatcher (rpcError (storeError log_err)) A) (only parsing).

(** A store operation whose errors get the code [code]. *)
Definition on_store {A} (code : storeError log_err -> Code)
    (m : M Store (storeError log_err) A) : rpc A :=
  zoom store with_store (fun e => ConnectError (code e) e) m.

Definition submit_code (e : storeError log_err) : Code :=
  match e with ErrQueueRequired => CodeInvalidArgument | _ => CodeInternal end.
Definition found_code (e : storeError log_err) : Code :=
  match e with ErrJobNotFound => CodeNotFound | _ => CodeInternal end.
Definition replay_code (e : storeError log_err) : Code :=
  match e with
  | ErrJobNotFound => CodeNotFound
  | ErrNotDeadLettered => CodeFailedPrecondition
  | _ => CodeInternal
  end.

Definition submit_params (req : SubmitRequest) : SubmitParams :=
  mkSubmitParams (SRQueue req) (SRHandler req) (SRPayload req) (SRIdempotencyKey req)
    (priorityFromProto (SRPriority req)) (SRMaxRetries req) (of_ms (SRDelayMs req)).

Definition Submit (req : SubmitRequest) (id : string) (now : Time) : rpc SubmitResponse :=
  let* r := on_store submit_code (Store.Submit (submit_params req) id now) in
  match r.1 with
  | None => throw Panic
  | Some j => ret (mkSubmitResponse (ID j) r.2)
  end.

(** [Lease] up to its loop: the stream, or what it is refused with. *)
Definition Lease_open (req : LeaseRequest) (newID : string) (d : Dispatcher) :
    Code + (nat * Dispatcher) :=
  if bool_decide (LRQueue req = "") then inl CodeInvalidArgument
  else
    let worker := if bool_decide (LRWorkerId req = "") then newID else LRWorkerId req in
    let maxInFlight := if LRMaxInFlight req <? 1 then 1 else LRMaxInFlight req in
    inr (register (LRQueue req) worker maxInFlight (clampLease (of_ms (LRLeaseDurationMs req))) d).

(** The message for a job taken off the stream's channel. *)
Definition lease_response (j : Job) : LeaseResponse :=
  mkLeaseResponse (ID j) (Epoch j) (Queue j) (IdempotencyKey j) (Handler j) (Payload j)
    (i32 (Attempt j)) (UnixMilli (LeaseExpiresAt j)).

Definition Ack (req : AckRequest) : rpc bool :=
  let* accepted := on_store found_code (Store.Ack (AckJobId req) (AckEpoch req)) in
  (if accepted then modify (release (AckJobId req)) else ret tt) ;;;
  ret accepted.

Definition Nack (req : NackRequest) (now : Time) (rnd : Z -> Z) : rpc NackResponse :=
  let* r := on_store found_code
    (Store.Nack (NackJobId req) (NackEpoch req) (NackReason req) now rnd) in
  (if r.1 then modify (release (NackJobId req)) else ret tt) ;;;
  ret (mkNackResponse r.1 r.2).

Definition Heartbeat (req : HeartbeatRequest) (now : Time) : rpc HeartbeatResponse :=
  let* r := on_store found_code
    (Store.Heartbeat (HBJobId req) (HBEpoch req) (clampLease (of_ms (HBLeaseDurationMs req))) now) in
  ret (mkHeartbeatResponse r.1 (if r.1 then UnixMilli r.2 else 0)).

(** [None]: [Found] is false. *)
Definition Get (jobID : string) (d : Dispatcher) : option ProtoJob :=
  jobToProto <$> Store.Get jobID (store d).

Definition ListJobs (req : ListJobsRequest) (d : Dispatcher) : list ProtoJob :=
  map jobToProto (Store.ListJobs (LJQueue req) (stateFromProto (LJState req)) (LJLimit req) (store d)).

Definition ReplayJob (jobID : string) (now : Time) : rpc unit :=
  on_store replay_code (Store.ReplayJob jobID now).

Definition Stats (queue : string) (d : Dispatcher) : Store.Stats := Stats_of queue (store d).
End Server.
