(* ===== verification/ServerProps.v ===== *)
(** * ServerProps: what a client of the broker can rely on

    The outcome of every RPC that changes state: which error code means what,
    when a slot is given back, and the bounds on what reaches the dispatcher;
    and the queries: exactly the jobs asked for, counted and in order. *)
From S2P Require Import Prelude Job Heap Index Framing LogSpec Wal WalSpec Event Memory MemSpec Store Snapshot StoreSpec System.
From S2P Require Import SnapshotSpec Life Demo Dispatcher Server.

(** ** Bounds on requests *)

Lemma clampLease_range d : MinLeaseDuration <= clampLease d <= MaxLeaseDuration.
Proof.
  unfold clampLease, MinLeaseDuration, MaxLeaseDuration, DefaultLeaseDuration, Hour, Minute, Second,
    Millisecond, Microsecond.
  repeat case_match; rewrite ?Z.leb_le, ?Z.leb_gt, ?Z.ltb_lt, ?Z.ltb_ge in *; lia.
Qed.

Section Rpc.
Context {L : Type} {lops : LogOps L} {codec : EventCodec}.
Implicit Types (d : Dispatcher).

(** Whatever a worker asks for, the lease it gets is between a second and
    an hour; a lease in that range is granted as it is; zero and negative ones
    give the default, and so does one so long that its nanoseconds wrap around
    to a negative number. *)
Theorem lease_duration_granted ms :
  MinLeaseDuration <= clampLease (of_ms ms) <= MaxLeaseDuration /\
  (1000 <= ms <= 3600000 -> clampLease (of_ms ms) = ms * Millisecond) /\
  (- 2 ^ 63 <= ms * Millisecond <= 0 -> clampLease (of_ms ms) = DefaultLeaseDuration) /\
  clampLease (of_ms 9223372036855) = DefaultLeaseDuration.
Proof.
  split; [apply clampLease_range|]. split; [|split; [|vm_compute; reflexivity]].
  - intros H. unfold of_ms. rewrite i64_id by (unfold is_i64, Millisecond, Microsecond; lia).
    unfold clampLease, MinLeaseDuration, MaxLeaseDuration, Hour, Minute, Second, Millisecond, Microsecond.
    repeat case_match; rewrite ?Z.leb_le, ?Z.leb_gt, ?Z.ltb_lt, ?Z.ltb_ge in *; lia.
  - intros H. unfold of_ms. rewrite i64_id by (unfold is_i64; lia).
    unfold clampLease. rewrite (proj2 (Z.leb_le _ _)) by lia. done.
Qed.

(** A stream is only registered for a named queue, with room for at least
    one job, under a non-empty worker name and a bounded lease. *)
Theorem lease_stream_admitted (req : LeaseRequest) newID d :
  match Lease_open req newID d with
  | inl code => code = CodeInvalidArgument /\ LRQueue req = ""
  | inr (ptr, d') => exists st, objs d' = objs d ++ [st] /\ ptr = length (objs d) /\
      wqueue st = LRQueue req /\ wqueue st <> "" /\ (newID <> "" -> workerID st <> "") /\
      1 <= maxInFlight st <= Z.max 1 (LRMaxInFlight req) /\ inFlight st = 0 /\ ch st = [] /\
      MinLeaseDuration <= leaseDur st <= MaxLeaseDuration
  end.
Proof.
  unfold Lease_open. case_bool_decide as Eq; [done|]. cbn. eexists. split; [done|].
  split; [done|]. cbn. split; [done|]. split; [done|]. split; [by case_bool_decide|].
  split; [destruct (Z.ltb_spec (LRMaxInFlight req) 1); lia|]. split; [done|]. split; [done|].
  apply clampLease_range.
Qed.

(** ** Acknowledgements *)

Lemma wp_on_store {A} code (m : M Store (storeError log_err) A)
    (Q : rpcError (storeError log_err) + A -> Dispatcher -> Prop) d :
  wp m (fun r s' => Q (match r with inl e => inl (ConnectError (code e) e) | inr a => inr a end)
                      (with_store s' d)) (store d) ->
  wp (on_store code m) Q d.
Proof. apply wp_zoom. Qed.

(** ** The errors behind [CodeInternal] *)

(** Not the client's fault: the log, the encoding or a poisoned store. *)
Definition broken (e : storeError log_err) : Prop :=
  match e with ErrQueueRequired | ErrJobNotFound | ErrNotDeadLettered => False | _ => True end.

(** A store is only poisoned by a failed flush. *)
Definition poison_ok (s : Store) : Prop :=
  match failed s with None | Some (ErrDurabilityLost _) => True | _ => False end.

Lemma poison_broken s err : poison_ok s -> failed s = Some err -> broken err.
Proof. unfold poison_ok. intros H E. rewrite E in H. by destruct err. Qed.

Lemma wp_record e Q s :
  poison_ok s ->
  (forall err l', broken err -> Q (inl err) (with_log l' s)) ->
  (forall lsn l' m', apply e (mem s) = (inr tt, m') ->
     Q (inr tt) (with_lastLSN lsn (with_mem m' (with_log l' s)))) ->
  wp (recordLocked e) Q s.
Proof.
  intros Hp He Hok. unfold recordLocked. do 2 wp_step.
  destruct (failed s) as [err|] eqn:Ef.
  { wp_step. rewrite <- (with_log_id s). by eapply He, poison_broken. }
  wp_step. unfold encode. destruct (encodeEvent e) as [b|].
  2:{ wp_step. rewrite <- (with_log_id s). by apply He. }
  do 2 wp_step. apply wp_on_log; intros x l' _; [by apply He|].
  wp_step. apply wp_apply; [intros; by apply He|]. intros m' Hm'. wp_step. by apply Hok.
Qed.

Lemma wp_commit Q s :
  poison_ok s -> (forall l', Q (inr tt) (with_log l' s)) ->
  (forall err l', broken err -> Q (inl err) (with_failed (Some err) (with_log l' s))) ->
  wp commitDurable Q s.
Proof.
  intros Hp Hok Herr. unfold wp, commitDurable, bind, try, on_log, zoom, gets.
  destruct (log_sync (log s)) as [[e|a] l'] eqn:E; cbn; [|apply Hok].
  destruct (failed s) as [err|] eqn:Ef; cbn.
  - replace (with_log l' s) with (with_failed (Some err) (with_log l' s)).
    + by eapply Herr, poison_broken.
    + destruct s. cbn in *. by rewrite Ef.
  - by apply Herr.
Qed.

(** ** Acknowledgements *)

(** The accounts of the dispatcher are as they were, or as after [release]. *)
Definition same_accounts d d' : Prop := objs d' = objs d /\ jobOwner d' = jobOwner d.
Definition released (id : string) d d' : Prop := same_accounts (release id d) d'.

(** How a handler that reports on a lease may end: the job is unknown; the
    lease is no longer the caller's, nothing happens to the job; the store is
    broken and the slot is kept; or the report counts, and only then is the
    slot given back. *)
Definition report_post {A} (id : string) (epoch : N) (accepted : A -> bool) (f : Job -> Job -> Prop)
    d (r : rpcError (storeError log_err) + A) d' : Prop :=
  match r with
  | inl Panic => False
  | inl (ConnectError CodeNotFound _) => jobs (mem (store d)) !! id = None /\ d' = d
  | inl (ConnectError CodeInternal e) => broken e /\ same_accounts d d' /\
      exists j, jobs (mem (store d)) !! id = Some j /\ holdsLease j epoch = true
  | inl (ConnectError _ _) => False
  | inr a =>
      exists j, jobs (mem (store d)) !! id = Some j /\ accepted a = holdsLease j epoch /\
      if accepted a then
        released id d d' /\ exists j', f j j' /\
          jobs (mem (store d')) = <[id := j']> (jobs (mem (store d)))
      else same_accounts d d' /\ jobs (mem (store d')) = jobs (mem (store d))
  end.

Lemma released_store id d s' : released id d (release id (with_store s' d)).
Proof. unfold released, same_accounts, release. cbn. by destruct (jobOwner d !! id). Qed.

Lemma with_store_id d : with_store (store d) d = d.
Proof. by destruct d. Qed.

Lemma report_broken {A} id epoch (acc : A -> bool) f d err s' j :
  broken err -> jobs (mem (store d)) !! id = Some j -> holdsLease j epoch = true ->
  report_post id epoch acc f d (inl (ConnectError (found_code err) err)) (with_store s' d).
Proof.
  intros Hb Hj Hh.
  assert (broken err /\ same_accounts d (with_store s' d) /\
    exists j, jobs (mem (store d)) !! id = Some j /\ holdsLease j epoch = true).
  { split; [done|]. split; [done|]. by exists j. }
  by destruct err.
Qed.

Lemma Ack_post req d :
  poison_ok (store d) ->
  wp (Ack req) (report_post (AckJobId req) (AckEpoch req) (fun b => b) (fun j j' => j' = ack_job j) d) d.
Proof.
  intros Hp. unfold Ack. wp_step. apply wp_on_store. unfold Store.Ack, Ack_locked.
  wp_step. wp_step. unfold get_job at 1. wp_step.
  destruct (jobs (mem (store d)) !! AckJobId req) as [j|] eqn:Ej.
  2:{ wp_step. cbn. by rewrite with_store_id. }
  destruct (holdsLease j (AckEpoch req)) eqn:Eh; cbn [negb].
  2:{ unfold inc. wp_auto. exists j. split; [done|]. by rewrite Eh. }
  wp_step. apply wp_record; [done|intros err l' Hb; by eapply report_broken|intros lsn l' m' Happ].
  wp_step. wp_step. apply wp_commit; [done| |intros err l2 Hb; by eapply report_broken].
  intros l2. unfold inc, Store.signal. wp_auto. exists j. split; [done|]. split; [done|].
  split; [apply released_store|]. exists (ack_job j). split; [done|].
  rewrite (apply_on_job _ ack_job remove (mem (store d)) j) in Happ by done. injection Happ as <-.
  unfold release. cbn. by destruct (jobOwner d !! AckJobId req).
Qed.

(** A failed job: retried or dead, its budget decides. *)
Definition failed_as (reason : string) (dead : bool) (j j' : Job) : Prop :=
  JState j' = (if dead then StateDeadLetter else StateRetryWait) /\
  dead = (MaxRetries j <? Attempt j) /\ LastError j' = reason /\ Attempt j' = Attempt j.

Lemma failLocked_post j reason timeout now rnd (s : Store) :
  poison_ok s -> jobs (mem s) !! ID j = Some j ->
  wp (failLocked j reason timeout now rnd) (fun r s' => match r with
    | inl err => broken err
    | inr dead => failed s' = failed s /\
        exists j', failed_as reason dead j j' /\ jobs (mem s') = <[ID j := j']> (jobs (mem s))
    end) s.
Proof.
  intros Hp Hj. unfold failLocked. do 3 wp_step.
  fold (fail_event (backoffBase s) (backoffCap s) j reason timeout now rnd).
  set (e := fail_event _ _ _ _ _ _ _).
  apply wp_record; [done|done|]. intros lsn l' m' Happ. wp_step.
  rewrite (apply_on_job e (fail_job e) remove (mem s) j) in Happ by done. injection Happ as <-.
  assert (Hf : failed_as reason (bool_decide ((if MaxRetries j <? Attempt j then StateDeadLetter
                                               else StateRetryWait) = StateDeadLetter))
                 j (fail_job e j)).
  { unfold failed_as, e. cbn. by destruct (MaxRetries j <? Attempt j). }
  destruct (MaxRetries j <? Attempt j).
  - rewrite (bool_decide_false (StateDeadLetter = StateRetryWait)) by done.
    wp_step. wp_step. split; [done|]. by exists (fail_job e j).
  - rewrite (bool_decide_true (StateRetryWait = StateRetryWait)) by done.
    apply wp_push_job; [intros _|intros j' _]; wp_step; (split; [done|]); by exists (fail_job e j).
Qed.

Lemma Nack_post req now rnd d :
  mem_wf (mem (store d)) -> poison_ok (store d) ->
  wp (Nack req now rnd) (fun r d' => report_post (NackJobId req) (NackEpoch req) NackAccepted
    (fun j j' => match r with
                 | inr resp => failed_as (nack_reason (NackReason req)) (NackDeadLettered resp) j j'
                 | inl _ => True end) d r d') d.
Proof.
  intros Hwf Hp. unfold Nack. wp_step. apply wp_on_store. unfold Store.Nack, Nack_locked.
  wp_step. wp_step. unfold get_job at 1. wp_step.
  destruct (jobs (mem (store d)) !! NackJobId req) as [j|] eqn:Ej.
  2:{ wp_step. cbn. by rewrite with_store_id. }
  destruct (holdsLease j (NackEpoch req)) eqn:Eh; cbn [negb].
  2:{ unfold inc. wp_auto. exists j. split; [done|]. by rewrite Eh. }
  pose proof (wf_keys _ Hwf _ _ Ej) as HID.
  wp_step. eapply wp_mono; [apply failLocked_post; [done|by rewrite HID]|].
  intros [err|dead] s1 H1; [by eapply report_broken|]. destruct H1 as (Hf1 & j' & Hj' & Hm1).
  wp_step. wp_step. apply wp_commit; [unfold poison_ok; by rewrite Hf1| |].
  2:{ intros err l2 Hb. by eapply report_broken. }
  intros l2. unfold inc, Store.signal. wp_step. wp_step. wp_step.
  eapply wp_mono with (Q := fun r s' => r = inr tt /\ mem s' = mem s1).
  { destruct dead; by wp_auto. }
  intros r s2 [-> Hm2]. wp_auto. exists j. split; [done|]. split; [by rewrite Eh|].
  split; [apply released_store|]. exists j'. split; [done|]. rewrite <- HID, <- Hm1, <- Hm2.
  unfold release. cbn. by destruct (jobOwner d !! ID j).
Qed.

(** C20: the RPCs that report on a delivery, on a broker in its invariant. An
    unknown job is [NotFound] and changes nothing. A lease that is no longer
    the caller's is answered, not accepted, and changes neither the jobs nor
    the accounts of the dispatcher. If the log fails the code is [Internal]
    and the slot is kept. Only an accepted report gives the slot back: after
    [Ack] the job is done, after [Nack] it waits for a retry or is dead
    according to its budget, with the reason reported. *)
Theorem report_rpcs (ack : AckRequest) (nack : NackRequest) now rnd d :
  mem_wf (mem (store d)) -> poison_ok (store d) ->
  (let '(r, d') := Ack ack d in
   report_post (AckJobId ack) (AckEpoch ack) (fun b => b) (fun j j' => j' = ack_job j) d r d') /\
  (let '(r, d') := Nack nack now rnd d in
   report_post (NackJobId nack) (NackEpoch nack) NackAccepted (fun j j' => match r with
     | inr resp => failed_as (nack_reason (NackReason nack)) (NackDeadLettered resp) j j'
     | inl _ => True end) d r d').
Proof.
  intros Hwf Hp. pose proof (Ack_post ack d Hp) as HA. pose proof (Nack_post nack now rnd d Hwf Hp) as HN.
  unfold wp in *. destruct (Ack ack d), (Nack nack now rnd d). by split.
Qed.

(** A heartbeat is accepted exactly when the lease is still the caller's;
    it then moves the expiry to the granted duration from now, which the
    response carries, and changes nothing else of the job; otherwise nothing
    changes. An unknown job is [NotFound], and no other error is possible. *)
Theorem heartbeat_rpc (req : HeartbeatRequest) now d :
  let '(r, d') := Heartbeat req now d in
  match jobs (mem (store d)) !! HBJobId req with
  | None => r = inl (ConnectError CodeNotFound ErrJobNotFound) /\ d' = d
  | Some j =>
      let expires := now + clampLease (of_ms (HBLeaseDurationMs req)) in
      if holdsLease j (HBEpoch req) then
        r = inr (mkHeartbeatResponse true (UnixMilli expires)) /\ same_accounts d d' /\
        jobs (mem (store d')) = <[HBJobId req := extend_lease expires j]> (jobs (mem (store d)))
      else r = inr (mkHeartbeatResponse false 0) /\ d' = d
  end.
Proof.
  pose (P := fun (r : rpcError (storeError log_err) + HeartbeatResponse) d' =>
    match jobs (mem (store d)) !! HBJobId req with
    | None => r = inl (ConnectError CodeNotFound ErrJobNotFound) /\ d' = d
    | Some j =>
        let expires := now + clampLease (of_ms (HBLeaseDurationMs req)) in
        if holdsLease j (HBEpoch req) then
          r = inr (mkHeartbeatResponse true (UnixMilli expires)) /\ same_accounts d d' /\
          jobs (mem (store d')) = <[HBJobId req := extend_lease expires j]> (jobs (mem (store d)))
        else r = inr (mkHeartbeatResponse false 0) /\ d' = d
    end).
  assert (H : wp (Heartbeat req now) P d); [|unfold wp in H; by destruct (Heartbeat req now d)].
  unfold Heartbeat. wp_step. apply wp_on_store. unfold Store.Heartbeat. wp_step.
  unfold get_job at 1. wp_step. unfold P.
  destruct (jobs (mem (store d)) !! HBJobId req) as [j|] eqn:Ej; [|wp_step; by rewrite with_store_id].
  destruct (holdsLease j (HBEpoch req)) eqn:Eh; cbn [negb].
  - by wp_auto.
  - wp_auto. by rewrite with_store_id.
Qed.

(** ** Submissions and replays *)

Definition submit_post (req : SubmitRequest) (id : string) (now : Time) d
    (r : rpcError (storeError log_err) + SubmitResponse) d' : Prop :=
  match r with
  | inl Panic => False
  | inl (ConnectError CodeInvalidArgument _) => TrimSpace (SRQueue req) = "" /\ d' = d
  | inl (ConnectError CodeInternal e) => TrimSpace (SRQueue req) <> "" /\ broken e
  | inl (ConnectError _ _) => False
  | inr resp =>
      TrimSpace (SRQueue req) <> "" /\
      if Deduplicated resp then
        jobs (mem (store d')) = jobs (mem (store d)) /\
        exists j, jobs (mem (store d)) !! SubJobId resp = Some j /\ IdempotencyKey j <> "" /\
          job_key j = idemKey (SRQueue req) (SRIdempotencyKey req)
      else
        SubJobId resp = id /\
        jobs (mem (store d')) =
          <[id := new_job (submit_defaults (submit_params req)) id now]> (jobs (mem (store d)))
  end.

Lemma submit_broken req id now d err s' :
  TrimSpace (SRQueue req) <> "" -> broken err ->
  submit_post req id now d (inl (ConnectError (submit_code err) err)) (with_store s' d).
Proof. intros Hq Hb. by destruct err. Qed.

(** C21: [Submit] on a broker in its invariant, with a fresh identifier: a blank
    queue is [InvalidArgument] and changes nothing; a broken store is
    [Internal]; a known idempotency key is answered with the identifier of the
    job filed under it and adds no job; anything else adds exactly the one
    pending job the request describes. The handler never dereferences nil. *)
Theorem submit_rpc (req : SubmitRequest) id now d :
  store_wf (store d) -> poison_ok (store d) -> jobs (mem (store d)) !! id = None ->
  let '(r, d') := Submit req id now d in submit_post req id now d r d'.
Proof.
  intros Hwf Hp Hnew. pose proof (inv_mem _ _ _ _ Hwf) as Hm.
  assert (H : wp (Submit req id now) (submit_post req id now d) d);
    [|unfold wp in H; by destruct (Submit req id now d)].
  unfold Submit. wp_step. apply wp_on_store. unfold Store.Submit. cbn [PQueue submit_params].
  case_bool_decide as Eq; [wp_step; by rewrite with_store_id|].
  wp_step. unfold Submit_locked. do 2 wp_step.
  destruct (failed (store d)) as [err|] eqn:Ef.
  { wp_step. eapply submit_broken; [done|by eapply poison_broken]. }
  do 2 wp_step. cbn [submit_defaults PIdempotencyKey PQueue submit_params].
  destruct (if bool_decide _ then _ else _) as [old|] eqn:Eold.
  - case_bool_decide as Ek; [done|].
    destruct (wf_idem_sound _ Hm _ _ Eold) as (j & Hj & Hkj & Ekey).
    wp_step. rewrite Hj. cbn. unfold inc. wp_auto. cbn. split; [done|]. split; [done|].
    exists j. split; [|done]. unfold Clone. by rewrite (wf_keys _ Hm _ _ Hj).
  - wp_step. apply wp_record; [done|intros err l' Hb; by eapply submit_broken|].
    intros lsn l' m' Happ. injection Happ as <-. wp_step.
    apply wp_push_job; [intros Hno|intros j _].
    { cbn in Hno. by rewrite lookup_insert_eq in Hno. }
    wp_step. cbn [snd]. wp_step. apply wp_commit; [done| |intros err l2 Hb; by eapply submit_broken].
    intros l2. unfold inc, Store.signal. wp_auto. cbn. split; [done|]. by split.
Qed.

(** [ReplayJob] answers [NotFound] exactly for an unknown job and
    [FailedPrecondition] exactly for one that is not dead-lettered, both
    without effect; otherwise the job is pending again with a fresh budget, or
    the store is broken. *)
Theorem replay_rpc id now d :
  store_wf (store d) -> poison_ok (store d) ->
  let '(r, d') := ReplayJob id now d in
  match jobs (mem (store d)) !! id with
  | None => r = inl (ConnectError CodeNotFound ErrJobNotFound) /\ d' = d
  | Some j =>
      if bool_decide (JState j = StateDeadLetter) then
        (exists e, r = inl (ConnectError CodeInternal e) /\ broken e) \/
        (r = inr tt /\ exists j', jobs (mem (store d')) = <[id := j']> (jobs (mem (store d))) /\
           JState j' = StatePending /\ Attempt j' = 0 /\ LastError j' = "")
      else r = inl (ConnectError CodeFailedPrecondition ErrNotDeadLettered) /\ d' = d
  end.
Proof.
  intros Hwf Hp.
  pose (P := fun (r : rpcError (storeError log_err) + unit) d' =>
    match jobs (mem (store d)) !! id with
    | None => r = inl (ConnectError CodeNotFound ErrJobNotFound) /\ d' = d
    | Some j =>
        if bool_decide (JState j = StateDeadLetter) then
          (exists e, r = inl (ConnectError CodeInternal e) /\ broken e) \/
          (r = inr tt /\ exists j', jobs (mem (store d')) = <[id := j']> (jobs (mem (store d))) /\
             JState j' = StatePending /\ Attempt j' = 0 /\ LastError j' = "")
        else r = inl (ConnectError CodeFailedPrecondition ErrNotDeadLettered) /\ d' = d
    end).
  assert (H : wp (ReplayJob id now) P d); [|unfold wp in H; by destruct (ReplayJob id now d)].
  unfold ReplayJob. apply wp_on_store. unfold Store.ReplayJob, ReplayJob_locked, P.
  wp_step. wp_step. unfold get_job at 1. wp_step.
  destruct (jobs (mem (store d)) !! id) as [j|] eqn:Ej; [|wp_step; by rewrite with_store_id].
  case_bool_decide as Ed; cbn [negb]; [|wp_step; by rewrite with_store_id].
  assert (Hbad : forall err, broken err -> exists e,
    inl (ConnectError (replay_code err) err) = inl (B := unit) (ConnectError CodeInternal e) /\ broken e).
  { intros err Hb. exists err. by destruct err. }
  wp_step. apply wp_record; [done|intros err l' Hb; left; by apply Hbad|]. intros lsn l' m' Happ.
  rewrite (apply_on_job _ (replay_job (ev_replay id now)) remove (mem (store d)) j) in Happ by done.
  injection Happ as <-. wp_step.
  apply wp_push_job; [intros Hno; cbn in Hno; by rewrite lookup_insert_eq in Hno|]. intros j' _.
  wp_step. wp_step. apply wp_commit; [done| |intros err l2 Hb; left; by apply Hbad].
  intros l2. unfold inc, Store.signal. wp_auto. right. split; [done|].
  by exists (replay_job (ev_replay id now) j).
Qed.

(** ** Queries *)

#[export] Instance id_ge_total : Total id_ge.
Proof.
  intros a b. unfold id_ge. destruct (str_ltb (ID a) (ID b)) eqn:E; [right|by left].
  by apply str_ltb_asym.
Qed.

#[export] Instance id_ge_trans : Transitive id_ge.
Proof.
  unfold id_ge. intros a b c H1 H2. destruct (str_ltb (ID a) (ID c)) eqn:E; [|done].
  destruct (str_ltb (ID b) (ID a)) eqn:Eb.
  - by rewrite (str_ltb_trans _ _ _ Eb E) in H2.
  - by rewrite (str_ltb_total _ _ H1 Eb), H2 in E.
Qed.

(** A sorted list without ties is sorted strictly. *)
Lemma sorted_newest_first (m : Mem) (l : list Job) :
  mem_wf m -> StronglySorted id_ge l -> NoDup l ->
  (forall j, j ∈ l -> exists id, jobs m !! id = Some j) ->
  StronglySorted (fun a b => str_ltb (ID b) (ID a) = true) l.
Proof.
  intros Hwf Hs Hnd Hin. induction Hs as [|a l Hs IH Ha]; [constructor|].
  apply NoDup_cons in Hnd as [Hnin Hnd]. constructor.
  - apply IH; [done|]. intros j Hj. apply Hin. by right.
  - apply Forall_forall. intros b Hb. eapply (proj1 (Forall_forall _ _)) in Ha; [|exact Hb].
    destruct (str_ltb (ID b) (ID a)) eqn:E; [done|]. exfalso.
    pose proof (str_ltb_total _ _ E Ha) as Eid.
    destruct (Hin a ltac:(by left)) as [ia Hia], (Hin b ltac:(by right)) as [ib Hib].
    rewrite (wf_keys _ Hwf _ _ Hia), (wf_keys _ Hwf _ _ Hib) in Eid.
    assert (a = b) as -> by congruence. done.
Qed.

Lemma jobs_in_order_NoDup (m : Mem) : mem_wf m -> NoDup (jobs_in_order (jobs m)).
Proof.
  intros Hwf. apply (NoDup_fmap_1 ID). unfold jobs_in_order. rewrite <- list_fmap_compose.
  replace ((ID ∘ snd) <$> map_to_list (jobs m)) with ((map_to_list (jobs m)).*1);
    [apply NoDup_fst_map_to_list|].
  apply list_fmap_ext. intros i [id j] Hi. cbn. symmetry.
  apply (wf_keys _ Hwf), elem_of_map_to_list. by eapply list_elem_of_lookup_2.
Qed.

Lemma state_matches (p : JobState) (st : State) :
  stateFromProto p = StateUnspecified \/ st = stateFromProto p <->
  stateFromProto p = StateUnspecified \/ stateToProto st = p.
Proof. destruct p, st; cbn; (split; intros [H|H]; first [done | by left | by right]). Qed.

(** [ListJobs] returns exactly the jobs of the queue and state asked for
    (all of them where the filter is empty or names no state), strictly newest
    identifier first, and with a positive limit the first that many. *)
Lemma list_jobs_exact (req : ListJobsRequest) d :
  mem_wf (mem (store d)) ->
  exists all : list Job,
    (forall j, j ∈ all <-> jobs (mem (store d)) !! ID j = Some j /\
       (LJQueue req = "" \/ Queue j = LJQueue req) /\
       (stateFromProto (LJState req) = StateUnspecified \/ stateToProto (JState j) = LJState req)) /\
    NoDup all /\ StronglySorted (fun a b => str_ltb (ID b) (ID a) = true) all /\
    ListJobs req d =
      map jobToProto (if 0 <? LJLimit req then take (Z.to_nat (LJLimit req)) all else all).
Proof.
  intros Hwf. unfold ListJobs, Store.ListJobs. cbv zeta.
  set (P := fun j => list_match (LJQueue req) (stateFromProto (LJState req)) j = true).
  set (sel := filter P _). exists (merge_sort id_ge (map Clone sel)).
  assert (Hcl : map Clone sel = sel) by apply map_id. rewrite Hcl.
  assert (Hperm : merge_sort id_ge sel ≡ₚ sel) by apply merge_sort_Permutation.
  assert (Hnd : NoDup (merge_sort id_ge sel)).
  { rewrite Hperm. apply NoDup_filter. by apply jobs_in_order_NoDup. }
  assert (Hel : forall j, j ∈ merge_sort id_ge sel <-> jobs (mem (store d)) !! ID j = Some j /\ P j).
  { intros j. rewrite Hperm. unfold sel. rewrite list_elem_of_filter, elem_of_jobs.
    split; [|by intros [H1 H2]; split; [|by eexists]]. intros [H1 [i H2]]. split; [|done].
    by rewrite (wf_keys _ Hwf _ _ H2). }
  split; [|split; [done|split]].
  - intros j. rewrite Hel. unfold P, list_match. rewrite andb_true_iff, !orb_true_iff, !bool_decide_eq_true.
    assert (Hst : stateFromProto (LJState req) = StateUnspecified \/ JState j = stateFromProto (LJState req) <->
      stateFromProto (LJState req) = StateUnspecified \/ stateToProto (JState j) = LJState req).
    { apply state_matches. }
    tauto.
  - apply (sorted_newest_first (mem (store d))); [done| |done|].
    + apply StronglySorted_merge_sort; apply _.
    + intros j [H _]%Hel. by eexists.
  - f_equal. destruct (Z.ltb_spec 0 (LJLimit req)); cbn [andb]; [|done].
    destruct (Z.ltb_spec (LJLimit req) (Z.of_nat (length (merge_sort id_ge sel)))); [done|].
    rewrite take_ge; [done|lia].
Qed.

(** The counts of [Stats], as one would define them. *)
Definition in_state (st : State) (js : list Job) : Z :=
  Z.of_nat (length (filter (fun j => JState j = st) js)).

Definition tally (q : string) (js : list Job) : QueueStats :=
  mkQueueStats q (in_state StatePending js) (in_state StateLeased js) (in_state StateRetryWait js)
    (in_state StateDone js) (in_state StateDeadLetter js).

Definition of_queue (q : string) (js : list Job) : list Job := filter (fun j => Queue j = q) js.
Definition wanted (queue : string) (js : list Job) : list Job :=
  filter (fun j => queue = "" \/ Queue j = queue) js.

Lemma in_state_snoc st js j :
  in_state st (js ++ [j]) = in_state st js + (if decide (JState j = st) then 1 else 0).
Proof.
  unfold in_state. rewrite filter_app, length_app. cbn. case_decide; cbn; lia.
Qed.

Lemma count_tally q js j : count_job j (tally q js) = tally q (js ++ [j]).
Proof.
  unfold tally, count_job. rewrite !in_state_snoc.
  destruct (JState j); repeat (rewrite decide_True by done || rewrite decide_False by done);
    cbn; by rewrite ?Z.add_0_r.
Qed.

Lemma stats_fold queue js :
  let acc := fold_left (stats_step queue) js (∅, 0) in
  acc.2 = Z.of_nat (length (wanted queue js)) /\
  forall q, acc.1 !! q = (let l := of_queue q (wanted queue js) in
                          if decide (l = []) then None else Some (tally q l)).
Proof.
  induction js as [|j js IH] using rev_ind; [by split|]. rewrite fold_left_app. cbn [fold_left].
  destruct (fold_left (stats_step queue) js (∅, 0)) as [m n] eqn:Ef. cbn zeta in *. destruct IH as [Hn Hm].
  cbn [fst snd] in *. unfold stats_step. cbn [fst snd].
  assert (Hw : wanted queue (js ++ [j]) =
    wanted queue js ++ (if decide (queue = "" \/ Queue j = queue) then [j] else [])).
  { unfold wanted. rewrite filter_app. f_equal. }
  rewrite Hw. destruct (decide (queue = "" \/ Queue j = queue)) as [Hj|Hj].
  2:{ rewrite !bool_decide_false by tauto. cbn [negb andb]. rewrite app_nil_r. by split. }
  assert (E : negb (bool_decide (queue = "")) && negb (bool_decide (Queue j = queue)) = false).
  { case_bool_decide; case_bool_decide; cbn; tauto. }
  rewrite E. cbn [fst snd]. split; [rewrite length_app; cbn; lia|]. intros q.
  assert (Hq : of_queue q (wanted queue js ++ [j]) =
    of_queue q (wanted queue js) ++ (if decide (Queue j = q) then [j] else [])).
  { unfold of_queue. rewrite filter_app. f_equal. }
  rewrite Hq. destruct (decide (Queue j = q)) as [<-|Hne].
  - rewrite lookup_insert_eq, (decide_False (P := of_queue (Queue j) (wanted queue js) ++ [j] = []))
      by (by intros [_ ?]%app_nil).
    rewrite <- count_tally, Hm. cbv zeta. f_equal. f_equal.
    destruct (decide (of_queue (Queue j) (wanted queue js) = [])) as [El|El]; [by rewrite El|done].
  - by rewrite lookup_insert_ne, app_nil_r.
Qed.

(** [Stats] counts: there is one entry for each queue that has a job (of
    the queue asked for, or of all), the entries are in the order of their
    queues, each holds the number of the queue's jobs in every state, and the
    total is the number of jobs counted. *)
Lemma stats_exact queue d :
  let js := wanted queue (jobs_in_order (jobs (mem (store d)))) in
  let st := Stats queue d in
  TotalJobs st = Z.of_nat (length js) /\
  (forall e, e ∈ StatsQueues st <->
     of_queue (SQueue e) js <> [] /\ e = tally (SQueue e) (of_queue (SQueue e) js)) /\
  NoDup (StatsQueues st) /\
  StronglySorted (fun a b => str_ltb (SQueue b) (SQueue a) = false) (StatsQueues st).
Proof.
  unfold Stats, Stats_of. cbv zeta.
  pose proof (stats_fold queue (jobs_in_order (jobs (mem (store d))))) as [Hn Hm].
  destruct (fold_left _ _ _) as [m n]. cbn [fst snd TotalJobs StatsQueues] in *.
  set (js := wanted queue _) in *.
  assert (Hkey : forall q e, m !! q = Some e -> SQueue e = q).
  { intros q e H. rewrite Hm in H. cbv zeta in H. case_decide; [done|]. by injection H as <-. }
  split; [done|]. split; [|split].
  - intros e. rewrite merge_sort_Permutation, list_elem_of_In, in_map_iff. split.
    + intros ([q e'] & Heq & H%list_elem_of_In%elem_of_map_to_list). cbn in Heq. subst e'.
      rewrite (Hkey _ _ H). rewrite Hm in H. cbv zeta in H. case_decide; [done|]. by injection H.
    + intros [Hne He]. exists (SQueue e, e). split; [done|].
      apply list_elem_of_In, elem_of_map_to_list. rewrite Hm. cbv zeta. rewrite decide_False by done.
      by rewrite <- He.
  - rewrite merge_sort_Permutation. apply (NoDup_fmap_1 SQueue).
    change (map snd (map_to_list m)) with (snd <$> map_to_list m). rewrite <- list_fmap_compose.
    replace ((SQueue ∘ snd) <$> map_to_list m) with ((map_to_list m).*1);
      [apply NoDup_fst_map_to_list|].
    apply list_fmap_ext. intros i [q e] Hi. cbn. symmetry.
    apply Hkey, elem_of_map_to_list. by eapply list_elem_of_lookup_2.
  - apply StronglySorted_merge_sort; [|].
    + intros a b c H1 H2. unfold queue_le in *. destruct (str_ltb (SQueue c) (SQueue a)) eqn:E; [|done].
      destruct (str_ltb (SQueue a) (SQueue b)) eqn:Eb.
      * by rewrite (str_ltb_trans _ _ _ E Eb) in H2.
      * by rewrite (str_ltb_total _ _ Eb H1), H2 in E.
    + intros a b. unfold queue_le. destruct (str_ltb (SQueue b) (SQueue a)) eqn:E; [right|by left].
      by apply str_ltb_asym.
Qed.
End Rpc.

(** ** Witnesses *)

Definition demo_broker : Dispatcher (L := Log) := NewDispatcher store2.

Lemma store_poison_ok (s : Store (L := Log)) : failed s = None -> poison_ok s.
Proof. unfold poison_ok. by intros ->. Qed.

Lemma lease_duration_granted_witness : clampLease (of_ms 1500) = 1500 * Millisecond.
Proof.
  assert (H : 1000 <= 1500 <= 3600000) by lia.
  exact (proj1 (proj2 (lease_duration_granted 1500)) H).
Defined.

Lemma lease_stream_admitted_witness :
  exists st, objs (register "mail" "w9" 1 DefaultLeaseDuration demo_broker).2 = [st] /\ workerID st <> "".
Proof.
  pose proof (lease_stream_admitted (mkLeaseRequest "mail" "" 0 0) "w9" demo_broker) as H.
  destruct H as (st & Ho & _ & _ & _ & Hw & _). exists st. split; [exact Ho|]. apply Hw. discriminate.
Defined.

Definition demo_ack : AckRequest := mkAckRequest "job-1" 1 "w1".
Definition demo_nack : NackRequest := mkNackRequest "job-1" 1 "w1" "".

Lemma demo_broker_wf : store_wf (store demo_broker).
Proof. unfold demo_broker, NewDispatcher. cbn [store]. exact (proj1 store2_healthy). Qed.

Lemma demo_broker_mem : mem_wf (mem (store demo_broker)).
Proof. exact (inv_mem _ _ _ _ demo_broker_wf). Qed.

Lemma demo_broker_poison : poison_ok (store demo_broker).
Proof. apply store_poison_ok. vm_compute. reflexivity. Qed.

Lemma report_rpcs_witness :
  let '(r, d') := Ack demo_ack demo_broker in
  report_post (AckJobId demo_ack) (AckEpoch demo_ack) (fun b => b) (fun j j' => j' = ack_job j) demo_broker r d'.
Proof.
  pose proof (report_rpcs demo_ack demo_nack 4000 no_jitter demo_broker
    demo_broker_mem demo_broker_poison) as [H _]. exact H.
Defined.

Definition demo_submit : SubmitRequest :=
  mkSubmitRequest "mail" (list_ascii_of_string "echo") "shell" "key-1" PRIORITY_HIGH 1 0.

Lemma submit_rpc_witness :
  let '(r, d') := Submit demo_submit "job-2" 5000 demo_broker in
  submit_post demo_submit "job-2" 5000 demo_broker r d'.
Proof.
  assert (Hnew : jobs (mem (store demo_broker)) !! "job-2"%string = None) by (vm_compute; reflexivity).
  pose proof (submit_rpc demo_submit "job-2" 5000 demo_broker demo_broker_wf demo_broker_poison Hnew) as H.
  exact H.
Defined.

Lemma replay_rpc_witness :
  (ReplayJob "job-1" 5000 demo_broker).1 = inl (ConnectError CodeFailedPrecondition ErrNotDeadLettered).
Proof.
  pose proof (replay_rpc "job-1" 5000 demo_broker demo_broker_wf demo_broker_poison) as H.
  destruct (ReplayJob "job-1" 5000 demo_broker) as [r d'].
  assert (E : jobs (mem (store demo_broker)) !! "job-1"%string = Some demo_leased)
    by (vm_compute; reflexivity).
  rewrite E in H. exact (proj1 H).
Defined.
