(* ===== verification/LeaseStream.v ===== *)
(** * LeaseStream: the handler that streams jobs to a worker

    The loop of [Server.Lease] takes jobs off the channel of its stream and
    sends each to the worker, until the worker hangs up or a send fails. Here
    it runs among all the other steps of the dispatcher. *)
From S2P Require Import Prelude Job Heap Index Framing LogSpec Event Memory MemSpec Store StoreSpec System.
From S2P Require Import Wal WalSpec Snapshot SnapshotSpec Life Demo Dispatcher DispatchSpec DispatchProps Server.

Section Stream.
Context {L : Type} {lops : LogOps L} {codec : EventCodec} {E : Type}.
Implicit Types (w : world) (d : Dispatcher).

(** One handler: the world it runs in, the messages it has sent, oldest first,
    the job it has taken and not sent, and its result once it has returned,
    [nil] or the error of [Send]. *)
Record handler := mkHandler {
  around : world;
  messages : list LeaseResponse;
  unsent : option Job;
  returned : option (option E)
}.

Definition with_disp d w : world := mkWorld d (at_ w) (committing w) (finishing w) (sent w).

(** The case [j := <-st.ch] of the select. *)
Definition receive (p : nat) w : option (Job * world) :=
  match objs (disp w) !! p with
  | Some st =>
      match ch st with
      | j :: js => Some (j, with_disp (with_objs (<[p := set_ch js st]> (objs (disp w))) (disp w)) w)
      | [] => None
      end
  | None => None
  end.

(** The case [<-ctx.Done()]. *)
Definition hung_up (p : nat) w : bool :=
  match objs (disp w) !! p with Some st => cancelled st | None => false end.

(** The deferred [unregister]. *)
Definition leave (p : nat) w : world := with_disp (unregister p (disp w)) w.

(** The select; [pick] is the choice of the runtime when both cases are ready.
    [None]: the handler is not there, or neither case is ready. *)
Definition Lease_select (pick : bool) (p : nat) (h : handler) : option handler :=
  match returned h, unsent h with
  | None, None =>
      let done := hung_up p (around h) in
      match (if done && pick then None else receive p (around h)) with
      | Some (j, w) => Some (mkHandler w (messages h) (Some j) None)
      | None => if done then Some (mkHandler (around h) (messages h) None (Some None)) else None
      end
  | _, _ => None
  end.

(** [stream.Send], which returns [failure]; the job of a failed send stays
    leased. *)
Definition Lease_send (failure : option E) (h : handler) : option handler :=
  match returned h, unsent h with
  | None, Some j =>
      match failure with
      | None => Some (mkHandler (around h) (messages h ++ [lease_response j]) None None)
      | Some e => Some (mkHandler (around h) (messages h) (Some j) (Some (Some e)))
      end
  | _, _ => None
  end.

Definition chan (p : nat) w : list Job :=
  match objs (disp w) !! p with Some st => ch st | None => [] end.

(** The handler of stream [p] among the steps of everybody else; nobody else
    receives from its channel. *)
Inductive handler_step (p : nat) : handler -> handler -> Prop :=
  | selects pick h h' : Lease_select pick p h = Some h' -> handler_step p h h'
  | sends failure h h' : Lease_send failure h = Some h' -> handler_step p h h'
  | deferred w ms x r :
      handler_step p (mkHandler w ms x (Some r)) (mkHandler (leave p w) ms x (Some r))
  | elsewhere w w' ms x r :
      run_step w w' -> handler_step p (mkHandler w ms x r) (mkHandler w' ms x r)
  | others w w' ms x r :
      env_step w w' -> chan p w' = chan p w ->
      handler_step p (mkHandler w ms x r) (mkHandler w' ms x r).

(** What the dispatcher has handed to the stream, oldest first. *)
Definition handed (p : nat) w : list Job :=
  rev (map snd (filter (fun pj : nat * Job => pj.1 = p) (sent w))).

(** The handler as it enters the loop. *)
Definition entered (w : world) : handler := mkHandler w [] None None.

(** ** Every step keeps the books of the stream *)

Lemma handed_cons p d l c f pj sent :
  handed p (mkWorld d l c f (pj :: sent)) =
  handed p (mkWorld d l c f sent) ++ (if decide (pj.1 = p) then [pj.2] else []).
Proof.
  unfold handed. cbn [Dispatcher.sent]. rewrite filter_cons. case_decide; cbn; [done|by rewrite app_nil_r].
Qed.

(** A change of a stream that leaves its channel alone. *)
Lemma chan_alter p q f w w' :
  (forall st, ch (f st) = ch st) -> objs (disp w') = alter f q (objs (disp w)) -> chan p w' = chan p w.
Proof.
  intros Hf E'. unfold chan. rewrite E'. destruct (decide (q = p)) as [->|Hne].
  - rewrite list_lookup_alter_eq. destruct (objs (disp w) !! p); cbn; [by rewrite Hf|done].
  - by rewrite list_lookup_alter_ne.
Qed.

Lemma chan_same p w w' : objs (disp w') = objs (disp w) -> chan p w' = chan p w.
Proof. unfold chan. by intros ->. Qed.

Lemma chan_release p id w w' : disp w' = release id (disp w) -> chan p w' = chan p w.
Proof.
  intros H. unfold release in H. destruct (jobOwner (disp w) !! id) as [q|].
  - eapply (chan_alter p q _ w w'); [|by rewrite H]. intros st. cbn. by destruct (0 <? inFlight st).
  - apply chan_same. by rewrite H.
Qed.

Lemma lease_for_objs p now d oj d' : lease_for p now d = (oj, d') -> objs d' = objs d.
Proof.
  unfold lease_for. destruct (objs d !! p); [|by intros [= _ <-]].
  destruct (Lease _ _ _ _ _) as [r s']. by intros [= _ <-].
Qed.

(** The loop of the dispatcher appends to the channel what it hands over. *)
Lemma run_chan p w w' : run_step w w' ->
  exists js, chan p w' = chan p w ++ js /\ handed p w' = handed p w ++ js.
Proof.
  assert (same : forall w w', chan p w' = chan p w -> sent w' = sent w ->
    exists js, chan p w' = chan p w ++ js /\ handed p w' = handed p w ++ js).
  { intros w1 w2 H1 H2. exists []. rewrite !app_nil_r. unfold handed. by rewrite H2. }
  destruct 1 as [| | | | |? ? ? ? ? ? ? ? ? ? ? Hl|? ? ? ? ? ? ? ? ? ? ? ? Hl|
    d all todo pl q j c f h|d all todo pl q j pick d' c f h Hs|? ? ? ? ? ? ? ? ? ? ? Hs| |];
    try (apply same; [|done]; by apply chan_same).
  - apply same; [|done]. by eapply chan_release.
  - apply same; [|done]. apply chan_same. by eapply lease_for_objs.
  - apply same; [|done]. apply chan_same. by eapply lease_for_objs.
  - apply same; [|done].
    by apply (chan_alter p q (fun st => set_inFlight (inFlight st + 1) st)).
  - unfold send in Hs. destruct (objs d !! q) as [st|] eqn:Eq; [|done].
    destruct (chan_has_room st && _); [|by destruct (cancelled st)]. injection Hs as <-.
    exists (if decide (q = p) then [j] else []). rewrite handed_cons. split; [|done].
    unfold chan. cbn. case_decide as Ep.
    + subst q. rewrite list_lookup_insert_eq by (by eapply lookup_lt_Some). by rewrite Eq.
    + rewrite list_lookup_insert_ne by done. by rewrite app_nil_r.
  - apply same; [|done]. apply chan_same. unfold send in Hs. destruct (objs _ !! _); [|done].
    destruct (chan_has_room _ && _); [done|]. destruct (cancelled _); [|done]. by injection Hs as <-.
Qed.

Lemma env_sent w w' : env_step w w' -> sent w' = sent w.
Proof. by destruct 1. Qed.

Lemma receive_step p w j w' :
  receive p w = Some (j, w') ->
  env_step w w' /\ sent w' = sent w /\ chan p w = j :: chan p w'.
Proof.
  unfold receive, chan. destruct w as [d l c f h]. cbn [disp].
  destruct (objs d !! p) as [st|] eqn:Ep; [|done]. destruct (ch st) as [|j' js] eqn:Ec; [done|].
  intros [= -> <-]. split; [by eapply env_receive|]. split; [done|]. cbn.
  by rewrite list_lookup_insert_eq by (by eapply lookup_lt_Some).
Qed.

Lemma leave_step p w :
  env_step w (leave p w) /\ sent (leave p w) = sent w /\ chan p (leave p w) = chan p w.
Proof.
  destruct w as [d l c f h]. split; [apply env_unregister|]. split; [done|].
  apply chan_same. cbn. unfold unregister. by destruct (objs d !! p).
Qed.

(** What the stream has been handed is with the worker, with the handler or
    still in the channel. *)
Record stream_ok (w0 : world) (p : nat) (h : handler) : Prop := {
  so_reach : reaches w0 (around h);
  so_books : exists js, messages h = map lease_response js /\
    handed p (around h) = js ++ option_list (unsent h) ++ chan p (around h);
  so_result : match returned h with
              | None => True
              | Some None => unsent h = None
              | Some (Some _) => exists j, unsent h = Some j
              end
}.

Lemma books_frame p w w' : sent w' = sent w -> handed p w' = handed p w.
Proof. unfold handed. by intros ->. Qed.

Lemma stream_ok_step w0 p h h' : stream_ok w0 p h -> handler_step p h h' -> stream_ok w0 p h'.
Proof.
  intros [Hr (js & Hm & Hb) He] Hst.
  destruct Hst as [pick h h' H|failure h h' H|w ms x r|w w' ms x r H|w w' ms x r H Hc].
  - unfold Lease_select in H. destruct (returned h) eqn:Er; [done|].
    destruct (unsent h) eqn:Eu; [done|]. cbv zeta in H.
    destruct (if hung_up p (around h) && pick then None else receive p (around h)) as [[j w]|] eqn:Erc.
    + injection H as <-. destruct (_ && pick); [done|].
      apply receive_step in Erc as (Hst & Hs & Hch). split; [|exists js|done].
      * eapply rtc_r; [exact Hr|by right].
      * split; [done|]. cbn [around unsent messages option_list]. rewrite (books_frame p _ _ Hs), Hb.
        cbn [option_list app]. by rewrite Hch.
    + destruct (hung_up p (around h)); [|done]. injection H as <-. split; [done|by exists js|done].
  - unfold Lease_send in H. destruct (returned h) eqn:Er; [done|].
    destruct (unsent h) as [j|] eqn:Eu; [|done]. destruct failure as [e|]; injection H as <-.
    + split; [done| |by exists j]. by exists js.
    + split; [done| |done]. exists (js ++ [j]). cbn. rewrite Hm, map_app. split; [done|].
      rewrite Hb. cbn. by rewrite <- app_assoc.
  - destruct (leave_step p w) as (Hst & Hs & Hch). split; [|exists js|done].
    + eapply rtc_r; [exact Hr|by right].
    + split; [done|]. cbn [around unsent]. by rewrite (books_frame p _ _ Hs), Hch.
  - destruct (run_chan p w w' H) as (ks & Hc & Hh). split; [|exists js|done].
    + eapply rtc_r; [exact Hr|by left].
    + split; [done|]. cbn [around unsent] in *. by rewrite Hh, Hc, Hb, !app_assoc.
  - split; [|exists js|done].
    + eapply rtc_r; [exact Hr|by right].
    + split; [done|]. cbn [around unsent] in *. by rewrite Hc, (books_frame p _ _ (env_sent _ _ H)).
Qed.

(** No step changes what a stream was opened for. *)
Lemma same_step w w' : step w w' -> same_streams (disp w) (disp w').
Proof.
  assert (Hrel : forall id d, same_streams d (release id d)).
  { intros id d. destruct (release_objs id d) as [_ [Ho|[q Ho]]]; [by apply same_streams_refl|].
    eapply same_streams_alter; [|exact Ho]. intros st. cbn. by destruct (0 <? inFlight st). }
  intros [Hst|Hst].
  - destruct Hst as [| | | | |? ? ? ? ? ? ? ? ? ? ? Hl|? ? ? ? ? ? ? ? ? ? ? ? Hl|
      d all todo pl q j c f h|d all todo pl q j pick d' c f h Hs|? ? ? ? ? ? ? ? ? ? ? Hs| |];
      try by apply same_streams_refl.
    + apply Hrel.
    + by apply same_streams_refl, (lease_for_objs _ _ _ _ _ Hl).
    + by apply same_streams_refl, (lease_for_objs _ _ _ _ _ Hl).
    + by eapply same_streams_alter with (f := fun st => set_inFlight (inFlight st + 1) st).
    + unfold send in Hs. destruct (objs d !! q) as [st|] eqn:Eq; [|done].
      destruct (chan_has_room st && _); [|by destruct (cancelled st)]. injection Hs as <-.
      by eapply same_streams_insert with (st' := set_ch (ch st ++ [j]) st).
    + apply same_streams_refl. unfold send in Hs. destruct (objs _ !! _); [|done].
      destruct (chan_has_room _ && _); [done|]. destruct (cancelled _); [|done]. by injection Hs as <-.
  - destruct Hst as [d q wk max dur l c f h _|d p l c f h|d p l c f h|d p st j js l c f h Hp Hch
      | | | |d id l c f1 f2 h| ]; try by apply same_streams_refl.
    + intros p st Hst. exists st. cbn. rewrite lookup_app_l; [done|]. by eapply lookup_lt_Some.
    + apply same_streams_refl. cbn. unfold unregister. by destruct (objs d !! p).
    + by eapply same_streams_alter with (f := set_cancelled).
    + by eapply same_streams_insert with (st' := set_ch js st).
    + apply Hrel.
Qed.

Lemma same_reaches w w' p st :
  reaches w w' -> objs (disp w) !! p = Some st ->
  exists st', objs (disp w') !! p = Some st' /\ wqueue st' = wqueue st.
Proof.
  intros Hr. revert st. induction Hr as [w|w w1 w2 Hs _ IH]; intros st Hp; [by exists st|].
  destruct (same_step _ _ Hs _ _ Hp) as (st1 & Hp1 & Hq & _).
  destruct (IH _ Hp1) as (st2 & Hp2 & Hq2). exists st2. by rewrite <- Hq.
Qed.

Lemma handed_sorted p w :
  StronglySorted (fun x y : nat * Job => (Epoch y.2 < Epoch x.2)%N) (sent w) ->
  StronglySorted (fun a b => (Epoch a < Epoch b)%N) (handed p w).
Proof.
  unfold handed. induction (sent w) as [|[q j] h IH]; intros Hs; [constructor|].
  apply StronglySorted_inv in Hs as [Hs Hall]. specialize (IH Hs). rewrite filter_cons.
  case_decide; [|done]. cbn. apply StronglySorted_app. split_and!; [|done|].
  - intros a b Ha ->%list_elem_of_singleton. apply list_elem_of_In, in_rev, in_map_iff in Ha
      as ([q' a'] & <- & Ha%list_elem_of_In%list_elem_of_filter).
    rewrite Forall_forall in Hall. by apply (Hall _ (proj2 Ha)).
  - repeat constructor.
Qed.

Lemma handed_sent p w j : j ∈ handed p w -> (p, j) ∈ sent w.
Proof.
  unfold handed. intros Hj%list_elem_of_In%in_rev%in_map_iff.
  destruct Hj as ([q j'] & <- & Hin%list_elem_of_In%list_elem_of_filter). cbn in Hin.
  by destruct Hin as [<- ?].
Qed.

(** C31: A worker gets its jobs in the order they were leased, each once, and
    no others. Whatever the dispatcher, the other streams, the workers and the
    clients do meanwhile: the messages a stream has sent are those of the first
    jobs handed to it, one each and in order, and every job handed to it that
    was not sent is still in its channel or is the one whose send is under way
    or has failed; the messages are for the queue the worker asked for, and
    their fencing tokens strictly increase. *)
Theorem stream_in_order (s : Store) w req newID p d' h :
  store_wf s -> reaches (start (NewDispatcher s)) w ->
  Lease_open req newID (disp w) = inr (p, d') ->
  rtc (handler_step p) (entered (with_disp d' w)) h ->
  exists js, messages h = map lease_response js /\
    handed p (around h) = js ++ option_list (unsent h) ++ chan p (around h) /\
    Forall (fun m => LQueue m = LRQueue req) (messages h) /\
    StronglySorted (fun a b => (LEpoch a < LEpoch b)%N) (messages h) /\
    (forall e, returned h = Some (Some e) -> exists j, unsent h = Some j).
Proof.
  intros Hwf Hw Hopen Hrun. set (w0 := with_disp d' w) in *.
  assert (Hreg : exists st, objs d' !! p = Some st /\ ch st = [] /\ wqueue st = LRQueue req /\
    env_step w w0 /\ p = length (objs (disp w))).
  { unfold Lease_open in Hopen. case_bool_decide; [done|]. injection Hopen as <- <-.
    eexists. split; [cbn; by rewrite lookup_app_r, Nat.sub_diag by lia|].
    split; [done|]. split; [done|]. split; [|done]. unfold w0. destruct w. apply env_register.
    destruct (Z.ltb_spec (LRMaxInFlight req) 1); lia. }
  destruct Hreg as (st & Hp & Hch & Hq & Henv & Hlen).
  pose proof (leases_reaches _ _ Hw (leases_start s Hwf)) as Hl.
  assert (Hnone : handed p w0 = []).
  { destruct (handed p w0) as [|j js] eqn:E'; [done|].
    assert (Hin : (p, j) ∈ sent w) by (apply (handed_sent p w0); rewrite E'; left).
    pose proof (wl_meant _ Hl) as Hm. unfold leases in Hm. rewrite Forall_app in Hm.
    destruct (proj1 (Forall_forall _ _) (proj2 Hm) _ Hin) as (st' & Hst' & _).
    apply lookup_lt_Some in Hst'. cbn in Hst'. lia. }
  assert (Hok : stream_ok w0 p h).
  { assert (H0 : stream_ok w0 p (entered w0)).
    { split; [done| |done]. exists []. split; [done|]. cbn [around unsent entered option_list app].
      rewrite Hnone. unfold chan. cbn. by rewrite Hp. }
    clear -Hrun H0. induction Hrun as [|h1 h2 h3 Hs _ IH]; [done|].
    apply IH. by eapply stream_ok_step. }
  destruct Hok as [Hr (js & Hm & Hb) He]. exists js.
  pose proof (leases_reaches _ _ Hr (leases_env _ _ Hl Henv)) as [_ Hmeant _ Hord _].
  unfold leases in Hmeant, Hord. rewrite Forall_app in Hmeant. destruct Hmeant as [_ Hmeant].
  assert (Hsort : StronglySorted (fun a b => (Epoch a < Epoch b)%N) js).
  { assert (Hh : StronglySorted (fun a b => (Epoch a < Epoch b)%N) (handed p (around h))).
    2:{ rewrite Hb in Hh. by apply StronglySorted_app in Hh as (_ & Hjs & _). }
    apply handed_sorted. by destruct (at_ (around h)); cbn in Hord; try done; apply StronglySorted_inv in Hord as [? _]. }
  split; [done|]. split; [done|]. rewrite Hm. split_and!.
  - rewrite Forall_map. apply Forall_forall. intros j Hj. cbn.
    destruct (same_reaches _ _ _ _ Hr Hp) as (st' & Hst' & Hq').
    assert (Hin : (p, j) ∈ sent (around h)).
    { apply handed_sent. rewrite Hb. apply elem_of_app. by left. }
    destruct (proj1 (Forall_forall _ _) Hmeant _ Hin) as (st2 & Hst2 & Hq2 & _). cbn in *.
    by simplify_eq; congruence.
  - clear -Hsort. induction Hsort as [|j js Hs IH Hall]; cbn [map]; constructor; [done|].
    rewrite Forall_map. exact Hall.
  - intros e E'. by rewrite E' in He.
Qed.
End Stream.

(** ** Witness *)

Lemma handler_loop {L : Type} {lops : LogOps L} {codec : EventCodec} {E : Type} p acts w w' ms x
    (r : option (option E)) :
  forallb loop_action acts = true -> perform_all acts w = Some w' ->
  rtc (handler_step p) (mkHandler w ms x r) (mkHandler w' ms x r).
Proof.
  revert w. induction acts as [|a acts IH]; cbn; intros w Ha H; [injection H as ->; apply rtc_refl|].
  apply andb_true_iff in Ha as [Ha Hall]. destruct (perform a w) as [w1|] eqn:E'; [|done].
  eapply rtc_l; [apply elsewhere; by eapply perform_loop|by apply IH].
Qed.

Definition demo_stream : LeaseRequest := mkLeaseRequest "mail" "w1" 2 60000.

(** One job leased for the stream, taken off its channel and sent. *)
Definition served (w0 : world) : option (handler (E := string)) :=
  match perform_all (turn 3000) w0 with
  | Some w1 =>
      match Lease_select false 0 (entered w1) with
      | Some h => Lease_send None h
      | None => None
      end
  | None => None
  end.

Lemma served_reach w0 h : served w0 = Some h -> rtc (handler_step 0) (entered w0) h.
Proof.
  unfold served. intros H. destruct (perform_all (turn 3000) w0) as [w1|] eqn:E1; [|done].
  destruct (Lease_select false 0 (entered w1)) as [h1|] eqn:E2; [|done].
  etrans; [by apply (handler_loop 0 (turn 3000))|].
  eapply rtc_l; [by eapply selects|]. eapply rtc_l; [by eapply sends|]. apply rtc_refl.
Qed.

Definition sent_view (x : Code + (nat * Dispatcher)) : option (nat * option (list N)) :=
  match x with
  | inl _ => None
  | inr (p, d') =>
      Some (p, (fun h => map LEpoch (messages h)) <$> served (with_disp d' two_slots))
  end.

Lemma stream_in_order_witness :
  exists h : handler (E := string), map LEpoch (messages h) = [1%N] /\
    exists js, messages h = map lease_response js /\
      handed 0 (around h) = js ++ option_list (unsent h) ++ chan 0 (around h).
Proof.
  assert (Hv : sent_view (Lease_open demo_stream "w9" (disp two_slots)) = Some (0%nat, Some [1%N]))
    by (vm_compute; reflexivity).
  destruct (Lease_open demo_stream "w9" (disp two_slots)) as [|[p d']] eqn:Eo; [discriminate Hv|].
  unfold sent_view in Hv. injection Hv as -> Hv.
  destruct (served (with_disp d' two_slots)) as [h|] eqn:Es; [|discriminate Hv].
  injection Hv as Hv. exists h. split; [exact Hv|].
  destruct (stream_in_order store1 two_slots demo_stream "w9" 0 d' h (proj1 store1_healthy)
    (rtc_refl _ _) Eo (served_reach _ _ Es)) as (js & H1 & H2 & _).
  exists js. exact (conj H1 H2).
Defined.
