(* ===== verification/MetricsProps.v ===== *)
(** * MetricsProps: what the counters and gauges tell

    The counters of a broker that has been up since its recovery account for
    the jobs it keeps, and the depth gauges agree with them. *)
From S2P Require Import Prelude Job Heap Index Framing LogSpec Event Memory MemSpec Store.
From S2P Require Import Wal WalSpec Snapshot StoreSpec System Durability SnapshotSpec Life Demo.
From S2P Require Import Metrics Accounts Dispatcher Server ServerProps.

Lemma weigh_count (P : Job -> Prop) `{forall j, Decision (P j)} m :
  weigh (fun j => one (P j)) m = Z.of_nat (length (filter P (jobs_in_order m))).
Proof.
  unfold weigh. induction (jobs_in_order m) as [|j js IH]; [done|].
  rewrite filter_cons. cbn [foldr]. rewrite IH. unfold one. case_decide; cbn [length]; lia.
Qed.

Definition jobs_of (q : string) (m : gmap string Job) : list Job := of_queue q (jobs_in_order m).

Lemma weigh_state q st m :
  weigh (fun j => one (Queue j = q /\ JState j = st)) m = in_state st (jobs_of q m).
Proof.
  rewrite weigh_count. unfold in_state, jobs_of, of_queue. do 2 f_equal.
  rewrite list_filter_filter. apply list_filter_iff. intros j. tauto.
Qed.

Ltac tally_metrics ms :=
  induction ms as [|[] ms IH]; [reflexivity|..];
  rewrite total_cons, IH, !value_cons;
  cbn [credit queue_book leased_book done_book dead_book update];
  unfold one, CauseHandler, CauseTimeout in *;
  repeat case_decide; simplify_eq; intuition (congruence || lia).

Lemma queue_credits q ms :
  total (credit (queue_book q)) ms = value FJobsSubmitted [q] ms.
Proof. tally_metrics ms. Qed.

(** The jobs out on lease, by the counters. *)
Definition counted_out (q : string) (ms : list metric) : Z :=
  value FJobsLeased [q] ms - value FJobsCompleted [q] ms -
  value FJobsFailed [q; CauseHandler] ms - value FJobsFailed [q; CauseTimeout] ms.

Lemma leased_credits q ms :
  total (credit (leased_book q)) ms = counted_out q ms.
Proof. unfold counted_out. tally_metrics ms. Qed.

Lemma done_credits q ms : total (credit (done_book q)) ms = value FJobsCompleted [q] ms.
Proof. tally_metrics ms. Qed.

Lemma dead_credits q ms :
  total (credit (dead_book q)) ms = value FJobsDeadLettered [q] ms - value FJobsReplayed [q] ms.
Proof. tally_metrics ms. Qed.

(** ** A store that has just been opened *)

Section Up.
Context {L : Type} {lops : LogOps L} {codec : EventCodec} {scodec : SnapCodec}.
Implicit Types (s : Store).

Lemma in_state_none q st (m : gmap string Job) :
  (forall id j, m !! id = Some j -> JState j <> st) -> in_state st (jobs_of q m) = 0.
Proof.
  intros H. unfold in_state. destruct (filter _ _) as [|j js] eqn:E; [done|].
  assert (Hj : j ∈ filter (fun j => JState j = st) (jobs_of q m)) by (rewrite E; left).
  apply list_elem_of_filter in Hj as [Hst Hj]. apply list_elem_of_filter in Hj as [_ Hj].
  apply elem_of_jobs in Hj as [id Hid]. by apply H in Hid.
Qed.

(** The counters start from zero, and no job is out on lease. *)
Lemma opened_counters cfg now (w : L * SnapDir) s w' :
  OpenStore cfg now w = (inr s, w') ->
  metrics s = [] /\ forall q, in_state StateLeased (jobs_of q (jobs (mem s))) = 0.
Proof.
  unfold OpenStore. intros H. repeat match type of H with
  | bind ?m ?k ?x = _ => unfold bind at 1 in H; destruct (m x) as [[?|?] ?]; [discriminate H|]
  end.
  unfold zoom, recover in H.
  destruct (log_replay _ _ _) as [[e|a] [l1 [m lsn]]]; [discriminate H|].
  injection H as <- _. split; [done|]. intros q. apply in_state_none. cbn [mem].
  intros id j (j0 & _ & ->)%recover_lookup. apply recover_job_not_leased.
Qed.

Lemma wanted_all js : wanted "" js = js.
Proof. unfold wanted. induction js as [|j js IH]; [done|]. by rewrite filter_cons_True, IH by auto. Qed.

(** What the gauges show. *)
Lemma depth_leased q x s :
  (q, "leased"%string, x) ∈ refreshQueueDepth (NewDispatcher s) ->
  x = in_state StateLeased (jobs_of q (jobs (mem s))).
Proof.
  unfold refreshQueueDepth. intros (e & Hin%list_elem_of_In & He%list_elem_of_In)%list_elem_of_In%in_flat_map.
  destruct (stats_exact "" (NewDispatcher s)) as (_ & Hq & _). cbv zeta in Hq.
  apply Hq in Hin as [_ Hin]. revert He. rewrite !elem_of_cons, elem_of_nil.
  intros He. assert (SQueue e = q /\ SLeased e = x) as [Eq <-].
  { by destruct_or?; simplify_eq. }
  rewrite Hin, Eq. cbn [SLeased tally]. unfold jobs_of. by rewrite wanted_all.
Qed.

(** C25: The metrics add up. Take a broker from the moment it has recovered and
    let it answer any calls; as long as no flush fails and no sweep for expired
    leases ends in an error, the counters of a queue account for the jobs in
    the store: the jobs in the queue are those recovered plus the submissions
    counted; those out on lease are the deliveries counted, less the reports
    and the reclaims counted; those done and those dead-lettered are the ones
    recovered, plus the completions, and plus the dead letters less the
    replays; and the gauge [refreshQueueDepth] sets for the leased jobs shows
    the same number. *)
Theorem counters_account cfg now (w w' : L * SnapDir) s0 s q :
  OpenStore cfg now w = (inr s0, w') -> store_wf s0 -> calls s0 s ->
  let jobs_at s := jobs_of q (jobs (mem s)) in
  let shows f labels := value f labels (metrics s) in
  let out := counted_out q (metrics s) in
  Z.of_nat (length (jobs_at s)) = Z.of_nat (length (jobs_at s0)) + shows FJobsSubmitted [q] /\
  in_state StateLeased (jobs_at s) = out /\
  in_state StateDone (jobs_at s) = in_state StateDone (jobs_at s0) + shows FJobsCompleted [q] /\
  in_state StateDeadLetter (jobs_at s) =
    in_state StateDeadLetter (jobs_at s0) + shows FJobsDeadLettered [q] - shows FJobsReplayed [q] /\
  (forall x, (q, "leased"%string, x) ∈ refreshQueueDepth (NewDispatcher s) -> x = out).
Proof.
  intros Hopen Hwf Hcalls jobs_at shows out.
  destruct (opened_counters _ _ _ _ _ Hopen) as [Hm0 Hl0].
  assert (go : forall b (laws : BookLaws b), weigh (weight b) (jobs (mem s)) =
    weigh (weight b) (jobs (mem s0)) + total (credit b) (metrics s)).
  { intros b laws. destruct (calls_settle b s0 s Hwf Hcalls) as [_ H].
    unfold drift in H. rewrite Hm0 in H. change (total (credit b) []) with 0 in H. lia. }
  pose proof (go _ (queue_book_laws q)) as Hq. pose proof (go _ (leased_book_laws q)) as Hl.
  pose proof (go _ (done_book_laws q)) as Hd. pose proof (go _ (dead_book_laws q)) as Hx. clear go.
  rewrite queue_credits in Hq. rewrite leased_credits in Hl. rewrite done_credits in Hd.
  rewrite dead_credits in Hx. cbn [weight queue_book leased_book done_book dead_book] in *.
  rewrite !weigh_count in Hq. rewrite !weigh_state in Hl, Hd, Hx. rewrite Hl0 in Hl.
  assert (Hout : in_state StateLeased (jobs_at s) = out) by (unfold jobs_at, out; lia).
  split; [exact Hq|]. split; [exact Hout|]. split; [exact Hd|]. split; [unfold shows, jobs_at; lia|].
  intros x Hx'. rewrite <- Hout. by apply depth_leased.
Qed.
(** A sweep that stops at an error returns the jobs it has taken back so far,
    and never counts them: the counters go on showing them as leased. *)
Theorem sweep_error_uncounted now rnd s ids err s' q :
  store_wf s -> ReclaimExpired now rnd s = (inr (ids, Some err), s') ->
  exists rs : list reclaimed_job, ids = map (fun x => x.1.1) rs /\
    in_state StateLeased (jobs_of q (jobs (mem s'))) - counted_out q (metrics s') =
    in_state StateLeased (jobs_of q (jobs (mem s))) - counted_out q (metrics s) -
    Z.of_nat (length (filter (fun x : reclaimed_job => x.1.2 = q) rs)).
Proof.
  intros Hwf E. pose proof (wp_elim _ _ _ _ _ (Reclaim_settled (leased_book q) now rnd s Hwf) E)
    as (_ & ids' & err' & Heq & H).
  injection Heq as <- <-. destruct H as (rs & -> & H). exists rs. split; [done|].
  unfold drift in H. rewrite !leased_credits in H. cbn [weight leased_book] in H.
  rewrite !weigh_state in H. rewrite H. clear.
  enough (sweep_credit (leased_book q) rs =
    - Z.of_nat (length (filter (fun x : reclaimed_job => x.1.2 = q) rs))) by lia.
  induction rs as [|[[id q'] dead] rs IH]; [done|]. rewrite filter_cons.
  change (sweep_credit _ _) with
    (fail_credit (leased_book q) CauseTimeout q' dead + sweep_credit (leased_book q) rs).
  rewrite IH. unfold fail_credit, one. cbn [credit leased_book fst snd]. unfold one.
  destruct dead; repeat case_decide; cbn [length]; intuition (congruence || lia).
Qed.
End Up.

(** ** Witness *)

Definition up1 : Store := (run_call (CallSubmit demo_params "job-1" 2000) store0).2.
Definition up2 : Store := (run_call (CallLease "mail" "w1" 500 3000) up1).2.
Definition up3 : Store := (run_call (CallReclaim 4000 (fun _ => no_jitter)) up2).2.

Lemma up1_room : epoch_room up1.
Proof. split; vm_compute; reflexivity. Qed.

Lemma up1_runs : run_call (CallSubmit demo_params "job-1" 2000) store0 = (None, up1).
Proof. refine (pair_of_fst (run_call _ _) None _). vm_compute. reflexivity. Qed.
Lemma up2_runs : run_call (CallLease "mail" "w1" 500 3000) up1 = (None, up2).
Proof. refine (pair_of_fst (run_call _ _) None _). vm_compute. reflexivity. Qed.
Lemma up3_runs : run_call (CallReclaim 4000 (fun _ => no_jitter)) up2 = (None, up3).
Proof. refine (pair_of_fst (run_call _ _) None _). vm_compute. reflexivity. Qed.

Lemma up3_calls : calls store0 up3.
Proof.
  refine (calls_then store0 (CallReclaim 4000 (fun _ => no_jitter)) None up2 up3 _ I up3_runs I).
  refine (calls_then store0 (CallLease "mail" "w1" 500 3000) None up1 up2 _ up1_room up2_runs I).
  refine (calls_then store0 (CallSubmit demo_params "job-1" 2000) None store0 up1 (calls_none _) _ up1_runs I).
  vm_compute. reflexivity.
Qed.

Lemma counters_account_witness :
  exists s : Store, calls store0 s /\
    value FJobsFailed ["mail"; CauseTimeout] (metrics s) = 1 /\
    in_state StateLeased (jobs_of "mail" (jobs (mem s))) = counted_out "mail" (metrics s).
Proof.
  exists up3. split; [exact up3_calls|]. split; [vm_compute; reflexivity|].
  destruct (OpenStore_fresh demo_log dir0 demo_config 1000) as (s & l' & Hs & _); [done..|].
  assert (E : store0 = s) by (unfold store0, opened; by rewrite Hs).
  destruct (counters_account demo_config 1000 (demo_log, dir0) (l', dir0) store0 up3 "mail")
    as (_ & H & _).
  - rewrite E. exact Hs.
  - exact (proj1 store0_healthy).
  - exact up3_calls.
  - exact H.
Defined.
