(* ===== verification/Handler.v ===== *)
(** * Handler: how a worker executes a job, [internal/handler]

    [handler.go], [shell.go] and [webhook.go]: what is handed to the shell or
    to the HTTP client, and what is made of the outcome. Running a process is an
    argument; so is the network ([Net]), over which [http.Client.Do] is modelled
    with the redirects it follows. *)
From stdpp Require Import pretty.
From S2P Require Import Prelude Utf8 Job Framing LogSpec Wal Json Rfc3339 Fields.

(** ** [handler.go] *)

Record HJob := mkHJob {
  HID : string;
  HQueue : string;
  HHandler : string;
  HIdempotencyKey : string;
  HPayload : bytes;
  HAttempt : Z
}.

Definition DedupKey (j : HJob) : string :=
  if bool_decide (HIdempotencyKey j = "") then HID j else HIdempotencyKey j.

(** [strconv.Itoa]. *)
Definition Itoa (n : Z) : string := pretty n.

Definition truncate (s : string) (max : nat) : string :=
  let s := TrimSpace s in
  if (String.length s <=? max)%nat then s
  else
    (String.substring 0 max s ++ "... (" ++ Itoa (Z.of_nat (String.length s - max)) ++ " bytes truncated)")%string.

(** A registry maps names to implementations of type [H]. *)
Definition Registry (H : Type) : Type := gmap string H.

Definition Registry_Get {H} (r : Registry H) (name : string) : option H := r !! name.

(** In the order of the runtime's range over the map. *)
Definition Names {H} (r : Registry H) : list string := (map_to_list r).*1.

(** ** [shell.go] *)

Definition maxCapturedOutput : nat := 2048.

Record Shell := mkShell { Program : string; GracefulTimeout : Duration }.
Definition NewShell : Shell := mkShell "sh" (5 * Second).

(** The process [Execute] starts. *)
Record Cmd := mkCmd {
  Argv : list string;
  Env : list string;
  WaitDelay : Duration
}.

Definition shell_cmd (h : Shell) (environ : list string) (j : HJob) : Cmd :=
  let program := if bool_decide (Program h = "") then "sh" else Program h in
  let grace := if GracefulTimeout h <=? 0 then 5 * Second else GracefulTimeout h in
  mkCmd [program; "-c"; string_of_list_ascii (HPayload j)]
    (environ ++ [("CONVEYOR_JOB_ID=" ++ HID j)%string; ("CONVEYOR_QUEUE=" ++ HQueue j)%string;
                 ("CONVEYOR_ATTEMPT=" ++ Itoa (HAttempt j))%string;
                 ("CONVEYOR_DEDUP_KEY=" ++ DedupKey j)%string])
    grace.

(** [run]: [cmd.CombinedOutput]; the result is the error's text, if any. *)
Definition shell_Execute (h : Shell) (environ : list string)
    (run : Cmd -> string * option string) (j : HJob) : option string :=
  let '(out, err) := run (shell_cmd h environ j) in
  match err with
  | None => None
  | Some err =>
      let captured := truncate out maxCapturedOutput in
      if bool_decide (captured = "") then Some err else Some (err ++ ": " ++ captured)%string
  end.

(** ** [webhook.go] *)

Definition maxCapturedBody : nat := 1024.

Record WebhookRequest := mkWebhookRequest {
  URL : string;
  Method : string;
  Headers : gmap string string;
  Body : bytes
}.

(** *** The payload *)

(** A field that goes by the value, not by its text. *)
Definition by_value {T} (d : decoder json T) : decoder (json * bytes) T := fun v t => d v.1 t.

(** A map of texts: [null] makes a nil map, an object adds its members, [null]
    as the empty text. *)
Definition read_header (v : json) : option string :=
  match v with JNull => Some "" | _ => read_text v end.

Fixpoint add_headers (ms : list (bytes * json)) (h : gmap string string) : option (gmap string string) :=
  match ms with
  | [] => Some h
  | (k, v) :: ms =>
      v ← read_header v; add_headers ms (<[string_of_list_ascii (unquote k) := v]> h)
  end.

Definition webhook_fields : fields (json * bytes) WebhookRequest :=
  [("url", by_value (as_text (fun v w => mkWebhookRequest v (Method w) (Headers w) (Body w))));
   ("method", by_value (as_text (fun v w => mkWebhookRequest (URL w) v (Headers w) (Body w))));
   ("headers", fun v w =>
      match v.1 with
      | JNull => Some (mkWebhookRequest (URL w) (Method w) ∅ (Body w))
      | JObj ms => h ← add_headers ms (Headers w); Some (mkWebhookRequest (URL w) (Method w) h (Body w))
      | _ => None
      end);
   ("body", fun v w => Some (mkWebhookRequest (URL w) (Method w) (Headers w) v.2))].

Definition zero_webhook : WebhookRequest := mkWebhookRequest "" "" ∅ [].

(** [json.Unmarshal(j.Payload, &spec)]. *)
Definition decode_webhook (payload : bytes) : option WebhookRequest :=
  v ← parse payload;
  match v with
  | JNull => Some zero_webhook
  | JObj _ => ms ← raw_object payload; set_members webhook_fields ms zero_webhook
  | _ => None
  end.

(** [http.CanonicalHeaderKey]: a key of token bytes gets its words
    capitalised, any other is left alone. *)
Definition is_upper (b : N) : bool := (65 <=? b)%N && (b <=? 90)%N.
Definition is_lower (b : N) : bool := (97 <=? b)%N && (b <=? 122)%N.
Definition token_byte (b : N) : bool :=
  is_upper b || is_lower b || ((48 <=? b)%N && (b <=? 57)%N) ||
  bool_decide (b ∈ [33; 35; 36; 37; 38; 39; 42; 43; 45; 46; 94; 95; 96; 124; 126]%N).

Fixpoint canonical_codes (upper : bool) (l : list N) : list N :=
  match l with
  | [] => []
  | b :: l =>
      let b := if upper && is_lower b then (b - 32)%N
               else if negb upper && is_upper b then (b + 32)%N else b in
      b :: canonical_codes (b =? 45)%N l
  end.

Definition CanonicalHeaderKey (k : string) : string :=
  if forallb token_byte (codes k) then of_codes (canonical_codes true (codes k)) else k.

(** [Header.Set]. *)
Definition header_set (k v : string) (h : gmap string string) : gmap string string :=
  <[CanonicalHeaderKey k := v]> h.

Record HttpRequest := mkHttpRequest {
  RMethod : string;
  RURL : string;
  RBody : bytes;
  RHeader : gmap string string
}.

(** The headers, with those of the payload in the order [order] the runtime
    ranges over them. *)
Definition webhook_headers (spec : WebhookRequest) (order : list (string * string)) (j : HJob) :
    gmap string string :=
  let h := if (0 <? length (Body spec))%nat then header_set "Content-Type" "application/json" ∅ else ∅ in
  let h := fold_left (fun h kv => header_set kv.1 kv.2 h) order h in
  header_set "Conveyor-Attempt" (Itoa (HAttempt j))
    (header_set "Conveyor-Job-Id" (HID j) (header_set "Idempotency-Key" (DedupKey j) h)).

Definition webhook_request (spec : WebhookRequest) (order : list (string * string)) (j : HJob) :
    HttpRequest :=
  mkHttpRequest (if bool_decide (Method spec = "") then "POST" else Method spec) (URL spec)
    (Body spec) (webhook_headers spec order j).

(** *** [http.Client.Do]

    Without a deadline or a cookie jar, as [NewWebhook] makes the client: the
    request goes out, and an answer that redirects is followed. *)

Record HttpResponse := mkHttpResponse {
  StatusCode : Z;
  Location : string;     (** the header, empty when it is missing *)
  RespBody : string
}.

(** What [net/url] and the network decide: whether a method and a URL make a
    request, a reference resolved against a URL, whether headers with secrets
    may follow from one URL to another, the [Referer] for a hop (given the one
    the request asked for), and the answer to the [n]th request. *)
Record Net := mkNet {
  new_request : string -> string -> bool;
  url_parse : string -> string -> option string;
  may_follow : string -> string -> bool;
  referer_for : string -> string -> string -> string;
  round_trip : nat -> HttpRequest -> string + HttpResponse
}.

(** The method of the next request and whether it keeps the body; [None]: the
    answer is no redirect. *)
Definition redirectBehavior (reqMethod : string) (code : Z) : option (string * bool) :=
  if bool_decide (code ∈ [301; 302; 303]) then
    Some (if bool_decide (reqMethod = "GET") || bool_decide (reqMethod = "HEAD") then reqMethod else "GET", false)
  else if bool_decide (code ∈ [307; 308]) then Some (reqMethod, true)
  else None.

Definition sensitive_header (k : string) : bool :=
  bool_decide (k ∈ ["Authorization"; "Www-Authenticate"; "Cookie"; "Cookie2"; "Proxy-Authorization";
                    "Proxy-Authenticate"]).
Definition body_header (k : string) : bool :=
  bool_decide (k ∈ ["Content-Encoding"; "Content-Language"; "Content-Location"; "Content-Type"]).

(** The headers of the first request, for a later one. *)
Definition copy_headers (strip keep : bool) (h : gmap string string) : gmap string string :=
  filter (fun kv => (sensitive_header kv.1 && strip || body_header kv.1 && negb keep) = false) h.

Definition set_referer (ref : string) (h : gmap string string) : gmap string string :=
  if bool_decide (ref = "") then h else header_set "Referer" ref h.

(** The request after [req], whose answer redirects to [u]. *)
Definition next_request (net : Net) (first req : HttpRequest) (method u : string) (strip keep : bool) :
    HttpRequest :=
  let h := copy_headers strip keep (RHeader first) in
  mkHttpRequest method u (if keep then RBody first else [])
    (set_referer (referer_for net (RURL req) u (default "" (h !! "Referer"))) h).

(** [hops] more requests may be made; [n] were. A hop that drops the body, or
    that leaves the site, does so for those after it. *)
Fixpoint http_follow (net : Net) (hops n : nat) (first req : HttpRequest) (strip keep : bool) :
    string + HttpResponse :=
  match hops with
  | O => inl "stopped after 10 redirects"
  | S hops =>
      match round_trip net n req with
      | inl err => inl err
      | inr resp =>
          match redirectBehavior (RMethod req) (StatusCode resp) with
          | None => inr resp
          | Some (method, with_body) =>
              if bool_decide (Location resp = "") then inr resp
              else
                match url_parse net (RURL req) (Location resp) with
                | None => inl "failed to parse Location header"
                | Some u =>
                    let strip := strip || negb (may_follow net (RURL first) u) in
                    let keep := keep && with_body in
                    http_follow net hops (S n) first (next_request net first req method u strip keep) strip keep
                end
          end
      end
  end.

Definition http_Do (net : Net) (req : HttpRequest) : string + HttpResponse :=
  http_follow net 10 0 req req false true.

(** *** [Execute] *)

Inductive webhookError :=
  | NotAWebhook
  | NoURL
  | BuildRequest
  | DoFailed (cause : string)
  | BadStatus (code : Z) (snippet : string).

(** [order] is the order of the range over a map. [None]: success. *)
Definition webhook_Execute (net : Net) (order : gmap string string -> list (string * string)) (j : HJob) :
    option webhookError :=
  match decode_webhook (HPayload j) with
  | None => Some NotAWebhook
  | Some spec =>
      if bool_decide (URL spec = "") then Some NoURL
      else
        let req := webhook_request spec (order (Headers spec)) j in
        if negb (new_request net (RMethod req) (RURL req)) then Some BuildRequest
        else
          match http_Do net req with
          | inl cause => Some (DoFailed cause)
          | inr resp =>
              if (StatusCode resp <? 200) || (300 <=? StatusCode resp) then
                Some (BadStatus (StatusCode resp)
                  (truncate (String.substring 0 maxCapturedBody (RespBody resp)) maxCapturedBody))
              else None
          end
  end.

(** ** The registry of [handler.go] *)

Inductive builtin := BuiltinShell (h : Shell) | BuiltinWebhook.

Definition Default : Registry builtin :=
  <["shell" := BuiltinShell NewShell]> (<["webhook" := BuiltinWebhook]> ∅)%string.
