(* ===== verification/Worker.v ===== *)
(** * Worker: the pool of [internal/worker/pool.go]

    What a pool asks for, how often it renews a lease, and the life of one job
    in it as a step relation: the handler, the heartbeat goroutine and the
    report run concurrently, the answers of the broker come from outside, and
    time passes. *)
From S2P Require Import Prelude Job Server Handler.

Definition reportTimeout : Duration := 10 * Second.

Record Pool := mkPool {
  PoolQueue : string;
  PoolWorkerID : string;
  Concurrency : Z;
  LeaseDuration : Duration
}.

(** [Duration.Milliseconds]. *)
Definition Milliseconds (d : Duration) : Z := Z.quot d Millisecond.

(** The defaults [Run] fills in. *)
Definition pool_defaults (p : Pool) : Pool :=
  mkPool (PoolQueue p) (PoolWorkerID p)
    (if Concurrency p <? 1 then 1 else Concurrency p)
    (if LeaseDuration p <=? 0 then 30 * Second else LeaseDuration p).

(** The request [Run] opens its stream with; [None]: the queue is missing. *)
Definition lease_request (p : Pool) : option LeaseRequest :=
  if bool_decide (PoolQueue p = "") then None
  else
    let p := pool_defaults p in
    Some (mkLeaseRequest (PoolQueue p) (PoolWorkerID p) (i32 (Concurrency p))
            (Milliseconds (LeaseDuration p))).

(** The period of the ticker of [heartbeat]. *)
Definition heartbeat_interval (p : Pool) : Duration :=
  let interval := LeaseDuration p / 3 in
  if interval <? Second then Second else interval.

Definition handler_job (msg : LeaseResponse) : HJob :=
  mkHJob (LJobId msg) (LQueue msg) (LHandler msg) (LIdempotencyKey msg) (LPayload msg) (LAttempt msg).

(** [invoke]: the handler's error, if any; a name nobody registered is one. *)
Definition invoke (reg : Registry (HJob -> option string)) (msg : LeaseResponse) : option string :=
  match Registry_Get reg (LHandler msg) with
  | None => Some ("no handler registered for " ++ LHandler msg)%string
  | Some h => h (handler_job msg)
  end.

(** ** [execute] *)

(** The calls a job makes to the broker, with the answers: [None] is an error
    of the call. *)
Inductive call :=
  | CallHeartbeat (req : HeartbeatRequest) (accepted : option bool)
  | CallAck (req : AckRequest)
  | CallNack (req : NackRequest).

Inductive phase :=
  | Executing
  | Joining (err : option string)      (** [<-heartbeatDone] *)
  | Reporting (err : option string)
  | Finished.

Record exec := mkExec {
  clock : Time;
  cancelled : bool;          (** [cancel] was called, or the parent is done *)
  beating : bool;            (** the heartbeat goroutine is running *)
  stage : phase;
  calls : list call          (** in order *)
}.

Definition execute_start (now : Time) : exec := mkExec now false true Executing [].

(** [time.UnixMilli]. *)
Definition of_unix_ms (ms : Z) : Time := unixEpoch + ms * Millisecond.

(** [jobCtx.Err() != nil]. *)
Definition ctx_done (msg : LeaseResponse) (e : exec) : bool :=
  cancelled e || (of_unix_ms (LLeaseExpiresAtUnixMs msg) <=? clock e).

Definition heartbeat_request (p : Pool) (msg : LeaseResponse) : HeartbeatRequest :=
  mkHeartbeatRequest (LJobId msg) (LEpoch msg) (PoolWorkerID p) (Milliseconds (LeaseDuration p)).

Definition report (p : Pool) (msg : LeaseResponse) (err : option string) : call :=
  match err with
  | Some err => CallNack (mkNackRequest (LJobId msg) (LEpoch msg) (PoolWorkerID p) err)
  | None => CallAck (mkAckRequest (LJobId msg) (LEpoch msg) (PoolWorkerID p))
  end.

Section Execute.
Context (p : Pool) (msg : LeaseResponse).

(** What the goroutines of the job do. *)
Inductive own_step : exec -> exec -> Prop :=
  | step_beat e answer :
      (* a tick; a call on a finished context fails *)
      beating e = true -> (ctx_done msg e = true -> answer = None) ->
      own_step e
        (mkExec (clock e) (cancelled e || bool_decide (answer = Some false))
           (negb (bool_decide (answer = Some false))) (stage e)
           (calls e ++ [CallHeartbeat (heartbeat_request p msg) answer]))
  | step_beat_exit e :
      beating e = true -> ctx_done msg e = true ->
      own_step e (mkExec (clock e) (cancelled e) false (stage e) (calls e))
  | step_handler e err :
      stage e = Executing ->
      own_step e (mkExec (clock e) true (beating e) (Joining err) (calls e))
  | step_join e err :
      stage e = Joining err -> beating e = false ->
      own_step e (mkExec (clock e) (cancelled e) (beating e) (Reporting err) (calls e))
  | step_report e err :
      stage e = Reporting err ->
      own_step e (mkExec (clock e) (cancelled e) (beating e) Finished (calls e ++ [report p msg err])).

(** Time passes; the worker is shut down. *)
Definition at_time (now : Time) (e : exec) : exec :=
  mkExec now (cancelled e) (beating e) (stage e) (calls e).
Definition cancel (e : exec) : exec :=
  mkExec (clock e) true (beating e) (stage e) (calls e).

Inductive step : exec -> exec -> Prop :=
  | step_time e now : clock e <= now -> step e (at_time now e)
  | step_parent e : step e (cancel e)
  | step_own e e' : own_step e e' -> step e e'.

Definition steps : exec -> exec -> Prop := rtc step.
End Execute.
