(* ===== verification/WorkerProps.v ===== *)
(** * WorkerProps: what a worker does with a job, and what a handler passes on

    One report per job, heartbeats that stop when they must, the relation
    between the renewal period and the lease the broker grants; the headers,
    the environment and the error texts the handlers produce. *)
From stdpp Require Import pretty.
From S2P Require Import Prelude Utf8 Job Server Framing LogSpec Wal Json JsonProps Fields FieldsProps Handler Worker.

(** ** The period of the heartbeat *)

(** The lease the broker grants a pool. *)
Definition granted_lease (p : Pool) : Duration := clampLease (of_ms (Milliseconds (LeaseDuration p))).

Lemma granted_ms d : 0 <= d < 2 ^ 63 -> of_ms (Milliseconds d) = d / Millisecond * Millisecond.
Proof.
  intros H. unfold of_ms, Milliseconds. rewrite Z.quot_div_nonneg by (unfold Millisecond, Microsecond; lia).
  apply i64_id. unfold is_i64. pose proof (Z.mul_div_le d Millisecond ltac:(unfold Millisecond, Microsecond; lia)).
  pose proof (Z.div_pos d Millisecond ltac:(lia) ltac:(unfold Millisecond, Microsecond; lia)).
  unfold Millisecond, Microsecond in *. lia.
Qed.

(** C36: the heartbeat renews in time for leases of more than a second and less
    than three hours, and only for those: a lease duration of at least a
    millisecond and up to a second, or of three hours and more, is renewed no
    earlier than the lease the broker granted expires. *)
Theorem heartbeat_in_time p :
  Millisecond <= LeaseDuration p < 2 ^ 63 ->
  heartbeat_interval p < granted_lease p <-> 1001 * Millisecond <= LeaseDuration p < 3 * Hour.
Proof.
  intros H. unfold granted_lease. rewrite granted_ms by (unfold Millisecond, Microsecond in *; lia).
  unfold heartbeat_interval, clampLease, DefaultLeaseDuration, MinLeaseDuration, MaxLeaseDuration,
    Hour, Minute, Second, Millisecond, Microsecond in *.
  change (1000 * 1000) with 1000000 in *. set (d := LeaseDuration p) in *. clearbody d.
  pose proof (Z.mul_div_le d 1000000 ltac:(lia)). pose proof (Z.mul_succ_div_gt d 1000000 ltac:(lia)).
  pose proof (Z.mul_div_le d 3 ltac:(lia)). pose proof (Z.mul_succ_div_gt d 3 ltac:(lia)).
  set (ms := d / 1000000) in *. set (t := d / 3) in *. clearbody ms t.
  repeat case_match; rewrite ?Z.leb_le, ?Z.leb_gt, ?Z.ltb_lt, ?Z.ltb_ge in *; lia.
Qed.

(** ** The life of a job *)

Definition is_beat (p : Pool) (msg : LeaseResponse) (c : call) : Prop :=
  exists answer, c = CallHeartbeat (heartbeat_request p msg) answer.
Definition is_report (p : Pool) (msg : LeaseResponse) (c : call) : Prop := exists err, c = report p msg err.

Section Execute.
Context (p : Pool) (msg : LeaseResponse).
Abbreviation step := (Worker.step p msg) (only parsing).
Abbreviation steps := (Worker.steps p msg) (only parsing).

Record exec_inv (e : exec) : Prop := {
  ei_calls : match stage e with
    | Finished => exists hbs err, calls e = hbs ++ [report p msg err] /\ Forall (is_beat p msg) hbs
    | _ => Forall (is_beat p msg) (calls e)
    end;
  ei_quiet : match stage e with Reporting _ | Finished => beating e = false | _ => True end;
  ei_stopped : stage e <> Executing -> cancelled e = true;
  ei_rejected i req : calls e !! i = Some (CallHeartbeat req (Some false)) ->
    beating e = false /\ cancelled e = true /\
    forall k c, (i < k)%nat -> calls e !! k = Some c -> is_report p msg c
}.

Lemma exec_inv_start now : exec_inv (execute_start now).
Proof. split; cbn; try done. Qed.

Lemma exec_inv_step e e' : exec_inv e -> step e e' -> exec_inv e'.
Proof.
  intros [Hc Hq Hs Hr] Hst.
  destruct Hst as [e now _|e|? ? [e answer Hb Ha|e Hb Hd|e err He|e err He Hb|e err He]]; cbn in *.
  - by split.
  - split; cbn; try done. intros i req Hi. destruct (Hr i req Hi) as (? & _ & ?). by split_and!.
  - assert (Hbeat : is_beat p msg (CallHeartbeat (heartbeat_request p msg) answer)) by (by eexists).
    split; cbn.
    + destruct (stage e); try (apply Forall_app; split; [done|by constructor]). by rewrite Hq in Hb.
    + destruct (stage e); try done; by rewrite Hq in Hb.
    + intros Hne. by rewrite (Hs Hne).
    + intros i req Hi. apply lookup_app_Some in Hi as [Hi|[Hle Hi]].
      * destruct (Hr i req Hi) as (Hf & _). by rewrite Hf in Hb.
      * apply list_lookup_singleton_Some in Hi as [Hi E]. injection E as <- ->. cbn.
        rewrite bool_decide_true, orb_true_r by done. split; [done|]. split; [done|].
        intros k c Hk Hc'. apply lookup_lt_Some in Hc'. rewrite length_app in Hc'. cbn in Hc'. lia.
  - split; cbn; try done.
    + by destruct (stage e).
    + intros i req Hi. destruct (Hr i req Hi) as (_ & ? & ?). by split_and!.
  - rewrite He in *. split; cbn; try done. intros i req Hi.
    destruct (Hr i req Hi) as (? & _ & ?). by split_and!.
  - rewrite He in *. split; cbn; try done. intros _. by apply Hs.
  - rewrite He in *. split; cbn; try done.
    + by exists (calls e), err.
    + intros _. by apply Hs.
    + intros i req Hi. apply lookup_app_Some in Hi as [Hi|[Hle Hi]].
      * destruct (Hr i req Hi) as (? & ? & Hlast). split_and!; [done..|].
        intros k c Hk Hc'. apply lookup_app_Some in Hc' as [Hc'|[_ Hc']]; [by apply (Hlast k)|].
        apply list_lookup_singleton_Some in Hc' as [_ <-]. by exists err.
      * apply list_lookup_singleton_Some in Hi as [_ Hi]. by destruct err.
Qed.

Lemma exec_inv_steps e e' : steps e e' -> exec_inv e -> exec_inv e'.
Proof. intros H. induction H; [done|]. intros Hi. by eapply IHrtc, exec_inv_step. Qed.

(** The handler's result is what gets reported. *)
Definition result (e : exec) : option (option string) :=
  match stage e with Joining err | Reporting err => Some err | _ => None end.

Lemma result_step e e' err :
  step e e' -> result e = Some err ->
  result e' = Some err \/ (stage e' = Finished /\ exists hbs, calls e' = hbs ++ [report p msg err]).
Proof.
  unfold result. intros Hst Hr.
  destruct Hst as [e now _|e|? ? [e answer Hb Ha|e Hb Hd|e err' He|e err' He Hb|e err' He]]; cbn in *;
    try (by left).
  - by rewrite He in Hr.
  - left. by rewrite He in Hr.
  - right. split; [done|]. exists (calls e). rewrite He in Hr. by injection Hr as ->.
Qed.

Lemma finished_stays e e' : exec_inv e -> stage e = Finished -> steps e e' ->
  stage e' = Finished /\ calls e' = calls e.
Proof.
  intros Hi Hf Hst. induction Hst as [|e e1 e2 Hs _ IH]; [done|].
  assert (stage e1 = Finished /\ calls e1 = calls e) as [Hf1 Hc1].
  { pose proof (ei_quiet _ Hi) as Hq. rewrite Hf in Hq.
    destruct Hs as [| |? ? []]; cbn in *; try done; congruence. }
  destruct (IH (exec_inv_step _ _ Hi Hs) Hf1) as [? ->]. done.
Qed.

(** Once the handler is back, the job's own goroutines finish it. *)
Lemma own_finish e err :
  exec_inv e -> result e = Some err ->
  exists k e', (k <= 3)%nat /\ nsteps (own_step p msg) k e e' /\ stage e' = Finished.
Proof.
  intros Hi Hr. unfold result in Hr.
  assert (Hrep : forall e1, stage e1 = Reporting err ->
    exists e', nsteps (own_step p msg) 1 e1 e' /\ stage e' = Finished).
  { intros e1 H1. eexists. split; [apply nsteps_once; by eapply step_report|done]. }
  assert (Hjoin : forall e1, stage e1 = Joining err -> beating e1 = false ->
    exists e', nsteps (own_step p msg) 2 e1 e' /\ stage e' = Finished).
  { intros e1 H1 Hb. destruct (Hrep (mkExec (clock e1) (cancelled e1) (beating e1) (Reporting err) (calls e1)))
      as (e' & Hn & Hf); [done|]. exists e'. split; [|done]. eapply nsteps_l; [by eapply step_join|done]. }
  destruct (stage e) as [|err'|err'|] eqn:Es; try done; injection Hr as ->.
  - destruct (beating e) eqn:Eb.
    + destruct (Hjoin (mkExec (clock e) (cancelled e) false (stage e) (calls e))) as (e' & Hn & Hf); [done..|].
      exists 3%nat, e'. split; [lia|]. split; [|done]. eapply nsteps_l; [|done].
      apply step_beat_exit; [done|]. unfold ctx_done. by rewrite (ei_stopped _ Hi) by congruence.
    + destruct (Hjoin e Es Eb) as (e' & Hn & Hf). exists 2%nat, e'. by split_and!; [lia|..].
  - destruct (Hrep e Es) as (e' & Hn & Hf). exists 1%nat, e'. by split_and!; [lia|..].
Qed.

(** The report that tells the truth about the handler's result. *)
Definition truthful (err : option string) (c : call) : Prop :=
  match err with
  | None => c = CallAck (mkAckRequest (LJobId msg) (LEpoch msg) (PoolWorkerID p))
  | Some err => c = CallNack (mkNackRequest (LJobId msg) (LEpoch msg) (PoolWorkerID p) err)
  end.

Lemma report_truthful err : truthful err (report p msg err).
Proof. by destruct err. Qed.

(** Every job is reported exactly once and truthfully. Whatever the
    interleaving, the calls of a job are heartbeats for its lease, then, once
    the handler is back, at most one report under the same token: [Ack] if it
    returned nil, else [Nack] with its error; nothing follows the report. And
    the report is always reached: when the handler has returned, at most three
    more steps of the worker lead to it. *)
Theorem one_truthful_report now e :
  steps (execute_start now) e ->
  (stage e <> Finished -> Forall (is_beat p msg) (calls e)) /\
  (stage e = Finished -> exists hbs c err, calls e = hbs ++ [c] /\ truthful err c /\
     Forall (is_beat p msg) hbs /\ forall e', steps e e' -> calls e' = calls e) /\
  (forall err e', result e = Some err -> steps e e' -> stage e' = Finished ->
     exists hbs c, calls e' = hbs ++ [c] /\ truthful err c) /\
  (forall err, result e = Some err -> exists k e', (k <= 3)%nat /\ nsteps step k e e' /\ stage e' = Finished).
Proof.
  intros Hst. pose proof (exec_inv_steps _ _ Hst (exec_inv_start now)) as Hi. split; [|split; [|split]].
  - intros Hf. pose proof (ei_calls _ Hi). by destruct (stage e).
  - intros Hf. pose proof (ei_calls _ Hi) as Hc. rewrite Hf in Hc. destruct Hc as (hbs & err & Hc & Hb).
    exists hbs, (report p msg err), err. split; [done|]. split; [apply report_truthful|]. split; [done|].
    intros e' He. by apply (finished_stays e).
  - intros err e' Hr He Hf. revert Hr. induction He as [e|e e1 e2 Hs He IH]; intros Hr.
    + unfold result in Hr. by rewrite Hf in Hr.
    + pose proof (exec_inv_step _ _ Hi Hs) as Hi1.
      destruct (result_step _ _ _ Hs Hr) as [Hr1|(Hf1 & hbs & Hc)].
      * apply IH; [by eapply rtc_r|done..].
      * exists hbs, (report p msg err). split; [|apply report_truthful].
        by destruct (finished_stays e1 e2 Hi1 Hf1 He) as [_ ->].
  - intros err Hr. destruct (own_finish e err Hi Hr) as (k & e' & Hk & Hn & Hf).
    exists k, e'. split; [done|]. split; [|done]. clear -Hn.
    induction Hn; [constructor|]. eapply nsteps_l; [by apply step_own|done].
Qed.

(** C33: a lost lease stops the work: once the broker has rejected a heartbeat,
    the job's context is done, no further heartbeat is sent, and the only call
    that can follow is the report. *)
Theorem rejected_heartbeat_aborts now e i req :
  steps (execute_start now) e -> calls e !! i = Some (CallHeartbeat req (Some false)) ->
  ctx_done msg e = true /\ beating e = false /\
  forall k c, (i < k)%nat -> calls e !! k = Some c -> is_report p msg c.
Proof.
  intros Hst Hc. destruct (ei_rejected _ (exec_inv_steps _ _ Hst (exec_inv_start now)) _ _ Hc) as (Hb & Hx & Hk).
  unfold ctx_done. by rewrite Hx.
Qed.

(** Renewals do not help a long job: the context of a job ends at the
    expiry it was leased with. A run exists in which the broker accepts a
    heartbeat up to the last moment, nothing was cancelled, and the context is
    done when the first lease would have expired, and stays so. *)
Theorem renewal_does_not_extend t0 :
  t0 < of_unix_ms (LLeaseExpiresAtUnixMs msg) ->
  exists e, steps (execute_start t0) e /\ stage e = Executing /\ cancelled e = false /\
    calls e = [CallHeartbeat (heartbeat_request p msg) (Some true)] /\
    clock e = of_unix_ms (LLeaseExpiresAtUnixMs msg) /\
    ctx_done msg e = true /\ forall e', steps e e' -> ctx_done msg e' = true.
Proof.
  intros Ht. set (dl := of_unix_ms (LLeaseExpiresAtUnixMs msg)) in *.
  set (hb := CallHeartbeat (heartbeat_request p msg) (Some true)).
  exists (mkExec dl false true Executing [hb]). split_and!; try done.
  - eapply rtc_l; [apply (step_time p msg _ (dl - 1)); cbn; lia|].
    eapply rtc_l; [apply step_own, (step_beat p msg _ (Some true)); [done|]|].
    { unfold ctx_done. cbn. rewrite (proj2 (Z.leb_gt _ _)); [done|]. fold dl. lia. }
    eapply rtc_l; [apply (step_time p msg _ dl); cbn; lia|]. apply rtc_refl.
  - unfold ctx_done. cbn. apply Z.leb_le. unfold dl. lia.
  - assert (H : dl <= clock (mkExec dl false true Executing [hb])) by (cbn; lia). revert H.
    generalize (mkExec dl false true Executing [hb]). intros e1 H1 e' Hst.
    assert (H : dl <= clock e').
    { induction Hst as [|e1 e2 e3 Hs _ IH]; [done|]. apply IH. destruct Hs as [| |? ? []]; cbn in *; lia. }
    unfold ctx_done. rewrite (proj2 (Z.leb_le _ _)) by done. by rewrite orb_true_r.
Qed.
End Execute.

(** ** What the handlers pass on *)

Lemma header_set_lookup k v h k' :
  header_set k v h !! k' = if decide (CanonicalHeaderKey k = k') then Some v else h !! k'.
Proof. unfold header_set. by rewrite lookup_insert. Qed.

Lemma header_fold_other order h k :
  (forall kv, kv ∈ order -> CanonicalHeaderKey kv.1 <> k) ->
  fold_left (fun h kv => header_set kv.1 kv.2 h) order h !! k = h !! k.
Proof.
  revert h. induction order as [|kv order IH]; intros h H; cbn; [done|].
  rewrite IH by (intros kv' Hin; apply H; by right). rewrite header_set_lookup.
  by rewrite decide_False by (apply H; by left).
Qed.

(** Whatever headers the payload sets, under whatever spelling and in whatever
    order, the request carries the job's deduplication key, its identifier and
    its attempt, and a body without a content type of its own is sent as JSON. *)
Lemma webhook_identifies_job spec order j :
  let h := webhook_headers spec order j in
  h !! "Idempotency-Key"%string = Some (DedupKey j) /\
  h !! "Conveyor-Job-Id"%string = Some (HID j) /\
  h !! "Conveyor-Attempt"%string = Some (Itoa (HAttempt j)) /\
  ((0 < length (Body spec))%nat ->
   (forall kv, kv ∈ order -> CanonicalHeaderKey kv.1 <> "Content-Type"%string) ->
   h !! "Content-Type"%string = Some "application/json"%string).
Proof.
  unfold webhook_headers. cbv zeta. set (h0 := if (0 <? _)%nat then _ else _).
  set (h1 := fold_left _ _ _).
  assert (E1 : CanonicalHeaderKey "Conveyor-Attempt" = "Conveyor-Attempt"%string) by (vm_compute; reflexivity).
  assert (E2 : CanonicalHeaderKey "Conveyor-Job-Id" = "Conveyor-Job-Id"%string) by (vm_compute; reflexivity).
  assert (E3 : CanonicalHeaderKey "Idempotency-Key" = "Idempotency-Key"%string) by (vm_compute; reflexivity).
  rewrite !header_set_lookup, E1, E2, E3. split; [done|]. split; [done|]. split; [done|].
  intros Hb Ho. rewrite !decide_False by done. unfold h1. rewrite header_fold_other by done.
  unfold h0. rewrite (proj2 (Nat.ltb_lt _ _)) by done. vm_compute. reflexivity.
Qed.

Lemma substring_length n s : (n <= String.length s)%nat -> String.length (String.substring 0 n s) = n.
Proof.
  revert n. induction s as [|c s IH]; intros [|n] H; cbn in *; try done; [lia|].
  by rewrite IH by lia.
Qed.

(** Captured output is bounded: what fits is kept, without the blanks
    around it; what does not is cut to exactly the bound, and the note appended
    says by how many bytes, so nothing is dropped silently. *)
Theorem truncate_bounded s max :
  let t := TrimSpace s in
  ((String.length t <= max)%nat -> truncate s max = t) /\
  ((max < String.length t)%nat ->
    exists kept, kept = String.substring 0 max t /\ String.length kept = max /\
      truncate s max =
        (kept ++ "... (" ++ Itoa (Z.of_nat (String.length t) - Z.of_nat max) ++ " bytes truncated)")%string).
Proof.
  cbv zeta. unfold truncate. split; intros H.
  - by rewrite (proj2 (Nat.leb_le _ _)).
  - rewrite (proj2 (Nat.leb_gt _ _)) by done. eexists. split; [done|].
    split; [apply substring_length; lia|]. by rewrite Nat2Z.inj_sub by lia.
Qed.

(** A header whose canonical name no other one of the payload has is passed on. *)
Lemma header_fold_in order h k v :
  (k, v) ∈ order -> (forall kv, kv ∈ order -> CanonicalHeaderKey kv.1 = CanonicalHeaderKey k -> kv = (k, v)) ->
  fold_left (fun h kv => header_set kv.1 kv.2 h) order h !! CanonicalHeaderKey k = Some v.
Proof.
  revert h. induction order as [|kv order IH]; intros h Hin Hu; [by apply elem_of_nil in Hin|]. cbn.
  destruct (decide ((k, v) ∈ order)) as [Ho|Ho].
  - apply IH; [done|]. intros kv' Hk. apply Hu. by right.
  - apply elem_of_cons in Hin as [<-|Hin]; [|done]. rewrite header_fold_other.
    + rewrite header_set_lookup. cbn. by rewrite decide_True.
    + intros kv' Hk E. specialize (Hu kv' ltac:(by right) E). by subst.
Qed.

Definition identifying : list string := ["Idempotency-Key"; "Conveyor-Job-Id"; "Conveyor-Attempt"]%string.

Lemma webhook_passes_header spec order j k v :
  (k, v) ∈ order -> CanonicalHeaderKey k ∉ identifying ->
  (forall kv, kv ∈ order -> CanonicalHeaderKey kv.1 = CanonicalHeaderKey k -> kv = (k, v)) ->
  webhook_headers spec order j !! CanonicalHeaderKey k = Some v.
Proof.
  intros Hin Hno Hu. unfold webhook_headers. rewrite !header_set_lookup.
  unfold identifying in Hno. rewrite !not_elem_of_cons in Hno. destruct Hno as (H1 & H2 & H3 & _).
  assert (E1 : CanonicalHeaderKey "Conveyor-Attempt" = "Conveyor-Attempt"%string) by (vm_compute; reflexivity).
  assert (E2 : CanonicalHeaderKey "Conveyor-Job-Id" = "Conveyor-Job-Id"%string) by (vm_compute; reflexivity).
  assert (E3 : CanonicalHeaderKey "Idempotency-Key" = "Idempotency-Key"%string) by (vm_compute; reflexivity).
  rewrite E1, E2, E3, !decide_False by congruence. by apply header_fold_in.
Qed.

(** *** What a payload says *)

(** The field a member is for: the one of its name, or else one of its name up to
    case. *)
Definition webhook_names : list string := ["url"; "method"; "headers"; "body"]%string.

Definition field_of (key : bytes) : option string :=
  match head (filter (fun n => name n = key) webhook_names) with
  | Some n => Some n
  | None => head (filter (fun n => fold_name (name n) = fold_name key) webhook_names)
  end.

Definition is_for (n : string) (m : bytes * (json * bytes)) : bool :=
  bool_decide (field_of (unquote m.1) = Some n).

(** The members of the object a payload is; [null] has none. *)
Definition webhook_members (payload : bytes) : option (list (bytes * (json * bytes))) :=
  match parse payload with
  | Some JNull => Some []
  | Some (JObj _) => raw_object payload
  | _ => None
  end.

Definition is_text (v : json) : bool := match v with JNull | JStr _ => true | _ => false end.

(** Whether the value is one the field takes: text for the URL, the method and
    each header, anything for the body. *)
Definition member_fits (m : bytes * (json * bytes)) : bool :=
  if is_for "url" m || is_for "method" m then is_text m.2.1
  else if is_for "headers" m then
    match m.2.1 with
    | JNull => true
    | JObj hs => forallb (fun h => is_text h.2) hs
    | _ => false
    end
  else true.

(** The last member for a field that says something. *)
Definition last_of {A} (n : string) (read : json * bytes -> option A) (ms : list (bytes * (json * bytes))) :
    option A :=
  last (omap (fun m => if is_for n m then read m.2 else None) ms).

Definition said_text (n : string) := last_of n (fun v => read_text v.1).

(** The headers of an object, the last of those with one name; [null] is the
    empty text. *)
Definition header_entries (hs : list (bytes * json)) : gmap string string :=
  list_to_map (rev (map (fun m => (string_of_list_ascii (unquote m.1), default ""%string (read_header m.2))) hs)).

(** Members for the headers add up, and [null] starts again. *)
Definition said_headers (ms : list (bytes * (json * bytes))) (h : gmap string string) : gmap string string :=
  fold_left (fun h m =>
    if is_for "headers" m then match m.2.1 with JObj hs => header_entries hs ∪ h | _ => ∅ end else h) ms h.

Definition said (ms : list (bytes * (json * bytes))) (w : WebhookRequest) : WebhookRequest :=
  mkWebhookRequest (default (URL w) (said_text "url" ms)) (default (Method w) (said_text "method" ms))
    (said_headers ms (Headers w)) (default (Body w) (last_of "body" (fun v => Some v.2) ms)).

Lemma last_of_cons {A} n (read : json * bytes -> option A) m ms x :
  default x (last_of n read (m :: ms)) =
  default (default x (if is_for n m then read m.2 else None)) (last_of n read ms).
Proof.
  unfold last_of. cbn [omap list_omap]. destruct (if is_for n m then read m.2 else None) as [y|]; [|done].
  rewrite last_cons. by destruct (last _).
Qed.

Lemma read_header_text v : is_text v = true <-> exists s, read_header v = Some s.
Proof. destruct v; cbn; split; try done; try (by intros [? [=]]); by eexists. Qed.

Lemma add_headers_said hs h :
  add_headers hs h = if forallb (fun m => is_text m.2) hs then Some (header_entries hs ∪ h) else None.
Proof.
  revert h. induction hs as [|[k v] hs IH]; intros h; cbn [add_headers forallb].
  { unfold header_entries. cbn. by rewrite (left_id_L ∅ (∪)). }
  cbn [snd]. destruct (is_text v) eqn:E; cbn [andb].
  - apply read_header_text in E as [s E]. rewrite E. cbn [mbind option_bind]. rewrite IH.
    destruct (forallb _ hs); [|done]. f_equal. unfold header_entries. cbn [map rev fst snd]. rewrite E. cbn [default].
    rewrite list_to_map_app, <- (assoc_L (∪)). f_equal. cbn. by rewrite insert_empty, insert_union_singleton_l.
  - destruct (read_header v) eqn:Er; [|done]. rewrite (proj2 (read_header_text v)) in E; [done|by eexists].
Qed.

Lemma name_inj a b : name a = name b -> a = b.
Proof.
  intros E. apply (f_equal string_of_list_ascii) in E. unfold name in E. by rewrite !string_of_list_ascii_of_string in E.
Qed.

Lemma find_by_head {V T} (P : bytes -> Prop) `{!forall x, Decision (P x)} (fs : list (string * (V -> T -> option T))) :
  NoDup (map fst fs) ->
  find_by (fun n => bool_decide (P n)) fs =
  match head (filter (fun n => P (name n)) (map fst fs)) with
  | Some n => find_by (fun x => bool_decide (x = name n)) fs
  | None => None
  end.
Proof.
  induction fs as [|[n d] fs IH]; intros Hnd; [done|]. apply NoDup_cons in Hnd as [Hni Hnd].
  cbn [map fst find_by] in *. destruct (decide (P (name n))) as [Hp|Hp].
  - rewrite bool_decide_true, filter_cons_True by done. cbn [head]. by rewrite bool_decide_true.
  - rewrite bool_decide_false, filter_cons_False, IH by done.
    destruct (head (filter _ _)) as [n'|] eqn:E; [|done]. rewrite bool_decide_false; [done|].
    intros <-%name_inj. apply head_Some_elem_of in E. by apply list_elem_of_filter in E as [_ ?].
Qed.

Lemma find_by_name {V T} (fs : list (string * (V -> T -> option T))) n :
  n ∈ map fst fs -> is_Some (find_by (fun x => bool_decide (x = name n)) fs).
Proof.
  induction fs as [|[n' d] fs IH]; cbn [map fst find_by]; [by intros ?%elem_of_nil|].
  intros [->|Hn]%elem_of_cons; [rewrite bool_decide_true by done; by eexists|].
  case_bool_decide; [by eexists|by apply IH].
Qed.

Lemma webhook_field key :
  find_field webhook_fields key =
  match field_of key with
  | Some n => find_by (fun x => bool_decide (x = name n)) webhook_fields
  | None => None
  end.
Proof.
  assert (Hnd : NoDup (map fst webhook_fields)) by (apply (bool_decide_unpack _); vm_compute; exact I).
  unfold find_field, field_of.
  rewrite (find_by_head (fun n => n = key)), (find_by_head (fun n => fold_name n = fold_name key)) by done.
  change (map fst webhook_fields) with webhook_names.
  destruct (head (filter (fun n => name n = key) webhook_names)) as [n|] eqn:E; [|done].
  apply head_Some_elem_of in E. apply list_elem_of_filter in E as [_ E].
  destruct (find_by_name webhook_fields n E) as [d Hd]. by rewrite Hd.
Qed.

(** What becomes of a member. *)
Lemma set_member_said m w :
  set_member webhook_fields m w = if member_fits m then Some (said [m] w) else None.
Proof.
  destruct m as [k [v raw]]. unfold set_member, member_fits, said, said_text, said_headers, last_of, is_for.
  cbn [fst snd fold_left omap list_omap].
  rewrite webhook_field. assert (Hn : forall n, field_of (unquote k) = Some n -> n ∈ webhook_names).
  { intros n. unfold field_of. destruct (head (filter _ _)) as [x|] eqn:E1.
    - intros [= <-]. apply head_Some_elem_of in E1. by apply list_elem_of_filter in E1 as [_ ?].
    - intros E2%head_Some_elem_of. by apply list_elem_of_filter in E2 as [_ ?]. }
  destruct (field_of (unquote k)) as [n|]; [|by destruct w].
  specialize (Hn n eq_refl). unfold webhook_names in Hn. rewrite !elem_of_cons in Hn.
  destruct Hn as [->|[->|[->|[->|Hn%elem_of_nil]]]]; [| | | |done]; unfold webhook_fields; cbn [find_by];
    repeat match goal with
    | |- context [bool_decide ?P] => (rewrite (bool_decide_true P) by done) || (rewrite (bool_decide_false P) by done)
    end; cbn [orb]; destruct w; unfold by_value, as_text, as_kind; cbn [fst].
  - by destruct v.
  - by destruct v.
  - destruct v; try done. rewrite add_headers_said. cbn. by destruct (forallb _ members).
  - done.
Qed.

Lemma said_cons m ms w : said (m :: ms) w = said ms (said [m] w).
Proof. unfold said, said_text. rewrite !last_of_cons. cbn [URL Method Headers Body]. done. Qed.

Lemma set_members_said ms w :
  set_members webhook_fields ms w = if forallb member_fits ms then Some (said ms w) else None.
Proof.
  revert w. induction ms as [|m ms IH]; intros w; cbn [set_members forallb]; [by destruct w|].
  rewrite set_member_said. destruct (member_fits m); [|done]. cbn [mbind option_bind andb].
  by rewrite IH, (said_cons m ms).
Qed.

(** Decoding a payload is reading what it says. *)
Lemma decode_webhook_said payload :
  decode_webhook payload =
  match webhook_members payload with
  | Some ms => if forallb member_fits ms then Some (said ms zero_webhook) else None
  | None => None
  end.
Proof.
  unfold decode_webhook, webhook_members. destruct (parse payload) as [[]|]; try done.
  cbn [mbind option_bind]. destruct (raw_object payload); [|done]. cbn. apply set_members_said.
Qed.

(** *** Delivery *)

Lemma webhook_succeeds_iff net order j spec :
  decode_webhook (HPayload j) = Some spec ->
  let req := webhook_request spec (order (Headers spec)) j in
  webhook_Execute net order j = None <->
  RURL req <> ""%string /\ new_request net (RMethod req) (RURL req) = true /\
  exists resp, http_Do net req = inr resp /\ 200 <= StatusCode resp < 300.
Proof.
  intros Hd req. unfold webhook_Execute. rewrite Hd. cbv zeta. fold req. change (URL spec) with (RURL req).
  case_bool_decide as Eu; [split; [done|by intros [? _]]|].
  destruct (new_request net _ _); cbn [negb]; [|split; [done|by intros (_ & ? & _)]].
  destruct (http_Do net req) as [e|resp]; [split; [done|by intros (_ & _ & ? & [=] & _)]|].
  destruct (_ || _) eqn:Er.
  - split; [done|]. intros (_ & _ & r & [= <-] & Hr).
    apply orb_true_iff in Er as [Er%Z.ltb_lt|Er%Z.leb_le]; lia.
  - apply orb_false_iff in Er as [?%Z.ltb_ge ?%Z.leb_gt]. split; [|done]. intros _.
    split; [done|]. split; [done|]. exists resp. split; [done|lia].
Qed.

(** An answer that is no redirect ends the exchange. *)
Lemma http_Do_answered net req resp :
  round_trip net 0 req = inr resp -> redirectBehavior (RMethod req) (StatusCode resp) = None ->
  http_Do net req = inr resp.
Proof. intros H1 H2. unfold http_Do. cbn [http_follow]. by rewrite H1, H2. Qed.

(** What the first request carries, by what the payload says. *)
Record request_says (ms : list (bytes * (json * bytes))) (j : HJob) (req : HttpRequest) : Prop := {
  says_url : RURL req = default ""%string (said_text "url" ms);
  says_method : RMethod req =
    let method := default ""%string (said_text "method" ms) in
    if decide (method = ""%string) then "POST"%string else method;
  says_body : RBody req = default [] (last_of "body" (fun v => Some v.2) ms);
  says_key : RHeader req !! "Idempotency-Key"%string = Some (DedupKey j);
  says_job : RHeader req !! "Conveyor-Job-Id"%string = Some (HID j);
  says_attempt : RHeader req !! "Conveyor-Attempt"%string = Some (Itoa (HAttempt j));
  says_header k v : said_headers ms ∅ !! k = Some v -> CanonicalHeaderKey k ∉ identifying ->
    (forall k', is_Some (said_headers ms ∅ !! k') -> CanonicalHeaderKey k' = CanonicalHeaderKey k -> k' = k) ->
    RHeader req !! CanonicalHeaderKey k = Some v;
  says_type : RBody req <> [] ->
    (forall k, is_Some (said_headers ms ∅ !! k) -> CanonicalHeaderKey k <> "Content-Type"%string) ->
    RHeader req !! "Content-Type"%string = Some "application/json"%string
}.

Lemma webhook_request_says ms order j :
  order (said_headers ms ∅) ≡ₚ map_to_list (said_headers ms ∅) ->
  request_says ms j (webhook_request (said ms zero_webhook) (order (said_headers ms ∅)) j).
Proof.
  intros Hord. destruct (webhook_identifies_job (said ms zero_webhook) (order (said_headers ms ∅)) j)
    as (H1 & H2 & H3 & H4).
  assert (Hin : forall kv, kv ∈ order (said_headers ms ∅) <-> said_headers ms ∅ !! kv.1 = Some kv.2).
  { intros [k v]. rewrite Hord. apply elem_of_map_to_list. }
  split; try done.
  - cbn. by case_bool_decide; case_decide.
  - intros k v Hk Hno Hu. apply webhook_passes_header; [by apply Hin|done|].
    intros [k' v'] Hk'%Hin E. cbn in *. assert (k' = k) as -> by (apply Hu; [by eexists|done]). congruence.
  - intros Hb Hu. apply H4; [destruct (Body _) eqn:Eb; [by destruct Hb|cbn; lia]|].
    intros kv Hkv%Hin. apply Hu. by eexists.
Qed.

(** C38: a webhook is delivered as its producer wrote it. Take any payload,
    whatever its layout and the order of its members. If it is no JSON object
    or [null], or a field has a value of the wrong kind, the job fails.
    Otherwise the request made has the last URL, method (or POST) and body it
    says, the body byte for byte; the headers it says, under their canonical
    names, except where they collide with each other or with the three that
    carry the job's deduplication key, identifier and attempt, which are always
    those of the job; and a body without a content type is sent as JSON. The
    job succeeds exactly when there is a URL, the request can be made, and the
    last answer to it is a 2xx. The last answer is that of the receiver unless
    it redirects; redirects are followed as [http.Client.Do] does. *)
Theorem webhook_delivers net order j :
  (forall h, order h ≡ₚ map_to_list h) ->
  match webhook_members (HPayload j) with
  | Some ms =>
      if forallb member_fits ms then
        exists req, request_says ms j req /\
          (webhook_Execute net order j = None <->
           RURL req <> ""%string /\ new_request net (RMethod req) (RURL req) = true /\
           exists resp, http_Do net req = inr resp /\ 200 <= StatusCode resp < 300) /\
          forall resp, round_trip net 0 req = inr resp ->
            redirectBehavior (RMethod req) (StatusCode resp) = None -> http_Do net req = inr resp
      else webhook_Execute net order j = Some NotAWebhook
  | None => webhook_Execute net order j = Some NotAWebhook
  end.
Proof.
  intros Hord. pose proof (decode_webhook_said (HPayload j)) as Hd.
  destruct (webhook_members (HPayload j)) as [ms|]; [destruct (forallb member_fits ms)|].
  - eexists. split; [by apply (webhook_request_says ms order)|]. split.
    + exact (webhook_succeeds_iff net order j _ Hd).
    + intros resp. apply http_Do_answered.
  - unfold webhook_Execute. by rewrite Hd.
  - unfold webhook_Execute. by rewrite Hd.
Qed.

(** A receiver that answers a POST with a redirect of the old kinds gets it again
    as a GET without the body, and the webhook counts as delivered when that is
    answered with a 2xx. *)
Theorem redirected_webhook_loses_body code loc body order j :
  (code ∈ [301; 302; 303])%Z -> loc <> ""%string ->
  decode_webhook (HPayload j) = Some (mkWebhookRequest "http://h/x" "" ∅ body) ->
  (forall h, order h ≡ₚ map_to_list h) ->
  let net := mkNet (fun _ _ => true) (fun _ u => Some u) (fun _ _ => true) (fun _ _ _ => ""%string)
    (fun _ r => if bool_decide (RMethod r = "GET" /\ RBody r = [] /\ RURL r = loc)
                then inr (mkHttpResponse 200 "" "ok") else inr (mkHttpResponse code loc "")) in
  webhook_Execute net order j = None.
Proof.
  intros Hc Hl Hd Hord net. pose proof (webhook_succeeds_iff net order j _ Hd) as H. cbv zeta in H.
  apply H. set (req := webhook_request _ _ _). split; [done|]. split; [done|].
  exists (mkHttpResponse 200 "" "ok"). split; [|cbn; lia]. unfold http_Do. cbn [http_follow round_trip net].
  rewrite bool_decide_false by (by intros [? _]). cbn [StatusCode Location]. unfold redirectBehavior at 1.
  rewrite bool_decide_true by done. cbn [RMethod req webhook_request Method].
  rewrite bool_decide_false by done. cbn [url_parse net next_request RMethod RBody RURL andb].
  by rewrite (bool_decide_true (_ /\ _)).
Qed.

(** The reason of a failure is a text field of the protocol, which has to be
    valid UTF-8 to be sent. The output of a shell command is cut at a byte, not
    between runes, so a command that prints nothing but valid text can leave a
    reason that is not: the report of the failure cannot be made. *)
Theorem shell_reason_not_text environ j :
  let out := string_of_list_ascii (ascii_of_N 120 :: concat (repeat [ascii_of_N 195; ascii_of_N 169] 1100)) in
  valid_string out = true /\
  exists reason, shell_Execute NewShell environ (fun _ => (out, Some "exit status 1"%string)) j = Some reason /\
    valid_string reason = false.
Proof.
  cbv zeta. split; [vm_compute; reflexivity|]. eexists. split.
  - unfold shell_Execute. lazy zeta beta iota. vm_compute. reflexivity.
  - vm_compute. reflexivity.
Qed.

(** ** Witnesses *)

Definition demo_pool : Pool := mkPool "mail" "w1" 4 (30 * Second).
Definition demo_msg : LeaseResponse :=
  mkLeaseResponse "job-1" 7 "mail" "key-1" "shell" [] 1 1000.
Definition demo_now : Time := unixEpoch.

Lemma heartbeat_in_time_witness : heartbeat_interval demo_pool < granted_lease demo_pool.
Proof.
  apply (heartbeat_in_time demo_pool); vm_compute; (split; [discriminate|reflexivity]).
Defined.

(** The handler succeeds; the heartbeat goroutine leaves; the report is made. *)
Definition demo_done : exec :=
  mkExec demo_now true false Finished [CallAck (mkAckRequest "job-1" 7 "w1")].

Lemma demo_done_steps : steps demo_pool demo_msg (execute_start demo_now) demo_done.
Proof.
  eapply rtc_l; [by apply step_own, (step_handler _ _ _ None)|]. eapply rtc_l; [by apply step_own, step_beat_exit|].
  eapply rtc_l; [apply step_own; by eapply step_join|]. eapply rtc_l; [apply step_own; by eapply step_report|]. apply rtc_refl.
Qed.

Lemma one_truthful_report_witness :
  exists hbs c err, calls demo_done = hbs ++ [c] /\ truthful demo_pool demo_msg err c.
Proof.
  destruct (proj1 (proj2 (one_truthful_report demo_pool demo_msg demo_now demo_done demo_done_steps)) eq_refl)
    as (hbs & c & err & H & Ht & _).
  exists hbs, c, err. split; [exact H|exact Ht].
Defined.

Definition demo_rejected : exec :=
  mkExec demo_now true false Executing [CallHeartbeat (heartbeat_request demo_pool demo_msg) (Some false)].

Lemma demo_rejected_steps : steps demo_pool demo_msg (execute_start demo_now) demo_rejected.
Proof. eapply rtc_l; [by apply step_own, (step_beat _ _ _ (Some false))|]. apply rtc_refl. Qed.

Lemma rejected_heartbeat_aborts_witness : ctx_done demo_msg demo_rejected = true.
Proof.
  exact (proj1 (rejected_heartbeat_aborts demo_pool demo_msg demo_now demo_rejected 0
    (heartbeat_request demo_pool demo_msg) demo_rejected_steps eq_refl)).
Defined.

Lemma renewal_does_not_extend_witness :
  exists e, steps demo_pool demo_msg (execute_start demo_now) e /\ cancelled e = false /\
    ctx_done demo_msg e = true.
Proof.
  destruct (renewal_does_not_extend demo_pool demo_msg demo_now) as (e & H1 & _ & H2 & _ & _ & H3 & _).
  - vm_compute. reflexivity.
  - exists e. split; [exact H1|]. split; [exact H2|exact H3].
Defined.

(** A payload with blanks, its members in another order, one of them unknown,
    one under another spelling. *)
Definition quoting (s : string) : bytes :=
  map (fun c => if Ascii.eqb c "'" then quotation else c) (list_ascii_of_string s).

Definition demo_payload : bytes := quoting
  "{ 'body' : {'n': 7, 'to':'a@b'}, 'Url':'http://h/x', 'extra':[1],
     'headers': {'x-team':'ops', 'idempotency-key':'spoofed'} }".

Definition demo_hjob : HJob := mkHJob "job-1" "mail" "webhook" "" demo_payload 2.

Definition demo_net : Net :=
  mkNet (fun _ _ => true) (fun _ u => Some u) (fun _ _ => true) (fun _ _ _ => ""%string)
    (fun _ r => inr (mkHttpResponse (if bool_decide (RURL r = "http://h/x") then 204 else 500) "" "")).

Lemma unique_header (h : gmap string string) k :
  forallb (fun kv => bool_decide (kv.1 = k) || negb (bool_decide (CanonicalHeaderKey kv.1 = CanonicalHeaderKey k)))
    (map_to_list h) = true ->
  forall k', is_Some (h !! k') -> CanonicalHeaderKey k' = CanonicalHeaderKey k -> k' = k.
Proof.
  intros H k' [v Hk'%elem_of_map_to_list%list_elem_of_In] E. apply (proj1 (forallb_forall _ _) H) in Hk'.
  cbn [fst] in Hk'. apply orb_true_iff in Hk' as [Hk'%bool_decide_eq_true|Hk']; [done|].
  by rewrite E, bool_decide_true in Hk'.
Qed.

Lemma webhook_delivers_witness :
  exists req, RURL req = "http://h/x"%string /\
    RBody req = quoting "{'n': 7, 'to':'a@b'}" /\
    RHeader req !! "X-Team"%string = Some "ops"%string /\
    RHeader req !! "Idempotency-Key"%string = Some "job-1"%string /\
    webhook_Execute demo_net map_to_list demo_hjob = None.
Proof.
  pose proof (webhook_delivers demo_net map_to_list demo_hjob (fun h => Permutation_refl _)) as H.
  set (oms := webhook_members (HPayload demo_hjob)) in H. vm_compute in oms. subst oms. cbv beta iota in H.
  destruct H as (req & [Hu Hm Hb Hk _ _ Hh _] & Hiff & Hans).
  assert (Eu : RURL req = "http://h/x"%string) by (rewrite Hu; vm_compute; reflexivity).
  assert (Em : RMethod req = "POST"%string) by (rewrite Hm; vm_compute; reflexivity).
  assert (Eb : RBody req = quoting "{'n': 7, 'to':'a@b'}") by (rewrite Hb; vm_compute; reflexivity).
  exists req. split; [exact Eu|]. split; [exact Eb|]. split; [|split; [exact Hk|]].
  - apply (Hh "x-team"%string "ops"%string); [vm_compute; reflexivity| |].
    + apply (bool_decide_unpack _). vm_compute. exact I.
    + apply unique_header. vm_compute. reflexivity.
  - apply Hiff. rewrite Eu. split; [discriminate|]. split; [reflexivity|].
    exists (mkHttpResponse 204 "" ""). split; [|cbn; lia]. apply Hans.
    + cbn [round_trip demo_net]. by rewrite Eu.
    + by rewrite Em.
Defined.

Lemma truncate_bounded_witness : exists kept, String.length kept = 4%nat /\
  truncate " abcdefgh " 4 = (kept ++ "... (" ++ Itoa 4 ++ " bytes truncated)")%string.
Proof.
  destruct (proj2 (truncate_bounded " abcdefgh " 4)) as (kept & _ & H1 & H2).
  - vm_compute. repeat constructor.
  - exists kept. split; [exact H1|exact H2].
Defined.
