(* ===== verification/Pool.v ===== *)
(** * Pool: the receive loop of [Run] in [internal/worker/pool.go]

    One goroutine per job received, a shutdown that reaches all of them, and
    the return of [Run], which waits for every report: the jobs of [Worker]
    side by side, as a step relation over the whole pool. *)
From S2P Require Import Prelude Job Server Handler Worker.

Inductive run_loop :=
  | Receiving
  | Draining (res : option string)    (** the deferred [wg.Wait] *)
  | Returned (res : option string).

Record run := mkRun {
  now : Time;
  parent_done : bool;                       (** [ctx.Err() != nil] *)
  stream_err : option string;               (** [stream.Err()] *)
  received : list (LeaseResponse * exec);   (** a goroutine each *)
  loop : run_loop
}.

(** [Run] up to its loop: the checks, and the answer to the [Lease] call. *)
Definition open_stream (p : Pool) (answer : option string) (now : Time) : string + run :=
  match lease_request p with
  | None => inl "worker: queue is required"%string
  | Some _ =>
      match answer with
      | Some err => inl ("open lease stream: " ++ err)%string
      | None => inr (mkRun now false None [] Receiving)
      end
  end.

(** What [Run] returns when the stream has ended. *)
Definition run_result (err : option string) (ctx_done : bool) : option string :=
  match err with
  | Some err => if ctx_done then None else Some ("lease stream: " ++ err)%string
  | None => None
  end.

Definition over (me : LeaseResponse * exec) : Prop := stage me.2 = Finished.

(** [execute] under a context that may be done already. *)
Definition started (r : run) : exec :=
  let e := execute_start (now r) in if parent_done r then cancel e else e.

Section Run.
Context (p : Pool).

Inductive pool_step : run -> run -> Prop :=
  | pool_time r t :
      now r <= t ->
      pool_step r
        (mkRun t (parent_done r) (stream_err r)
           (map (fun me => (me.1, at_time t me.2)) (received r)) (loop r))
  | pool_shutdown r :
      pool_step r
        (mkRun (now r) true (stream_err r)
           (map (fun me => (me.1, cancel me.2)) (received r)) (loop r))
  | pool_receive r msg :
      loop r = Receiving ->
      pool_step r
        (mkRun (now r) (parent_done r) (stream_err r) (received r ++ [(msg, started r)]) Receiving)
  | pool_job r i msg e e' :
      received r !! i = Some (msg, e) -> own_step (pool_defaults p) msg e e' ->
      pool_step r
        (mkRun (now r) (parent_done r) (stream_err r) (<[i := (msg, e')]> (received r)) (loop r))
  | pool_end r err :
      loop r = Receiving ->
      pool_step r
        (mkRun (now r) (parent_done r) err (received r) (Draining (run_result err (parent_done r))))
  | pool_wait r res :
      loop r = Draining res -> Forall over (received r) ->
      pool_step r (mkRun (now r) (parent_done r) (stream_err r) (received r) (Returned res)).

(** The states of a pool that got its stream. *)
Definition reachable (r : run) : Prop :=
  exists t r0, open_stream p None t = inr r0 /\ rtc pool_step r0 r.
End Run.
