(* ===== verification/PoolProps.v ===== *)
(** * PoolProps: [Run] returns when, and only when, everything is reported

    What holds of one job in [WorkerProps] holds of every job of a pool, and
    the pool as a whole can always be drained. *)
From S2P Require Import Prelude Job Server Handler Worker WorkerProps Pool.

Section Run.
Context (p : Pool).
Abbreviation step := (Pool.pool_step p) (only parsing).

(** Every goroutine of the pool is a run of [execute]. *)
Definition runs_execute (r : run) : Prop :=
  forall i msg e, received r !! i = Some (msg, e) ->
    clock e = now r /\ exists t0, steps (pool_defaults p) msg (execute_start t0) e.

Lemma steps_own q msg e0 e e' : steps q msg e0 e -> own_step q msg e e' -> steps q msg e0 e'.
Proof. intros H Hs. eapply rtc_r; [exact H|by apply step_own]. Qed.

Lemma own_clock q msg e e' : own_step q msg e e' -> clock e' = clock e.
Proof. by intros []. Qed.

Lemma lookup_on_execs (f : exec -> exec) (l : list (LeaseResponse * exec)) i msg e :
  map (fun me => (me.1, f me.2)) l !! i = Some (msg, e) ->
  exists e0, l !! i = Some (msg, e0) /\ e = f e0.
Proof.
  intros H. apply list_lookup_fmap_Some in H as ([m e0] & E & H). injection E as -> ->. by exists e0.
Qed.

Lemma runs_execute_step r r' : runs_execute r -> step r r' -> runs_execute r'.
Proof.
  intros Hr Hst. destruct Hst as [r t Ht|r|r msg Hl|r i0 msg0 e0 e1 Hi0 Hown|r err Hl|r res Hl Ho];
    intros i msg' e Hi; cbn in *; try (by apply (Hr i)).
  - apply lookup_on_execs in Hi as (e0 & Hi & ->). destruct (Hr i _ _ Hi) as [Hc [t0 Hs]].
    split; [done|]. exists t0. eapply rtc_r; [exact Hs|]. apply step_time. by rewrite Hc.
  - apply lookup_on_execs in Hi as (e0 & Hi & ->). destruct (Hr i _ _ Hi) as [Hc [t0 Hs]].
    split; [done|]. exists t0. eapply rtc_r; [exact Hs|]. apply step_parent.
  - apply lookup_app_Some in Hi as [Hi|[_ Hi]]; [by apply (Hr i)|].
    apply list_lookup_singleton_Some in Hi as [_ E]. injection E as <- <-.
    unfold started. destruct (parent_done r); (split; [done|]); exists (now r); [|apply rtc_refl].
    eapply rtc_l; [apply step_parent|apply rtc_refl].
  - apply list_lookup_insert_Some in Hi as [(<- & E & _)|[_ Hi]]; [|by apply (Hr i)].
    injection E as <- <-. destruct (Hr _ _ _ Hi0) as [Hc [t0 Hs]].
    rewrite (own_clock _ _ _ _ Hown). split; [done|]. exists t0. by eapply steps_own.
Qed.

(** The result that [Run] is about to return, or has returned. *)
Definition returning (r : run) : option (option string) :=
  match loop r with Receiving => None | Draining res | Returned res => Some res end.

Record run_inv (r : run) : Prop := {
  ri_execs : runs_execute r;
  ri_result res : returning r = Some res ->
    match res with
    | Some text => exists err, stream_err r = Some err /\ text = ("lease stream: " ++ err)%string
    | None => stream_err r = None \/ parent_done r = true
    end;
  ri_over res : loop r = Returned res -> Forall over (received r)
}.

Lemma finished_quiet q msg t0 e e' :
  steps q msg (execute_start t0) e -> stage e = Finished -> own_step q msg e e' -> False.
Proof.
  intros Hs%exec_inv_steps Hf Hown; [|apply exec_inv_start].
  pose proof (ei_quiet _ _ _ Hs) as Hq. rewrite Hf in Hq. destruct Hown; congruence.
Qed.

Lemma over_map (f : exec -> exec) l :
  (forall e, stage (f e) = stage e) -> Forall over l -> Forall over (map (fun me => (me.1, f me.2)) l).
Proof.
  intros Hf H. induction H as [|me l Hme _ IH]; cbn; constructor; [|done].
  unfold over in *. cbn. by rewrite Hf.
Qed.

Lemma run_inv_step r r' : run_inv r -> step r r' -> run_inv r'.
Proof.
  intros [Hr Hres Hov] Hst. split; [by eapply runs_execute_step|..]; revert Hr Hres Hov;
    destruct Hst as [r t Ht|r|r msg Hl|r i msg e e' Hi Hown|r err Hl|r res0 Hl Ho];
    unfold returning; cbn; intros Hr Hres Hov res Heq; try (by apply Hres); try done.
  - specialize (Hres res Heq). destruct res; [done|by right].
  - injection Heq as <-. unfold run_result. destruct err as [err|]; [|by left].
    destruct (parent_done r); [by right|by exists err].
  - injection Heq as <-. apply (Hres res0). by rewrite Hl.
  - by apply over_map, (Hov res).
  - by apply over_map, (Hov res).
  - exfalso. destruct (Hr _ _ _ Hi) as [_ [t0 Hs]].
    pose proof (Forall_lookup_1 _ _ _ _ (Hov res Heq) Hi) as Hf. by eapply finished_quiet.
Qed.

Lemma run_inv_start t r : open_stream p None t = inr r -> run_inv r.
Proof.
  unfold open_stream. destruct (lease_request p); [|done]. intros [= <-]. by split.
Qed.

Lemma pool_reachable_inv r : reachable p r -> run_inv r.
Proof.
  intros (t & r0 & Ho & Hst). apply run_inv_start in Ho. induction Hst; [done|].
  by apply IHHst, (run_inv_step _ _ Ho).
Qed.

(** ** Draining *)

Lemma drive_job r i msg e e' k :
  received r !! i = Some (msg, e) -> nsteps (own_step (pool_defaults p) msg) k e e' ->
  nsteps step k r (mkRun (now r) (parent_done r) (stream_err r) (<[i := (msg, e')]> (received r)) (loop r)).
Proof.
  intros Hi Hn. revert r Hi. induction Hn as [e|k e e1 e2 Hs Hn IH]; intros r Hi.
  - rewrite list_insert_id by done. destruct r. constructor.
  - eapply nsteps_l; [by eapply pool_job|].
    specialize (IH (mkRun (now r) (parent_done r) (stream_err r) (<[i := (msg, e1)]> (received r)) (loop r))).
    cbn in IH. rewrite list_insert_insert_eq in IH. apply IH.
    apply list_lookup_insert_eq. by eapply lookup_lt_Some.
Qed.

(** The first [n] jobs can be finished, the others untouched. *)
Lemma finish_first r n :
  run_inv r -> Forall (fun me => stage me.2 <> Executing) (received r) -> (n <= length (received r))%nat ->
  exists k l, (k <= 3 * n)%nat /\
    nsteps step k r (mkRun (now r) (parent_done r) (stream_err r) l (loop r)) /\
    drop n l = drop n (received r) /\ Forall over (take n l).
Proof.
  intros Hi Hne. induction n as [|n IH]; intros Hn.
  - exists 0%nat, (received r). split; [lia|]. split; [destruct r; constructor|]. split; [done|constructor].
  - destruct IH as (k & l & Hk & Hrun & Hdrop & Hover); [lia|].
    destruct (lookup_lt_is_Some_2 (received r) n) as [[msg e] He]; [lia|].
    assert (Hl : l !! n = Some (msg, e)).
    { rewrite <- (Nat.add_0_r n), <- lookup_drop, Hdrop, lookup_drop, Nat.add_0_r. done. }
    destruct (ri_execs _ Hi _ _ _ He) as [_ [t0 Hs]].
    pose proof (Forall_lookup_1 _ _ _ _ Hne He) as Hx. cbn in Hx.
    assert (Hfin : exists k' e', (k' <= 3)%nat /\ nsteps (own_step (pool_defaults p) msg) k' e e' /\ stage e' = Finished).
    { pose proof (exec_inv_steps _ _ _ _ Hs (exec_inv_start _ _ t0)) as Hinv.
      destruct (stage e) as [|err|err|] eqn:Es; [done|..].
      - apply (own_finish _ _ e err Hinv). unfold result. by rewrite Es.
      - apply (own_finish _ _ e err Hinv). unfold result. by rewrite Es.
      - exists 0%nat, e. split; [lia|]. split; [constructor|done]. }
    destruct Hfin as (k' & e' & Hk' & Hn' & Hf').
    pose proof (lookup_lt_Some _ _ _ Hl) as Hlen.
    exists (k + k')%nat, (<[n := (msg, e')]> l). split; [lia|]. split; [|split].
    + eapply nsteps_trans; [exact Hrun|].
      exact (drive_job (mkRun (now r) (parent_done r) (stream_err r) l (loop r)) n msg e e' k' Hl Hn').
    + rewrite drop_insert_lt by lia.
      replace (S n) with (n + 1)%nat by lia. by rewrite <- !drop_drop, Hdrop.
    + rewrite (take_S_r _ n (msg, e')) by (by apply list_lookup_insert_eq).
      rewrite take_insert_ge by lia. apply Forall_app. split; [done|]. by constructor.
Qed.

Lemma returned_stays r r' res :
  run_inv r -> loop r = Returned res -> rtc step r r' ->
  loop r' = Returned res /\
  map (fun me => (me.1, calls me.2)) (received r') = map (fun me => (me.1, calls me.2)) (received r).
Proof.
  intros Hi Hl Hst. induction Hst as [|r r1 r2 Hs _ IH]; [done|].
  pose proof (run_inv_step _ _ Hi Hs) as Hi1.
  assert (Hone : loop r1 = Returned res /\
    map (fun me => (me.1, calls me.2)) (received r1) = map (fun me => (me.1, calls me.2)) (received r)).
  { destruct Hs as [r t Ht|r|r msg Hl'|r i msg e e' Hj Hown|r err Hl'|r res0 Hl' Ho]; cbn in *;
      try congruence.
    - split; [done|]. rewrite map_map. by apply map_ext.
    - split; [done|]. rewrite map_map. by apply map_ext.
    - exfalso. destruct (ri_execs _ Hi _ _ _ Hj) as [_ [t0 Hs]].
      pose proof (Forall_lookup_1 _ _ _ _ (ri_over _ Hi _ Hl) Hj) as Hf. by eapply finished_quiet. }
  destruct Hone as [Hl1 E1]. destruct (IH Hi1 Hl1) as [Hl2 E2]. split; [done|congruence].
Qed.
End Run.

(** ** The property *)

(** C19: [Run] returns when every job it received has been reported, and it can
    always get there. Every job makes heartbeats for its own lease and then
    exactly one report, the true one; when [Run] returns, all have made it,
    none makes a call afterwards, and the error returned is the stream's, which
    a shutdown hides. Once the stream has ended and the handlers are back, at
    most three steps for each job and one more make [Run] return. *)
Theorem run_reports_all p r :
  reachable p r ->
  (forall i msg e, received r !! i = Some (msg, e) ->
     exists hbs, Forall (is_beat (pool_defaults p) msg) hbs /\
       (stage e <> Finished /\ calls e = hbs \/
        stage e = Finished /\ exists c err, calls e = hbs ++ [c] /\ truthful p msg err c)) /\
  (forall res, loop r = Returned res ->
     Forall over (received r) /\
     match res with
     | Some text => exists err, stream_err r = Some err /\ text = ("lease stream: " ++ err)%string
     | None => stream_err r = None \/ parent_done r = true
     end /\
     forall r', rtc (pool_step p) r r' -> loop r' = Returned res /\
       map (fun me => (me.1, calls me.2)) (received r') = map (fun me => (me.1, calls me.2)) (received r)) /\
  (forall res, loop r = Draining res -> Forall (fun me => stage me.2 <> Executing) (received r) ->
     exists k r', (k <= 3 * length (received r) + 1)%nat /\ nsteps (pool_step p) k r r' /\
       loop r' = Returned res).
Proof.
  intros Hr%pool_reachable_inv. split; [|split].
  - intros i msg e Hi. destruct (ri_execs _ _ Hr _ _ _ Hi) as [_ [t0 Hs]].
    pose proof (ei_calls _ _ _ (exec_inv_steps _ _ _ _ Hs (exec_inv_start _ _ t0))) as Hc.
    destruct (stage e); try (exists (calls e); split; [done|by left]).
    destruct Hc as (hbs & err & Hc & Hb). exists hbs. split; [done|right]. split; [done|].
    exists (report p msg err), err. split; [done|apply report_truthful].
  - intros res Hl. split; [by apply (ri_over _ _ Hr res)|]. split.
    + apply (ri_result _ _ Hr). unfold returning. by rewrite Hl.
    + intros r'. by apply returned_stays.
  - intros res Hl Hne. destruct (finish_first p r (length (received r)) Hr Hne)
      as (k & l & Hk & Hrun & Hd & Ho); [done|].
    rewrite drop_all in Hd. rewrite take_ge in Ho.
    2:{ apply (f_equal length) in Hd. rewrite length_drop in Hd. cbn in Hd. lia. }
    exists (k + 1)%nat, (mkRun (now r) (parent_done r) (stream_err r) l (Returned res)).
    split; [lia|]. split; [|done]. eapply nsteps_trans; [exact Hrun|]. apply nsteps_once.
    by apply (pool_wait p (mkRun (now r) (parent_done r) (stream_err r) l (loop r)) res).
Qed.

(** ** Witness *)

(** One job, received and executed; the stream breaks while it is running. *)
Definition demo_draining : run :=
  mkRun demo_now false (Some "unavailable"%string)
    [(demo_msg, mkExec demo_now true true (Joining None) [])] (Draining (Some "lease stream: unavailable"%string)).

Lemma demo_draining_reachable : reachable demo_pool demo_draining.
Proof.
  exists demo_now, (mkRun demo_now false None [] Receiving). split; [reflexivity|].
  eapply rtc_l; [by apply (pool_receive _ _ demo_msg)|].
  eapply rtc_l; [by apply (pool_end _ _ (Some "unavailable"%string))|].
  apply rtc_once.
  exact (pool_job demo_pool (mkRun demo_now false (Some "unavailable"%string)
      [(demo_msg, execute_start demo_now)] (Draining (Some "lease stream: unavailable"%string)))
    0 demo_msg _ _ eq_refl (step_handler (pool_defaults demo_pool) demo_msg (execute_start demo_now) None eq_refl)).
Qed.

Lemma run_reports_all_witness :
  exists k r', (k <= 4)%nat /\ nsteps (pool_step demo_pool) k demo_draining r' /\
    loop r' = Returned (Some "lease stream: unavailable"%string).
Proof.
  apply (run_reports_all demo_pool demo_draining demo_draining_reachable).
  - reflexivity.
  - constructor; [discriminate|constructor].
Defined.
