(* ===== verification/Cli.v ===== *)
(** * Cli: the pure parts of the command line, [cmd/conveyor]

    What [submit] sends, how jobs are displayed, how addresses and metric lines
    are read and durations rounded ([submit.go], [display.go], [dlq.go],
    [client.go], [bench.go]). The other commands are in [Commands] and
    [Bench], the declarations of flags in [Flags] and the client that carries
    the requests in [Connect]. *)
From stdpp Require Import pretty.
From S2P Require Import Prelude Job Server Handler.

(** ** [display.go] *)

(** The names the protocol gives its enumerations; a number without a name
    prints as itself. *)
Definition JobState_String (s : JobState) : string :=
  match s with
  | JOB_STATE_UNSPECIFIED => "JOB_STATE_UNSPECIFIED"
  | JOB_STATE_PENDING => "JOB_STATE_PENDING"
  | JOB_STATE_LEASED => "JOB_STATE_LEASED"
  | JOB_STATE_RETRY_WAIT => "JOB_STATE_RETRY_WAIT"
  | JOB_STATE_DONE => "JOB_STATE_DONE"
  | JOB_STATE_DEAD_LETTER => "JOB_STATE_DEAD_LETTER"
  | JobState_other n => Itoa n
  end.

Definition Priority_Name (p : ProtoPriority) : string :=
  match p with
  | PRIORITY_UNSPECIFIED => "PRIORITY_UNSPECIFIED"
  | PRIORITY_LOW => "PRIORITY_LOW"
  | PRIORITY_NORMAL => "PRIORITY_NORMAL"
  | PRIORITY_HIGH => "PRIORITY_HIGH"
  | Priority_other n => Itoa n
  end.

Fixpoint HasPrefix (s prefix : string) : bool :=
  match prefix, s with
  | EmptyString, _ => true
  | String a prefix, String b s => Ascii.eqb a b && HasPrefix s prefix
  | String _ _, EmptyString => false
  end.

Definition TrimPrefix (s prefix : string) : string :=
  if HasPrefix s prefix then String.substring (String.length prefix) (String.length s - String.length prefix) s
  else s.

Definition displayState (s : JobState) : string :=
  match s with
  | JOB_STATE_UNSPECIFIED => "unspecified"
  | _ => ToLower (TrimPrefix (JobState_String s) "JOB_STATE_")
  end.

Definition displayPriority (p : ProtoPriority) : string :=
  match p with
  | PRIORITY_UNSPECIFIED => "normal"
  | _ => ToLower (TrimPrefix (Priority_Name p) "PRIORITY_")
  end.

(** ** [submit.go] *)

Record submitFlags := mkSubmitFlags {
  submitQueue : string;
  submitPayload : string;
  submitHandler : string;
  submitMaxRetries : Z;
  submitPriority : string;
  submitDelay : Duration;
  submitIdempotencyKey : string;
  submitCount : Z
}.

(** [priorityToProto] of the command line. *)
Definition submit_priority (p : Priority) : ProtoPriority :=
  match p with
  | PriorityLow => PRIORITY_LOW
  | PriorityHigh => PRIORITY_HIGH
  | _ => PRIORITY_NORMAL
  end.

Definition submit_key (key : string) (count : Z) (i : nat) : string :=
  if negb (bool_decide (key = "")) && (1 <? count) then (key ++ "-" ++ Itoa (Z.of_nat i))%string else key.

Definition submit_request (f : submitFlags) (priority : Priority) (i : nat) : SubmitRequest :=
  mkSubmitRequest (submitQueue f) (list_ascii_of_string (submitPayload f)) (submitHandler f)
    (submit_key (submitIdempotencyKey f) (submitCount f) i) (submit_priority priority)
    (i32 (submitMaxRetries f)) (Z.quot (submitDelay f) Millisecond).

Inductive submitError {E : Type} :=
  | BadPriority (e : ParseError)
  | BadCount
  | SubmitFailed (i : Z) (err : E).
Arguments submitError : clear implicits.

Definition output_line (resp : SubmitResponse) : string :=
  (SubJobId resp ++ if Deduplicated resp then String (ascii_of_N 9) "(deduplicated)" else "")%string.

(** [runSubmit] against a client with state [S]: the lines printed, and the
    error that ended it. *)
Section Submit.
Context {S E : Type} (client : SubmitRequest -> S -> (E + SubmitResponse) * S).

Fixpoint submit_loop (f : submitFlags) (priority : Priority) (i n : nat) (s : S) :
    list string * option (submitError E) * S :=
  match n with
  | O => ([], None, s)
  | Datatypes.S n =>
      match client (submit_request f priority i) s with
      | (inl err, s) => ([], Some (SubmitFailed (Z.of_nat i + 1) err), s)
      | (inr resp, s) =>
          let '(out, err, s) := submit_loop f priority (Datatypes.S i) n s in
          (output_line resp :: out, err, s)
      end
  end.

Definition runSubmit (f : submitFlags) (s : S) : list string * option (submitError E) * S :=
  match ParsePriority (submitPriority f) with
  | inl e => ([], Some (BadPriority e), s)
  | inr priority =>
      if submitCount f <? 1 then ([], Some BadCount, s)
      else submit_loop f priority 0 (Z.to_nat (submitCount f)) s
  end.
End Submit.

(** ** [dlq.go] *)

Definition truncateError (s : string) : string :=
  if (String.length s <=? 60)%nat then s else (String.substring 0 60 s ++ "...")%string.

(** ** [client.go] and [bench.go] *)

Definition broker_url (addr : string) : string :=
  if negb (HasPrefix addr "http://") && negb (HasPrefix addr "https://")
  then ("http://" ++ addr)%string else addr.

(** [strings.TrimSuffix(s, "/")]. *)
Fixpoint trim_slash (s : string) : string :=
  match s with
  | EmptyString => EmptyString
  | String c EmptyString => if Ascii.eqb c "/" then EmptyString else s
  | String c s' => String c (trim_slash s')
  end.

Definition metrics_url (addr : string) : string := (trim_slash (broker_url addr) ++ "/metrics")%string.

(** [strings.Cut(s, " ")]. *)
Fixpoint cut_space (s : string) : option (string * string) :=
  match s with
  | EmptyString => None
  | String c s' =>
      if Ascii.eqb c " " then Some (EmptyString, s')
      else match cut_space s' with Some (a, b) => Some (String c a, b) | None => None end
  end.

Fixpoint contains (c : ascii) (s : string) : bool :=
  match s with EmptyString => false | String d s => Ascii.eqb c d || contains c s end.

(** [ParseFloat] is the argument [parse]. *)
Definition parseMetricLine {F : Type} (parse : string -> option F) (line : string) : option (string * F) :=
  if bool_decide (line = "") || HasPrefix line "#" then None
  else
    match cut_space line with
    | None => None
    | Some (name, rest) =>
        if contains "{" name then None
        else match parse (TrimSpace rest) with None => None | Some v => Some (name, v) end
    end.

(** The counters of the exposition text, line by line. *)
Record commitStats (F : Type) := mkCommitStats { commitCount : F; commitSeconds : F; batchSum : F }.
Arguments mkCommitStats {F}.
Arguments commitCount {F}.
Arguments commitSeconds {F}.
Arguments batchSum {F}.

Definition scrape_line {F : Type} (parse : string -> option F) (st : commitStats F) (line : string) :
    commitStats F :=
  match parseMetricLine parse line with
  | None => st
  | Some (name, v) =>
      if bool_decide (name = "conveyor_wal_commits_total") then
        mkCommitStats v (commitSeconds st) (batchSum st)
      else if bool_decide (name = "conveyor_wal_commit_seconds_sum") then
        mkCommitStats (commitCount st) v (batchSum st)
      else if bool_decide (name = "conveyor_wal_commit_batch_records_sum") then
        mkCommitStats (commitCount st) (commitSeconds st) v
      else st
  end.

(** [Duration.Round] to a positive unit: half away from zero, saturated. *)
Definition Round (d m : Duration) : Duration :=
  let r := Z.rem d m in
  if d <? 0 then
    let r := - r in
    if r + r <? m then d + r
    else if - 2 ^ 63 <=? d - m + r then d - m + r else - 2 ^ 63
  else
    if r + r <? m then d - r
    else if d + m - r <? 2 ^ 63 then d + m - r else 2 ^ 63 - 1.

Definition round (d : Duration) : Duration :=
  if Millisecond <=? d then Round d (10 * Microsecond) else Round d Microsecond.

(** [report]'s first loop: the latencies of the submissions that worked, and
    the number of those that failed. *)
Definition split_results {E : Type} (rs : list (Duration * option E)) : list Duration * Z :=
  fold_left (fun acc r => match r.2 with
    | Some _ => (acc.1, acc.2 + 1)
    | None => (acc.1 ++ [r.1], acc.2)
    end) rs ([], 0).
