(* ===== verification/CliProps.v ===== *)
(** * CliProps: the command line does what it says

    What [submit] prints and sends, how states and priorities are spelled, and
    what [bench] reads and rounds. *)
From stdpp Require Import pretty.
From S2P Require Import Prelude Job Server Handler Cli.

(** The command line spells states and priorities as the broker does, and
    every priority it displays is one that [submit --priority] accepts and
    reads as the same. *)
Theorem display_matches st p :
  displayState (stateToProto st) = State_String st /\
  displayPriority (priorityToProto p) = Priority_String p /\
  ParsePriority (displayPriority (priorityToProto p)) = inr p.
Proof.
  split; [by destruct st|]. split; destruct p; vm_compute; reflexivity.
Qed.

Lemma append_inj_r a b c : (a ++ b = a ++ c)%string -> b = c.
Proof. induction a as [|x a IH]; cbn; [done|]. intros [= H]. by apply IH. Qed.

Lemma submit_key_inj key count i k :
  key <> ""%string -> 1 < count -> submit_key key count i = submit_key key count k -> i = k.
Proof.
  intros Hk Hc. unfold submit_key. rewrite bool_decide_false, (proj2 (Z.ltb_lt _ _)) by done. cbn.
  intros H%append_inj_r. injection H as H. unfold Itoa in H. change (pretty (Z.of_nat i) = pretty (Z.of_nat k)) in H. apply (inj (pretty (A := Z))) in H. by apply Nat2Z.inj.
Qed.

Section Submit.
Context {S E : Type} (client : SubmitRequest -> S -> (E + SubmitResponse) * S).

Lemma submit_loop_spec f p i n s :
  let '(out, err, _) := submit_loop client f p i n s in
  match err with
  | None => length out = n
  | Some (SubmitFailed k _) => k = Z.of_nat (i + length out) + 1 /\ (length out < n)%nat
  | Some _ => False
  end.
Proof.
  revert i s. induction n as [|n IH]; intros i s; cbn [submit_loop]; [done|].
  destruct (client _ s) as [[err|resp] s1].
  - cbn. split; lia.
  - specialize (IH (Datatypes.S i) s1). destruct (submit_loop client f p (Datatypes.S i) n s1) as [[out err] s2].
    destruct err as [[e| |k err]|]; cbn; try done; [|lia]. destruct IH as [-> ?]. split; lia.
Qed.

(** [submit --count n] prints one line for each submission the broker has
    accepted, and for no other: all [n] when it succeeds, and when submission
    [k] fails, the [k - 1] before it; a bad priority or count submits nothing.
    With an idempotency key no two submissions of a batch share theirs. *)
Theorem submit_reports_accepted f s :
  let '(out, err, s') := runSubmit client f s in
  match err with
  | None => Z.of_nat (length out) = submitCount f /\ 1 <= submitCount f
  | Some (SubmitFailed k _) => Z.of_nat (length out) = k - 1 /\ 1 <= k <= submitCount f
  | Some BadCount => out = [] /\ s' = s /\ submitCount f < 1
  | Some (BadPriority e) => out = [] /\ s' = s /\ ParsePriority (submitPriority f) = inl e
  end /\
  (submitIdempotencyKey f <> "" -> forall p i k, (i < Z.to_nat (submitCount f))%nat ->
     (k < Z.to_nat (submitCount f))%nat ->
     SRIdempotencyKey (submit_request f p i) = SRIdempotencyKey (submit_request f p k) -> i = k).
Proof.
  assert (Hk : submitIdempotencyKey f <> "" -> forall p i k, (i < Z.to_nat (submitCount f))%nat ->
     (k < Z.to_nat (submitCount f))%nat ->
     SRIdempotencyKey (submit_request f p i) = SRIdempotencyKey (submit_request f p k) -> i = k).
  { intros Hne p i k Hi Hk. cbn. destruct (decide (1 < submitCount f)).
    - by apply submit_key_inj.
    - intros _. lia. }
  unfold runSubmit. destruct (ParsePriority (submitPriority f)) as [e|p] eqn:Ep; [by split|].
  destruct (Z.ltb_spec (submitCount f) 1); [by split|].
  pose proof (submit_loop_spec f p 0 (Z.to_nat (submitCount f)) s) as Hl.
  destruct (submit_loop client f p 0 (Z.to_nat (submitCount f)) s) as [[out err] s'].
  split; [|done]. destruct err as [[e| |k err]|]; try done; [|split; lia].
  destruct Hl as [-> Hl]. cbn in *. lia.
Qed.
End Submit.

(** Rounding for the report moves a latency by at most half the unit it is
    rounded to (5 us from a millisecond up, 500 ns below), and the result is a
    multiple of the unit. *)
Theorem round_close d :
  0 <= d < 2 ^ 62 ->
  let unit := if Millisecond <=? d then 10 * Microsecond else Microsecond in
  Z.abs (round d - d) * 2 <= unit /\ (round d) mod unit = 0.
Proof.
  intros Hd. cbv zeta. unfold round.
  set (unit := if Millisecond <=? d then 10 * Microsecond else Microsecond).
  replace (if Millisecond <=? d then Round d (10 * Microsecond) else Round d Microsecond)
    with (Round d unit) by (unfold unit; by case_match).
  assert (Hu : 0 < unit <= 10000) by (unfold unit, Microsecond; case_match; lia).
  clearbody unit. unfold Round. rewrite (proj2 (Z.ltb_ge _ _)) by lia.
  rewrite Z.rem_mod_nonneg by lia.
  pose proof (Z.mod_pos_bound d unit ltac:(lia)) as Hr. pose proof (Z.div_mod d unit ltac:(lia)) as Hdm.
  set (r := d mod unit) in *. set (q := d / unit) in *. clearbody q r.
  destruct (Z.ltb_spec (r + r) unit).
  - split; [lia|]. replace (d - r) with (q * unit) by lia. apply Z.mod_mul. lia.
  - rewrite (proj2 (Z.ltb_lt _ _)) by lia. split; [lia|].
    replace (d + unit - r) with ((q + 1) * unit) by lia. apply Z.mod_mul. lia.
Qed.

Lemma cut_space_app name rest :
  contains " " name = false -> cut_space (name ++ String " " rest) = Some (name, rest).
Proof.
  induction name as [|c name IH]; [done|]. cbn [contains cut_space String.append]. intros H.
  apply orb_false_iff in H as [Hc H].
  rewrite Ascii.eqb_sym in Hc.
  change (cut_space (String c name ++ String " " rest)) with
    (if Ascii.eqb c " " then Some (EmptyString, (name ++ String " " rest)%string)
     else match cut_space (name ++ String " " rest) with
          | Some (a, b) => Some (String c a, b) | None => None end).
  by rewrite Hc, IH.
Qed.

(** A metric line that the exposition format allows for an unlabelled
    sample is read back as what was written: any name without blanks or
    braces that is no comment, and a value that parses. Comments, labelled
    samples and values that do not parse are skipped. *)
Theorem metric_line_roundtrip {F : Type} (parse : string -> option F) name value :
  contains " " name = false -> name <> ""%string ->
  parseMetricLine parse (name ++ String " " value) =
    (if HasPrefix name "#" || contains "{" name then None
     else match parse (TrimSpace value) with None => None | Some v => Some (name, v) end).
Proof.
  intros Hs Hne. unfold parseMetricLine. rewrite bool_decide_false by (by destruct name).
  assert (E : HasPrefix (name ++ String " " value) "#" = HasPrefix name "#").
  { destruct name as [|c [|? ?]]; [done|..]; cbn; by destruct (Ascii.eqb "#" c). }
  rewrite E, cut_space_app by done.
  by destruct (HasPrefix name "#"), (contains "{" name).
Qed.

(** ** Witnesses *)

Definition demo_flags : submitFlags := mkSubmitFlags "mail" "echo" "shell" 5 "normal" 0 "key" 2.

(** A broker that accepts the first submission only. *)
Definition demo_client (req : SubmitRequest) (n : nat) : (string + SubmitResponse) * nat :=
  match n with
  | O => (inr (mkSubmitResponse "job-1" false), 1%nat)
  | _ => (inl "unavailable"%string, n)
  end.

Lemma submit_reports_accepted_witness :
  SRIdempotencyKey (submit_request demo_flags PriorityNormal 0) <>
  SRIdempotencyKey (submit_request demo_flags PriorityNormal 1).
Proof.
  intros H. pose proof (submit_reports_accepted demo_client demo_flags 0%nat) as Ht.
  destruct (runSubmit demo_client demo_flags 0%nat) as [[out err] s'].
  assert (E : (0 = 1)%nat); [|discriminate E].
  apply (proj2 Ht) with (p := PriorityNormal); [discriminate|cbn; lia|cbn; lia|exact H].
Defined.

Lemma round_close_witness : Z.abs (round 1234567 - 1234567) * 2 <= 10 * Microsecond.
Proof.
  exact (proj1 (round_close 1234567 ltac:(lia))).
Defined.

Lemma metric_line_roundtrip_witness :
  parseMetricLine (fun v => Some v) ("conveyor_wal_commits_total" ++ String " " "12") =
    Some ("conveyor_wal_commits_total", "12")%string.
Proof.
  rewrite (metric_line_roundtrip (fun v => Some v) "conveyor_wal_commits_total" "12");
    [vm_compute; reflexivity..|discriminate].
Defined.
