(* ===== verification/Commands.v ===== *)
(** * Commands: the commands that ask a broker, [cmd/conveyor]

    [get], [status], [dlq list], [dlq replay] ([get.go], [status.go], [dlq.go])
    and the pool that [worker] starts ([worker.go]). A command is a function of
    its flags and of what the broker answers, an error's text or a response; it
    ends with an error's text or with what it has written. A table is given by
    its cells, as they are handed to the [tabwriter], which only pads them. The
    zone of the terminal is an argument, an offset in minutes at an instant. *)
From stdpp Require Import pretty.
From S2P Require Import Prelude Utf8 Job Framing LogSpec Wal Store Server Json Rfc3339 Handler Worker Cli.

(** ** Output *)

Inductive output :=
  | Line (text : string)
  | Table (rows : list (list string)).

(** [time.UnixMilli]. *)
Definition from_unix_ms (ms : Z) : Time := unixEpoch + ms * Millisecond.

(** The year in [Format]: four digits at least. *)
Definition format_year (y : Z) : bytes :=
  let a := Z.abs y in
  (if y <? 0 then ["-"]%char else []) ++ (if a <=? 9999 then four_digits a else format_int a).

(** [t.Format(time.RFC3339)], in the zone of the terminal. *)
Definition FormatRFC3339 (zone : Time -> Z) (t : Time) : string :=
  let local := t + zone t * Minute in
  let '(y, m, d) := civil_of (local / Day) in
  let secs := local mod Day / Second in
  string_of_list_ascii
    (format_year y ++ "-" :: two_digits m ++ "-" :: two_digits d ++ "T" ::
     two_digits (secs / 3600) ++ ":" :: two_digits (secs / 60 mod 60) ++ ":" ::
     two_digits (secs mod 60) ++ format_offset (zone t))%char.

(** ** [get.go] *)

(** A response without a job says that there is none. *)
Definition runGet (zone : Time -> Z) (client : string -> string + option ProtoJob) (id : string) :
    string + list output :=
  match client id with
  | inl err => inl ("get: " ++ err)%string
  | inr None => inl ("job " ++ id ++ " not found")%string
  | inr (Some j) =>
      inr [Table (
        [["id"; Id j]; ["queue"; PJQueue j]; ["state"; displayState (PJState j)];
         ["handler"; PJHandler j]; ["priority"; displayPriority (PJPriority j)];
         ["attempt"; (Itoa (PJAttempt j) ++ " of " ++ Itoa (PJMaxRetries j))%string];
         ["epoch"; pretty (PJEpoch j)];
         ["enqueued"; FormatRFC3339 zone (from_unix_ms (EnqueuedAtUnixMs j))];
         ["eligible"; FormatRFC3339 zone (from_unix_ms (EligibleAtUnixMs j))]] ++
        (if bool_decide (PJIdempotencyKey j = "") then [] else [["idempotency-key"; PJIdempotencyKey j]]) ++
        (if bool_decide (PJLastError j = "") then [] else [["last-error"; PJLastError j]]) ++
        (if (0 <? length (PJPayload j))%nat then [["payload"; string_of_list_ascii (PJPayload j)]] else []))]
  end.

(** ** [status.go] *)

Definition status_row (q : QueueStats) : list string :=
  [SQueue q; Itoa (SPending q); Itoa (SLeased q); Itoa (SRetryWait q); Itoa (SDone q); Itoa (SDeadLetter q)].

Definition runStatus (client : string -> string + Store.Stats) (queue : string) : string + list output :=
  match client queue with
  | inl err => inl ("stats: " ++ err)%string
  | inr st =>
      match StatsQueues st with
      | [] => inr [Line "no jobs"]
      | qs =>
          inr [Table (["QUEUE"; "PENDING"; "LEASED"; "RETRY"; "DONE"; "DEAD"] :: map status_row qs);
               Line ""; Line ("total jobs: " ++ Itoa (TotalJobs st))%string;
               Line ("last durable LSN: " ++ pretty (StatsLastLSN st))%string]
      end
  end.

(** ** [dlq.go] *)

Definition dlq_request (queue : string) (limit : Z) : ListJobsRequest :=
  mkListJobsRequest queue JOB_STATE_DEAD_LETTER (i32 limit).

Definition dlq_row (zone : Time -> Z) (j : ProtoJob) : list string :=
  [Id j; PJQueue j; Itoa (PJAttempt j); FormatRFC3339 zone (from_unix_ms (EligibleAtUnixMs j));
   truncateError (PJLastError j)].

Definition runDLQList (zone : Time -> Z) (client : ListJobsRequest -> string + list ProtoJob)
    (queue : string) (limit : Z) : string + list output :=
  match client (dlq_request queue limit) with
  | inl err => inl ("list dead-lettered jobs: " ++ err)%string
  | inr [] => inr [Line "dead-letter queue is empty"]
  | inr js =>
      inr [Table (["JOB ID"; "QUEUE"; "ATTEMPTS"; "FAILED AT"; "LAST ERROR"] :: map (dlq_row zone) js);
           Line "";
           Line (Itoa (Z.of_nat (length js)) ++
                 " dead-lettered job(s). Replay one with: conveyor dlq replay <job-id>")%string]
  end.

(** Against a client with state [S]. *)
Definition runDLQReplay {S} (client : string -> S -> (string + unit) * S) (id : string) (s : S) :
    (string + list output) * S :=
  match client id s with
  | (inl err, s) => (inl ("replay job: " ++ err)%string, s)
  | (inr _, s) => (inr [Line (id ++ " requeued with a fresh retry budget")]%string, s)
  end.

(** ** [worker.go] *)

Record workerFlags := mkWorkerFlags {
  workerQueue : string;
  workerConcurrency : Z;
  workerLeaseTimeout : Duration;
  workerID : string
}.

(** The flags when none is given but the queue, which is required. *)
Definition worker_defaults (queue : string) : workerFlags := mkWorkerFlags queue 4 (30 * Second) "".

(** [runWorker] up to [Run]; [nanos] and [random] are what [NewID] draws. *)
Definition worker_id (f : workerFlags) (nanos : Z) (random : list N) : string :=
  if bool_decide (workerID f = "") then String.substring 0 12 (NewID nanos random) else workerID f.

Definition worker_pool (f : workerFlags) (nanos : Z) (random : list N) : Pool :=
  mkPool (workerQueue f) (worker_id f nanos random) (workerConcurrency f) (workerLeaseTimeout f).
