(* ===== verification/CommandsProps.v ===== *)
(** * CommandsProps: the commands against a broker

    The commands of [Commands] with the handlers of [Server] as their client:
    what is printed is what the store holds. *)
From stdpp Require Import pretty.
From S2P Require Import Prelude Utf8 Job Heap Index Framing LogSpec Wal Event Memory MemSpec Store Snapshot.
From S2P Require Import StoreSpec System Dispatcher Server Rfc3339 Handler Worker Cli Commands ServerProps.
From S2P Require Import Demo SnapshotProps.

Section Commands.
Context {L : Type} {lops : LogOps L} {codec : EventCodec}.
Implicit Types (d : Dispatcher).

(** C35: [conveyor status] reports the store: nothing but that there are no jobs
    when there are none (of the queue asked for, or of all), and otherwise one
    row for each queue that has a job, with the number of its jobs in every
    state, and the total. *)
Theorem status_command_exact queue d :
  let js := wanted queue (jobs_in_order (jobs (mem (store d)))) in
  exists rows,
    NoDup rows /\
    (forall r, r ∈ rows <-> exists q, of_queue q js <> [] /\
       r = q :: map (fun st => Itoa (in_state st (of_queue q js)))
                  [StatePending; StateLeased; StateRetryWait; StateDone; StateDeadLetter]) /\
    runStatus (fun q => inr (Stats q d)) queue = inr (
      if decide (js = []) then [Line "no jobs"]
      else [Table (["QUEUE"; "PENDING"; "LEASED"; "RETRY"; "DONE"; "DEAD"] :: rows)%string; Line "";
            Line ("total jobs: " ++ Itoa (Z.of_nat (length js)));
            Line ("last durable LSN: " ++ pretty (lastLSN (store d)))])%string.
Proof.
  cbv zeta. destruct (stats_exact queue d) as (Ht & Hq & Hnd & _). cbv zeta in *.
  set (js := wanted queue _) in *. exists (map status_row (StatsQueues (Stats queue d))).
  assert (Hl : StatsLastLSN (Stats queue d) = lastLSN (store d))
    by (unfold Stats, Stats_of; by destruct (fold_left _ _ _)).
  assert (Hinj : forall a b, status_row a = status_row b -> SQueue a = SQueue b) by (by intros a b [= -> _]).
  split; [|split].
  - apply NoDup_ListNoDup. apply NoDup_map_NoDup_ForallPairs; [|by apply NoDup_ListNoDup].
    intros a b Ha Hb E%Hinj. apply list_elem_of_In in Ha, Hb. apply Hq in Ha as [_ ->], Hb as [_ ->]. by rewrite E.
  - intros r. rewrite list_elem_of_In, in_map_iff. split.
    + intros (e & <- & He%list_elem_of_In). apply Hq in He as [Hne He].
      exists (SQueue e). split; [done|]. by rewrite He at 1.
    + intros (q & Hne & ->). exists (tally q (of_queue q js)). split; [done|]. by apply list_elem_of_In, Hq.
  - unfold runStatus. cbn [StatsQueues]. destruct (StatsQueues (Stats queue d)) as [|e qs] eqn:E.
    + destruct (decide (js = [])) as [|Hne]; [done|]. exfalso. destruct js as [|j js'] eqn:Ej; [done|].
      assert (Hin : tally (Queue j) (of_queue (Queue j) (j :: js')) ∈ []).
      { apply Hq. split; [|done]. cbn [SQueue tally]. intros E'.
        assert (Hj : j ∈ of_queue (Queue j) (j :: js')) by (apply list_elem_of_filter; split; [done|left]).
        rewrite E' in Hj. by apply elem_of_nil in Hj. }
      by apply elem_of_nil in Hin.
    + assert (He : e ∈ e :: qs) by left. apply Hq in He as [Hne _].
      rewrite decide_False by (intros Ejs; apply Hne; by rewrite Ejs).
      by rewrite Ht, Hl.
Qed.

(** The client of [dlq replay], with the text of a failure. *)
Definition replay_client (text : rpcError (storeError log_err) -> string) (now : Time) (id : string) d :
    (string + unit) * Dispatcher :=
  match ReplayJob id now d with
  | (inl err, d) => (inl (text err), d)
  | (inr _, d) => (inr tt, d)
  end.

(** C34: [conveyor dlq list] shows the dead letters, and each of them can be
    replayed. The table has exactly the dead-lettered jobs (of the queue asked
    for, or of all), the newest identifier first, as many as a positive limit
    allows. [conveyor dlq replay] of any of them reports success and leaves the
    job pending with no attempt used, or fails because the store is broken;
    it never finds that the job is not there or not dead-lettered. *)
Theorem dlq_list_replay zone text queue limit now d :
  store_wf (store d) -> poison_ok (store d) ->
  exists dead : list Job,
    (forall j, j ∈ dead <-> jobs (mem (store d)) !! ID j = Some j /\
       (queue = "" \/ Queue j = queue) /\ JState j = StateDeadLetter) /\
    NoDup dead /\ StronglySorted (fun a b => str_ltb (ID b) (ID a) = true) dead /\
    (let shown := if 0 <? i32 limit then take (Z.to_nat (i32 limit)) dead else dead in
     runDLQList zone (fun req => inr (ListJobs req d)) queue limit = inr (
       if decide (shown = []) then [Line "dead-letter queue is empty"]
       else [Table (["JOB ID"; "QUEUE"; "ATTEMPTS"; "FAILED AT"; "LAST ERROR"]
                    :: map (fun j => dlq_row zone (jobToProto j)) shown); Line "";
             Line (Itoa (Z.of_nat (length shown)) ++
                   " dead-lettered job(s). Replay one with: conveyor dlq replay <job-id>")%string])) /\
    forall j, j ∈ dead ->
      let '(r, d') := runDLQReplay (replay_client text now) (ID j) d in
      match r with
      | inr out => out = [Line (ID j ++ " requeued with a fresh retry budget")] /\
          exists j', jobs (mem (store d')) = <[ID j := j']> (jobs (mem (store d))) /\
            JState j' = StatePending /\ Attempt j' = 0
      | inl err => exists e, broken e /\ err = ("replay job: " ++ text (ConnectError CodeInternal e))%string
      end.
Proof.
  intros Hwf Hp. destruct (list_jobs_exact (dlq_request queue limit) d) as (dead & Hin & Hnd & Hs & Hl).
  { apply Hwf. }
  assert (Hdead : forall j, j ∈ dead <-> jobs (mem (store d)) !! ID j = Some j /\
    (queue = "" \/ Queue j = queue) /\ JState j = StateDeadLetter).
  { intros j. rewrite Hin. cbn [dlq_request LJQueue LJState stateFromProto].
    assert (E : StateDeadLetter = StateUnspecified \/ stateToProto (JState j) = JOB_STATE_DEAD_LETTER <->
      JState j = StateDeadLetter) by (destruct (JState j); cbn; split; intros H; try done; try (by destruct H); by right).
    by rewrite E. }
  exists dead. do 3 (split; [done|]). split.
  - unfold runDLQList. rewrite Hl. cbn [dlq_request LJLimit]. cbv zeta.
    destruct (if 0 <? i32 limit then _ else _) as [|j js]; [done|]. cbn [map].
    by rewrite length_cons, length_map, map_map.
  - intros j (Hj & _ & Ed)%Hdead. unfold runDLQReplay, replay_client.
    pose proof (replay_rpc (ID j) now d Hwf Hp) as H. destruct (ReplayJob (ID j) now d) as [r d'].
    rewrite Hj, bool_decide_true in H by done. destruct H as [(e & -> & He)|(-> & j' & Hm & Hst & Ha & _)].
    + by exists e.
    + split; [done|]. by exists j'.
Qed.
End Commands.

(** ** What the commands get wrong *)

(** The identifier of a worker that is given none is the head of a job
    identifier: six bytes of the clock and none of the random ones. Workers
    started within the same 65 microseconds get the same one. *)
Theorem generated_worker_ids_collide f n1 n2 r1 r2 :
  workerID f = ""%string -> 0 <= n1 < 2 ^ 63 -> 0 <= n2 < 2 ^ 63 -> n1 / 65536 = n2 / 65536 ->
  worker_id f n1 r1 = worker_id f n2 r2.
Proof.
  intros Hf H1 H2 E. unfold worker_id. rewrite Hf, bool_decide_true by done.
  assert (Hd : forall k n, 0 <= n < 2 ^ 63 ->
    ((Z.to_N (n mod 2 ^ 64) / 256 ^ (k + 2)) mod 256 = Z.to_N (n / 65536) / 256 ^ k mod 256)%N).
  { intros k n Hn. rewrite Z.mod_small by lia. rewrite N.pow_add_r.
    rewrite (N.mul_comm (256 ^ k)), <- N.Div0.div_div. rewrite Z2N.inj_div by lia. done. }
  assert (Hi : forall n r, 0 <= n < 2 ^ 63 -> String.substring 0 12 (NewID n r) =
    hex_encode (map (fun k => (Z.to_N (n / 65536) / 256 ^ N.of_nat k) mod 256)%N [5; 4; 3; 2; 1; 0]%nat)).
  { intros n r Hn. unfold NewID. cbn [be_bytes].
    change (N.of_nat 7) with (5 + 2)%N. change (N.of_nat 6) with (4 + 2)%N. change (N.of_nat 5) with (3 + 2)%N.
    change (N.of_nat 4) with (2 + 2)%N. change (N.of_nat 3) with (1 + 2)%N. change (N.of_nat 2) with (0 + 2)%N.
    rewrite !Hd by done. reflexivity. }
  by rewrite !Hi, E.
Qed.

(** [conveyor status] calls the last LSN durable. It is the LSN of the last
    record appended, flushed or not: here a lease is recorded and shown, and
    after a power failure the same LSN has not been written. *)
Theorem status_lsn_not_durable :
  let leased := run_op (OpLease "mail" "w" 500 3000) (run_op OpCommit store1) in
  let restarted := opened (power_loss (log leased)) dir0 4000 in
  failed leased = None /\ failed restarted = None /\
  (lastLSN restarted < StatsLastLSN (Stats "" (NewDispatcher leased)))%N.
Proof. vm_compute. done. Qed.

(** ** Witnesses *)

(** A broker whose only job has spent its budget. *)
Definition dead_broker : Dispatcher (L := Log) := NewDispatcher store5.

Lemma dead_broker_wf : store_wf (store dead_broker).
Proof. unfold dead_broker, NewDispatcher. cbn [store]. exact store5_wf. Qed.

Lemma dead_broker_poison : poison_ok (store dead_broker).
Proof. apply store_poison_ok. vm_compute. reflexivity. Qed.

Definition dead_letter : Job :=
  let j := lease_job (ev_lease "job-1" 2 "w2" 9000000500 2) demo_waiting in
  fail_job (fail_event Second (5 * Minute) j "lease expired" true 9000001000 no_jitter) j.

Lemma dead_broker_job : jobs (mem (store dead_broker)) !! "job-1"%string = Some dead_letter.
Proof. vm_compute. reflexivity. Qed.

Lemma dead_letter_dead : JState dead_letter = StateDeadLetter /\ ID dead_letter = "job-1"%string.
Proof. by vm_compute. Qed.

Lemma dlq_list_replay_witness :
  exists j out d', jobs (mem (store dead_broker)) !! "job-1"%string = Some j /\ JState j = StateDeadLetter /\
    runDLQReplay (replay_client (fun _ => "") 20000000000) "job-1" dead_broker = (inr out, d') /\
    exists j', jobs (mem (store d')) = <["job-1" := j']> (jobs (mem (store dead_broker))) /\ JState j' = StatePending.
Proof.
  destruct (dlq_list_replay demo_zone (fun _ => ""%string) "" 50 20000000000 dead_broker dead_broker_wf dead_broker_poison)
    as (dead & H1 & _ & _ & _ & H2).
  destruct dead_letter_dead as [Hd Hi]. pose proof dead_broker_job as Hj.
  assert (Hin : dead_letter ∈ dead).
  { apply H1. rewrite Hi. exact (conj Hj (conj (or_introl eq_refl) Hd)). }
  specialize (H2 dead_letter Hin). rewrite Hi in H2.
  assert (Hok : exists out, (runDLQReplay (replay_client (fun _ => "") 20000000000) "job-1" dead_broker).1 = inr out)
    by (vm_compute; eexists; reflexivity).
  destruct Hok as [out Hok].
  destruct (runDLQReplay (replay_client (fun _ => "") 20000000000) "job-1" dead_broker) as [r d'].
  cbn [fst] in Hok. subst r. destruct H2 as (_ & j' & H3 & H4 & _).
  exists dead_letter, out, d'. exact (conj Hj (conj Hd (conj eq_refl (ex_intro _ j' (conj H3 H4))))).
Defined.

Lemma generated_worker_ids_collide_witness :
  worker_id (worker_defaults "mail") 1700000000000000000 (repeat 1%N 8) =
  worker_id (worker_defaults "mail") 1700000000000000999 (repeat 2%N 8).
Proof. apply generated_worker_ids_collide; vm_compute; done. Defined.
