(* ===== verification/Bench.v ===== *)
(** * Bench: the load generator of the command line, [cmd/conveyor/bench.go]

    The clients that submit until the time is up, the counters read from the
    broker before and after, and the report. What the environment contributes
    to a run (the clock, the outcome of every call, the ticker) is an argument;
    floating-point numbers are those of IEEE 754, as [SpecFloat] computes them,
    and [strconv.ParseFloat] is the argument it is in [Cli]. *)
From Stdlib Require Import SpecFloat.
From stdpp Require Import pretty.
From S2P Require Import Prelude Utf8 Job Framing LogSpec Wal Server Json Rfc3339 Handler Cli Commands.

(** ** [float64] *)

Abbreviation float := spec_float (only parsing).
Definition fadd : float -> float -> float := SFadd 53 1024.
Definition fsub : float -> float -> float := SFsub 53 1024.
Definition fmul : float -> float -> float := SFmul 53 1024.
Definition fdiv : float -> float -> float := SFdiv 53 1024.

(** [float64(n)]. *)
Definition float_of (n : Z) : float := binary_normalize 53 1024 n 0 false.

(** [int(f)], where it is defined. *)
Definition truncate_float (f : float) : Z :=
  match f with
  | S754_finite s m e =>
      let n := if 0 <=? e then Zpos m * 2 ^ e else Zpos m / 2 ^ (- e) in
      if s then - n else n
  | _ => 0
  end.

Definition is_positive (f : float) : bool := SFltb (S754_zero false) f.

(** A multiple of [10^-prec] nearest to a number, the even one of two, as a
    number of such steps. *)
Definition decimal_steps (prec : nat) (m : positive) (e : Z) : Z :=
  let n := Zpos m * 10 ^ Z.of_nat prec in
  if 0 <=? e then n * 2 ^ e
  else
    let d := 2 ^ (- e) in
    let q := n / d in
    match Z.compare (2 * (n mod d)) d with
    | Lt => q
    | Gt => q + 1
    | Eq => if Z.even q then q else q + 1
    end.

(** The verbs [%.1f] and [%.0f]. *)
Definition format_float (prec : nat) (f : float) : string :=
  let decimal (neg : bool) (n : Z) :=
    ((if neg then "-" else "") ++ Itoa (n / 10 ^ Z.of_nat prec) ++
     match prec with O => "" | _ => "." ++ dec_digits prec (Z.to_N (n mod 10 ^ Z.of_nat prec)) end)%string in
  match f with
  | S754_nan => "NaN"
  | S754_infinity s => if s then "-Inf" else "+Inf"
  | S754_zero s => decimal s 0
  | S754_finite s m e => decimal s (decimal_steps prec m e)
  end.

(** ** [time.Duration] *)

(** [d.Seconds()]. *)
Definition Seconds (d : Duration) : float :=
  fadd (float_of (Z.quot d Second)) (fdiv (float_of (Z.rem d Second)) (float_of 1000000000)).

(** [fmtFrac]: the last [prec] digits of a number, behind a point and without
    zeros at the end. *)
Definition fraction (prec : nat) (u : Z) : string :=
  match trim_zeros (list_ascii_of_string (dec_digits prec (Z.to_N (u mod 10 ^ Z.of_nat prec)))) with
  | [] => ""
  | ds => "." ++ string_of_list_ascii ds
  end.

(** [d.String()]. *)
Definition Duration_String (d : Duration) : string :=
  let u := Z.abs d in
  let small (prec : nat) (unit : string) :=
    (Itoa (u / 10 ^ Z.of_nat prec) ++ fraction prec u ++ unit)%string in
  let body :=
    if u =? 0 then "0s"
    else if u <? Microsecond then small 0%nat "ns"
    else if u <? Millisecond then small 3%nat (of_codes [194; 181]%N ++ "s")%string
    else if u <? Second then small 6%nat "ms"
    else
      let secs := u / Second in
      let s := (Itoa (secs mod 60) ++ fraction 9 u ++ "s")%string in
      let mins := secs / 60 in
      if mins =? 0 then s
      else
        let m := (Itoa (mins mod 60) ++ "m" ++ s)%string in
        let hours := mins / 60 in
        if hours =? 0 then m else (Itoa hours ++ "h" ++ m)%string in
  if d <? 0 then ("-" ++ body)%string else body.

(** ** Submitting *)

Record benchFlags := mkBenchFlags {
  benchQueue : string;
  benchDuration : Duration;
  benchConcurrency : Z;
  benchRate : Z;
  benchPayloadSize : Z
}.

Definition bench_defaults : benchFlags := mkBenchFlags "bench" (10 * Second) 16 0 256.

(** Every submission is the same. *)
Definition bench_request (f : benchFlags) : SubmitRequest :=
  mkSubmitRequest (benchQueue f) (repeat "x"%char (Z.to_nat (benchPayloadSize f))) "shell" ""
    PRIORITY_UNSPECIFIED 3 0.

Definition result : Type := Duration * option string.

(** One round of a client as the environment has it: whether the time was up
    at its start, whether the ticker came before the end, and the outcome of
    the call, with whether the time was up after it. *)
Record round_env := mkRoundEnv {
  up_before : bool;
  ticked : bool;
  outcome_err : option string;
  up_after : bool;
  latency : Duration
}.

(** The goroutine of a client: what it has measured when it returns. *)
Fixpoint submitter (f : benchFlags) (env : list round_env) : list result :=
  match env with
  | [] => []
  | r :: env =>
      if up_before r then []
      else if (0 <? benchRate f) && negb (ticked r) then []
      else
        match outcome_err r with
        | Some err => if up_after r then [] else (latency r, Some err) :: submitter f env
        | None => (latency r, None) :: submitter f env
        end
  end.

(** ** The counters of the broker *)

(** The answer to the request: an error, or a status, the lines of the body
    and the error that ended them. *)
Definition scrapeCommitStats (parse : string -> option float)
    (get : string -> string + (Z * string * list string * option string)) (addr : string) :
    commitStats float * option string :=
  let none := mkCommitStats (S754_zero false) (S754_zero false) (S754_zero false) in
  match get (metrics_url addr) with
  | inl err => (none, Some err)
  | inr (code, status, lines, err) =>
      if code =? 200 then (fold_left (scrape_line parse) lines none, err)
      else (none, Some ("GET " ++ metrics_url addr ++ ": " ++ status)%string)
  end.

(** ** The report *)

(** [sorted] is not empty. *)
Definition percentile_index (p : float) (n : Z) : Z :=
  let i := truncate_float (fmul p (float_of n)) in
  if n <=? i then n - 1 else i.

Definition percentile (sorted : list Duration) (p : float) : Duration :=
  match sorted with
  | [] => 0
  | _ => default 0 (sorted !! Z.to_nat (percentile_index p (Z.of_nat (length sorted))))
  end.

(** The constants [0.50], [0.95] and [0.99]: the floats nearest to them. *)
Definition p50 : float := fdiv (float_of 50) (float_of 100).
Definition p95 : float := fdiv (float_of 95) (float_of 100).
Definition p99 : float := fdiv (float_of 99) (float_of 100).

(** [%-14s] of one of the labels, and a blank. *)
Definition label (s : string) : string :=
  (s ++ of_codes (repeat 32%N (14 - String.length s)) ++ " ")%string.

#[export] Instance duration_le_dec (a b : Duration) : Decision (a <= b) := Z_le_dec a b.

(** What the flushing layer of the broker was doing. *)
Definition commit_report (before after : commitStats float) : list string :=
  let flushes := fsub (commitCount after) (commitCount before) in
  let records := fsub (batchSum after) (batchSum before) in
  if SFleb flushes (S754_zero false) then []
  else
    let secs := fsub (commitSeconds after) (commitSeconds before) in
    [""; (label "flushes" ++ format_float 0 flushes)%string;
     (label "commit batch" ++ format_float 1 (fdiv records flushes) ++ " submissions per flush")%string] ++
    (if is_positive secs then
       [(label "flush cost" ++
         Duration_String (round (truncate_float (fmul (fdiv secs flushes) (float_of Second)))) ++ " per flush")%string]
     else []).

Definition report (results : list result) (elapsed : Duration) (before after : commitStats float)
    (metricsErr : option string) : list string :=
  let '(latencies, failures) := split_results results in
  let n := Z.of_nat (length latencies) in
  [""; (label "submitted" ++ Itoa n ++ " in " ++ Duration_String (Round elapsed Millisecond))%string] ++
  (if 0 <? failures then [(label "failed" ++ Itoa failures)%string] else []) ++
  match latencies with
  | [] => ["no successful submissions to report on"]
  | _ =>
      let sorted := merge_sort Z.le latencies in
      let shown p := Duration_String (round (percentile sorted p)) in
      [(label "throughput" ++ format_float 1 (fdiv (float_of n) (Seconds elapsed)) ++ " jobs/sec")%string;
       (label "latency" ++ "p50 " ++ shown p50 ++ "   p95 " ++ shown p95 ++ "   p99 " ++ shown p99 ++
        "   max " ++ Duration_String (round (List.last sorted 0)))%string] ++
      match metricsErr with
      | Some err => [""; ("(broker metrics unavailable: " ++ err ++ ")")%string]
      | None => commit_report before after
      end
  end.

(** ** The command *)

(** Flags it refuses, and flags that make a library function panic. *)
Inductive benchError :=
  | Refused (text : string)
  | Panics (text : string).

(** [clients] is what the environment gives each client; their results are
    collected in the order in which the clients return, that of [order]. *)
Definition runBench (f : benchFlags) (parse : string -> option float)
    (get_before get_after : string -> string + (Z * string * list string * option string)) (addr : string)
    (clients : nat -> list round_env) (order : list nat) (elapsed : Duration) : benchError + list string :=
  if benchConcurrency f <? 1 then inl (Refused "--concurrency must be at least 1")
  else if benchDuration f <=? 0 then inl (Refused "--duration must be positive")
  else if benchPayloadSize f <? 0 then inl (Panics "strings: negative Repeat count")
  else
    let '(before, err1) := scrapeCommitStats parse get_before addr in
    if (0 <? benchRate f) && (Z.quot Second (benchRate f) <=? 0) then
      inl (Panics "non-positive interval for NewTicker")
    else
      let results := concat (map (fun i => submitter f (clients i)) order) in
      let '(after, err2) := scrapeCommitStats parse get_after addr in
      let metricsErr := match err2 with Some err => Some err | None => err1 end in
      inr (("submitting for " ++ Duration_String (benchDuration f) ++ " with " ++ Itoa (benchConcurrency f) ++
            " concurrent client(s)" ++
            (if (0 <? benchRate f)%Z then " at " ++ Itoa (benchRate f) ++ "/sec" else "") ++ "...")%string
           :: report results elapsed before after metricsErr).

Example duration_text :
  map Duration_String [0; 1500; 1234567; 1234567890; 3723 * Second] =
  ["0s"; "1.5" ++ of_codes [194; 181]%N ++ "s"; "1.234567ms"; "1.23456789s"; "1h2m3s"]%string.
Proof. vm_compute. reflexivity. Qed.

Example report_text :
  report [(3000000, None); (1000000, None); (2000000, Some "unavailable"); (5400000, None)] (2 * Second)
    (mkCommitStats (float_of 10) (float_of 1) (float_of 40)) (mkCommitStats (float_of 12) (float_of 2) (float_of 43)) None =
  [""; "submitted      3 in 2s"; "failed         1"; "throughput     1.5 jobs/sec";
   "latency        p50 3ms   p95 5.4ms   p99 5.4ms   max 5.4ms"; "";
   "flushes        2"; "commit batch   1.5 submissions per flush"; "flush cost     500ms per flush"]%string.
Proof. vm_compute. reflexivity. Qed.
