(* ===== verification/BenchProps.v ===== *)
(** * BenchProps: the report of the load generator

    It shows what was measured: every submission is counted once, and every
    latency shown is one that was observed. *)
From Stdlib Require Import SpecFloat.
From S2P Require Import Prelude Utf8 Job Framing LogSpec Wal Server Json Rfc3339 Handler Cli Commands Bench.

(** ** Percentiles *)

Definition not_negative (f : spec_float) : Prop :=
  match f with
  | S754_zero s | S754_infinity s | S754_finite s _ _ => s = false
  | S754_nan => True
  end.

Lemma round_not_negative m e l : not_negative (binary_round_aux 53 1024 false m e l).
Proof.
  unfold binary_round_aux. destruct (shr_fexp 53 1024 m e l) as [mrs e1].
  destruct (shr_fexp _ _ _ _ _) as [mrs' e2]. destruct (shr_m mrs'); cbn; try done. by destruct (_ <=? _).
Qed.

Lemma float_of_not_negative n : 0 <= n -> not_negative (float_of n).
Proof.
  intros H. unfold float_of, binary_normalize. destruct n as [|p|p]; [done| |lia].
  unfold binary_round. destruct (shl_align _ _ _). apply round_not_negative.
Qed.

Lemma fmul_not_negative a b : not_negative a -> not_negative b -> not_negative (fmul a b).
Proof.
  unfold fmul, SFmul. destruct a, b; cbn [not_negative]; intros; subst; try done. apply round_not_negative.
Qed.

Lemma truncate_not_negative f : not_negative f -> 0 <= truncate_float f.
Proof.
  destruct f as [| | |s m e]; cbn; try done. intros ->. destruct (Z.leb_spec 0 e); [apply Z.mul_nonneg_nonneg; lia|].
  apply Z.div_pos; lia.
Qed.

Lemma percentile_index_bounds p n : not_negative p -> 1 <= n -> 0 <= percentile_index p n < n.
Proof.
  intros Hp Hn. unfold percentile_index.
  assert (Hf : not_negative (float_of n)) by (apply float_of_not_negative; lia).
  pose proof (truncate_not_negative _ (fmul_not_negative p (float_of n) Hp Hf)) as Ht.
  destruct (Z.leb_spec n (truncate_float (fmul p (float_of n)))); lia.
Qed.

Lemma sorted_last (l : list Z) k x : StronglySorted Z.le l -> l !! k = Some x -> x <= List.last l 0.
Proof.
  intros Hs. revert k x. induction Hs as [|a l Hs IH Ha]; intros k x Hk; [done|].
  destruct l as [|b l].
  - destruct k; [|done]. injection Hk as ->. cbn. lia.
  - change (List.last (a :: b :: l) 0) with (List.last (b :: l) 0). destruct k as [|k]; [|by apply (IH k)].
    injection Hk as ->. apply Forall_cons in Ha as [Hab _]. specialize (IH 0%nat b eq_refl). lia.
Qed.

(** The index stays within the slice, whatever the number of latencies: a
    percentile is one of them, and none is above the last one, the maximum. *)
Theorem percentile_observed p (ls : list Duration) :
  not_negative p -> ls <> [] ->
  let sorted := merge_sort Z.le ls in
  percentile sorted p ∈ ls /\ percentile sorted p <= List.last sorted 0.
Proof.
  intros Hp Hne. cbv zeta. pose proof (merge_sort_Permutation Z.le ls) as Hperm.
  assert (Hs : StronglySorted Z.le (merge_sort Z.le ls)) by (apply StronglySorted_merge_sort; apply _).
  set (sorted := merge_sort Z.le ls) in *.
  assert (Hn : sorted <> []) by (intros E; apply Hne; apply Permutation_nil; by rewrite <- E).
  pose proof (percentile_index_bounds p (Z.of_nat (length sorted)) Hp) as Hi.
  assert (Hl : 1 <= Z.of_nat (length sorted)) by (destruct sorted; [done|cbn; lia]). specialize (Hi Hl).
  set (i := percentile_index p (Z.of_nat (length sorted))) in *.
  assert (Hx : exists x, sorted !! Z.to_nat i = Some x) by (apply lookup_lt_is_Some_2; lia).
  destruct Hx as [x Hx].
  assert (E : percentile sorted p = x) by (unfold percentile; fold i; destruct sorted; [done|by rewrite Hx]).
  rewrite E. split; [rewrite <- Hperm; by eapply list_elem_of_lookup_2|].
  by eapply sorted_last.
Qed.

(** ** Counting *)

Lemma split_results_spec {E} (rs : list (Duration * option E)) :
  (forall d, d ∈ (split_results rs).1 <-> (d, None) ∈ rs) /\
  Z.of_nat (length (split_results rs).1) + (split_results rs).2 = Z.of_nat (length rs) /\
  0 <= (split_results rs).2.
Proof.
  induction rs as [|r rs IH] using rev_ind; [split; [intros d; by rewrite !elem_of_nil|done]|].
  unfold split_results in *. rewrite fold_left_app. cbn [fold_left].
  destruct (fold_left _ rs _) as [ls n]. cbn [fst snd] in *. destruct IH as (IH1 & IH2 & IH3).
  destruct r as [d [e|]]; cbn [fst snd]; rewrite length_app; cbn [length]; (split; [|try rewrite length_app; cbn [length]; lia]).
  - intros d'. rewrite IH1, elem_of_app, list_elem_of_singleton. split; [by left|by intros [?|?]].
  - intros d'. rewrite !elem_of_app, IH1, !list_elem_of_singleton. split; (intros [?|H]; [by left|right; congruence]).
Qed.

(** The report counts every submission once: the number submitted and the
    number failed add up to the results of all clients, and the percentiles
    are taken over the latencies of those that were accepted. *)
Theorem report_accounts results elapsed before after err :
  let '(latencies, failures) := split_results results in
  Z.of_nat (length latencies) + failures = Z.of_nat (length results) /\
  (forall d, d ∈ latencies <-> (d, None) ∈ results) /\
  report results elapsed before after err !! 1%nat =
    Some (label "submitted" ++ Itoa (Z.of_nat (length latencies)) ++ " in " ++
          Duration_String (Round elapsed Millisecond))%string /\
  (0 < failures -> report results elapsed before after err !! 2%nat = Some (label "failed" ++ Itoa failures)%string).
Proof.
  pose proof (split_results_spec results) as (H1 & H2 & _). unfold report.
  destruct (split_results results) as [ls n]. cbn [fst snd] in *. split; [done|]. split; [done|]. split; [done|].
  intros Hn. by rewrite (proj2 (Z.ltb_lt _ _) Hn).
Qed.

(** A client stops at the deadline, and a call that the deadline cut short is
    not a failure: the results of a client are the outcomes of its first
    rounds, and each failure among them was reported before the time was up. *)
Theorem submitter_measures f env :
  exists k, submitter f env = map (fun r => (latency r, outcome_err r)) (take k env) /\
    Forall (fun r => up_before r = false /\ (outcome_err r = None \/ up_after r = false)) (take k env).
Proof.
  induction env as [|r env [k [IH1 IH2]]]; [by exists 0%nat|]. cbn [submitter].
  destruct (up_before r) eqn:Eb; [exists 0%nat; by split; [|constructor]|].
  destruct ((0 <? benchRate f) && negb (ticked r)); [exists 0%nat; by split; [|constructor]|].
  destruct (outcome_err r) as [e|] eqn:Ee.
  - destruct (up_after r) eqn:Ea; [exists 0%nat; by split; [|constructor]|].
    exists (S k). cbn [take map]. rewrite IH1, Ee. split; [done|]. constructor; [by split; [|right]|done].
  - exists (S k). cbn [take map]. rewrite IH1, Ee. split; [done|]. constructor; [by split; [|left]|done].
Qed.
