(* ===== verification/Broker.v ===== *)
(** * Broker: the life of the broker process, [cmd/conveyor/broker.go]

    [runBroker] starts a dispatcher, a snapshot loop and an HTTP server over
    one store, waits for a signal or for the server to fail, and takes them
    down. The goroutines are modelled by what they do to the store: [accesses]
    is who called it, in order. *)
From S2P Require Import Prelude.

Inductive caller :=
  | DispatcherCall         (** a method called by [dispatcher.Run] *)
  | SnapshotCall           (** [store.Snapshot] of the periodic loop *)
  | HandlerCall            (** a method called by an RPC handler *)
  | FinalSnapshotCall
  | CloseCall.

Inductive snap_loop :=
  | SnapWaiting            (** in its [select] *)
  | SnapTaking             (** in [store.Snapshot] *)
  | SnapDone.

(** Where the dispatcher's goroutine is in [dispatcher.Run]. *)
Inductive turn_state :=
  | DispTurn               (** reclaiming, dispatching, timing the next turn *)
  | DispSending            (** in a turn, with a leased job at a channel that is full *)
  | DispWaiting            (** in the [select] that ends a turn *)
  | DispDone.              (** [dispatcherDone] is closed *)

(** Where the main goroutine is. *)
Inductive main_phase :=
  | Serving                        (** the [select] over [errCh] and [ctx] *)
  | ShuttingDown                   (** in [srv.Shutdown] *)
  | AwaitingSnap                   (** [<-snapDone] *)
  | AwaitingDispatcher             (** [<-dispatcherDone] *)
  | LastSnapshot
  | Returning (err : option string)  (** the deferred calls, [stop] first *)
  | Closed (err : option string)
  | Exited (err : option string).

Record process := mkProcess {
  main : main_phase;
  ctx_done : bool;
  dispatching : turn_state;
  snapping : snap_loop;
  accepting : bool;                (** the server takes requests *)
  errCh : option string;
  handlers : nat;                  (** RPCs in progress *)
  shutdown_timed_out : bool;
  accesses : list caller
}.

(** The process when everything has been started. *)
Definition started : process :=
  mkProcess Serving false DispTurn SnapWaiting true None 0 false [].

Definition with_main (m : main_phase) (p : process) : process :=
  mkProcess m (ctx_done p) (dispatching p) (snapping p) (accepting p) (errCh p) (handlers p)
    (shutdown_timed_out p) (accesses p).
Definition with_ctx_done (p : process) : process :=
  mkProcess (main p) true (dispatching p) (snapping p) (accepting p) (errCh p) (handlers p)
    (shutdown_timed_out p) (accesses p).
Definition with_snapping (s : snap_loop) (p : process) : process :=
  mkProcess (main p) (ctx_done p) (dispatching p) s (accepting p) (errCh p) (handlers p)
    (shutdown_timed_out p) (accesses p).
Definition with_handlers (n : nat) (p : process) : process :=
  mkProcess (main p) (ctx_done p) (dispatching p) (snapping p) (accepting p) (errCh p) n
    (shutdown_timed_out p) (accesses p).
Definition with_dispatching (d : turn_state) (p : process) : process :=
  mkProcess (main p) (ctx_done p) d (snapping p) (accepting p) (errCh p) (handlers p)
    (shutdown_timed_out p) (accesses p).
Definition stop_accepting (err : option string) (p : process) : process :=
  mkProcess (main p) (ctx_done p) (dispatching p) (snapping p) false err (handlers p)
    (shutdown_timed_out p) (accesses p).
Definition timed_out (p : process) : process :=
  mkProcess (main p) (ctx_done p) (dispatching p) (snapping p) (accepting p) (errCh p) (handlers p)
    true (accesses p).
Definition access (c : caller) (p : process) : process :=
  mkProcess (main p) (ctx_done p) (dispatching p) (snapping p) (accepting p) (errCh p) (handlers p)
    (shutdown_timed_out p) (accesses p ++ [c]).

Definition exited (p : process) : Prop := exists err, main p = Exited err.

(** What happens around the main goroutine. *)
Inductive side_step : process -> process -> Prop :=
  | signal p : side_step p (with_ctx_done p)
  | dispatcher_call p :
      dispatching p = DispTurn -> side_step p (access DispatcherCall p)
  | dispatcher_blocks p :
      (* the send of [dispatch] heeds the stream's context, not the process's *)
      dispatching p = DispTurn -> side_step p (with_dispatching DispSending p)
  | dispatcher_unblocks p :
      (* the stream's handler takes the job, or the stream's context is done *)
      dispatching p = DispSending -> side_step p (with_dispatching DispTurn p)
  | dispatcher_waits p :
      dispatching p = DispTurn -> side_step p (with_dispatching DispWaiting p)
  | dispatcher_wakes p :
      dispatching p = DispWaiting -> side_step p (with_dispatching DispTurn p)
  | dispatcher_return p :
      dispatching p = DispWaiting -> ctx_done p = true -> side_step p (with_dispatching DispDone p)
  | snap_tick p :
      (* a [select] with both cases ready takes either *)
      snapping p = SnapWaiting -> side_step p (with_snapping SnapTaking p)
  | snap_call p :
      snapping p = SnapTaking -> side_step p (access SnapshotCall p)
  | snap_end p :
      snapping p = SnapTaking -> side_step p (with_snapping SnapWaiting p)
  | snap_return p :
      snapping p = SnapWaiting -> ctx_done p = true -> side_step p (with_snapping SnapDone p)
  | request p :
      accepting p = true -> side_step p (with_handlers (S (handlers p)) p)
  | handler_call p :
      (0 < handlers p)%nat -> side_step p (access HandlerCall p)
  | handler_return p n :
      handlers p = S n -> side_step p (with_handlers n p)
  | serve_fails p err :
      (* [ErrServerClosed] is not reported *)
      accepting p = true -> side_step p (stop_accepting (Some err) p).

(** The main goroutine. *)
Inductive main_step : process -> process -> Prop :=
  | main_serve_error p err :
      main p = Serving -> errCh p = Some err ->
      main_step p (with_main (Returning (Some ("serve: " ++ err)%string)) (with_ctx_done p))
  | main_shutdown p :
      main p = Serving -> ctx_done p = true ->
      main_step p (with_main ShuttingDown (stop_accepting (errCh p) p))
  | main_drained p :
      main p = ShuttingDown -> handlers p = 0%nat -> main_step p (with_main AwaitingSnap p)
  | main_deadline p :
      main p = ShuttingDown -> main_step p (with_main AwaitingSnap (timed_out p))
  | main_snap_done p :
      main p = AwaitingSnap -> snapping p = SnapDone -> main_step p (with_main AwaitingDispatcher p)
  | main_dispatcher_done p :
      main p = AwaitingDispatcher -> dispatching p = DispDone -> main_step p (with_main LastSnapshot p)
  | main_last_snapshot p :
      main p = LastSnapshot ->
      main_step p (with_main (Returning None) (access FinalSnapshotCall p))
  | main_close p err :
      main p = Returning err -> main_step p (with_main (Closed err) (access CloseCall p))
  | main_exit p err :
      main p = Closed err -> main_step p (with_main (Exited err) p).

Definition step (p p' : process) : Prop :=
  main_step p p' \/ (~ exited p /\ side_step p p').

Definition reachable (p : process) : Prop := rtc step started p.
