(* ===== verification/BrokerProps.v ===== *)
(** * BrokerProps: the broker process is taken down in order

    After a signal the store is left alone by everything the process runs
    itself before the last snapshot is taken and the store is closed; when the
    server fails, it is not. *)
From S2P Require Import Prelude Broker.

(** Neither the last snapshot nor the closing. *)
Definition plain (l : list caller) : Prop :=
  Forall (fun c => c <> FinalSnapshotCall /\ c <> CloseCall) l.

(** No request is left, unless [Shutdown] gave up on some. *)
Definition drained (p : process) : Prop :=
  accepting p = false /\ (shutdown_timed_out p = false -> handlers p = 0%nat).

Definition stopped (p : process) : Prop := snapping p = SnapDone /\ dispatching p = DispDone.

(** What may be called once the dispatcher and the snapshot loop are gone. *)
Definition left_over (p : process) (l : list caller) : Prop :=
  Forall (eq HandlerCall) l /\ (shutdown_timed_out p = false -> l = []).

Definition phase_ok (p : process) : Prop :=
  match main p with
  | Serving => plain (accesses p)
  | ShuttingDown => plain (accesses p) /\ accepting p = false
  | AwaitingSnap => plain (accesses p) /\ drained p
  | AwaitingDispatcher => plain (accesses p) /\ drained p /\ snapping p = SnapDone
  | LastSnapshot => plain (accesses p) /\ drained p /\ stopped p
  | Returning None =>
      drained p /\ stopped p /\ exists pre post,
        accesses p = pre ++ FinalSnapshotCall :: post /\ plain pre /\ left_over p post
  | Closed None | Exited None =>
      drained p /\ stopped p /\ exists pre post post',
        accesses p = pre ++ FinalSnapshotCall :: post ++ CloseCall :: post' /\
        plain pre /\ left_over p post /\ left_over p post'
  | Returning (Some _) => plain (accesses p)
  | Closed (Some _) | Exited (Some _) =>
      exists pre post, accesses p = pre ++ CloseCall :: post /\ plain pre /\ plain post
  end.

Lemma plain_snoc l c : plain l -> c <> FinalSnapshotCall -> c <> CloseCall -> plain (l ++ [c]).
Proof. intros Hl H1 H2. apply Forall_app. split; [done|]. by constructor. Qed.

Lemma left_over_snoc p l :
  drained p -> (0 < handlers p)%nat -> left_over p l -> left_over p (l ++ [HandlerCall]).
Proof.
  intros [_ Hd] Hh [Hl Hn]. split.
  - apply Forall_app. split; [done|]. by constructor.
  - intros Ht. specialize (Hd Ht). lia.
Qed.

(** A call made by a goroutine that still runs. *)
Lemma access_ok c p :
  phase_ok p -> c <> FinalSnapshotCall -> c <> CloseCall ->
  (stopped p -> drained p -> c = HandlerCall /\ (0 < handlers p)%nat) ->
  phase_ok (access c p).
Proof.
  unfold phase_ok, drained, stopped, left_over. cbn. intros H H1 H2 Hc.
  destruct (main p) as [| | | | |[e|]|[e|]|[e|]].
  1-5: try (destruct H as [H ?]; split; [|done]); by apply plain_snoc.
  - by apply plain_snoc.
  - destruct H as (Hd & Hs & pre & post & E & Hpre & Hpost). destruct (Hc Hs Hd) as [-> Hh].
    split; [done|]. split; [done|]. exists pre, (post ++ [HandlerCall]).
    rewrite E, <- app_assoc. split; [done|]. split; [done|]. by apply (left_over_snoc p).
  - destruct H as (pre & post & E & Hpre & Hpost). exists pre, (post ++ [c]).
    rewrite E, <- app_assoc. split; [done|]. split; [done|]. by apply plain_snoc.
  - destruct H as (Hd & Hs & pre & post & post' & E & Hpre & Hpost & Hpost').
    destruct (Hc Hs Hd) as [-> Hh]. split; [done|]. split; [done|].
    exists pre, post, (post' ++ [HandlerCall]). rewrite E, <- app_assoc. cbn. rewrite <- app_assoc.
    split; [done|]. split; [done|]. split; [done|]. by apply (left_over_snoc p).
  - destruct H as (pre & post & E & Hpre & Hpost). exists pre, (post ++ [c]).
    rewrite E, <- app_assoc. split; [done|]. split; [done|]. by apply plain_snoc.
  - destruct H as (Hd & Hs & pre & post & post' & E & Hpre & Hpost & Hpost').
    destruct (Hc Hs Hd) as [-> Hh]. split; [done|]. split; [done|].
    exists pre, post, (post' ++ [HandlerCall]). rewrite E, <- app_assoc. cbn. rewrite <- app_assoc.
    split; [done|]. split; [done|]. split; [done|]. by apply (left_over_snoc p).
Qed.

(** A step that changes neither the phase nor the calls. *)
Lemma quiet_ok p p' :
  phase_ok p -> main p' = main p -> accesses p' = accesses p ->
  shutdown_timed_out p' = shutdown_timed_out p ->
  (accepting p = false -> accepting p' = false) ->
  (accepting p = false -> handlers p = 0%nat -> handlers p' = 0%nat) ->
  (snapping p = SnapDone -> snapping p' = SnapDone) ->
  (dispatching p = DispDone -> dispatching p' = DispDone) -> phase_ok p'.
Proof.
  unfold phase_ok, drained, stopped, left_over. intros H -> -> -> Ha Hh Hs Hd.
  destruct (main p) as [| | | | |[e|]|[e|]|[e|]]; firstorder.
Qed.

Lemma side_step_ok p p' : phase_ok p -> side_step p p' -> phase_ok p'.
Proof.
  intros H Hst. destruct Hst as [p|p Hd|p Hd|p Hd|p Hd|p Hd|p Hd Hc|p Hs|p Hs|p Hs|p Hs Hc|p Ha|p Hh|p n Hh|p err Ha];
    try (apply (quiet_ok p); cbn; [done|done|done|done|congruence..]; fail).
  - apply access_ok; [done..|]. intros [_ ?]. congruence.
  - apply access_ok; [done..|]. intros [? _]. congruence.
  - by apply access_ok.
Qed.

Lemma main_step_ok p p' : phase_ok p -> main_step p p' -> phase_ok p'.
Proof.
  unfold phase_ok, drained, stopped. intros H Hst.
  destruct Hst as [p err Hm He|p Hm Hc|p Hm Hh|p Hm|p Hm Hs|p Hm Hd|p Hm|p err Hm|p err Hm];
    rewrite Hm in H; cbn.
  - done.
  - done.
  - destruct H as [? ?]. done.
  - destruct H as [? ?]. done.
  - destruct H as [? ?]. done.
  - destruct H as (? & ? & ?). done.
  - destruct H as (Hp & Hd & Hs). split; [done|]. split; [done|].
    exists (accesses p), []. split; [done|]. split; [done|]. by split; [constructor|].
  - destruct err as [e|].
    + exists (accesses p), []. split; [done|]. by split; [|constructor].
    + destruct H as (Hd & Hs & pre & post & E & Hpre & Hpost). split; [done|]. split; [done|].
      exists pre, post, []. rewrite E, <- app_assoc. split; [done|]. split; [done|]. split; [done|].
      by split; [constructor|].
  - by destruct err.
Qed.

Lemma reachable_ok p : reachable p -> phase_ok p.
Proof.
  intros H. assert (H0 : phase_ok started) by constructor. revert H0.
  induction H as [|p p1 p2 [Hs|[_ Hs]] _ IH]; intros H0; [done|..]; apply IH.
  - by eapply main_step_ok.
  - by eapply side_step_ok.
Qed.

(** ** Taking the process down *)

Lemma nsteps_main k p p1 p' : main_step p p1 -> nsteps step k p1 p' -> nsteps step (S k) p p'.
Proof. intros H Hn. eapply nsteps_l; [by left|done]. Qed.

Lemma nsteps_side k p p1 p' :
  ~ exited p -> side_step p p1 -> nsteps step k p1 p' -> nsteps step (S k) p p'.
Proof. intros He H Hn. eapply nsteps_l; [by right|done]. Qed.

(** The process can be brought to its end in [n] steps. *)
Definition ends_in (n : nat) (p : process) : Prop :=
  exists k p', (k <= n)%nat /\ nsteps step k p p' /\ exited p'.

Lemma ends_main n p p1 : main_step p p1 -> ends_in n p1 -> ends_in (S n) p.
Proof. intros H (k & p' & Hk & Hn & He). exists (S k), p'. split; [lia|]. split; [|done]. by eapply nsteps_main. Qed.

Lemma ends_side n p p1 : ~ exited p -> side_step p p1 -> ends_in n p1 -> ends_in (S n) p.
Proof. intros Hx H (k & p' & Hk & Hn & He). exists (S k), p'. split; [lia|]. split; [|done]. by eapply nsteps_side. Qed.

Lemma ends_mono n m p : (n <= m)%nat -> ends_in n p -> ends_in m p.
Proof. intros H (k & p' & Hk & ?). exists k, p'. split; [lia|done]. Qed.

Lemma not_exited p : (forall err, main p <> Exited err) -> ~ exited p.
Proof. intros H [err He]. by apply (H err). Qed.

Lemma ends_returning p err : main p = Returning err -> ends_in 2 p.
Proof.
  intros Hm. eapply ends_main; [by eapply main_close|]. eapply ends_main; [by eapply main_exit|].
  exists 0%nat. eexists. split; [done|]. split; [constructor|by exists err].
Qed.

Lemma ends_last p : main p = LastSnapshot -> ends_in 3 p.
Proof. intros Hm. eapply ends_main; [by apply main_last_snapshot|]. by eapply ends_returning. Qed.

(** The steps to the end of the turn the dispatcher is in. *)
Definition turn_left (d : turn_state) : nat :=
  match d with DispSending => 2 | DispTurn => 1 | DispWaiting | DispDone => 0 end.

Definition at_rest (d : turn_state) : Prop := d = DispWaiting \/ d = DispDone.

(** Finishing the turn first. *)
Lemma ends_turn n p :
  ~ exited p ->
  (forall q, main q = main p -> ctx_done q = ctx_done p -> at_rest (dispatching q) -> ends_in n q) ->
  ends_in (turn_left (dispatching p) + n) p.
Proof.
  intros Hx H.
  assert (Ht : forall q, main q = main p -> ctx_done q = ctx_done p ->
    dispatching q = DispTurn -> ends_in (S n) q).
  { intros q Hm Hc Hd. eapply ends_side; [|by apply dispatcher_waits|].
    - intros [e He]. apply Hx. exists e. congruence.
    - apply H; [done..|]. by left. }
  destruct (dispatching p) eqn:Ed; cbn [turn_left plus].
  - by apply Ht.
  - eapply ends_side; [done|by apply dispatcher_unblocks|]. by apply Ht.
  - apply H; [done..|]. rewrite Ed. by left.
  - apply H; [done..|]. rewrite Ed. by right.
Qed.

Lemma ends_dispatcher p :
  main p = AwaitingDispatcher -> ctx_done p = true -> at_rest (dispatching p) -> ends_in 5 p.
Proof.
  intros Hm Hc [Ed|Ed].
  - eapply ends_side; [apply not_exited; congruence|by apply dispatcher_return|].
    eapply ends_main; [by apply main_dispatcher_done|]. by apply ends_last.
  - apply (ends_mono 4); [lia|]. eapply ends_main; [by apply main_dispatcher_done|]. by apply ends_last.
Qed.

Lemma ends_snap p :
  main p = AwaitingSnap -> ctx_done p = true -> at_rest (dispatching p) -> ends_in 8 p.
Proof.
  intros Hm Hc Hr.
  assert (Hx : ~ exited p) by (apply not_exited; congruence).
  assert (Hdone : forall q, main q = AwaitingSnap -> ctx_done q = true -> snapping q = SnapDone ->
    at_rest (dispatching q) -> ends_in 6 q).
  { intros q H1 H2 H3 H4. eapply ends_main; [by apply main_snap_done|]. by apply ends_dispatcher. }
  assert (Hwait : forall q, main q = AwaitingSnap -> ctx_done q = true -> snapping q = SnapWaiting ->
    at_rest (dispatching q) -> ends_in 7 q).
  { intros q H1 H2 H3 H4. eapply ends_side; [apply not_exited; congruence|by apply snap_return|]. by apply Hdone. }
  destruct (snapping p) eqn:Es.
  - apply (ends_mono 7); [lia|]. by apply Hwait.
  - eapply ends_side; [done|by apply snap_end|]. by apply Hwait.
  - apply (ends_mono 6); [lia|]. by apply Hdone.
Qed.

Lemma ends_shutdown p :
  main p = ShuttingDown -> ctx_done p = true -> at_rest (dispatching p) -> ends_in 9 p.
Proof. intros Hm Hc Hr. eapply ends_main; [by apply main_deadline|]. by apply ends_snap. Qed.

(** Once the main goroutine has left its [select], the context is done. *)
Lemma reachable_ctx p : reachable p -> main p = Serving \/ ctx_done p = true.
Proof.
  intros H. assert (H0 : main started = Serving \/ ctx_done started = true) by by left. revert H0.
  induction H as [|p p1 p2 Hs _ IH]; intros H0; [done|]. apply IH.
  destruct Hs as [Hs|[_ Hs]]; destruct Hs; cbn in *; destruct H0; try (by left); try (by right); try congruence.
  all: by right.
Qed.

(** ** The properties *)

(** Eleven steps, when the dispatcher is not in a turn. *)
Lemma ends_at_rest p :
  (main p = Serving \/ ctx_done p = true) -> ~ exited p -> at_rest (dispatching p) -> ends_in 11 p.
Proof.
  intros [Hm|Hc] Hx Hr.
  - eapply ends_side; [done|apply signal|].
    eapply ends_main; [by apply main_shutdown|]. by apply ends_shutdown.
  - destruct (main p) eqn:Hm.
    + eapply ends_mono; [|eapply ends_main; [by apply main_shutdown|by apply ends_shutdown]]. lia.
    + eapply ends_mono; [|by apply ends_shutdown]. lia.
    + eapply ends_mono; [|by apply ends_snap]. lia.
    + eapply ends_mono; [|by apply ends_dispatcher]. lia.
    + eapply ends_mono; [|by apply ends_last]. lia.
    + eapply ends_mono; [|by eapply ends_returning]. lia.
    + eapply ends_mono; [|eapply ends_main; [by eapply main_exit|]]; [|exists 0%nat; eexists;
        split; [done|]; split; [constructor|by eexists]]. lia.
    + exfalso. apply Hx. by eexists.
Qed.

(** C39: the broker goes down in order and can always be taken down. Whatever
    the dispatcher, the snapshot loop and the requests were doing when the
    signal came, the last snapshot is taken and the store closed, once each and
    in this order, when none of them can touch the store any more, but requests
    that outlived the ten seconds of [Shutdown]. And from every moment at most
    eleven steps, the signal included, bring the process to its end, once the
    dispatcher and the snapshot loop have finished the turn they are in: nothing
    else it waits for can hold it up, no request in particular. The end of the
    snapshot loop's turn is among the eleven; the dispatcher's turn counts on
    top, as the step that ends it and, when it stands at a full channel with a
    leased job, the one in which the stream takes the job or goes away. *)
Theorem shutdown_in_order p :
  reachable p ->
  (main p = Exited None ->
     exists pre post post',
       accesses p = pre ++ FinalSnapshotCall :: post ++ CloseCall :: post' /\
       Forall (fun c => c <> FinalSnapshotCall /\ c <> CloseCall) pre /\
       Forall (eq HandlerCall) (post ++ post') /\
       (shutdown_timed_out p = false -> post = [] /\ post' = [])) /\
  (~ exited p -> ends_in (turn_left (dispatching p) + 11) p).
Proof.
  intros Hr. pose proof (reachable_ok p Hr) as Hok. split.
  - intros Hm. unfold phase_ok in Hok. rewrite Hm in Hok.
    destruct Hok as (_ & _ & pre & post & post' & E & Hpre & [H1 H2] & [H3 H4]).
    exists pre, post, post'. split; [done|]. split; [done|]. split; [by apply Forall_app|]. auto.
  - intros Hx. apply ends_turn; [done|]. intros q Hm Hc Hq. apply ends_at_rest; [|intros [e He]|done].
    + rewrite Hm, Hc. by apply reachable_ctx.
    + apply Hx. exists e. congruence.
Qed.

(** The comment says closing the store is the last write the process makes.
    When the server fails, for instance because its port is taken, [runBroker]
    returns without waiting for its goroutines: the store is closed while a
    snapshot is being taken, and a snapshot in progress goes on behind it. *)
Theorem serve_error_closes_too_early :
  exists p, reachable p /\ main p = Exited (Some "serve: address already in use"%string) /\
    accesses p = [SnapshotCall; CloseCall; SnapshotCall].
Proof.
  assert (Hx : forall q, (forall err, main q <> Exited err) -> ~ exited q) by exact not_exited.
  eexists. split; [|split].
  - eapply rtc_l; [right; split; [by apply Hx|by apply snap_tick]|].
    eapply rtc_l; [right; split; [by apply Hx|by apply snap_call]|].
    eapply rtc_l; [right; split; [by apply Hx|by apply (serve_fails _ "address already in use")]|].
    eapply rtc_l; [left; by eapply main_serve_error|].
    eapply rtc_l; [left; by eapply main_close|].
    eapply rtc_l; [right; split; [by apply Hx|by apply snap_call]|].
    eapply rtc_l; [left; by eapply main_exit|]. apply rtc_refl.
  - reflexivity.
  - reflexivity.
Qed.

(** ** Witness *)

Definition demo_exit : process :=
  mkProcess (Exited None) true DispDone SnapDone false None 0 false
    [DispatcherCall; HandlerCall; FinalSnapshotCall; CloseCall].

Lemma demo_exit_reachable : reachable demo_exit.
Proof.
  eapply rtc_l; [right; split; [by apply not_exited|by apply dispatcher_call]|].
  eapply rtc_l; [right; split; [by apply not_exited|by apply request]|].
  eapply rtc_l; [right; split; [by apply not_exited|apply handler_call; cbn; lia]|].
  eapply rtc_l; [right; split; [by apply not_exited|by apply (handler_return _ 0)]|].
  eapply rtc_l; [right; split; [by apply not_exited|apply signal]|].
  eapply rtc_l; [left; by apply main_shutdown|].
  eapply rtc_l; [left; by apply main_drained|].
  eapply rtc_l; [right; split; [by apply not_exited|by apply snap_return]|].
  eapply rtc_l; [left; by apply main_snap_done|].
  eapply rtc_l; [right; split; [by apply not_exited|by apply dispatcher_blocks]|].
  eapply rtc_l; [right; split; [by apply not_exited|by apply dispatcher_unblocks]|].
  eapply rtc_l; [right; split; [by apply not_exited|by apply dispatcher_waits]|].
  eapply rtc_l; [right; split; [by apply not_exited|by apply dispatcher_return]|].
  eapply rtc_l; [left; by apply main_dispatcher_done|].
  eapply rtc_l; [left; by apply main_last_snapshot|].
  eapply rtc_l; [left; by eapply main_close|].
  eapply rtc_l; [left; by eapply main_exit|]. apply rtc_refl.
Qed.

Lemma shutdown_in_order_witness :
  exists pre post post', accesses demo_exit = pre ++ FinalSnapshotCall :: post ++ CloseCall :: post' /\
    post = [] /\ post' = [].
Proof.
  destruct (proj1 (shutdown_in_order demo_exit demo_exit_reachable) eq_refl)
    as (pre & post & post' & H1 & _ & _ & H2).
  exists pre, post, post'. split; [exact H1|]. exact (H2 eq_refl).
Defined.
