(* ===== verification/Connect.v ===== *)
(** * Connect: the way of a call from the client to the server

    The generated client and handler of the service
    ([genproto/conveyor/v1/conveyorv1connect/queue.connect.go]), the client that
    [newClient] dials ([cmd/conveyor/client.go]), the server behind the routes
    of [runBroker] ([cmd/conveyor/broker.go]) and what of [net/url] and
    [net/http] decides where a request goes. The connect library, which turns
    messages into HTTP bodies and back, is the class [ConnectLib]; its laws
    carry only messages whose texts are valid UTF-8, as protobuf does. *)
From S2P Require Import Prelude Utf8 Job Heap Index Framing LogSpec Event Memory Store Dispatcher Server Json Cli.
Local Open Scope string_scope.

(** ** The procedures *)

Definition BrokerServiceName : string := "conveyor.v1.BrokerService".

Definition BrokerServiceSubmitProcedure : string := "/conveyor.v1.BrokerService/Submit".
Definition BrokerServiceGetProcedure : string := "/conveyor.v1.BrokerService/Get".
Definition BrokerServiceStatsProcedure : string := "/conveyor.v1.BrokerService/Stats".
Definition BrokerServiceListJobsProcedure : string := "/conveyor.v1.BrokerService/ListJobs".
Definition BrokerServiceReplayJobProcedure : string := "/conveyor.v1.BrokerService/ReplayJob".
Definition BrokerServiceLeaseProcedure : string := "/conveyor.v1.BrokerService/Lease".
Definition BrokerServiceAckProcedure : string := "/conveyor.v1.BrokerService/Ack".
Definition BrokerServiceNackProcedure : string := "/conveyor.v1.BrokerService/Nack".
Definition BrokerServiceHeartbeatProcedure : string := "/conveyor.v1.BrokerService/Heartbeat".

(** The methods that answer with one message, with the fields the two sides
    read and write. [Lease], which answers with a stream, stands apart. *)
Inductive unary :=
  | MSubmit | MGet | MStats | MListJobs | MReplayJob | MAck | MNack | MHeartbeat.

Definition request (m : unary) : Type :=
  match m with
  | MSubmit => SubmitRequest
  | MGet => string
  | MStats => string
  | MListJobs => ListJobsRequest
  | MReplayJob => string
  | MAck => AckRequest
  | MNack => NackRequest
  | MHeartbeat => HeartbeatRequest
  end.

Definition response (m : unary) : Type :=
  match m with
  | MSubmit => SubmitResponse
  | MGet => option ProtoJob
  | MStats => Store.Stats
  | MListJobs => list ProtoJob
  | MReplayJob => unit
  | MAck => bool
  | MNack => NackResponse
  | MHeartbeat => HeartbeatResponse
  end.

(** The text fields of a message: protobuf takes no other text than valid
    UTF-8. *)
Definition job_text (j : ProtoJob) : list string :=
  [Id j; PJQueue j; PJHandler j; PJIdempotencyKey j; PJLeasedBy j; PJLastError j].

Definition request_text (m : unary) : request m -> list string :=
  match m with
  | MSubmit => fun r => [SRQueue r; SRHandler r; SRIdempotencyKey r]
  | MGet => fun id => [id]
  | MStats => fun queue => [queue]
  | MListJobs => fun r => [LJQueue r]
  | MReplayJob => fun id => [id]
  | MAck => fun r => [AckJobId r; AckWorkerId r]
  | MNack => fun r => [NackJobId r; NackWorkerId r; NackReason r]
  | MHeartbeat => fun r => [HBJobId r; HBWorkerId r]
  end.

Definition response_text (m : unary) : response m -> list string :=
  match m with
  | MSubmit => fun r => [SubJobId r]
  | MGet => fun oj => match oj with Some j => job_text j | None => [] end
  | MStats => fun st => map SQueue (StatsQueues st)
  | MListJobs => fun js => flat_map job_text js
  | _ => fun _ => []
  end.

Definition lease_text (r : LeaseRequest) : list string := [LRQueue r; LRWorkerId r].

(** Whether a message with these texts can be marshalled. *)
Definition sendable (texts : list string) : bool := forallb valid_string texts.

(** ** URLs and routes *)

(** What is before the first character in [stops], and the rest. *)
Fixpoint cut_any (stops s : string) : string * string :=
  match s with
  | EmptyString => (EmptyString, EmptyString)
  | String c t =>
      if contains c stops then (EmptyString, s)
      else let '(a, b) := cut_any stops t in (String c a, b)
  end.

(** [unescape] of [net/url], for a path. *)
Fixpoint unescape (s : string) : option string :=
  match s with
  | EmptyString => Some EmptyString
  | String c t =>
      if Ascii.eqb c "%" then
        match t with
        | String a (String b t) =>
            a ← hex_value a; b ← hex_value b; t ← unescape t;
            Some (String (ascii_of_N (16 * a + b)) t)
        | _ => None
        end
      else t ← unescape t; Some (String c t)
  end.

(** An absolute URL as [url.Parse] splits it: the authority, which the transport
    dials, and the path. *)
Definition split_url (url : string) : option (string * string) :=
  let behind n := String.substring n (String.length url - n) url in
  rest ← (if HasPrefix url "http://" then Some (behind 7%nat)
          else if HasPrefix url "https://" then Some (behind 8%nat) else None);
  let '(authority, rest) := cut_any "/?#" rest in
  path ← unescape (cut_any "?#" rest).1;
  Some (authority, path).

(** [strings.TrimRight(s, "/")]. *)
Fixpoint TrimRight_slash (s : string) : string :=
  match s with
  | EmptyString => EmptyString
  | String c t =>
      match TrimRight_slash t with
      | EmptyString => if Ascii.eqb c "/" then EmptyString else String c EmptyString
      | t => String c t
      end
  end.

(** [cleanPath] of [net/http]: without empty, [.] and [..] segments. *)
Fixpoint segments (s : string) : list string :=
  match s with
  | EmptyString => [EmptyString]
  | String c t =>
      match segments t with
      | x :: xs => if Ascii.eqb c "/" then EmptyString :: x :: xs else String c x :: xs
      | [] => []
      end
  end.

Definition clean_segment (stack : list string) (x : string) : list string :=
  if bool_decide (x = "") || bool_decide (x = ".") then stack
  else if bool_decide (x = "..") then tail stack
  else x :: stack.

Fixpoint ends_in_slash (s : string) : bool :=
  match s with
  | EmptyString => false
  | String c EmptyString => Ascii.eqb c "/"
  | String _ t => ends_in_slash t
  end.

Definition cleanPath (p : string) : string :=
  let np := "/" ++ String.concat "/" (rev (fold_left clean_segment (segments p) [])) in
  if ends_in_slash p && negb (bool_decide (np = "/")) then np ++ "/" else np.

(** ** HTTP versions *)

(** [http.Protocols]; HTTP/2 without TLS is a set of its own. *)
Record Protocols := mkProtocols { HTTP1 : bool; HTTP2 : bool; UnencryptedHTTP2 : bool }.
Definition no_protocols : Protocols := mkProtocols false false false.
Definition SetHTTP1 (ok : bool) (p : Protocols) : Protocols := mkProtocols ok (HTTP2 p) (UnencryptedHTTP2 p).
Definition SetUnencryptedHTTP2 (ok : bool) (p : Protocols) : Protocols := mkProtocols (HTTP1 p) (HTTP2 p) ok.

(** [Protocols] of the server, and those of [sharedHTTPClient]. *)
Definition server_protocols : Protocols := SetUnencryptedHTTP2 true (SetHTTP1 true no_protocols).
Definition client_protocols : Protocols := SetUnencryptedHTTP2 true no_protocols.

Section Http.
Context {St Strm Wire Reply : Type}.

Record http_request := mkRequest { URL_Path : string; Body : Wire }.

Inductive http_reply :=
  | Replied (r : Reply)
  | NotFound
  | Redirect (path : string).

Definition http_handler : Type := http_request -> St -> http_reply * St.

Definition http_NotFound : http_handler := fun _ s => (NotFound, s).

(** [http.ServeMux]: a pattern matches itself, and what it is a prefix of when
    it ends in a slash; the longest one wins. *)
Definition pattern_matches (path pattern : string) : bool :=
  bool_decide (path = pattern) || (ends_in_slash pattern && HasPrefix path pattern).

Definition ServeMux : Type := list (string * http_handler).

Fixpoint mux_match (mux : ServeMux) (path : string) : option (string * http_handler) :=
  match mux with
  | [] => None
  | (p, h) :: mux =>
      match mux_match mux path with
      | Some (q, k) =>
          if pattern_matches path p && (String.length q <? String.length p)%nat then Some (p, h) else Some (q, k)
      | None => if pattern_matches path p then Some (p, h) else None
      end
  end.

Definition mux_exact (mux : ServeMux) (path : string) : bool :=
  match mux_match mux path with Some (p, _) => bool_decide (p = path) | None => false end.

(** A path without the slash of a pattern is sent to it, one that is not clean
    to its clean form. *)
Definition ServeHTTP (mux : ServeMux) : http_handler := fun r s =>
  let path := cleanPath (URL_Path r) in
  if negb (mux_exact mux path) && negb (ends_in_slash path) && mux_exact mux (path ++ "/")
  then (Redirect (path ++ "/"), s)
  else if negb (bool_decide (path = URL_Path r)) then (Redirect path, s)
  else
    match mux_match mux path with
    | Some (_, h) => h r s
    | None => http_NotFound r s
    end.

(** ** The service *)

(** [BrokerServiceHandler]; the state of what implements it is [St], a stream it
    has begun to answer with an [Strm]. *)
Record BrokerServiceHandler := mkBrokerServiceHandler {
  svc_Submit : SubmitRequest -> M St (rpcError string) SubmitResponse;
  svc_Get : string -> M St (rpcError string) (option ProtoJob);
  svc_Stats : string -> M St (rpcError string) Store.Stats;
  svc_ListJobs : ListJobsRequest -> M St (rpcError string) (list ProtoJob);
  svc_ReplayJob : string -> M St (rpcError string) unit;
  svc_Lease : LeaseRequest -> St -> Strm * St;
  svc_Ack : AckRequest -> M St (rpcError string) bool;
  svc_Nack : NackRequest -> M St (rpcError string) NackResponse;
  svc_Heartbeat : HeartbeatRequest -> M St (rpcError string) HeartbeatResponse
}.

Definition implementation (svc : BrokerServiceHandler) (m : unary) :
    request m -> M St (rpcError string) (response m) :=
  match m with
  | MSubmit => svc_Submit svc
  | MGet => svc_Get svc
  | MStats => svc_Stats svc
  | MListJobs => svc_ListJobs svc
  | MReplayJob => svc_ReplayJob svc
  | MAck => svc_Ack svc
  | MNack => svc_Nack svc
  | MHeartbeat => svc_Heartbeat svc
  end.

(** [http.Client.Do]: a body posted to a URL. *)
Definition HTTPClient : Type := string -> Wire -> St -> http_reply * St.

(** The connect library. [error_text] is what an error prints at the client.
    Schemas and options, which do not decide where a call goes, are left out. *)
Class ConnectLib := {
  Client : Type;
  NewClient (httpClient : HTTPClient) (url : string) : Client;
  NewUnaryHandler (m : unary) (procedure : string)
    (f : request m -> M St (rpcError string) (response m)) : http_handler;
  NewServerStreamHandler (procedure : string) (f : LeaseRequest -> St -> Strm * St) : http_handler;
  CallUnary (c : Client) (m : unary) : request m -> M St string (response m);
  CallServerStream (c : Client) : LeaseRequest -> M St string Strm;
  error_text : Code -> string -> string
}.

(** What a call returns to the client, from what the server's method returned.
    A response that cannot be marshalled becomes an error, and a method that
    panics aborts its request. *)
Definition delivered {clib : ConnectLib} (m : unary) (server : (rpcError string + response m) * St)
    (client : (string + response m) * St) : Prop :=
  client.2 = server.2 /\
  match server.1 with
  | inr x => if sendable (response_text m x) then client.1 = inr x else exists e, client.1 = inl e
  | inl (ConnectError code e) => client.1 = inl (error_text code e)
  | inl Panic => exists e, client.1 = inl e
  end.

(** What the library promises: a client whose requests come to a handler of the
    procedure at the end of its URL gets what the function in it returns for a
    message that can be marshalled, and an error for one that cannot. *)
Class ConnectLaws {clib : ConnectLib} := {
  unary_call m httpClient base procedure f req s :
    (forall b s, httpClient (base ++ procedure) b s = NewUnaryHandler m procedure f (mkRequest procedure b) s) ->
    sendable (request_text m req) = true ->
    delivered m (f req s) (CallUnary (NewClient httpClient (base ++ procedure)) m req s);
  unary_unsendable m httpClient url req s :
    sendable (request_text m req) = false ->
    exists e, (CallUnary (NewClient httpClient url) m req s).1 = inl e;
  stream_call httpClient base procedure f req s :
    (forall b s, httpClient (base ++ procedure) b s = NewServerStreamHandler procedure f (mkRequest procedure b) s) ->
    sendable (lease_text req) = true ->
    CallServerStream (NewClient httpClient (base ++ procedure)) req s = (inr (f req s).1, (f req s).2);
  stream_unsendable httpClient url req s :
    sendable (lease_text req) = false ->
    exists e, (CallServerStream (NewClient httpClient url) req s).1 = inl e
}.

Section Service.
Context {clib : ConnectLib}.

(** [NewBrokerServiceHandler]: where to mount the handler, and the handler. *)
Definition NewBrokerServiceHandler (svc : BrokerServiceHandler) : string * http_handler :=
  let brokerServiceSubmitHandler := NewUnaryHandler MSubmit BrokerServiceSubmitProcedure (svc_Submit svc) in
  let brokerServiceGetHandler := NewUnaryHandler MGet BrokerServiceGetProcedure (svc_Get svc) in
  let brokerServiceStatsHandler := NewUnaryHandler MStats BrokerServiceStatsProcedure (svc_Stats svc) in
  let brokerServiceListJobsHandler := NewUnaryHandler MListJobs BrokerServiceListJobsProcedure (svc_ListJobs svc) in
  let brokerServiceReplayJobHandler := NewUnaryHandler MReplayJob BrokerServiceReplayJobProcedure (svc_ReplayJob svc) in
  let brokerServiceLeaseHandler := NewServerStreamHandler BrokerServiceLeaseProcedure (svc_Lease svc) in
  let brokerServiceAckHandler := NewUnaryHandler MAck BrokerServiceAckProcedure (svc_Ack svc) in
  let brokerServiceNackHandler := NewUnaryHandler MNack BrokerServiceNackProcedure (svc_Nack svc) in
  let brokerServiceHeartbeatHandler := NewUnaryHandler MHeartbeat BrokerServiceHeartbeatProcedure (svc_Heartbeat svc) in
  ("/conveyor.v1.BrokerService/", fun r s =>
    let at_ procedure := bool_decide (URL_Path r = procedure) in
    if at_ BrokerServiceSubmitProcedure then brokerServiceSubmitHandler r s
    else if at_ BrokerServiceGetProcedure then brokerServiceGetHandler r s
    else if at_ BrokerServiceStatsProcedure then brokerServiceStatsHandler r s
    else if at_ BrokerServiceListJobsProcedure then brokerServiceListJobsHandler r s
    else if at_ BrokerServiceReplayJobProcedure then brokerServiceReplayJobHandler r s
    else if at_ BrokerServiceLeaseProcedure then brokerServiceLeaseHandler r s
    else if at_ BrokerServiceAckProcedure then brokerServiceAckHandler r s
    else if at_ BrokerServiceNackProcedure then brokerServiceNackHandler r s
    else if at_ BrokerServiceHeartbeatProcedure then brokerServiceHeartbeatHandler r s
    else http_NotFound r s).

(** The routes of [runBroker]; [metrics] is [promhttp.Handler()]. *)
Definition broker_mux (svc : BrokerServiceHandler) (metrics : http_handler) : ServeMux :=
  [NewBrokerServiceHandler svc; ("/metrics", metrics)].

(** A client of the library for each call, with its URL. *)
Record brokerServiceClient := mkBrokerServiceClient {
  submit : Client;
  get : Client;
  stats : Client;
  listJobs : Client;
  replayJob : Client;
  lease : Client;
  ack : Client;
  nack : Client;
  heartbeat : Client
}.

Definition NewBrokerServiceClient (httpClient : HTTPClient) (baseURL : string) : brokerServiceClient :=
  let baseURL := TrimRight_slash baseURL in
  {| submit := NewClient httpClient (baseURL ++ BrokerServiceSubmitProcedure);
     get := NewClient httpClient (baseURL ++ BrokerServiceGetProcedure);
     stats := NewClient httpClient (baseURL ++ BrokerServiceStatsProcedure);
     listJobs := NewClient httpClient (baseURL ++ BrokerServiceListJobsProcedure);
     replayJob := NewClient httpClient (baseURL ++ BrokerServiceReplayJobProcedure);
     lease := NewClient httpClient (baseURL ++ BrokerServiceLeaseProcedure);
     ack := NewClient httpClient (baseURL ++ BrokerServiceAckProcedure);
     nack := NewClient httpClient (baseURL ++ BrokerServiceNackProcedure);
     heartbeat := NewClient httpClient (baseURL ++ BrokerServiceHeartbeatProcedure) |}.

Definition client_Submit (c : brokerServiceClient) (req : SubmitRequest) : M St string SubmitResponse :=
  CallUnary (submit c) MSubmit req.
Definition client_Get (c : brokerServiceClient) (req : string) : M St string (option ProtoJob) :=
  CallUnary (get c) MGet req.
Definition client_Stats (c : brokerServiceClient) (req : string) : M St string Store.Stats :=
  CallUnary (stats c) MStats req.
Definition client_ListJobs (c : brokerServiceClient) (req : ListJobsRequest) : M St string (list ProtoJob) :=
  CallUnary (listJobs c) MListJobs req.
Definition client_ReplayJob (c : brokerServiceClient) (req : string) : M St string unit :=
  CallUnary (replayJob c) MReplayJob req.
Definition client_Lease (c : brokerServiceClient) (req : LeaseRequest) : M St string Strm :=
  CallServerStream (lease c) req.
Definition client_Ack (c : brokerServiceClient) (req : AckRequest) : M St string bool :=
  CallUnary (ack c) MAck req.
Definition client_Nack (c : brokerServiceClient) (req : NackRequest) : M St string NackResponse :=
  CallUnary (nack c) MNack req.
Definition client_Heartbeat (c : brokerServiceClient) (req : HeartbeatRequest) : M St string HeartbeatResponse :=
  CallUnary (heartbeat c) MHeartbeat req.

(** The methods that answer with one message, by their names. *)
Definition call (c : brokerServiceClient) (m : unary) : request m -> M St string (response m) :=
  match m with
  | MSubmit => client_Submit c
  | MGet => client_Get c
  | MStats => client_Stats c
  | MListJobs => client_ListJobs c
  | MReplayJob => client_ReplayJob c
  | MAck => client_Ack c
  | MNack => client_Nack c
  | MHeartbeat => client_Heartbeat c
  end.

(** [newClient] of the command line. *)
Definition newClient (sharedHTTPClient : HTTPClient) (addr : string) : brokerServiceClient :=
  NewBrokerServiceClient sharedHTTPClient (broker_url addr).

(** What a service answers that has not been written; [refused] is a stream that
    ends with an error. *)
Definition UnimplementedBrokerServiceHandler (refused : rpcError string -> Strm) : BrokerServiceHandler :=
  let unimplemented msg := ConnectError CodeUnimplemented msg in
  {| svc_Submit _ := throw (unimplemented "conveyor.v1.BrokerService.Submit is not implemented");
     svc_Get _ := throw (unimplemented "conveyor.v1.BrokerService.Get is not implemented");
     svc_Stats _ := throw (unimplemented "conveyor.v1.BrokerService.Stats is not implemented");
     svc_ListJobs _ := throw (unimplemented "conveyor.v1.BrokerService.ListJobs is not implemented");
     svc_ReplayJob _ := throw (unimplemented "conveyor.v1.BrokerService.ReplayJob is not implemented");
     svc_Lease _ s := (refused (unimplemented "conveyor.v1.BrokerService.Lease is not implemented"), s);
     svc_Ack _ := throw (unimplemented "conveyor.v1.BrokerService.Ack is not implemented");
     svc_Nack _ := throw (unimplemented "conveyor.v1.BrokerService.Nack is not implemented");
     svc_Heartbeat _ := throw (unimplemented "conveyor.v1.BrokerService.Heartbeat is not implemented") |}.
End Service.
End Http.

(** ** The broker's service *)

(** [NewServer]: every method of the service is one of [Server]. [text] is the
    text of an error, [x] what the methods draw while they run, the identifier
    of a job or worker, the time and the jitter. A stream is refused with a
    code, or it is the one registered with the dispatcher. *)
Record draws := mkDraws { drawn_id : string; drawn_now : Time; drawn_jitter : Z -> Z }.

Section Broker.
Context {L : Type} {lops : LogOps L} {codec : EventCodec} (text : storeError log_err -> string).

Definition with_text {A} (m : M Dispatcher (rpcError (storeError log_err)) A) : M Dispatcher (rpcError string) A :=
  fun d =>
    match m d with
    | (inl (ConnectError code e), d) => (inl (ConnectError code (text e)), d)
    | (inl Panic, d) => (inl Panic, d)
    | (inr r, d) => (inr r, d)
    end.

Definition NewServer (x : draws) : BrokerServiceHandler (St := Dispatcher) (Strm := Code + nat) :=
  {| svc_Submit req := with_text (Server.Submit req (drawn_id x) (drawn_now x));
     svc_Get id := fun d => (inr (Server.Get id d), d);
     svc_Stats queue := fun d => (inr (Server.Stats queue d), d);
     svc_ListJobs req := fun d => (inr (Server.ListJobs req d), d);
     svc_ReplayJob id := with_text (Server.ReplayJob id (drawn_now x));
     svc_Lease req := fun d =>
       match Lease_open req (drawn_id x) d with
       | inl code => (inl code, d)
       | inr (p, d') => (inr p, d')
       end;
     svc_Ack req := with_text (Server.Ack req);
     svc_Nack req := with_text (Server.Nack req (drawn_now x) (drawn_jitter x));
     svc_Heartbeat req := with_text (Server.Heartbeat req (drawn_now x)) |}.
End Broker.
