(* ===== verification/ConnectProps.v ===== *)
(** * ConnectProps: every call reaches its method

    From the address a command is given, through the URL of the call and the
    routes of the server, to the method of the service and back. *)
From S2P Require Import Prelude Utf8 Job Heap Index Framing LogSpec Event Memory Store Dispatcher Server Json Cli Connect.
From S2P Require Import Wal WalSpec Demo.
Local Open Scope string_scope.

Definition procedure (m : unary) : string :=
  match m with
  | MSubmit => "/conveyor.v1.BrokerService/Submit"
  | MGet => "/conveyor.v1.BrokerService/Get"
  | MStats => "/conveyor.v1.BrokerService/Stats"
  | MListJobs => "/conveyor.v1.BrokerService/ListJobs"
  | MReplayJob => "/conveyor.v1.BrokerService/ReplayJob"
  | MAck => "/conveyor.v1.BrokerService/Ack"
  | MNack => "/conveyor.v1.BrokerService/Nack"
  | MHeartbeat => "/conveyor.v1.BrokerService/Heartbeat"
  end.

Fixpoint free_of (stops s : string) : bool :=
  match s with
  | EmptyString => true
  | String c t => negb (contains c stops) && free_of stops t
  end.

(** What a broker is addressed by: [host:port]. *)
Definition plain_host (h : string) : Prop :=
  h <> "" /\ free_of "/?#" h = true /\ h <> "http:" /\ h <> "https:".

(** Any number of slashes. *)
Fixpoint slashes (n : nat) : string := match n with O => "" | S n => String "/" (slashes n) end.

(** ** Strings *)

Lemma str_app_cons c (a b : string) : String c a ++ b = String c (a ++ b).
Proof. done. Qed.

Lemma str_app_assoc (a b c : string) : (a ++ b) ++ c = a ++ b ++ c.
Proof. induction a as [|x a IH]; [done|by rewrite !str_app_cons, IH]. Qed.

Lemma str_length_app (a b : string) : String.length (a ++ b) = (String.length a + String.length b)%nat.
Proof. induction a as [|x a IH]; [done|]. rewrite str_app_cons. cbn. by rewrite IH. Qed.

Lemma HasPrefix_cons c s x p : HasPrefix (String c s) (String x p) = true <-> x = c /\ HasPrefix s p = true.
Proof. cbn [HasPrefix]. by rewrite andb_true_iff, Ascii.eqb_eq. Qed.

Lemma HasPrefix_app a b : HasPrefix (a ++ b) a = true.
Proof. induction a as [|x a IH]; [by destruct b|]. rewrite str_app_cons. cbn. by rewrite Ascii.eqb_refl. Qed.

Lemma substring_all s : String.substring 0 (String.length s) s = s.
Proof. induction s as [|c s IH]; cbn; [done|by rewrite IH]. Qed.

Lemma substring_behind a b :
  String.substring (String.length a) (String.length (a ++ b) - String.length a) (a ++ b) = b.
Proof.
  rewrite str_length_app. replace (_ + _ - _)%nat with (String.length b) by lia.
  induction a as [|c a IH]; [apply substring_all|]. rewrite str_app_cons. exact IH.
Qed.

(** ** Slashes at the end of an address *)

Lemma trim_slashes s n : TrimRight_slash (s ++ slashes n) = TrimRight_slash s.
Proof.
  assert (H0 : TrimRight_slash (slashes n) = "").
  { induction n as [|n IH]; cbn; [done|by rewrite IH]. }
  induction s as [|c s IH]; [done|]. rewrite str_app_cons. cbn. by rewrite IH.
Qed.

Lemma trim_app s t : TrimRight_slash t <> "" -> TrimRight_slash (s ++ t) = s ++ TrimRight_slash t.
Proof.
  intros Ht. induction s as [|c s IH]; [done|]. rewrite !str_app_cons. cbn. rewrite IH.
  by destruct s; [destruct (TrimRight_slash t)|].
Qed.

Lemma trim_plain h : free_of "/?#" h = true -> TrimRight_slash h = h.
Proof.
  induction h as [|c h IH]; cbn; [done|]. intros [Hc Hh]%andb_true_iff. rewrite IH by done.
  destruct h; [|done]. by destruct (Ascii.eqb c "/").
Qed.

(** ** The URL of a call *)

Lemma cut_plain stops h rest :
  free_of stops h = true -> (exists c t, rest = String c t /\ contains c stops = true) ->
  cut_any stops (h ++ rest) = (h, rest).
Proof.
  intros Hh (c & t & -> & Hc). induction h as [|x h IH].
  { change ("" ++ ?x) with x. cbn. by rewrite Hc. }
  rewrite str_app_cons. cbn [cut_any]. cbn in Hh. apply andb_true_iff in Hh as [Hx Hh]. rewrite IH by done.
  by destruct (contains x stops).
Qed.

Lemma split_call_url h p :
  free_of "/?#" h = true -> HasPrefix p "/" = true -> cut_any "?#" p = (p, "") -> unescape p = Some p ->
  split_url ("http://" ++ h ++ p) = Some (h, p).
Proof.
  intros Hh Hp Hcut Hesc. unfold split_url. rewrite HasPrefix_app.
  change 7%nat with (String.length "http://"). rewrite substring_behind.
  cbn [mbind option_bind]. rewrite cut_plain.
  - rewrite Hcut. cbn [fst]. by rewrite Hesc.
  - done.
  - destruct p as [|c p]; [done|]. exists c, p. split; [done|]. by apply HasPrefix_cons in Hp as [<- _].
Qed.

(** An address is not taken for a URL. *)
Lemma prefix_slashes h n a r :
  free_of "/?#" h = true -> free_of "/?#" a = true ->
  HasPrefix (h ++ slashes n) (a ++ String "/" r) = true -> h = a.
Proof.
  revert a. induction h as [|c h IH]; intros a Hh Ha Hp.
  - destruct a as [|x a]; [done|]. destruct n as [|n]; [done|]. rewrite str_app_cons in Hp.
    cbn [slashes] in Hp. change ("" ++ ?s) with s in Hp. by apply HasPrefix_cons in Hp as [-> _].
  - rewrite str_app_cons in Hp. cbn [free_of] in Hh. apply andb_true_iff in Hh as [Hc Hh]. destruct a as [|x a].
    + change ("" ++ ?s) with s in Hp. by apply HasPrefix_cons in Hp as [<- _].
    + rewrite str_app_cons in Hp. apply HasPrefix_cons in Hp as [-> Hp].
      cbn [free_of] in Ha. apply andb_true_iff in Ha as [_ Ha]. f_equal. by apply IH.
Qed.

Lemma address_url url h n :
  plain_host h -> url = "" \/ url = "http://" ->
  TrimRight_slash (broker_url (url ++ h ++ slashes n)) = "http://" ++ h.
Proof.
  intros (Hne & Hh & H1 & H2) Hu.
  assert (Ht : TrimRight_slash ("http://" ++ h ++ slashes n) = "http://" ++ h).
  { rewrite <- str_app_assoc, trim_slashes, trim_app, trim_plain; [done..|]. by rewrite trim_plain. }
  rewrite <- Ht. f_equal. unfold broker_url. destruct Hu as [-> | ->]; [|by rewrite HasPrefix_app].
  change ("" ++ ?s) with s.
  destruct (HasPrefix (h ++ slashes n) "http://") eqn:E1.
  { destruct H1. by apply (prefix_slashes _ n _ "/"). }
  destruct (HasPrefix (h ++ slashes n) "https://") eqn:E2; [|done].
  destruct H2. by apply (prefix_slashes _ n _ "/").
Qed.

(** ** Routes *)

Section Routes.
Context {St Strm Wire Reply : Type} {clib : ConnectLib (St := St) (Strm := Strm) (Wire := Wire) (Reply := Reply)}.
Implicit Types (svc : BrokerServiceHandler (St := St) (Strm := Strm)).

(** A client that the broker at [h] answers. *)
Definition dials (httpClient : HTTPClient (St := St) (Wire := Wire) (Reply := Reply)) (h : string)
    (server : http_handler) : Prop :=
  forall url path b s, split_url url = Some (h, path) -> httpClient url b s = server (mkRequest path b) s.

Lemma procedure_served svc metrics m b s :
  ServeHTTP (broker_mux svc metrics) (mkRequest (procedure m) b) s =
  NewUnaryHandler m (procedure m) (implementation svc m) (mkRequest (procedure m) b) s.
Proof. by destruct m. Qed.

Lemma lease_served svc metrics b s :
  ServeHTTP (broker_mux svc metrics) (mkRequest BrokerServiceLeaseProcedure b) s =
  NewServerStreamHandler BrokerServiceLeaseProcedure (svc_Lease svc) (mkRequest BrokerServiceLeaseProcedure b) s.
Proof. done. Qed.

Lemma procedure_url h m : free_of "/?#" h = true -> split_url ("http://" ++ h ++ procedure m) = Some (h, procedure m).
Proof. intros Hh. by apply split_call_url; destruct m. Qed.

Lemma unary_routed {claws : ConnectLaws} httpClient svc metrics h m req s :
  free_of "/?#" h = true -> dials httpClient h (ServeHTTP (broker_mux svc metrics)) ->
  sendable (request_text m req) = true ->
  delivered m (implementation svc m req s) (CallUnary (NewClient httpClient (("http://" ++ h) ++ procedure m)) m req s).
Proof.
  intros Hh Hd Hok. apply unary_call; [|done]. intros b s'. rewrite str_app_assoc, (Hd _ (procedure m)) by by apply procedure_url.
  apply procedure_served.
Qed.

Lemma lease_routed {claws : ConnectLaws} httpClient svc metrics h req s :
  free_of "/?#" h = true -> dials httpClient h (ServeHTTP (broker_mux svc metrics)) ->
  sendable (lease_text req) = true ->
  CallServerStream (NewClient httpClient (("http://" ++ h) ++ BrokerServiceLeaseProcedure)) req s =
  (inr (svc_Lease svc req s).1, (svc_Lease svc req s).2).
Proof.
  intros Hh Hd Hok. apply stream_call; [|done]. intros b s'.
  rewrite str_app_assoc, (Hd _ BrokerServiceLeaseProcedure); [apply lease_served|by apply split_call_url].
Qed.

(** The client of an address of the broker. *)
Lemma call_routed {claws : ConnectLaws} httpClient svc metrics url h n m req s :
  plain_host h -> url = "" \/ url = "http://" ->
  dials httpClient h (ServeHTTP (broker_mux svc metrics)) -> sendable (request_text m req) = true ->
  delivered m (implementation svc m req s) (call (newClient httpClient (url ++ h ++ slashes n)) m req s).
Proof.
  intros Hh Hu Hd Hok. unfold newClient, NewBrokerServiceClient. rewrite address_url by done.
  pose proof (unary_routed httpClient svc metrics h m req s (proj1 (proj2 Hh)) Hd Hok) as H. by destruct m.
Qed.

Lemma call_unsendable {claws : ConnectLaws} httpClient addr m req s :
  sendable (request_text m req) = false -> exists e, (call (newClient httpClient addr) m req s).1 = inl e.
Proof. intros Hno. destruct m; by apply unary_unsendable. Qed.

(** C37: A call arrives. Whatever way the broker at a host is addressed, bare or
    as an [http://] URL, with any number of slashes at the end, the client that
    [newClient] makes of the address sends each of its calls to the method of
    that name. If the texts of the message are valid UTF-8, as protobuf wants,
    the method runs once, on that message, and the client gets its result, its
    error as the library words it, or some error when it panics or when the
    result holds text that cannot be sent; a message that cannot be sent is an
    error at the client. That the library carries such messages and refuses the
    others is assumed of it, and that the network takes every request of the
    client to the host. *)
Theorem rpc_routed {claws : ConnectLaws} httpClient svc metrics url h n :
  plain_host h -> url = "" \/ url = "http://" ->
  dials httpClient h (ServeHTTP (broker_mux svc metrics)) ->
  let c := newClient httpClient (url ++ h ++ slashes n) in
  (forall m req s,
     if sendable (request_text m req) then delivered m (implementation svc m req s) (call c m req s)
     else exists e, (call c m req s).1 = inl e) /\
  (forall req s, let r := svc_Lease svc req s in
     if sendable (lease_text req) then client_Lease c req s = (inr r.1, r.2)
     else exists e, (client_Lease c req s).1 = inl e).
Proof.
  intros Hh Hu Hd. cbv zeta. split; [intros m req s|intros req s].
  - destruct (sendable _) eqn:E; [by eapply call_routed|by apply call_unsendable].
  - unfold newClient, NewBrokerServiceClient, client_Lease. rewrite address_url by done.
    destruct (sendable _) eqn:E; [eapply lease_routed; [apply Hh|done..]|by apply stream_unsendable].
Qed.

(** Nothing else is served: any other path but [/metrics] is answered with a
    redirect or not at all, and nothing changes. *)
Theorem other_paths_refused svc metrics path b s :
  (forall m, path <> procedure m) -> path <> BrokerServiceLeaseProcedure -> path <> "/metrics" ->
  let r := ServeHTTP (broker_mux svc metrics) (mkRequest path b) s in
  r.2 = s /\ (r.1 = NotFound \/ exists path', r.1 = Redirect path').
Proof.
  intros Hm Hl Hmet. cbv zeta. unfold ServeHTTP. cbn [URL_Path].
  destruct (negb (mux_exact _ (cleanPath path)) && _ && _); [split; [done|right; by eexists]|].
  case_bool_decide as Hc; cbn [negb]; [|split; [done|right; by eexists]]. rewrite Hc.
  unfold broker_mux. cbn [mux_match NewBrokerServiceHandler].
  assert (Hm2 : pattern_matches path "/metrics" = false).
  { unfold pattern_matches. by rewrite bool_decide_false. }
  rewrite Hm2. destruct (pattern_matches path "/conveyor.v1.BrokerService/"); [|split; [done|by left]].
  cbn [URL_Path].
  rewrite (bool_decide_false _ (Hm MSubmit)), (bool_decide_false _ (Hm MGet)), (bool_decide_false _ (Hm MStats)),
    (bool_decide_false _ (Hm MListJobs)), (bool_decide_false _ (Hm MReplayJob)), (bool_decide_false _ Hl),
    (bool_decide_false _ (Hm MAck)), (bool_decide_false _ (Hm MNack)), (bool_decide_false _ (Hm MHeartbeat)).
  split; [done|by left].
Qed.
End Routes.

(** Client and server have a version in common without TLS, one in which
    requests share a connection, as the stream of leases wants; and the server
    understands the plain one of other tools. *)
Theorem protocols_meet :
  UnencryptedHTTP2 client_protocols = true /\ UnencryptedHTTP2 server_protocols = true /\
  HTTP1 server_protocols = true /\ HTTP1 client_protocols = false.
Proof. done. Qed.

(** ** The broker's methods *)

(** Every method of the service is written: none answers as the embedded
    [UnimplementedBrokerServiceHandler] would. *)
Theorem all_methods_implemented {L : Type} {lops : LogOps L} {codec : EventCodec} text x m req d e :
  (implementation (NewServer text x) m req d).1 <> inl (ConnectError CodeUnimplemented e).
Proof.
  assert (Hw : forall A (c : storeError log_err -> Code) (q : M Store (storeError log_err) A) d,
    (forall e, c e <> CodeUnimplemented) ->
    forall e', (with_text text (on_store c q) d).1 <> inl (ConnectError CodeUnimplemented e')).
  { intros A c q d0 Hc e'. unfold with_text, on_store, zoom. destruct (q (store d0)) as [[e0|a] s']; cbn; [|done].
    intros [= Hcode _]. by apply (Hc e0). }
  assert (Hb : forall A B (c : storeError log_err -> Code) (q : M Store (storeError log_err) A)
      (k : A -> M Dispatcher (rpcError (storeError log_err)) B) d,
    (forall e, c e <> CodeUnimplemented) ->
    (forall a d e', (k a d).1 <> inl (ConnectError CodeUnimplemented e')) ->
    forall e', (with_text text (bind (on_store c q) k) d).1 <> inl (ConnectError CodeUnimplemented e')).
  { intros A B c q k d0 Hc Hk e'. unfold with_text, bind, on_store, zoom.
    destruct (q (store d0)) as [[e0|a] s']; cbn; [intros [= Hcode _]; by apply (Hc e0)|].
    specialize (Hk a (with_store s' d0)). destruct (k a _) as [[[code e1|]|b] d1]; cbn in *; try done.
    intros [= -> _]. by eapply Hk. }
  destruct m; cbn [implementation NewServer svc_Submit svc_Get svc_Stats svc_ListJobs svc_ReplayJob svc_Ack
    svc_Nack svc_Heartbeat].
  all: try (unfold Submit, Ack, Nack, Heartbeat; apply Hb; [by intros []|]); try done.
  all: try (apply Hw; by intros []).
  - intros [[j|] b] d0 e'; done.
  - intros [] d0 e'; done.
  - intros [[] b] d0 e'; done.
Qed.

(** ** Witness: a library that passes messages as they are *)

#[export] Instance unary_eq_dec : EqDecision unary.
Proof. solve_decision. Defined.

Section Loopback.
Context {St Strm : Type}.

Definition loop_wire : Type := {m : unary & request m} + LeaseRequest.
Definition loop_reply : Type := {m : unary & (rpcError string + response m)%type} + Strm.

Definition loop_unary (m : unary) (f : request m -> M St (rpcError string) (response m))
    (r : http_request (Wire := loop_wire)) (s : St) : http_reply (Reply := loop_reply) * St :=
  match Body r with
  | inl (existT m' req) =>
      match decide (m' = m) with
      | left e => let '(x, s) := f (eq_rect m' request req m e) s in (Replied (inl (existT m x)), s)
      | right _ => (NotFound, s)
      end
  | inr _ => (NotFound, s)
  end.

Definition loop_stream (f : LeaseRequest -> St -> Strm * St) (r : http_request (Wire := loop_wire)) (s : St) :
    http_reply (Reply := loop_reply) * St :=
  match Body r with
  | inr req => let '(x, s) := f req s in (Replied (inr x), s)
  | inl _ => (NotFound, s)
  end.

(** What the client makes of a reply. *)
Definition loop_result (m : unary) (x : rpcError string + response m) : string + response m :=
  match x with
  | inl (ConnectError _ e) => inl e
  | inl Panic => inl "aborted"
  | inr a => if sendable (response_text m a) then inr a else inl "marshal message"
  end.

Definition loop_call (m : unary) (httpClient : HTTPClient (St := St) (Wire := loop_wire) (Reply := loop_reply)) (url : string) (req : request m) :
    M St string (response m) := fun s =>
  if negb (sendable (request_text m req)) then (inl "marshal message", s)
  else
    match httpClient url (inl (existT m req) : loop_wire) s with
    | (Replied (inl (existT m' x)), s) =>
        match decide (m' = m) with
        | left e => (eq_rect m' (fun m => (string + response m)%type) (loop_result m' x) m e, s)
        | right _ => (inl "unexpected", s)
        end
    | (Replied (inr _), s) => (inl "unexpected", s)
    | (_, s) => (inl "unavailable", s)
    end.

Definition loop_call_stream (httpClient : HTTPClient (St := St) (Wire := loop_wire) (Reply := loop_reply)) (url : string) (req : LeaseRequest) :
    M St string Strm := fun s =>
  if negb (sendable (lease_text req)) then (inl "marshal message", s)
  else
    match httpClient url (inr req : loop_wire) s with
    | (Replied (inr x), s) => (inr x, s)
    | (_, s) => (inl "unavailable", s)
    end.

#[local] Instance loopback : ConnectLib (St := St) (Strm := Strm) (Wire := loop_wire) (Reply := loop_reply) := {|
  Client := HTTPClient * string;
  NewClient httpClient url := (httpClient, url);
  NewUnaryHandler m _ f := loop_unary m f;
  NewServerStreamHandler _ f := loop_stream f;
  CallUnary c m := loop_call m c.1 c.2;
  CallServerStream c := loop_call_stream c.1 c.2;
  error_text _ e := e |}.

Lemma decide_self (m : unary) : decide (m = m) = left eq_refl.
Proof. by destruct m. Qed.

#[local] Instance loopback_laws : ConnectLaws (clib := loopback).
Proof.
  split.
  - intros m http base procedure f req s Hh Hok. cbn. unfold loop_call. rewrite Hok. cbn [negb]. rewrite Hh.
    cbn. unfold loop_unary. cbn [Body]. rewrite decide_self. cbn. destruct (f req s) as [x s'].
    rewrite decide_self. cbn. split; [done|]. destruct x as [[code e|]|a]; cbn; [done|by eexists|].
    destruct (sendable (response_text m a)); [done|by eexists].
  - intros m http url req s Hno. cbn. unfold loop_call. rewrite Hno. by eexists.
  - intros http base procedure f req s Hh Hok. cbn. unfold loop_call_stream. rewrite Hok. cbn [negb]. rewrite Hh.
    cbn. unfold loop_stream. cbn [Body]. by destruct (f req s).
  - intros http url req s Hno. cbn. unfold loop_call_stream. rewrite Hno. by eexists.
Qed.

(** A network on which one server answers. *)
Definition network (h : string) (server : http_handler) : HTTPClient (St := St) (Wire := loop_wire) (Reply := loop_reply) :=
  fun url b s =>
    match split_url url with
    | Some (h', path) => if bool_decide (h' = h) then server (mkRequest path b) s else (NotFound, s)
    | None => (NotFound, s)
    end.

Lemma network_dials h server : dials (network h server) h server.
Proof. intros url path b s Hu. unfold network. by rewrite Hu, bool_decide_true. Qed.
End Loopback.

Definition demo_service : BrokerServiceHandler :=
  NewServer (L := Log) (fun _ => "") (mkDraws "job-1" 2000 no_jitter).

Definition demo_server : http_handler (Wire := loop_wire) (Reply := loop_reply) :=
  ServeHTTP (broker_mux (clib := loopback) demo_service http_NotFound).

Definition demo_client (addr : string) : brokerServiceClient :=
  newClient (clib := loopback) (network "localhost:7777" demo_server) addr.

Definition demo_request : SubmitRequest :=
  mkSubmitRequest "mail" (list_ascii_of_string "echo") "shell" "key-1" PRIORITY_NORMAL 1 0.

Lemma rpc_routed_witness :
  exists d, (Server.Submit demo_request "job-1" 2000 (NewDispatcher store0)).1 = inr (mkSubmitResponse "job-1" false) /\
    client_Submit (demo_client "localhost:7777//") demo_request (NewDispatcher store0) =
      (inr (mkSubmitResponse "job-1" false), d).
Proof.
  assert (Hh : plain_host "localhost:7777") by (split_and!; vm_compute; congruence).
  pose proof (rpc_routed (clib := loopback) (claws := loopback_laws) (network "localhost:7777" demo_server)
    demo_service http_NotFound "" "localhost:7777" 2
    Hh (or_introl eq_refl) (network_dials _ _)) as [H _].
  specialize (H MSubmit demo_request (NewDispatcher store0)).
  assert (Hok : sendable (request_text MSubmit demo_request) = true) by (vm_compute; reflexivity).
  rewrite Hok in H. destruct H as [_ H].
  assert (Hs : (Server.Submit demo_request "job-1" 2000 (NewDispatcher store0)).1 =
    inr (mkSubmitResponse "job-1" false)) by (vm_compute; reflexivity).
  exists (client_Submit (demo_client "localhost:7777//") demo_request (NewDispatcher store0)).2. split; [exact Hs|].
  unfold demo_service in H.
  cbn [implementation NewServer svc_Submit drawn_id drawn_now] in H. unfold with_text in H.
  destruct (Server.Submit demo_request "job-1" 2000 (NewDispatcher store0)) as [r d]. cbn [fst] in Hs. subst r.
  cbn [fst call] in H. unfold demo_client. destruct (client_Submit _ _ _) as [r' d']. cbn [fst snd] in *. by rewrite H.
Defined.
