(* ===== verification/EndToEnd.v ===== *)
(** * EndToEnd: from [conveyor submit] to [conveyor get]

    The parts of the system together: the commands, the generated client and
    routes, the handlers, the store, its log and snapshots, crashes and
    recovery. *)
From stdpp Require Import pretty.
From S2P Require Import Prelude Utf8 Job Heap Index Framing LogSpec Wal WalSpec Event Memory MemSpec Store Snapshot.
From S2P Require Import StoreSpec System Durability SnapshotSpec Life Demo StoreProps Dispatcher Server Rfc3339.
From S2P Require Import Handler Worker Cli Commands Connect ConnectProps.
From S2P Require Import Codec CodecProps Typed.
Local Open Scope string_scope.

Section EndToEnd.
Context {L : Type} {lops : LogOps L} {laws : LogLaws L}.
Context (file_zone : Time -> Z).
#[local] Instance file_codec : EventCodec := json_codec file_zone.
#[local] Instance file_codec_laws : CodecLaws := json_codec_laws file_zone.
Context {scodec : SnapCodec} {sclaws : SnapCodecLaws}.
Context {Wire Reply : Type}.
Context {clib : ConnectLib (St := Dispatcher) (Strm := Code + nat) (Wire := Wire) (Reply := Reply)}.
Context {conn : ConnectLaws (clib := clib)}.
Context (text : storeError log_err -> string) (metrics : http_handler (St := Dispatcher) (Wire := Wire) (Reply := Reply)).

(** A client of the command line whose address is that of a broker; [x] is what
    the broker draws. *)
Inductive client_of (x : draws) : brokerServiceClient -> Prop :=
  | dialled httpClient url h n :
      plain_host h -> url = "" \/ url = "http://" ->
      dials httpClient h (ServeHTTP (broker_mux (NewServer text x) metrics)) ->
      client_of x (newClient httpClient (url ++ h ++ slashes n)).

Lemma client_call x c m req d :
  client_of x c -> sendable (request_text m req) = true ->
  delivered m (implementation (NewServer text x) m req d) (call c m req d).
Proof. intros [http url h n Hh Hu Hd] Hok. by eapply call_routed. Qed.

(** *** What is stored can be sent *)

Lemma typed_sendable j : typed_job file_zone j -> sendable (job_text (jobToProto j)) = true.
Proof. intros []. unfold sendable, job_text. cbn. rewrite !andb_true_iff. by split_and!. Qed.

Lemma codec_typed e : codec_ok e -> event_storable file_zone e = true.
Proof. by intros [He _]%andb_true_iff. Qed.

Lemma submit_typed j : codec_ok (ev_submit j) -> typed_job file_zone j.
Proof.
  intros He%codec_typed. apply job_storable_typed. unfold event_storable in He. cbn [ev_submit EJob] in He.
  by apply andb_true_iff in He as [_ ?].
Qed.

Lemma effect_sendable e f g j :
  codec_ok e -> job_effect e = Some (f, g) ->
  sendable (job_text (jobToProto j)) = true -> sendable (job_text (jobToProto (f j))) = true.
Proof.
  intros He%codec_typed. unfold event_storable, sendable, job_text in *. cbn [forallb] in He.
  rewrite !andb_true_iff in He. decompose [and] He. clear He. cbn. rewrite !andb_true_iff.
  intros Hf (? & ? & ? & ? & ? & ? & _). unfold job_effect in Hf.
  destruct (EType e); try done; injection Hf as <- _; by split_and!.
Qed.

Lemma history_sendable m hist id j :
  history m hist -> Forall codec_ok hist -> jobs m !! id = Some j -> sendable (job_text (jobToProto j)) = true.
Proof.
  intros Hh. revert id j. induction Hh as [|m es e m' Hh IH Had Happ]; intros id j Hok Hj.
  { cbn in Hj. by rewrite lookup_empty in Hj. }
  apply Forall_app in Hok as [Hok [He _]%Forall_cons].
  destruct (apply_cases e m m' Happ)
    as [(j0 & Ht & Hj0 & ->)|[(f & g & j0 & Hf & Hj0 & ->)|[Ht ->]]]; cbn in Hj.
  - apply lookup_insert_Some in Hj as [[_ <-]|[_ Hj]]; [|by eapply IH].
    apply codec_typed in He. unfold event_storable in He. rewrite Hj0 in He.
    apply andb_true_iff in He as [_ ?]. by apply typed_sendable, job_storable_typed.
  - apply lookup_insert_Some in Hj as [[_ <-]|[_ Hj]]; [|by eapply IH].
    eapply effect_sendable; [done|done|by eapply IH].
  - by eapply IH.
Qed.

Lemma sim_sendable j j' :
  job_sim j j' -> sendable (job_text (jobToProto j')) = true -> sendable (job_text (jobToProto j)) = true.
Proof.
  intros [[Hc [Hb He]] _]. unfold job_core in Hc. injection Hc as ??????????.
  unfold sendable, job_text. cbn. rewrite !andb_true_iff. intros (? & ? & ? & ? & ? & ? & _).
  split_and!; try congruence; [destruct Hb as [-> | ->]|destruct He as [-> | ->]]; done.
Qed.

Lemma stored_sendable s dir id j :
  in_service s dir -> jobs (mem s) !! id = Some j -> sendable (job_text (jobToProto j)) = true.
Proof.
  intros [_ (base & hist & n & [Hlg _])] Hj. destruct (lg_history _ _ _ _ Hlg) as (m & Hm & Hsim).
  destruct (sim_lookup _ _ _ _ Hsim Hj) as (j' & Hj' & Hs). apply (sim_sendable _ _ Hs).
  by apply (history_sendable m hist id); [|apply (lg_codec _ _ _ _ Hlg)|].
Qed.

(** The name of a priority on the command line. *)
Definition priority_name (p : Priority) : string :=
  match p with PriorityLow => "low" | PriorityNormal => "normal" | PriorityHigh => "high" end.

(** The job that a command with a count of one submits. *)
Definition job_of (f : submitFlags) (p : Priority) (x : draws) : Job :=
  new_job (submit_defaults (submit_params (submit_request f p 0))) (drawn_id x) (drawn_now x).

Lemma submit_command x c f p d dir :
  client_of x c -> in_service (store d) dir ->
  TrimSpace (submitQueue f) <> "" -> ParsePriority (submitPriority f) = inr p -> submitCount f = 1 ->
  jobs (mem (store d)) !! drawn_id x = None ->
  (submitIdempotencyKey f <> "" -> idem (mem (store d)) !! idemKey (submitQueue f) (submitIdempotencyKey f) = None) ->
  codec_ok (ev_submit (job_of f p x)) -> one_record_room (store d) ->
  exists d', runSubmit (client_Submit c) f d = ([drawn_id x], None, d') /\
    in_service (store d') dir /\ durably (is_submitted (job_of f p x)) (store d') dir.
Proof.
  intros Hc Hh Hq Hp Hn Hnew Hkey Hok Hroom.
  assert (Hk : submit_key (submitIdempotencyKey f) (submitCount f) 0 = submitIdempotencyKey f).
  { unfold submit_key. rewrite Hn, andb_false_r. done. }
  destruct (Submit_new (submit_params (submit_request f p 0)) (drawn_id x) (drawn_now x) (store d) dir)
    as (s' & Hrun & Hh' & Hd & _); [done|done|done| |done|done|].
  { split; [done|]. intros Hne. cbn in Hne |- *. rewrite Hk in *. by apply Hkey. }
  exists (with_store s' d). split; [|done].
  unfold runSubmit. rewrite Hp, Hn. change (Z.to_nat 1) with 1%nat. cbn [Z.ltb Z.compare Pos.compare Pos.compare_cont submit_loop].
  assert (Hty : typed_job file_zone (job_of f p x)) by (by apply submit_typed).
  assert (Hreq : sendable (request_text MSubmit (submit_request f p 0)) = true).
  { destruct Hty as [Hi1 Hq1 Hh1 Hk1 _ _ _ _ _ _ _ _]. cbn in Hq1, Hh1, Hk1 |- *. rewrite Hq1, Hk1.
    by case_bool_decide as Ed; [rewrite Ed|rewrite Hh1]. }
  pose proof (client_call x c MSubmit (submit_request f p 0) d Hc Hreq) as [Hs Hr].
  cbn [implementation NewServer svc_Submit call] in Hs, Hr. unfold with_text, Submit, bind, on_store, zoom in Hs, Hr.
  rewrite Hrun in Hs, Hr. cbn in Hs, Hr. pose proof (tj_id _ _ Hty) as Hid. cbn in Hid. rewrite Hid in Hr.
  cbn in Hr. destruct (client_Submit c _ d) as [r d']. cbn [fst snd] in Hs, Hr. subst r d'.
  unfold output_line. cbn. by rewrite string_app_nil.
Qed.
(** What [get] shows of a job that has the identity of a submitted one. *)
Lemma get_command zone x c id d j :
  client_of x c -> jobs (mem (store d)) !! id = Some j -> valid_string id = true ->
  sendable (job_text (jobToProto j)) = true ->
  exists rows, runGet zone (fun id => (client_Get c id d).1) id = inr [Table rows] /\
    ["id"; ID j] ∈ rows /\ ["queue"; Queue j] ∈ rows /\ ["handler"; Handler j] ∈ rows /\
    ["priority"; priority_name (JPriority j)] ∈ rows /\
    (Payload j <> [] -> ["payload"; string_of_list_ascii (Payload j)] ∈ rows).
Proof.
  intros Hc Hj Hid Htx.
  assert (Hreq : sendable (request_text MGet id) = true) by (cbn; by rewrite Hid).
  pose proof (client_call x c MGet id d Hc Hreq) as [_ Hr].
  cbn [implementation NewServer svc_Get call fst] in Hr. unfold Get, Store.Get in Hr. rewrite Hj in Hr.
  change (response_text MGet _) with (job_text (jobToProto j)) in Hr. rewrite Htx in Hr.
  assert (Hg : (client_Get c id d).1 = inr (Some (jobToProto j))) by exact Hr. unfold runGet. cbv beta. rewrite Hg.
  eexists. split; [reflexivity|].
  cbn [jobToProto Id PJQueue PJHandler PJPriority PJPayload].
  split; [by apply elem_of_app; left; left|]. split; [by apply elem_of_app; left; do 1 right; left|].
  split; [by apply elem_of_app; left; do 3 right; left|]. split.
  - apply elem_of_app. left. do 4 right. by destruct (JPriority j); left.
  - intros Hp. apply elem_of_app. right. apply elem_of_app. right. apply elem_of_app. right.
    destruct (Payload j); [done|left].
Qed.

(** C3: What was submitted is there to be seen. [conveyor submit] of one job,
    against a broker whose store is in service and with a new key or none,
    prints the identifier of the job. After any later run of the store
    ([Life.run]: operations, unflushed snapshots as the broker takes them,
    crashes and recoveries), and wherever its broker is addressed then,
    [conveyor get] of that identifier shows the job: its queue, its handler, its
    priority and its payload are what the flags of [submit] said. Records are
    the program's own JSON, and one record fits the log; texts of the job are
    valid UTF-8 ([codec_ok]), and the connect library carries such messages.
    The conditions on a run are those of C5: no call on the log fails, a recovery
    meets no I/O error, and no crash loses records that a snapshot left on the
    disk already covers. *)
Theorem submitted_job_is_shown x c f p d dir :
  client_of x c -> in_service (store d) dir ->
  TrimSpace (submitQueue f) <> "" -> ParsePriority (submitPriority f) = inr p -> submitCount f = 1 ->
  jobs (mem (store d)) !! drawn_id x = None ->
  (submitIdempotencyKey f <> "" -> idem (mem (store d)) !! idemKey (submitQueue f) (submitIdempotencyKey f) = None) ->
  codec_ok (ev_submit (job_of f p x)) -> one_record_room (store d) ->
  exists id d', runSubmit (client_Submit c) f d = ([id], None, d') /\
    forall toks s2 dir2, run (store d') dir toks s2 dir2 ->
    forall zone x2 c2 d2, client_of x2 c2 -> store d2 = s2 ->
      exists rows, runGet zone (fun id => (client_Get c2 id d2).1) id = inr [Table rows] /\
        ["id"; id] ∈ rows /\ ["queue"; submitQueue f] ∈ rows /\
        ["handler"; if decide (submitHandler f = "") then "shell" else submitHandler f] ∈ rows /\
        ["priority"; priority_name p] ∈ rows /\
        (submitPayload f <> "" -> ["payload"; submitPayload f] ∈ rows).
Proof.
  intros Hc Hh Hq Hp Hn Hnew Hkey Hok Hroom.
  destruct (submit_command x c f p d dir Hc Hh Hq Hp Hn Hnew Hkey Hok Hroom) as (d' & Hrun & Hh' & Hd).
  exists (drawn_id x), d'. split; [done|]. intros toks s2 dir2 Hrun2 zone x2 c2 d2 Hc2 Hs2.
  destruct (durably_there _ _ _ _ _ _ Hh' Hd Hrun2) as (j & Hj & Hid). cbn in Hj.
  destruct (run_spec _ _ _ _ _ Hh' Hrun2) as (Hh2 & _). pose proof (stored_sendable _ _ _ _ Hh2 Hj) as Htx.
  rewrite <- Hs2 in Hj.
  destruct (get_command zone x2 c2 _ d2 j Hc2 Hj (tj_id _ _ (submit_typed _ Hok)) Htx) as (rows & Hrows & H1 & H2 & H3 & H4 & H5).
  unfold identity in Hid. injection Hid as E1 E2 E3 E4 _ E6 _ _. cbn in E1, E2, E3, E4, E6.
  exists rows. split; [done|]. rewrite E1 in H1. rewrite E2 in H2. rewrite E6 in H4. rewrite E3 in H3. rewrite E4 in H5.
  split; [done|]. split; [done|]. split; [by case_decide as Ed; [rewrite bool_decide_true in H3|rewrite bool_decide_false in H3]|].
  split; [by destruct p|].
  rewrite string_of_list_ascii_of_string in H5. intros Hpl. apply H5. by destruct (submitPayload f).
Qed.
End EndToEnd.

(** ** Witness *)

Definition shown_flags : submitFlags := mkSubmitFlags "mail" "echo" "" 1 "high" 0 "key-1" 1.

Lemma demo_client_of :
  client_of demo_zone (clib := loopback) (fun _ : storeError (log_err (L := Log)) => "") http_NotFound
    (mkDraws "job-1" 2000 no_jitter) (demo_client "localhost:7777//").
Proof.
  apply (dialled demo_zone (clib := loopback) (fun _ => "") http_NotFound (mkDraws "job-1" 2000 no_jitter)
    (network "localhost:7777" demo_server) "" "localhost:7777" 2).
  - split_and!; vm_compute; congruence.
  - by left.
  - apply network_dials.
Qed.

Lemma submitted_job_is_shown_witness :
  let c := demo_client "localhost:7777//" in
  exists id d', runSubmit (client_Submit c) shown_flags (NewDispatcher store0) = ([id], None, d') /\
    exists rows, runGet (fun _ => 0) (fun id => (client_Get c id d').1) id = inr [Table rows] /\
      ["priority"; "high"] ∈ rows /\ ["payload"; "echo"] ∈ rows.
Proof.
  cbv zeta.
  destruct (submitted_job_is_shown demo_zone (clib := loopback) (conn := loopback_laws) (fun _ => "") http_NotFound
    (mkDraws "job-1" 2000 no_jitter) (demo_client "localhost:7777//") shown_flags PriorityHigh
    (NewDispatcher store0) dir0 demo_client_of (healthy_in_service _ _ store0_healthy)) as (id & d' & H1 & H2).
  - vm_compute. discriminate.
  - vm_compute. reflexivity.
  - reflexivity.
  - vm_compute. reflexivity.
  - intros _. vm_compute. reflexivity.
  - vm_compute. reflexivity.
  - vm_compute. reflexivity.
  - exists id, d'. split; [exact H1|].
    destruct (H2 [] (store d') dir0 (run_nil _ _) (fun _ => 0) _ _ d' demo_client_of eq_refl)
      as (rows & Hr & _ & _ & _ & Hp & Hpl).
    exists rows. split; [exact Hr|]. split; [exact Hp|]. apply Hpl. discriminate.
Defined.
