(* ===== verification/Flags.v ===== *)
(** * Flags: the declarations of the command line, [cmd/conveyor]

    The commands as they are declared, their flags with the values they have
    when none is given, and how they are put together ([root.go] and the [init]
    functions). Parsing a command line is left to the library. *)
From S2P Require Import Prelude Job Framing LogSpec Wal Server Handler Worker Cli Commands Bench.
Local Open Scope string_scope.
Set Warnings "-register-all".

(** ** Declarations *)

Inductive flag :=
  | StringVar (name value usage : string)
  | IntVar (name : string) (value : Z) (usage : string)
  | DurationVar (name : string) (value : Duration) (usage : string).

Definition flag_name (f : flag) : string :=
  match f with StringVar n _ _ | IntVar n _ _ | DurationVar n _ _ => n end.

(** [Args] of a command; [None]: the library's own rule. *)
Inductive positional := ExactArgs (n : nat).

Inductive runE :=
  | RunBroker | RunSubmit | RunWorker | RunGet | RunStatus | RunDLQList | RunDLQReplay | RunBench.

Inductive command := Command {
  Use : string;
  Short : string;
  Args : option positional;
  RunE : option runE;
  PersistentFlags : list flag;
  Flags : list flag;
  RequiredFlags : list string;
  Commands : list command
}.

Definition declare (Use Short : string) (Args : option positional) (RunE : option runE) : command :=
  Command Use Short Args RunE [] [] [] [].

(** What the [init] functions do to a command. *)
Definition add_flags (fs : list flag) (c : command) : command :=
  Command (Use c) (Short c) (Args c) (RunE c) (PersistentFlags c) (Flags c ++ fs)%list (RequiredFlags c) (Commands c).
Definition add_persistent (fs : list flag) (c : command) : command :=
  Command (Use c) (Short c) (Args c) (RunE c) (PersistentFlags c ++ fs)%list (Flags c) (RequiredFlags c) (Commands c).
Definition MarkFlagRequired (name : string) (c : command) : command :=
  Command (Use c) (Short c) (Args c) (RunE c) (PersistentFlags c) (Flags c) (RequiredFlags c ++ [name])%list (Commands c).
Definition AddCommand (cs : list command) (c : command) : command :=
  Command (Use c) (Short c) (Args c) (RunE c) (PersistentFlags c) (Flags c) (RequiredFlags c) (Commands c ++ cs)%list.

Definition broker_flag : flag := StringVar "broker" "localhost:7777" "broker address".

(** ** The commands, file by file *)

Definition brokerCmd : command := declare "broker" "Manage the broker." None None.
Definition brokerStartCmd : command :=
  declare "start" "Start the broker (WAL-backed job store + lease dispatcher)." None (Some RunBroker).
Definition broker_start_init : command :=
  add_flags
    [StringVar "listen" "localhost:7777" "address to listen on";
     StringVar "data-dir" "./data" "directory for the WAL and snapshots";
     DurationVar "snapshot-interval" (30 * Second) "how often to snapshot the index and trim the WAL"]
    brokerStartCmd.
Definition broker_init : command := AddCommand [broker_start_init] brokerCmd.

Definition submitCmd : command := declare "submit" "Submit a job to a queue." None (Some RunSubmit).
Definition submit_init : command :=
  MarkFlagRequired "queue" (add_flags
    [broker_flag;
     StringVar "queue" "" "queue name (required)";
     StringVar "payload" "" "job payload";
     StringVar "handler" "shell" "handler to run this job (shell, webhook)";
     IntVar "max-retries" 5 "maximum delivery attempts before dead-lettering";
     StringVar "priority" "normal" "priority: low, normal, high";
     DurationVar "delay" 0 "delay before the job becomes eligible for lease";
     StringVar "idempotency-key" "" "dedup key for this submission";
     IntVar "count" 1 "number of jobs to submit"]
    submitCmd).

Definition workerCmd : command :=
  declare "worker" "Start a worker pool that leases and executes jobs." None (Some RunWorker).
Definition worker_init : command :=
  MarkFlagRequired "queue" (add_flags
    [broker_flag;
     StringVar "queue" "" "queue to consume from (required)";
     IntVar "concurrency" 4 "number of jobs to execute concurrently";
     DurationVar "lease-duration" (30 * Second) "how long to hold a job before the broker may reclaim it";
     StringVar "worker-id" "" "identifier for this worker (generated if empty)"]
    workerCmd).

Definition getCmd : command := declare "get [job-id]" "Look up a single job by ID." (Some (ExactArgs 1)) (Some RunGet).
Definition get_init : command := add_flags [broker_flag] getCmd.

Definition statusCmd : command :=
  declare "status" "Show queue depths, throughput, and failure counts." None (Some RunStatus).
Definition status_init : command :=
  add_flags [broker_flag; StringVar "queue" "" "restrict the report to one queue"] statusCmd.

Definition dlqCmd : command := declare "dlq" "Inspect and replay dead-lettered jobs." None None.
Definition dlqListCmd : command := declare "list" "List dead-lettered jobs." None (Some RunDLQList).
Definition dlqReplayCmd : command :=
  declare "replay [job-id]" "Requeue a dead-lettered job with a fresh retry budget." (Some (ExactArgs 1)) (Some RunDLQReplay).
Definition dlq_init : command :=
  AddCommand
    [add_flags [StringVar "queue" "" "restrict to one queue";
                IntVar "limit" 50 "maximum jobs to list (0 for no limit)"] dlqListCmd;
     dlqReplayCmd]
    (add_persistent [broker_flag] dlqCmd).

Definition benchCmd : command :=
  declare "bench" "Measure submission throughput and latency against a running broker." None (Some RunBench).
Definition bench_init : command :=
  add_flags
    [broker_flag;
     StringVar "queue" "bench" "queue to submit to";
     DurationVar "duration" (10 * Second) "how long to run";
     IntVar "concurrency" 16 "concurrent submitting clients";
     IntVar "rate" 0 "target submissions per second (0 for unthrottled)";
     IntVar "payload-size" 256 "payload size in bytes"]
    benchCmd.

(** The [init] functions run in the order of their files, and each adds its
    command to the root. *)
Definition rootCmd : command :=
  declare "conveyor" "Conveyor is a durable, distributed job-processing pipeline." None None.
Definition conveyor : command :=
  AddCommand [bench_init; broker_init; dlq_init; get_init; status_init; submit_init; worker_init] rootCmd.

(** [main], by the error that [Execute] returned: what goes to the standard
    error, and the exit status. *)
Definition main (err : option string) : list string * Z :=
  match err with Some e => ([e], 1) | None => ([], 0) end.

(** ** The variables the flags are bound to *)

(** A flag of a command as a value: what was given for it, or its default. *)
Section Values.
Context (given : string -> option flag) (c : command).

Definition flag_of (name : string) : option flag :=
  match given name with
  | Some f => Some f
  | None => find (fun f => String.eqb (flag_name f) name) (Flags c)
  end.

Definition string_of (name : string) : string :=
  match flag_of name with Some (StringVar _ v _) => v | _ => "" end.
Definition int_of (name : string) : Z :=
  match flag_of name with Some (IntVar _ v _) => v | _ => 0 end.
Definition duration_of (name : string) : Duration :=
  match flag_of name with Some (DurationVar _ v _) => v | _ => 0 end.
End Values.

Record brokerFlags := mkBrokerFlags {
  brokerAddr : string;
  brokerDataDir : string;
  brokerSnapshotFreq : Duration
}.

Definition broker_flags (given : string -> option flag) : brokerFlags :=
  mkBrokerFlags (string_of given broker_start_init "listen") (string_of given broker_start_init "data-dir")
    (duration_of given broker_start_init "snapshot-interval").

(** The ticker of the snapshot loop: [time.NewTicker] panics on a period that is
    not positive, and with it the broker. *)
Definition snapshot_ticker (f : brokerFlags) : string + Duration :=
  if (brokerSnapshotFreq f <=? 0)%Z then inl "non-positive interval for NewTicker"%string
  else inr (brokerSnapshotFreq f).

Definition submit_flags (given : string -> option flag) : submitFlags :=
  mkSubmitFlags (string_of given submit_init "queue") (string_of given submit_init "payload")
    (string_of given submit_init "handler") (int_of given submit_init "max-retries")
    (string_of given submit_init "priority") (duration_of given submit_init "delay")
    (string_of given submit_init "idempotency-key") (int_of given submit_init "count").

Definition worker_flags (given : string -> option flag) : workerFlags :=
  mkWorkerFlags (string_of given worker_init "queue") (int_of given worker_init "concurrency")
    (duration_of given worker_init "lease-duration") (string_of given worker_init "worker-id").

Definition bench_flags (given : string -> option flag) : benchFlags :=
  mkBenchFlags (string_of given bench_init "queue") (duration_of given bench_init "duration")
    (int_of given bench_init "concurrency") (int_of given bench_init "rate") (int_of given bench_init "payload-size").
