(* ===== verification/FlagsProps.v ===== *)
(** * FlagsProps: the declarations fit together

    No flag is declared twice, what is required is declared, the clients look
    for a broker where it listens, and the default values are ones that the
    commands take. *)
From S2P Require Import Prelude Job Framing LogSpec Wal Event Memory Store Server Handler Worker WorkerProps.
From S2P Require Import Cli Commands Bench Connect ConnectProps Flags.
Local Open Scope string_scope.

(** ** The tree *)

(** The name of a command is the first word of its [Use]. *)
Definition command_name (c : command) : string := (cut_any " " (Use c)).1.

(** A command, with the persistent flags of those above it, and all below. *)
Fixpoint walk (above : list flag) (c : command) : list (list flag * command) :=
  (above, c) :: concat (map (walk (above ++ PersistentFlags c)%list) (Commands c)).

(** What registering the flags and the commands needs: no flag has the name of
    another, [--help] included, no command that of its sibling, and what is
    required is a flag. *)
Definition declared_well (x : list flag * command) : Prop :=
  let flags := (x.1 ++ PersistentFlags x.2 ++ Flags x.2)%list in
  NoDup ("help" :: map flag_name flags) /\ NoDup (map command_name (Commands x.2)) /\
  Forall (fun r => r ∈ map flag_name flags) (RequiredFlags x.2) /\
  (RunE x.2 = None <-> Commands x.2 <> []).

#[export] Instance declared_well_dec x : Decision (declared_well x).
Proof.
  unfold declared_well.
  assert (Decision (RunE x.2 = None <-> Commands x.2 <> [])).
  { destruct (RunE x.2), (Commands x.2); [left|right|right|left]; intuition congruence. }
  apply _.
Defined.

Theorem declarations_sound : Forall declared_well (walk [] conveyor).
Proof. apply (bool_decide_unpack _). vm_compute. exact I. Qed.

(** ** Where the broker is *)

(** The default address of the flag [--listen]. *)
Definition listen_default : string := string_of (fun _ => None) broker_start_init "listen".

Definition broker_default (above : list flag) (c : command) : option string :=
  match find (fun f => String.eqb (flag_name f) "broker") (above ++ Flags c)%list with
  | Some (StringVar _ v _) => Some v
  | _ => None
  end.

(** Every command but [broker start] that runs is a client, and by default it
    dials the address at which a broker listens by default; [newClient] takes
    that address as it is. *)
Theorem defaults_meet :
  plain_host listen_default /\
  Forall (fun x => RunE x.2 = None \/ RunE x.2 = Some RunBroker \/
            broker_default x.1 x.2 = Some listen_default) (walk [] conveyor).
Proof.
  split; [split_and!; vm_compute; congruence|].
  set (l := walk [] conveyor). vm_compute in l. subst l.
  repeat (apply Forall_cons; split; [vm_compute; tauto|]). constructor.
Qed.

(** ** The default values *)

Definition only (name value : string) (x : string) : option flag :=
  if String.eqb x name then Some (StringVar name value "") else None.

(** With nothing given but what is required: [submit] asks for one job, of
    normal priority, with five retries and no key; a worker's heartbeats are in
    time for the lease it is granted; and [bench] runs, sending what does not
    collide. *)
Theorem defaults_work queue nanos random :
  let f := submit_flags (only "queue" queue) in
  let w := worker_pool (worker_flags (only "queue" queue)) nanos random in
  (ParsePriority (submitPriority f) = inr PriorityNormal /\ submitCount f = 1 /\
   submit_request f PriorityNormal 0 = mkSubmitRequest queue [] "shell" "" PRIORITY_NORMAL 5 0) /\
  (worker_flags (only "queue" queue) = worker_defaults queue /\ pool_defaults w = w /\
   heartbeat_interval w < granted_lease w /\ granted_lease w = LeaseDuration w) /\
  (bench_flags (fun _ => None) = bench_defaults /\
   forall parse before after addr clients order elapsed err,
     runBench bench_defaults parse before after addr clients order elapsed <> inl err).
Proof.
  cbv zeta. split; [|split].
  - split; [vm_compute; reflexivity|]. by split.
  - split; [done|]. split; [done|]. by split; vm_compute.
  - split; [done|]. intros parse before after addr clients order elapsed err.
    unfold runBench. cbn [benchConcurrency benchDuration benchPayloadSize benchRate bench_defaults].
    change (16 <? 1)%Z with false. change (10 * Second <=? 0)%Z with false. change (256 <? 0)%Z with false.
    change (0 <? 0)%Z with false. cbn [andb].
    destruct (scrapeCommitStats parse before addr), (scrapeCommitStats parse after addr). done.
Qed.

(** [--max-retries] is cut to 32 bits without a word: a limit that does not fit
    can become a negative one, which the store takes for none, so that the job
    is dead-lettered at its first failure. *)
Theorem max_retries_wraps f p i :
  submitMaxRetries f = 2 ^ 31 ->
  PMaxRetries (submit_defaults (submit_params (submit_request f p i))) = 0.
Proof. intros H. cbn. rewrite H. reflexivity. Qed.

(** [--snapshot-interval 0] does not turn snapshots off: the broker opens its
    store, starts, and panics. *)
Theorem snapshot_interval_panics given :
  given "snapshot-interval" = Some (DurationVar "snapshot-interval" 0 "") ->
  snapshot_ticker (broker_flags given) = inl "non-positive interval for NewTicker" /\
  snapshot_ticker (broker_flags (fun _ => None)) = inr (30 * Second).
Proof.
  intros H. split; [|done]. unfold broker_flags, snapshot_ticker, duration_of, flag_of. cbn [brokerSnapshotFreq].
  by rewrite H.
Qed.
